(* ===== verification/_CoqProject ===== *)
-Q . S2P
Prelude.v
Committee.v
Block.v
StakeAggregator.v
ThresholdClock.v
Commit.v
Store.v
LeaderScoring.v
DagState.v
DagInvariant.v
DagDurability.v
QuorumScan.v
CommitVoteMonitor.v
RoundTracker.v
AncestorState.v
LeaderSchedule.v
BaseCommitter.v
UniversalCommitter.v
CausalHistory.v
LeaderSlotDecider.v
BlockVerifier.v
BlockManager.v
BlockManagerSpec.v
CommitRules.v
CommitSafety.v
VoteAccounting.v
LeaderSlotSpec.v
Linearizer.v
LinearizerSpec.v
CommitTimestamp.v
CommitOrder.v
ScheduleSpec.v
TransactionVoteTracker.v
CommitFinalizer.v
CommitFinalizerSpec.v
CommitFinalizerSafety.v
CommitPipeline.v
LeaderScheduleV3.v
LeaderScheduleV3Spec.v
TransactionConsumer.v
Proposer.v
ProposerSpec.v
ProposerSafety.v
CommitSyncer.v
CommitSyncerSpec.v
CommitFetchSpec.v
CommitObserver.v
Core.v
CoreSpec.v
CoreNode.v
CoreRun.v
CoreAgreement.v
