(* ===== verification/Prelude.v ===== *)
(** * Verification of the Sui consensus core

    The program is the consensus engine of Sui validators (consensus/core,
    consensus/config and consensus/types): authorities exchange signed blocks that
    reference blocks of earlier rounds, every node builds the same directed acyclic
    graph of blocks, decides leader blocks by local rules on it, and outputs the same
    sequence of commits. This library models its components as executable functions
    and proves them correct. Each file names the source files it models; definitions
    keep the names of the source.

    ** How the source is represented

    - A method that mutates an object is a function that returns the new object.
      State behind a shared lock (the dag state, the vote tracker, the round tracker)
      is an argument and a result of the operations that use it.
    - [outcome] is the result of code that can panic: [Done], [Panic], or [OutOfFuel]
      for a loop that the model bounds. [ConsensusResult] is the error type of the
      source. A loop takes as fuel a bound on its iterations that the state determines
      (the number of cached blocks, of missing ancestors, of rounds); theorems that a
      function returns exclude both [Panic] and [OutOfFuel], so they also show that the
      fuel is enough.
    - Integers are [N] with explicit wrap-around where the source uses fixed-width
      arithmetic ([+₃₂], [-₃₂], [*₃₂], [+₆₄], [*₆₄], saturating and checked variants). A
      BTreeMap is a [gmap] iterated in key order ([map_in_order], [set_in_order]), a Vec
      a list with checked indexing ([vec_index], [vec_set]).
    - Code outside the repository is a parameter: hashing and encoding ([BlockCodec],
      [CommitCodec], [FetchCodec]), signatures ([BlockCrypto], [BlockSigner]), random
      choice ([LeaderRng]), the verifier of the application ([TransactionVerifier]), the
      clock and the answers of peers. The [Store] trait is a class with laws, and the
      in-memory store is an instance that is proved to satisfy them.

    ** The parts and their files

    - Foundations: this file; Committee.v (config/committee.rs), Block.v (types and
      core block.rs, context.rs), StakeAggregator.v, ThresholdClock.v, Commit.v
      (commit.rs), Store.v (storage/mod.rs, storage/mem_store.rs), LeaderScoring.v,
      QuorumScan.v (lemmas on scans by stake).
    - The dag: DagState.v (dag_state.rs), DagInvariant.v and DagDurability.v (its
      invariant, reads, flush, recovery and refinement), CausalHistory.v (views that are
      complete above the gc round), VoteAccounting.v (the accounting of commit rule v3).
    - Receiving blocks: BlockVerifier.v (block_verifier.rs), BlockManager.v and
      BlockManagerSpec.v (block_manager.rs).
    - Deciding leaders: LeaderSchedule.v, BaseCommitter.v, UniversalCommitter.v with
      CommitRules.v and CommitSafety.v; commit rule v3 in LeaderSlotDecider.v and
      LeaderSlotSpec.v, its schedule in LeaderScheduleV3.v and LeaderScheduleV3Spec.v.
    - Ordering and finalizing: Linearizer.v, LinearizerSpec.v, CommitTimestamp.v and
      CommitOrder.v (linearizer.rs); TransactionVoteTracker.v; CommitFinalizer.v,
      CommitFinalizerSpec.v and CommitFinalizerSafety.v (commit_finalizer.rs);
      CommitPipeline.v (both together); CommitObserver.v (commit_observer.rs).
    - Proposing: TransactionConsumer.v (transaction.rs), RoundTracker.v,
      AncestorState.v (ancestor.rs), Proposer.v, ProposerSpec.v and ProposerSafety.v
      (proposer.rs).
    - Catching up: CommitVoteMonitor.v, CommitSyncer.v, CommitSyncerSpec.v and
      CommitFetchSpec.v (commit_syncer.rs).

    The parts interact as in the source. Verified blocks go through the block manager
    into the dag state; the universal committer reads the dag state and the leader
    schedule; the linearizer turns decided leaders into sub-dags and commits, which the
    finalizer completes with the rejected transactions that the vote tracker reports;
    the proposer links new blocks to the dag; the commit syncer fetches commits that a
    quorum has voted for when the node is behind.

    ** What the theorems show

    - Safety of the protocol: nodes whose dags are views of one network with at most
      [f] faulty stake agree on every decided leader, on the order of the commits and
      on their timestamps' bounds (CommitSafety.v, CommitOrder.v, LeaderSlotSpec.v).
    - Every component returns: under the invariant of its state no assertion, lookup or
      index fails and no loop runs out of fuel, on every input the callers can give.
    - Invariants and refinement: the dag state refines an abstract append-only dag, loses
      nothing in a flush, and stays causally complete; the block manager
      suspends exactly the blocks with unknown ancestors; the incremental structures
      (threshold clock, vote accounting, reject votes, leader scores) equal their
      declarative definitions.
    - Progress: delivered blocks are accepted in any order, commits are finalized within
      three leader rounds, a forced proposal succeeds, and the commit syncer ends with
      everything scheduled synced and listens to correct peers.
    - Blocks that a validator proposes are valid for every verifier, stored before they
      are returned and never equivocate; transactions are included exactly once.
    - What is synced is what the network committed: Core only receives commits certified
      by a quorum, in order, with exactly their blocks; a restart resends exactly the
      commits that the application misses.

    ** Bounds

    Theorems on rounds and indices assume that they stay below the 32-bit maximum by the
    small constants the code adds, and that stakes sum up below 2^64, as the committee's
    constructor is proved to ensure. Thresholds are those of the source.

    ** Not modelled

    - Network, RPC handlers, asynchronous tasks, timers, channels and their shutdown
      (network/, authority_service.rs, synchronizer.rs, subscriber.rs, round_prober.rs,
      leader_timeout.rs, core_thread.rs, and the retry loop of commit_syncer.rs): they
      schedule the modelled operations and have no other state to verify; where their
      order matters, the theorems quantify over all orders of the operations.
    - rocksdb_store.rs, which calls the typed-store library: its contract is the class
      [StoreLaws].
    - Metrics, logs and host names, except for lookups in them that can panic.
    - Test-only code, and the election of leaders under [cfg(test)].
    - The rest of the repository (execution, Move, indexers, RPC, wallets): consensus
      does not depend on it. *)

(** ** Prelude

    Shared notation, the outcome monad, machine integers, stable sorting and
    generic lemmas on lists, finite sets and maps. *)

From stdpp Require Export prelude gmap list numbers sorting strings.

#[export] Set Warnings "-clear-no-such-hyp".

(** ** Outcomes

    Rust code either returns a value, panics ([assert!], [panic!], [unwrap],
    an index out of range), or, in the model only, runs out of the fuel a loop
    is given. [OutOfFuel] never stands for behaviour of the source: theorems
    that a function returns exclude it together with [Panic]. *)
Inductive outcome (A : Type) : Type :=
  | Done (a : A)
  | Panic
  | OutOfFuel.
Global Arguments Done {A} a.
Global Arguments Panic {A}.
Global Arguments OutOfFuel {A}.

Global Instance outcome_ret : MRet outcome := @Done.
Global Instance outcome_bind : MBind outcome := λ A B f m,
  match m with Done a => f a | Panic => Panic | OutOfFuel => OutOfFuel end.
Global Instance outcome_fmap : FMap outcome := λ A B f m,
  match m with Done a => Done (f a) | Panic => Panic | OutOfFuel => OutOfFuel end.
(** [assert!(P)]. *)
Definition rassert (P : Prop) `{Decision P} : outcome () :=
  if decide P then Done () else Panic.

(** [Option::unwrap], [Option::expect]. *)
Definition unwrap {A} (o : option A) : outcome A :=
  match o with Some a => Done a | None => Panic end.

Definition is_done {A} (m : outcome A) : Prop := ∃ a, m = Done a.

(** Rust's [Result]. *)
Inductive result (A E : Type) : Type :=
  | Ok (a : A)
  | Err (e : E).
Global Arguments Ok {A E} a.
Global Arguments Err {A E} e.

(** [Result::unwrap]. *)
Definition unwrap_ok {A E} (r : result A E) : outcome A :=
  match r with Ok a => Done a | Err _ => Panic end.

#[export] Instance Done_inj {A} : Inj (=) (=) (@Done A).
Proof. by intros ?? [=]. Qed.

Lemma bind_Done {A B} (m : outcome A) (f : A → outcome B) (b : B) :
  (m ≫= f) = Done b ↔ ∃ a, m = Done a ∧ f a = Done b.
Proof.
  destruct m as [a| |]; cbn; split; try (by intros (?&?&?)); try done.
  - by exists a.
  - by intros (?&[= ->]&?).
Qed.

Lemma fmap_Done {A B} (f : A → B) (m : outcome A) (b : B) :
  (f <$> m) = Done b ↔ ∃ a, m = Done a ∧ b = f a.
Proof.
  destruct m as [a| |]; cbn; split; try (by intros (?&?&?)); try done.
  - intros [= <-]; by exists a.
  - by intros (?&[= ->]&->).
Qed.

Lemma unwrap_Done {A} (o : option A) (a : A) :
  unwrap o = Done a ↔ o = Some a.
Proof. destruct o; cbn; naive_solver. Qed.

Lemma unwrap_ok_Done {A E} (r : result A E) (a : A) :
  unwrap_ok r = Done a ↔ r = Ok a.
Proof. destruct r; cbn; naive_solver. Qed.

Lemma rassert_Done P `{Decision P} u : rassert P = Done u ↔ P.
Proof. unfold rassert. destruct u. case_decide; naive_solver. Qed.

Lemma rassert_true P `{Decision P} : P → rassert P = Done ().
Proof. intros. by rewrite rassert_Done. Qed.

Lemma mret_Done {A} (a b : A) : (mret a : outcome A) = Done b ↔ a = b.
Proof. unfold mret, outcome_ret. naive_solver. Qed.

(** [invert_done] turns every hypothesis that a monadic program returned into
    the facts about its parts. *)
Ltac invert_done_step :=
  match goal with
  | H : (_ ≫= _) = Done _ |- _ =>
      apply bind_Done in H; destruct H as (? & ? & H); cbn beta in H
  | H : (_ <$> _) = Done _ |- _ => apply fmap_Done in H; destruct H as (? & ? & ?)
  | H : unwrap _ = Done _ |- _ => apply unwrap_Done in H
  | H : unwrap_ok _ = Done _ |- _ => apply unwrap_ok_Done in H
  | H : rassert _ = Done _ |- _ => apply rassert_Done in H
  | H : mret _ = Done _ |- _ => apply mret_Done in H; subst
  | H : Done _ = Done _ |- _ => apply Done_inj in H; subst
  | H : Panic = Done _ |- _ => discriminate H
  | H : OutOfFuel = Done _ |- _ => discriminate H
  end.
Ltac invert_done := repeat invert_done_step; simplify_eq.

(** [run_bind] continues a program whose first part is known to return. *)
Ltac run_bind := cbn [mbind outcome_bind].

(** Membership in a list that is given by its elements, and in loops over it. *)
Create HintDb lists.
#[export] Hint Resolve list_elem_of_here list_elem_of_further : lists.

(** Facts about the blocks of a dag; the components add their own. *)
Create HintDb dag.
#[export] Hint Resolve elem_of_dom_2 : dag.

(** Sequencing a program over a list, threading a state: a [for] loop. *)
Fixpoint for_each {A S} (f : S → A → outcome S) (s : S) (l : list A) : outcome S :=
  match l with
  | [] => Done s
  | x :: l => f s x ≫= λ s', for_each f s' l
  end.

Lemma for_each_app {A S} (f : S → A → outcome S) s l k :
  for_each f s (l ++ k) = for_each f s l ≫= λ s', for_each f s' k.
Proof.
  revert s. induction l as [|x l IH]; intros s; cbn; [done|].
  destruct (f s x); cbn; auto.
Qed.

(** Rule for [for] loops: an invariant of the body is an invariant of the loop. *)
Lemma for_each_inv {A S} (P : S → Prop) (f : S → A → outcome S) s l s' :
  P s → (∀ s1 x s2, x ∈ l → P s1 → f s1 x = Done s2 → P s2) →
  for_each f s l = Done s' → P s'.
Proof.
  revert s. induction l as [|x l IH]; intros s HP Hf; cbn.
  - intros. by invert_done.
  - intros. invert_done. eapply IH; [|by eauto with lists|done].
    eapply Hf; eauto. apply list_elem_of_here.
Qed.

(** A [for] loop whose body always returns under an invariant returns. *)
Lemma for_each_total {A S} (P : S → Prop) (f : S → A → outcome S) s l :
  P s → (∀ s1 x, x ∈ l → P s1 → ∃ s2, f s1 x = Done s2 ∧ P s2) →
  ∃ s', for_each f s l = Done s' ∧ P s'.
Proof.
  revert s. induction l as [|x l IH]; intros s HP Hf; cbn; [by eauto|].
  destruct (Hf s x) as (s2 & -> & ?); [apply list_elem_of_here|done|].
  cbn. apply IH; [done|]. eauto with lists.
Qed.

Lemma mapM_done {A B} (f : A → outcome B) (g : A → B) l :
  (∀ x, x ∈ l → f x = Done (g x)) → mapM f l = Done (g <$> l).
Proof.
  induction l as [|x l IH]; intros Hf; [done|]. cbn.
  rewrite (Hf x) by apply list_elem_of_here. cbn. rewrite IH; [done|].
  intros. by apply Hf, list_elem_of_further.
Qed.

Lemma mapM_total {A B} (f : A → outcome B) (P : A → B → Prop) l :
  (∀ x, x ∈ l → ∃ y, f x = Done y ∧ P x y) → ∃ ys, mapM f l = Done ys ∧ Forall2 P l ys.
Proof.
  induction l as [|x l IH]; intros Hf; [by exists []|]. destruct (Hf x) as (y & Hy & HP); [auto with lists|].
  destruct IH as (ys & Hys & HPs); [auto with lists|]. exists (y :: ys). cbn. rewrite Hy. run_bind. rewrite Hys.
  split; [done|by constructor].
Qed.

(** Unwrapping every element of a list of options that are all [Some]. *)
Lemma mapM_unwrap {A B} (f : A → option B) (l : list A) :
  (∀ x, x ∈ l → is_Some (f x)) → mapM unwrap (f <$> l) = Done (omap f l).
Proof.
  induction l as [|x l IH]; intros Hf; [done|]. destruct (Hf x) as [y Hy]; [apply list_elem_of_here|].
  change (f <$> x :: l) with (f x :: (f <$> l)). cbn [mapM]. rewrite Hy. cbn [unwrap mbind outcome_bind].
  rewrite IH by eauto with lists. cbn. by rewrite Hy.
Qed.

(** [Iterator::filter] and [Iterator::any] with closures that can panic; the
    closure of [any] may update a cache. *)
Fixpoint filter_outcome {A} (f : A → outcome bool) (l : list A) : outcome (list A) :=
  match l with
  | [] => Done []
  | x :: l => keep ← f x; rest ← filter_outcome f l; Done (if keep : bool then x :: rest else rest)
  end.

Fixpoint any_outcome {A S} (f : S → A → outcome (bool * S)) (s : S) (l : list A) : outcome (bool * S) :=
  match l with
  | [] => Done (false, s)
  | x :: l => '(p, s) ← f s x; if p : bool then Done (true, s) else any_outcome f s l
  end.

Lemma filter_outcome_done {A} (f : A → outcome bool) (p : A → bool) l :
  (∀ x, x ∈ l → f x = Done (p x)) → filter_outcome f l = Done (filter (λ x, p x = true) l).
Proof.
  induction l as [|x l IH]; intros Hf; [done|]. cbn [filter_outcome].
  rewrite Hf by apply list_elem_of_here. run_bind.
  rewrite IH by eauto with lists. run_bind. rewrite filter_cons.
  by destruct (p x).
Qed.

Lemma any_outcome_done {A S} (f : S → A → outcome (bool * S)) (p : A → bool) (I : S → Prop) s l :
  I s → (∀ s x, x ∈ l → I s → ∃ s', f s x = Done (p x, s') ∧ I s') →
  ∃ s', any_outcome f s l = Done (existsb p l, s') ∧ I s'.
Proof.
  revert s. induction l as [|x l IH]; intros s HI Hf; cbn [any_outcome existsb]; [by eauto|].
  destruct (Hf s x) as (s1 & -> & HI1); [apply list_elem_of_here|done|]. run_bind.
  destruct (p x); [by eauto|]. apply IH; [done|]. eauto with lists.
Qed.

(** ** Early returns

    Code in [Result] that can also panic is [outcome (result A E)]; [x ?← m; k]
    is [let x = m?; k], [ensure P e] the macro [ensure!], and [try_each] a [for]
    loop whose body can return early with an error. *)
Definition try_bind {A B E} (k : A → outcome (result B E)) (m : outcome (result A E)) :
    outcome (result B E) :=
  r ← m; match r with Ok a => k a | Err e => Done (Err e) end.

Notation "x ?← m ; k" := (try_bind (λ x, k) m)
  (at level 20, m at level 100, k at level 200, only parsing) : stdpp_scope.
Notation "m ?; k" := (try_bind (λ _, k) m)
  (at level 100, k at level 200, right associativity, only parsing) : stdpp_scope.

Definition ensure {E} (P : Prop) `{Decision P} (e : E) : outcome (result () E) :=
  if decide P then Done (Ok ()) else Done (Err e).

(** [Result::map_err] on an external call. *)
Definition ok_or {A E} (o : option A) (e : E) : result A E :=
  match o with Some a => Ok a | None => Err e end.

Fixpoint try_each {A S E} (f : S → A → outcome (result S E)) (s : S) (l : list A) :
    outcome (result S E) :=
  match l with
  | [] => Done (Ok s)
  | x :: l => try_bind (λ s', try_each f s' l) (f s x)
  end.

Lemma try_bind_Ok {A B E} (k : A → outcome (result B E)) m b :
  try_bind k m = Done (Ok b) ↔ ∃ a, m = Done (Ok a) ∧ k a = Done (Ok b).
Proof.
  unfold try_bind. destruct m as [[a|e]| |]; cbn; naive_solver.
Qed.

Lemma ensure_Ok {E} (P : Prop) `{Decision P} (e : E) u : ensure P e = Done (Ok u) ↔ P.
Proof. unfold ensure. destruct u. case_decide; naive_solver. Qed.

(** [decides m a P]: the program always returns; it succeeds, with [a], if [P]
    holds and fails with some error otherwise. *)
Definition decides {A E} (m : outcome (result A E)) (a : A) (P : Prop) : Prop :=
  (∃ e, m = Done (Err e) ∧ ¬ P) ∨ (m = Done (Ok a) ∧ P).

Section decides.
Context {A B E : Type}.
Implicit Types (m : outcome (result A E)) (k : A → outcome (result B E)).

Lemma decides_done m a P : decides m a P → is_done m.
Proof. unfold is_done. intros [(e & -> & _)|[-> _]]; eauto. Qed.

Lemma decides_iff m a b P : decides m a P → m = Done (Ok b) ↔ P ∧ b = a.
Proof. intros [(e & -> & ?)|[-> ?]]; naive_solver. Qed.

Lemma decides_Ok (a : A) (P : Prop) : P → decides (Done (Ok a) : outcome (result A E)) a P.
Proof. by right. Qed.

Lemma decides_bind m a P k b Q :
  decides m a P → (Q → P) → (P → decides (k a) b Q) → decides (try_bind k m) b Q.
Proof. intros [(e & -> & HP)|[-> HP]] HQP Hk; cbn; [left; naive_solver|auto]. Qed.

Lemma decides_ensure (P : Prop) `{Decision P} e (k : () → outcome (result B E)) b Q :
  (Q → P) → (P → decides (k ()) b Q) → decides (try_bind k (ensure P e)) b Q.
Proof. intros. unfold ensure. case_decide; cbn; [auto|left; naive_solver]. Qed.

Lemma decides_check (P : Prop) `{Decision P} (e : E) : decides (ensure P e) () P.
Proof. unfold ensure. case_decide; [by right|left; eauto]. Qed.

Lemma decides_proper m a (P Q : Prop) : (P ↔ Q) → decides m a P → decides m a Q.
Proof. unfold decides. naive_solver. Qed.
End decides.

(** A loop of checks on each element. *)
Lemma decides_each {A E} (P : A → Prop) (f : () → A → outcome (result () E)) l :
  (∀ x, decides (f () x) () (P x)) → decides (try_each f () l) () (Forall P l).
Proof.
  intros Hf. induction l as [|x l IH]; cbn; [by apply decides_Ok|].
  eapply decides_bind; [apply Hf| |].
  - by intros []%Forall_cons.
  - intros HP. eapply decides_proper; [|apply IH]. rewrite Forall_cons. tauto.
Qed.

(** ** Machine integers

    Unsigned integers are [N]. The release profile of the workspace does not
    turn on overflow checks, so [+], [-] and [*] wrap around at their width;
    [saturating_sub] is [N.sub]. *)
Definition u16_modulus : N := 2 ^ 16.
Definition u32_modulus : N := 2 ^ 32.
Definition u64_modulus : N := 2 ^ 64.
Definition u32_MAX : N := u32_modulus - 1.
Definition u64_MAX : N := u64_modulus - 1.

Definition wrap_add (m x y : N) : N := (x + y) `mod` m.
Definition wrap_sub (m x y : N) : N := (x + (m - y `mod` m)) `mod` m.
Definition wrap_mul (m x y : N) : N := (x * y) `mod` m.

(** [saturating_add] on [u32]. *)
Definition u32_saturating_add (x y : N) : N := N.min (x + y) u32_MAX.
(** [checked_mul] on [u64]. *)
Definition u64_checked_mul (x y : N) : option N :=
  if decide (x * y < u64_modulus)%N then Some (x * y)%N else None.
(** [checked_add] on [u64]. *)
Definition u64_checked_add (x y : N) : option N :=
  if decide (x + y < u64_modulus)%N then Some (x + y)%N else None.
(** [checked_sub]. *)
Definition checked_sub (x y : N) : option N :=
  if decide (y ≤ x)%N then Some (x - y)%N else None.
(** [checked_div]. *)
Definition checked_div (x y : N) : option N :=
  if decide (y = 0)%N then None else Some (x `div` y)%N.

Declare Scope machine_scope.
Delimit Scope machine_scope with M.
Notation "x +₃₂ y" := (wrap_add u32_modulus x y) (at level 50, left associativity) : machine_scope.
Notation "x -₃₂ y" := (wrap_sub u32_modulus x y) (at level 50, left associativity) : machine_scope.
Notation "x *₃₂ y" := (wrap_mul u32_modulus x y) (at level 40, left associativity) : machine_scope.
Notation "x +₆₄ y" := (wrap_add u64_modulus x y) (at level 50, left associativity) : machine_scope.
Notation "x -₆₄ y" := (wrap_sub u64_modulus x y) (at level 50, left associativity) : machine_scope.
Notation "x *₆₄ y" := (wrap_mul u64_modulus x y) (at level 40, left associativity) : machine_scope.
Global Open Scope machine_scope.

Lemma wrap_add_small m x y : (x + y < m)%N → wrap_add m x y = (x + y)%N.
Proof. intros. unfold wrap_add. by rewrite N.mod_small. Qed.

Lemma wrap_mul_small m x y : (x * y < m)%N → wrap_mul m x y = (x * y)%N.
Proof. intros. unfold wrap_mul. by rewrite N.mod_small. Qed.

Lemma wrap_sub_small m x y : (y ≤ x)%N → (x < m)%N → wrap_sub m x y = (x - y)%N.
Proof.
  intros Hy Hx. unfold wrap_sub. rewrite (N.mod_small y) by lia.
  replace (x + (m - y))%N with (x - y + 1 * m)%N by lia.
  rewrite N.Div0.mod_add. apply N.mod_small. lia.
Qed.

Lemma wrap_add_lt m x y : (m ≠ 0)%N → (wrap_add m x y < m)%N.
Proof. intros. by apply N.mod_lt. Qed.

(** ** Stable sorting

    [slice::sort_by] and friends are stable; iteration over a [BTreeSet] or a
    [BTreeMap] visits the keys in ascending order. Both are modelled by
    insertion sort on a decidable total preorder. *)
Section stable_sort.
Context {A : Type} (R : relation A) `{!RelDecision R}.

Fixpoint sort_insert (x : A) (l : list A) : list A :=
  match l with
  | [] => [x]
  | y :: l' => if decide (R x y) then x :: l else y :: sort_insert x l'
  end.

Definition stable_sort (l : list A) : list A := foldr sort_insert [] l.

Lemma sort_insert_perm x l : sort_insert x l ≡ₚ x :: l.
Proof.
  induction l as [|y l IH]; cbn; [done|]. case_decide; [done|].
  rewrite IH. apply Permutation_swap.
Qed.

Lemma stable_sort_perm l : stable_sort l ≡ₚ l.
Proof. induction l as [|x l IH]; cbn; [done|]. by rewrite sort_insert_perm, IH. Qed.

Lemma sort_insert_sorted `{!Transitive R, !Total R} x l :
  StronglySorted R l → StronglySorted R (sort_insert x l).
Proof.
  induction 1 as [|y l Hl IH Hy]; cbn; [by repeat constructor|].
  case_decide as HR.
  - constructor; [by constructor|]. constructor; [done|].
    eapply Forall_impl; [exact Hy|]. intros z Hz. by trans y.
  - constructor; [done|]. apply Forall_forall. intros z.
    rewrite sort_insert_perm, elem_of_cons. intros [->|Hz].
    + by destruct (total R x y).
    + eapply Forall_forall in Hy; done.
Qed.

Lemma stable_sort_sorted `{!Transitive R, !Total R} l :
  StronglySorted R (stable_sort l).
Proof. induction l; cbn; [constructor|]. by apply sort_insert_sorted. Qed.

Lemma elem_of_stable_sort x l : x ∈ stable_sort l ↔ x ∈ l.
Proof. by rewrite stable_sort_perm. Qed.

Lemma stable_sort_length l : length (stable_sort l) = length l.
Proof. by rewrite stable_sort_perm. Qed.

Lemma NoDup_stable_sort l : NoDup (stable_sort l) ↔ NoDup l.
Proof. by rewrite stable_sort_perm. Qed.

(** Inserting before elements of a class it does not belong to keeps the class
    in order; this is what stability means for a key [P]. *)
Lemma sort_insert_filter_out (P : A → Prop) `{!∀ x, Decision (P x)} x l :
  ¬ P x → filter P (sort_insert x l) = filter P l.
Proof.
  intros Hx. induction l as [|y l IH]; cbn.
  - by rewrite decide_False.
  - case_decide; rewrite !filter_cons; [by rewrite (decide_False (P:=P x))|].
    by rewrite IH.
Qed.

Lemma sort_insert_filter_in (P : A → Prop) `{!∀ x, Decision (P x)} x l :
  P x → (∀ y, P y → R x y) → filter P (sort_insert x l) = x :: filter P l.
Proof.
  intros Hx HR. induction l as [|y l IH]; cbn.
  - by rewrite decide_True.
  - case_decide as Hxy; rewrite !filter_cons.
    + by rewrite (decide_True (P:=P x)).
    + rewrite IH. by rewrite !decide_False by naive_solver.
Qed.

(** Stability: elements equivalent to each other keep their relative order. *)
Lemma stable_sort_stable (P : A → Prop) `{!∀ x, Decision (P x)} l :
  (∀ x y, P x → P y → R x y) → filter P (stable_sort l) = filter P l.
Proof.
  intros HP. induction l as [|x l IH]; [done|].
  change (stable_sort (x :: l)) with (sort_insert x (stable_sort l)).
  rewrite filter_cons. case_decide.
  - rewrite sort_insert_filter_in by eauto. by rewrite IH.
  - by rewrite sort_insert_filter_out, IH.
Qed.

End stable_sort.

(** Two permutations of each other, sorted by an order, are equal. *)
Lemma stable_sort_canonical {A} (R : relation A) `{!RelDecision R}
    `{!Transitive R, !Total R, !AntiSymm (=) R} (l k : list A) :
  l ≡ₚ k → stable_sort R l = stable_sort R k.
Proof.
  intros Hlk. apply (StronglySorted_unique R); try apply stable_sort_sorted; try done.
  by rewrite !stable_sort_perm.
Qed.

(** ** Sums *)
Definition sumN (l : list N) : N := foldr N.add 0%N l.

Definition set_sum `{Countable A} (f : A → N) (X : gset A) : N :=
  sumN (f <$> elements X).

Lemma sumN_app l k : sumN (l ++ k) = (sumN l + sumN k)%N.
Proof. induction l; cbn; [done|]. unfold sumN in *. cbn. lia. Qed.

#[export] Instance sumN_perm : Proper ((≡ₚ) ==> (=)) sumN.
Proof. induction 1; unfold sumN in *; cbn; lia. Qed.

(** [Iterator::sum] on [u64] wraps. *)
Definition u64_sum (l : list N) : N := foldl (wrap_add u64_modulus) 0%N l.

Lemma u64_sum_acc_small l a :
  (a + sumN l < u64_modulus)%N →
  foldl (wrap_add u64_modulus) a l = (a + sumN l)%N.
Proof.
  revert a. induction l as [|x l IH]; intros a Ha; cbn in *; [lia|].
  change (foldr N.add 0%N l) with (sumN l) in *.
  rewrite wrap_add_small by lia. rewrite IH by lia. lia.
Qed.

Lemma u64_sum_small l : (sumN l < u64_modulus)%N → u64_sum l = sumN l.
Proof. intros. unfold u64_sum. rewrite u64_sum_acc_small; lia. Qed.

Section set_sum.
Context `{Countable A} (f : A → N).
Implicit Types X Y : gset A.

Lemma set_sum_empty : set_sum f ∅ = 0%N.
Proof. unfold set_sum. by rewrite elements_empty. Qed.

Lemma set_sum_disj_union X Y :
  X ## Y → set_sum f (X ∪ Y) = (set_sum f X + set_sum f Y)%N.
Proof.
  intros. unfold set_sum. rewrite elements_disj_union by done.
  by rewrite fmap_app, sumN_app.
Qed.

Lemma set_sum_singleton x : set_sum f {[x]} = f x.
Proof. unfold set_sum. rewrite elements_singleton. cbn. lia. Qed.

Lemma set_sum_insert x X : x ∉ X → set_sum f ({[x]} ∪ X) = (f x + set_sum f X)%N.
Proof. intros. rewrite set_sum_disj_union by set_solver. by rewrite set_sum_singleton. Qed.

Lemma set_sum_split X Y : set_sum f X = (set_sum f (X ∩ Y) + set_sum f (X ∖ Y))%N.
Proof.
  rewrite <- set_sum_disj_union by set_solver. f_equal. apply set_eq. intros z.
  destruct (decide (z ∈ Y)); set_solver.
Qed.

Lemma set_sum_mono X Y : X ⊆ Y → (set_sum f X ≤ set_sum f Y)%N.
Proof.
  intros HXY. rewrite (set_sum_split Y X).
  assert (Y ∩ X = X) as -> by set_solver. lia.
Qed.

Lemma set_sum_union_inter X Y :
  (set_sum f (X ∪ Y) + set_sum f (X ∩ Y) = set_sum f X + set_sum f Y)%N.
Proof.
  replace (X ∪ Y) with (X ∪ (Y ∖ X)) by
    (apply set_eq; intros z; destruct (decide (z ∈ X)); set_solver).
  rewrite set_sum_disj_union by set_solver.
  rewrite (set_sum_split Y X). assert (Y ∩ X = X ∩ Y) as -> by set_solver. lia.
Qed.

Lemma set_sum_list_to_set (l : list A) :
  NoDup l → set_sum f (list_to_set l) = sumN (f <$> l).
Proof. intros. unfold set_sum. by rewrite elements_list_to_set. Qed.

End set_sum.

(** ** Vectors indexed by machine integers *)
Definition vec_index {A} (l : list A) (i : N) : outcome A := unwrap (l !! N.to_nat i).

Definition vec_set {A} (l : list A) (i : N) (x : A) : outcome (list A) :=
  rassert (N.to_nat i < length l);; Done (<[N.to_nat i := x]> l).

Lemma vec_index_Done {A} (l : list A) i x :
  vec_index l i = Done x ↔ l !! N.to_nat i = Some x.
Proof. apply unwrap_Done. Qed.

Lemma vec_index_some {A} (l : list A) i x :
  l !! N.to_nat i = Some x → vec_index l i = Done x.
Proof. apply unwrap_Done. Qed.

Lemma vec_set_Done {A} (l : list A) i x l' :
  vec_set l i x = Done l' ↔ N.to_nat i < length l ∧ l' = <[N.to_nat i := x]> l.
Proof. unfold vec_set, rassert. case_decide; cbn; naive_solver. Qed.

Lemma vec_set_lt {A} (l : list A) i x :
  N.to_nat i < length l → vec_set l i x = Done (<[N.to_nat i := x]> l).
Proof. intros. by apply vec_set_Done. Qed.

(** [(0..n)] as [u32] or [usize] values. *)
Definition rangeN (start stop : N) : list N :=
  (λ i, start + N.of_nat i)%N <$> seq 0 (N.to_nat (stop - start)).

Lemma elem_of_rangeN i a b : i ∈ rangeN a b ↔ (a ≤ i < b)%N.
Proof.
  unfold rangeN. rewrite list_elem_of_fmap. setoid_rewrite elem_of_seq. split.
  - intros (j & -> & ?). lia.
  - intros. exists (N.to_nat (i - a)). lia.
Qed.

Lemma rangeN_length a b : length (rangeN a b) = N.to_nat (b - a).
Proof. unfold rangeN. by rewrite length_fmap, length_seq. Qed.

Lemma rangeN_lookup a b i : i < N.to_nat (b - a) → rangeN a b !! i = Some (a + N.of_nat i)%N.
Proof. intros Hi. unfold rangeN. by rewrite list_lookup_fmap, lookup_seq_lt. Qed.

Lemma rangeN_empty a b : (b ≤ a)%N → rangeN a b = [].
Proof. intros. unfold rangeN. by replace (N.to_nat (b - a)) with 0 by lia. Qed.

Lemma rangeN_snoc a b : (a ≤ b)%N → rangeN a (b + 1) = rangeN a b ++ [b].
Proof.
  intros. unfold rangeN. replace (N.to_nat (b + 1 - a)) with (S (N.to_nat (b - a))) by lia.
  rewrite seq_S, fmap_app. cbn. do 2 f_equal. lia.
Qed.

Lemma rangeN_cons a b : (a < b)%N → rangeN a b = a :: rangeN (a + 1) b.
Proof.
  intros. unfold rangeN. replace (N.to_nat (b - a)) with (S (N.to_nat (b - (a + 1)))) by lia.
  rewrite <- cons_seq, <- fmap_S_seq, fmap_cons, <- list_fmap_compose. f_equal; [lia|].
  apply list_fmap_ext. intros _ i _. cbn. lia.
Qed.

Lemma NoDup_rangeN a b : NoDup (rangeN a b).
Proof. apply NoDup_fmap_2_strong; [|apply NoDup_seq]. intros; lia. Qed.

(** The number of elements of a list, as a [usize]. *)
Definition lengthN {A} (l : list A) : N := N.of_nat (length l).

Lemma list_filter_all {A} (P : A → Prop) `{!∀ x, Decision (P x)} (l : list A) :
  (∀ x, x ∈ l → P x) → filter P l = l.
Proof.
  induction l as [|x l IH]; intros HP; [done|]. rewrite filter_cons, decide_True by (apply HP, list_elem_of_here).
  f_equal. eauto with lists.
Qed.

Lemma list_filter_none {A} (P : A → Prop) `{!∀ x, Decision (P x)} (l : list A) :
  (∀ x, x ∈ l → ¬ P x) → filter P l = [].
Proof.
  induction l as [|x l IH]; intros HP; [done|]. rewrite filter_cons, decide_False by (apply HP, list_elem_of_here).
  eauto with lists.
Qed.

Lemma list_filter_iff' {A} (P Q : A → Prop) `{!∀ x, Decision (P x), !∀ x, Decision (Q x)} (l : list A) :
  (∀ x, x ∈ l → P x ↔ Q x) → filter P l = filter Q l.
Proof.
  induction l as [|x l IH]; intros HPQ; [done|]. rewrite !filter_cons.
  rewrite IH by eauto with lists. pose proof (HPQ x (list_elem_of_here _ _)).
  repeat case_decide; tauto || done.
Qed.

Lemma list_fmap_alt {A B} (f : A → B) l : f <$> l = map f l.
Proof. done. Qed.

(** [Iterator::take] with a count too large for a unary number. *)
Fixpoint takeN {A} (n : N) (l : list A) : list A :=
  match l with
  | [] => []
  | x :: l => if (n =? 0)%N then [] else x :: takeN (n - 1)%N l
  end.

Lemma takeN_take {A} n (l : list A) : takeN n l = take (N.to_nat n) l.
Proof.
  revert n. induction l as [|x l IH]; intros n; cbn; [by rewrite take_nil|].
  destruct (N.eqb_spec n 0) as [->|]; [done|].
  rewrite IH. replace (N.to_nat n) with (S (N.to_nat (n - 1))) by lia. done.
Qed.

(** A prefix of a sorted list holds its smallest elements. *)
Lemma StronglySorted_take {A} (R : relation A) n l :
  StronglySorted R l → StronglySorted R (take n l).
Proof. intros Hs. rewrite <- (take_drop n l) in Hs. by apply StronglySorted_app_1_l in Hs. Qed.

Lemma StronglySorted_take_le {A} (R : relation A) n l x :
  StronglySorted R l → x ∈ l →
  x ∈ take n l ∨ (length (take n l) = n ∧ ∀ y, y ∈ take n l → R y x).
Proof.
  intros Hs Hx. rewrite <- (take_drop n l) in Hx, Hs.
  apply elem_of_app in Hx as [Hx|Hx]; [by left|right]. split.
  - apply length_take_le. destruct (decide (n ≤ length l)) as [|Hn]; [done|].
    rewrite drop_ge in Hx by lia. set_solver.
  - intros y Hy. eapply StronglySorted_app_1_elem_of; eauto.
Qed.

Lemma StronglySorted_fmap_impl {A B} (R : relation A) (R' : relation B) (f : A → B) l :
  (∀ x y, x ∈ l → y ∈ l → R x y → R' (f x) (f y)) → StronglySorted R l →
  StronglySorted R' (f <$> l).
Proof.
  intros HR Hs. induction Hs as [|x l Hs IH Hf]; cbn; constructor.
  - apply IH. set_solver.
  - apply Forall_forall. intros y (z & -> & Hz)%list_elem_of_fmap.
    apply HR; [set_solver..|]. rewrite Forall_forall in Hf. by apply Hf.
Qed.

Lemma StronglySorted_filter {A} (R : relation A) P `{!∀ x, Decision (P x)} l :
  StronglySorted R l → StronglySorted R (filter P l).
Proof.
  induction 1 as [|x l Hs IH Hf]; [constructor|]. rewrite filter_cons. case_decide; [|done].
  constructor; [done|]. rewrite Forall_forall in *. intros y [_ Hy]%list_elem_of_filter. auto.
Qed.

(** A list answered locally where possible, with one remote query for the
    elements left over, filled back in by index: the shape of the reads of the
    dag state, which answer from memory and then from the store. *)
Definition resolve_step {A B} (local : A → outcome (option B)) (st : list B * list (nat * A))
    (e : nat * A) : outcome (list B * list (nat * A)) :=
  o ← local e.2;
  match o with
  | Some b => Done (<[e.1 := b]> st.1, st.2)
  | None => Done (st.1, st.2 ++ [e])
  end.

Definition resolve {A B} (dflt : B) (local : A → outcome (option B))
    (remote : list A → outcome (list B)) (l : list A) : outcome (list B) :=
  '(found, missing) ← for_each (resolve_step local)
    (replicate (length l) dflt, []) (zip (seq 0 (length l)) l);
  match missing with
  | [] => Done found
  | _ =>
      results ← remote (snd <$> missing);
      Done (foldl (λ found '(e, b), <[fst e := b]> found) found (zip missing results))
  end.

Section resolve.
Context {A B} (dflt : B) (local : A → outcome (option B)) (loc : A → option B).

Lemma resolve_step_eq st i x :
  local x = Done (loc x) →
  resolve_step local st (i, x) = Done (match loc x with
    | Some b => (<[i := b]> st.1, st.2) | None => (st.1, st.2 ++ [(i, x)]) end).
Proof. intros Hx. unfold resolve_step. cbn. rewrite Hx. cbn. by destruct (loc x). Qed.

Lemma resolve_loop pre l found missing :
  (∀ x, x ∈ l → local x = Done (loc x)) →
  length found = length (pre ++ l) →
  (∀ i x, pre !! i = Some x → found !! i = Some (default dflt (loc x))) →
  (∀ i, length pre ≤ i < length found → found !! i = Some dflt) →
  ∃ found', for_each (resolve_step local) (found, missing) (zip (seq (length pre) (length l)) l) =
      Done (found', missing ++ filter (λ e, loc e.2 = None) (zip (seq (length pre) (length l)) l)) ∧
    length found' = length (pre ++ l) ∧
    ∀ i x, (pre ++ l) !! i = Some x → found' !! i = Some (default dflt (loc x)).
Proof.
  revert pre found missing. induction l as [|x l IH]; intros pre found missing Hloc Hlen Hpre Hrest.
  { exists found. cbn. rewrite !app_nil_r in *. done. }
  cbn [length seq zip zip_with for_each].
  rewrite (resolve_step_eq _ _ _ (Hloc x (list_elem_of_here _ _))). cbn [mbind outcome_bind fst snd].
  assert (length pre < length found) as Hlt by (rewrite Hlen, length_app; cbn; lia).
  replace (S (length pre)) with (length (pre ++ [x])) by (rewrite length_app; cbn; lia).
  replace (pre ++ x :: l) with ((pre ++ [x]) ++ l) in * by by rewrite <- app_assoc.
  rewrite filter_cons. cbn [snd].
  destruct (loc x) as [b|] eqn:Hx.
  - rewrite decide_False by done. apply IH.
    + eauto with lists.
    + by rewrite length_insert.
    + intros i y [Hi|[Hi Hy]]%lookup_app_Some.
      * rewrite list_lookup_insert_ne; [by apply Hpre|]. apply lookup_lt_Some in Hi. lia.
      * apply list_lookup_singleton_Some in Hy as [? <-]. assert (i = length pre) as -> by lia.
        by rewrite list_lookup_insert_eq, Hx.
    + intros i. rewrite length_insert, length_app. cbn. intros Hi.
      rewrite list_lookup_insert_ne by lia. apply Hrest. lia.
  - rewrite decide_True by done. destruct (IH (pre ++ [x]) found (missing ++ [(length pre, x)]))
      as (found' & -> & H1 & H2).
    + eauto with lists.
    + done.
    + intros i y [Hi|[Hi Hy]]%lookup_app_Some; [by apply Hpre|].
      apply list_lookup_singleton_Some in Hy as [? <-]. assert (i = length pre) as -> by lia.
      rewrite Hx. apply Hrest. lia.
    + intros i. rewrite length_app. cbn. intros Hi. apply Hrest. lia.
    + exists found'. rewrite <- app_assoc. done.
Qed.

Lemma resolve_fill (rem : A → B) missing found :
  NoDup missing.*1 →
  ∀ i, i < length found →
    foldl (λ found '(e, b), <[fst e := b]> found) found (zip missing (rem <$> missing.*2)) !! i =
    match list_find (λ e, e.1 = i) missing with
    | Some (_, (_, x)) => Some (rem x)
    | None => found !! i
    end.
Proof.
  revert found. induction missing as [|[j x] missing IH]; intros found Hnd i Hi; cbn; [done|].
  inversion Hnd as [|? ? Hnin Hnd']; subst. rewrite IH by (try rewrite length_insert; done).
  destruct (decide (j = i)) as [->|Hne].
  - destruct (list_find (λ e, e.1 = i) missing) as [[k [i' y]]|] eqn:Hf.
    + apply list_find_Some in Hf as (Hk & Heq & _). cbn in Heq. subst.
      destruct Hnin. apply list_elem_of_fmap. exists (i, y). split; [done|].
      by eapply list_elem_of_lookup_2.
    + cbn. by rewrite list_lookup_insert_eq.
  - destruct (list_find (λ e, e.1 = i) missing) as [[k [i' y]]|]; cbn; [done|].
    by rewrite list_lookup_insert_ne.
Qed.

Lemma resolve_fill_length found (zs : list (nat * A * B)) :
  length (foldl (λ found '(e, b), <[fst e := b]> found) found zs) = length found.
Proof.
  revert found. induction zs as [|[[j x] b] zs IH]; intros found; cbn; [done|].
  by rewrite IH, length_insert.
Qed.

Lemma resolve_spec (rem : A → B) (remote : list A → outcome (list B)) l :
  (∀ x, x ∈ l → local x = Done (loc x)) →
  (∀ xs, (∀ x, x ∈ xs → x ∈ l ∧ loc x = None) → remote xs = Done (rem <$> xs)) →
  resolve dflt local remote l = Done ((λ x, default (rem x) (loc x)) <$> l).
Proof.
  intros Hloc Hrem. unfold resolve.
  destruct (resolve_loop [] l (replicate (length l) dflt) []) as (found & Hrun & Hlen & Hfound).
  { done. } { by rewrite length_replicate. } { done. }
  { intros i. cbn. rewrite length_replicate. intros. apply lookup_replicate_2. lia. }
  cbn [app length] in *. rewrite Hrun. run_bind. clear Hrun.
  set (missing := filter _ _) in *.
  assert (∀ i x, (i, x) ∈ missing ↔ l !! i = Some x ∧ loc x = None) as Hmiss.
  { intros i x. unfold missing. rewrite list_elem_of_filter, elem_of_lookup_zip_with. cbn. split.
    - intros (Hn & j & i' & x' & [= <- <-] & [-> ?]%lookup_seq & ?). done.
    - intros [Hi Hn]. split; [done|]. exists i, i, x. split_and!; [done| |done].
      apply lookup_seq. apply lookup_lt_Some in Hi. lia. }
  assert (NoDup missing.*1) as Hnd.
  { apply (sublist_NoDup _ (seq 0 (length l))); [apply NoDup_seq|].
    assert (seq 0 (length l) = (zip (seq 0 (length l)) l).*1) as Hseq
      by (rewrite fst_zip; [done|by rewrite length_seq]).
    rewrite Hseq. apply fmap_sublist, sublist_filter. }
  assert (Done found = Done ((λ x, default (rem x) (loc x)) <$> l) ∨ missing ≠ []) as Hcase.
  { destruct missing as [|e0 mis] eqn:Hm; [left|by right]. f_equal. apply list_eq. intros i.
    rewrite list_lookup_fmap. destruct (l !! i) as [x|] eqn:Hi; cbn.
    - rewrite (Hfound _ _ Hi). destruct (loc x) eqn:Hx; [done|].
      assert ((i, x) ∈ []) by (by apply Hmiss). set_solver.
    - apply lookup_ge_None. apply lookup_ge_None in Hi. lia. }
  assert (missing ≠ [] → remote missing.*2 ≫= (λ results,
    Done (foldl (λ found '(e, b), <[fst e := b]> found) found (zip missing results))) =
    Done ((λ x, default (rem x) (loc x)) <$> l)) as Hfill.
  { intros _. rewrite Hrem.
    2: { intros x ([i y] & -> & [Hi Hy]%Hmiss)%list_elem_of_fmap. cbn.
         split; [by eapply list_elem_of_lookup_2|done]. }
    cbn. f_equal. apply list_eq. intros i. rewrite list_lookup_fmap.
    destruct (l !! i) as [x|] eqn:Hi; cbn.
    - rewrite resolve_fill; [|done|apply lookup_lt_Some in Hi; lia].
      destruct (list_find (λ e, e.1 = i) missing) as [[k [i' y]]|] eqn:Hf.
      + apply list_find_Some in Hf as (Hk & Heq & _). cbn in Heq. subst.
        apply list_elem_of_lookup_2, Hmiss in Hk as [Hy Hyn]. simplify_eq. by rewrite Hyn.
      + rewrite (Hfound _ _ Hi). destruct (loc x) eqn:Hx; [done|].
        rewrite list_find_None, Forall_forall in Hf. destruct (Hf (i, x)); [by apply Hmiss|done].
    - apply lookup_ge_None. apply lookup_ge_None in Hi.
      rewrite resolve_fill_length. lia. }
  destruct missing; [by destruct Hcase|]. by apply Hfill.
Qed.

End resolve.

(** ** Ordered containers

    A [BTreeSet] is a [gset] and a [BTreeMap] a [gmap]; iteration visits the keys
    in the order [R] of their type. *)
Section ordered.
Context `{Countable K} (R : relation K) `{!RelDecision R}.

Definition set_in_order (X : gset K) : list K := stable_sort R (elements X).

Definition map_in_order {V} (m : gmap K V) : list (K * V) :=
  omap (λ k, pair k <$> m !! k) (set_in_order (dom m)).

(** [first] and [last]; on maps, [first_key_value] and [last_key_value]. *)
Definition set_first (X : gset K) : option K := head (set_in_order X).
Definition set_last (X : gset K) : option K := last (set_in_order X).
Definition map_first {V} (m : gmap K V) : option (K * V) := head (map_in_order m).
Definition map_last {V} (m : gmap K V) : option (K * V) := last (map_in_order m).

Lemma elem_of_set_in_order k X : k ∈ set_in_order X ↔ k ∈ X.
Proof. unfold set_in_order. by rewrite elem_of_stable_sort, elem_of_elements. Qed.

Lemma NoDup_set_in_order X : NoDup (set_in_order X).
Proof. apply NoDup_stable_sort, NoDup_elements. Qed.

Lemma elem_of_map_in_order {V} (m : gmap K V) k v :
  (k, v) ∈ map_in_order m ↔ m !! k = Some v.
Proof.
  unfold map_in_order. rewrite list_elem_of_omap.
  setoid_rewrite elem_of_set_in_order. split.
  - intros (k' & _ & Hk). destruct (m !! k') eqn:E; naive_solver.
  - intros Hm. exists k. rewrite Hm. split; [by eapply elem_of_dom_2|done].
Qed.

Lemma map_in_order_keys {V} (m : gmap K V) :
  (map_in_order m).*1 = set_in_order (dom m).
Proof.
  unfold map_in_order.
  assert (∀ k, k ∈ set_in_order (dom m) → is_Some (m !! k)) as Hdom.
  { intros k. rewrite elem_of_set_in_order. apply elem_of_dom. }
  induction (set_in_order (dom m)) as [|k l IH]; [done|].
  destruct (Hdom k) as [v Hv]; [apply list_elem_of_here|]. simpl. rewrite Hv. simpl. f_equal.
  apply IH. intros. apply Hdom. by apply list_elem_of_further.
Qed.

Lemma NoDup_map_in_order {V} (m : gmap K V) : NoDup (map_in_order m).
Proof. apply (NoDup_fmap_1 fst). rewrite map_in_order_keys. apply NoDup_set_in_order. Qed.

Context `{!Transitive R, !Total R}.

Lemma set_in_order_sorted X : StronglySorted R (set_in_order X).
Proof. by apply stable_sort_sorted. Qed.

Lemma StronglySorted_last `{!Reflexive R} l x y :
  StronglySorted R l → last l = Some x → y ∈ l → R y x.
Proof.
  intros Hs Hl Hy. apply last_Some in Hl as [l' ->].
  apply elem_of_app in Hy as [Hy|Hy%list_elem_of_singleton]; [|by subst].
  eapply StronglySorted_app_1_elem_of; eauto. apply list_elem_of_here.
Qed.

Lemma StronglySorted_head `{!Reflexive R} l x y :
  StronglySorted R l → head l = Some x → y ∈ l → R x y.
Proof.
  destruct l as [|z l]; [done|]. intros Hs [= ->] Hy.
  apply elem_of_cons in Hy as [->|Hy]; [done|].
  inversion Hs as [|? ? _ Hf]; subst. rewrite Forall_forall in Hf. auto.
Qed.

Context `{!Reflexive R, !AntiSymm (=) R}.

(** [last] is the greatest element. *)
Lemma set_last_Some X k :
  set_last X = Some k ↔ k ∈ X ∧ ∀ k', k' ∈ X → R k' k.
Proof.
  unfold set_last. split.
  - intros Hl. split.
    + apply elem_of_set_in_order. apply last_Some in Hl as [l' Hl]. rewrite Hl. set_solver.
    + intros k' Hk'. eapply StronglySorted_last; [apply set_in_order_sorted|done|].
      by apply elem_of_set_in_order.
  - intros [Hk Hmax]. destruct (last (set_in_order X)) as [x|] eqn:Hl.
    + assert (x ∈ X) as Hx.
      { apply elem_of_set_in_order. apply last_Some in Hl as [l' ->]. set_solver. }
      f_equal. apply (anti_symm R); [by apply Hmax|].
      eapply StronglySorted_last; [apply set_in_order_sorted|done|].
      by apply elem_of_set_in_order.
    + apply last_None in Hl. apply elem_of_set_in_order in Hk. rewrite Hl in Hk. set_solver.
Qed.

Lemma set_last_None X : set_last X = None ↔ X = ∅.
Proof.
  unfold set_last. rewrite last_None. split.
  - intros Hl. apply set_eq. intros k. rewrite <- elem_of_set_in_order, Hl. set_solver.
  - intros ->. unfold set_in_order. by rewrite elements_empty.
Qed.

Lemma set_last_insert X k :
  set_last ({[k]} ∪ X) = Some (match set_last X with
    | Some m => if decide (R m k) then k else m | None => k end).
Proof.
  apply set_last_Some. destruct (set_last X) as [m|] eqn:E.
  - apply set_last_Some in E as [Hm Hmax]. case_decide as Hle.
    + split; [set_solver|]. intros k' [->%elem_of_singleton|Hk']%elem_of_union; [done|].
      trans m; auto.
    + split; [set_solver|]. intros k' [->%elem_of_singleton|Hk']%elem_of_union; [|by auto].
      by destruct (total R m k).
  - apply set_last_None in E as ->. split; [set_solver|]. intros k'. set_unfold.
    intros [->|[]]. done.
Qed.

Lemma set_first_Some X k :
  set_first X = Some k ↔ k ∈ X ∧ ∀ k', k' ∈ X → R k k'.
Proof.
  unfold set_first. split.
  - intros Hl. split.
    + apply elem_of_set_in_order. destruct (set_in_order X); [done|]. cbn in Hl. set_solver.
    + intros k' Hk'. eapply StronglySorted_head; [apply set_in_order_sorted|done|].
      by apply elem_of_set_in_order.
  - intros [Hk Hmin]. destruct (set_in_order X) as [|x l] eqn:Hl.
    + apply elem_of_set_in_order in Hk. rewrite Hl in Hk. set_solver.
    + assert (x ∈ X) as Hx by (apply elem_of_set_in_order; rewrite Hl; set_solver).
      cbn. f_equal. apply (anti_symm R); [|by apply Hmin].
      eapply StronglySorted_head; [apply (set_in_order_sorted X)|by rewrite Hl|].
      by apply elem_of_set_in_order.
Qed.

Lemma map_first_Some {V} (m : gmap K V) k v :
  map_first m = Some (k, v) → m !! k = Some v ∧ ∀ k', k' ∈ dom m → R k k'.
Proof.
  intros Hf. assert ((k, v) ∈ map_in_order m) as Hin.
  { unfold map_first in Hf. destruct (map_in_order m); [done|]. cbn in Hf. set_solver. }
  split; [by apply elem_of_map_in_order|]. apply (set_first_Some (dom m) k). unfold set_first.
  rewrite <- map_in_order_keys. unfold map_first in Hf. destruct (map_in_order m); [done|]. cbn in *. by simplify_eq.
Qed.

Lemma map_first_None {V} (m : gmap K V) : map_first m = None → m = ∅.
Proof.
  intros Hf. apply map_empty. intros k. destruct (m !! k) as [v|] eqn:Hk; [|done].
  apply elem_of_map_in_order in Hk. unfold map_first in Hf. destruct (map_in_order m); [set_solver|done].
Qed.

End ordered.

(** The order of tuples is lexicographic. *)
Section lex.
Context {A B} `{EqDecision A} (RA : relation A) (RB : relation B).

Definition lex_le (x y : A * B) : Prop :=
  (x.1 ≠ y.1 ∧ RA x.1 y.1) ∨ (x.1 = y.1 ∧ RB x.2 y.2).

#[export] Instance lex_le_dec `{!RelDecision RA, !RelDecision RB} : RelDecision lex_le.
Proof. intros [] []. unfold lex_le. apply _. Defined.

#[export] Instance lex_le_refl `{!Reflexive RB} : Reflexive lex_le.
Proof. intros []. by right. Qed.

#[export] Instance lex_le_trans `{!Transitive RA, !AntiSymm (=) RA, !Transitive RB} :
  Transitive lex_le.
Proof.
  intros [a1 b1] [a2 b2] [a3 b3] [[H1 H1']|[H1 H1']] [[H2 H2']|[H2 H2']];
    cbn in *; subst; unfold lex_le; cbn.
  - left. split; [|by etrans]. intros ->. apply H1. by apply (anti_symm RA).
  - by left.
  - by left.
  - right. split; [done|by etrans].
Qed.

#[export] Instance lex_le_total `{!Total RA, !Total RB} : Total lex_le.
Proof.
  intros [a1 b1] [a2 b2]. unfold lex_le. cbn. destruct (decide (a1 = a2)) as [->|?].
  - destruct (total RB b1 b2); auto.
  - destruct (total RA a1 a2); auto.
Qed.

#[export] Instance lex_le_antisymm `{!AntiSymm (=) RA, !AntiSymm (=) RB} : AntiSymm (=) lex_le.
Proof.
  intros [a1 b1] [a2 b2] [[H1 H1']|[H1 H1']] [[H2 H2']|[H2 H2']]; cbn in *; subst; try done.
  - destruct H1. by apply (anti_symm RA).
  - f_equal. by apply (anti_symm RB).
Qed.

End lex.

(** [BTreeSet::range] and [BTreeMap::range] panic on an inverted range. *)
Definition btree_range {K V} (R : relation K) `{!RelDecision R} (key : V → K)
    (lo hi : K) (l : list V) : outcome (list V) :=
  rassert (R lo hi);; Done (filter (λ v, R lo (key v) ∧ R (key v) hi) l).
