(* ===== verification/Committee.v ===== *)
(** * Committee (consensus/config/src/committee.rs)

    The committee of an epoch: authorities with their stake, and the stake
    thresholds of the protocol. [Committee_new] and [Committee_new_v3] compute
    the thresholds; the lemmas of this file are the stake arithmetic every
    quorum argument of the development rests on. *)

From S2P Require Import Prelude.

(** Voting power, name and protocol key (its bytes) of one authority. The network
    address and the other two public keys of the source's [Authority] are not
    read by any modelled operation. *)
Record Authority := mkAuthority {
  stake : N;
  hostname : string;
  protocol_key : list N;
}.

Record Committee := mkCommittee {
  epoch : N;
  authorities : list Authority;
  total_stake : N;
  quorum_threshold : N;
  certification_threshold : N;
  validity_threshold : N;
}.

(** [AuthorityIndex] is a [u32]. *)
Definition AuthorityIndex_ZERO : N := 0.
Definition AuthorityIndex_MIN : N := AuthorityIndex_ZERO.
Definition AuthorityIndex_MAX : N := u32_MAX.

Definition Committee_new (epoch : N) (authorities : list Authority) : outcome Committee :=
  rassert (authorities ≠ []);;
  rassert (lengthN authorities < u32_MAX)%N;;
  let total_stake := u64_sum (stake <$> authorities) in
  rassert (total_stake ≠ 0%N);;
  (* Tolerate integer f faults when total stake is 3f+1. *)
  let fault_tolerance := ((total_stake -₆₄ 1) `div` 3)%N in
  let quorum_threshold := total_stake -₆₄ fault_tolerance in
  let validity_threshold := fault_tolerance +₆₄ 1 in
  rassert (total_stake < (2 *₆₄ quorum_threshold) -₆₄ fault_tolerance)%N;;
  Done {| epoch := epoch;
          authorities := authorities;
          total_stake := total_stake;
          quorum_threshold := quorum_threshold;
          validity_threshold := validity_threshold;
          certification_threshold := quorum_threshold |}.

(** The closure [scale] of [Committee::new_v3]. *)
Definition scale_stake (actual_total_stake base_stake nominal : N) : outcome N :=
  product ← unwrap (u64_checked_mul nominal (actual_total_stake -₆₄ 1));
  unwrap (checked_div product base_stake).

Definition Committee_new_v3 (epoch : N) (authorities : list Authority)
    (malicious_stake crash_stake : N) : outcome Committee :=
  rassert (authorities ≠ []);;
  rassert (lengthN authorities < u32_MAX)%N;;
  let actual_total_stake := u64_sum (stake <$> authorities) in
  rassert (actual_total_stake ≠ 0%N);;
  let base_stake := (5 *₆₄ malicious_stake) +₆₄ (3 *₆₄ crash_stake) in
  '(f, c) ← (if decide (0 < base_stake)%N then
      f ← scale_stake actual_total_stake base_stake malicious_stake;
      c ← scale_stake actual_total_stake base_stake crash_stake;
      Done (f, c)
    else Done (0%N, 0%N));
  let validity_threshold := f +₆₄ 1 in
  let certification_threshold := ((2 *₆₄ f) +₆₄ c) +₆₄ 1 in
  let quorum_threshold := (actual_total_stake -₆₄ f) -₆₄ c in
  rassert ((actual_total_stake +₆₄ f) +₆₄ 1 ≤ certification_threshold +₆₄ quorum_threshold)%N;;
  rassert ((actual_total_stake +₆₄ f) +₆₄ certification_threshold ≤ quorum_threshold *₆₄ 2)%N;;
  Done {| epoch := epoch;
          total_stake := actual_total_stake;
          quorum_threshold := quorum_threshold;
          certification_threshold := certification_threshold;
          validity_threshold := validity_threshold;
          authorities := authorities |}.

Definition authority (c : Committee) (i : N) : outcome Authority :=
  vec_index (authorities c) i.

Definition Committee_stake (c : Committee) (i : N) : outcome N :=
  a ← authority c i; Done (stake a).

(** The indices the [authorities()] iterator yields, in order. *)
Definition authorities_iter (c : Committee) : list (N * Authority) :=
  imap (λ i a, (N.of_nat i, a)) (authorities c).

Definition reached_quorum (c : Committee) (s : N) : bool :=
  bool_decide (quorum_threshold c ≤ s)%N.

Definition reached_validity (c : Committee) (s : N) : bool :=
  bool_decide (validity_threshold c ≤ s)%N.

Definition Committee_size (c : Committee) : N := lengthN (authorities c).

Definition to_authority_index (c : Committee) (index : N) : option N :=
  if decide (index < Committee_size c)%N then Some index else None.

Definition is_valid_index (c : Committee) (i : N) : bool :=
  bool_decide (i < Committee_size c)%N.

(** ** Stake of sets of authorities *)

(** Stake of an authority, 0 for an index outside the committee. *)
Definition stake_of (c : Committee) (i : N) : N :=
  default 0%N (stake <$> authorities c !! N.to_nat i).

(** Stake of a set of authorities. *)
Definition set_stake (c : Committee) (X : gset N) : N := set_sum (stake_of c) X.

(** All authority indices of the committee. *)
Definition all_authorities (c : Committee) : gset N :=
  list_to_set (rangeN 0 (Committee_size c)).

(** The committee was built from its authorities without overflow and has a
    positive stake. *)
Record committee_ok (c : Committee) : Prop := {
  co_total : total_stake c = sumN (stake <$> authorities c);
  co_pos : (0 < total_stake c)%N;
  co_bound : (3 * total_stake c < u64_modulus)%N;
  co_len : (lengthN (authorities c) < u32_MAX)%N;
}.

(** Two quorums share more stake than a fault budget [f]. *)
Definition quorums_intersect (c : Committee) (f : N) : Prop :=
  (total_stake c + f < 2 * quorum_threshold c)%N ∧ (quorum_threshold c ≤ total_stake c)%N.

Lemma Committee_stake_Done c i s :
  Committee_stake c i = Done s ↔ (i < Committee_size c)%N ∧ s = stake_of c i.
Proof.
  unfold Committee_stake, authority, vec_index, stake_of, Committee_size, lengthN.
  destruct (authorities c !! N.to_nat i) as [a|] eqn:Hi; cbn.
  - apply lookup_lt_Some in Hi as Hlt. split.
    + intros [= <-]. split; [lia|done].
    + by intros [_ ->].
  - apply lookup_ge_None in Hi. split; [done|lia].
Qed.

Lemma Committee_stake_valid c i :
  (i < Committee_size c)%N → Committee_stake c i = Done (stake_of c i).
Proof. intros. by apply Committee_stake_Done. Qed.

Lemma stake_of_invalid c i : ¬ (i < Committee_size c)%N → stake_of c i = 0%N.
Proof.
  intros Hi. unfold stake_of, Committee_size, lengthN in *.
  rewrite lookup_ge_None_2 by lia. done.
Qed.

Lemma elem_of_all_authorities c i :
  i ∈ all_authorities c ↔ (i < Committee_size c)%N.
Proof.
  unfold all_authorities. rewrite elem_of_list_to_set, elem_of_rangeN. lia.
Qed.

Lemma authorities_iter_fst c : map fst (authorities_iter c) = rangeN 0 (Committee_size c).
Proof.
  unfold authorities_iter, rangeN, Committee_size, lengthN. apply list_eq. intros i.
  rewrite <- list_fmap_alt, !list_lookup_fmap, list_lookup_imap. cbn.
  replace (N.to_nat (N.of_nat (length (authorities c)) - 0)) with (length (authorities c)) by lia.
  destruct (authorities c !! i) as [x|] eqn:Hi; cbn.
  - apply lookup_lt_Some in Hi. by rewrite lookup_seq_lt.
  - apply lookup_ge_None in Hi. by rewrite lookup_seq_ge.
Qed.

Lemma set_stake_all c : set_stake c (all_authorities c) = sumN (stake <$> authorities c).
Proof.
  unfold set_stake, all_authorities. rewrite set_sum_list_to_set by apply NoDup_rangeN.
  f_equal. unfold rangeN, Committee_size, lengthN. rewrite <- list_fmap_compose.
  replace (N.to_nat (N.of_nat (length (authorities c)) - 0)) with
    (length (authorities c)) by lia.
  apply list_eq. intros i. rewrite !list_lookup_fmap.
  destruct (decide (i < length (authorities c))) as [Hi|Hi].
  - rewrite lookup_seq_lt by done. apply lookup_lt_is_Some_2 in Hi as [a Ha].
    rewrite Ha. simpl. unfold stake_of.
    replace (N.to_nat (0 + N.of_nat i)) with i by lia. by rewrite Ha.
  - rewrite lookup_seq_ge by lia. rewrite (lookup_ge_None_2 (authorities c)) by lia. done.
Qed.

Lemma set_stake_le_total c X : (set_stake c X ≤ sumN (stake <$> authorities c))%N.
Proof.
  rewrite <- set_stake_all. unfold set_stake.
  rewrite (set_sum_split _ X (all_authorities c)).
  assert (set_sum (stake_of c) (X ∖ all_authorities c) = 0%N) as ->.
  { unfold set_sum. assert (∀ i, i ∈ elements (X ∖ all_authorities c) → stake_of c i = 0%N) as H.
    { intros i Hi. apply stake_of_invalid. rewrite <- elem_of_all_authorities. set_solver. }
    induction (elements (X ∖ all_authorities c)) as [|x l IH]; cbn; [done|].
    rewrite H by apply list_elem_of_here. unfold sumN in IH. rewrite IH; [done|].
    intros. apply H. by apply list_elem_of_further. }
  rewrite N.add_0_r. apply set_sum_mono. set_solver.
Qed.

(** Quorum intersection, the arithmetic core of every safety argument: two sets
    of authorities that reach the stakes [q1] and [q2] with [q1 + q2] above the
    total plus the faulty stake share an authority that is not faulty. *)
Lemma stake_intersection c (X Y byz : gset N) q1 q2 :
  (q1 ≤ set_stake c X)%N → (q2 ≤ set_stake c Y)%N →
  (sumN (stake <$> authorities c) + set_stake c byz < q1 + q2)%N →
  ∃ a, a ∈ X ∧ a ∈ Y ∧ a ∉ byz.
Proof.
  intros HX HY Hq.
  destruct (decide ((X ∩ Y) ∖ byz = ∅)) as [Hempty|Hne].
  - exfalso.
    assert (set_stake c (X ∩ Y) ≤ set_stake c byz)%N.
    { apply set_sum_mono. intros z Hz. destruct (decide (z ∈ byz)); set_solver. }
    pose proof (set_sum_union_inter (stake_of c) X Y).
    pose proof (set_stake_le_total c (X ∪ Y)). unfold set_stake in *. lia.
  - apply set_choose_L in Hne as [a Ha]. exists a. set_solver.
Qed.

Lemma quorum_intersection c (X Y byz : gset N) f :
  committee_ok c → quorums_intersect c f →
  (quorum_threshold c ≤ set_stake c X)%N → (quorum_threshold c ≤ set_stake c Y)%N →
  (set_stake c byz ≤ f)%N →
  ∃ a, a ∈ X ∧ a ∈ Y ∧ a ∉ byz.
Proof.
  intros Hok [Hq _] HX HY Hbyz. eapply stake_intersection; eauto.
  pose proof (co_total _ Hok). lia.
Qed.

Lemma quorum_nonempty c (X : gset N) f :
  committee_ok c → quorums_intersect c f →
  (quorum_threshold c ≤ set_stake c X)%N → ∃ a, a ∈ X.
Proof.
  intros Hok Hq HX. destruct (quorum_intersection c X X ∅ f) as (a & ? & _); try done.
  { unfold set_stake. rewrite set_sum_empty. lia. } by exists a.
Qed.

(** ** The thresholds *)

Lemma u64_sub_small x y : (y ≤ x)%N → (x < u64_modulus)%N → x -₆₄ y = (x - y)%N.
Proof. apply wrap_sub_small. Qed.

Ltac unwrap_u64 :=
  repeat first
    [ rewrite wrap_add_small by lia | rewrite wrap_mul_small by lia
    | rewrite wrap_sub_small by lia ].

Lemma third_bounds T :
  (0 < T)%N → (3 * ((T - 1) `div` 3) + 1 ≤ T ≤ 3 * ((T - 1) `div` 3) + 3)%N.
Proof.
  intros. pose proof (N.div_mod' (T - 1) 3). pose proof (N.mod_lt (T - 1) 3 ltac:(lia)).
  generalize dependent ((T - 1) `div` 3)%N. generalize dependent ((T - 1) `mod` 3)%N. lia.
Qed.

(** C36: building a committee succeeds for every non-empty set of authorities whose
    total stake [T] is positive and far from the [u64] bound. With
    [f = (T - 1) / 3] the thresholds are [T - f] (quorum and certification) and
    [f + 1] (validity), the assertion in the code never fires, two quorums share
    more than [f] stake, and the authorities outside a set of stake [f] still
    form a quorum. *)
Theorem Committee_new_thresholds e auths (T := sumN (stake <$> auths)) (f := ((T - 1) `div` 3)%N) :
  auths ≠ [] → (lengthN auths < u32_MAX)%N → (0 < T)%N → (3 * T < u64_modulus)%N →
  ∃ c, Committee_new e auths = Done c ∧ committee_ok c ∧
    total_stake c = T ∧ epoch c = e ∧ authorities c = auths ∧
    quorum_threshold c = (T - f)%N ∧ certification_threshold c = (T - f)%N ∧
    validity_threshold c = (f + 1)%N ∧
    (3 * f + 1 ≤ T ≤ 3 * f + 3)%N ∧ quorums_intersect c f ∧
    (∀ byz, set_stake c byz ≤ f →
       quorum_threshold c ≤ set_stake c (all_authorities c ∖ byz))%N.
Proof.
  intros Hne Hlen HT Hb.
  assert (3 * f + 1 ≤ T ≤ 3 * f + 3)%N as Hf.
  { by apply third_bounds. }
  unfold Committee_new. rewrite u64_sum_small by (fold T; lia). fold T.
  rewrite (wrap_sub_small _ T 1) by lia. fold f.
  rewrite (wrap_sub_small _ T f) by lia. rewrite (wrap_add_small _ f) by lia.
  rewrite wrap_mul_small by lia. rewrite wrap_sub_small by lia.
  rewrite !rassert_true by (try done; lia). cbn.
  eexists. split; [done|]. split; [split; cbn; (lia || done)|]. repeat (split; [done|]).
  split.
  - split; cbn; lia.
  - intros byz Hbyz. cbn. match goal with |- context [set_stake ?c0 _] => set (c := c0) in * end.
    pose proof (set_sum_split (stake_of c) (all_authorities c) byz) as Hs.
    change (set_sum (stake_of c)) with (set_stake c) in Hs.
    rewrite set_stake_all in Hs. change (sumN (stake <$> authorities c)) with T in Hs.
    assert (set_stake c (all_authorities c ∩ byz) ≤ set_stake c byz)%N
      by (apply set_sum_mono; set_solver).
    lia.
Qed.

Lemma Committee_new_thresholds_witness :
  ∃ c, Committee_new 0 [mkAuthority 1 "a" []; mkAuthority 1 "b" []; mkAuthority 1 "c" []; mkAuthority 1 "d" []]
       = Done c ∧ quorum_threshold c = 3%N ∧ validity_threshold c = 2%N.
Proof.
  destruct (Committee_new_thresholds 0
    [mkAuthority 1 "a" []; mkAuthority 1 "b" []; mkAuthority 1 "c" []; mkAuthority 1 "d" []])
    as (c & Hc & _ & _ & _ & _ & Hq & _ & Hv & _); [done|vm_compute; done..|].
  exists c. split; [exact Hc|]. split; [exact Hq|exact Hv].
Defined.

Lemma scaled_budget (T base x y : N) :
  (0 < base)%N → (5 * x + 3 * y = base)%N → (0 < T)%N →
  (5 * ((x * (T - 1)) `div` base) + 3 * ((y * (T - 1)) `div` base) + 1 ≤ T)%N.
Proof.
  intros Hb Hbase HT.
  pose proof (N.Div0.mul_div_le (x * (T - 1)) base).
  pose proof (N.Div0.mul_div_le (y * (T - 1)) base).
  set (p := ((x * (T - 1)) `div` base)%N) in *. set (q := ((y * (T - 1)) `div` base)%N) in *.
  assert (base * (5 * p + 3 * q) ≤ base * (T - 1))%N by nia.
  apply N.mul_le_mono_pos_l in H1; lia.
Qed.

(** the v3 committee. With a nominal budget of [m] malicious and [k] crash
    stake, and no overflow of the products the code takes, [new_v3] succeeds and
    scales the budget to [f] and [c] with [5f + 3c + 1 ≤ T]. Neither assertion
    fires: a certificate and a quorum share more than [f] stake, and two quorums
    share a certificate even after removing [f] stake. *)
Theorem Committee_new_v3_thresholds e auths m k (T := sumN (stake <$> auths)) :
  auths ≠ [] → (lengthN auths < u32_MAX)%N → (0 < T)%N → (3 * T < u64_modulus)%N →
  (5 * m + 3 * k < u64_modulus)%N →
  (m * (T - 1) < u64_modulus)%N → (k * (T - 1) < u64_modulus)%N →
  ∃ c f cr, Committee_new_v3 e auths m k = Done c ∧ committee_ok c ∧ authorities c = auths ∧
    f = ((m * (T - 1)) `div` (5 * m + 3 * k))%N ∧
    cr = ((k * (T - 1)) `div` (5 * m + 3 * k))%N ∧
    (5 * f + 3 * cr + 1 ≤ T)%N ∧
    total_stake c = T ∧
    validity_threshold c = (f + 1)%N ∧
    certification_threshold c = (2 * f + cr + 1)%N ∧
    quorum_threshold c = (T - f - cr)%N ∧
    (T + f < certification_threshold c + quorum_threshold c)%N ∧
    (T + f + certification_threshold c ≤ 2 * quorum_threshold c)%N ∧
    quorums_intersect c f.
Proof.
  intros Hne Hlen HT Hb Hbase Hm Hk.
  set (base := (5 * m + 3 * k)%N) in *.
  set (f := ((m * (T - 1)) `div` base)%N). set (cr := ((k * (T - 1)) `div` base)%N).
  assert (5 * f + 3 * cr + 1 ≤ T)%N as Hfc.
  { destruct (decide (0 < base)%N) as [Hpos|Hz].
    - by apply scaled_budget.
    - assert (m = 0 ∧ k = 0)%N as [-> ->] by lia. unfold f, cr. rewrite !N.mul_0_l, N.Div0.div_0_l. lia. }
  unfold Committee_new_v3. rewrite u64_sum_small by (fold T; lia). fold T.
  rewrite (wrap_mul_small _ 5), (wrap_mul_small _ 3) by lia.
  rewrite (wrap_add_small _ (5 * m)) by lia. fold base.
  rewrite (rassert_true (auths ≠ [])) by done. rewrite (rassert_true (lengthN auths < _)%N) by done.
  rewrite (rassert_true (T ≠ 0%N)) by lia. run_bind.
  assert ((if decide (0 < base)%N then
      f ← scale_stake T base m; c ← scale_stake T base k; Done (f, c)
      else Done (0%N, 0%N)) = Done (f, cr)) as ->.
  { case_decide as Hpos.
    - unfold scale_stake, u64_checked_mul, checked_div. rewrite wrap_sub_small by lia.
      rewrite !decide_True by done. cbn. rewrite !decide_False by lia. done.
    - assert (m = 0 ∧ k = 0)%N as [-> ->] by lia. unfold f, cr.
      by rewrite !N.mul_0_l, N.Div0.div_0_l. }
  run_bind. clearbody f cr.
  rewrite (wrap_add_small _ f 1) by lia. rewrite (wrap_mul_small _ 2 f) by lia.
  rewrite (wrap_add_small _ (2 * f) cr) by lia. rewrite (wrap_add_small _ (2 * f + cr)) by lia.
  rewrite (wrap_sub_small _ T f) by lia. rewrite (wrap_sub_small _ (T - f) cr) by lia.
  rewrite (wrap_add_small _ T f) by lia. rewrite !wrap_add_small, wrap_mul_small by lia.
  rewrite !rassert_true by lia. run_bind.
  eexists _, f, cr. split; [done|]. split; [split; cbn; (lia || done)|].
  repeat (split; [done|]). cbn. unfold quorums_intersect. cbn. lia.
Qed.

Lemma Committee_new_v3_thresholds_witness :
  ∃ c f cr, Committee_new_v3 7 [mkAuthority 40 "a" []; mkAuthority 30 "b" []; mkAuthority 31 "c" []] 2 3 = Done c
    ∧ f = 10%N ∧ cr = 15%N ∧ quorum_threshold c = 76%N.
Proof.
  destruct (Committee_new_v3_thresholds 7
    [mkAuthority 40 "a" []; mkAuthority 30 "b" []; mkAuthority 31 "c" []] 2 3)
    as (c & f & cr & Hc & _ & _ & Hf & Hcr & _ & _ & _ & _ & Hq & _); [done|vm_compute; done..|].
  exists c, f, cr. rewrite Hf, Hcr, Hq. split; [exact Hc|]. subst. vm_compute. done.
Defined.
