(* ===== verification/Block.v ===== *)
(** * Blocks (consensus/types/src/block.rs, consensus/core/src/block.rs)

    Block references and their order, slots, the three block versions behind
    the [BlockAPI] trait, verified blocks and the genesis blocks, with the
    context the components share (consensus/core/src/context.rs). A 32-byte
    digest is the 256-bit number its bytes spell in big-endian order, so that
    the lexicographic order of byte arrays is the order of numbers. *)

From S2P Require Import Prelude Committee.

Definition GENESIS_ROUND : N := 0.
Definition digest_modulus : N := 2 ^ 256.
Definition BlockDigest_MIN : N := 0.
Definition BlockDigest_MAX : N := digest_modulus - 1.

Record BlockRef := mkBlockRef {
  ref_round : N;
  ref_author : N;
  ref_digest : N;
}.

Definition BlockRef_MIN : BlockRef := mkBlockRef 0 AuthorityIndex_MIN BlockDigest_MIN.
Definition BlockRef_MAX : BlockRef := mkBlockRef u32_MAX AuthorityIndex_MAX BlockDigest_MAX.

#[export] Instance BlockRef_eq_dec : EqDecision BlockRef.
Proof. solve_decision. Defined.

#[export] Instance BlockRef_countable : Countable BlockRef.
Proof.
  refine (inj_countable' (λ r, (ref_round r, ref_author r, ref_digest r))
    (λ '(a, b, c), mkBlockRef a b c) _).
  by intros [].
Defined.

(** The derived [Ord]: lexicographic in round, author, digest. *)
Definition BlockRef_le (a b : BlockRef) : Prop :=
  (ref_round a < ref_round b)%N ∨
  (ref_round a = ref_round b ∧
    ((ref_author a < ref_author b)%N ∨
     (ref_author a = ref_author b ∧ (ref_digest a ≤ ref_digest b)%N))).

#[export] Instance BlockRef_le_dec : RelDecision BlockRef_le.
Proof. intros a b. unfold BlockRef_le. apply _. Defined.

#[export] Instance BlockRef_le_trans : Transitive BlockRef_le.
Proof. intros ???. unfold BlockRef_le. lia. Qed.

#[export] Instance BlockRef_le_total : Total BlockRef_le.
Proof. intros ??. unfold BlockRef_le. lia. Qed.

#[export] Instance BlockRef_le_antisymm : AntiSymm (=) BlockRef_le.
Proof.
  intros [r1 a1 d1] [r2 a2 d2]. unfold BlockRef_le. cbn. intros.
  assert (r1 = r2 ∧ a1 = a2 ∧ d1 = d2) as (->&->&->) by lia. done.
Qed.

#[export] Instance BlockRef_le_refl : Reflexive BlockRef_le.
Proof. intros ?. unfold BlockRef_le. lia. Qed.

(** Iteration over a [BTreeSet<BlockRef>] and a [BTreeMap<BlockRef, _>]. *)
Abbreviation refs_in_order := (set_in_order BlockRef_le).
Abbreviation entries_in_order := (map_in_order BlockRef_le).
Abbreviation refs_first := (set_first BlockRef_le).
Abbreviation refs_last := (set_last BlockRef_le).

Record Slot := mkSlot {
  slot_round : N;
  slot_authority : N;
}.

#[export] Instance Slot_eq_dec : EqDecision Slot.
Proof. solve_decision. Defined.

#[export] Instance Slot_countable : Countable Slot.
Proof.
  refine (inj_countable' (λ s, (slot_round s, slot_authority s)) (λ '(a, b), mkSlot a b) _).
  by intros [].
Defined.

(** [impl From<BlockRef> for Slot]. *)
Definition Slot_from (r : BlockRef) : Slot := mkSlot (ref_round r) (ref_author r).

(** A commit vote is the reference of the commit (commit.rs). *)
Record CommitRef := mkCommitRef {
  cref_index : N;
  cref_digest : N;
}.

#[export] Instance CommitRef_eq_dec : EqDecision CommitRef.
Proof. solve_decision. Defined.

#[export] Instance CommitRef_countable : Countable CommitRef.
Proof.
  refine (inj_countable' (λ r, (cref_index r, cref_digest r)) (λ '(a, b), mkCommitRef a b) _).
  by intros [].
Defined.

(** A transaction is its serialized bytes. *)
Record Transaction := mkTransaction { data : list N }.

Record BlockTransactionVotes := mkBlockTransactionVotes {
  btv_block_ref : BlockRef;
  btv_rejects : list N;
}.

Inductive MisbehaviorProof :=
  | InvalidBlock (r : BlockRef).

Record MisbehaviorReport := mkMisbehaviorReport {
  mr_target : N;
  mr_proof : MisbehaviorProof;
}.

Record BlockV1 := mkBlockV1 {
  v1_epoch : N;
  v1_round : N;
  v1_author : N;
  v1_timestamp_ms : N;
  v1_ancestors : list BlockRef;
  v1_transactions : list Transaction;
  v1_commit_votes : list CommitRef;
  v1_misbehavior_reports : list MisbehaviorReport;
}.

Record BlockV2 := mkBlockV2 {
  v2_epoch : N;
  v2_round : N;
  v2_author : N;
  v2_timestamp_ms : N;
  v2_ancestors : list BlockRef;
  v2_transactions : list Transaction;
  v2_transaction_votes : list BlockTransactionVotes;
  v2_commit_votes : list CommitRef;
  v2_misbehavior_reports : list MisbehaviorReport;
}.

Record BlockV3 := mkBlockV3 {
  v3_epoch : N;
  v3_round : N;
  v3_author : N;
  v3_timestamp_ms : N;
  v3_ancestors : list BlockRef;
  v3_transactions : list Transaction;
  v3_transaction_votes : list BlockTransactionVotes;
  v3_transaction_votes_cutoff_round : N;
  v3_commit_votes : list CommitRef;
  v3_misbehavior_reports : list MisbehaviorReport;
}.

Inductive Block :=
  | V1 (b : BlockV1)
  | V2 (b : BlockV2)
  | V3 (b : BlockV3).

(** ** The [BlockAPI] trait *)
Class BlockAPI (B : Type) := {
  api_epoch : B → N;
  api_round : B → N;
  api_author : B → N;
  api_slot : B → Slot;
  api_timestamp_ms : B → N;
  api_ancestors : B → list BlockRef;
  api_transactions : B → list Transaction;
  api_transactions_data : B → list (list N);
  api_transaction_votes : B → list BlockTransactionVotes;
  api_transaction_votes_cutoff_round : B → outcome N;
  api_commit_votes : B → list CommitRef;
  api_misbehavior_reports : B → list MisbehaviorReport;
}.

(** Only version 3 carries the cutoff round; the other versions panic. *)
#[export] Instance BlockV1_API : BlockAPI BlockV1 := {
  api_epoch := v1_epoch;
  api_round := v1_round;
  api_author := v1_author;
  api_slot b := mkSlot (v1_round b) (v1_author b);
  api_timestamp_ms := v1_timestamp_ms;
  api_ancestors := v1_ancestors;
  api_transactions := v1_transactions;
  api_transactions_data b := data <$> v1_transactions b;
  api_transaction_votes := λ _, [];
  api_transaction_votes_cutoff_round := λ _, Panic;
  api_commit_votes := v1_commit_votes;
  api_misbehavior_reports := v1_misbehavior_reports;
}.

#[export] Instance BlockV2_API : BlockAPI BlockV2 := {
  api_epoch := v2_epoch;
  api_round := v2_round;
  api_author := v2_author;
  api_slot b := mkSlot (v2_round b) (v2_author b);
  api_timestamp_ms := v2_timestamp_ms;
  api_ancestors := v2_ancestors;
  api_transactions := v2_transactions;
  api_transactions_data b := data <$> v2_transactions b;
  api_transaction_votes := v2_transaction_votes;
  api_transaction_votes_cutoff_round := λ _, Panic;
  api_commit_votes := v2_commit_votes;
  api_misbehavior_reports := v2_misbehavior_reports;
}.

#[export] Instance BlockV3_API : BlockAPI BlockV3 := {
  api_epoch := v3_epoch;
  api_round := v3_round;
  api_author := v3_author;
  api_slot b := mkSlot (v3_round b) (v3_author b);
  api_timestamp_ms := v3_timestamp_ms;
  api_ancestors := v3_ancestors;
  api_transactions := v3_transactions;
  api_transactions_data b := data <$> v3_transactions b;
  api_transaction_votes := v3_transaction_votes;
  api_transaction_votes_cutoff_round := λ b, Done (v3_transaction_votes_cutoff_round b);
  api_commit_votes := v3_commit_votes;
  api_misbehavior_reports := v3_misbehavior_reports;
}.

(** The dispatch over the versions ([enum_dispatch]). *)
Definition Block_epoch (b : Block) : N :=
  match b with V1 b => api_epoch b | V2 b => api_epoch b | V3 b => api_epoch b end.

Definition Block_round (b : Block) : N :=
  match b with V1 b => api_round b | V2 b => api_round b | V3 b => api_round b end.

Definition Block_author (b : Block) : N :=
  match b with V1 b => api_author b | V2 b => api_author b | V3 b => api_author b end.

Definition Block_slot (b : Block) : Slot :=
  match b with V1 b => api_slot b | V2 b => api_slot b | V3 b => api_slot b end.

Definition Block_timestamp_ms (b : Block) : N :=
  match b with V1 b => api_timestamp_ms b | V2 b => api_timestamp_ms b | V3 b => api_timestamp_ms b end.

Definition Block_ancestors (b : Block) : list BlockRef :=
  match b with V1 b => api_ancestors b | V2 b => api_ancestors b | V3 b => api_ancestors b end.

Definition Block_transactions (b : Block) : list Transaction :=
  match b with V1 b => api_transactions b | V2 b => api_transactions b | V3 b => api_transactions b end.

Definition Block_transactions_data (b : Block) : list (list N) :=
  match b with V1 b => api_transactions_data b | V2 b => api_transactions_data b | V3 b => api_transactions_data b end.

Definition Block_transaction_votes (b : Block) : list BlockTransactionVotes :=
  match b with V1 b => api_transaction_votes b | V2 b => api_transaction_votes b | V3 b => api_transaction_votes b end.

Definition Block_transaction_votes_cutoff_round (b : Block) : outcome N :=
  match b with V1 b => api_transaction_votes_cutoff_round b | V2 b => api_transaction_votes_cutoff_round b | V3 b => api_transaction_votes_cutoff_round b end.

Definition Block_commit_votes (b : Block) : list CommitRef :=
  match b with V1 b => api_commit_votes b | V2 b => api_commit_votes b | V3 b => api_commit_votes b end.

Definition Block_misbehavior_reports (b : Block) : list MisbehaviorReport :=
  match b with V1 b => api_misbehavior_reports b | V2 b => api_misbehavior_reports b | V3 b => api_misbehavior_reports b end.

(** ** Signed and verified blocks *)

Record SignedBlock := mkSignedBlock {
  inner : Block;
  signature : list N;
}.

Definition SignedBlock_new_genesis (b : Block) : SignedBlock := mkSignedBlock b [].

Record VerifiedBlock := mkVerifiedBlock {
  signed_block : SignedBlock;
  digest : N;
  serialized : list N;
}.

(** Access to the inner block through [Deref]. *)
Definition round (b : VerifiedBlock) : N := Block_round (inner (signed_block b)).
Definition author (b : VerifiedBlock) : N := Block_author (inner (signed_block b)).
Definition timestamp_ms (b : VerifiedBlock) : N := Block_timestamp_ms (inner (signed_block b)).
Definition ancestors (b : VerifiedBlock) : list BlockRef := Block_ancestors (inner (signed_block b)).
Definition commit_votes (b : VerifiedBlock) : list CommitRef := Block_commit_votes (inner (signed_block b)).
Definition transactions (b : VerifiedBlock) : list Transaction := Block_transactions (inner (signed_block b)).
Definition transaction_votes (b : VerifiedBlock) : list BlockTransactionVotes :=
  Block_transaction_votes (inner (signed_block b)).

Definition reference (b : VerifiedBlock) : BlockRef :=
  mkBlockRef (round b) (author b) (digest b).

(** Comparison by reference, for [sort_by_key(|b| b.reference())]. *)
Definition block_le (a b : VerifiedBlock) : Prop := BlockRef_le (reference a) (reference b).

#[export] Instance block_le_dec : RelDecision block_le.
Proof. intros a b. unfold block_le. apply _. Defined.
#[export] Instance block_le_trans : Transitive block_le.
Proof. intros ???. unfold block_le. by etrans. Qed.
#[export] Instance block_le_total : Total block_le.
Proof. intros ??. unfold block_le. apply (total BlockRef_le). Qed.

(** [impl PartialEq for VerifiedBlock]: blocks are compared by digest. *)
Definition VerifiedBlock_eqb (a b : VerifiedBlock) : bool := bool_decide (digest a = digest b).

(** Block with local information that is not certified or forwarded. *)
Record ExtendedBlock := mkExtendedBlock {
  eb_block : VerifiedBlock;
  eb_excluded_ancestors : list BlockRef;
}.

(** External code the blocks rely on: the bcs encoder (which can fail) and the
    hash function of [fastcrypto], whose output is a 256-bit number. *)
Class BlockCodec := {
  hash_bytes : list N → N;
  bcs_signed_block : SignedBlock → option (list N);
}.

Definition compute_digest `{BlockCodec} (bytes : list N) : N := hash_bytes bytes.

Definition new_verified `{BlockCodec} (sb : SignedBlock) (bytes : list N) : VerifiedBlock :=
  {| signed_block := sb; digest := compute_digest bytes; serialized := bytes |}.

(** ** Context (context.rs, consensus_protocol_config.rs, parameters.rs)

    The fields the modelled components read. *)
Record ProtocolConfig := mkProtocolConfig {
  max_transaction_size_bytes : N;
  max_transactions_in_block_bytes : N;
  max_num_transactions_in_block : N;
  gc_depth : N;
  transaction_voting_enabled : bool;
  num_leaders_per_round : option N;
  bad_nodes_stake_threshold : N;
  enable_v3 : bool;
  config_leader_schedule_window_size : N;
  config_leader_schedule_update_interval : N;
}.

(** Read through accessors that clamp a configured zero to one. *)
Definition leader_schedule_window_size (c : ProtocolConfig) : N :=
  N.max (config_leader_schedule_window_size c) 1.

Definition leader_schedule_update_interval (c : ProtocolConfig) : N :=
  N.max (config_leader_schedule_update_interval c) 1.

Record Parameters := mkParameters {
  dag_state_cached_rounds : N;
  commit_sync_batch_size : N;
  skip_equivocation_validation : bool;
  (** in milliseconds *)
  min_round_delay : N;
  propagation_delay_stop_proposal_threshold : N;
  commit_sync_parallel_fetches : N;
  commit_sync_batches_ahead : N;
  max_blocks_per_fetch : N;
}.

(** Parameters of the examples, with few cached rounds. *)
Definition sample_parameters : Parameters := mkParameters 2 100 false 50 10 8 32 1000.

Record Context := mkContext {
  epoch_start_timestamp_ms : N;
  own_index : N;
  committee : Committee;
  parameters : Parameters;
  protocol_config : ProtocolConfig;
}.

(** [Context::new]: an observer gets the index [AuthorityIndex::MAX]. *)
Definition Context_new (epoch_start_timestamp_ms : N) (own_index : option N)
    (committee : Committee) (parameters : Parameters) (protocol_config : ProtocolConfig) : Context :=
  mkContext epoch_start_timestamp_ms (default AuthorityIndex_MAX own_index)
    committee parameters protocol_config.

Definition is_validator (ctx : Context) : bool := is_valid_index (committee ctx) (own_index ctx).

(** ** Genesis blocks *)

Definition BlockV1_genesis_block (ctx : Context) (a : N) : BlockV1 :=
  {| v1_epoch := epoch (committee ctx); v1_round := GENESIS_ROUND; v1_author := a;
     v1_timestamp_ms := epoch_start_timestamp_ms ctx; v1_ancestors := [];
     v1_transactions := []; v1_commit_votes := []; v1_misbehavior_reports := [] |}.

Definition BlockV2_genesis_block (ctx : Context) (a : N) : BlockV2 :=
  {| v2_epoch := epoch (committee ctx); v2_round := GENESIS_ROUND; v2_author := a;
     v2_timestamp_ms := epoch_start_timestamp_ms ctx; v2_ancestors := [];
     v2_transactions := []; v2_transaction_votes := []; v2_commit_votes := [];
     v2_misbehavior_reports := [] |}.

Definition BlockV3_genesis_block (ctx : Context) (a : N) : BlockV3 :=
  {| v3_epoch := epoch (committee ctx); v3_round := GENESIS_ROUND; v3_author := a;
     v3_timestamp_ms := epoch_start_timestamp_ms ctx; v3_ancestors := [];
     v3_transactions := []; v3_transaction_votes := [];
     v3_transaction_votes_cutoff_round := GENESIS_ROUND;
     v3_commit_votes := []; v3_misbehavior_reports := [] |}.

(** The closure of [genesis_blocks]. *)
Definition genesis_block `{BlockCodec} (ctx : Context) (a : N) : outcome VerifiedBlock :=
  let block := if transaction_voting_enabled (protocol_config ctx)
    then V2 (BlockV2_genesis_block ctx a) else V1 (BlockV1_genesis_block ctx a) in
  let sb := SignedBlock_new_genesis block in
  bytes ← unwrap (bcs_signed_block sb);
  Done (new_verified sb bytes).

Definition genesis_blocks `{BlockCodec} (ctx : Context) : outcome (list VerifiedBlock) :=
  mapM (λ '(i, _), genesis_block ctx i) (authorities_iter (committee ctx)).

Lemma BlockRef_le_round a b : BlockRef_le a b → (ref_round a ≤ ref_round b)%N.
Proof. unfold BlockRef_le. lia. Qed.

Lemma Slot_from_eq r s :
  Slot_from r = s ↔ ref_round r = slot_round s ∧ ref_author r = slot_authority s.
Proof. destruct s. unfold Slot_from. cbn. naive_solver. Qed.

Lemma BlockRef_ext a b :
  ref_round a = ref_round b → ref_author a = ref_author b → ref_digest a = ref_digest b → a = b.
Proof. destruct a, b; cbn. by intros -> -> ->. Qed.

(** A block with the given round, author, digest and ancestors, for examples. *)
Definition sample_block (r a d : N) (ancestors : list BlockRef) : VerifiedBlock :=
  {| signed_block := {| inner := V1 {| v1_epoch := 0; v1_round := r; v1_author := a;
       v1_timestamp_ms := 1000 * r; v1_ancestors := ancestors; v1_transactions := [];
       v1_commit_votes := []; v1_misbehavior_reports := [] |}; signature := [] |};
     digest := d; serialized := [] |}.
