(* ===== verification/StakeAggregator.v ===== *)
(** * Stake aggregation (consensus/core/src/stake_aggregator.rs)

    A [StakeAggregator] counts the stake of distinct voters against one of the
    committee's thresholds. The threshold is chosen by a type that implements
    the trait [CommitteeThreshold]; here it is a type class with its law, and
    clients are verified against the law. *)

From S2P Require Import Prelude Committee.

Class CommitteeThreshold (T : Type) := {
  is_threshold : Committee → N → bool;
  threshold_of : Committee → N;
}.
Global Hint Mode CommitteeThreshold ! : typeclass_instances.
Global Arguments is_threshold T {_} c s.
Global Arguments threshold_of T {_} c.

(** What a threshold promises: [is_threshold] compares against [threshold_of]. *)
Class CommitteeThresholdLaw (T : Type) `{CommitteeThreshold T} : Prop :=
  is_threshold_spec c s : is_threshold T c s = bool_decide (threshold_of T c ≤ s)%N.

Inductive QuorumThreshold := MkQuorumThreshold.
Inductive CertificationThreshold := MkCertificationThreshold.
Inductive ValidityThreshold := MkValidityThreshold.

#[export] Instance QuorumThreshold_impl : CommitteeThreshold QuorumThreshold := {
  is_threshold c amount := reached_quorum c amount;
  threshold_of c := quorum_threshold c;
}.

#[export] Instance CertificationThreshold_impl : CommitteeThreshold CertificationThreshold := {
  is_threshold c amount := bool_decide (certification_threshold c ≤ amount)%N;
  threshold_of c := certification_threshold c;
}.

#[export] Instance ValidityThreshold_impl : CommitteeThreshold ValidityThreshold := {
  is_threshold c amount := reached_validity c amount;
  threshold_of c := validity_threshold c;
}.

#[export] Instance QuorumThreshold_law : CommitteeThresholdLaw QuorumThreshold.
Proof. done. Qed.
#[export] Instance CertificationThreshold_law : CommitteeThresholdLaw CertificationThreshold.
Proof. done. Qed.
#[export] Instance ValidityThreshold_law : CommitteeThresholdLaw ValidityThreshold.
Proof. done. Qed.

Record StakeAggregator (T : Type) := mkStakeAggregator {
  votes : gset N;
  agg_stake : N;
}.
Global Arguments mkStakeAggregator {T} votes agg_stake.
Global Arguments votes {T} s.
Global Arguments agg_stake {T} s.

Definition StakeAggregator_new {T} : StakeAggregator T := mkStakeAggregator ∅ 0.

(** [add_unique]: counts the vote of a new authority, returns whether it did. *)
Definition agg_add_unique {T} (a : StakeAggregator T) (vote : N) (c : Committee) :
    outcome (StakeAggregator T * bool) :=
  if decide (vote ∈ votes a) then Done (a, false)
  else s ← Committee_stake c vote;
       Done (mkStakeAggregator ({[vote]} ∪ votes a) (agg_stake a +₆₄ s), true).

(** [add]: counts the vote of a new authority, returns whether the threshold is reached. *)
Definition agg_add {T} `{CommitteeThreshold T} (a : StakeAggregator T) (vote : N) (c : Committee) :
    outcome (StakeAggregator T * bool) :=
  a' ← (if decide (vote ∈ votes a) then Done a
        else s ← Committee_stake c vote;
             Done (mkStakeAggregator ({[vote]} ∪ votes a) (agg_stake a +₆₄ s)));
  Done (a', is_threshold T c (agg_stake a')).

Definition reached_threshold {T} `{CommitteeThreshold T} (a : StakeAggregator T) (c : Committee) : bool :=
  is_threshold T c (agg_stake a).

Definition agg_threshold {T} `{CommitteeThreshold T} (_ : StakeAggregator T) (c : Committee) : N :=
  threshold_of T c.

Definition agg_clear {T} (_ : StakeAggregator T) : StakeAggregator T := mkStakeAggregator ∅ 0.

(** The loop shape of the commit rules: go through [l], and for the elements
    that satisfy [pred] add their author's vote, returning [true] as soon as the
    threshold is reached. [pred] may fill a cache [s]. *)
Fixpoint aggregate_until {T} `{CommitteeThreshold T} {A S} (c : Committee) (voter : A → N)
    (pred : S → A → outcome (bool * S)) (agg : StakeAggregator T) (s : S) (l : list A) :
    outcome (bool * S) :=
  match l with
  | [] => Done (false, s)
  | x :: l =>
      '(p, s) ← pred s x;
      if p : bool then
        '(agg, reached) ← agg_add agg (voter x) c;
        if reached : bool then Done (true, s) else aggregate_until c voter pred agg s l
      else aggregate_until c voter pred agg s l
  end.

(** ** The invariant: the stake is the stake of the set of voters *)
Record agg_ok (c : Committee) {T} (a : StakeAggregator T) : Prop := {
  ao_votes : votes a ⊆ all_authorities c;
  ao_stake : agg_stake a = set_stake c (votes a);
}.

Lemma StakeAggregator_new_ok c {T} : agg_ok c (StakeAggregator_new : StakeAggregator T).
Proof. split; cbn; [set_solver|]. unfold set_stake. by rewrite set_sum_empty. Qed.

Section agg.
Context (c : Committee) (Hc : committee_ok c).
Context {T : Type} `{CommitteeThreshold T}.
Implicit Types a : StakeAggregator T.

Lemma set_stake_bound X : (set_stake c X < u64_modulus)%N.
Proof.
  pose proof (set_stake_le_total c X). pose proof (co_total _ Hc). pose proof (co_bound _ Hc). lia.
Qed.

Lemma set_stake_add X v : v ∉ X → (set_stake c X +₆₄ stake_of c v) = set_stake c ({[v]} ∪ X).
Proof.
  intros Hv. pose proof (set_stake_bound ({[v]} ∪ X)). unfold set_stake in *.
  rewrite set_sum_insert in * by done. rewrite wrap_add_small; lia.
Qed.

Lemma agg_add_unique_spec a v :
  agg_ok c a → (v < Committee_size c)%N →
  ∃ a', agg_add_unique a v c = Done (a', bool_decide (v ∉ votes a)) ∧
    agg_ok c a' ∧ votes a' = {[v]} ∪ votes a.
Proof.
  intros [Hsub Hst] Hv. unfold agg_add_unique. case_decide as Hin.
  - exists a. rewrite bool_decide_eq_false_2 by tauto. split_and!; [done|by split|set_solver].
  - rewrite Committee_stake_valid by done. cbn. rewrite bool_decide_eq_true_2 by done.
    eexists. split_and!; [done| |done]. split; cbn.
    + apply elem_of_all_authorities in Hv. set_solver.
    + rewrite Hst. by apply set_stake_add.
Qed.

Lemma agg_add_spec a v :
  agg_ok c a → (v < Committee_size c)%N →
  ∃ a', agg_add a v c = Done (a', is_threshold T c (set_stake c ({[v]} ∪ votes a))) ∧
    agg_ok c a' ∧ votes a' = {[v]} ∪ votes a.
Proof.
  intros [Hsub Hst] Hv. unfold agg_add. case_decide as Hin.
  - exists a. assert ({[v]} ∪ votes a = votes a) as -> by set_solver. cbn.
    rewrite Hst. split_and!; [done|by split|done].
  - rewrite Committee_stake_valid by done. cbn. rewrite Hst, set_stake_add by done.
    eexists. split_and!; [done| |done]. split; cbn; [|done].
    apply elem_of_all_authorities in Hv. set_solver.
Qed.

(** Adding several votes through [add_unique]. *)
Lemma agg_add_unique_list a l :
  agg_ok c a → Forall (λ v, (v < Committee_size c)%N) l →
  ∃ a', for_each (λ a v, fst <$> agg_add_unique a v c) a l = Done a' ∧
    agg_ok c a' ∧ votes a' = list_to_set l ∪ votes a.
Proof.
  revert a. induction l as [|v l IH]; intros a Ha Hl; cbn.
  - exists a. split_and!; [done|done|set_solver].
  - inversion Hl; subst. destruct (agg_add_unique_spec a v) as (a1 & -> & Ha1 & Hv1); [done..|].
    cbn. destruct (IH a1) as (a' & -> & Ha' & Hv'); [done..|].
    exists a'. split_and!; [done|done|]. rewrite Hv', Hv1. set_solver.
Qed.

Context `{!CommitteeThresholdLaw T}.

Lemma reached_threshold_spec a :
  agg_ok c a → reached_threshold a c = bool_decide (threshold_of T c ≤ set_stake c (votes a))%N.
Proof. intros [_ Hst]. unfold reached_threshold. by rewrite is_threshold_spec, Hst. Qed.

(** The aggregation loop computes whether the stake of the authors of the
    elements that satisfy the predicate reaches the threshold. [p] is what the
    predicate decides and [I] the invariant of its cache. *)
Lemma aggregate_until_spec {A S} (voter : A → N) (pred : S → A → outcome (bool * S))
    (p : A → bool) (I : S → Prop) a s l :
  agg_ok c a → I s →
  (set_stake c (votes a) < threshold_of T c)%N →
  (∀ s x, x ∈ l → I s → ∃ s', pred s x = Done (p x, s') ∧ I s') →
  (∀ x, x ∈ l → p x = true → voter x < Committee_size c)%N →
  ∃ s', aggregate_until c voter pred a s l =
    Done (bool_decide (threshold_of T c ≤
      set_stake c (list_to_set (voter <$> filter (λ x, p x = true) l) ∪ votes a))%N, s') ∧ I s'.
Proof.
  revert a s. induction l as [|x l IH]; intros a s Ha HI Hlt Hp Hv; cbn [aggregate_until].
  - exists s. rewrite bool_decide_eq_false_2; [done|]. cbn. rewrite union_empty_l_L. lia.
  - destruct (Hp s x) as (s1 & -> & HI1); [apply list_elem_of_here|done|]. run_bind.
    assert (∀ s x, x ∈ l → I s → ∃ s', pred s x = Done (p x, s') ∧ I s') as Hp'
      by eauto with lists.
    assert (∀ x, x ∈ l → p x = true → voter x < Committee_size c)%N as Hv'
      by eauto with lists.
    rewrite filter_cons. destruct (p x) eqn:Epx.
    + destruct (agg_add_spec a (voter x)) as (a1 & -> & Ha1 & Hv1);
        [done|by apply Hv; [apply list_elem_of_here|]|].
      run_bind. rewrite is_threshold_spec, <- Hv1.
      rewrite decide_True by done.
      assert (list_to_set (voter <$> x :: filter (λ x, p x = true) l) ∪ votes a
        = list_to_set (voter <$> filter (λ x, p x = true) l) ∪ votes a1) as ->.
      { rewrite Hv1. cbn. set_solver. }
      case_bool_decide as Hr.
      * exists s1. split; [|done]. rewrite bool_decide_eq_true_2; [done|].
        etrans; [exact Hr|]. apply set_sum_mono. set_solver.
      * apply IH; [done|done|lia|done|done].
    + rewrite decide_False by done. by apply IH.
Qed.

End agg.

(** a stake aggregator counts each authority once. Adding any sequence of
    votes of committee members, in any order and with repetitions, never panics
    and ends with the set of voters and exactly their stake; the threshold is
    reached if and only if the stake of that set reaches it. *)
Theorem StakeAggregator_counts_once (c : Committee) T `{CommitteeThresholdLaw T} (l : list N) :
  committee_ok c → Forall (λ v, (v < Committee_size c)%N) l →
  ∃ a : StakeAggregator T,
    for_each (λ a v, fst <$> agg_add a v c) StakeAggregator_new l = Done a ∧
    votes a = list_to_set l ∧
    agg_stake a = set_stake c (list_to_set l) ∧
    reached_threshold a c = bool_decide (threshold_of T c ≤ set_stake c (list_to_set l))%N.
Proof.
  intros Hc Hl.
  assert (∀ a : StakeAggregator T, agg_ok c a → ∃ a',
    for_each (λ a v, fst <$> agg_add a v c) a l = Done a' ∧ agg_ok c a' ∧
    votes a' = list_to_set l ∪ votes a) as Hgen.
  { induction Hl as [|v l Hv Hl IH]; intros a Ha; cbn.
    - exists a. split_and!; [done|done|set_solver].
    - destruct (agg_add_spec c Hc a v) as (a1 & -> & Ha1 & Hv1); [done..|].
      cbn. destruct (IH a1) as (a' & -> & Ha' & Hv'); [done|].
      exists a'. split_and!; [done|done|]. rewrite Hv', Hv1. set_solver. }
  destruct (Hgen StakeAggregator_new) as (a & Hrun & Ha & Hv); [apply StakeAggregator_new_ok|].
  cbn in Hv. rewrite union_empty_r_L in Hv.
  exists a. split_and!; [done|done|by rewrite (ao_stake _ _ Ha), Hv|].
  rewrite reached_threshold_spec by done. by rewrite Hv.
Qed.

Definition committee_4 : Committee :=
  mkCommittee 0 (replicate 4 (mkAuthority 1 "host" [])) 4 3 3 2.

Lemma committee_4_ok : committee_ok committee_4.
Proof. by split. Qed.

Lemma StakeAggregator_counts_once_witness :
  ∃ a : StakeAggregator QuorumThreshold,
    for_each (λ a v, fst <$> agg_add a v committee_4) StakeAggregator_new [1; 0; 1; 3; 0]%N = Done a ∧
    agg_stake a = 3%N ∧ reached_threshold a committee_4 = true.
Proof.
  destruct (StakeAggregator_counts_once committee_4 QuorumThreshold [1; 0; 1; 3; 0]%N)
    as (a & Hrun & _ & Hst & Hr); [by split|repeat constructor|].
  exists a. split_and!; [exact Hrun|rewrite Hst; vm_compute; reflexivity|].
  rewrite Hr. vm_compute. reflexivity.
Defined.
