(* ===== verification/ThresholdClock.v ===== *)
(** * Threshold clock (consensus/core/src/threshold_clock.rs)

    The clock that tells which round can be proposed: it advances when a quorum
    of blocks of its round has been accepted, or when a block of a later round
    shows that such a quorum exists. The timestamp [quorum_ts], read only by
    metrics and timeouts, is not modelled. *)

From S2P Require Import Prelude Committee Block StakeAggregator.

Record ThresholdClock := mkThresholdClock {
  clock_aggregator : StakeAggregator QuorumThreshold;
  clock_round : N;
}.

Definition ThresholdClock_new (round : N) : ThresholdClock :=
  mkThresholdClock StakeAggregator_new round.

(** [add_block]: returns whether the round has advanced. *)
Definition ThresholdClock_add_block (c : Committee) (clk : ThresholdClock) (block : BlockRef) :
    outcome (ThresholdClock * bool) :=
  match (ref_round block ?= clock_round clk)%N with
  (* Blocks with round less than what we currently build are irrelevant here. *)
  | Lt => Done (clk, false)
  | Eq =>
      '(agg, reached) ← agg_add (clock_aggregator clk) (ref_author block) c;
      if reached : bool then
        Done (mkThresholdClock (agg_clear agg) (ref_round block +₃₂ 1), true)
      else Done (mkThresholdClock agg (clock_round clk), false)
  (* A block of round r comes with 2f+1 blocks of round r-1. *)
  | Gt =>
      '(agg, reached) ← agg_add (agg_clear (clock_aggregator clk)) (ref_author block) c;
      Done (mkThresholdClock agg (if reached : bool then ref_round block +₃₂ 1 else ref_round block), true)
  end.

(** [add_blocks]. *)
Definition ThresholdClock_add_blocks (c : Committee) (clk : ThresholdClock) (blocks : list BlockRef) :
    outcome (ThresholdClock * option N) :=
  clk' ← for_each (λ clk b, fst <$> ThresholdClock_add_block c clk b) clk blocks;
  Done (clk', if decide (clock_round clk < clock_round clk')%N then Some (clock_round clk') else None).

Definition ThresholdClock_get_round (clk : ThresholdClock) : N := clock_round clk.

(** ** Reference definition

    What the clock computes, without the incremental state: the highest of the
    start round, the rounds of the accepted blocks, and the successors of the
    rounds in which the accepted blocks reach a quorum. *)
Definition authors_at (seen : list BlockRef) (r : N) : gset N :=
  list_to_set (ref_author <$> filter (λ b, ref_round b = r) seen).

Definition round_reached (c : Committee) (seen : list BlockRef) (b : BlockRef) : N :=
  if decide (quorum_threshold c ≤ set_stake c (authors_at seen (ref_round b)))%N
  then (ref_round b + 1)%N else ref_round b.

Definition clock_spec (c : Committee) (start : N) (seen : list BlockRef) : N :=
  foldr N.max start (round_reached c seen <$> seen).

Lemma foldr_max_spec {A} (f : A → N) start l R :
  foldr N.max start (f <$> l) = R ↔
  (start ≤ R)%N ∧ (∀ x, x ∈ l → f x ≤ R)%N ∧ (R = start ∨ ∃ x, x ∈ l ∧ R = f x).
Proof.
  revert R. induction l as [|x l IH]; intros R; cbn.
  - set_solver by lia.
  - destruct (IH (foldr N.max start (f <$> l))) as [[Hs [Hle Hex]] _]; [done|].
    set (m := foldr N.max start (f <$> l)) in *. split.
    + intros <-. split_and!; [lia| |].
      * intros y [->|Hy]%elem_of_cons; [lia|]. specialize (Hle y Hy). lia.
      * destruct (decide (f x ≤ m)%N).
        -- rewrite N.max_r by done. destruct Hex as [|(y & Hy & ?)]; [by left|].
           right. exists y. split; [by right|done].
        -- right. exists x. split; [by left|lia].
    + intros (Hs' & Hle' & Hex').
      assert (m ≤ R)%N.
      { destruct Hex as [->|(y & Hy & ->)]; [done|]. apply Hle'. by right. }
      assert (f x ≤ R)%N by (apply Hle'; by left).
      destruct Hex' as [->|(y & [->|Hy]%elem_of_cons & ->)]; [lia|lia|].
      specialize (Hle y Hy). lia.
Qed.

Lemma authors_at_snoc seen b r :
  authors_at (seen ++ [b]) r =
  if decide (ref_round b = r) then {[ref_author b]} ∪ authors_at seen r else authors_at seen r.
Proof.
  unfold authors_at. rewrite filter_app, fmap_app, list_to_set_app_L. rewrite filter_cons, filter_nil.
  case_decide; cbn; set_solver.
Qed.

Lemma authors_at_above seen r R :
  (∀ b, b ∈ seen → ref_round b ≤ R)%N → (R < r)%N → authors_at seen r = ∅.
Proof.
  intros Hle Hr. unfold authors_at. apply set_eq. intros a.
  rewrite elem_of_list_to_set, list_elem_of_fmap. setoid_rewrite list_elem_of_filter.
  split; [|set_solver]. intros (b & _ & <- & Hb). specialize (Hle b Hb). lia.
Qed.

Lemma round_reached_bounds c seen b :
  (ref_round b ≤ round_reached c seen b ≤ ref_round b + 1)%N.
Proof. unfold round_reached. case_decide; lia. Qed.

Section clock.
Context (c : Committee) (Hc : committee_ok c).
Context (Hq : ∀ a, (stake_of c a < quorum_threshold c)%N).
Context (start : N).

(** The state of the clock after the blocks [seen]. *)
Record clock_inv (seen : list BlockRef) (clk : ThresholdClock) : Prop := {
  ci_agg : agg_ok c (clock_aggregator clk);
  ci_votes : votes (clock_aggregator clk) = authors_at seen (clock_round clk);
  ci_quorum : (set_stake c (authors_at seen (clock_round clk)) < quorum_threshold c)%N;
  ci_round : clock_spec c start seen = clock_round clk;
}.

Lemma quorum_positive : (0 < quorum_threshold c)%N.
Proof. specialize (Hq 0%N). lia. Qed.

Lemma clock_inv_new : clock_inv [] (ThresholdClock_new start).
Proof.
  pose proof quorum_positive. split; cbn; [apply StakeAggregator_new_ok|done| |done].
  change (authors_at [] start) with (∅ : gset N). unfold set_stake. rewrite set_sum_empty. lia.
Qed.

(** A block whose round is not the clock's round does not change what the
    blocks of the clock's round reached. *)
Lemma round_reached_snoc_other seen b x :
  ref_round b ≠ ref_round x → round_reached c (seen ++ [b]) x = round_reached c seen x.
Proof.
  intros. unfold round_reached. rewrite authors_at_snoc.
  by rewrite (decide_False (P:=ref_round b = ref_round x)).
Qed.

(** The state after one more block: the clock keeps its invariant, does not go
    back, and reports whether it advanced. *)
Definition clock_stepped (seen : list BlockRef) (clk : ThresholdClock) (b : BlockRef) : Prop :=
  ∃ clk' adv, ThresholdClock_add_block c clk b = Done (clk', adv) ∧
    clock_inv (seen ++ [b]) clk' ∧
    (clock_round clk ≤ clock_round clk')%N ∧ adv = bool_decide (clock_round clk < clock_round clk')%N.

Lemma clock_inv_seen_le seen clk x : clock_inv seen clk → x ∈ seen → (ref_round x ≤ clock_round clk)%N.
Proof.
  intros Hinv Hx. pose proof (ci_round _ _ Hinv) as (_ & Hle & _)%foldr_max_spec.
  specialize (Hle x Hx). pose proof (round_reached_bounds c seen x). lia.
Qed.

Lemma clock_step_same seen clk b :
  clock_inv seen clk → (ref_author b < Committee_size c)%N → (ref_round b + 1 < u32_modulus)%N →
  ref_round b = clock_round clk → clock_stepped seen clk b.
Proof.
  intros Hinv Ha Hb Heq. pose proof (λ x, clock_inv_seen_le seen clk x Hinv) as HleR.
  destruct Hinv as [Hagg Hvotes Hnq (Hs & Hle & Hex)%foldr_max_spec].
  unfold clock_stepped, ThresholdClock_add_block. set (R := clock_round clk) in *.
  rewrite Heq, N.compare_refl.
  destruct (agg_add_spec c Hc (clock_aggregator clk) (ref_author b)) as (a1 & -> & Ha1 & Hv1);
    [done..|]. run_bind.
  assert (votes a1 = authors_at (seen ++ [b]) R) as Hv'.
  { rewrite authors_at_snoc, decide_True by done. by rewrite Hv1, Hvotes. }
  rewrite <- Hv1, Hv'. cbn [is_threshold QuorumThreshold_impl]. unfold reached_quorum.
  case_bool_decide as Hreach.
  - eexists _, true. split; [done|]. rewrite wrap_add_small by lia.
    assert (authors_at (seen ++ [b]) (R + 1) = ∅) as Hempty.
    { rewrite authors_at_snoc, decide_False by lia. apply (authors_at_above seen _ R); [done|lia]. }
    pose proof quorum_positive. split; [split|]; cbn.
    + apply StakeAggregator_new_ok.
    + by rewrite Hempty.
    + rewrite Hempty. unfold set_stake. rewrite set_sum_empty. lia.
    + apply foldr_max_spec. split_and!; [lia| |].
      * intros x Hx. pose proof (round_reached_bounds c (seen ++ [b]) x).
        apply elem_of_app in Hx as [Hx| ->%list_elem_of_singleton]; [specialize (HleR x Hx)|]; lia.
      * right. exists b. split; [set_solver|]. unfold round_reached. by rewrite Heq, decide_True.
    + split; [lia|]. by rewrite bool_decide_eq_true_2 by lia.
  - eexists _, false. split; [done|]. split; [split|]; cbn; [done|by rewrite Hv'|lia| |].
    + apply foldr_max_spec. split_and!; [lia| |].
      * intros x Hx. unfold round_reached. destruct (decide (ref_round x = R)) as [->|Hne].
        { by rewrite decide_False by lia. }
        apply elem_of_app in Hx as [Hx| ->%list_elem_of_singleton]; [|done].
        specialize (HleR x Hx). case_decide; lia.
      * right. exists b. split; [set_solver|]. unfold round_reached. by rewrite Heq, decide_False.
    + split; [lia|]. by rewrite bool_decide_eq_false_2 by lia.
Qed.

Lemma clock_step_earlier seen clk b :
  clock_inv seen clk → (ref_round b < clock_round clk)%N → clock_stepped seen clk b.
Proof.
  intros Hinv Hlt. pose proof (λ x, clock_inv_seen_le seen clk x Hinv) as HleR.
  destruct Hinv as [Hagg Hvotes Hnq (Hs & Hle & Hex)%foldr_max_spec].
  unfold clock_stepped, ThresholdClock_add_block. set (R := clock_round clk) in *.
  rewrite (proj2 (N.compare_lt_iff _ _) Hlt). exists clk, false. fold R.
  assert (authors_at (seen ++ [b]) R = authors_at seen R) as Hsame
    by (rewrite authors_at_snoc; by rewrite decide_False by lia).
  split; [done|]. split; [split|]; fold R; [done|by rewrite Hsame|by rewrite Hsame| |].
  - apply foldr_max_spec. split_and!; [done| |].
    + intros x Hx. destruct (decide (ref_round x = R)) as [Hx'|Hx'].
      * unfold round_reached. by rewrite Hx', Hsame, decide_False by lia.
      * pose proof (round_reached_bounds c (seen ++ [b]) x).
        apply elem_of_app in Hx as [Hx| ->%list_elem_of_singleton]; [specialize (HleR x Hx)|]; lia.
    + destruct Hex as [|(x & Hx & HR)]; [by left|]. right. exists x. split; [set_solver|].
      destruct (decide (ref_round b = ref_round x)) as [Hbx|]; [|by rewrite round_reached_snoc_other].
      unfold round_reached in *. revert HR. rewrite authors_at_snoc, (decide_True (P:=_ = _)) by done.
      assert (set_stake c (authors_at seen (ref_round x)) ≤
        set_stake c ({[ref_author b]} ∪ authors_at seen (ref_round x)))%N
        by (apply set_sum_mono; set_solver).
      repeat case_decide; lia.
  - split; [lia|]. by rewrite bool_decide_eq_false_2 by lia.
Qed.

Lemma clock_step_later seen clk b :
  clock_inv seen clk → (ref_author b < Committee_size c)%N →
  (clock_round clk < ref_round b)%N → clock_stepped seen clk b.
Proof.
  intros Hinv Ha Hgt. pose proof (λ x, clock_inv_seen_le seen clk x Hinv) as HleR.
  destruct Hinv as [Hagg Hvotes Hnq (Hs & Hle & Hex)%foldr_max_spec].
  unfold clock_stepped, ThresholdClock_add_block. set (R := clock_round clk) in *.
  rewrite (proj2 (N.compare_gt_iff _ _) Hgt).
  destruct (agg_add_spec c Hc (agg_clear (clock_aggregator clk)) (ref_author b)) as (a1 & -> & Ha1 & Hv1);
    [apply StakeAggregator_new_ok|done|]. run_bind.
  assert (authors_at (seen ++ [b]) (ref_round b) = {[ref_author b]}) as Hb1.
  { rewrite authors_at_snoc, decide_True by done. rewrite (authors_at_above seen (ref_round b) R) by done.
    set_solver. }
  assert (set_stake c {[ref_author b]} < quorum_threshold c)%N as Hsb.
  { unfold set_stake. rewrite set_sum_singleton. apply Hq. }
  cbn in Hv1. rewrite union_empty_r_L in Hv1. cbn [agg_clear votes].
  rewrite union_empty_r_L. cbn [is_threshold QuorumThreshold_impl]. unfold reached_quorum.
  rewrite bool_decide_eq_false_2 by lia.
  eexists _, true. split; [done|]. split; [split|]; cbn; [done|by rewrite Hb1|by rewrite Hb1| |].
  - apply foldr_max_spec. split_and!; [lia| |].
    + intros x [Hx| ->%list_elem_of_singleton]%elem_of_app.
      * pose proof (round_reached_bounds c (seen ++ [b]) x). specialize (HleR x Hx). lia.
      * unfold round_reached. by rewrite Hb1, decide_False by lia.
    + right. exists b. split; [set_solver|]. unfold round_reached. by rewrite Hb1, decide_False by lia.
  - split; [lia|]. by rewrite bool_decide_eq_true_2 by lia.
Qed.

Lemma clock_step seen clk b :
  clock_inv seen clk → (ref_author b < Committee_size c)%N → (ref_round b + 1 < u32_modulus)%N →
  clock_stepped seen clk b.
Proof.
  intros. destruct (N.lt_trichotomy (ref_round b) (clock_round clk)) as [|[|]];
    eauto using clock_step_same, clock_step_earlier, clock_step_later.
Qed.

Lemma clock_run seen clk l :
  clock_inv seen clk →
  Forall (λ b, (ref_author b < Committee_size c)%N ∧ (ref_round b + 1 < u32_modulus)%N) l →
  ∃ clk', for_each (λ clk b, fst <$> ThresholdClock_add_block c clk b) clk l = Done clk' ∧
    clock_inv (seen ++ l) clk' ∧ (clock_round clk ≤ clock_round clk')%N.
Proof.
  intros Hinv Hl. revert seen clk Hinv. induction Hl as [|b l [Hb1 Hb2] Hl IH]; intros seen clk Hinv; cbn.
  - exists clk. by rewrite app_nil_r.
  - destruct (clock_step seen clk b) as (clk1 & adv & -> & Hinv1 & Hle & _); [done..|]. cbn.
    destruct (IH (seen ++ [b]) clk1) as (clk2 & -> & Hinv2 & Hle2); [done|].
    exists clk2. rewrite <- app_assoc in Hinv2. split_and!; [done|done|lia].
Qed.

End clock.



(** when one authority alone holds a quorum, catching up to one of its blocks
    leaves its vote in the aggregator while the round moves on, and the vote is
    counted again for the next round: the clock reaches round 4 although the only
    block of round 3 comes from an authority with 1 of 6 stake. *)
Theorem threshold_clock_stale_vote :
  let c := mkCommittee 0 [mkAuthority 5 "a" []; mkAuthority 1 "b" []] 6 5 5 2 in
  Committee_new 0 [mkAuthority 5 "a" []; mkAuthority 1 "b" []] = Done c ∧
  snd <$> ThresholdClock_add_blocks c (ThresholdClock_new 1) [mkBlockRef 2 0 0; mkBlockRef 3 1 0]
    = Done (Some 4%N) ∧
  clock_spec c 1 [mkBlockRef 2 0 0; mkBlockRef 3 1 0] = 3%N.
Proof. vm_compute. done. Qed.
