(* ===== verification/Commit.v ===== *)
(** * Commits (consensus/core/src/commit.rs)

    Commits and committed sub-dags, the status of a leader slot, and commit
    ranges. [ReputationScores] (leader_scoring.rs) is declared here because
    [CommitInfo] stores it. *)

From S2P Require Import Prelude Committee Block.

Definition GENESIS_COMMIT_INDEX : N := 0.
Definition MINIMUM_WAVE_LENGTH : N := 3.
Definition DEFAULT_WAVE_LENGTH : N := MINIMUM_WAVE_LENGTH.
Definition CommitDigest_MIN : N := 0.
Definition CommitDigest_MAX : N := digest_modulus - 1.

Record CommitV1 := mkCommitV1 {
  cv1_index : N;
  cv1_previous_digest : N;
  cv1_timestamp_ms : N;
  cv1_leader : BlockRef;
  cv1_blocks : list BlockRef;
}.

Inductive Commit :=
  | CommitV1_ (c : CommitV1).

Definition Commit_new (index previous_digest timestamp_ms : N) (leader : BlockRef)
    (blocks : list BlockRef) : Commit :=
  CommitV1_ {| cv1_index := index; cv1_previous_digest := previous_digest;
    cv1_timestamp_ms := timestamp_ms; cv1_leader := leader; cv1_blocks := blocks |}.

(** The [CommitAPI] trait. *)
Definition Commit_round (c : Commit) : N := match c with CommitV1_ c => ref_round (cv1_leader c) end.
Definition Commit_index (c : Commit) : N := match c with CommitV1_ c => cv1_index c end.
Definition Commit_previous_digest (c : Commit) : N := match c with CommitV1_ c => cv1_previous_digest c end.
Definition Commit_timestamp_ms (c : Commit) : N := match c with CommitV1_ c => cv1_timestamp_ms c end.
Definition Commit_leader (c : Commit) : BlockRef := match c with CommitV1_ c => cv1_leader c end.
Definition Commit_blocks (c : Commit) : list BlockRef := match c with CommitV1_ c => cv1_blocks c end.

Record TrustedCommit := mkTrustedCommit {
  tc_inner : Commit;
  tc_digest : N;
  tc_serialized : list N;
}.

(** The bcs encoding of a commit, external to the repository. *)
Class CommitCodec := { bcs_commit : Commit → option (list N) }.

Definition TrustedCommit_new_trusted `{BlockCodec} (commit : Commit) (bytes : list N) : TrustedCommit :=
  {| tc_inner := commit; tc_digest := compute_digest bytes; tc_serialized := bytes |}.

Definition TrustedCommit_reference (c : TrustedCommit) : CommitRef :=
  mkCommitRef (Commit_index (tc_inner c)) (tc_digest c).

(** Access to the inner commit through [Deref]. *)
Definition tc_index (c : TrustedCommit) : N := Commit_index (tc_inner c).
Definition tc_round (c : TrustedCommit) : N := Commit_round (tc_inner c).
Definition tc_timestamp_ms (c : TrustedCommit) : N := Commit_timestamp_ms (tc_inner c).
Definition tc_leader (c : TrustedCommit) : BlockRef := Commit_leader (tc_inner c).
Definition tc_blocks (c : TrustedCommit) : list BlockRef := Commit_blocks (tc_inner c).

Record CommittedSubDag := mkCommittedSubDag {
  sd_leader : BlockRef;
  sd_blocks : list VerifiedBlock;
  sd_timestamp_ms : N;
  sd_commit_ref : CommitRef;
  sd_decided_with_local_blocks : bool;
  sd_recovered_rejected_transactions : bool;
  sd_rejected_transactions_by_block : gmap BlockRef (list N);
}.

Definition CommittedSubDag_new (leader : BlockRef) (blocks : list VerifiedBlock)
    (timestamp_ms : N) (commit_ref : CommitRef) : CommittedSubDag :=
  {| sd_leader := leader; sd_blocks := blocks; sd_timestamp_ms := timestamp_ms;
     sd_commit_ref := commit_ref; sd_decided_with_local_blocks := true;
     sd_recovered_rejected_transactions := false; sd_rejected_transactions_by_block := ∅ |}.

(** The comparison of [sort_sub_dag_blocks]: by round, then by author. *)
Definition sub_dag_le (a b : VerifiedBlock) : Prop :=
  (round a < round b)%N ∨ (round a = round b ∧ (author a ≤ author b)%N).

#[export] Instance sub_dag_le_dec : RelDecision sub_dag_le.
Proof. intros a b. unfold sub_dag_le. apply _. Defined.
#[export] Instance sub_dag_le_trans : Transitive sub_dag_le.
Proof. intros ???. unfold sub_dag_le. lia. Qed.
#[export] Instance sub_dag_le_total : Total sub_dag_le.
Proof. intros ??. unfold sub_dag_le. lia. Qed.

Definition sort_sub_dag_blocks (blocks : list VerifiedBlock) : list VerifiedBlock :=
  stable_sort sub_dag_le blocks.

Inductive LeaderDecision := Direct | Indirect | Certified.

#[export] Instance LeaderDecision_eq_dec : EqDecision LeaderDecision.
Proof. solve_decision. Defined.

(** The status of a leader slot from the direct and indirect commit rules. *)
Inductive LeaderStatus :=
  | LCommit (b : VerifiedBlock)
  | LSkip (s : Slot)
  | LUndecided (s : Slot).

Definition LeaderStatus_round (st : LeaderStatus) : N :=
  match st with
  | LCommit b => round b
  | LSkip leader => slot_round leader
  | LUndecided leader => slot_round leader
  end.

Definition LeaderStatus_is_decided (st : LeaderStatus) : bool :=
  match st with LCommit _ => true | LSkip _ => true | LUndecided _ => false end.

(** Decision of each leader slot; a commit carries whether it is direct. *)
Inductive DecidedLeader :=
  | DCommit (b : VerifiedBlock) (direct : bool)
  | DSkip (s : Slot).

Definition into_decided_leader (st : LeaderStatus) (direct : bool) : option DecidedLeader :=
  match st with
  | LCommit b => Some (DCommit b direct)
  | LSkip s => Some (DSkip s)
  | LUndecided _ => None
  end.

Definition DecidedLeader_slot (d : DecidedLeader) : Slot :=
  match d with
  | DCommit b _ => Slot_from (reference b)
  | DSkip s => s
  end.

Definition into_committed_block (d : DecidedLeader) : option VerifiedBlock :=
  match d with DCommit b _ => Some b | DSkip _ => None end.

(** [CommitRange] is the half-open range [start, end_). *)
Record CommitRange := mkCommitRange {
  range_start : N;
  range_end_ : N;
}.

#[export] Instance CommitRange_eq_dec : EqDecision CommitRange.
Proof. solve_decision. Defined.

(** [CommitRange::new] from an inclusive range. *)
Definition CommitRange_new (first last : N) : CommitRange :=
  mkCommitRange first (u32_saturating_add last 1).

Definition CommitRange_default : CommitRange := mkCommitRange 0 0.

Definition CommitRange_start (r : CommitRange) : N := range_start r.
Definition CommitRange_end (r : CommitRange) : N := (range_end_ r - 1)%N.

Definition CommitRange_extend_to (r : CommitRange) (other : N) : outcome CommitRange :=
  let new_end := u32_saturating_add other 1 in
  rassert (range_end_ r ≤ new_end)%N;;
  Done (mkCommitRange (range_start r) new_end).

Definition CommitRange_size (r : CommitRange) : outcome N :=
  unwrap (checked_sub (range_end_ r) (range_start r)).

Definition CommitRange_is_equal_size (a b : CommitRange) : outcome bool :=
  x ← CommitRange_size a; y ← CommitRange_size b; Done (bool_decide (x = y)).

Definition CommitRange_is_next_range (a b : CommitRange) : bool :=
  bool_decide (range_end_ a = range_start b).

(** [ReputationScores] (leader_scoring.rs). *)
Record ReputationScores := mkReputationScores {
  scores_per_authority : list N;
  commit_range : CommitRange;
}.

Definition ReputationScores_default : ReputationScores := mkReputationScores [] CommitRange_default.

Record CommitInfo := mkCommitInfo {
  committed_rounds : list N;
  reputation_scores : ReputationScores;
}.

(** ** Commit ranges *)


