(* ===== verification/Store.v ===== *)
(** * Storage (consensus/core/src/storage/mod.rs, storage/mem_store.rs)

    The [Store] trait as a type class, the contract its clients rely on as the
    class [StoreLaws], the in-memory implementation [MemStore], and the recovery
    of a committed sub-dag from the store (commit.rs). The errors are those of
    consensus/core/src/error.rs. *)

From S2P Require Import Prelude Committee Block Commit.

(** A peer: a validator by its index, an observer by the bytes of its network
    public key (network/mod.rs). *)
Inductive PeerId :=
  | Validator (a : N)
  | Observer (node_id : list N).

(** Errors of block processing, storage and networking (error.rs). Payloads of
    external types (bcs, fastcrypto and typed-store errors) are dropped. *)
Inductive ConsensusError :=
  | MalformedBlock
  | MalformedCommit
  | SerializationFailure
  | TransactionTooLarge (size limit : N)
  | TooManyTransactions (count limit : N)
  | TooManyTransactionBytes (size limit : N)
  | UnexpectedAuthority (block_author peer : N)
  | WrongEpoch (expected actual : N)
  | UnexpectedGenesisBlock
  | UnexpectedGenesisBlockRequested
  | UnexpectedNumberOfBlocksFetched (peer : PeerId) (requested received : N)
  | UnexpectedFetchedBlock (index : N) (block_ref : BlockRef)
  | UnexpectedLastOwnBlock (index : N) (block_ref : BlockRef)
  | TooManyFetchedBlocksReturned (a : N)
  | TooManyAuthoritiesProvided (a : N)
  | InvalidSizeOfHighestAcceptedRounds (provided size : N)
  | InvalidFetchBlocksRequest (reason : string)
  | InvalidAuthorityIndex (index max : N)
  | MalformedSignature
  | SignatureVerificationFailure
  | SynchronizerSaturated (peer : string)
  | PeerUnavailable (peer : string)
  | PeerNotFound (peer : string)
  | BlockRejected (block_ref : BlockRef) (reason : string)
  | InvalidAncestorPosition (block_authority ancestor_authority position : N)
  | InvalidAncestorRound (ancestor block : N)
  | InvalidGenesisAncestor (r : BlockRef)
  | TooManyAncestors (count limit : N)
  | DuplicatedAncestorsAuthority (a : N)
  | InsufficientParentStakes (parent_stakes quorum : N)
  | InvalidTransaction (reason : string)
  | NoCommitReceived (peer : PeerId)
  | UnexpectedStartCommit (peer : PeerId) (start : N) (commit : Commit)
  | UnexpectedCommitSequence (peer : PeerId) (prev_commit curr_commit : Commit)
  | NotEnoughCommitVotes (stake : N) (peer : PeerId) (commit : Commit)
  | UnexpectedBlockForCommit (peer : PeerId) (requested received : BlockRef)
  | UnexpectedCertifiedCommitIndex (expected_commit_index commit_index : N)
  | RocksDBFailure
  | UnknownNetworkPeer (peer : string)
  | PeerDisconnected (peer : string)
  | NetworkConfig (reason : string)
  | NetworkClientConnection (reason : string)
  | NetworkRequest (reason : string)
  | NetworkRequestTimeout (reason : string)
  | Shutdown.

Definition ConsensusResult (A : Type) : Type := result A ConsensusError.

(** [BTreeMap<BlockRef, Vec<TransactionIndex>>]. *)
Abbreviation rejected_transactions := (gmap BlockRef (list N)).

Record WriteBatch := mkWriteBatch {
  wb_blocks : list VerifiedBlock;
  wb_commits : list TrustedCommit;
  wb_commit_info : list (CommitRef * CommitInfo);
  wb_finalized_commits : list (CommitRef * rejected_transactions);
}.

(** ** The [Store] trait *)
Class Store (S : Type) := {
  store_write : S → WriteBatch → outcome (ConsensusResult S);
  store_read_blocks : S → list BlockRef → outcome (ConsensusResult (list (option VerifiedBlock)));
  store_contains_blocks : S → list BlockRef → outcome (ConsensusResult (list bool));
  store_scan_blocks_by_author : S → N → N → outcome (ConsensusResult (list VerifiedBlock));
  store_scan_blocks_by_author_in_range :
    S → N → N → N → N → outcome (ConsensusResult (list VerifiedBlock));
  store_scan_last_blocks_by_author :
    S → N → N → option N → outcome (ConsensusResult (list VerifiedBlock));
  store_read_last_commit : S → outcome (ConsensusResult (option TrustedCommit));
  store_scan_commits : S → CommitRange → outcome (ConsensusResult (list TrustedCommit));
  store_read_commit_votes : S → N → outcome (ConsensusResult (list BlockRef));
  store_read_last_commit_info : S → outcome (ConsensusResult (option (CommitRef * CommitInfo)));
  store_read_last_finalized_commit : S → outcome (ConsensusResult (option CommitRef));
  store_read_rejected_transactions :
    S → CommitRef → outcome (ConsensusResult (option rejected_transactions));
}.

(** Calling the store and panicking on an error, as every caller does. *)
Definition call {A} (m : outcome (ConsensusResult A)) : outcome A := r ← m; unwrap_ok r.

(** Inserting the blocks of a batch, the later ones replacing the earlier ones. *)
Definition insert_blocks (m : gmap BlockRef VerifiedBlock) (l : list VerifiedBlock) :
    gmap BlockRef VerifiedBlock :=
  foldl (λ m b, <[reference b := b]> m) m l.

(** What the clients rely on: a store holds a map from references to blocks;
    reads and existence checks answer from it, and a write that returns has
    added the blocks of the batch. *)
Class StoreLaws (S : Type) `{Store S} := {
  stored : S → gmap BlockRef VerifiedBlock;
  store_read_blocks_law s refs :
    store_read_blocks s refs = Done (Ok ((λ r, stored s !! r) <$> refs));
  store_contains_blocks_law s refs :
    store_contains_blocks s refs =
      Done (Ok ((λ r, bool_decide (r ∈ dom (stored s))) <$> refs));
  store_write_law s batch :
    ∃ s', store_write s batch = Done (Ok s') ∧
      stored s' = insert_blocks (stored s) (wb_blocks batch);
}.

(** ** The in-memory store *)
Module MemStore.

Record Inner := mkInner {
  blocks : gmap (N * N * N) VerifiedBlock;
  digests_by_authorities : gset (N * N * N);
  commits : gmap (N * N) TrustedCommit;
  commit_votes : gset (N * N * BlockRef);
  commit_info : gmap (N * N) CommitInfo;
  finalized_commits : gmap (N * N) rejected_transactions;
}.

(** The orders of the keys. *)
Abbreviation pair_le := (lex_le N.le N.le).
Abbreviation triple_le := (lex_le pair_le N.le).
Abbreviation vote_le := (lex_le pair_le BlockRef_le).

Definition new : Inner := mkInner ∅ ∅ ∅ ∅ ∅ ∅.

Definition write_block (s : Inner) (block : VerifiedBlock) : Inner :=
  let block_ref := reference block in
  {| blocks := <[(ref_round block_ref, ref_author block_ref, ref_digest block_ref) := block]> (blocks s);
     digests_by_authorities :=
       {[(ref_author block_ref, ref_round block_ref, ref_digest block_ref)]} ∪ digests_by_authorities s;
     commits := commits s;
     commit_votes := foldl (λ X vote, {[(cref_index vote, cref_digest vote, block_ref)]} ∪ X)
       (commit_votes s) (Block.commit_votes block);
     commit_info := commit_info s;
     finalized_commits := finalized_commits s |}.

Definition write (s : Inner) (batch : WriteBatch) : outcome (ConsensusResult Inner) :=
  let s := foldl write_block s (wb_blocks batch) in
  Done (Ok {|
    blocks := blocks s;
    digests_by_authorities := digests_by_authorities s;
    commits := foldl (λ m c, <[(tc_index c, tc_digest c) := c]> m) (commits s) (wb_commits batch);
    commit_votes := commit_votes s;
    commit_info := foldl (λ m '(r, i), <[(cref_index r, cref_digest r) := i]> m)
      (commit_info s) (wb_commit_info batch);
    finalized_commits := foldl (λ m '(r, t), <[(cref_index r, cref_digest r) := t]> m)
      (finalized_commits s) (wb_finalized_commits batch) |}).

Definition read_blocks (s : Inner) (refs : list BlockRef) :
    outcome (ConsensusResult (list (option VerifiedBlock))) :=
  Done (Ok ((λ r, blocks s !! (ref_round r, ref_author r, ref_digest r)) <$> refs)).

Definition contains_blocks (s : Inner) (refs : list BlockRef) : outcome (ConsensusResult (list bool)) :=
  Done (Ok ((λ r, bool_decide ((ref_round r, ref_author r, ref_digest r) ∈ dom (blocks s))) <$> refs)).

(** The loop that pushes references until [limit] of them are collected; the
    limit is tested after the push. *)
Fixpoint push_until_limit (limit len : N) (l : list (N * N * N)) : list BlockRef :=
  match l with
  | [] => []
  | (author, round, digest) :: l =>
      mkBlockRef round author digest ::
        (if (limit <=? len + 1)%N then [] else push_until_limit limit (len + 1)%N l)
  end.

(** The loop over the results: a reference without its block panics. *)
Definition expect_blocks (results : list (option VerifiedBlock)) : outcome (list VerifiedBlock) :=
  mapM unwrap results.

Definition scan_blocks_by_author_in_range (s : Inner) (author start_round end_round limit : N) :
    outcome (ConsensusResult (list VerifiedBlock)) :=
  let lo := (author, start_round, BlockDigest_MIN) in
  let hi := (author, end_round, BlockDigest_MIN) in
  range ← btree_range triple_le id lo hi (set_in_order triple_le (digests_by_authorities s));
  let refs := push_until_limit limit 0 (filter (λ k, k ≠ hi) range) in
  r ← read_blocks s refs;
  match r with
  | Err e => Done (Err e)
  | Ok results => blocks ← expect_blocks results; Done (Ok blocks)
  end.

Definition scan_blocks_by_author (s : Inner) (author start_round : N) :
    outcome (ConsensusResult (list VerifiedBlock)) :=
  scan_blocks_by_author_in_range s author start_round u32_MAX u64_MAX.

Definition scan_last_blocks_by_author (s : Inner) (author num_of_rounds : N)
    (before_round : option N) : outcome (ConsensusResult (list VerifiedBlock)) :=
  let before_round := default u32_MAX before_round in
  range ← btree_range triple_le id (author, 0, BlockDigest_MIN)%N
    (author, before_round, BlockDigest_MAX) (set_in_order triple_le (digests_by_authorities s));
  let refs := reverse ((λ '(author, round, digest), mkBlockRef round author digest) <$>
    takeN num_of_rounds (reverse range)) in
  r ← read_blocks s refs;
  match r with
  | Err e => Done (Err e)
  | Ok results => blocks ← expect_blocks results; Done (Ok blocks)
  end.

Definition read_last_commit (s : Inner) : outcome (ConsensusResult (option TrustedCommit)) :=
  Done (Ok (snd <$> map_last pair_le (commits s))).

Definition scan_commits (s : Inner) (range : CommitRange) :
    outcome (ConsensusResult (list TrustedCommit)) :=
  l ← btree_range pair_le fst (CommitRange_start range, CommitDigest_MIN)
    (CommitRange_end range, CommitDigest_MAX) (map_in_order pair_le (commits s));
  Done (Ok (map snd l)).

Definition read_commit_votes (s : Inner) (commit_index : N) :
    outcome (ConsensusResult (list BlockRef)) :=
  l ← btree_range vote_le id (commit_index, CommitDigest_MIN, BlockRef_MIN)
    (commit_index, CommitDigest_MAX, BlockRef_MAX) (set_in_order vote_le (commit_votes s));
  Done (Ok (map snd l)).

Definition read_last_commit_info (s : Inner) :
    outcome (ConsensusResult (option (CommitRef * CommitInfo))) :=
  Done (Ok ((λ '((i, d), v), (mkCommitRef i d, v)) <$> map_last pair_le (commit_info s))).

Definition read_last_finalized_commit (s : Inner) : outcome (ConsensusResult (option CommitRef)) :=
  Done (Ok ((λ '((i, d), _), mkCommitRef i d) <$> map_last pair_le (finalized_commits s))).

Definition read_rejected_transactions (s : Inner) (commit_ref : CommitRef) :
    outcome (ConsensusResult (option rejected_transactions)) :=
  Done (Ok (finalized_commits s !! (cref_index commit_ref, cref_digest commit_ref))).

End MemStore.

#[export] Instance mem_store : Store MemStore.Inner := {|
  store_write := MemStore.write;
  store_read_blocks := MemStore.read_blocks;
  store_contains_blocks := MemStore.contains_blocks;
  store_scan_blocks_by_author := MemStore.scan_blocks_by_author;
  store_scan_blocks_by_author_in_range := MemStore.scan_blocks_by_author_in_range;
  store_scan_last_blocks_by_author := MemStore.scan_last_blocks_by_author;
  store_read_last_commit := MemStore.read_last_commit;
  store_scan_commits := MemStore.scan_commits;
  store_read_commit_votes := MemStore.read_commit_votes;
  store_read_last_commit_info := MemStore.read_last_commit_info;
  store_read_last_finalized_commit := MemStore.read_last_finalized_commit;
  store_read_rejected_transactions := MemStore.read_rejected_transactions;
|}.

(** ** Recovery of a committed sub-dag (commit.rs) *)
Section recovery.
Context {S} `{Store S}.

Definition load_committed_subdag_from_store (store : S) (commit : TrustedCommit) :
    outcome CommittedSubDag :=
  commit_blocks ← call (store_read_blocks store (tc_blocks commit));
  blocks ← mapM unwrap commit_blocks;
  (** the index of the last block that is the leader *)
  let leader_block_idx := foldl (λ acc '(idx, b),
    if decide (reference b = tc_leader commit) then Some idx else acc) None
    (zip (seq 0 (length blocks)) blocks) in
  leader_block_idx ← unwrap leader_block_idx;
  leader_block ← unwrap (blocks !! leader_block_idx);
  let subdag := CommittedSubDag_new (reference leader_block) blocks (tc_timestamp_ms commit)
    (TrustedCommit_reference commit) in
  reject_votes ← call (store_read_rejected_transactions store (TrustedCommit_reference commit));
  Done match reject_votes with
  | Some reject_votes =>
      {| sd_leader := sd_leader subdag; sd_blocks := sd_blocks subdag;
         sd_timestamp_ms := sd_timestamp_ms subdag; sd_commit_ref := sd_commit_ref subdag;
         sd_decided_with_local_blocks := true; sd_recovered_rejected_transactions := true;
         sd_rejected_transactions_by_block := reject_votes |}
  | None =>
      {| sd_leader := sd_leader subdag; sd_blocks := sd_blocks subdag;
         sd_timestamp_ms := sd_timestamp_ms subdag; sd_commit_ref := sd_commit_ref subdag;
         sd_decided_with_local_blocks := false; sd_recovered_rejected_transactions := false;
         sd_rejected_transactions_by_block := sd_rejected_transactions_by_block subdag |}
  end.

End recovery.

(** ** The in-memory store keeps the contract *)

Definition key_ref : N * N * N → BlockRef := λ '(r, a, d), mkBlockRef r a d.
Definition index_ref : N * N * N → BlockRef := λ '(a, r, d), mkBlockRef r a d.
Definition mem_stored (s : MemStore.Inner) : gmap BlockRef VerifiedBlock :=
  kmap key_ref (MemStore.blocks s).

#[export] Instance key_ref_inj : Inj (=) (=) key_ref.
Proof. intros [[??]?] [[??]?] [=]. by subst. Qed.
#[export] Instance index_ref_inj : Inj (=) (=) index_ref.
Proof. intros [[??]?] [[??]?] [=]. by subst. Qed.

Lemma mem_stored_lookup s r :
  mem_stored s !! r = MemStore.blocks s !! (ref_round r, ref_author r, ref_digest r).
Proof. destruct r as [r a d]. exact (lookup_kmap key_ref (MemStore.blocks s) (r, a, d)). Qed.

Lemma mem_stored_write_block s b :
  mem_stored (MemStore.write_block s b) = <[reference b := b]> (mem_stored s).
Proof.
  unfold mem_stored. cbn.
  exact (kmap_insert key_ref (MemStore.blocks s) (round b, author b, digest b) b).
Qed.

Lemma mem_stored_write_blocks s l :
  mem_stored (foldl MemStore.write_block s l) = insert_blocks (mem_stored s) l.
Proof.
  unfold insert_blocks. revert s. induction l as [|b l IH]; intros s; cbn; [done|].
  by rewrite IH, mem_stored_write_block.
Qed.

#[export] Instance mem_store_laws : StoreLaws MemStore.Inner.
Proof.
  refine {| stored := mem_stored |}.
  - intros s refs. cbn. unfold MemStore.read_blocks. do 2 f_equal.
    apply list_fmap_ext. intros _ r _. by rewrite mem_stored_lookup.
  - intros s refs. cbn. unfold MemStore.contains_blocks. do 2 f_equal.
    apply list_fmap_ext. intros _ r _. apply bool_decide_ext.
    by rewrite !elem_of_dom, mem_stored_lookup.
  - intros s batch. eexists. split; [done|].
    rewrite <- mem_stored_write_blocks. done.
Defined.

(** The secondary index lists the stored blocks, and blocks are stored under
    their own reference. *)
Record index_ok (s : MemStore.Inner) : Prop := {
  io_index k : k ∈ MemStore.digests_by_authorities s ↔ index_ref k ∈ dom (mem_stored s);
  io_ref r b : mem_stored s !! r = Some b → reference b = r;
}.

Lemma index_ok_new : index_ok MemStore.new.
Proof.
  split; unfold mem_stored; cbn; intros *; rewrite kmap_empty; set_solver.
Qed.

Lemma index_ok_write_block s b : index_ok s → index_ok (MemStore.write_block s b).
Proof.
  intros [Hi Hr]. split.
  - intros [[a r] d]. rewrite mem_stored_write_block, dom_insert. cbn.
    rewrite !elem_of_union, Hi, !elem_of_singleton. cbn.
    split; (intros [Heq|]; [left|by right]); [by inversion Heq|].
    unfold reference in Heq. by inversion Heq.
  - intros r b'. rewrite mem_stored_write_block, lookup_insert_Some. naive_solver.
Qed.

Lemma index_ok_write s batch s' :
  index_ok s → MemStore.write s batch = Done (Ok s') → index_ok s'.
Proof.
  intros Hs [= <-].
  assert (index_ok (foldl MemStore.write_block s (wb_blocks batch))) as [Hi Hr].
  { revert s Hs. induction (wb_blocks batch) as [|b l IH]; intros s Hs; cbn; [done|].
    by apply IH, index_ok_write_block. }
  split; [exact Hi|exact Hr].
Qed.

(** States of a store: the writes since it was created. *)
Inductive mem_reachable : MemStore.Inner → Prop :=
  | mem_new : mem_reachable MemStore.new
  | mem_write s batch s' :
      mem_reachable s → MemStore.write s batch = Done (Ok s') → mem_reachable s'.

Lemma mem_reachable_ok s : mem_reachable s → index_ok s.
Proof. induction 1; eauto using index_ok_new, index_ok_write. Qed.

(** ** Range scans *)

Lemma triple_le_iff a r d a' r' d' :
  MemStore.triple_le (a, r, d) (a', r', d') ↔
    (a < a')%N ∨ (a = a' ∧ ((r < r')%N ∨ (r = r' ∧ (d ≤ d')%N))).
Proof.
  unfold lex_le. cbn. split.
  - intros [[Hne [[? ?]|[? ?]]]|[[= -> ->] ?]]; [lia| |lia].
    assert (r ≠ r') by naive_solver. lia.
  - destruct (decide (a = a')) as [->|]; [destruct (decide (r = r')) as [->|]|].
    + intros. right. split; [done|lia].
    + intros. left. split; [naive_solver|]. right. lia.
    + intros. left. split; [naive_solver|]. left. lia.
Qed.

Lemma push_until_limit_take limit len l :
  MemStore.push_until_limit limit len l =
    take (N.to_nat (N.max 1 (limit - len))) (index_ref <$> l).
Proof.
  revert len. induction l as [|[[a r] d] l IH]; intros len; cbn; [by rewrite take_nil|].
  destruct (N.leb_spec limit (len + 1)).
  - replace (N.max 1 (limit - len)) with 1%N by lia. done.
  - rewrite IH. replace (N.to_nat (N.max 1 (limit - len)))
      with (S (N.to_nat (N.max 1 (limit - (len + 1))))) by lia. done.
Qed.

(** Reading references of the index gives their blocks. *)
Lemma expect_read s refs :
  index_ok s → (∀ r, r ∈ refs → r ∈ dom (mem_stored s)) →
  ∃ l, MemStore.read_blocks s refs ≫= (λ r, match r with
         | Err e => Done (Err e)
         | Ok results => blocks ← MemStore.expect_blocks results; Done (Ok blocks)
         end) = Done (Ok l) ∧
    reference <$> l = refs ∧ ∀ b, b ∈ l → mem_stored s !! reference b = Some b.
Proof.
  intros Hok Hrefs. unfold MemStore.read_blocks. cbn. unfold MemStore.expect_blocks.
  induction refs as [|r refs IH]; [exists []; set_solver|].
  destruct IH as (l & Hl & Href & Hst); [set_solver|].
  assert (r ∈ dom (mem_stored s)) as [b Hb]%elem_of_dom by (apply Hrefs; set_solver).
  cbn. rewrite <- mem_stored_lookup, Hb. cbn.
  apply bind_Done in Hl as (l' & Hl' & [= ->]). rewrite Hl'. cbn.
  assert (reference b = r) as Hr by (by eapply io_ref).
  exists (b :: l). split_and!; [done|by cbn; rewrite Hr, Href|].
  intros b' [->|Hb']%elem_of_cons; [by rewrite Hr|auto].
Qed.

(** A stored block of [author] in rounds [start_round..end_round). *)
Definition scannable (s : MemStore.Inner) (a start_round end_round : N) (b : VerifiedBlock) : Prop :=
  mem_stored s !! reference b = Some b ∧ author b = a ∧ (start_round ≤ round b < end_round)%N.

Lemma elem_of_scan_range s a start_round end_round k :
  k ∈ filter (λ k, k ≠ (a, end_round, BlockDigest_MIN))
    (filter (λ v, MemStore.triple_le (a, start_round, BlockDigest_MIN) (id v) ∧
                  MemStore.triple_le (id v) (a, end_round, BlockDigest_MIN))
      (set_in_order MemStore.triple_le (MemStore.digests_by_authorities s))) ↔
  k ∈ MemStore.digests_by_authorities s ∧ k.1.1 = a ∧ (start_round ≤ k.1.2 < end_round)%N.
Proof.
  rewrite !list_elem_of_filter, elem_of_set_in_order. destruct k as [[x r] d]. unfold id. cbn.
  rewrite !triple_le_iff. unfold BlockDigest_MIN. split.
  - intros (Hne & Hr & ?). split; [done|].
    assert (¬ (x = a ∧ r = end_round ∧ d = 0%N)) by naive_solver. lia.
  - intros (? & -> & ?). split_and!; [|lia|lia|done]. intros [= ? ?]. lia.
Qed.

(** in every reachable state of the in-memory store a range scan of an author
    returns: it never misses the block of an indexed reference. The blocks come
    in strictly increasing order of reference, are stored blocks of that author
    with a round in [start_round, end_round), number at most [limit] (one when
    the limit is zero), and a block of the range is left out only when the limit
    is reached by smaller ones. *)
Theorem mem_store_scan s a start_round end_round limit :
  mem_reachable s → (start_round ≤ end_round)%N →
  ∃ l, MemStore.scan_blocks_by_author_in_range s a start_round end_round limit = Done (Ok l) ∧
    StronglySorted BlockRef_le (reference <$> l) ∧ NoDup (reference <$> l) ∧
    (lengthN l ≤ N.max 1 limit)%N ∧
    (∀ b, b ∈ l → scannable s a start_round end_round b) ∧
    (∀ b, scannable s a start_round end_round b →
      b ∈ l ∨ (lengthN l = N.max 1 limit ∧ ∀ b', b' ∈ l → BlockRef_le (reference b') (reference b))).
Proof.
  intros Hs%mem_reachable_ok Hle. unfold MemStore.scan_blocks_by_author_in_range, btree_range.
  rewrite rassert_true by (rewrite triple_le_iff; lia). run_bind.
  set (L := filter _ (filter _ _)).
  assert (∀ k, k ∈ L ↔ k ∈ MemStore.digests_by_authorities s ∧ k.1.1 = a ∧
    (start_round ≤ k.1.2 < end_round)%N) as HL by apply elem_of_scan_range.
  rewrite push_until_limit_take, N.sub_0_r. set (n := N.to_nat (N.max 1 limit)).
  assert (StronglySorted BlockRef_le (index_ref <$> L)) as Hsort.
  { eapply StronglySorted_fmap_impl;
      [|by apply StronglySorted_filter, StronglySorted_filter, set_in_order_sorted; apply _].
    intros [[? ?] ?] [[? ?] ?] (_ & ? & _)%HL (_ & ? & _)%HL. rewrite triple_le_iff.
    cbn in *; subst. unfold BlockRef_le. cbn. lia. }
  assert (NoDup (index_ref <$> L)) as Hnd.
  { apply NoDup_fmap_2; [apply _|]. by apply NoDup_filter, NoDup_filter, NoDup_set_in_order. }
  destruct (expect_read s (take n (index_ref <$> L))) as (l & Hl & Href & Hst); [done|..].
  { intros r Hr%elem_of_take. destruct Hr as (i & Hr & _).
    apply list_elem_of_lookup_2 in Hr. apply list_elem_of_fmap in Hr as (k & -> & Hk).
    by apply (io_index s), HL. }
  exists l. rewrite Hl, Href. split_and!; [done|by apply StronglySorted_take|..].
  - by eapply sublist_NoDup, sublist_take.
  - unfold lengthN. rewrite <- (length_fmap reference), Href, length_take. lia.
  - intros b Hb. split; [auto|]. assert (reference b ∈ take n (index_ref <$> L)) as Hin.
    { rewrite <- Href. by apply list_elem_of_fmap_2. }
    apply elem_of_take in Hin as (i & Hr & _). apply list_elem_of_lookup_2 in Hr.
    apply list_elem_of_fmap in Hr as ([[x r] d] & Hr & (_ & Hk)%HL). by inversion Hr; subst.
  - intros b (Hb & Ha & Hr).
    assert (reference b ∈ index_ref <$> L) as Hin.
    { apply list_elem_of_fmap. exists (author b, round b, digest b). split; [done|].
      apply HL. split; [|done]. apply (io_index s Hs). by apply elem_of_dom_2 in Hb. }
    destruct (StronglySorted_take_le _ n _ _ Hsort Hin) as [Hin'|[Hlen Hall]].
    + left. rewrite <- Href in Hin'. apply list_elem_of_fmap in Hin' as (b' & Heq & Hb').
      specialize (Hst b' Hb'). rewrite <- Heq in Hst. by simplify_eq.
    + right. rewrite <- Href in Hlen, Hall. split; [unfold lengthN; rewrite length_fmap in Hlen; lia|].
      intros b' Hb'. by apply Hall, list_elem_of_fmap_2.
Qed.

(** A store with a block of authority 1 at round 1 and two at round 2. *)
Definition sample_batch : WriteBatch :=
  mkWriteBatch [sample_block 1 1 10 []; sample_block 2 1 20 []; sample_block 2 1 21 []] [] [] [].
Definition sample_store : MemStore.Inner :=
  match MemStore.write MemStore.new sample_batch with Done (Ok s) => s | _ => MemStore.new end.

Lemma mem_store_scan_witness :
  mem_reachable sample_store ∧
  MemStore.scan_blocks_by_author_in_range sample_store 1 1 2 8 = Done (Ok [sample_block 1 1 10 []]) ∧
  ∃ l, MemStore.scan_blocks_by_author_in_range sample_store 1 1 3 8 = Done (Ok l) ∧ NoDup (reference <$> l).
Proof.
  assert (mem_reachable sample_store) as Hs.
  { eapply (mem_write MemStore.new sample_batch); [constructor|reflexivity]. }
  split; [exact Hs|]. split; [vm_compute; reflexivity|].
  destruct (mem_store_scan sample_store 1 1 3 8 Hs) as (l & Hl & _ & Hn & _); [done|].
  exists l. split; [exact Hl|exact Hn].
Defined.

(** the scan of the last blocks of an author counts blocks, not rounds: with two
    blocks of the author at round 2 and one at round 1, asking for the last two
    rounds leaves round 1 out. *)
Theorem scan_last_blocks_counts_blocks :
  mem_reachable sample_store ∧
  MemStore.scan_last_blocks_by_author sample_store 1 2 None =
    Done (Ok [sample_block 2 1 20 []; sample_block 2 1 21 []]) ∧
  mem_stored sample_store !! reference (sample_block 1 1 10 []) = Some (sample_block 1 1 10 []).
Proof.
  split; [|by vm_compute].
  eapply (mem_write MemStore.new sample_batch); [constructor|reflexivity].
Qed.

Lemma insert_blocks_lookup m l r :
  insert_blocks m l !! r =
    match last (filter (λ b, reference b = r) l) with Some b => Some b | None => m !! r end.
Proof.
  unfold insert_blocks. revert m. induction l as [|b l IH] using rev_ind; intros m; [done|].
  rewrite foldl_snoc, filter_app, last_app, filter_cons, filter_nil. cbn.
  destruct (decide (reference b = r)) as [<-|Hne]; [by rewrite lookup_insert_eq|].
  by rewrite lookup_insert_ne, IH.
Qed.
