(* ===== verification/LeaderScoring.v ===== *)
(** * Reputation scores (consensus/core/src/leader_scoring.rs)

    Votes for committed leaders collected from committed sub-dags, and the
    distributed vote scores of the authorities. *)

From S2P Require Import Prelude Committee Block StakeAggregator Commit.

Definition ReputationScores_new (range : CommitRange) (scores : list N) : ReputationScores :=
  mkReputationScores scores range.

Definition highest_score (r : ReputationScores) : N := foldr N.max 0%N (scores_per_authority r).

Definition authorities_by_score (ctx : Context) (r : ReputationScores) : outcome (list (N * N)) :=
  mapM (λ '(index, score), a ← unwrap (to_authority_index (committee ctx) index); Done (a, score))
    (zip (rangeN 0 (lengthN (scores_per_authority r))) (scores_per_authority r)).

Record ScoringSubdag := mkScoringSubdag {
  ss_commit_range : option CommitRange;
  ss_leaders : gset BlockRef;
  ss_votes : gmap BlockRef (StakeAggregator QuorumThreshold);
}.

Definition ScoringSubdag_new : ScoringSubdag := mkScoringSubdag None ∅ ∅.

(** The body of the innermost loop of [add_subdags]: one ancestor of one block. *)
Definition score_ancestor (c : Committee) (leaders : gset BlockRef) (block : VerifiedBlock)
    (votes : gmap BlockRef (StakeAggregator QuorumThreshold)) (ancestor : BlockRef) :
    outcome (gmap BlockRef (StakeAggregator QuorumThreshold)) :=
  if decide (ref_round ancestor ≠ (round block - 1)%N) then Done votes
  else
    votes ← (if decide (ancestor ∈ leaders) then
        rassert (votes !! reference block = None);;
        Done (<[reference block := StakeAggregator_new]> votes)
      else Done votes);
    match votes !! ancestor with
    | Some stake =>
        '(stake, _) ← agg_add stake (author block) c;
        Done (<[ancestor := stake]> votes)
    | None => Done votes
    end.

Definition score_block (c : Committee) (leaders : gset BlockRef)
    (votes : gmap BlockRef (StakeAggregator QuorumThreshold)) (block : VerifiedBlock) :
    outcome (gmap BlockRef (StakeAggregator QuorumThreshold)) :=
  for_each (score_ancestor c leaders block) votes (ancestors block).

Definition add_subdag (c : Committee) (ss : ScoringSubdag) (subdag : CommittedSubDag) :
    outcome ScoringSubdag :=
  let index := cref_index (sd_commit_ref subdag) in
  range ← match ss_commit_range ss with
    | None => Done (CommitRange_new index index)
    | Some range => CommitRange_extend_to range index
    end;
  let leaders := {[sd_leader subdag]} ∪ ss_leaders ss in
  votes ← for_each (score_block c leaders) (ss_votes ss) (sd_blocks subdag);
  Done (mkScoringSubdag (Some range) leaders votes).

Definition add_subdags (c : Committee) (ss : ScoringSubdag) (committed_subdags : list CommittedSubDag) :
    outcome ScoringSubdag :=
  for_each (add_subdag c) ss committed_subdags.

(** The loop body: [scores_per_authority[authority] += stake]. *)
Definition add_vote_score (scores : list N) (e : BlockRef * StakeAggregator QuorumThreshold) :
    outcome (list N) :=
  s ← vec_index scores (ref_author e.1);
  vec_set scores (ref_author e.1) (s +₆₄ agg_stake e.2).

Definition distributed_votes_scores (c : Committee) (ss : ScoringSubdag) : outcome (list N) :=
  for_each add_vote_score
    (replicate (length (authorities c)) 0%N) (entries_in_order (ss_votes ss)).

Definition calculate_distributed_vote_scores (c : Committee) (ss : ScoringSubdag) :
    outcome ReputationScores :=
  scores ← distributed_votes_scores c ss;
  range ← unwrap (ss_commit_range ss);
  Done (ReputationScores_new range scores).

Definition scored_subdags_count (ss : ScoringSubdag) : outcome N :=
  match ss_commit_range ss with
  | Some range => CommitRange_size range
  | None => Done 0%N
  end.

Definition ScoringSubdag_is_empty (ss : ScoringSubdag) : bool :=
  bool_decide (ss_leaders ss = ∅) && bool_decide (ss_votes ss = ∅)
    && bool_decide (ss_commit_range ss = None).

Definition ScoringSubdag_clear (_ : ScoringSubdag) : ScoringSubdag := mkScoringSubdag None ∅ ∅.

(** ** Scores *)

(** The votes come from committee members and carry the stake of their supporters. *)
Definition scoring_ok (c : Committee) (votes : gmap BlockRef (StakeAggregator QuorumThreshold)) : Prop :=
  ∀ v agg, votes !! v = Some agg → agg_ok c agg ∧ (ref_author v < Committee_size c)%N.

Section scores.
Context (c : Committee) (Hc : committee_ok c).

Lemma score_ancestor_ok leaders b votes anc votes' :
  (author b < Committee_size c)%N → scoring_ok c votes →
  score_ancestor c leaders b votes anc = Done votes' → scoring_ok c votes'.
Proof.
  intros Hb Hok. unfold score_ancestor. case_decide; intros Hrun; [by invert_done|].
  apply bind_Done in Hrun as (votes1 & H1 & H2).
  assert (scoring_ok c votes1) as Hok1.
  { case_decide; invert_done; [|done]. intros v agg [[<- <-]|[_ Hv]]%lookup_insert_Some; [|by apply Hok].
    split; [apply StakeAggregator_new_ok|done]. }
  destruct (votes1 !! anc) as [agg|] eqn:Hagg; [|by invert_done].
  destruct (Hok1 _ _ Hagg) as [Hagg_ok Hanc].
  destruct (agg_add_spec c Hc agg (author b)) as (agg' & Hadd & Hagg' & _); [done..|].
  rewrite Hadd in H2. invert_done.
  intros v agg2 [[<- <-]|[_ Hv]]%lookup_insert_Some; [done|by apply Hok1].
Qed.

Lemma add_subdag_ok ss sd ss' :
  (∀ b, b ∈ sd_blocks sd → author b < Committee_size c)%N →
  scoring_ok c (ss_votes ss) → add_subdag c ss sd = Done ss' → scoring_ok c (ss_votes ss').
Proof.
  intros Hb Hok Hrun. unfold add_subdag in Hrun. invert_done. cbn.
  eapply (for_each_inv (scoring_ok c)); [exact Hok| |done].
  intros v1 b v2 Hin Hv1 Hrun. eapply (for_each_inv (scoring_ok c)); [exact Hv1| |exact Hrun].
  intros ????. apply score_ancestor_ok. by apply Hb.
Qed.

(** The stake of the votes of authority [a] among [l]. *)
Definition vote_stake (a : N) (l : list (BlockRef * StakeAggregator QuorumThreshold)) : N :=
  sumN ((λ '(v, agg), if decide (ref_author v = a) then set_stake c (StakeAggregator.votes agg) else 0%N) <$> l).

Lemma vote_stake_bound a l : (vote_stake a l ≤ lengthN l * total_stake c)%N.
Proof.
  unfold vote_stake, lengthN. induction l as [|[v agg] l IH]; [cbn; lia|].
  rewrite fmap_cons. change (sumN (?x :: ?l)) with (x + sumN l)%N.
  rewrite length_cons, Nat2N.inj_succ. pose proof (set_stake_le_total c (StakeAggregator.votes agg)).
  pose proof (co_total _ Hc). case_decide; lia.
Qed.

Lemma distributed_loop l scores acc :
  (∀ v agg, (v, agg) ∈ l → agg_ok c agg ∧ (ref_author v < Committee_size c)%N) →
  length scores = length (authorities c) →
  (∀ a, (a < Committee_size c)%N → scores !! N.to_nat a = Some (vote_stake a acc)) →
  (lengthN (acc ++ l) * total_stake c < u64_modulus)%N →
  ∃ scores', for_each add_vote_score scores l = Done scores' ∧
    length scores' = length (authorities c) ∧
    ∀ a, (a < Committee_size c)%N → scores' !! N.to_nat a = Some (vote_stake a (acc ++ l)).
Proof.
  revert scores acc. induction l as [|[v agg] l IH]; intros scores acc Hl Hlen Hsc Hb; cbn [for_each].
  - exists scores. by rewrite app_nil_r.
  - destruct (Hl v agg) as [Hagg Hv]; [apply list_elem_of_here|].
    assert (add_vote_score scores (v, agg) = Done (<[N.to_nat (ref_author v) :=
      vote_stake (ref_author v) acc +₆₄ agg_stake agg]> scores)) as ->.
    { unfold add_vote_score. cbn [fst snd]. rewrite (vec_index_some _ _ _ (Hsc _ Hv)). cbn.
      apply vec_set_lt. unfold Committee_size, lengthN in *. lia. }
    run_bind.
    replace (acc ++ (v, agg) :: l) with ((acc ++ [(v, agg)]) ++ l) in * by by rewrite <- app_assoc.
    assert (vote_stake (ref_author v) acc +₆₄ agg_stake agg =
      vote_stake (ref_author v) (acc ++ [(v, agg)]))%N as Hadd.
    { pose proof (vote_stake_bound (ref_author v) (acc ++ [(v, agg)])) as Hbound.
      unfold vote_stake, lengthN in *. rewrite fmap_app, sumN_app in *. cbn in *.
      rewrite decide_True in * by done. rewrite (ao_stake _ _ Hagg).
      rewrite !length_app in *. cbn in *. rewrite wrap_add_small; [lia|nia]. }
    apply IH; [by eauto with lists|by rewrite length_insert| |done].
    intros a Ha. destruct (decide (a = ref_author v)) as [->|Hne].
    + rewrite list_lookup_insert_eq by (unfold Committee_size, lengthN in *; lia). by rewrite Hadd.
    + rewrite list_lookup_insert_ne by lia. rewrite Hsc by done. unfold vote_stake.
      rewrite fmap_app, sumN_app. cbn. rewrite decide_False by done. f_equal. lia.
Qed.

End scores.

(** scoring a sequence of committed sub-dags of committee blocks, when it does
    not panic, leaves votes whose recorded stake is the stake of the distinct
    authorities that support them, and the distributed vote scores then are
    computed without a panic: one score per authority, the sum over the
    authority's votes of the stake that supports the vote, with no overflow as
    long as the number of votes times the total stake fits in a [u64]. *)
Theorem distributed_scores_correct c subdags ss :
  committee_ok c →
  (∀ sd b, sd ∈ subdags → b ∈ sd_blocks sd → author b < Committee_size c)%N →
  add_subdags c ScoringSubdag_new subdags = Done ss →
  (N.of_nat (size (ss_votes ss)) * total_stake c < u64_modulus)%N →
  ∃ scores, distributed_votes_scores c ss = Done scores ∧
    length scores = length (authorities c) ∧
    ∀ a, (a < Committee_size c)%N →
      scores !! N.to_nat a = Some (vote_stake c a (entries_in_order (ss_votes ss))).
Proof.
  intros Hc Hb Hrun Hsize.
  assert (scoring_ok c (ss_votes ss)) as Hok.
  { eapply (for_each_inv (λ ss, scoring_ok c (ss_votes ss))); [| |exact Hrun].
    - intros v agg Hv. destruct (lookup_empty_Some v agg Hv).
    - intros ss1 sd ss2 Hsd Hss1. apply add_subdag_ok; [done| |done]. intros b. by apply Hb. }
  unfold distributed_votes_scores.
  apply (distributed_loop c Hc _ _ []).
  - intros v agg Hin%elem_of_map_in_order. by apply Hok.
  - by rewrite length_replicate.
  - intros a Ha. rewrite lookup_replicate_2; [done|]. unfold Committee_size, lengthN in Ha. lia.
  - cbn [app]. unfold lengthN. rewrite <- (length_fmap fst), map_in_order_keys.
    unfold set_in_order. rewrite stable_sort_length. change (length (elements (dom (ss_votes ss))))
      with (size (dom (ss_votes ss))). by rewrite size_dom.
Qed.

(** Two commits: the leader of round 1, then two votes for it and the leader of
    round 3 that links both votes. *)
Definition sample_votes : list VerifiedBlock :=
  [sample_block 2 0 20 [mkBlockRef 1 0 10]; sample_block 2 1 21 [mkBlockRef 1 0 10]].
Definition sample_subdags : list CommittedSubDag :=
  [CommittedSubDag_new (mkBlockRef 1 0 10) [sample_block 1 0 10 []] 1000 (mkCommitRef 1 0);
   CommittedSubDag_new (mkBlockRef 3 2 30)
     (sample_votes ++ [sample_block 3 2 30 (reference <$> sample_votes)]) 3000 (mkCommitRef 2 0)].

Lemma distributed_scores_correct_witness :
  ∃ ss scores, add_subdags committee_4 ScoringSubdag_new sample_subdags = Done ss ∧
    distributed_votes_scores committee_4 ss = Done scores ∧ length scores = 4 ∧
    scores = [1; 1; 0; 0]%N.
Proof.
  destruct (add_subdags committee_4 ScoringSubdag_new sample_subdags) as [ss| |] eqn:Hrun;
    [|vm_compute in Hrun; discriminate Hrun..].
  destruct (distributed_scores_correct committee_4 sample_subdags ss) as (scores & Hs & Hlen & _).
  - exact committee_4_ok.
  - intros sd b Hsd Hb. unfold sample_subdags in Hsd.
    repeat (apply elem_of_cons in Hsd as [->|Hsd]); [..|by apply not_elem_of_nil in Hsd];
    cbn in Hb; repeat (apply elem_of_cons in Hb as [->|Hb]);
      solve [done | by apply not_elem_of_nil in Hb].
  - exact Hrun.
  - vm_compute in Hrun. injection Hrun as <-. vm_compute. reflexivity.
  - exists ss, scores. split; [reflexivity|]. split; [exact Hs|]. split; [exact Hlen|].
    vm_compute in Hrun. injection Hrun as <-. vm_compute in Hs. by injection Hs as <-.
Defined.
