(* ===== verification/DagState.v ===== *)
(** * The dag state (consensus/core/src/dag_state.rs)

    Accepted blocks in memory and in the store, the commits, and what is
    buffered for the next flush. Every method is a function on the record
    [DagState], which is parametric in the type [S] of the store; a method that
    mutates the state returns the new one. Metrics, logging and wall-clock times
    are left out. *)

From S2P Require Import Prelude Committee Block StakeAggregator ThresholdClock Commit Store LeaderScoring.

(** Information on a block accepted into the dag. *)
Record BlockInfo := mkBlockInfo {
  bi_block : VerifiedBlock;
  bi_children : gset BlockRef;
  bi_children_stake : StakeAggregator QuorumThreshold;
  bi_committed : bool;
  bi_included : bool;
}.

Definition BlockInfo_new (block : VerifiedBlock) : BlockInfo :=
  mkBlockInfo block ∅ StakeAggregator_new false false.

(** Blocks accepted at a single round. *)
Record RoundInfo := mkRoundInfo {
  ri_round : N;
  ri_blocks : gset BlockRef;
  ri_total_stake : StakeAggregator QuorumThreshold;
}.

Definition RoundInfo_new (round : N) : RoundInfo := mkRoundInfo round ∅ StakeAggregator_new.

Record DagState (S : Type) := mkDagState {
  ds_context : Context;
  ds_genesis : gmap BlockRef VerifiedBlock;
  ds_recent_blocks : gmap BlockRef BlockInfo;
  ds_recent_refs_by_authority : list (gset BlockRef);
  ds_round_info : list RoundInfo;
  ds_threshold_clock : ThresholdClock;
  ds_evicted_rounds : list N;
  ds_highest_accepted_round : N;
  ds_last_commit : option TrustedCommit;
  ds_last_committed_rounds : list N;
  ds_scoring_subdag : ScoringSubdag;
  ds_pending_commit_votes : list CommitRef;
  ds_blocks_to_write : list VerifiedBlock;
  ds_commits_to_write : list TrustedCommit;
  ds_commit_info_to_write : list (CommitRef * CommitInfo);
  ds_finalized_commits_to_write : list (CommitRef * rejected_transactions);
  ds_store : S;
  ds_cached_rounds : N;
}.
Global Arguments mkDagState {S}.
Global Arguments ds_context {S} d.
Global Arguments ds_genesis {S} d.
Global Arguments ds_recent_blocks {S} d.
Global Arguments ds_recent_refs_by_authority {S} d.
Global Arguments ds_round_info {S} d.
Global Arguments ds_threshold_clock {S} d.
Global Arguments ds_evicted_rounds {S} d.
Global Arguments ds_highest_accepted_round {S} d.
Global Arguments ds_last_commit {S} d.
Global Arguments ds_last_committed_rounds {S} d.
Global Arguments ds_scoring_subdag {S} d.
Global Arguments ds_pending_commit_votes {S} d.
Global Arguments ds_blocks_to_write {S} d.
Global Arguments ds_commits_to_write {S} d.
Global Arguments ds_commit_info_to_write {S} d.
Global Arguments ds_finalized_commits_to_write {S} d.
Global Arguments ds_store {S} d.
Global Arguments ds_cached_rounds {S} d.

(** Field updates. *)
Definition set_recent_blocks {S} (x : gmap BlockRef BlockInfo) (d : DagState S) : DagState S :=
  mkDagState (ds_context d) (ds_genesis d) x (ds_recent_refs_by_authority d) (ds_round_info d)
    (ds_threshold_clock d) (ds_evicted_rounds d) (ds_highest_accepted_round d)
    (ds_last_commit d) (ds_last_committed_rounds d) (ds_scoring_subdag d)
    (ds_pending_commit_votes d) (ds_blocks_to_write d) (ds_commits_to_write d)
    (ds_commit_info_to_write d) (ds_finalized_commits_to_write d) (ds_store d)
    (ds_cached_rounds d).
Definition set_recent_refs_by_authority {S} (x : list (gset BlockRef)) (d : DagState S) : DagState S :=
  mkDagState (ds_context d) (ds_genesis d) (ds_recent_blocks d) x (ds_round_info d)
    (ds_threshold_clock d) (ds_evicted_rounds d) (ds_highest_accepted_round d)
    (ds_last_commit d) (ds_last_committed_rounds d) (ds_scoring_subdag d)
    (ds_pending_commit_votes d) (ds_blocks_to_write d) (ds_commits_to_write d)
    (ds_commit_info_to_write d) (ds_finalized_commits_to_write d) (ds_store d)
    (ds_cached_rounds d).
Definition set_round_info {S} (x : list RoundInfo) (d : DagState S) : DagState S :=
  mkDagState (ds_context d) (ds_genesis d) (ds_recent_blocks d) (ds_recent_refs_by_authority d)
    x (ds_threshold_clock d) (ds_evicted_rounds d) (ds_highest_accepted_round d)
    (ds_last_commit d) (ds_last_committed_rounds d) (ds_scoring_subdag d)
    (ds_pending_commit_votes d) (ds_blocks_to_write d) (ds_commits_to_write d)
    (ds_commit_info_to_write d) (ds_finalized_commits_to_write d) (ds_store d)
    (ds_cached_rounds d).
Definition set_threshold_clock {S} (x : ThresholdClock) (d : DagState S) : DagState S :=
  mkDagState (ds_context d) (ds_genesis d) (ds_recent_blocks d) (ds_recent_refs_by_authority d)
    (ds_round_info d) x (ds_evicted_rounds d) (ds_highest_accepted_round d) (ds_last_commit d)
    (ds_last_committed_rounds d) (ds_scoring_subdag d) (ds_pending_commit_votes d)
    (ds_blocks_to_write d) (ds_commits_to_write d) (ds_commit_info_to_write d)
    (ds_finalized_commits_to_write d) (ds_store d) (ds_cached_rounds d).
Definition set_evicted_rounds {S} (x : list N) (d : DagState S) : DagState S :=
  mkDagState (ds_context d) (ds_genesis d) (ds_recent_blocks d) (ds_recent_refs_by_authority d)
    (ds_round_info d) (ds_threshold_clock d) x (ds_highest_accepted_round d) (ds_last_commit d)
    (ds_last_committed_rounds d) (ds_scoring_subdag d) (ds_pending_commit_votes d)
    (ds_blocks_to_write d) (ds_commits_to_write d) (ds_commit_info_to_write d)
    (ds_finalized_commits_to_write d) (ds_store d) (ds_cached_rounds d).
Definition set_highest_accepted_round {S} (x : N) (d : DagState S) : DagState S :=
  mkDagState (ds_context d) (ds_genesis d) (ds_recent_blocks d) (ds_recent_refs_by_authority d)
    (ds_round_info d) (ds_threshold_clock d) (ds_evicted_rounds d) x (ds_last_commit d)
    (ds_last_committed_rounds d) (ds_scoring_subdag d) (ds_pending_commit_votes d)
    (ds_blocks_to_write d) (ds_commits_to_write d) (ds_commit_info_to_write d)
    (ds_finalized_commits_to_write d) (ds_store d) (ds_cached_rounds d).
Definition set_last_commit {S} (x : option TrustedCommit) (d : DagState S) : DagState S :=
  mkDagState (ds_context d) (ds_genesis d) (ds_recent_blocks d) (ds_recent_refs_by_authority d)
    (ds_round_info d) (ds_threshold_clock d) (ds_evicted_rounds d) (ds_highest_accepted_round d)
    x (ds_last_committed_rounds d) (ds_scoring_subdag d) (ds_pending_commit_votes d)
    (ds_blocks_to_write d) (ds_commits_to_write d) (ds_commit_info_to_write d)
    (ds_finalized_commits_to_write d) (ds_store d) (ds_cached_rounds d).
Definition set_last_committed_rounds {S} (x : list N) (d : DagState S) : DagState S :=
  mkDagState (ds_context d) (ds_genesis d) (ds_recent_blocks d) (ds_recent_refs_by_authority d)
    (ds_round_info d) (ds_threshold_clock d) (ds_evicted_rounds d) (ds_highest_accepted_round d)
    (ds_last_commit d) x (ds_scoring_subdag d) (ds_pending_commit_votes d)
    (ds_blocks_to_write d) (ds_commits_to_write d) (ds_commit_info_to_write d)
    (ds_finalized_commits_to_write d) (ds_store d) (ds_cached_rounds d).
Definition set_scoring_subdag {S} (x : ScoringSubdag) (d : DagState S) : DagState S :=
  mkDagState (ds_context d) (ds_genesis d) (ds_recent_blocks d) (ds_recent_refs_by_authority d)
    (ds_round_info d) (ds_threshold_clock d) (ds_evicted_rounds d) (ds_highest_accepted_round d)
    (ds_last_commit d) (ds_last_committed_rounds d) x (ds_pending_commit_votes d)
    (ds_blocks_to_write d) (ds_commits_to_write d) (ds_commit_info_to_write d)
    (ds_finalized_commits_to_write d) (ds_store d) (ds_cached_rounds d).
Definition set_pending_commit_votes {S} (x : list CommitRef) (d : DagState S) : DagState S :=
  mkDagState (ds_context d) (ds_genesis d) (ds_recent_blocks d) (ds_recent_refs_by_authority d)
    (ds_round_info d) (ds_threshold_clock d) (ds_evicted_rounds d) (ds_highest_accepted_round d)
    (ds_last_commit d) (ds_last_committed_rounds d) (ds_scoring_subdag d) x
    (ds_blocks_to_write d) (ds_commits_to_write d) (ds_commit_info_to_write d)
    (ds_finalized_commits_to_write d) (ds_store d) (ds_cached_rounds d).
Definition set_blocks_to_write {S} (x : list VerifiedBlock) (d : DagState S) : DagState S :=
  mkDagState (ds_context d) (ds_genesis d) (ds_recent_blocks d) (ds_recent_refs_by_authority d)
    (ds_round_info d) (ds_threshold_clock d) (ds_evicted_rounds d) (ds_highest_accepted_round d)
    (ds_last_commit d) (ds_last_committed_rounds d) (ds_scoring_subdag d)
    (ds_pending_commit_votes d) x (ds_commits_to_write d) (ds_commit_info_to_write d)
    (ds_finalized_commits_to_write d) (ds_store d) (ds_cached_rounds d).
Definition set_commits_to_write {S} (x : list TrustedCommit) (d : DagState S) : DagState S :=
  mkDagState (ds_context d) (ds_genesis d) (ds_recent_blocks d) (ds_recent_refs_by_authority d)
    (ds_round_info d) (ds_threshold_clock d) (ds_evicted_rounds d) (ds_highest_accepted_round d)
    (ds_last_commit d) (ds_last_committed_rounds d) (ds_scoring_subdag d)
    (ds_pending_commit_votes d) (ds_blocks_to_write d) x (ds_commit_info_to_write d)
    (ds_finalized_commits_to_write d) (ds_store d) (ds_cached_rounds d).
Definition set_commit_info_to_write {S} (x : list (CommitRef * CommitInfo)) (d : DagState S) : DagState S :=
  mkDagState (ds_context d) (ds_genesis d) (ds_recent_blocks d) (ds_recent_refs_by_authority d)
    (ds_round_info d) (ds_threshold_clock d) (ds_evicted_rounds d) (ds_highest_accepted_round d)
    (ds_last_commit d) (ds_last_committed_rounds d) (ds_scoring_subdag d)
    (ds_pending_commit_votes d) (ds_blocks_to_write d) (ds_commits_to_write d) x
    (ds_finalized_commits_to_write d) (ds_store d) (ds_cached_rounds d).
Definition set_finalized_commits_to_write {S} (x : list (CommitRef * rejected_transactions)) (d : DagState S) : DagState S :=
  mkDagState (ds_context d) (ds_genesis d) (ds_recent_blocks d) (ds_recent_refs_by_authority d)
    (ds_round_info d) (ds_threshold_clock d) (ds_evicted_rounds d) (ds_highest_accepted_round d)
    (ds_last_commit d) (ds_last_committed_rounds d) (ds_scoring_subdag d)
    (ds_pending_commit_votes d) (ds_blocks_to_write d) (ds_commits_to_write d)
    (ds_commit_info_to_write d) x (ds_store d) (ds_cached_rounds d).
Definition set_store {S} (x : S) (d : DagState S) : DagState S :=
  mkDagState (ds_context d) (ds_genesis d) (ds_recent_blocks d) (ds_recent_refs_by_authority d)
    (ds_round_info d) (ds_threshold_clock d) (ds_evicted_rounds d) (ds_highest_accepted_round d)
    (ds_last_commit d) (ds_last_committed_rounds d) (ds_scoring_subdag d)
    (ds_pending_commit_votes d) (ds_blocks_to_write d) (ds_commits_to_write d)
    (ds_commit_info_to_write d) (ds_finalized_commits_to_write d) x (ds_cached_rounds d).

Section dag_state.
Context {S : Type} `{Store S}.
Implicit Types ds : DagState S.

Definition ds_committee ds : Committee := committee (ds_context ds).

(** ** Commits and rounds *)

Definition last_commit_index ds : N :=
  match ds_last_commit ds with Some commit => tc_index commit | None => 0%N end.

Definition last_commit_digest ds : N :=
  match ds_last_commit ds with Some commit => tc_digest commit | None => CommitDigest_MIN end.

Definition last_commit_timestamp_ms ds : N :=
  match ds_last_commit ds with Some commit => tc_timestamp_ms commit | None => 0%N end.

Definition last_commit_leader ds : outcome Slot :=
  match ds_last_commit ds with
  | Some commit => Done (Slot_from (tc_leader commit))
  | None => '(r, _) ← unwrap (map_first BlockRef_le (ds_genesis ds)); Done (Slot_from r)
  end.

Definition last_commit_round ds : N :=
  match ds_last_commit ds with Some commit => ref_round (tc_leader commit) | None => 0%N end.

Definition calculate_gc_round ds (commit_round : N) : N :=
  (commit_round - gc_depth (protocol_config (ds_context ds)))%N.

Definition gc_round ds : N := calculate_gc_round ds (last_commit_round ds).

Definition threshold_clock_round ds : N := ThresholdClock_get_round (ds_threshold_clock ds).

Definition highest_accepted_round ds : N := ds_highest_accepted_round ds.

(** ** Reading blocks *)

(** The in-memory part of [get_blocks]: genesis blocks are never looked up in
    the cache or the store. *)
Definition cached_block ds (r : BlockRef) : option (option VerifiedBlock) :=
  if decide (ref_round r = GENESIS_ROUND) then Some (ds_genesis ds !! r)
  else Some <$> (bi_block <$> ds_recent_blocks ds !! r).

Definition get_blocks ds (block_refs : list BlockRef) : outcome (list (option VerifiedBlock)) :=
  match block_refs with
  | [] => Done []
  | _ => resolve None (λ r, Done (cached_block ds r))
      (λ missing_refs, call (store_read_blocks (ds_store ds) missing_refs)) block_refs
  end.

Definition get_block ds (r : BlockRef) : outcome (option VerifiedBlock) :=
  blocks ← get_blocks ds [r]; unwrap (last blocks).

(** The entries of [recent_blocks] in one slot. *)
Definition slot_range ds (slot : Slot) : outcome (list (BlockRef * BlockInfo)) :=
  btree_range BlockRef_le fst
    (mkBlockRef (slot_round slot) (slot_authority slot) BlockDigest_MIN)
    (mkBlockRef (slot_round slot) (slot_authority slot) BlockDigest_MAX)
    (entries_in_order (ds_recent_blocks ds)).

Definition get_block_info_at_slot ds (slot : Slot) : outcome (list BlockInfo) :=
  rassert (gc_round ds < slot_round slot)%N;;
  l ← slot_range ds slot;
  Done (map snd l).

Definition get_uncommitted_blocks_at_slot ds (slot : Slot) : outcome (list VerifiedBlock) :=
  l ← slot_range ds slot;
  Done (map (λ e, bi_block (snd e)) l).

Definition get_uncommitted_blocks_at_round ds (round : N) : outcome (list VerifiedBlock) :=
  rassert (last_commit_round ds < round)%N;;
  let hi := mkBlockRef (round +₃₂ 1) AuthorityIndex_ZERO BlockDigest_MIN in
  l ← btree_range BlockRef_le fst (mkBlockRef round AuthorityIndex_ZERO BlockDigest_MIN) hi
    (entries_in_order (ds_recent_blocks ds));
  Done (map (λ e, bi_block (snd e)) (filter (λ e, e.1 ≠ hi) l)).

(** The loop of [ancestors_at_round]: replace the highest reference by its
    block's ancestors until no reference is above [earlier_round]. *)
Fixpoint ancestors_loop ds (earlier_round : N) (fuel : nat) (linked : gset BlockRef) :
    outcome (gset BlockRef) :=
  match refs_last linked with
  | None => Done linked
  | Some block_ref =>
      if decide (ref_round block_ref ≤ earlier_round)%N then Done linked
      else match fuel with
      | O => OutOfFuel
      | Datatypes.S fuel =>
          o ← get_block ds block_ref;
          block ← unwrap o;
          ancestors_loop ds earlier_round fuel
            (list_to_set (ancestors block) ∪ (linked ∖ {[block_ref]}))
      end
  end.

(** Every iteration visits another block of [recent_blocks]. *)
Definition ancestors_at_round ds (later_block : VerifiedBlock) (earlier_round : N) :
    outcome (list VerifiedBlock) :=
  linked ← ancestors_loop ds earlier_round (size (ds_recent_blocks ds)) (list_to_set (ancestors later_block));
  mapM (λ r, o ← get_block ds r; unwrap o)
    (filter (BlockRef_le (mkBlockRef earlier_round AuthorityIndex_ZERO BlockDigest_MIN))
      (refs_in_order linked)).

Definition get_last_block_for_authority ds (authority : N) : outcome VerifiedBlock :=
  refs ← vec_index (ds_recent_refs_by_authority ds) authority;
  match refs_last refs with
  | Some last => info ← unwrap (ds_recent_blocks ds !! last); Done (bi_block info)
  | None =>
      '(_, b) ← unwrap (head (filter (λ e, ref_author e.1 = authority) (entries_in_order (ds_genesis ds))));
      Done b
  end.

Definition get_last_proposed_block ds : outcome (option VerifiedBlock) :=
  if is_validator (ds_context ds)
  then Some <$> get_last_block_for_authority ds (own_index (ds_context ds))
  else Done None.

(** The references of an authority with [start_round <= round < end_round]. *)
Definition cached_refs_in_range ds (authority start_round end_round : N) : outcome (list BlockRef) :=
  refs ← vec_index (ds_recent_refs_by_authority ds) authority;
  let hi := mkBlockRef end_round AuthorityIndex_MIN BlockDigest_MIN in
  l ← btree_range BlockRef_le id (mkBlockRef start_round authority BlockDigest_MIN) hi
    (refs_in_order refs);
  Done (filter (λ r, r ≠ hi) l).

(** The loop of [get_cached_blocks_in_range]: [limit] is tested after the push. *)
Fixpoint push_cached_blocks ds (limit len : N) (l : list BlockRef) : outcome (list VerifiedBlock) :=
  match l with
  | [] => Done []
  | r :: l =>
      info ← unwrap (ds_recent_blocks ds !! r);
      rest ← (if decide (limit ≤ len + 1)%N then Done [] else push_cached_blocks ds limit (len + 1)%N l);
      Done (bi_block info :: rest)
  end.

Definition get_cached_blocks_in_range ds (authority start_round end_round limit : N) :
    outcome (list VerifiedBlock) :=
  if decide (end_round ≤ start_round ∨ limit = 0)%N then Done []
  else l ← cached_refs_in_range ds authority start_round end_round;
       push_cached_blocks ds limit 0 l.

Definition get_cached_blocks ds (authority start : N) : outcome (list VerifiedBlock) :=
  get_cached_blocks_in_range ds authority start u32_MAX u64_MAX.

Definition get_last_cached_block_in_range ds (authority start_round end_round : N) :
    outcome (option VerifiedBlock) :=
  if decide (end_round ≤ start_round)%N then Done None
  else l ← cached_refs_in_range ds authority start_round end_round;
       Done (r ← last l; bi_block <$> ds_recent_blocks ds !! r).

(** The loop over the references of one authority, from the highest: the block
    of the first one, and the other references of its round. *)
Fixpoint last_block_loop ds (last_round : N) (found : option VerifiedBlock)
    (equivocating : list BlockRef) (l : list BlockRef) :
    outcome (option VerifiedBlock * list BlockRef) :=
  match l with
  | [] => Done (found, equivocating)
  | block_ref :: l =>
      if decide (last_round = 0%N) then
        info ← unwrap (ds_recent_blocks ds !! block_ref);
        last_block_loop ds (ref_round block_ref) (Some (bi_block info)) equivocating l
      else if decide (ref_round block_ref < last_round)%N then Done (found, equivocating)
      else last_block_loop ds last_round found (equivocating ++ [block_ref]) l
  end.

Definition last_cached_block_of ds (end_round : N)
    (st : list VerifiedBlock * list (list BlockRef)) (e : N * gset BlockRef) :
    outcome (list VerifiedBlock * list (list BlockRef)) :=
  let '(blocks, equivocating_blocks) := st in
  let '(index, block_refs) := e in
  authority_index ← unwrap (to_authority_index (ds_committee ds) index);
  last_evicted_round ← vec_index (ds_evicted_rounds ds) authority_index;
  rassert (last_evicted_round < end_round - 1)%N;;
  let hi := mkBlockRef end_round authority_index BlockDigest_MIN in
  range ← btree_range BlockRef_le id
    (mkBlockRef (last_evicted_round +₃₂ 1) authority_index BlockDigest_MIN) hi (refs_in_order block_refs);
  '(found, equivocating) ← last_block_loop ds 0 None [] (reverse (filter (λ r, r ≠ hi) range));
  blocks ← match found with Some b => vec_set blocks authority_index b | None => Done blocks end;
  equivocating_blocks ← vec_set equivocating_blocks authority_index equivocating;
  Done (blocks, equivocating_blocks).

Definition get_last_cached_block_per_authority ds (end_round : N) :
    outcome (list (VerifiedBlock * list BlockRef)) :=
  let blocks := map snd (entries_in_order (ds_genesis ds)) in
  rassert (end_round ≠ GENESIS_ROUND);;
  if decide (end_round = GENESIS_ROUND + 1)%N then Done (map (λ b, (b, [])) blocks)
  else
    '(blocks, equivocating_blocks) ← for_each (last_cached_block_of ds end_round)
      (blocks, replicate (N.to_nat (Committee_size (ds_committee ds))) [])
      (zip (rangeN 0 (lengthN (ds_recent_refs_by_authority ds))) (ds_recent_refs_by_authority ds));
    Done (zip blocks equivocating_blocks).

Definition contains_cached_block_at_slot ds (slot : Slot) : outcome bool :=
  if decide (slot_round slot = GENESIS_ROUND) then Done true
  else
    eviction_round ← vec_index (ds_evicted_rounds ds) (slot_authority slot);
    rassert (eviction_round < slot_round slot)%N;;
    refs ← vec_index (ds_recent_refs_by_authority ds) (slot_authority slot);
    l ← btree_range BlockRef_le id
      (mkBlockRef (slot_round slot) (slot_authority slot) BlockDigest_MIN)
      (mkBlockRef (slot_round slot) (slot_authority slot) BlockDigest_MAX) (refs_in_order refs);
    Done (match l with [] => false | _ => true end).

(** The in-memory part of [contains_blocks]: a reference above the highest
    cached one of its author is missing without looking into the store. *)
Definition cached_contains ds (r : BlockRef) : outcome (option bool) :=
  recent_refs ← vec_index (ds_recent_refs_by_authority ds) (ref_author r);
  if decide (r ∈ recent_refs ∨ r ∈ dom (ds_genesis ds)) then Done (Some true)
  else match refs_last recent_refs with
  | None => Done (Some false)
  | Some last => if decide (ref_round last < ref_round r)%N then Done (Some false) else Done None
  end.

Definition contains_blocks ds (block_refs : list BlockRef) : outcome (list bool) :=
  resolve false (cached_contains ds)
    (λ missing_refs, call (store_contains_blocks (ds_store ds) missing_refs)) block_refs.

Definition contains_block ds (r : BlockRef) : outcome bool :=
  blocks ← contains_blocks ds [r]; unwrap (head blocks).

(** ** Commit and inclusion status *)

Definition set_committed ds (r : BlockRef) : outcome (DagState S * bool) :=
  info ← unwrap (ds_recent_blocks ds !! r);
  if bi_committed info then Done (ds, false)
  else Done (set_recent_blocks (<[r := mkBlockInfo (bi_block info) (bi_children info)
    (bi_children_stake info) true (bi_included info)]> (ds_recent_blocks ds)) ds, true).

Definition is_committed ds (r : BlockRef) : outcome bool :=
  info ← unwrap (ds_recent_blocks ds !! r); Done (bi_committed info).

Definition has_been_included ds (r : BlockRef) : outcome bool :=
  info ← unwrap (ds_recent_blocks ds !! r); Done (bi_included info).

Definition mark_included (info : BlockInfo) : BlockInfo :=
  mkBlockInfo (bi_block info) (bi_children info) (bi_children_stake info) (bi_committed info) true.

(** The breadth-first loop of [link_causal_history]. *)
Fixpoint link_loop (gc_round : N) (fuel : nat) (recent : gmap BlockRef BlockInfo)
    (linked_blocks targets : list BlockRef) : outcome (gmap BlockRef BlockInfo * list BlockRef) :=
  match targets with
  | [] => Done (recent, linked_blocks)
  | block_ref :: targets =>
      match fuel with
      | O => OutOfFuel
      | Datatypes.S fuel =>
          if decide (ref_round block_ref ≤ gc_round)%N then link_loop gc_round fuel recent linked_blocks targets
          else
            info ← unwrap (recent !! block_ref);
            if bi_included info then link_loop gc_round fuel recent linked_blocks targets
            else link_loop gc_round fuel (<[block_ref := mark_included info]> recent)
                   (linked_blocks ++ [block_ref]) (targets ++ ancestors (bi_block info))
      end
  end.

(** One step for the root and one for each ancestor of a block in memory. *)
Definition link_fuel (recent : gmap BlockRef BlockInfo) : nat :=
  Datatypes.S (sum_list ((λ e, length (ancestors (bi_block (snd e)))) <$> map_to_list recent)).

Definition link_causal_history ds (root_block : BlockRef) : outcome (DagState S * list BlockRef) :=
  '(recent, linked_blocks) ← link_loop (gc_round ds) (link_fuel (ds_recent_blocks ds))
    (ds_recent_blocks ds) [] [root_block];
  Done (set_recent_blocks recent ds, linked_blocks).

(** ** Rounds *)

Definition get_round_info ds (round : N) : outcome (option RoundInfo) :=
  match head (ds_round_info ds) with
  | None => Done None
  | Some front =>
      if decide (round < ri_round front ∨ round ≤ gc_round ds)%N then Done None
      else match ds_round_info ds !! N.to_nat (round - ri_round front) with
      | None => Done None
      | Some info => rassert (ri_round info = round);; Done (Some info)
      end
  end.

Definition update_round_info ds (block : VerifiedBlock) : outcome (DagState S) :=
  let block_ref := reference block in
  if decide (round block ≤ gc_round ds)%N then Done ds
  else
    let next_round := match last (ds_round_info ds) with
      | Some info => ri_round info +₃₂ 1
      | None => gc_round ds +₃₂ 1
      end in
    rassert (round block ≤ next_round)%N;;
    let infos := if decide (round block = next_round)
      then ds_round_info ds ++ [RoundInfo_new (round block)] else ds_round_info ds in
    front ← unwrap (head infos);
    let index := round block -₃₂ ri_round front in
    info ← vec_index infos index;
    '(total_stake, _) ← agg_add_unique (ri_total_stake info) (ref_author block_ref) (ds_committee ds);
    infos ← vec_set infos index (mkRoundInfo (ri_round info) ({[block_ref]} ∪ ri_blocks info) total_stake);
    Done (set_round_info infos ds).

(** ** Accepting blocks *)

(** Counting a block as a child of one of its ancestors, in
    [update_block_metadata]. *)
Definition update_child (block_ref : BlockRef) ds (ancestor : BlockRef) : outcome (DagState S) :=
  if decide (ref_round ancestor +₃₂ 1 ≠ ref_round block_ref ∨ ref_round ancestor ≤ gc_round ds)%N
  then Done ds
  else
    info ← unwrap (ds_recent_blocks ds !! ancestor);
    '(children_stake, _) ← agg_add_unique (bi_children_stake info) (ref_author block_ref) (ds_committee ds);
    Done (set_recent_blocks (<[ancestor := mkBlockInfo (bi_block info)
      ({[block_ref]} ∪ bi_children info) children_stake (bi_committed info) (bi_included info)]>
      (ds_recent_blocks ds)) ds).

Definition update_block_metadata ds (block : VerifiedBlock) : outcome (DagState S) :=
  let block_ref := reference block in
  let ds := set_recent_blocks (<[block_ref := BlockInfo_new block]> (ds_recent_blocks ds)) ds in
  refs ← vec_index (ds_recent_refs_by_authority ds) (ref_author block_ref);
  by_authority ← vec_set (ds_recent_refs_by_authority ds) (ref_author block_ref) ({[block_ref]} ∪ refs);
  let ds := set_recent_refs_by_authority by_authority ds in
  ds ← (if enable_v3 (protocol_config (ds_context ds)) then
          ds ← for_each (update_child block_ref) ds (ancestors block);
          update_round_info ds block
        else Done ds);
  '(clock, advanced) ← ThresholdClock_add_block (ds_committee ds) (ds_threshold_clock ds) block_ref;
  let ds := set_threshold_clock clock ds in
  (* the last proposed block is read for a latency metric *)
  (if advanced : bool then get_last_proposed_block ds else Done None);;
  let ds := set_highest_accepted_round (N.max (ds_highest_accepted_round ds) (round block)) ds in
  refs ← vec_index (ds_recent_refs_by_authority ds) (ref_author block_ref);
  unwrap (refs_last refs);;
  authority (ds_committee ds) (ref_author block_ref);;
  Done ds.

Definition accept_block ds (block : VerifiedBlock) : outcome (DagState S) :=
  rassert (round block ≠ 0%N);;
  let block_ref := reference block in
  known ← contains_block ds block_ref;
  if known : bool then Done ds
  else
    authority (ds_committee ds) (ref_author block_ref);;
    (if decide (ref_author block_ref = own_index (ds_context ds)) then
       existing_blocks ← get_uncommitted_blocks_at_slot ds (Slot_from block_ref);
       if skip_equivocation_validation (parameters (ds_context ds)) then Done ()
       else rassert (length existing_blocks = 0)
     else Done ());;
    ds ← update_block_metadata ds block;
    Done (set_blocks_to_write (ds_blocks_to_write ds ++ [block]) ds).

Definition accept_blocks ds (blocks : list VerifiedBlock) : outcome (DagState S) :=
  for_each accept_block ds blocks.

(** ** Commits *)

(** [last_committed_rounds[author] = max(.., round)] for the blocks of a commit. *)
Definition update_committed_round (rounds : list N) (r : BlockRef) : outcome (list N) :=
  old ← vec_index rounds (ref_author r);
  vec_set rounds (ref_author r) (N.max old (ref_round r)).

(** The checks of [add_commit]; [false] is the early return on an old commit. *)
Definition check_commit ds (commit : TrustedCommit) : outcome bool :=
  match ds_last_commit ds with
  | Some last_commit =>
      if decide (tc_index commit ≤ tc_index last_commit)%N then Done false
      else
        rassert (tc_index commit = tc_index last_commit +₃₂ 1)%N;;
        rassert (tc_timestamp_ms last_commit ≤ tc_timestamp_ms commit)%N;;
        Done true
  | None => rassert (tc_index commit = 1%N);; Done true
  end.

Definition add_commit ds (commit : TrustedCommit) : outcome (DagState S) :=
  proceed ← check_commit ds commit;
  if proceed : bool then
    let ds := set_last_commit (Some commit) ds in
    rounds ← for_each update_committed_round (ds_last_committed_rounds ds) (tc_blocks commit);
    let ds := set_last_committed_rounds rounds ds in
    (* the per-authority metrics index the committee *)
    mapM (λ i, unwrap (to_authority_index (ds_committee ds) i)) (rangeN 0 (lengthN rounds));;
    let ds := set_pending_commit_votes (ds_pending_commit_votes ds ++ [TrustedCommit_reference commit]) ds in
    Done (set_commits_to_write (ds_commits_to_write ds ++ [commit]) ds)
  else Done ds.

Definition recover_commits_to_write ds (commits : list TrustedCommit) : DagState S :=
  set_commits_to_write (ds_commits_to_write ds ++ commits) ds.

Definition ensure_commits_to_write_is_empty ds : outcome () :=
  rassert (length (ds_commits_to_write ds) = 0).

Definition add_commit_info ds (scores : ReputationScores) : outcome (DagState S) :=
  rassert (ScoringSubdag_is_empty (ds_scoring_subdag ds) = true);;
  last_commit ← unwrap (ds_last_commit ds);
  Done (set_commit_info_to_write (ds_commit_info_to_write ds ++
    [(TrustedCommit_reference last_commit, mkCommitInfo (ds_last_committed_rounds ds) scores)]) ds).

Definition add_finalized_commit ds (commit_ref : CommitRef) (rejected : rejected_transactions) : DagState S :=
  set_finalized_commits_to_write (ds_finalized_commits_to_write ds ++ [(commit_ref, rejected)]) ds.

(** The loop that pops votes from the front while fewer than [limit] are taken. *)
Fixpoint take_votes (limit len : N) (pending : list CommitRef) : list CommitRef * list CommitRef :=
  match pending with
  | [] => ([], [])
  | vote :: rest =>
      if decide (len < limit)%N
      then let '(votes, remaining) := take_votes limit (len + 1)%N rest in (vote :: votes, remaining)
      else ([], pending)
  end.

Definition take_commit_votes ds (limit : N) : DagState S * list CommitRef :=
  let '(votes, remaining) := take_votes limit 0 (ds_pending_commit_votes ds) in
  (set_pending_commit_votes remaining ds, votes).

Definition last_committed_rounds ds : list N := ds_last_committed_rounds ds.

(** ** Scoring *)

Definition recover_last_commit_info ds : outcome (option (CommitRef * CommitInfo)) :=
  call (store_read_last_commit_info (ds_store ds)).

Definition add_scoring_subdags ds (subdags : list CommittedSubDag) : outcome (DagState S) :=
  scoring ← add_subdags (ds_committee ds) (ds_scoring_subdag ds) subdags;
  Done (set_scoring_subdag scoring ds).

Definition clear_scoring_subdag ds : DagState S :=
  set_scoring_subdag (ScoringSubdag_clear (ds_scoring_subdag ds)) ds.

Definition scoring_subdags_count ds : outcome N := scored_subdags_count (ds_scoring_subdag ds).

Definition calculate_scoring_subdag_scores ds : outcome ReputationScores :=
  calculate_distributed_vote_scores (ds_committee ds) (ds_scoring_subdag ds).

Definition scoring_subdag_commit_range ds : outcome N :=
  range ← unwrap (ss_commit_range (ds_scoring_subdag ds)); Done (CommitRange_end range).

(** ** Flush and eviction *)

Definition eviction_round (last_round gc_round cached_rounds : N) : N :=
  N.min gc_round (last_round - cached_rounds).

Definition calculate_authority_eviction_round ds (a : N) : outcome N :=
  refs ← vec_index (ds_recent_refs_by_authority ds) a;
  let last_round := match refs_last refs with Some r => ref_round r | None => GENESIS_ROUND end in
  Done (eviction_round last_round (gc_round ds) (ds_cached_rounds ds)).

(** The loop that pops the references of an authority in order, [l], while
    their round is at most the eviction round. *)
Fixpoint evict_loop (evict : N) (l : list BlockRef) (recent : gmap BlockRef BlockInfo)
    (refs : gset BlockRef) : gmap BlockRef BlockInfo * gset BlockRef :=
  match l with
  | [] => (recent, refs)
  | r :: l =>
      if decide (ref_round r ≤ evict)%N then evict_loop evict l (delete r recent) (refs ∖ {[r]})
      else (recent, refs)
  end.

Definition evict_authority ds (a : N) : outcome (DagState S) :=
  evict ← calculate_authority_eviction_round ds a;
  refs ← vec_index (ds_recent_refs_by_authority ds) a;
  let '(recent, refs) := evict_loop evict (refs_in_order refs) (ds_recent_blocks ds) refs in
  by_authority ← vec_set (ds_recent_refs_by_authority ds) a refs;
  evicted ← vec_set (ds_evicted_rounds ds) a evict;
  Done (set_evicted_rounds evicted (set_recent_refs_by_authority by_authority (set_recent_blocks recent ds))).

(** Dropping the round infos at or below the gc round from the front. *)
Fixpoint pop_round_infos (gc_round : N) (l : list RoundInfo) : list RoundInfo :=
  match l with
  | [] => []
  | info :: rest => if decide (ri_round info ≤ gc_round)%N then pop_round_infos gc_round rest else l
  end.

Definition flush ds : outcome (DagState S) :=
  let batch := mkWriteBatch (ds_blocks_to_write ds) (ds_commits_to_write ds)
    (ds_commit_info_to_write ds) (ds_finalized_commits_to_write ds) in
  match ds_blocks_to_write ds, ds_commits_to_write ds, ds_commit_info_to_write ds,
        ds_finalized_commits_to_write ds with
  | [], [], [], [] => Done ds
  | _, _, _, _ =>
      let ds := set_blocks_to_write [] (set_commits_to_write [] (set_commit_info_to_write []
        (set_finalized_commits_to_write [] ds))) in
      store ← call (store_write (ds_store ds) batch);
      let ds := set_store store ds in
      ds ← for_each evict_authority ds (map fst (authorities_iter (ds_committee ds)));
      Done (set_round_info (pop_round_infos (gc_round ds) (ds_round_info ds)) ds)
  end.

End dag_state.

(** ** Recovery from the store ([DagState::new]) *)
Section recover.
Context {S : Type} `{Store S} `{BlockCodec}.

(** Committed rounds and sub-dags of the commits after the last commit info. *)
Definition recover_commit (store : S) (st : list N * list CommittedSubDag) (commit : TrustedCommit) :
    outcome (list N * list CommittedSubDag) :=
  rounds ← for_each update_committed_round st.1 (tc_blocks commit);
  subdag ← load_committed_subdag_from_store store commit;
  Done (rounds, st.2 ++ [subdag]).

(** The blocks of one authority above its eviction round. *)
Definition recover_authority (st : DagState S * list VerifiedBlock) (a : N) :
    outcome (DagState S * list VerifiedBlock) :=
  let '(ds, recovered) := st in
  last_block ← call (store_scan_last_blocks_by_author (ds_store ds) a 1 None);
  let last_block_round := match last last_block with Some b => round b | None => GENESIS_ROUND end in
  let evict := eviction_round last_block_round (gc_round ds) (ds_cached_rounds ds) in
  blocks ← call (store_scan_blocks_by_author (ds_store ds) a (evict +₃₂ 1));
  evicted ← vec_set (ds_evicted_rounds ds) a evict;
  Done (set_evicted_rounds evicted ds, recovered ++ blocks).

(** Marking the blocks of the commits from [index] downwards as committed. *)
Fixpoint recover_committed (fuel : nat) (index : N) (ds : DagState S) : outcome (DagState S) :=
  match fuel with
  | O => OutOfFuel
  | Datatypes.S fuel =>
      commits ← call (store_scan_commits (ds_store ds) (CommitRange_new index index));
      match head commits with
      | None => Done ds
      | Some commit =>
          if decide (0 < gc_round ds ∧ ref_round (tc_leader commit) ≤ gc_round ds)%N then Done ds
          else
            ds ← for_each (λ ds r,
                '(ds, first_time) ← set_committed ds r;
                rassert (first_time = true);; Done ds)
              ds (filter (λ r, (gc_round ds < ref_round r)%N) (tc_blocks commit));
            let index := (index - 1)%N in
            if decide (index = 0%N) then Done ds else recover_committed fuel index ds
      end
  end.

Definition DagState_new (ctx : Context) (store : S) : outcome (DagState S) :=
  let num_authorities := N.to_nat (Committee_size (committee ctx)) in
  genesis ← genesis_blocks ctx;
  last_commit ← call (store_read_last_commit store);
  commit_info ← call (store_read_last_commit_info store);
  let '(rounds, start_index) := match commit_info with
    | Some (commit_ref, info) => (committed_rounds info, cref_index commit_ref +₃₂ 1)
    | None => (replicate num_authorities 0%N, (GENESIS_COMMIT_INDEX + 1)%N)
    end in
  '(rounds, unscored) ← match last_commit with
    | Some last_commit =>
        commits ← call (store_scan_commits store (CommitRange_new start_index (tc_index last_commit)));
        for_each (recover_commit store) (rounds, []) commits
    | None => Done (rounds, [])
    end;
  scoring ← add_subdags (committee ctx) ScoringSubdag_new unscored;
  let ds := {| ds_context := ctx;
    ds_genesis := insert_blocks ∅ genesis;
    ds_recent_blocks := ∅;
    ds_recent_refs_by_authority := replicate num_authorities ∅;
    ds_round_info := [];
    ds_threshold_clock := ThresholdClock_new 1;
    ds_evicted_rounds := replicate num_authorities 0%N;
    ds_highest_accepted_round := 0;
    ds_last_commit := last_commit;
    ds_last_committed_rounds := rounds;
    ds_scoring_subdag := scoring;
    ds_pending_commit_votes := [];
    ds_blocks_to_write := [];
    ds_commits_to_write := [];
    ds_commit_info_to_write := [];
    ds_finalized_commits_to_write := [];
    ds_store := store;
    ds_cached_rounds := dag_state_cached_rounds (parameters ctx) |} in
  '(ds, recovered) ← for_each recover_authority (ds, []) (map fst (authorities_iter (committee ctx)));
  ds ← for_each update_block_metadata ds (stable_sort block_le recovered);
  ds ← match last_commit with
    | Some last_commit => recover_committed (Datatypes.S (N.to_nat (tc_index last_commit))) (tc_index last_commit) ds
    | None => Done ds
    end;
  proposed_blocks ← call (store_scan_blocks_by_author store (own_index ctx) (gc_round ds +₃₂ 1));
  for_each (λ ds b, fst <$> link_causal_history ds (reference b)) ds proposed_blocks.

End recover.
