(* ===== verification/DagInvariant.v ===== *)
(** * Invariant of the dag state

    The relation between what is cached, what is stored and what is buffered in
    [DagState], its preservation by every operation, and what reads answer. The
    lemmas hold for every store that keeps the contract [StoreLaws]. *)

From S2P Require Import Prelude Committee Block StakeAggregator ThresholdClock Commit Store LeaderScoring DagState.

Section invariant.
Context {S : Type} `{StoreLaws S}.
Implicit Types ds : DagState S.

(** The blocks in memory, and all accepted blocks. *)
Definition cached ds : gmap BlockRef VerifiedBlock := bi_block <$> ds_recent_blocks ds.
Definition accepted ds : gmap BlockRef VerifiedBlock := cached ds ∪ stored (ds_store ds).

(** A reference of a block that can be accepted. *)
Record ref_ok (c : Committee) (r : BlockRef) : Prop := {
  ro_author : (ref_author r < Committee_size c)%N;
  ro_round : ref_round r ≠ 0%N;
  ro_digest : (ref_digest r ≤ BlockDigest_MAX)%N;
}.

Record dag_ok ds : Prop := {
  dk_committee : committee_ok (ds_committee ds);
  dk_cached_rounds : (0 < ds_cached_rounds ds)%N;
  dk_refs_len : lengthN (ds_recent_refs_by_authority ds) = Committee_size (ds_committee ds);
  dk_evicted_len : lengthN (ds_evicted_rounds ds) = Committee_size (ds_committee ds);
  (** cached blocks are indexed by their author *)
  dk_refs a refs : ds_recent_refs_by_authority ds !! N.to_nat a = Some refs →
    ∀ r, r ∈ refs ↔ r ∈ dom (cached ds) ∧ ref_author r = a;
  (** blocks are filed under their own reference *)
  dk_recent r b : cached ds !! r = Some b → reference b = r ∧ ref_ok (ds_committee ds) r;
  dk_genesis r b : ds_genesis ds !! r = Some b → reference b = r ∧ ref_round r = GENESIS_ROUND;
  dk_genesis_all a : (a < Committee_size (ds_committee ds))%N →
    ∃ r, r ∈ dom (ds_genesis ds) ∧ ref_author r = a;
  dk_store r b : stored (ds_store ds) !! r = Some b → reference b = r ∧ ref_ok (ds_committee ds) r;
  (** a cached block is stored or buffered to be stored *)
  dk_durable r b : cached ds !! r = Some b →
    b ∈ ds_blocks_to_write ds ∨ stored (ds_store ds) !! r = Some b;
  dk_buffer b : b ∈ ds_blocks_to_write ds → cached ds !! reference b = Some b;
  (** the last block of an authority is cached *)
  dk_top r : r ∈ dom (stored (ds_store ds)) →
    ∃ r', r' ∈ dom (cached ds) ∧ ref_author r' = ref_author r ∧ (ref_round r ≤ ref_round r')%N;
  (** blocks above the eviction round of their author are cached *)
  dk_evicted a e : ds_evicted_rounds ds !! N.to_nat a = Some e →
    ∀ r, r ∈ dom (stored (ds_store ds)) → ref_author r = a → (e < ref_round r)%N →
    r ∈ dom (cached ds);
  dk_evicted_le a e : ds_evicted_rounds ds !! N.to_nat a = Some e → e = 0%N ∨ (e ≤ gc_round ds)%N ∧
    ∃ r, r ∈ dom (cached ds) ∧ ref_author r = a ∧ (e + ds_cached_rounds ds ≤ ref_round r)%N;
  dk_highest r : r ∈ dom (cached ds) → (ref_round r ≤ ds_highest_accepted_round ds)%N;
}.

(** States that agree on everything the invariant reads: the status flags and
    the vote accounting of blocks, the clock, the commits to write and the
    scores may differ. *)
Record dag_eqv ds ds' : Prop := {
  de_context : ds_context ds = ds_context ds';
  de_genesis : ds_genesis ds = ds_genesis ds';
  de_cached : cached ds = cached ds';
  de_refs : ds_recent_refs_by_authority ds = ds_recent_refs_by_authority ds';
  de_evicted : ds_evicted_rounds ds = ds_evicted_rounds ds';
  de_highest : ds_highest_accepted_round ds = ds_highest_accepted_round ds';
  de_last_commit : ds_last_commit ds = ds_last_commit ds';
  de_buffer : ds_blocks_to_write ds = ds_blocks_to_write ds';
  de_store : ds_store ds = ds_store ds';
  de_cached_rounds : ds_cached_rounds ds = ds_cached_rounds ds';
}.

#[export] Instance dag_eqv_equiv : Equivalence dag_eqv.
Proof.
  split.
  - intros ds. by split.
  - intros ds ds' []. by split.
  - intros ds1 ds2 ds3 [] []. split; by etrans.
Qed.

#[export] Instance dag_ok_proper : Proper (dag_eqv ==> iff) dag_ok.
Proof.
  assert (∀ ds ds', dag_eqv ds ds' → dag_ok ds → dag_ok ds') as Himpl.
  { intros ds ds' [E1 E2 E3 E4 E5 E6 E7 E8 E9 E10] [].
    assert (ds_committee ds = ds_committee ds') as Ec by (unfold ds_committee; by rewrite E1).
    assert (gc_round ds = gc_round ds') as Eg
      by (unfold gc_round, calculate_gc_round, last_commit_round; by rewrite E1, E7).
    split; rewrite <- ?E2, <- ?E3, <- ?E4, <- ?E5, <- ?E6, <- ?E8, <- ?E9, <- ?E10, <- ?Ec, <- ?Eg; assumption. }
  intros ds ds' Heq. split; apply Himpl; [done|by symmetry].
Qed.

#[export] Instance accepted_proper : Proper (dag_eqv ==> eq) accepted.
Proof. intros ds ds' []. unfold accepted. by f_equal; [|f_equal]. Qed.

(** ** Reads *)

Lemma cached_lookup ds r : cached ds !! r = bi_block <$> ds_recent_blocks ds !! r.
Proof. apply lookup_fmap. Qed.

Lemma dom_cached ds : dom (cached ds) = dom (ds_recent_blocks ds).
Proof. apply dom_fmap_L. Qed.

Lemma accepted_lookup ds r :
  accepted ds !! r = match cached ds !! r with
    | Some b => Some b
    | None => stored (ds_store ds) !! r
    end.
Proof.
  unfold accepted. rewrite lookup_union.
  by destruct (cached ds !! r), (stored (ds_store ds) !! r).
Qed.

Lemma elem_of_accepted ds r :
  r ∈ dom (accepted ds) ↔ r ∈ dom (cached ds) ∨ r ∈ dom (stored (ds_store ds)).
Proof. unfold accepted. rewrite dom_union. set_solver. Qed.

(** What a read answers: the genesis block of a reference of round 0, else the
    accepted block. *)
Definition block_of ds (r : BlockRef) : option VerifiedBlock :=
  if decide (ref_round r = GENESIS_ROUND) then ds_genesis ds !! r else accepted ds !! r.

Lemma get_blocks_spec ds refs : get_blocks ds refs = Done (block_of ds <$> refs).
Proof.
  unfold get_blocks. destruct refs as [|r0 refs]; [done|].
  erewrite (resolve_spec _ _ (cached_block ds) (λ r, stored (ds_store ds) !! r)).
  - f_equal. apply list_fmap_ext. intros _ r _. unfold cached_block, block_of.
    rewrite accepted_lookup, cached_lookup. case_decide; [done|]. by destruct (ds_recent_blocks ds !! r).
  - done.
  - intros xs _. unfold call. rewrite store_read_blocks_law. done.
Qed.

Lemma get_block_spec ds r : get_block ds r = Done (block_of ds r).
Proof. unfold get_block. rewrite get_blocks_spec. done. Qed.

(** Whether a block is known. *)
Definition known ds (r : BlockRef) : bool :=
  bool_decide (r ∈ dom (accepted ds) ∨ r ∈ dom (ds_genesis ds)).

Lemma recent_refs_lookup ds a :
  dag_ok ds → (a < Committee_size (ds_committee ds))%N →
  ∃ refs, ds_recent_refs_by_authority ds !! N.to_nat a = Some refs ∧
    ∀ r, r ∈ refs ↔ r ∈ dom (cached ds) ∧ ref_author r = a.
Proof.
  intros Hok Ha. destruct (ds_recent_refs_by_authority ds !! N.to_nat a) as [refs|] eqn:E.
  - exists refs. split; [done|]. by eapply dk_refs.
  - apply lookup_ge_None in E. pose proof (dk_refs_len _ Hok). unfold lengthN in *. lia.
Qed.

Lemma contains_blocks_spec ds refs :
  dag_ok ds → (∀ r, r ∈ refs → ref_author r < Committee_size (ds_committee ds))%N →
  contains_blocks ds refs = Done (known ds <$> refs).
Proof.
  intros Hok Hrefs. unfold contains_blocks.
  set (loc r := match ds_recent_refs_by_authority ds !! N.to_nat (ref_author r) with
    | Some recent_refs =>
        if decide (r ∈ recent_refs ∨ r ∈ dom (ds_genesis ds)) then Some true
        else match refs_last recent_refs with
          | None => Some false
          | Some last => if decide (ref_round last < ref_round r)%N then Some false else None
          end
    | None => None end).
  rewrite (resolve_spec _ _ loc (λ r, bool_decide (r ∈ dom (stored (ds_store ds))))).
  - f_equal. apply list_fmap_ext. intros i r Hr. apply list_elem_of_lookup_2 in Hr.
    destruct (recent_refs_lookup ds (ref_author r)) as (rr & Hrr & Hin); [done|by apply Hrefs|].
    unfold loc, known. rewrite Hrr. case_decide as Hc.
    { cbn. symmetry. apply bool_decide_eq_true_2. rewrite elem_of_accepted. naive_solver. }
    assert ((r ∉ rr) ∧ (r ∉ dom (ds_genesis ds))) as [Hr1 Hr2] by tauto.
    assert (∀ l, (∀ r', r' ∈ rr → (ref_round r' ≤ l)%N) → (l < ref_round r)%N →
      r ∉ dom (stored (ds_store ds))) as Habove.
    { intros l Hl Hlt Hst. destruct (dk_top _ Hok r Hst) as (r' & Hr' & Ha & Hle).
      specialize (Hl r'). rewrite Hin in Hl. specialize (Hl (conj Hr' Ha)). lia. }
    destruct (refs_last rr) as [l|] eqn:Hl.
    + apply set_last_Some in Hl as [Hlin Hmax]; try apply _. case_decide as Hlt; cbn.
      * symmetry. apply bool_decide_eq_false_2. rewrite elem_of_accepted.
        assert (r ∉ dom (stored (ds_store ds))).
        { apply (Habove (ref_round l)); [|done]. intros r' Hr'. by apply BlockRef_le_round, Hmax. }
        rewrite Hin in Hr1. tauto.
      * apply bool_decide_ext. rewrite elem_of_accepted. rewrite Hin in Hr1. tauto.
    + apply set_last_None in Hl as ->; try apply _. cbn. symmetry. apply bool_decide_eq_false_2.
      rewrite elem_of_accepted. rewrite Hin in Hr1.
      assert (r ∉ dom (stored (ds_store ds))); [|tauto].
      intros Hst. destruct (dk_top _ Hok r Hst) as (r' & Hr' & Ha & Hle). set_solver.
  - intros r Hr. destruct (recent_refs_lookup ds (ref_author r)) as (rr & Hrr & Hin);
      [done|by apply Hrefs|].
    unfold cached_contains, loc. rewrite (vec_index_some _ _ _ Hrr), Hrr. cbn.
    case_decide; [done|]. destruct (refs_last rr); [|done]. by case_decide.
  - intros xs _. unfold call. by rewrite store_contains_blocks_law.
Qed.

Lemma contains_block_spec ds r :
  dag_ok ds → (ref_author r < Committee_size (ds_committee ds))%N →
  contains_block ds r = Done (known ds r).
Proof.
  intros Hok Hr. unfold contains_block. rewrite contains_blocks_spec; [done|done|].
  intros r' ->%list_elem_of_singleton. done.
Qed.

(** ** Operations that leave blocks where they are *)

Lemma cached_update ds r i i' :
  ds_recent_blocks ds !! r = Some i → bi_block i' = bi_block i →
  bi_block <$> <[r := i']> (ds_recent_blocks ds) = cached ds.
Proof.
  intros Hr Hb. unfold cached. rewrite fmap_insert, Hb. apply insert_id.
  by rewrite lookup_fmap, Hr.
Qed.

Lemma set_recent_blocks_eqv ds m : bi_block <$> m = cached ds → dag_eqv (set_recent_blocks m ds) ds.
Proof. by split. Qed.

Lemma set_round_info_eqv ds l : dag_eqv (set_round_info l ds) ds.
Proof. by split. Qed.

Lemma update_child_eqv r ds anc ds' : update_child r ds anc = Done ds' → dag_eqv ds' ds.
Proof.
  unfold update_child. case_decide; intros Hrun; [by invert_done|].
  invert_done. destruct x0 as [stake u]. invert_done.
  by eapply set_recent_blocks_eqv, cached_update.
Qed.

Lemma update_round_info_eqv ds b ds' : update_round_info ds b = Done ds' → dag_eqv ds' ds.
Proof.
  unfold update_round_info. case_decide; intros Hrun; [by invert_done|].
  invert_done. destruct x2 as [stake u]. invert_done. apply set_round_info_eqv.
Qed.

Lemma set_committed_eqv ds r ds' first : set_committed ds r = Done (ds', first) → dag_eqv ds' ds.
Proof.
  unfold set_committed. intros Hrun. invert_done.
  destruct (bi_committed x); invert_done; [done|]. by eapply set_recent_blocks_eqv, cached_update.
Qed.

Lemma link_loop_blocks gc fuel recent linked targets recent' linked' :
  link_loop gc fuel recent linked targets = Done (recent', linked') →
  bi_block <$> recent' = bi_block <$> recent.
Proof.
  revert recent linked targets. induction fuel as [|fuel IH]; intros recent linked [|r targets]; cbn;
    try (intros; by invert_done).
  case_decide; [apply IH|]. intros Hrun. invert_done.
  destruct (bi_included x) eqn:Hi; [by eapply IH|].
  apply IH in Hrun. rewrite Hrun, fmap_insert. apply insert_id. rewrite lookup_fmap. by simplify_option_eq.
Qed.

Lemma link_causal_history_eqv ds r ds' l : link_causal_history ds r = Done (ds', l) → dag_eqv ds' ds.
Proof.
  unfold link_causal_history. intros Hrun. invert_done. destruct x as [recent' linked].
  invert_done. eapply set_recent_blocks_eqv, link_loop_blocks; eauto.
Qed.

(** ** Accepting a block *)

(** What accepting a new block does to the invariant's part of the state. *)
Definition insert_block ds (b : VerifiedBlock) (refs : gset BlockRef) : DagState S :=
  set_highest_accepted_round (N.max (ds_highest_accepted_round ds) (round b))
    (set_recent_refs_by_authority
       (<[N.to_nat (author b) := {[reference b]} ∪ refs]> (ds_recent_refs_by_authority ds))
       (set_recent_blocks (<[reference b := BlockInfo_new b]> (ds_recent_blocks ds)) ds)).

Lemma update_block_metadata_eqv ds b ds' :
  update_block_metadata ds b = Done ds' →
  ∃ refs, ds_recent_refs_by_authority ds !! N.to_nat (author b) = Some refs ∧
    dag_eqv ds' (insert_block ds b refs).
Proof.
  unfold update_block_metadata. intros Hrun. apply bind_Done in Hrun as (refs & Hrefs & Hrun).
  apply vec_index_Done in Hrefs. cbn in Hrefs. exists refs. split; [done|].
  apply bind_Done in Hrun as (by_auth & Hset & Hrun). apply vec_set_Done in Hset as [Hlt ->].
  apply bind_Done in Hrun as (ds1 & Hv3 & Hrun).
  match type of Hv3 with (if _ then for_each _ ?d _ ≫= _ else _) = _ => set (ds0 := d) in * end.
  assert (dag_eqv ds1 ds0) as Heqv.
  { destruct (enable_v3 _); [|by invert_done]. apply bind_Done in Hv3 as (ds2 & Hloop & Hri).
    etrans; [by eapply update_round_info_eqv|].
    eapply (for_each_inv (λ d, dag_eqv d ds0)); [done| |exact Hloop].
    intros d1 anc d2 _ Hd1 Hd2. etrans; [by eapply update_child_eqv|done]. }
  apply bind_Done in Hrun as ([clk adv] & Hclk & Hrun).
  apply bind_Done in Hrun as (lp & Hlp & Hrun). invert_done. clear -Heqv.
  destruct Heqv. split; cbn in *; try assumption; try done. congruence.
Qed.

Lemma insert_block_accepted ds b refs :
  accepted (insert_block ds b refs) = <[reference b := b]> (accepted ds).
Proof. unfold accepted, cached. cbn. by rewrite fmap_insert, insert_union_l. Qed.

Lemma known_false ds r : known ds r = false → (r ∉ dom (cached ds)) ∧ (r ∉ dom (stored (ds_store ds))).
Proof.
  unfold known. rewrite bool_decide_eq_false, elem_of_accepted. tauto.
Qed.

Lemma insert_block_ok ds b refs :
  dag_ok ds → ref_ok (ds_committee ds) (reference b) → known ds (reference b) = false →
  ds_recent_refs_by_authority ds !! N.to_nat (author b) = Some refs →
  dag_ok (set_blocks_to_write (ds_blocks_to_write ds ++ [b]) (insert_block ds b refs)).
Proof.
  intros Hok Href [Hnc Hns]%known_false Hrefs.
  assert (cached (set_blocks_to_write (ds_blocks_to_write ds ++ [b]) (insert_block ds b refs))
    = <[reference b := b]> (cached ds)) as Hc by (unfold cached; cbn; by rewrite fmap_insert).
  split; rewrite ?Hc; cbn; rewrite ?dom_insert_L.
  - by apply (dk_committee ds).
  - by apply (dk_cached_rounds ds).
  - unfold lengthN. rewrite length_insert. by apply (dk_refs_len ds).
  - by apply (dk_evicted_len ds).
  - intros a refs' Ha r. destruct (decide (a = author b)) as [->|Hne].
    + rewrite list_lookup_insert_eq in Ha by by eapply lookup_lt_Some. injection Ha as <-.
      pose proof (dk_refs _ Hok _ _ Hrefs r). set_unfold. split; [|tauto].
      intros [->|]; [split; [by left|done]|tauto].
    + rewrite list_lookup_insert_ne in Ha by lia. pose proof (dk_refs _ Hok _ _ Ha r) as ->.
      set_unfold. split; [tauto|]. intros [[->|] ?]; [|tauto]. by destruct Hne.
  - intros r b' [[<- <-]|[_ Hr]]%lookup_insert_Some; [done|]. by apply (dk_recent ds).
  - by apply (dk_genesis ds).
  - by apply (dk_genesis_all ds).
  - by apply (dk_store ds).
  - intros r b' [[<- <-]|[_ Hr]]%lookup_insert_Some; [left; set_solver|].
    destruct (dk_durable _ Hok _ _ Hr); [left; set_solver|by right].
  - intros b' [Hb|Hb%list_elem_of_singleton]%elem_of_app.
    + apply (dk_buffer _ Hok) in Hb as Hb'. rewrite lookup_insert_ne; [done|].
      intros Heq. rewrite <- Heq in Hb'. destruct Hnc. by eapply elem_of_dom_2.
    + subst. by rewrite lookup_insert_eq.
  - intros r Hr. destruct (dk_top _ Hok r Hr) as (r' & ? & ? & ?). exists r'. set_solver.
  - intros a e Ha r Hr Hra He. apply elem_of_union_r. by eapply (dk_evicted ds).
  - intros a e Ha. destruct (dk_evicted_le _ Hok a e Ha) as [|(? & r & ? & ? & ?)]; [by left|right].
    split; [done|]. exists r. set_solver.
  - intros r [->%elem_of_singleton|Hr]%elem_of_union; [cbn; lia|].
    pose proof (dk_highest _ Hok r Hr). lia.
Qed.

Lemma accept_block_ok ds b ds' :
  dag_ok ds → ref_ok (ds_committee ds) (reference b) → accept_block ds b = Done ds' →
  dag_ok ds' ∧ ds_context ds' = ds_context ds ∧ ds_last_commit ds' = ds_last_commit ds ∧
  accepted ds' = (if known ds (reference b) then accepted ds else <[reference b := b]> (accepted ds)).
Proof.
  intros Hok Href Hrun. unfold accept_block in Hrun.
  apply bind_Done in Hrun as (u & _ & Hrun).
  rewrite contains_block_spec in Hrun by (done || apply Href). cbn [mbind outcome_bind] in Hrun.
  destruct (known ds (reference b)) eqn:Hk; [by invert_done|].
  apply bind_Done in Hrun as (au & _ & Hrun). apply bind_Done in Hrun as (u' & _ & Hrun).
  apply bind_Done in Hrun as (ds1 & Hmeta & Hrun). invert_done.
  apply update_block_metadata_eqv in Hmeta as (refs & Hrefs & Heqv).
  assert (dag_eqv (set_blocks_to_write (ds_blocks_to_write ds1 ++ [b]) ds1)
    (set_blocks_to_write (ds_blocks_to_write ds ++ [b]) (insert_block ds b refs))) as Heqv'.
  { destruct Heqv. split; unfold cached in *; cbn in *; congruence. }
  split_and!.
  - rewrite Heqv'. by apply insert_block_ok.
  - by rewrite (de_context _ _ Heqv').
  - by rewrite (de_last_commit _ _ Heqv').
  - rewrite Heqv'. apply insert_block_accepted.
Qed.

Lemma accept_block_genesis ds b ds' : accept_block ds b = Done ds' → ds_genesis ds' = ds_genesis ds.
Proof.
  unfold accept_block. intros Hrun. apply bind_Done in Hrun as (u & _ & Hrun).
  apply bind_Done in Hrun as ([] & _ & Hrun); [by invert_done|].
  apply bind_Done in Hrun as (au & _ & Hrun). apply bind_Done in Hrun as (u' & _ & Hrun).
  apply bind_Done in Hrun as (ds1 & Hmeta & Hrun). invert_done.
  apply update_block_metadata_eqv in Hmeta as (refs & _ & Heqv). cbn. by rewrite (de_genesis _ _ Heqv).
Qed.

(** ** What accepting a block leaves alone *)

Definition committed_flag ds (r : BlockRef) : bool := from_option bi_committed false (ds_recent_blocks ds !! r).

Record accept_frame ds ds' : Prop := {
  af_genesis : ds_genesis ds' = ds_genesis ds;
  af_rounds : ds_last_committed_rounds ds' = ds_last_committed_rounds ds;
  af_scoring : ds_scoring_subdag ds' = ds_scoring_subdag ds;
  af_committed r : committed_flag ds' r = committed_flag ds r;
  af_cached : cached ds ⊆ cached ds';
  af_highest : ds_highest_accepted_round ds' = ds_highest_accepted_round ds ∨
    ∃ r, r ∈ dom (cached ds') ∧ ref_round r = ds_highest_accepted_round ds';
}.

#[export] Instance accept_frame_refl : Reflexive accept_frame.
Proof. intros ds. split; auto. Qed.
#[export] Instance accept_frame_trans : Transitive accept_frame.
Proof.
  intros ds1 ds2 ds3 [] []. split; [congruence..|by etrans|].
  destruct af_highest1 as [Heq|]; [|by right]. rewrite Heq. destruct af_highest0 as [|(r & Hr & Hh)]; [by left|right].
  exists r. split; [|done]. by apply (subseteq_dom _ _ af_cached1).
Qed.

Lemma update_child_frame r ds anc ds' : update_child r ds anc = Done ds' → accept_frame ds ds'.
Proof.
  unfold update_child. case_decide; intros Hrun; [by invert_done|].
  apply bind_Done in Hrun as (info & Hinfo & Hrun). apply unwrap_Done in Hinfo. apply bind_Done in Hrun as ([st b] & _ & Hrun). invert_done.
  split; [done|done|done| | |by left].
  - intros r'. unfold committed_flag. cbn. destruct (decide (anc = r')) as [<-|]; [|by rewrite lookup_insert_ne].
    by rewrite lookup_insert_eq, Hinfo.
  - unfold cached at 2. cbn. by rewrite (cached_update ds anc info).
Qed.

Lemma accept_block_frame ds b ds' :
  dag_ok ds → ref_ok (ds_committee ds) (reference b) → accept_block ds b = Done ds' → accept_frame ds ds'.
Proof.
  intros Hok Href Hrun. unfold accept_block in Hrun. apply bind_Done in Hrun as (u & _ & Hrun).
  rewrite contains_block_spec in Hrun by (done || apply Href). cbn [mbind outcome_bind] in Hrun.
  destruct (known ds (reference b)) eqn:Hk; [by invert_done|]. apply known_false in Hk as [Hk _].
  apply bind_Done in Hrun as (au & _ & Hrun). apply bind_Done in Hrun as (u' & _ & Hrun).
  apply bind_Done in Hrun as (ds1 & Hmeta & Hrun). injection Hrun as <-.
  assert (accept_frame ds ds1) as []; [|by split].
  unfold update_block_metadata in Hmeta. apply bind_Done in Hmeta as (refs & _ & Hmeta).
  apply bind_Done in Hmeta as (by_auth & _ & Hmeta). apply bind_Done in Hmeta as (ds2 & Hv3 & Hmeta).
  match type of Hv3 with (if _ then for_each _ ?d _ ≫= _ else _) = _ => set (ds0 := d) in * end.
  assert (accept_frame ds ds0) as Hf0.
  { split; [done|done|done| | |by left].
    - intros r. unfold committed_flag. cbn. destruct (decide (reference b = r)) as [<-|]; [|by rewrite lookup_insert_ne].
      rewrite lookup_insert_eq. rewrite dom_cached in Hk. by apply not_elem_of_dom in Hk as ->.
    - unfold cached at 2. cbn. rewrite fmap_insert. apply insert_subseteq. by apply not_elem_of_dom. }
  assert (accept_frame ds0 ds2 ∧ reference b ∈ dom (cached ds2)) as [Hf2 Hin].
  { assert (accept_frame ds0 ds2) as Hf2.
    { destruct (enable_v3 _); [|by invert_done]. apply bind_Done in Hv3 as (ds3 & Hloop & Hri).
      transitivity ds3.
      - eapply (for_each_inv (λ d, accept_frame ds0 d)); [done| |exact Hloop].
        intros d1 anc d2 _ Hd1 Hd2. etrans; [done|by eapply update_child_frame].
      - unfold update_round_info in Hri. case_decide; [by invert_done|]. apply bind_Done in Hri as (u1 & _ & Hri).
        apply bind_Done in Hri as (front & _ & Hri). apply bind_Done in Hri as (info & _ & Hri).
        apply bind_Done in Hri as ([st rc] & _ & Hri). apply bind_Done in Hri as (infos & _ & [= <-]). split; auto. }
    split; [done|]. apply (subseteq_dom _ _ (af_cached _ _ Hf2)). rewrite dom_cached. cbn. rewrite dom_insert_L. set_solver. }
  apply bind_Done in Hmeta as ([clk adv] & _ & Hmeta). apply bind_Done in Hmeta as (lp & _ & Hmeta).
  apply bind_Done in Hmeta as (refs' & _ & Hmeta). apply bind_Done in Hmeta as (l & _ & Hmeta).
  apply bind_Done in Hmeta as (a & _ & [= <-]). etrans; [exact Hf0|]. etrans; [exact Hf2|].
  split; [done|done|done|done|done|]. cbn. destruct (N.max_spec (ds_highest_accepted_round ds2) (round b)) as [[_ ->]|[_ ->]].
  - right. by exists (reference b).
  - by left.
Qed.

(** ** Accepting never fails without v3 vote accounting *)

Lemma get_last_block_total ds a refs :
  ds_recent_refs_by_authority ds !! N.to_nat a = Some refs →
  (∀ r, r ∈ refs → r ∈ dom (cached ds)) →
  (∃ r, r ∈ dom (ds_genesis ds) ∧ ref_author r = a) →
  ∃ b, get_last_block_for_authority ds a = Done b.
Proof.
  intros Hrefs Hin (g & Hg & Ha). unfold get_last_block_for_authority.
  rewrite (vec_index_some _ _ _ Hrefs). cbn. destruct (refs_last refs) as [r|] eqn:Hl.
  - apply set_last_Some in Hl as [Hr _]; try apply _. apply Hin in Hr.
    rewrite dom_cached in Hr. apply elem_of_dom in Hr as [i ->]. by eexists.
  - apply elem_of_dom in Hg as [bg Hbg].
    assert ((g, bg) ∈ filter (λ e, ref_author e.1 = a) (entries_in_order (ds_genesis ds))) as Hf.
    { apply list_elem_of_filter. split; [done|]. by apply elem_of_map_in_order. }
    destruct (filter _ _) as [|[g' b'] l]; [set_solver|]. by eexists.
Qed.

Lemma ThresholdClock_add_block_total c clk r :
  (ref_author r < Committee_size c)%N → ∃ clk' b, ThresholdClock_add_block c clk r = Done (clk', b).
Proof.
  intros Hr. unfold ThresholdClock_add_block.
  assert (∀ agg : StakeAggregator QuorumThreshold, ∃ agg' b, agg_add agg (ref_author r) c = Done (agg', b)) as Hadd.
  { intros agg. unfold agg_add. case_decide; [by eauto|].
    rewrite Committee_stake_valid by done. cbn. by eauto. }
  destruct (N.compare_spec (ref_round r) (clock_round clk)).
  - destruct (Hadd (clock_aggregator clk)) as (agg' & b & ->). cbn. destruct b; eauto.
  - eauto.
  - destruct (Hadd (agg_clear (clock_aggregator clk))) as (agg' & b & ->). cbn. eauto.
Qed.

Lemma authority_valid c a : (a < Committee_size c)%N → ∃ x, authority c a = Done x.
Proof.
  intros Ha. unfold authority, vec_index. unfold Committee_size, lengthN in Ha.
  destruct (authorities c !! N.to_nat a) eqn:E; [by eexists|]. apply lookup_ge_None in E. lia.
Qed.

Lemma update_block_metadata_total ds b :
  dag_ok ds → ref_ok (ds_committee ds) (reference b) →
  enable_v3 (protocol_config (ds_context ds)) = false →
  ∃ ds', update_block_metadata ds b = Done ds'.
Proof.
  intros Hok Href Hv3.
  destruct (recent_refs_lookup ds (author b)) as (refs & Hrefs & Hin); [done|apply Href|].
  unfold update_block_metadata. cbn [ds_recent_refs_by_authority set_recent_blocks ref_author reference].
  rewrite (vec_index_some _ _ _ Hrefs). run_bind.
  rewrite vec_set_lt by (by eapply lookup_lt_Some). run_bind.
  cbn [ds_context set_recent_refs_by_authority set_recent_blocks]. rewrite Hv3. run_bind.
  edestruct (ThresholdClock_add_block_total) as (clk & adv & ->); [apply Href|]. run_bind.
  match goal with |- context [get_last_proposed_block ?d] => set (ds1 := d) in * end.
  assert (∃ o, (if adv then get_last_proposed_block ds1 else Done None) = Done o) as [o ->].
  { destruct adv; [|by eexists]. unfold get_last_proposed_block.
    destruct (is_validator _) eqn:Hval; [|by eexists]. unfold is_validator, is_valid_index in Hval.
    apply bool_decide_eq_true in Hval. cbn in Hval.
    set (own := own_index (ds_context ds1)) in *.
    destruct (recent_refs_lookup ds own) as (orefs & Horefs & Hoin); [done|done|].
    destruct (get_last_block_total ds1 own (if decide (own = author b) then {[reference b]} ∪ orefs else orefs))
      as [lb ->]; [| | |by eexists].
    - cbn. case_decide as Hown.
      + rewrite Hown in *. rewrite Hrefs in Horefs. simplify_eq.
        rewrite list_lookup_insert_eq by (by eapply lookup_lt_Some). done.
      + rewrite list_lookup_insert_ne by lia. done.
    - intros r Hr. unfold cached. cbn. rewrite fmap_insert, dom_insert. apply elem_of_union.
      case_decide; [|right; by apply Hoin]. apply elem_of_union in Hr as [|Hr]; [by left|right; by apply Hoin].
    - by apply (dk_genesis_all ds). }
  run_bind. cbn.
  rewrite (vec_index_some _ _ ({[reference b]} ∪ refs))
    by (by rewrite list_lookup_insert_eq by (by eapply lookup_lt_Some)).
  cbn. destruct (refs_last ({[reference b]} ∪ refs)) as [l|] eqn:Hl.
  - cbn. edestruct (authority_valid (ds_committee ds) (author b)) as [x Hx]; [apply Href|].
    unfold ds_committee in *. cbn. rewrite Hx. by eexists.
  - apply set_last_None in Hl; try apply _. set_solver.
Qed.

(** ** Blocks of a slot and of a round *)

Lemma slot_range_spec ds slot :
  dag_ok ds →
  slot_range ds slot = Done (filter (λ e, Slot_from e.1 = slot) (entries_in_order (ds_recent_blocks ds))).
Proof.
  intros Hok. unfold slot_range, btree_range. rewrite rassert_true.
  2: { unfold BlockRef_le, BlockDigest_MIN, BlockDigest_MAX. cbn. lia. }
  run_bind. f_equal. apply list_filter_iff'.
  intros [r i] Hr%elem_of_map_in_order. destruct slot as [sr sa].
  destruct (dk_recent _ Hok r (bi_block i)) as [_ [_ _ Hd]]; [by rewrite cached_lookup, Hr|].
  rewrite Slot_from_eq. unfold BlockRef_le, BlockDigest_MIN. cbn. lia.
Qed.

(** The blocks of a selection [L] of the entries of [recent_blocks]. *)
Lemma selected_blocks ds (P : BlockRef → Prop) (L : list (BlockRef * BlockInfo)) :
  dag_ok ds → NoDup L.*1 → (∀ k i, (k, i) ∈ L ↔ ds_recent_blocks ds !! k = Some i ∧ P k) →
  (∀ b, b ∈ map (λ e, bi_block (snd e)) L ↔ cached ds !! reference b = Some b ∧ P (reference b)) ∧
  NoDup (reference <$> map (λ e, bi_block (snd e)) L).
Proof.
  intros Hok Hnd HL.
  assert (∀ k i, (k, i) ∈ L → reference (bi_block i) = k) as Href.
  { intros k i [Hk _]%HL. apply (dk_recent _ Hok). by rewrite cached_lookup, Hk. }
  split.
  - intros b. rewrite <- list_fmap_alt, list_elem_of_fmap. split.
    + intros ([k i] & -> & Hk). cbn. rewrite (Href k i Hk). apply HL in Hk as [Hk HP].
      by rewrite cached_lookup, Hk.
    + intros [Hb HP]. rewrite cached_lookup in Hb.
      destruct (ds_recent_blocks ds !! reference b) as [i|] eqn:Hk; [|done]. cbn in Hb. simplify_eq.
      exists (reference (bi_block i), i). split; [done|]. by apply HL.
  - assert (reference <$> map (λ e, bi_block (snd e)) L = L.*1) as ->; [|done].
    clear HL Hnd. induction L as [|[k i] L IH]; cbn; [done|]. f_equal.
    + apply Href, list_elem_of_here.
    + apply IH. intros. by apply Href, list_elem_of_further.
Qed.

Lemma NoDup_entries_filter (m : gmap BlockRef BlockInfo) (L : list (BlockRef * BlockInfo)) :
  L `sublist_of` entries_in_order m → NoDup L.*1.
Proof.
  intros HL. apply (sublist_NoDup _ (entries_in_order m).*1); [|by apply fmap_sublist].
  rewrite map_in_order_keys. apply NoDup_set_in_order.
Qed.

Lemma get_uncommitted_blocks_at_slot_spec ds slot :
  dag_ok ds →
  ∃ l, get_uncommitted_blocks_at_slot ds slot = Done l ∧
    (∀ b, b ∈ l ↔ cached ds !! reference b = Some b ∧ Slot_from (reference b) = slot) ∧
    NoDup (reference <$> l).
Proof.
  intros Hok. unfold get_uncommitted_blocks_at_slot. rewrite slot_range_spec by done. run_bind.
  eexists. split; [done|]. apply (selected_blocks ds (λ r, Slot_from r = slot)); [done| |].
  - eapply NoDup_entries_filter, sublist_filter.
  - intros k i. rewrite list_elem_of_filter, elem_of_map_in_order. cbn. tauto.
Qed.

Lemma get_uncommitted_blocks_at_round_spec ds r :
  dag_ok ds → (last_commit_round ds < r)%N → (r < u32_MAX)%N →
  ∃ l, get_uncommitted_blocks_at_round ds r = Done l ∧
    (∀ b, b ∈ l ↔ cached ds !! reference b = Some b ∧ round b = r) ∧
    NoDup (reference <$> l).
Proof.
  intros Hok Hlt Hmax. unfold get_uncommitted_blocks_at_round, btree_range.
  rewrite (rassert_true (last_commit_round ds < r)%N) by done. run_bind.
  unfold u32_MAX in Hmax. rewrite wrap_add_small by lia.
  rewrite rassert_true.
  2: { unfold BlockRef_le. cbn. lia. }
  run_bind. eexists. split; [done|].
  apply (selected_blocks ds (λ k, ref_round k = r)); [done| |].
  { eapply NoDup_entries_filter. etrans; apply sublist_filter. }
  intros k i. rewrite !list_elem_of_filter, elem_of_map_in_order. cbn.
  unfold BlockRef_le, AuthorityIndex_ZERO, BlockDigest_MIN. cbn. split.
  - intros (Hne & Hle & Hk). split; [done|]. destruct k as [kr ka kd]. cbn in *.
    destruct (decide (kr = r + 1)%N) as [->|]; [|lia].
    assert (ka = 0 ∧ kd = 0)%N as [-> ->] by lia. done.
  - intros [Hk <-]. split_and!; [|lia|lia|done]. intros Heq%(f_equal ref_round). cbn in Heq. lia.
Qed.

Lemma accept_block_total ds b :
  dag_ok ds → ref_ok (ds_committee ds) (reference b) →
  enable_v3 (protocol_config (ds_context ds)) = false →
  (author b = own_index (ds_context ds) → known ds (reference b) = false →
    skip_equivocation_validation (parameters (ds_context ds)) = true ∨
    ∀ r, r ∈ dom (cached ds) → Slot_from r ≠ Slot_from (reference b)) →
  ∃ ds', accept_block ds b = Done ds'.
Proof.
  intros Hok Href Hv3 Hown. unfold accept_block. rewrite rassert_true by apply Href.
  rewrite contains_block_spec by (done || apply Href). run_bind.
  destruct (known ds (reference b)) eqn:Hk; [by eexists|].
  destruct (authority_valid (ds_committee ds) (author b)) as [x Hx]; [apply Href|].
  cbn [ref_author reference]. rewrite Hx. run_bind.
  destruct (update_block_metadata_total ds b) as [ds1 Hds1]; [done..|]. rewrite Hds1.
  case_decide as Hself; [|by eexists].
  destruct (get_uncommitted_blocks_at_slot_spec ds (Slot_from (reference b))) as (l & -> & Hl & _); [done|].
  run_bind.
  destruct Hown as [-> | Hfree]; [done|done|by eexists|].
  destruct (skip_equivocation_validation _); [by eexists|].
  rewrite rassert_true; [by eexists|]. destruct l as [|b' l]; [done|]. exfalso.
  destruct (Hl b') as [[Hb' Hs] _]; [set_solver|]. eapply Hfree; [|exact Hs]. by eapply elem_of_dom_2.
Qed.

End invariant.
