(* ===== verification/DagDurability.v ===== *)
(** * Durability and reachability of the dag state

    Flushing writes every accepted block to the store before it evicts cached
    ones, so no read ever changes its answer; the invariant holds in every state
    reachable from recovery on an empty store by the operations of [DagState]. *)

From S2P Require Import Prelude Committee Block StakeAggregator ThresholdClock Commit Store LeaderScoring.
From S2P Require Import DagState DagInvariant.

Section flush.
Context {S : Type} `{StoreLaws S}.
Implicit Types ds : DagState S.

(** ** Eviction *)

Lemma evict_loop_spec e l recent refs :
  StronglySorted BlockRef_le l → NoDup l → list_to_set l = refs →
  evict_loop e l recent refs =
    (filter (λ x, x.1 ∉ refs ∨ (e < ref_round x.1)%N) recent, filter (λ r, (e < ref_round r)%N) refs).
Proof.
  revert recent refs. induction l as [|r l IH]; intros recent refs Hs Hnd Hl; cbn [evict_loop].
  - subst refs. cbn. f_equal.
    symmetry. apply map_filter_id. intros. left. set_solver.
  - inversion Hs as [|? ? Hs' Hf]; subst. inversion Hnd; subst. case_decide as Hr.
    + rewrite IH by (done || set_solver). f_equal.
      * apply map_eq. intros k. apply option_eq. intros i.
        rewrite !map_lookup_filter_Some, lookup_delete_Some. cbn.
        rewrite elem_of_difference, elem_of_union, !elem_of_singleton.
        destruct (decide (k = r)) as [->|]; [|naive_solver]. split; [naive_solver|]. intros [_ [Hn|]]; [|lia].
        destruct Hn. by left.
      * apply set_eq. intros k. rewrite !elem_of_filter, elem_of_difference. set_unfold.
        split; [naive_solver|]. intros [? Hk]. split; [done|]. split; [done|]. intros ->. lia.
    + assert (∀ k, k ∈ r :: l → (e < ref_round k)%N) as Hall.
      { rewrite Forall_forall in Hf. intros k [->|Hk]%elem_of_cons; [lia|].
        pose proof (BlockRef_le_round _ _ (Hf k Hk)). lia. }
      f_equal.
      * symmetry. apply map_filter_id. intros k i Hk. cbn.
        destruct (decide (k ∈ r :: l)) as [Hin|Hnin]; [right; by apply Hall|left].
        set_solver.
      * apply set_eq. intros k. rewrite elem_of_filter. split; [|by intros [_ ?]].
        intros Hk. split; [apply Hall; set_solver|done].
Qed.

(** The last round of an authority. *)
Definition last_round (refs : gset BlockRef) : N :=
  match refs_last refs with Some r => ref_round r | None => GENESIS_ROUND end.

(** Fields that eviction leaves alone. *)
Record evict_frame ds ds' : Prop := {
  ef_context : ds_context ds' = ds_context ds;
  ef_genesis : ds_genesis ds' = ds_genesis ds;
  ef_store : ds_store ds' = ds_store ds;
  ef_last_commit : ds_last_commit ds' = ds_last_commit ds;
  ef_buffer : ds_blocks_to_write ds' = ds_blocks_to_write ds;
  ef_cached_rounds : ds_cached_rounds ds' = ds_cached_rounds ds;
  ef_highest : ds_highest_accepted_round ds' = ds_highest_accepted_round ds;
  ef_commits : ds_commits_to_write ds' = ds_commits_to_write ds;
  ef_infos : ds_commit_info_to_write ds' = ds_commit_info_to_write ds;
  ef_finalized : ds_finalized_commits_to_write ds' = ds_finalized_commits_to_write ds;
  ef_rounds : ds_last_committed_rounds ds' = ds_last_committed_rounds ds;
  ef_scoring : ds_scoring_subdag ds' = ds_scoring_subdag ds;
  ef_recent : ds_recent_blocks ds' ⊆ ds_recent_blocks ds;
}.

#[export] Instance evict_frame_refl : Reflexive evict_frame.
Proof. by intros ds. Qed.
#[export] Instance evict_frame_trans : Transitive evict_frame.
Proof. intros ds1 ds2 ds3 [] []. split; [congruence..|by etrans]. Qed.

Lemma evict_authority_run ds a refs :
  dag_ok ds → ds_recent_refs_by_authority ds !! N.to_nat a = Some refs →
  let e := eviction_round (last_round refs) (gc_round ds) (ds_cached_rounds ds) in
  ∃ ds', evict_authority ds a = Done ds' ∧ evict_frame ds ds' ∧
    ds_recent_blocks ds' = filter (λ x, x.1 ∉ refs ∨ (e < ref_round x.1)%N) (ds_recent_blocks ds) ∧
    ds_recent_refs_by_authority ds' =
      <[N.to_nat a := filter (λ r, (e < ref_round r)%N) refs]> (ds_recent_refs_by_authority ds) ∧
    ds_evicted_rounds ds' = <[N.to_nat a := e]> (ds_evicted_rounds ds).
Proof.
  intros Hok Hrefs e. unfold evict_authority, calculate_authority_eviction_round.
  rewrite (vec_index_some _ _ _ Hrefs). run_bind.
  fold (last_round refs). fold e.
  rewrite evict_loop_spec;
    [|apply set_in_order_sorted; apply _|apply NoDup_set_in_order
     |apply set_eq; intros; by rewrite elem_of_list_to_set, elem_of_set_in_order].
  cbn beta iota. rewrite (vec_set_lt (ds_recent_refs_by_authority ds)) by (by eapply lookup_lt_Some).
  run_bind. rewrite vec_set_lt.
  2: { apply lookup_lt_Some in Hrefs. pose proof (dk_refs_len _ Hok). pose proof (dk_evicted_len _ Hok).
       unfold lengthN in *. lia. }
  eexists. split; [done|]. split; [|done]. split; [done..|]. cbn. apply map_filter_subseteq.
Qed.

(** The highest reference of an authority survives its eviction. *)
Lemma last_round_kept ds a refs r :
  dag_ok ds → ds_recent_refs_by_authority ds !! N.to_nat a = Some refs → r ∈ refs →
  let e := eviction_round (last_round refs) (gc_round ds) (ds_cached_rounds ds) in
  ∃ r', r' ∈ refs ∧ (e < ref_round r')%N ∧ (ref_round r ≤ ref_round r')%N ∧
    (e = 0%N ∨ (e ≤ gc_round ds ∧ e + ds_cached_rounds ds ≤ ref_round r')%N).
Proof.
  intros Hok Hrefs Hr e. unfold last_round in e. destruct (refs_last refs) as [m|] eqn:Hm.
  2: { apply set_last_None in Hm; try apply _. set_solver. }
  apply set_last_Some in Hm as [Hm Hmax]; try apply _. exists m. split; [done|].
  assert (ref_round m ≠ 0)%N.
  { apply (dk_refs _ Hok _ _ Hrefs) in Hm as [[b Hb]%elem_of_dom _]. by apply (dk_recent _ Hok) in Hb as [_ []]. }
  pose proof (BlockRef_le_round _ _ (Hmax r Hr)). pose proof (dk_cached_rounds _ Hok).
  unfold eviction_round in e. lia.
Qed.

Lemma evict_cached ds ds' (refs : gset BlockRef) e :
  ds_recent_blocks ds' = filter (λ x, x.1 ∉ refs ∨ (e < ref_round x.1)%N) (ds_recent_blocks ds) →
  ∀ r b, cached ds' !! r = Some b ↔ cached ds !! r = Some b ∧ (r ∉ refs ∨ (e < ref_round r)%N).
Proof.
  intros Heq r b. rewrite !cached_lookup, Heq, !fmap_Some.
  setoid_rewrite map_lookup_filter_Some. cbn. naive_solver.
Qed.

Lemma evict_dom ds ds' (refs : gset BlockRef) e :
  ds_recent_blocks ds' = filter (λ x, x.1 ∉ refs ∨ (e < ref_round x.1)%N) (ds_recent_blocks ds) →
  ∀ r, r ∈ dom (cached ds') ↔ r ∈ dom (cached ds) ∧ (r ∉ refs ∨ (e < ref_round r)%N).
Proof.
  intros Heq r. rewrite !elem_of_dom. unfold is_Some.
  setoid_rewrite (evict_cached ds ds' refs e Heq). naive_solver.
Qed.

End flush.

(** One authority's eviction, from [ds] to [ds']. *)
Section evict_one.
Context {S : Type} `{StoreLaws S}.
Context (ds ds' : DagState S) (a : N) (refs : gset BlockRef).
Context (Hok : dag_ok ds) (Hbuf : ds_blocks_to_write ds = []).
Context (Hrefs : ds_recent_refs_by_authority ds !! N.to_nat a = Some refs).
Let e := eviction_round (last_round refs) (gc_round ds) (ds_cached_rounds ds).
Context (Hfr : evict_frame ds ds').
Context (Hrec : ds_recent_blocks ds' =
  filter (λ x, x.1 ∉ refs ∨ (e < ref_round x.1)%N) (ds_recent_blocks ds)).
Context (Hby : ds_recent_refs_by_authority ds' =
  <[N.to_nat a := filter (λ r, (e < ref_round r)%N) refs]> (ds_recent_refs_by_authority ds)).
Context (Hev : ds_evicted_rounds ds' = <[N.to_nat a := e]> (ds_evicted_rounds ds)).

Lemma ev_in r : r ∈ refs ↔ r ∈ dom (cached ds) ∧ ref_author r = a.
Proof. apply (dk_refs _ Hok _ _ Hrefs). Qed.

Lemma ev_cached r b : cached ds' !! r = Some b → cached ds !! r = Some b.
Proof. intros Hr. by apply (evict_cached ds ds' refs e Hrec) in Hr as [? _]. Qed.

Lemma ev_dom r : r ∈ dom (cached ds') ↔ r ∈ dom (cached ds) ∧ (ref_author r = a → (e < ref_round r)%N).
Proof.
  rewrite (evict_dom ds ds' refs e Hrec), ev_in. split.
  - intros [Hr [Hn|He]]; (split; [done|]); [|done]. intros Ha. by destruct Hn.
  - intros [Hr He]. split; [done|]. destruct (decide (ref_author r = a)); [right; auto|left; tauto].
Qed.

Lemma ev_gc : gc_round ds' = gc_round ds.
Proof.
  unfold gc_round, calculate_gc_round, last_commit_round.
  by rewrite (ef_context _ _ Hfr), (ef_last_commit _ _ Hfr).
Qed.

Lemma ev_committee : ds_committee ds' = ds_committee ds.
Proof. unfold ds_committee. by rewrite (ef_context _ _ Hfr). Qed.

Lemma ev_le_gc : (e ≤ gc_round ds)%N.
Proof. unfold e, eviction_round. lia. Qed.

Lemma ev_stored r b : cached ds !! r = Some b → stored (ds_store ds) !! r = Some b.
Proof.
  intros Hr. destruct (dk_durable _ Hok _ _ Hr) as [Hb|]; [|done].
  rewrite Hbuf in Hb. by apply not_elem_of_nil in Hb.
Qed.

Lemma ev_accepted : accepted ds' = accepted ds.
Proof.
  apply map_eq. intros r. rewrite !accepted_lookup, (ef_store _ _ Hfr).
  destruct (cached ds' !! r) as [b'|] eqn:Hr'.
  - by rewrite (ev_cached _ _ Hr').
  - destruct (cached ds !! r) as [b|] eqn:Hr; [|done]. by apply ev_stored.
Qed.

Lemma ev_index_lt : N.to_nat a < length (ds_evicted_rounds ds).
Proof.
  apply lookup_lt_Some in Hrefs. pose proof (dk_refs_len _ Hok). pose proof (dk_evicted_len _ Hok).
  unfold lengthN in *. lia.
Qed.

Lemma ev_refs a' refs' : ds_recent_refs_by_authority ds' !! N.to_nat a' = Some refs' →
  ∀ r, r ∈ refs' ↔ r ∈ dom (cached ds') ∧ ref_author r = a'.
Proof.
  intros Ha' r. rewrite Hby in Ha'. rewrite ev_dom. destruct (decide (a' = a)) as [->|Hne].
  - rewrite list_lookup_insert_eq in Ha' by (by eapply lookup_lt_Some). injection Ha' as <-.
    rewrite elem_of_filter, ev_in. naive_solver.
  - rewrite list_lookup_insert_ne in Ha' by lia. rewrite (dk_refs _ Hok _ _ Ha' r). naive_solver.
Qed.

Lemma ev_top r : r ∈ dom (stored (ds_store ds)) →
  ∃ r', r' ∈ dom (cached ds') ∧ ref_author r' = ref_author r ∧ (ref_round r ≤ ref_round r')%N.
Proof.
  intros Hr. destruct (dk_top _ Hok r Hr) as (r' & Hr' & Hra & Hle).
  destruct (decide (ref_author r' = a)) as [Ha|Hn].
  - destruct (last_round_kept ds a refs r') as (k & Hk & Hek & Hlek & _); [done|done|by apply ev_in|].
    exists k. apply ev_in in Hk as [Hk Hka]. rewrite ev_dom. split_and!; [done|done|congruence|lia].
  - exists r'. rewrite ev_dom. done.
Qed.

Lemma ev_last_le r : r ∈ dom (cached ds) → ref_author r = a → (ref_round r ≤ last_round refs)%N.
Proof.
  intros Hr Ha. assert (r ∈ refs) as Hin by (by apply ev_in). unfold last_round.
  destruct (refs_last refs) as [m|] eqn:Hm.
  - apply set_last_Some in Hm as [_ Hmax]; try apply _. by apply BlockRef_le_round, Hmax.
  - apply set_last_None in Hm; try apply _. subst. by apply not_elem_of_empty in Hin.
Qed.

Lemma ev_evicted a' e' : ds_evicted_rounds ds' !! N.to_nat a' = Some e' →
  ∀ r, r ∈ dom (stored (ds_store ds)) → ref_author r = a' → (e' < ref_round r)%N → r ∈ dom (cached ds').
Proof.
  intros Ha' r Hr Hra He'. rewrite Hev in Ha'. apply ev_dom. destruct (decide (a' = a)) as [->|Hne].
  - rewrite list_lookup_insert_eq in Ha' by apply ev_index_lt. injection Ha' as <-. split; [|done].
    destruct (ds_evicted_rounds ds !! N.to_nat a) as [e0|] eqn:He0.
    2: { apply lookup_ge_None in He0. pose proof ev_index_lt. lia. }
    eapply (dk_evicted ds); [done|exact He0|done|done|].
    destruct (dk_evicted_le _ Hok _ _ He0) as [->|(Hle & r' & Hr' & Hra' & Hle')]; [lia|].
    pose proof (ev_last_le r' Hr' Hra'). unfold e, eviction_round in He'. lia.
  - rewrite list_lookup_insert_ne in Ha' by lia. split; [by eapply (dk_evicted ds)|]. congruence.
Qed.

Lemma ev_evicted_le a' e' : ds_evicted_rounds ds' !! N.to_nat a' = Some e' →
  e' = 0%N ∨ (e' ≤ gc_round ds)%N ∧
    ∃ r, r ∈ dom (cached ds') ∧ ref_author r = a' ∧ (e' + ds_cached_rounds ds ≤ ref_round r)%N.
Proof.
  intros Ha'. rewrite Hev in Ha'. destruct (decide (a' = a)) as [->|Hne].
  - rewrite list_lookup_insert_eq in Ha' by apply ev_index_lt. injection Ha' as <-.
    destruct (decide (e = 0)%N) as [|Hnz]; [by left|right]. split; [apply ev_le_gc|].
    assert (∃ m, m ∈ refs) as [m Hm].
    { unfold e, eviction_round, last_round in Hnz. destruct (refs_last refs) as [m|] eqn:Hm.
      - apply set_last_Some in Hm as [? _]; try apply _. by exists m.
      - unfold GENESIS_ROUND in Hnz. lia. }
    destruct (last_round_kept ds a refs m) as (k & Hk & Hek & _ & [?|[_ ?]]); [done..|]. exists k.
    apply ev_in in Hk as [Hk Hka]. rewrite ev_dom. done.
  - rewrite list_lookup_insert_ne in Ha' by lia.
    destruct (dk_evicted_le _ Hok _ _ Ha') as [|(? & r & Hr & Hra & ?)]; [by left|right].
    split; [done|]. exists r. rewrite ev_dom. split_and!; [done|congruence|done|done].
Qed.

Lemma ev_ok : dag_ok ds'.
Proof.
  split; rewrite ?ev_committee, ?ev_gc, ?(ef_genesis _ _ Hfr), ?(ef_store _ _ Hfr), ?(ef_buffer _ _ Hfr),
    ?(ef_cached_rounds _ _ Hfr), ?(ef_highest _ _ Hfr).
  - by apply (dk_committee ds).
  - by apply (dk_cached_rounds ds).
  - rewrite Hby. unfold lengthN. rewrite length_insert. by apply (dk_refs_len ds).
  - rewrite Hev. unfold lengthN. rewrite length_insert. by apply (dk_evicted_len ds).
  - apply ev_refs.
  - intros r b Hr%ev_cached. by apply (dk_recent ds).
  - by apply (dk_genesis ds).
  - by apply (dk_genesis_all ds).
  - by apply (dk_store ds).
  - intros r b Hr%ev_cached. by apply (dk_durable ds).
  - rewrite Hbuf. by intros b Hb%not_elem_of_nil.
  - apply ev_top.
  - apply ev_evicted.
  - apply ev_evicted_le.
  - intros r [Hr _]%ev_dom. by apply (dk_highest ds).
Qed.

End evict_one.

Section flush_all.
Context {S : Type} `{StoreLaws S}.
Implicit Types ds : DagState S.

Lemma evict_authority_ok ds a :
  dag_ok ds → ds_blocks_to_write ds = [] → (a < Committee_size (ds_committee ds))%N →
  ∃ ds', evict_authority ds a = Done ds' ∧ dag_ok ds' ∧ evict_frame ds ds' ∧
    accepted ds' = accepted ds ∧ cached ds' ⊆ cached ds ∧
    (∀ r, r ∈ dom (cached ds) → (gc_round ds < ref_round r)%N → r ∈ dom (cached ds')).
Proof.
  intros Hok Hbuf Ha. destruct (recent_refs_lookup ds a) as (refs & Hrefs & _); [done..|].
  destruct (evict_authority_run ds a refs) as (ds' & Hrun & Hfr & Hrec & Hby & Hev); [done..|].
  exists ds'. split_and!; [done|by eapply ev_ok|done|by eapply ev_accepted| |].
  { apply map_subseteq_spec. intros r b Hb. by eapply ev_cached. }
  intros r Hr Hgc. eapply ev_dom; [exact Hok|exact Hrefs|exact Hrec|]. split; [done|].
  unfold eviction_round. lia.
Qed.

(** Writing the buffered blocks. *)
Lemma insert_blocks_buffer (c m : gmap BlockRef VerifiedBlock) l r :
  (∀ b, b ∈ l → c !! reference b = Some b) →
  insert_blocks m l !! r =
    if decide (r ∈ reference <$> l) then c !! r else m !! r.
Proof.
  intros Hl. rewrite insert_blocks_lookup.
  destruct (last (filter (λ b, reference b = r) l)) as [b|] eqn:Hlast.
  - apply last_Some in Hlast as [l' Hf].
    assert (b ∈ filter (λ b, reference b = r) l) as [Hb Hbl]%list_elem_of_filter
      by (rewrite Hf; set_solver).
    rewrite decide_True by (apply list_elem_of_fmap; by exists b). rewrite <- Hb. symmetry. by apply Hl.
  - apply last_None in Hlast. rewrite decide_False; [done|].
    intros (b & Hb & Hbl)%list_elem_of_fmap.
    assert (b ∈ filter (λ b, reference b = r) l) as Hbf by (by apply list_elem_of_filter).
    rewrite Hlast in Hbf. by apply not_elem_of_nil in Hbf.
Qed.

Lemma written_ok ds s ds' :
  dag_ok ds → stored s = insert_blocks (stored (ds_store ds)) (ds_blocks_to_write ds) →
  ds_store ds' = s → ds_blocks_to_write ds' = [] → ds_context ds' = ds_context ds →
  ds_genesis ds' = ds_genesis ds → cached ds' = cached ds →
  ds_recent_refs_by_authority ds' = ds_recent_refs_by_authority ds →
  ds_evicted_rounds ds' = ds_evicted_rounds ds →
  ds_highest_accepted_round ds' = ds_highest_accepted_round ds →
  ds_last_commit ds' = ds_last_commit ds → ds_cached_rounds ds' = ds_cached_rounds ds →
  dag_ok ds' ∧ accepted ds' = accepted ds ∧ accepted ds ⊆ stored s.
Proof.
  intros Hok Hs E1 E2 E3 E4 E5 E6 E7 E8 E9 E10.
  assert (∀ r, stored s !! r = if decide (r ∈ reference <$> ds_blocks_to_write ds)
    then cached ds !! r else stored (ds_store ds) !! r) as Hst.
  { intros r. rewrite Hs. apply insert_blocks_buffer. by apply (dk_buffer ds). }
  assert (∀ r b, cached ds !! r = Some b → stored s !! r = Some b) as Hdur.
  { intros r b Hr. rewrite Hst. case_decide as Hd; [done|].
    destruct (dk_durable _ Hok _ _ Hr) as [Hb|]; [|done]. destruct Hd.
    apply list_elem_of_fmap. exists b. split; [|done]. by destruct (dk_recent _ Hok _ _ Hr). }
  assert (∀ r b, stored s !! r = Some b → cached ds !! r = Some b ∨ stored (ds_store ds) !! r = Some b) as Hinv.
  { intros r b. rewrite Hst. case_decide; auto. }
  assert (ds_committee ds' = ds_committee ds) as Ec by (unfold ds_committee; by rewrite E3).
  assert (gc_round ds' = gc_round ds) as Eg
    by (unfold gc_round, calculate_gc_round, last_commit_round; by rewrite E3, E9).
  assert (∀ r, accepted ds !! r = stored s !! r) as Hacc.
  { intros r. rewrite accepted_lookup. destruct (cached ds !! r) as [b|] eqn:Hr.
    - symmetry. by apply Hdur.
    - rewrite Hst. case_decide as Hd; [|done]. apply list_elem_of_fmap in Hd as (b & -> & Hb).
      apply (dk_buffer _ Hok) in Hb. congruence. }
  split; [|split].
  - split; rewrite ?Ec, ?Eg, ?E1, ?E2, ?E4, ?E5, ?E6, ?E7, ?E8, ?E10; try apply Hok.
    + intros r b [Hr|Hr]%Hinv; [by apply (dk_recent ds)|by apply (dk_store ds)].
    + intros r b Hr. right. by apply Hdur.
    + by intros b Hb%not_elem_of_nil.
    + intros r [b Hr]%elem_of_dom. apply Hinv in Hr as [Hr|Hr].
      * exists r. split_and!; [by eapply elem_of_dom_2|done|done].
      * apply (dk_top _ Hok). by eapply elem_of_dom_2.
    + intros a e Ha r [b Hr]%elem_of_dom. apply Hinv in Hr as [Hr|Hr].
      * intros _ _. by eapply elem_of_dom_2.
      * apply (dk_evicted _ Hok _ _ Ha). by eapply elem_of_dom_2.
  - apply map_eq. intros r. rewrite accepted_lookup, E1, E5, Hacc.
    destruct (cached ds !! r) as [b|] eqn:Hr; [|done]. symmetry. by apply Hdur.
  - apply map_subseteq_spec. intros r b. by rewrite Hacc.
Qed.

(** What a flush guarantees. *)
Record flushed ds ds' : Prop := {
  fl_ok : dag_ok ds';
  fl_context : ds_context ds' = ds_context ds;
  fl_genesis : ds_genesis ds' = ds_genesis ds;
  fl_last_commit : ds_last_commit ds' = ds_last_commit ds;
  (** reads keep their answers *)
  fl_accepted : accepted ds' = accepted ds;
  (** everything accepted is durable, and nothing is left to write *)
  fl_durable : accepted ds ⊆ stored (ds_store ds');
  fl_empty : ds_blocks_to_write ds' = [] ∧ ds_commits_to_write ds' = [] ∧
    ds_commit_info_to_write ds' = [] ∧ ds_finalized_commits_to_write ds' = [];
  (** blocks above the gc round stay in memory *)
  fl_cached r : r ∈ dom (cached ds) → (gc_round ds < ref_round r)%N → r ∈ dom (cached ds');
  fl_sub : cached ds' ⊆ cached ds;
  fl_highest : ds_highest_accepted_round ds' = ds_highest_accepted_round ds;
  fl_rounds : ds_last_committed_rounds ds' = ds_last_committed_rounds ds;
  fl_scoring : ds_scoring_subdag ds' = ds_scoring_subdag ds;
  fl_recent : ds_recent_blocks ds' ⊆ ds_recent_blocks ds;
}.

Lemma evict_all_ok ds l :
  dag_ok ds → ds_blocks_to_write ds = [] →
  (∀ a, a ∈ l → (a < Committee_size (ds_committee ds))%N) →
  ∃ ds', for_each evict_authority ds l = Done ds' ∧ dag_ok ds' ∧ evict_frame ds ds' ∧
    accepted ds' = accepted ds ∧ cached ds' ⊆ cached ds ∧
    (∀ r, r ∈ dom (cached ds) → (gc_round ds < ref_round r)%N → r ∈ dom (cached ds')).
Proof.
  intros Hok Hbuf Hl. destruct (for_each_total (λ d, dag_ok d ∧ evict_frame ds d ∧
    accepted d = accepted ds ∧ cached d ⊆ cached ds ∧
    ∀ r, r ∈ dom (cached ds) → (gc_round ds < ref_round r)%N → r ∈ dom (cached d))
    evict_authority ds l) as (ds' & Hrun & Hinv).
  - split_and!; [done|done|done|done|auto].
  - intros d a Ha (Hd & Hfr & Hacc & Hsub & Hc).
    destruct (evict_authority_ok d a) as (d' & Hrun & Hd' & Hfr' & Hacc' & Hsub' & Hc').
    + done.
    + by rewrite (ef_buffer _ _ Hfr).
    + unfold ds_committee. rewrite (ef_context _ _ Hfr). by apply Hl.
    + exists d'. split_and!; [done|done|by etrans|congruence|by etrans|].
      intros r Hr Hgc. apply Hc'; [by apply Hc|].
      unfold gc_round, calculate_gc_round, last_commit_round in *.
      by rewrite (ef_context _ _ Hfr), (ef_last_commit _ _ Hfr).
  - by exists ds'.
Qed.

Lemma flush_ok ds : dag_ok ds → ∃ ds', flush ds = Done ds' ∧ flushed ds ds'.
Proof.
  intros Hok.
  assert (∀ bs cs ins fs, ds_blocks_to_write ds = bs → ds_commits_to_write ds = cs →
    ds_commit_info_to_write ds = ins → ds_finalized_commits_to_write ds = fs →
    ∃ ds', flush ds = Done ds' ∧ flushed ds ds') as Hgen; [|by eapply Hgen].
  intros bs cs ins fs Eb Ec Ei Ef. unfold flush. rewrite Eb, Ec, Ei, Ef.
  destruct (decide (bs = [] ∧ length cs = 0 ∧ length ins = 0 ∧ length fs = 0)) as [(-> & ? & ? & ?)|Hne].
  - destruct cs, ins, fs; try done. exists ds. split; [done|]. split; try done.
    intros r. rewrite accepted_lookup. destruct (cached ds !! r) as [b|] eqn:Hr.
    + destruct (dk_durable _ Hok _ _ Hr) as [Hb|Hb]; [|by rewrite Hb].
      rewrite Eb in Hb. by apply not_elem_of_nil in Hb.
    + by destruct (stored (ds_store ds) !! r).
  - destruct (store_write_law (ds_store ds) (mkWriteBatch bs cs ins fs)) as (s & Hw & Hs).
    set (ds1 := set_store s (set_blocks_to_write [] (set_commits_to_write [] (set_commit_info_to_write []
      (set_finalized_commits_to_write [] ds))))).
    destruct (written_ok ds s ds1) as (Hok1 & Hacc1 & Hsub); [done|by rewrite Eb|done..|].
    destruct (evict_all_ok ds1 (map fst (authorities_iter (ds_committee ds1))))
      as (ds2 & Hrun & Hok2 & Hfr & Hacc2 & Hsub2 & Hc2); [done|done| |].
    { intros a. rewrite authorities_iter_fst, elem_of_rangeN. lia. }
    exists (set_round_info (pop_round_infos (gc_round ds2) (ds_round_info ds2)) ds2).
    split.
    + destruct bs, cs, ins, fs; try (destruct Hne; done); unfold call; cbn [ds_store set_store
        set_blocks_to_write set_commits_to_write set_commit_info_to_write set_finalized_commits_to_write];
        rewrite Hw; cbn [mbind outcome_bind unwrap_ok]; fold ds1; by rewrite Hrun.
    + destruct Hfr. split.
      * by rewrite set_round_info_eqv.
      * exact ef_context0.
      * exact ef_genesis0.
      * exact ef_last_commit0.
      * rewrite set_round_info_eqv. congruence.
      * cbn. by rewrite ef_store0.
      * done.
      * exact Hc2.
      * exact Hsub2.
      * exact ef_highest0.
      * exact ef_rounds0.
      * exact ef_scoring0.
      * exact ef_recent0.
Qed.

End flush_all.

(** ** Commits *)
Section steps.
Context {S : Type} `{StoreLaws S}.
Implicit Types ds : DagState S.

Lemma set_last_commit_ok ds commit :
  dag_ok ds → (last_commit_round ds ≤ ref_round (tc_leader commit))%N →
  dag_ok (set_last_commit (Some commit) ds).
Proof.
  intros Hok Hle. split; cbn; try apply Hok.
  intros a e Ha. destruct (dk_evicted_le _ Hok a e Ha) as [|(Hgc & r & Hr)]; [by left|right].
  split; [|by exists r]. etrans; [exact Hgc|].
  unfold gc_round, calculate_gc_round, last_commit_round in *. cbn. lia.
Qed.

Lemma add_commit_ok ds commit ds' :
  dag_ok ds → (last_commit_round ds ≤ ref_round (tc_leader commit))%N →
  add_commit ds commit = Done ds' → dag_ok ds' ∧ accepted ds' = accepted ds.
Proof.
  intros Hok Hle Hrun. unfold add_commit in Hrun. apply bind_Done in Hrun as (proceed & Hchk & Hrun).
  destruct proceed; [|by invert_done].
  apply bind_Done in Hrun as (rounds & _ & Hrun). apply bind_Done in Hrun as (u & _ & Hrun). invert_done.
  split; [|done]. eapply dag_ok_proper; [|by apply (set_last_commit_ok ds commit)]. by split.
Qed.

(** One operation of the node on its dag state. The guards are what the callers
    ensure: blocks of committee members, and commits in the order of their
    leaders' rounds. *)
Inductive dag_step : DagState S → DagState S → Prop :=
  | step_accept ds b ds' :
      ref_ok (ds_committee ds) (reference b) → accept_block ds b = Done ds' → dag_step ds ds'
  | step_commit ds commit ds' :
      (last_commit_round ds ≤ ref_round (tc_leader commit))%N → add_commit ds commit = Done ds' →
      dag_step ds ds'
  | step_set_committed ds r ds' first : set_committed ds r = Done (ds', first) → dag_step ds ds'
  | step_link ds r ds' l : link_causal_history ds r = Done (ds', l) → dag_step ds ds'
  | step_scoring ds subdags ds' : add_scoring_subdags ds subdags = Done ds' → dag_step ds ds'
  | step_clear_scoring ds : dag_step ds (clear_scoring_subdag ds)
  | step_commit_info ds scores ds' : add_commit_info ds scores = Done ds' → dag_step ds ds'
  | step_finalized ds r rejected : dag_step ds (add_finalized_commit ds r rejected)
  | step_take_votes ds limit : dag_step ds (take_commit_votes ds limit).1
  | step_recover_commits ds commits : dag_step ds (recover_commits_to_write ds commits)
  | step_flush ds ds' : flush ds = Done ds' → dag_step ds ds'.

Lemma dag_eqv_step ds ds' : dag_eqv ds' ds → dag_ok ds → dag_ok ds' ∧ accepted ds ⊆ accepted ds'.
Proof. intros Heq Hok. rewrite Heq. done. Qed.

Lemma dag_step_ok ds ds' : dag_step ds ds' → dag_ok ds → dag_ok ds' ∧ accepted ds ⊆ accepted ds'.
Proof.
  destruct 1 as [ds b ds' Href Hrun|ds commit ds' Hle Hrun|ds r ds' first Hrun|ds r ds' l Hrun
    |ds subdags ds' Hrun|ds|ds scores ds' Hrun|ds r rejected|ds limit|ds commits|ds ds' Hrun]; intros Hok.
  - destruct (accept_block_ok ds b ds') as (Hok' & _ & _ & ->); [done..|]. split; [done|].
    destruct (known ds (reference b)) eqn:Hk; [done|]. apply insert_subseteq, not_elem_of_dom.
    apply known_false in Hk as [??]. rewrite elem_of_accepted. tauto.
  - destruct (add_commit_ok ds commit ds') as [? ->]; done.
  - eapply dag_eqv_step; [by eapply set_committed_eqv|done].
  - eapply dag_eqv_step; [by eapply link_causal_history_eqv|done].
  - apply dag_eqv_step; [|done]. unfold add_scoring_subdags in Hrun. invert_done. by split.
  - apply dag_eqv_step; [by split|done].
  - apply dag_eqv_step; [|done]. unfold add_commit_info in Hrun. invert_done. by split.
  - apply dag_eqv_step; [by split|done].
  - apply dag_eqv_step; [|done]. unfold take_commit_votes. destruct (take_votes _ _ _). by split.
  - apply dag_eqv_step; [by split|done].
  - destruct (flush_ok ds Hok) as (ds2 & Hrun2 & Hfl). rewrite Hrun2 in Hrun. invert_done.
    split; [by destruct Hfl|]. by rewrite (fl_accepted _ _ Hfl).
Qed.

Lemma dag_steps_ok ds ds' : rtc dag_step ds ds' → dag_ok ds → dag_ok ds' ∧ accepted ds ⊆ accepted ds'.
Proof.
  induction 1 as [|ds1 ds2 ds3 Hstep _ IH]; intros Hok; [done|].
  destruct (dag_step_ok _ _ Hstep Hok) as [Hok2 Hsub]. destruct (IH Hok2) as [? Hsub']. split; [done|by etrans].
Qed.

(** What no step changes or takes back. *)
Lemma dag_step_frame ds ds' :
  dag_step ds ds' → dag_ok ds →
  ds_context ds' = ds_context ds ∧ ds_genesis ds' = ds_genesis ds ∧ (gc_round ds ≤ gc_round ds')%N.
Proof.
  assert (∀ d d' : DagState S, ds_context d' = ds_context d → ds_last_commit d' = ds_last_commit d → gc_round d' = gc_round d) as Hgc.
  { intros d d' Hc Hl. unfold gc_round, calculate_gc_round, last_commit_round. by rewrite Hc, Hl. }
  assert (∀ d d' : DagState S, dag_eqv d' d → ds_context d' = ds_context d ∧ ds_genesis d' = ds_genesis d ∧ (gc_round d ≤ gc_round d')%N) as Heqv.
  { intros d d' [Hc Hg _ _ _ _ Hl]. split_and!; [done..|]. by rewrite (Hgc d d'). }
  destruct 1 as [ds b ds' Href Hrun|ds commit ds' Hle Hrun|ds r ds' first Hrun|ds r ds' l Hrun
    |ds subdags ds' Hrun|ds|ds scores ds' Hrun|ds r rejected|ds limit|ds commits|ds ds' Hrun]; intros Hok.
  - destruct (accept_block_ok ds b ds') as (_ & Hc & Hl & _); [done..|].
    split_and!; [done|by eapply accept_block_genesis|]. by rewrite (Hgc ds ds').
  - unfold add_commit in Hrun. apply bind_Done in Hrun as (proceed & Hchk & Hrun). destruct proceed; [|by invert_done].
    apply bind_Done in Hrun as (rounds & _ & Hrun). apply bind_Done in Hrun as (u & _ & Hrun). invert_done.
    split_and!; [done|done|]. unfold gc_round, calculate_gc_round, last_commit_round in *. cbn. lia.
  - eapply Heqv. by eapply set_committed_eqv.
  - eapply Heqv. by eapply link_causal_history_eqv.
  - apply Heqv. unfold add_scoring_subdags in Hrun. invert_done. by split.
  - apply Heqv. by split.
  - apply Heqv. unfold add_commit_info in Hrun. invert_done. by split.
  - apply Heqv. by split.
  - apply Heqv. unfold take_commit_votes. destruct (take_votes _ _ _). by split.
  - apply Heqv. by split.
  - destruct (flush_ok ds Hok) as (ds1 & Hrun1 & Hfl). assert (ds1 = ds') as -> by congruence.
    split_and!; [apply Hfl|apply Hfl|]. rewrite (Hgc ds ds'); [done|apply Hfl|apply Hfl].
Qed.

(** ** The abstract dag

    A set of blocks that only grows, one new block at a time, with a gc round that
    never goes back. Caches, indices, write buffers, the store and eviction are
    gone. *)
Record abstract_dag := mkAbstractDag {
  ad_genesis : gmap BlockRef VerifiedBlock;
  ad_blocks : gmap BlockRef VerifiedBlock;
  ad_gc_round : N;
}.

Inductive abstract_step : abstract_dag → abstract_dag → Prop :=
  | abstract_insert g m r b gc : m !! r = None → reference b = r →
      abstract_step (mkAbstractDag g m gc) (mkAbstractDag g (<[r := b]> m) gc)
  | abstract_gc g m gc gc' : (gc ≤ gc')%N → abstract_step (mkAbstractDag g m gc) (mkAbstractDag g m gc').

Definition abstract_read (A : abstract_dag) (r : BlockRef) : option VerifiedBlock :=
  if decide (ref_round r = GENESIS_ROUND) then ad_genesis A !! r else ad_blocks A !! r.

Definition abstraction ds : abstract_dag := mkAbstractDag (ds_genesis ds) (accepted ds) (gc_round ds).

Lemma dag_step_accepted ds ds' :
  dag_step ds ds' → dag_ok ds →
  accepted ds' = accepted ds ∨
  ∃ b, accepted ds !! reference b = None ∧ accepted ds' = <[reference b := b]> (accepted ds) ∧ gc_round ds' = gc_round ds.
Proof.
  intros Hstep Hok. destruct (dag_step_ok _ _ Hstep Hok) as [_ Hsub].
  destruct Hstep as [ds b ds' Href Hrun|ds commit ds' Hle Hrun|ds r ds' first Hrun|ds r ds' l Hrun
    |ds subdags ds' Hrun|ds|ds scores ds' Hrun|ds r rejected|ds limit|ds commits|ds ds' Hrun].
  - destruct (accept_block_ok ds b ds') as (_ & Hc & Hl & Hacc); [done..|].
    destruct (known ds (reference b)) eqn:Hk; [by left|right]. exists b. split_and!; [|done|].
    + apply not_elem_of_dom. rewrite elem_of_accepted. apply known_false in Hk. tauto.
    + unfold gc_round, calculate_gc_round, last_commit_round. by rewrite Hc, Hl.
  - left. by destruct (add_commit_ok ds commit ds').
  - left. by rewrite (set_committed_eqv _ _ _ _ Hrun).
  - left. by rewrite (link_causal_history_eqv _ _ _ _ Hrun).
  - left. unfold add_scoring_subdags in Hrun. by invert_done.
  - by left.
  - left. unfold add_commit_info in Hrun. by invert_done.
  - by left.
  - left. unfold take_commit_votes. by destruct (take_votes _ _ _).
  - by left.
  - left. destruct (flush_ok ds Hok) as (ds1 & Hrun1 & Hfl). assert (ds1 = ds') as -> by congruence. apply Hfl.
Qed.

Lemma dag_step_refines ds ds' : dag_step ds ds' → dag_ok ds → abstract_step (abstraction ds) (abstraction ds').
Proof.
  intros Hstep Hok. destruct (dag_step_frame _ _ Hstep Hok) as (_ & Hg & Hgc). unfold abstraction. rewrite Hg.
  destruct (dag_step_accepted _ _ Hstep Hok) as [->|(b & Hnew & -> & ->)]; [by apply abstract_gc|by apply abstract_insert].
Qed.

Lemma dag_steps_refine ds ds' :
  rtc dag_step ds ds' → dag_ok ds → rtc abstract_step (abstraction ds) (abstraction ds').
Proof.
  induction 1 as [|ds1 ds2 ds3 Hstep _ IH]; intros Hok; [done|].
  destruct (dag_step_ok _ _ Hstep Hok) as [Hok2 _]. eapply rtc_l; [by apply dag_step_refines|auto].
Qed.

End steps.

(** ** Recovery on an empty store *)
Section init.
Context `{BlockCodec}.

(** The parameters a node runs with. *)
Record context_ok (ctx : Context) : Prop := {
  cx_committee : committee_ok (committee ctx);
  cx_cached_rounds : (0 < dag_state_cached_rounds (parameters ctx))%N;
}.

Lemma genesis_blocks_spec ctx :
  (∀ sb, is_Some (bcs_signed_block sb)) →
  ∃ l, genesis_blocks ctx = Done l ∧
    (∀ b, b ∈ l → round b = GENESIS_ROUND ∧ (author b < Committee_size (committee ctx))%N) ∧
    (∀ a, (a < Committee_size (committee ctx))%N → ∃ b, b ∈ l ∧ author b = a).
Proof.
  intros Henc. unfold genesis_blocks.
  assert (∀ a, ∃ b, genesis_block ctx a = Done b ∧ round b = GENESIS_ROUND ∧ author b = a) as Hg.
  { intros a. unfold genesis_block. destruct (Henc (SignedBlock_new_genesis
      (if transaction_voting_enabled (protocol_config ctx) then V2 (BlockV2_genesis_block ctx a)
       else V1 (BlockV1_genesis_block ctx a)))) as [bytes ->].
    cbn. eexists. split; [done|]. destruct (transaction_voting_enabled _); done. }
  assert (∀ l : list (N * Authority), ∃ bs, mapM (λ '(i, _), genesis_block ctx i) l = Done bs ∧
    ∀ b, b ∈ bs → round b = GENESIS_ROUND ∧ author b ∈ map fst l) as Hall.
  { induction l as [|[a x] l (bs & Hbs & Hin)]; [exists []; split; [done|by intros ? ?%not_elem_of_nil]|].
    cbn. destruct (Hg a) as (b & -> & Hr & Ha). cbn. rewrite Hbs. cbn. exists (b :: bs). split; [done|].
    intros b' [->|Hb']%elem_of_cons; [subst; set_solver|]. destruct (Hin b' Hb'). set_solver. }
  assert (∀ (l : list (N * Authority)) a, a ∈ map fst l → ∀ bs, mapM (λ '(i, _), genesis_block ctx i) l = Done bs →
    ∃ b, b ∈ bs ∧ author b = a) as Hcov.
  { induction l as [|[a x] l IH]; intros a' Ha' bs Hbs; [by apply not_elem_of_nil in Ha'|].
    cbn in Hbs. destruct (Hg a) as (b & Hb & _ & Hba). rewrite Hb in Hbs.
    cbn [mbind outcome_bind] in Hbs. apply bind_Done in Hbs as (bs' & Hbs' & Hret). injection Hret as <-.
    cbn in Ha'. apply elem_of_cons in Ha' as [->|Ha']; [exists b; set_solver|].
    edestruct IH as (b' & ? & ?); [done..|]. exists b'. set_solver. }
  destruct (Hall (authorities_iter (committee ctx))) as (bs & Hbs & Hin). exists bs.
  rewrite authorities_iter_fst in Hin. split; [done|]. split.
  - intros b Hb. destruct (Hin b Hb) as [? ?%elem_of_rangeN]. split; [done|lia].
  - intros a Ha. eapply Hcov; [|done]. rewrite authorities_iter_fst, elem_of_rangeN. lia.
Qed.

(** Scans of the empty store. *)
Lemma empty_scan_blocks a start :
  (start ≤ u32_MAX)%N → MemStore.scan_blocks_by_author MemStore.new a start = Done (Ok []).
Proof.
  intros Hle. unfold MemStore.scan_blocks_by_author, MemStore.scan_blocks_by_author_in_range, btree_range.
  rewrite rassert_true by (rewrite triple_le_iff; lia). done.
Qed.

Lemma empty_scan_last a n : MemStore.scan_last_blocks_by_author MemStore.new a n None = Done (Ok []).
Proof.
  unfold MemStore.scan_last_blocks_by_author, btree_range.
  rewrite rassert_true by (rewrite triple_le_iff; unfold BlockDigest_MIN, BlockDigest_MAX, default; lia).
  done.
Qed.

(** The state before the store is scanned. *)
Definition empty_dag_state (ctx : Context) (genesis : list VerifiedBlock) : DagState MemStore.Inner :=
  let n := N.to_nat (Committee_size (committee ctx)) in
  {| ds_context := ctx; ds_genesis := insert_blocks ∅ genesis; ds_recent_blocks := ∅;
     ds_recent_refs_by_authority := replicate n ∅; ds_round_info := [];
     ds_threshold_clock := ThresholdClock_new 1; ds_evicted_rounds := replicate n 0%N;
     ds_highest_accepted_round := 0; ds_last_commit := None;
     ds_last_committed_rounds := replicate n 0%N; ds_scoring_subdag := ScoringSubdag_new;
     ds_pending_commit_votes := []; ds_blocks_to_write := []; ds_commits_to_write := [];
     ds_commit_info_to_write := []; ds_finalized_commits_to_write := [];
     ds_store := MemStore.new; ds_cached_rounds := dag_state_cached_rounds (parameters ctx) |}.

Lemma replicate_set {A} n i (x : A) : <[i := x]> (replicate n x) = replicate n x.
Proof.
  apply list_insert_id'. intros Hlt. rewrite length_replicate in Hlt. by apply lookup_replicate_2.
Qed.

Lemma recover_authority_empty ctx genesis a :
  (a < Committee_size (committee ctx))%N →
  recover_authority (empty_dag_state ctx genesis, []) a = Done (empty_dag_state ctx genesis, []).
Proof.
  intros Ha. unfold recover_authority, call. cbn [ds_store empty_dag_state store_scan_last_blocks_by_author mem_store].
  rewrite empty_scan_last. cbn [mbind outcome_bind unwrap_ok last].
  set (e := eviction_round _ _ _). assert (e = 0%N) as -> by done.
  cbn [store_scan_blocks_by_author mem_store]. rewrite empty_scan_blocks by done.
  cbn [mbind outcome_bind unwrap_ok]. cbn [ds_evicted_rounds empty_dag_state].
  rewrite vec_set_lt by (rewrite length_replicate; lia). run_bind.
  rewrite replicate_set. done.
Qed.

Lemma DagState_new_empty ctx genesis :
  genesis_blocks ctx = Done genesis →
  DagState_new ctx MemStore.new = Done (empty_dag_state ctx genesis).
Proof.
  intros Hg. unfold DagState_new. rewrite Hg. run_bind.
  change (call (store_read_last_commit MemStore.new)) with (Done (A:=option TrustedCommit) None).
  change (call (store_read_last_commit_info MemStore.new)) with (Done (A:=option (CommitRef * CommitInfo)) None).
  run_bind. unfold add_subdags. cbn [for_each mbind outcome_bind].
  fold (empty_dag_state ctx genesis).
  assert (∀ l, (∀ a, a ∈ l → (a < Committee_size (committee ctx))%N) →
    for_each recover_authority (empty_dag_state ctx genesis, []) l = Done (empty_dag_state ctx genesis, [])) as Hloop.
  { induction l as [|a l IH]; intros Hl; [done|]. cbn [for_each].
    rewrite recover_authority_empty by (apply Hl, list_elem_of_here). run_bind.
    apply IH. intros. by apply Hl, list_elem_of_further. }
  rewrite Hloop by (intros a; rewrite authorities_iter_fst, elem_of_rangeN; lia).
  cbn [mbind outcome_bind stable_sort foldr for_each]. unfold call.
  cbn [store_scan_blocks_by_author mem_store]. rewrite empty_scan_blocks; [done|]. done.
Qed.

Lemma empty_dag_state_ok ctx genesis :
  context_ok ctx →
  (∀ b, b ∈ genesis → round b = GENESIS_ROUND ∧ (author b < Committee_size (committee ctx))%N) →
  (∀ a, (a < Committee_size (committee ctx))%N → ∃ b, b ∈ genesis ∧ author b = a) →
  dag_ok (empty_dag_state ctx genesis).
Proof.
  intros [Hc Hcr] Hg Hall.
  assert (cached (empty_dag_state ctx genesis) = ∅) as Hcached by apply fmap_empty.
  assert (stored (ds_store (empty_dag_state ctx genesis)) = ∅) as Hstored by apply kmap_empty.
  split; rewrite ?Hcached, ?Hstored; try done.
  - cbn. unfold lengthN. rewrite length_replicate. apply N2Nat.id.
  - cbn. unfold lengthN. rewrite length_replicate. apply N2Nat.id.
  - intros a refs [-> _]%lookup_replicate r. set_solver.
  - intros r b. cbn. rewrite insert_blocks_lookup, lookup_empty.
    destruct (last _) as [b'|] eqn:Hl; [|done]. intros [= <-]. apply last_Some in Hl as [l' Hl].
    assert (b' ∈ filter (λ b, reference b = r) genesis) as [<- Hb']%list_elem_of_filter by (rewrite Hl; set_solver).
    split; [done|]. by apply Hg.
  - intros a Ha. destruct (Hall a Ha) as (b & Hb & Hba). exists (reference b). split; [|done].
    cbn. apply elem_of_dom. rewrite insert_blocks_lookup. destruct (last _) eqn:Hl; [done|].
    apply last_None in Hl. assert (b ∈ filter (λ b', reference b' = reference b) genesis) as Hbf
      by (by apply list_elem_of_filter). rewrite Hl in Hbf. by apply not_elem_of_nil in Hbf.
  - by intros b Hb%not_elem_of_nil.
  - intros a e [-> _]%lookup_replicate. by left.
Qed.

(** A fresh node, and the states it reaches. *)
Definition dag_reachable (ctx : Context) (ds : DagState MemStore.Inner) : Prop :=
  ∃ ds0, DagState_new ctx MemStore.new = Done ds0 ∧ rtc dag_step ds0 ds.

Lemma DagState_new_ok ctx :
  context_ok ctx → (∀ sb, is_Some (bcs_signed_block sb)) →
  ∃ ds0, DagState_new ctx MemStore.new = Done ds0 ∧ dag_ok ds0 ∧ accepted ds0 = ∅.
Proof.
  intros Hctx Henc. destruct (genesis_blocks_spec ctx Henc) as (l & Hl & Hg & Hall).
  exists (empty_dag_state ctx l). rewrite (DagState_new_empty ctx l Hl).
  split; [done|]. split; [by apply empty_dag_state_ok|].
  assert (cached (empty_dag_state ctx l) = ∅) as Hcached by apply fmap_empty.
  assert (stored (ds_store (empty_dag_state ctx l)) = ∅) as Hstored by apply kmap_empty.
  unfold accepted. rewrite Hcached, Hstored. done.
Qed.

Lemma dag_reachable_ok ctx ds :
  context_ok ctx → (∀ sb, is_Some (bcs_signed_block sb)) → dag_reachable ctx ds → dag_ok ds.
Proof.
  intros Hctx Henc (ds0 & Hnew & Hsteps).
  destruct (DagState_new_ok ctx) as (ds1 & Hnew1 & Hok & _); [done..|].
  assert (ds1 = ds0) as -> by congruence. by destruct (dag_steps_ok ds0 ds).
Qed.

End init.

(** ** Properties *)

(** C19: refinement of the dag state. Everything the operations of [DagState] do
    (caching, indexing, eviction, buffering, writing to the store, commits) is
    invisible behind its interface: a run of operations is a run of the abstract
    dag, which only inserts new blocks and advances the gc round, and reads
    answer from the abstract dag. *)
Theorem dag_state_refines_abstract {S} `{StoreLaws S} (ds ds' : DagState S) refs :
  dag_ok ds → rtc dag_step ds ds' →
  rtc abstract_step (abstraction ds) (abstraction ds') ∧
  get_blocks ds' refs = Done (abstract_read (abstraction ds') <$> refs) ∧
  (∀ r b, abstract_read (abstraction ds) r = Some b → abstract_read (abstraction ds') r = Some b).
Proof.
  intros Hok Hsteps. assert (rtc abstract_step (abstraction ds) (abstraction ds')) as Hrun by (by apply dag_steps_refine).
  split; [done|]. split; [by rewrite get_blocks_spec|]. intros r b. clear Hsteps Hok.
  revert Hrun. generalize (abstraction ds) as A, (abstraction ds') as A'. induction 1 as [|A1 A2 A3 Hstep _ IH]; [done|].
  intros Hr. apply IH. destruct Hstep as [g m r' b' gc Hnew Href|]; [|done].
  unfold abstract_read in *. cbn in *. case_decide; [done|]. rewrite lookup_insert_ne; [done|congruence].
Qed.

(** C15: the dag state keeps its invariant. From a fresh start on an empty in-memory
    store, after any sequence of accepted blocks of committee members, commits in
    leader order, status updates, scoring and flushes: cached blocks are indexed
    by author and filed under their own reference, every cached block is stored
    or buffered for writing, the last block of every author is cached, and so is
    every block above the eviction round of its author. No operation ever loses or
    replaces a block that has been accepted. *)
Theorem dag_state_invariant `{BlockCodec} ctx ds ds' :
  context_ok ctx → (∀ sb, is_Some (bcs_signed_block sb)) →
  dag_reachable ctx ds → rtc dag_step ds ds' →
  dag_ok ds ∧ dag_ok ds' ∧ accepted ds ⊆ accepted ds'.
Proof.
  intros Hctx Henc Hr Hsteps. assert (dag_ok ds) as Hok by (by eapply dag_reachable_ok).
  split; [done|]. by apply dag_steps_ok.
Qed.

(** the existence check with its cache and its shortcut (a reference above the
    highest cached one of its author is reported missing without asking the
    store) agrees with reading the blocks: in every state of the invariant both
    return, and a reference exists if and only if its block is found. *)
Theorem contains_blocks_iff_get_blocks {S} `{StoreLaws S} (ds : DagState S) refs :
  dag_ok ds → (∀ r, r ∈ refs → ref_author r < Committee_size (ds_committee ds))%N →
  ∃ blocks, get_blocks ds refs = Done blocks ∧
    contains_blocks ds refs = Done ((λ o, bool_decide (is_Some o)) <$> blocks) ∧
    ∀ i r b, refs !! i = Some r → blocks !! i = Some (Some b) → reference b = r.
Proof.
  intros Hok Hrefs. exists (block_of ds <$> refs). rewrite get_blocks_spec, contains_blocks_spec by done.
  split; [done|]. split.
  - f_equal. rewrite <- list_fmap_compose. apply list_fmap_ext. intros i r _.
    apply bool_decide_ext. unfold block_of. rewrite !elem_of_dom. case_decide as Hr.
    + split; [|by right]. intros [[b Hb]|]; [|done]. rewrite accepted_lookup in Hb.
      destruct (cached ds !! r) as [b'|] eqn:Hc;
        [apply (dk_recent _ Hok) in Hc as [_ []]|apply (dk_store _ Hok) in Hb as [_ []]]; done.
    + split; [|by left]. intros [|[b Hb]]; [done|]. by apply (dk_genesis _ Hok) in Hb as [_ ?].
  - intros i r b Hr. rewrite list_lookup_fmap, Hr. cbn. intros [= Hb]. unfold block_of in Hb.
    case_decide; [by apply (dk_genesis ds)|]. rewrite accepted_lookup in Hb.
    destruct (cached ds !! r) as [b'|] eqn:Hc; simplify_eq; [by apply (dk_recent ds)|by apply (dk_store ds)].
Qed.

(** C16: a flush always completes. Afterwards everything accepted is in the store,
    nothing is left in the write buffers, every read answers as before, blocks
    above the gc round are still in memory, and the invariant holds. *)
Theorem flush_durable {S} `{StoreLaws S} (ds : DagState S) :
  dag_ok ds →
  ∃ ds', flush ds = Done ds' ∧ flushed ds ds' ∧ ∀ refs, get_blocks ds' refs = get_blocks ds refs.
Proof.
  intros Hok. destruct (flush_ok ds Hok) as (ds' & Hrun & Hfl). exists ds'. split_and!; [done|done|].
  intros refs. rewrite !get_blocks_spec. f_equal. apply list_fmap_ext. intros _ r _.
  unfold block_of. by rewrite (fl_genesis _ _ Hfl), (fl_accepted _ _ Hfl).
Qed.

(** accepting a block of a committee member (without v3 vote accounting)
    never panics unless it would equivocate in the node's own slot. A block that
    is already known leaves the state as it is; a new one is added to what reads
    return, under its reference, is buffered for the next flush, and changes no
    other answer. *)
Theorem accept_block_correct {S} `{StoreLaws S} (ds : DagState S) b :
  dag_ok ds → ref_ok (ds_committee ds) (reference b) →
  enable_v3 (protocol_config (ds_context ds)) = false →
  (author b = own_index (ds_context ds) → known ds (reference b) = false →
    skip_equivocation_validation (parameters (ds_context ds)) = true ∨
    ∀ r, r ∈ dom (cached ds) → Slot_from r ≠ Slot_from (reference b)) →
  ∃ ds', accept_block ds b = Done ds' ∧ dag_ok ds' ∧
    (known ds (reference b) = true → accepted ds' = accepted ds) ∧
    (known ds (reference b) = false →
      get_block ds' (reference b) = Done (Some b) ∧ accepted ds' = <[reference b := b]> (accepted ds)).
Proof.
  intros Hok Href Hv3 Hown. destruct (accept_block_total ds b) as [ds' Hrun]; [done..|].
  destruct (accept_block_ok ds b ds') as (Hok' & _ & _ & Hacc); [done..|].
  exists ds'. split_and!; [done|done| |]; intros Hk; rewrite Hk in Hacc; [done|]. split; [|done].
  rewrite get_block_spec. unfold block_of. rewrite decide_False by apply Href.
  by rewrite Hacc, lookup_insert_eq.
Qed.

(** ** A concrete node *)

#[export] Instance sample_codec : BlockCodec := {|
  hash_bytes := λ _, 7%N;
  bcs_signed_block := λ _, Some [];
|}.

(** Authority 0 of a committee of four, caching two rounds. *)
Definition sample_context : Context :=
  Context_new 0 (Some 0%N) committee_4 sample_parameters
    (mkProtocolConfig 1000 10000 100 1 true (Some 1%N) 20 false 600 60).

Definition from_done {A} (default : A) (m : outcome A) : A :=
  match m with Done a => a | _ => default end.

Definition sample_start : DagState MemStore.Inner :=
  from_done (empty_dag_state sample_context []) (DagState_new sample_context MemStore.new).

(** A block of authority 1 at round 1 on top of the genesis blocks. *)
Definition sample_first : VerifiedBlock :=
  sample_block 1 1 11 [mkBlockRef 0 1 7; mkBlockRef 0 0 7; mkBlockRef 0 2 7].

Definition sample_accepted : DagState MemStore.Inner :=
  from_done sample_start (accept_block sample_start sample_first).

Lemma sample_context_ok : context_ok sample_context.
Proof. split; [exact committee_4_ok|reflexivity]. Qed.

Lemma sample_start_reachable : dag_reachable sample_context sample_start.
Proof.
  exists sample_start. split; [|done]. destruct (DagState_new_ok sample_context) as (ds & Hds & _).
  - exact sample_context_ok.
  - intros sb. by eexists.
  - unfold sample_start. by rewrite Hds.
Qed.

Lemma sample_start_ok : dag_ok sample_start.
Proof.
  apply (dag_reachable_ok sample_context);
    [exact sample_context_ok|by eexists|exact sample_start_reachable].
Qed.

Lemma sample_first_ref_ok : ref_ok committee_4 (reference sample_first).
Proof. by split. Qed.

Lemma sample_accept_step : accept_block sample_start sample_first = Done sample_accepted.
Proof. vm_compute. reflexivity. Qed.

Lemma sample_accepted_ok : dag_ok sample_accepted.
Proof.
  destruct (accept_block_ok sample_start sample_first sample_accepted) as [? _];
    [exact sample_start_ok|exact sample_first_ref_ok|exact sample_accept_step|done].
Qed.

Lemma dag_state_invariant_witness :
  dag_reachable sample_context sample_start ∧ rtc dag_step sample_start sample_accepted ∧
  dag_ok sample_accepted ∧ accepted sample_start ⊆ accepted sample_accepted.
Proof.
  assert (rtc dag_step sample_start sample_accepted) as Hsteps.
  { apply rtc_once. eapply step_accept; [exact sample_first_ref_ok|exact sample_accept_step]. }
  split; [exact sample_start_reachable|]. split; [exact Hsteps|].
  destruct (dag_state_invariant sample_context sample_start sample_accepted) as (_ & Hok & Hsub);
    [exact sample_context_ok|by eexists|exact sample_start_reachable|exact Hsteps|].
  split; [exact Hok|exact Hsub].
Defined.

Lemma dag_state_refines_abstract_witness :
  rtc abstract_step (abstraction sample_start) (abstraction sample_accepted) ∧
  get_blocks sample_accepted [reference sample_first] = Done [Some sample_first].
Proof.
  destruct (dag_state_refines_abstract sample_start sample_accepted [reference sample_first]) as (Hrun & Hget & _).
  - exact sample_start_ok.
  - apply rtc_once. eapply step_accept; [exact sample_first_ref_ok|exact sample_accept_step].
  - split; [exact Hrun|]. vm_compute. reflexivity.
Defined.

Lemma contains_blocks_iff_get_blocks_witness :
  ∃ blocks, get_blocks sample_accepted [reference sample_first; mkBlockRef 1 1 12; mkBlockRef 5 1 0] = Done blocks ∧
    contains_blocks sample_accepted [reference sample_first; mkBlockRef 1 1 12; mkBlockRef 5 1 0] =
      Done [true; false; false].
Proof.
  destruct (contains_blocks_iff_get_blocks sample_accepted
    [reference sample_first; mkBlockRef 1 1 12; mkBlockRef 5 1 0]) as (blocks & Hget & Hcon & _).
  - exact sample_accepted_ok.
  - intros r Hr. repeat (apply elem_of_cons in Hr as [->|Hr]); [done..|by apply not_elem_of_nil in Hr].
  - exists blocks. split; [exact Hget|]. vm_compute. reflexivity.
Defined.

Lemma flush_durable_witness :
  ∃ ds', flush sample_accepted = Done ds' ∧
    mem_stored (ds_store ds') !! reference sample_first = Some sample_first ∧
    get_blocks ds' [reference sample_first] = get_blocks sample_accepted [reference sample_first].
Proof.
  destruct (flush_durable sample_accepted sample_accepted_ok) as (ds' & Hrun & _ & Hget).
  exists ds'. split; [exact Hrun|]. split; [|apply Hget].
  vm_compute in Hrun. injection Hrun as <-. vm_compute. reflexivity.
Defined.

Lemma accept_block_correct_witness :
  ∃ ds', accept_block sample_start sample_first = Done ds' ∧
    get_block ds' (reference sample_first) = Done (Some sample_first).
Proof.
  destruct (accept_block_correct sample_start sample_first) as (ds' & Hrun & _ & _ & Hnew).
  - exact sample_start_ok.
  - exact sample_first_ref_ok.
  - reflexivity.
  - intros Hown. vm_compute in Hown. discriminate Hown.
  - exists ds'. split; [exact Hrun|]. apply Hnew. vm_compute. reflexivity.
Defined.
