(* ===== verification/QuorumScan.v ===== *)
(** * Values supported by a quorum

    Several components sort one value per authority together with its stake and
    scan the list until the stake reaches the quorum threshold. This file has the
    scan and what it computes, for either direction. *)

From S2P Require Import Prelude Committee.

(** The order of the tuples [(value, stake)], and its reverse. *)
Definition tuple_le (a b : N * N) : Prop := (a.1 < b.1 ∨ (a.1 = b.1 ∧ a.2 ≤ b.2))%N.
Definition tuple_ge (a b : N * N) : Prop := tuple_le b a.

#[export] Instance tuple_le_dec : RelDecision tuple_le.
Proof. unfold tuple_le. intros a b. apply _. Defined.
#[export] Instance tuple_ge_dec : RelDecision tuple_ge.
Proof. intros a b. apply tuple_le_dec. Defined.
#[export] Instance tuple_le_total : Total tuple_le.
Proof. intros a b. unfold tuple_le. lia. Qed.
#[export] Instance tuple_le_trans : Transitive tuple_le.
Proof. intros a b d. unfold tuple_le. lia. Qed.
#[export] Instance tuple_ge_total : Total tuple_ge.
Proof. intros a b. unfold tuple_ge, tuple_le. lia. Qed.
#[export] Instance tuple_ge_trans : Transitive tuple_ge.
Proof. intros a b d. unfold tuple_ge, tuple_le. lia. Qed.

Lemma sorted_weaken {A} (R R' : relation A) l :
  (∀ x y, R x y → R' x y) → StronglySorted R l → StronglySorted R' l.
Proof. intros HR. induction 1 as [|x l Hl IH Hx]; constructor; [done|]. eapply Forall_impl; [exact Hx|]. auto. Qed.

Lemma sorted_reverse {A} (R : relation A) l : StronglySorted (flip R) l → StronglySorted R (reverse l).
Proof.
  induction 1 as [|x l Hl IH Hx]; [constructor|]. rewrite reverse_cons. apply StronglySorted_app. split_and!; [|done|by repeat constructor].
  intros y z Hy ->%list_elem_of_singleton. rewrite elem_of_reverse in Hy. rewrite Forall_forall in Hx. exact (Hx y Hy).
Qed.

(** The loop that adds up the stake and stops at the threshold. *)
Fixpoint quorum_scan (threshold total_stake : N) (l : list (N * N)) : option N :=
  match l with
  | [] => None
  | (value, stake) :: l =>
      let total_stake := total_stake +₆₄ stake in
      if decide (threshold ≤ total_stake)%N then Some value else quorum_scan threshold total_stake l
  end.

Definition at_least (x v : N) : Prop := (v ≤ x)%N.
Definition at_most (x v : N) : Prop := (x ≤ v)%N.
#[export] Instance at_least_dec : RelDecision at_least.
Proof. intros x v. unfold at_least. apply _. Defined.
#[export] Instance at_most_dec : RelDecision at_most.
Proof. intros x v. unfold at_most. apply _. Defined.
#[export] Instance at_least_preorder : PreOrder at_least.
Proof. split; [intros x|intros x y z]; unfold at_least; lia. Qed.
#[export] Instance at_most_preorder : PreOrder at_most.
Proof. split; [intros x|intros x y z]; unfold at_most; lia. Qed.

(** The stake of the entries whose value is related to [v]. *)
Definition support (R : relation N) `{!RelDecision R} (l : list (N * N)) (v : N) : N :=
  sumN (snd <$> filter (λ e, R e.1 v) l).

Section scan.
Context (R : relation N) `{!RelDecision R, !Reflexive R, !Transitive R}.

Lemma support_cons x l v :
  support R (x :: l) v = ((if decide (R x.1 v) then x.2 else 0) + support R l v)%N.
Proof. unfold support. rewrite filter_cons. by destruct (decide (R x.1 v)). Qed.

Lemma support_le l v : (support R l v ≤ sumN (snd <$> l))%N.
Proof.
  induction l as [|x l IH]; [done|]. rewrite support_cons. cbn. fold (sumN (snd <$> l)). case_decide; lia.
Qed.

Lemma support_none l v : (∀ x, x ∈ l → ¬ R x.1 v) → support R l v = 0%N.
Proof.
  induction l as [|x l IH]; intros Hn; [done|]. rewrite support_cons, IH, decide_False by auto with lists. done.
Qed.

(** On a sorted list, the scan finds the first value whose support reaches the
    threshold, and reports that there is none otherwise. *)
Lemma quorum_scan_spec q t l :
  StronglySorted (λ x y, R x.1 y.1) l → (t + sumN (snd <$> l) < u64_modulus)%N → (t < q)%N →
  match quorum_scan q t l with
  | Some v => (∃ s, (v, s) ∈ l) ∧ (q ≤ t + support R l v)%N ∧ ∀ v', ¬ R v v' → (t + support R l v' < q)%N
  | None => (t + sumN (snd <$> l) < q)%N
  end.
Proof.
  intros Hs. revert t. induction Hs as [|[v s] l Hs IH Hv]; intros t Hsum Ht; cbn [quorum_scan].
  { cbn. lia. }
  rewrite Forall_forall in Hv. cbn [fmap list_fmap] in Hsum. change (t + (s + sumN (snd <$> l)) < u64_modulus)%N in Hsum.
  rewrite wrap_add_small by lia. destruct (decide (q ≤ t + s)%N) as [Hq|Hq].
  - split_and!; [eexists; apply list_elem_of_here| |].
    + rewrite support_cons, decide_True by reflexivity. cbn. lia.
    + intros v' Hn. rewrite support_none; [lia|]. intros x [->|Hx]%elem_of_cons; [done|]. intros Hxv. apply Hn.
      etrans; [|exact Hxv]. by apply (Hv x).
  - specialize (IH (t + s)%N ltac:(lia) ltac:(lia)). destruct (quorum_scan q (t + s) l) as [v2|].
    + destruct IH as ((s2 & Hin) & Hle & Hlt). split_and!; [eexists; by apply list_elem_of_further| |].
      * rewrite support_cons, decide_True by (by apply (Hv (v2, s2))). cbn. lia.
      * intros v' Hn. specialize (Hlt v' Hn). rewrite support_cons. cbn. case_decide; lia.
    + cbn. change (t + (s + sumN (snd <$> l)) < q)%N. lia.
Qed.

End scan.

#[export] Instance support_perm (R : relation N) `{!RelDecision R} v : Proper ((≡ₚ) ==> (=)) (λ l, support R l v).
Proof. intros l k Hlk. unfold support. by rewrite Hlk. Qed.

(** ** One value per authority *)
Definition value_at (values : list N) (a : N) : N := default 0%N (values !! N.to_nat a).

(** [values.iter().zip(committee.authorities())] with the stake of the authority. *)
Definition weighted (c : Committee) (values : list N) : list (N * N) :=
  zip_with (λ v (x : N * Authority), (v, stake x.2)) values (authorities_iter c).

(** The authorities whose value is related to [v]. *)
Definition supporters (c : Committee) (R : relation N) `{!RelDecision R} (values : list N) (v : N) : gset N :=
  filter (λ a, R (value_at values a) v) (all_authorities c).

Section committee.
Context (c : Committee) (R : relation N) `{!RelDecision R}.
Implicit Types values : list N.

Lemma elem_of_supporters values v a :
  a ∈ supporters c R values v ↔ (a < Committee_size c)%N ∧ R (value_at values a) v.
Proof. unfold supporters. rewrite elem_of_filter, elem_of_all_authorities. tauto. Qed.

Lemma weighted_eq values :
  lengthN values = Committee_size c →
  weighted c values = (λ a, (value_at values a, stake_of c a)) <$> rangeN 0 (Committee_size c).
Proof.
  intros Hlen. unfold Committee_size, lengthN in Hlen. apply list_eq. intros i. unfold weighted, authorities_iter.
  rewrite lookup_zip_with, list_lookup_imap, list_lookup_fmap.
  destruct (decide (i < length (authorities c))) as [Hi|Hi].
  - rewrite rangeN_lookup by (unfold Committee_size, lengthN; lia).
    destruct (lookup_lt_is_Some_2 values i) as [v Hv]; [lia|].
    destruct (lookup_lt_is_Some_2 (authorities c) i) as [x Hx]; [done|]. rewrite Hv, Hx.
    cbn [fmap option_fmap option_map mbind option_bind]. unfold value_at, stake_of.
    replace (N.to_nat (0 + N.of_nat i)) with i by lia. by rewrite Hv, Hx.
  - rewrite (lookup_ge_None_2 values) by lia. cbn. rewrite lookup_ge_None_2; [done|].
    rewrite rangeN_length. unfold Committee_size, lengthN. lia.
Qed.

Lemma support_weighted values v :
  lengthN values = Committee_size c → support R (weighted c values) v = set_stake c (supporters c R values v).
Proof.
  intros Hlen. rewrite weighted_eq by done.
  assert (supporters c R values v = list_to_set (filter (λ a, R (value_at values a) v) (rangeN 0 (Committee_size c)))) as ->.
  { apply set_eq. intros a. rewrite elem_of_supporters, elem_of_list_to_set, list_elem_of_filter, elem_of_rangeN. split; [|tauto].
    intros [? ?]. split; [done|lia]. }
  unfold set_stake. rewrite set_sum_list_to_set by apply NoDup_filter, NoDup_rangeN.
  induction (rangeN 0 (Committee_size c)) as [|a l IH]; [done|]. cbn [fmap list_fmap].
  rewrite support_cons, IH, filter_cons. cbn. by case_decide.
Qed.

Lemma weighted_sum values :
  lengthN values = Committee_size c → sumN (snd <$> weighted c values) = sumN (stake <$> authorities c).
Proof.
  intros Hlen. rewrite weighted_eq, <- set_stake_all by done. unfold set_stake, all_authorities.
  rewrite set_sum_list_to_set by apply NoDup_rangeN. f_equal. rewrite <- list_fmap_compose. done.
Qed.

Lemma elem_of_weighted values v s :
  lengthN values = Committee_size c → (v, s) ∈ weighted c values → ∃ a, (a < Committee_size c)%N ∧ value_at values a = v.
Proof.
  intros Hlen. rewrite weighted_eq by done. intros (a & [= -> ->] & Ha%elem_of_rangeN)%list_elem_of_fmap.
  exists a. split; [lia|done].
Qed.

End committee.

(** The value that a scan of all authorities stops at. *)
Lemma scan_spec c (R : relation N) `{!RelDecision R, !PreOrder R} values l :
  committee_ok c → (0 < quorum_threshold c)%N → (quorum_threshold c ≤ total_stake c)%N →
  lengthN values = Committee_size c → l ≡ₚ weighted c values → StronglySorted (λ x y, R x.1 y.1) l →
  ∃ v, quorum_scan (quorum_threshold c) 0 l = Some v ∧
    (∃ a, (a < Committee_size c)%N ∧ value_at values a = v) ∧
    (quorum_threshold c ≤ set_stake c (supporters c R values v))%N ∧
    ∀ v', ¬ R v v' → (set_stake c (supporters c R values v') < quorum_threshold c)%N.
Proof.
  intros Hc Hq Hle Hlen Hperm Hs.
  assert (sumN (snd <$> l) = total_stake c) as Hsum by (by rewrite Hperm, weighted_sum, <- (co_total c)).
  pose proof (co_bound _ Hc). pose proof (quorum_scan_spec R (quorum_threshold c) 0 l Hs) as Hspec.
  rewrite Hsum in Hspec. specialize (Hspec ltac:(lia) Hq).
  assert (∀ v, set_stake c (supporters c R values v) = support R l v) as Hsupp.
  { intros v. rewrite <- support_weighted by done. symmetry. by apply support_perm. }
  destruct (quorum_scan (quorum_threshold c) 0 l) as [v|]; [|lia]. destruct Hspec as ((s & Hin) & Hge & Hlt).
  exists v. split_and!; [done| |by rewrite Hsupp|intros v' Hv'; rewrite Hsupp; by apply Hlt].
  rewrite Hperm in Hin. by eapply elem_of_weighted.
Qed.
