(* ===== verification/CommitVoteMonitor.v ===== *)
(** * Commit vote monitor (consensus/core/src/commit_vote_monitor.rs)

    The highest commit that each authority has voted for, and the highest commit
    that a quorum has reached, which decides when a node has to catch up. *)

From S2P Require Import Prelude Committee Block StakeAggregator Commit QuorumScan.

Definition COMMIT_LAG_MULTIPLIER : N := 5.

Definition is_commit_lagging (ctx : Context) (local_commit_index quorum_commit_index : N) : bool :=
  bool_decide (local_commit_index +₃₂ (commit_sync_batch_size (parameters ctx) *₃₂ COMMIT_LAG_MULTIPLIER)
    < quorum_commit_index)%N.

Record CommitVoteMonitor := mkCommitVoteMonitor {
  cvm_context : Context;
  cvm_highest_voted_commits : list N;
}.

Definition CommitVoteMonitor_new (ctx : Context) : CommitVoteMonitor :=
  mkCommitVoteMonitor ctx (replicate (N.to_nat (Committee_size (committee ctx))) 0%N).

(** One vote of a block of [author]. *)
Definition observe_vote (author : N) (highest : list N) (vote : CommitRef) : outcome (list N) :=
  old ← vec_index highest author;
  if decide (old < cref_index vote)%N then vec_set highest author (cref_index vote) else Done highest.

Definition observe_block (m : CommitVoteMonitor) (block : VerifiedBlock) : outcome CommitVoteMonitor :=
  highest ← for_each (observe_vote (author block)) (cvm_highest_voted_commits m) (commit_votes block);
  Done (mkCommitVoteMonitor (cvm_context m) highest).

Definition quorum_commit_index (m : CommitVoteMonitor) : N :=
  let c := committee (cvm_context m) in
  let highest_voted_commits := stable_sort tuple_ge (weighted c (cvm_highest_voted_commits m)) in
  default GENESIS_COMMIT_INDEX (quorum_scan (quorum_threshold c) 0 highest_voted_commits).

(** ** What the monitor knows *)

(** The authority voted for the commit [v], or for a later one. *)
Definition voted (blocks : list VerifiedBlock) (v a : N) : Prop :=
  v = 0%N ∨ Exists (λ b, author b = a ∧ Exists (λ vote, v ≤ cref_index vote)%N (commit_votes b)) blocks.

#[export] Instance voted_dec blocks v a : Decision (voted blocks v a).
Proof. unfold voted. apply _. Defined.

Definition commit_voters (c : Committee) (blocks : list VerifiedBlock) (v : N) : gset N :=
  filter (voted blocks v) (all_authorities c).

Lemma observe_votes_spec a votes highest :
  (a < lengthN highest)%N →
  ∃ highest', for_each (observe_vote a) highest votes = Done highest' ∧ lengthN highest' = lengthN highest ∧
    ∀ i v, (v ≤ value_at highest' i)%N ↔
      (v ≤ value_at highest i)%N ∨ (i = a ∧ Exists (λ vote, v ≤ cref_index vote)%N votes).
Proof.
  revert highest. induction votes as [|vote votes IH]; intros highest Ha; cbn [for_each].
  { exists highest. split_and!; [done|done|]. intros i v. rewrite Exists_nil. tauto. }
  unfold lengthN in Ha. destruct (lookup_lt_is_Some_2 highest (N.to_nat a)) as [old Hold]; [lia|].
  assert (∃ h1, observe_vote a highest vote = Done h1 ∧ lengthN h1 = lengthN highest ∧
    ∀ i v, (v ≤ value_at h1 i)%N ↔ (v ≤ value_at highest i)%N ∨ (i = a ∧ (v ≤ cref_index vote)%N)) as (h1 & -> & Hlen & Hh1).
  { unfold observe_vote. rewrite (vec_index_some _ _ _ Hold). run_bind. case_decide as Hlt.
    - rewrite vec_set_lt by (by eapply lookup_lt_Some). eexists. split_and!; [done|unfold lengthN; by rewrite length_insert|].
      intros i v. unfold value_at. destruct (decide (i = a)) as [->|Hne].
      + rewrite list_lookup_insert_eq, Hold by (by eapply lookup_lt_Some). cbn. lia.
      + rewrite list_lookup_insert_ne by lia. tauto.
    - exists highest. split_and!; [done|done|]. intros i v. split; [by left|]. intros [?|[-> ?]]; [done|].
      unfold value_at. rewrite Hold. cbn. lia. }
  run_bind. destruct (IH h1) as (h2 & Hrun & Hlen2 & Hh2); [unfold lengthN in *; lia|].
  exists h2. split_and!; [done|congruence|]. intros i v. rewrite Hh2, Hh1, Exists_cons. tauto.
Qed.

Lemma observe_blocks_spec ctx blocks :
  (∀ b, b ∈ blocks → (author b < Committee_size (committee ctx))%N) →
  ∃ m, for_each observe_block (CommitVoteMonitor_new ctx) blocks = Done m ∧ cvm_context m = ctx ∧
    lengthN (cvm_highest_voted_commits m) = Committee_size (committee ctx) ∧
    ∀ a v, (v ≤ value_at (cvm_highest_voted_commits m) a)%N ↔ voted blocks v a.
Proof.
  assert (∀ m l, cvm_context m = ctx → lengthN (cvm_highest_voted_commits m) = Committee_size (committee ctx) →
    (∀ b, b ∈ l → (author b < Committee_size (committee ctx))%N) →
    ∃ m', for_each observe_block m l = Done m' ∧ cvm_context m' = ctx ∧
      lengthN (cvm_highest_voted_commits m') = Committee_size (committee ctx) ∧
      ∀ a v, (v ≤ value_at (cvm_highest_voted_commits m') a)%N ↔ (v ≤ value_at (cvm_highest_voted_commits m) a)%N ∨
        Exists (λ b, author b = a ∧ Exists (λ vote, v ≤ cref_index vote)%N (commit_votes b)) l) as Hgen.
  { intros m l. revert m. induction l as [|b l IH]; intros m Hctx Hlen Hl; cbn [for_each].
    { exists m. split_and!; [done..|]. intros a v. rewrite Exists_nil. tauto. }
    destruct (observe_votes_spec (author b) (commit_votes b) (cvm_highest_voted_commits m))
      as (h & Hvotes & Hh & Hspec); [rewrite Hlen; auto with lists|].
    assert (observe_block m b = Done (mkCommitVoteMonitor (cvm_context m) h)) as -> by (unfold observe_block; by rewrite Hvotes).
    run_bind.
    destruct (IH (mkCommitVoteMonitor (cvm_context m) h)) as (m' & Hrun & Hctx' & Hlen' & Hm'); [done|cbn; congruence|auto with lists|].
    exists m'. split_and!; [done..|]. intros a v. rewrite Hm', Exists_cons. cbn. rewrite Hspec. naive_solver. }
  intros Hl. destruct (Hgen (CommitVoteMonitor_new ctx) blocks) as (m & Hrun & Hctx & Hlen & Hm); [done| |done|].
  { cbn. unfold lengthN. rewrite length_replicate. lia. }
  exists m. split_and!; [done..|]. intros a v. rewrite Hm. unfold voted, value_at. cbn.
  assert (default 0%N (replicate (N.to_nat (Committee_size (committee ctx))) 0%N !! N.to_nat a) = 0%N) as ->.
  { destruct (_ !! _) eqn:Hlk; [|done]. by apply lookup_replicate in Hlk as [-> _]. }
  split; (intros [Hv|?]; [left; lia|by right]).
Qed.

(** ** Properties *)

(** the quorum commit index. After any blocks of committee members, the monitor
    reports the highest commit that authorities with a quorum of stake have voted
    for, where a vote for a commit counts for all earlier ones: a quorum reaches
    it, and no quorum reaches a later commit. With at most [f] faulty stake, a
    commit the monitor reports was voted for by an authority that is not faulty. *)
Theorem quorum_commit_index_exact ctx (c := committee ctx) blocks f :
  committee_ok c → quorums_intersect c f → (∀ b, b ∈ blocks → (author b < Committee_size c)%N) →
  ∃ m, for_each observe_block (CommitVoteMonitor_new ctx) blocks = Done m ∧
    (quorum_threshold c ≤ set_stake c (commit_voters c blocks (quorum_commit_index m)))%N ∧
    (∀ v, quorum_commit_index m < v → set_stake c (commit_voters c blocks v) < quorum_threshold c)%N ∧
    ∀ byz, (set_stake c byz ≤ f)%N → ∃ a, (a < Committee_size c)%N ∧ (a ∉ byz) ∧ voted blocks (quorum_commit_index m) a.
Proof.
  intros Hc Hq Hl. destruct (observe_blocks_spec ctx blocks Hl) as (m & Hrun & Hctx & Hlen & Hm).
  assert (∀ v, supporters c at_least (cvm_highest_voted_commits m) v = commit_voters c blocks v) as Hsupp.
  { intros v. apply set_eq. intros a. rewrite elem_of_supporters. unfold commit_voters, at_least.
    rewrite elem_of_filter, elem_of_all_authorities, Hm. tauto. }
  destruct (scan_spec c at_least (cvm_highest_voted_commits m) (stable_sort tuple_ge (weighted c (cvm_highest_voted_commits m))))
    as (v & Hscan & _ & Hge & Hlt); [done|destruct Hq; lia|apply Hq|done|apply stable_sort_perm| |].
  { eapply sorted_weaken; [|apply stable_sort_sorted; apply _].
    intros x y. unfold tuple_ge, tuple_le, at_least. lia. }
  assert (quorum_commit_index m = v) as Hqc by (unfold quorum_commit_index; rewrite Hctx; fold c; by rewrite Hscan).
  exists m. rewrite Hqc. rewrite Hsupp in Hge. split_and!; [done|done| |].
  - intros v' Hv'. rewrite <- Hsupp. apply Hlt. unfold at_least. lia.
  - intros byz Hbyz. destruct (quorum_intersection c _ _ byz f Hc Hq Hge Hge Hbyz) as (a & Ha & _ & Hn).
    unfold commit_voters in Ha. rewrite elem_of_filter, elem_of_all_authorities in Ha. exists a. tauto.
Qed.

(** Votes of four authorities for the commits 5, 6, 7 and 8. *)
Definition voting_context : Context :=
  Context_new 0 (Some 0%N) committee_4 sample_parameters
    (mkProtocolConfig 1000 10000 100 1 true (Some 1%N) 20 false 600 60).

Definition voting_block (a index : N) : VerifiedBlock :=
  {| signed_block := {| inner := V1 {| v1_epoch := 0; v1_round := 10; v1_author := a;
       v1_timestamp_ms := 0; v1_ancestors := []; v1_transactions := [];
       v1_commit_votes := [mkCommitRef index 0]; v1_misbehavior_reports := [] |}; signature := [] |};
     digest := a; serialized := [] |}.

Lemma quorum_commit_index_exact_witness :
  ∃ m, for_each observe_block (CommitVoteMonitor_new voting_context)
      [voting_block 0 5; voting_block 1 6; voting_block 2 7; voting_block 3 8] = Done m ∧
    quorum_commit_index m = 6%N ∧ is_commit_lagging voting_context 0 (quorum_commit_index m) = false.
Proof.
  destruct (quorum_commit_index_exact voting_context
    [voting_block 0 5; voting_block 1 6; voting_block 2 7; voting_block 3 8] 1) as (m & Hrun & _);
    [exact committee_4_ok|by vm_compute| |].
  { intros b Hb. repeat (apply elem_of_cons in Hb as [->|Hb]; [by vm_compute|]). by apply not_elem_of_nil in Hb. }
  exists m. split; [exact Hrun|]. vm_compute in Hrun. injection Hrun as <-. by vm_compute.
Defined.
