(* ===== verification/RoundTracker.v ===== *)
(** * Round tracker (consensus/core/src/round_tracker.rs)

    The highest rounds that each authority has received and accepted from every
    other one, learnt from blocks and from probes, and the quorum rounds computed
    from them. Metrics are left out. *)

From S2P Require Import Prelude Committee Block StakeAggregator Commit QuorumScan.

(** The range [(low, high)]. *)
Definition QuorumRound : Type := N * N.

Record RoundTracker := mkRoundTracker {
  rt_context : Context;
  rt_block_accepted_rounds : list (list N);
  rt_probed_accepted_rounds : list (list N);
  rt_probed_received_rounds : list (list N);
  rt_local_highest_received_rounds : list N;
}.

Definition RoundTracker_new (ctx : Context) (initial_received_rounds : list N) : outcome RoundTracker :=
  let size := N.to_nat (Committee_size (committee ctx)) in
  local_highest_received_rounds ← match initial_received_rounds with
    | [] => Done (replicate size 0%N)
    | _ => rassert (length initial_received_rounds = size);; Done initial_received_rounds
    end;
  let zeros := replicate size (replicate size 0%N) in
  Done (mkRoundTracker ctx zeros zeros zeros local_highest_received_rounds).

(** [rounds[i] = rounds[i].max(round)]. *)
Definition raise_round (rounds : list N) (i round : N) : outcome (list N) :=
  old ← vec_index rounds i; vec_set rounds i (N.max old round).

Definition raise_row (matrix : list (list N)) (a i round : N) : outcome (list (list N)) :=
  row ← vec_index matrix a; row ← raise_round row i round; vec_set matrix a row.

Definition update_from_verified_block (rt : RoundTracker) (extended_block : ExtendedBlock) : outcome RoundTracker :=
  let block := eb_block extended_block in
  let author := author block in
  local ← raise_round (rt_local_highest_received_rounds rt) author (round block);
  accepted ← raise_row (rt_block_accepted_rounds rt) author author (round block);
  accepted ← for_each (λ m r, raise_row m author (ref_author r) (ref_round r)) accepted (ancestors block);
  accepted ← for_each (λ m r, raise_row m author (ref_author r) (ref_round r)) accepted
    (eb_excluded_ancestors extended_block);
  Done (mkRoundTracker (rt_context rt) accepted (rt_probed_accepted_rounds rt) (rt_probed_received_rounds rt) local).

Definition update_from_probe (rt : RoundTracker) (accepted_rounds received_rounds : list (list N)) : RoundTracker :=
  mkRoundTracker (rt_context rt) (rt_block_accepted_rounds rt) accepted_rounds received_rounds
    (rt_local_highest_received_rounds rt).

Definition compute_quorum_round (c : Committee) (target_index : N) (highest_rounds : list (list N)) : outcome QuorumRound :=
  rounds_with_stake ← mapM (λ '(rounds, (_, authority)), r ← vec_index rounds target_index; Done (r, stake authority))
    (zip highest_rounds (authorities_iter c));
  let rounds_with_stake := stable_sort tuple_le rounds_with_stake in
  let low := default 0%N (quorum_scan (quorum_threshold c) 0 (reverse rounds_with_stake)) in
  let high := default 0%N (quorum_scan (quorum_threshold c) 0 rounds_with_stake) in
  Done (low, high).

Definition highest_accepted_rounds (rt : RoundTracker) : list (list N) :=
  zip_with (zip_with N.max) (rt_probed_accepted_rounds rt) (rt_block_accepted_rounds rt).

Definition compute_accepted_quorum_rounds (rt : RoundTracker) : outcome (list QuorumRound) :=
  let c := committee (rt_context rt) in
  mapM (λ '(peer, _), compute_quorum_round c peer (highest_accepted_rounds rt)) (authorities_iter c).

Definition compute_received_quorum_rounds (rt : RoundTracker) : outcome (list QuorumRound) :=
  let c := committee (rt_context rt) in
  mapM (λ '(peer, _), compute_quorum_round c peer (rt_probed_received_rounds rt)) (authorities_iter c).

Definition calculate_propagation_delay (rt : RoundTracker) (last_proposed_round : N) : outcome N :=
  received_quorum_rounds ← compute_received_quorum_rounds rt;
  accepted_quorum_rounds ← compute_accepted_quorum_rounds rt;
  received ← vec_index received_quorum_rounds (own_index (rt_context rt));
  accepted ← vec_index accepted_quorum_rounds (own_index (rt_context rt));
  Done (N.min (last_proposed_round - received.1) (last_proposed_round - accepted.1))%N.

(** ** Dimensions *)
Section dimensions.
Context (c : Committee).

Definition matrix_ok (m : list (list N)) : Prop :=
  lengthN m = Committee_size c ∧ Forall (λ row, lengthN row = Committee_size c) m.

(** The round that authority [a] reports for [t]. *)
Definition reported (m : list (list N)) (t a : N) : N := value_at (default [] (m !! N.to_nat a)) t.

Lemma column_lookup m t a : matrix_ok m → (a < Committee_size c)%N → (t < Committee_size c)%N →
  ∃ row, m !! N.to_nat a = Some row ∧ row !! N.to_nat t = Some (reported m t a).
Proof.
  intros [Hm Hrows] Ha Ht. unfold Committee_size, lengthN in *.
  destruct (lookup_lt_is_Some_2 m (N.to_nat a)) as [row Hrow]; [lia|].
  rewrite Forall_lookup in Hrows. specialize (Hrows _ _ Hrow).
  destruct (lookup_lt_is_Some_2 row (N.to_nat t)) as [x Hx]; [lia|].
  exists row. split; [done|]. unfold reported, value_at. by rewrite Hrow; cbn; rewrite Hx.
Qed.

Lemma compute_quorum_round_eq m t :
  matrix_ok m → (t < Committee_size c)%N →
  let l := stable_sort tuple_le (weighted c (reported m t <$> rangeN 0 (Committee_size c))) in
  compute_quorum_round c t m = Done (default 0 (quorum_scan (quorum_threshold c) 0 (reverse l)),
    default 0 (quorum_scan (quorum_threshold c) 0 l))%N.
Proof.
  intros Hm Ht l. unfold compute_quorum_round.
  rewrite (mapM_done _ (λ '(rounds, (_, authority)), (value_at rounds t, stake authority))).
  - run_bind. assert ((λ '(rounds, (_, authority)), (value_at rounds t, stake authority)) <$> zip m (authorities_iter c)
      = weighted c (reported m t <$> rangeN 0 (Committee_size c))) as ->; [|done].
    unfold weighted. apply list_eq. intros i. rewrite list_lookup_fmap, !lookup_zip_with, list_lookup_fmap.
    destruct (decide (i < length m)) as [Hi|Hi].
    + destruct (lookup_lt_is_Some_2 m i Hi) as [row Hrow]. rewrite Hrow.
      destruct Hm as [Hlen _]. unfold lengthN in Hlen. rewrite rangeN_lookup by lia.
      assert (reported m t (0 + N.of_nat i) = value_at row t) as Hrep.
      { unfold reported. replace (N.to_nat (0 + N.of_nat i)) with i by lia. by rewrite Hrow. }
      cbn [fmap option_fmap option_map mbind option_bind]. rewrite Hrep. by destruct (authorities_iter c !! i) as [[j x]|].
    + rewrite (lookup_ge_None_2 m) by lia. cbn. rewrite (lookup_ge_None_2 (rangeN _ _)); [done|].
      destruct Hm as [Hlen _]. unfold lengthN in Hlen. rewrite rangeN_length. lia.
  - intros [rounds [j x]] [i Hi]%list_elem_of_lookup. apply lookup_zip_with_Some in Hi as (row & [j' x'] & [= -> -> ->] & Hrow & _).
    destruct Hm as [_ Hrows]. rewrite Forall_lookup in Hrows. specialize (Hrows _ _ Hrow). unfold lengthN in Hrows.
    destruct (lookup_lt_is_Some_2 row (N.to_nat t)) as [y Hy]; [lia|].
    rewrite (vec_index_some _ _ _ Hy). run_bind. unfold value_at. by rewrite Hy.
Qed.

End dimensions.

(** ** Updates *)
Section updates.
Context (c : Committee).

Lemma raise_round_spec rounds i r :
  lengthN rounds = Committee_size c → (i < Committee_size c)%N →
  ∃ rounds', raise_round rounds i r = Done rounds' ∧ lengthN rounds' = Committee_size c ∧
    ∀ j, value_at rounds' j = if decide (j = i) then N.max (value_at rounds i) r else value_at rounds j.
Proof.
  intros Hlen Hi. unfold Committee_size, lengthN in *. destruct (lookup_lt_is_Some_2 rounds (N.to_nat i)) as [x Hx]; [lia|].
  unfold raise_round. rewrite (vec_index_some _ _ _ Hx). run_bind. rewrite vec_set_lt by (by eapply lookup_lt_Some).
  eexists. split_and!; [done|by rewrite length_insert|]. intros j. unfold value_at. case_decide as Hj.
  - subst j. by rewrite list_lookup_insert_eq, Hx by (by eapply lookup_lt_Some).
  - by rewrite list_lookup_insert_ne by lia.
Qed.

Lemma raise_row_spec m a i r :
  matrix_ok c m → (a < Committee_size c)%N → (i < Committee_size c)%N →
  ∃ m', raise_row m a i r = Done m' ∧ matrix_ok c m' ∧
    ∀ t b, reported m' t b = if decide (b = a ∧ t = i) then N.max (reported m i a) r else reported m t b.
Proof.
  intros Hm Ha Hi. destruct (column_lookup c m i a Hm Ha Hi) as (row & Hrow & _). destruct Hm as [Hlen Hrows].
  pose proof (proj1 (Forall_lookup _ _) Hrows _ _ Hrow) as Hrl. unfold raise_row. rewrite (vec_index_some _ _ _ Hrow). run_bind.
  destruct (raise_round_spec row i r Hrl Hi) as (row' & -> & Hrl' & Hrow'). run_bind.
  rewrite vec_set_lt by (by eapply lookup_lt_Some). eexists. split_and!; [done| |].
  - split; [unfold lengthN in *; by rewrite length_insert|]. by apply Forall_insert.
  - intros t b. unfold reported. destruct (decide (b = a)) as [->|Hb].
    + rewrite list_lookup_insert_eq, Hrow by (by eapply lookup_lt_Some). cbn. rewrite Hrow'.
      destruct (decide (t = i)) as [->|]; [by rewrite decide_True|]. by rewrite decide_False by tauto.
    + rewrite list_lookup_insert_ne by lia. by rewrite decide_False by tauto.
Qed.

(** The highest round of [t] among references. *)
Definition highest_ref (l : list BlockRef) (t : N) : N :=
  foldr (λ r acc, if decide (ref_author r = t) then N.max (ref_round r) acc else acc) 0%N l.

Lemma raise_refs_spec a l m :
  matrix_ok c m → (a < Committee_size c)%N → (∀ r, r ∈ l → (ref_author r < Committee_size c)%N) →
  ∃ m', for_each (λ m r, raise_row m a (ref_author r) (ref_round r)) m l = Done m' ∧ matrix_ok c m' ∧
    ∀ t b, reported m' t b = if decide (b = a) then N.max (reported m t a) (highest_ref l t) else reported m t b.
Proof.
  intros Hm Ha. revert m Hm. induction l as [|r l IH]; intros m Hm Hl; cbn [for_each].
  { exists m. split_and!; [done|done|]. intros t b. case_decide as Hb; [subst; cbn; lia|done]. }
  destruct (raise_row_spec m a (ref_author r) (ref_round r)) as (m1 & -> & Hm1 & Hr1); [done|done|auto with lists|]. run_bind.
  destruct (IH m1) as (m2 & Hrun & Hm2 & Hr2); [done|auto with lists|]. exists m2. split_and!; [done|done|].
  intros t b. rewrite Hr2, !Hr1. unfold highest_ref. cbn [foldr]. fold (highest_ref l t). destruct (decide (b = a)) as [->|Hb].
  - destruct (decide (ref_author r = t)) as [<-|Hne].
    + rewrite decide_True by done. lia.
    + rewrite decide_False by (intros [_ ->]; done). done.
  - by rewrite decide_False by tauto.
Qed.

End updates.

(** ** Quorum rounds *)
Section quorum_rounds.
Context (c : Committee) (Hc : committee_ok c) (f : N) (Hq : quorums_intersect c f).

Lemma supporters_reported (R : relation N) `{!RelDecision R} m t v :
  supporters c R (reported m t <$> rangeN 0 (Committee_size c)) v =
  filter (λ a, R (reported m t a) v) (all_authorities c).
Proof.
  apply set_eq. intros a. rewrite elem_of_supporters, elem_of_filter, elem_of_all_authorities.
  assert ((a < Committee_size c)%N → value_at (reported m t <$> rangeN 0 (Committee_size c)) a = reported m t a) as Heq.
  { intros Ha. unfold value_at. rewrite list_lookup_fmap, rangeN_lookup by lia.
    by replace (0 + N.of_nat (N.to_nat a))%N with a by lia. }
  split; [intros [Ha HR]; by rewrite <- Heq|intros [HR Ha]; by rewrite Heq].
Qed.

(** [low] is the highest round that a quorum has reached, [high] the lowest round
    that a quorum has not passed. *)
Lemma compute_quorum_round_spec m t :
  matrix_ok c m → (t < Committee_size c)%N →
  ∃ low high, compute_quorum_round c t m = Done (low, high) ∧
    (quorum_threshold c ≤ set_stake c (filter (λ a, low ≤ reported m t a)%N (all_authorities c)))%N ∧
    (∀ r, (low < r)%N → (set_stake c (filter (λ a, r ≤ reported m t a)%N (all_authorities c)) < quorum_threshold c)%N) ∧
    (quorum_threshold c ≤ set_stake c (filter (λ a, reported m t a ≤ high)%N (all_authorities c)))%N ∧
    (∀ r, (r < high)%N → (set_stake c (filter (λ a, reported m t a ≤ r)%N (all_authorities c)) < quorum_threshold c)%N).
Proof using Hc Hq.
  intros Hm Ht. rewrite compute_quorum_round_eq by done.
  set (values := reported m t <$> rangeN 0 (Committee_size c)). set (l := stable_sort tuple_le (weighted c values)).
  assert (lengthN values = Committee_size c) as Hlen by (unfold values, lengthN; rewrite length_fmap, rangeN_length; lia).
  assert (l ≡ₚ weighted c values) as Hperm by apply stable_sort_perm.
  pose proof (stable_sort_sorted tuple_le (weighted c values)) as Hs. fold l in Hs.
  destruct Hq as [Hq1 Hq2].
  destruct (scan_spec c at_least values (reverse l)) as (low & -> & _ & Hlow & Hlow'); [done|lia|done|done|by rewrite reverse_Permutation| |].
  { apply sorted_reverse. eapply sorted_weaken; [|exact Hs]. intros x y. unfold flip, at_least, tuple_le. lia. }
  destruct (scan_spec c at_most values l) as (high & -> & _ & Hhigh & Hhigh'); [done|lia|done|done|done| |].
  { eapply sorted_weaken; [|exact Hs]. intros x y. unfold at_most, tuple_le. lia. }
  exists low, high. unfold values in *. rewrite supporters_reported in Hlow, Hhigh. split_and!; [done|exact Hlow| |exact Hhigh|].
  - intros r Hr. specialize (Hlow' r). rewrite supporters_reported in Hlow'. apply Hlow'. unfold at_least. lia.
  - intros r Hr. specialize (Hhigh' r). rewrite supporters_reported in Hhigh'. apply Hhigh'. unfold at_most. lia.
Qed.

End quorum_rounds.

(** ** Reachable trackers *)

(** What the tracker learns: a verified block, or the answers to a probe. *)
Inductive tracker_update :=
  | BlockUpdate (extended_block : ExtendedBlock)
  | ProbeUpdate (accepted_rounds received_rounds : list (list N)).

Definition apply_update (rt : RoundTracker) (u : tracker_update) : outcome RoundTracker :=
  match u with
  | BlockUpdate eb => update_from_verified_block rt eb
  | ProbeUpdate accepted received => Done (update_from_probe rt accepted received)
  end.

Definition update_ok (c : Committee) (u : tracker_update) : Prop :=
  match u with
  | BlockUpdate eb => (author (eb_block eb) < Committee_size c)%N ∧
      ∀ r, r ∈ ancestors (eb_block eb) ∨ r ∈ eb_excluded_ancestors eb → (ref_author r < Committee_size c)%N
  | ProbeUpdate accepted received => matrix_ok c accepted ∧ matrix_ok c received
  end.

Record tracker_ok (ctx : Context) (rt : RoundTracker) : Prop := {
  to_context : rt_context rt = ctx;
  to_block : matrix_ok (committee ctx) (rt_block_accepted_rounds rt);
  to_accepted : matrix_ok (committee ctx) (rt_probed_accepted_rounds rt);
  to_received : matrix_ok (committee ctx) (rt_probed_received_rounds rt);
  to_local : lengthN (rt_local_highest_received_rounds rt) = Committee_size (committee ctx);
}.

Lemma zeros_ok c n : N.of_nat n = Committee_size c → matrix_ok c (replicate n (replicate n 0%N)).
Proof.
  intros Hn. split; [unfold lengthN; by rewrite length_replicate|]. apply Forall_replicate. unfold lengthN.
  by rewrite length_replicate.
Qed.

Lemma RoundTracker_new_ok ctx initial :
  initial = [] ∨ lengthN initial = Committee_size (committee ctx) →
  ∃ rt, RoundTracker_new ctx initial = Done rt ∧ tracker_ok ctx rt.
Proof.
  intros Hi. unfold RoundTracker_new. set (n := N.to_nat (Committee_size (committee ctx))).
  assert (N.of_nat n = Committee_size (committee ctx)) as Hn by (unfold n; lia).
  pose proof (zeros_ok (committee ctx) n Hn). destruct initial as [|x l].
  - run_bind. eexists. split; [done|]. split; try done. unfold lengthN. cbn. by rewrite length_replicate.
  - destruct Hi as [?|Hi]; [done|]. rewrite rassert_true by (unfold lengthN in Hi; lia). run_bind.
    eexists. split; [done|]. by split.
Qed.

(** A block raises what its author is known to have accepted, to its own round and
    to the rounds of its ancestors and of the blocks it excluded. *)
Lemma update_from_verified_block_spec ctx rt eb (a := author (eb_block eb)) :
  tracker_ok ctx rt → update_ok (committee ctx) (BlockUpdate eb) →
  ∃ rt', update_from_verified_block rt eb = Done rt' ∧ tracker_ok ctx rt' ∧
    ∀ t b, reported (rt_block_accepted_rounds rt') t b =
      if decide (b = a) then N.max (reported (rt_block_accepted_rounds rt) t a)
        (N.max (if decide (t = a) then round (eb_block eb) else 0)
          (N.max (highest_ref (ancestors (eb_block eb)) t) (highest_ref (eb_excluded_ancestors eb) t)))%N
      else reported (rt_block_accepted_rounds rt) t b.
Proof.
  intros [Hctx Hb Ha Hr Hl] [Hauth Hrefs]. unfold update_from_verified_block. fold a.
  destruct (raise_round_spec (committee ctx) _ a (round (eb_block eb)) Hl Hauth) as (local & -> & Hlen & _). run_bind.
  destruct (raise_row_spec (committee ctx) _ a a (round (eb_block eb)) Hb Hauth Hauth) as (m1 & -> & Hm1 & Hr1). run_bind.
  destruct (raise_refs_spec (committee ctx) a (ancestors (eb_block eb)) m1 Hm1 Hauth) as (m2 & -> & Hm2 & Hr2); [by auto|]. run_bind.
  destruct (raise_refs_spec (committee ctx) a (eb_excluded_ancestors eb) m2 Hm2 Hauth) as (m3 & -> & Hm3 & Hr3); [by auto|]. run_bind.
  eexists. split; [done|]. split; [by split|]. intros t b. cbn [rt_block_accepted_rounds]. rewrite Hr3, !Hr2, !Hr1.
  destruct (decide (b = a)) as [->|Hne]; [rewrite decide_True by done|by rewrite decide_False by tauto].
  destruct (decide (t = a)) as [->|Hne]; [rewrite decide_True by done; lia|]. rewrite decide_False by tauto. lia.
Qed.

Lemma apply_updates_ok ctx rt us :
  tracker_ok ctx rt → (∀ u, u ∈ us → update_ok (committee ctx) u) →
  ∃ rt', for_each apply_update rt us = Done rt' ∧ tracker_ok ctx rt'.
Proof.
  intros Hrt Hus. apply (for_each_total (tracker_ok ctx)); [done|]. intros rt1 [eb|acc rec] Hu Hok.
  - destruct (update_from_verified_block_spec ctx rt1 eb Hok (Hus _ Hu)) as (rt2 & Hrun & Hok2 & _). by exists rt2.
  - destruct (Hus _ Hu) as [Hacc Hrec]. eexists. split; [done|]. destruct Hok. by split.
Qed.

Lemma highest_accepted_ok ctx rt : tracker_ok ctx rt → matrix_ok (committee ctx) (highest_accepted_rounds rt).
Proof.
  intros [_ [Hb1 Hb2] [Ha1 Ha2] _ _]. unfold lengthN in *. split.
  - unfold highest_accepted_rounds, lengthN. rewrite length_zip_with. lia.
  - apply Forall_lookup. intros i row Hrow. unfold highest_accepted_rounds in Hrow.
    apply lookup_zip_with_Some in Hrow as (r1 & r2 & -> & H1 & H2). rewrite Forall_lookup in Ha2, Hb2.
    specialize (Ha2 _ _ H1). specialize (Hb2 _ _ H2). cbn in *. unfold lengthN in *. rewrite length_zip_with. lia.
Qed.

(** All quorum rounds of a matrix. *)
Lemma quorum_rounds_run c f m :
  committee_ok c → quorums_intersect c f → matrix_ok c m →
  ∃ qs, mapM (λ '(peer, _), compute_quorum_round c peer m) (authorities_iter c) = Done qs ∧
    ∀ t, (t < Committee_size c)%N → ∃ q, qs !! N.to_nat t = Some q ∧ compute_quorum_round c t m = Done q.
Proof.
  intros Hc Hq Hm.
  assert (∀ i t x, authorities_iter c !! i = Some (t, x) → t = N.of_nat i ∧ (t < Committee_size c)%N) as Hiter.
  { intros i t x. unfold authorities_iter. rewrite list_lookup_imap. intros (y & Hy & [= -> ->])%fmap_Some.
    split; [done|]. apply lookup_lt_Some in Hy. unfold Committee_size, lengthN. lia. }
  destruct (mapM_total (λ '(peer, _), compute_quorum_round c peer m)
    (λ (p : N * Authority) q, compute_quorum_round c p.1 m = Done q) (authorities_iter c)) as (qs & Hrun & Hqs).
  { intros [t x] [i Hi]%list_elem_of_lookup. destruct (Hiter _ _ _ Hi) as [_ Ht].
    destruct (compute_quorum_round_spec c Hc f Hq m t Hm Ht) as (low & high & Hlh & _). by exists (low, high). }
  exists qs. split; [done|]. intros t Ht.
  destruct (lookup_lt_is_Some_2 (authorities_iter c) (N.to_nat t)) as [[t' x] Hx].
  { unfold authorities_iter. rewrite length_imap. unfold Committee_size, lengthN in Ht. lia. }
  destruct (Hiter _ _ _ Hx) as [-> _]. destruct (Forall2_lookup_l _ _ _ _ _ Hqs Hx) as (q & Hlk & Hcq).
  exists q. split; [done|]. cbn in Hcq. by rewrite N2Nat.id in Hcq.
Qed.

(** ** Properties *)

(** C38: quorum rounds withstand faulty reports. From reports of all authorities, of
    which at most [f] stake is faulty, the quorum round of an authority is a range
    [low ≤ high] within the rounds that non-faulty authorities report, whatever
    the faulty ones report. [low] is the highest round that a quorum has reached
    and [high] the lowest round that a quorum has not passed. *)
Theorem quorum_round_bft c f byz m t lo hi :
  committee_ok c → quorums_intersect c f → (quorum_threshold c + f ≤ total_stake c)%N → (set_stake c byz ≤ f)%N →
  matrix_ok c m → (t < Committee_size c)%N →
  (∀ a, (a < Committee_size c)%N → a ∉ byz → (lo ≤ reported m t a ≤ hi)%N) →
  ∃ low high, compute_quorum_round c t m = Done (low, high) ∧ (lo ≤ low ∧ low ≤ high ∧ high ≤ hi)%N ∧
    (quorum_threshold c ≤ set_stake c (filter (λ a, low ≤ reported m t a)%N (all_authorities c)))%N ∧
    (∀ r, (low < r)%N → (set_stake c (filter (λ a, r ≤ reported m t a)%N (all_authorities c)) < quorum_threshold c)%N) ∧
    (quorum_threshold c ≤ set_stake c (filter (λ a, reported m t a ≤ high)%N (all_authorities c)))%N ∧
    (∀ r, (r < high)%N → (set_stake c (filter (λ a, reported m t a ≤ r)%N (all_authorities c)) < quorum_threshold c)%N).
Proof.
  intros Hc Hq Hf Hbyz Hm Ht Hhonest.
  destruct (compute_quorum_round_spec c Hc f Hq m t Hm Ht) as (low & high & Hrun & Hlow & Hlow' & Hhigh & Hhigh').
  assert (quorum_threshold c ≤ set_stake c (all_authorities c ∖ byz))%N as Hhq.
  { pose proof (set_sum_split (stake_of c) (all_authorities c) byz) as Hsplit.
    pose proof (set_sum_mono (stake_of c) (all_authorities c ∩ byz) byz ltac:(set_solver)) as Hmono.
    pose proof (set_stake_all c) as Hall. pose proof (co_total _ Hc). unfold set_stake in *. lia. }
  exists low, high. split; [done|]. split; [|done].
  assert (∀ X, (∀ a, a ∈ all_authorities c ∖ byz → a ∈ X) → (quorum_threshold c ≤ set_stake c X)%N) as Hsub.
  { intros X HX. etrans; [exact Hhq|]. by apply set_sum_mono. }
  assert (∀ a, a ∈ all_authorities c ∖ byz → (a < Committee_size c)%N ∧ (lo ≤ reported m t a ≤ hi)%N) as Hrange.
  { intros a [Ha%elem_of_all_authorities Hn]%elem_of_difference. by auto. }
  destruct (quorum_intersection c _ _ byz f Hc Hq Hlow Hhigh Hbyz) as (a & [Ha1 _]%elem_of_filter & [Ha2 _]%elem_of_filter & _).
  split_and!; [|lia|].
  - destruct (decide (lo ≤ low)%N) as [|Hlt]; [done|]. exfalso. eapply N.lt_nge; [apply (Hlow' lo); lia|].
    apply Hsub. intros x Hx. apply elem_of_filter. split; [by apply Hrange|set_solver].
  - destruct (decide (high ≤ hi)%N) as [|Hlt]; [done|]. exfalso. eapply N.lt_nge; [apply (Hhigh' hi); lia|].
    apply Hsub. intros x Hx. apply elem_of_filter. split; [by apply Hrange|set_solver].
Qed.

(** the propagation delay. A tracker that was updated with valid blocks and
    complete probes computes the delay of its own blocks without a panic: a
    quorum is known to have received, or to have accepted, an own block within
    the delay of the last proposed round, and no quorum is known to have any
    later one. *)
Theorem propagation_delay_exact ctx (c := committee ctx) f initial us last_proposed :
  committee_ok c → quorums_intersect c f → (own_index ctx < Committee_size c)%N →
  initial = [] ∨ lengthN initial = Committee_size c → (∀ u, u ∈ us → update_ok c u) →
  ∃ rt0 rt delay, RoundTracker_new ctx initial = Done rt0 ∧ for_each apply_update rt0 us = Done rt ∧
    calculate_propagation_delay rt last_proposed = Done delay ∧ (delay ≤ last_proposed)%N ∧
    let reached r m := (quorum_threshold c ≤ set_stake c (filter (λ a, r ≤ reported m (own_index ctx) a)%N (all_authorities c)))%N in
    (reached (last_proposed - delay)%N (rt_probed_received_rounds rt) ∨ reached (last_proposed - delay)%N (highest_accepted_rounds rt)) ∧
    ∀ r, (last_proposed - delay < r ≤ last_proposed)%N →
      ¬ reached r (rt_probed_received_rounds rt) ∧ ¬ reached r (highest_accepted_rounds rt).
Proof.
  intros Hc Hq Hown Hinit Hus. destruct (RoundTracker_new_ok ctx initial Hinit) as (rt0 & Hnew & Hrt0).
  destruct (apply_updates_ok ctx rt0 us Hrt0 Hus) as (rt & Hrun & Hrt). pose proof (to_received _ _ Hrt) as Hrec.
  pose proof (highest_accepted_ok ctx rt Hrt) as Hacc. pose proof (to_context _ _ Hrt) as Hctx.
  destruct (quorum_rounds_run c f _ Hc Hq Hrec) as (qr & Hqr & Hqr'). destruct (Hqr' _ Hown) as (q1 & Hq1 & Hc1).
  destruct (quorum_rounds_run c f _ Hc Hq Hacc) as (qa & Hqa & Hqa'). destruct (Hqa' _ Hown) as (q2 & Hq2 & Hc2).
  destruct (compute_quorum_round_spec c Hc f Hq _ _ Hrec Hown) as (l1 & h1 & Heq1 & Hl1 & Hl1' & _).
  destruct (compute_quorum_round_spec c Hc f Hq _ _ Hacc Hown) as (l2 & h2 & Heq2 & Hl2 & Hl2' & _).
  rewrite Hc1 in Heq1. injection Heq1 as ->. rewrite Hc2 in Heq2. injection Heq2 as ->.
  exists rt0, rt, (N.min (last_proposed - l1) (last_proposed - l2))%N. split_and!; [done|done| |lia|].
  - unfold calculate_propagation_delay, compute_received_quorum_rounds, compute_accepted_quorum_rounds. rewrite Hctx. fold c.
    rewrite Hqr. run_bind. rewrite Hqa. run_bind. unfold QuorumRound in *.
    by rewrite (vec_index_some _ _ _ Hq1), (vec_index_some _ _ _ Hq2).
  - assert (∀ m r r', (r ≤ r')%N →
      (set_stake c (filter (λ a, r' ≤ reported m (own_index ctx) a)%N (all_authorities c)) ≤
       set_stake c (filter (λ a, r ≤ reported m (own_index ctx) a)%N (all_authorities c)))%N) as Hmono.
    { intros m r r' Hr. apply set_sum_mono. intros a. rewrite !elem_of_filter. intros [? ?]. split; [lia|done]. }
    cbn. split.
    + destruct (decide (l1 ≤ l2)%N) as [Hle|Hle]; [right; etrans; [exact Hl2|]|left; etrans; [exact Hl1|]]; apply Hmono; lia.
    + intros r Hr. specialize (Hl1' r ltac:(lia)). specialize (Hl2' r ltac:(lia)). lia.
Qed.

(** ** Concrete reports *)
Definition sample_reports : list (list N) := [[10; 11; 12; 13]; [5; 2; 7; 4]; [0; 0; 0; 0]; [3; 4; 5; 6]]%N.

Lemma quorum_round_bft_witness :
  ∃ low high, compute_quorum_round committee_4 0 sample_reports = Done (low, high) ∧ (3 ≤ low ∧ high ≤ 10)%N ∧
    (low, high) = (3, 5)%N.
Proof.
  destruct (quorum_round_bft committee_4 1 {[2%N]} sample_reports 0 3 10) as (low & high & Hrun & Hrange & _);
    [exact committee_4_ok|by vm_compute|by vm_compute|by vm_compute|split; [reflexivity|repeat constructor]|by vm_compute| |].
  { intros a Ha Hn. change (a < 4)%N in Ha. assert (a = 0 ∨ a = 1 ∨ a = 2 ∨ a = 3)%N as Hcases by lia.
    destruct Hcases as [->|[->|[->| ->]]]; by vm_compute. }
  exists low, high. split; [exact Hrun|]. split; [lia|]. vm_compute in Hrun. by injection Hrun as <- <-.
Defined.

Definition tracker_context : Context :=
  Context_new 0 (Some 0%N) committee_4 sample_parameters
    (mkProtocolConfig 1000 10000 100 1 true (Some 1%N) 20 false 600 60).

Lemma propagation_delay_exact_witness :
  ∃ rt0 rt, RoundTracker_new tracker_context [] = Done rt0 ∧
    for_each apply_update rt0 [ProbeUpdate sample_reports sample_reports;
      BlockUpdate (mkExtendedBlock (sample_block 9 1 91 [mkBlockRef 8 0 80; mkBlockRef 7 2 72]) [mkBlockRef 8 3 83])] = Done rt ∧
    calculate_propagation_delay rt 10 = Done 7%N.
Proof.
  destruct (propagation_delay_exact tracker_context 1 [] [ProbeUpdate sample_reports sample_reports;
      BlockUpdate (mkExtendedBlock (sample_block 9 1 91 [mkBlockRef 8 0 80; mkBlockRef 7 2 72]) [mkBlockRef 8 3 83])] 10)
    as (rt0 & rt & delay & Hnew & Hrun & Hdelay & _); [exact committee_4_ok|by vm_compute|by vm_compute|by left| |].
  { intros u [->|[->|[]%not_elem_of_nil]%elem_of_cons]%elem_of_cons.
    - split; (split; [reflexivity|repeat constructor]).
    - split; [by vm_compute|]. intros r Hr.
      assert (r ∈ [mkBlockRef 8 0 80; mkBlockRef 7 2 72; mkBlockRef 8 3 83]) as Hin by (revert Hr; cbn; set_solver).
      repeat (apply elem_of_cons in Hin as [->|Hin]; [by vm_compute|]). by apply not_elem_of_nil in Hin. }
  exists rt0, rt. split; [exact Hnew|]. split; [exact Hrun|]. rewrite Hdelay.
  vm_compute in Hnew. injection Hnew as <-. vm_compute in Hrun. injection Hrun as <-. vm_compute in Hdelay. exact (eq_sym Hdelay).
Defined.
