(* ===== verification/AncestorState.v ===== *)
(** * Ancestor state (consensus/core/src/ancestor.rs)

    Which authorities a node includes as ancestors of its blocks: authorities with
    low propagation scores are excluded, up to a stake threshold, and every change
    locks the state of the authority for some rounds. The dag state, which the
    code reaches through a shared lock, is an argument. *)

From S2P Require Import Prelude Committee Block StakeAggregator ThresholdClock Commit Store LeaderScoring.
From S2P Require Import DagState DagInvariant DagDurability QuorumScan RoundTracker.

Inductive AncestorState :=
  | Include
  | Exclude (score : N).

Record AncestorInfo := mkAncestorInfo {
  ai_state : AncestorState;
  ai_lock_until_round : N;
}.

Definition AncestorInfo_new : AncestorInfo := mkAncestorInfo Include 0.

Definition is_locked (info : AncestorInfo) (current_clock_round : N) : bool :=
  bool_decide (current_clock_round ≤ ai_lock_until_round info)%N.

Record StateTransition := mkStateTransition {
  st_authority_id : N;
  st_score : N;
  st_stake : N;
  st_high_quorum_round : N;
}.

Record AncestorStateManager := mkAncestorStateManager {
  am_context : Context;
  am_state_map : list AncestorInfo;
  am_excluded_nodes_stake_threshold : N;
  am_total_excluded_stake : N;
  am_propagation_scores : ReputationScores;
}.

Definition STATE_LOCK_CLOCK_ROUNDS : N := 450.
Definition SCORE_EXCLUSION_THRESHOLD_PERCENTAGE : N := 20.

Definition AncestorStateManager_new (ctx : Context) : AncestorStateManager :=
  let percentage := ((2 *₆₄ bad_nodes_stake_threshold (protocol_config ctx)) `div` 3)%N in
  mkAncestorStateManager ctx
    (replicate (N.to_nat (Committee_size (committee ctx))) AncestorInfo_new)
    ((percentage *₆₄ total_stake (committee ctx)) `div` 100)%N
    0 ReputationScores_default.

Definition set_propagation_scores (m : AncestorStateManager) (scores : ReputationScores) : AncestorStateManager :=
  mkAncestorStateManager (am_context m) (am_state_map m) (am_excluded_nodes_stake_threshold m)
    (am_total_excluded_stake m) scores.

Definition get_ancestor_states (m : AncestorStateManager) : list AncestorState := ai_state <$> am_state_map m.

Definition calculate_network_high_quorum_round (m : AncestorStateManager) (accepted_quorum_rounds : list QuorumRound) : N :=
  let c := committee (am_context m) in
  default 0%N (quorum_scan (quorum_threshold c) 0
    (stable_sort tuple_le (weighted c (snd <$> accepted_quorum_rounds)))).

Definition apply_state_change (new_state_of : StateTransition → AncestorState) (current_clock_round : N)
    (m : AncestorStateManager) (transition : StateTransition) : outcome AncestorStateManager :=
  let new_state := new_state_of transition in
  authority (committee (am_context m)) (st_authority_id transition);;
  info ← vec_index (am_state_map m) (st_authority_id transition);
  total_excluded_stake ← match ai_state info, new_state with
    | Exclude _, Include =>
        rassert (st_stake transition ≤ am_total_excluded_stake m)%N;;
        Done (am_total_excluded_stake m - st_stake transition)%N
    | Include, Exclude _ => Done (am_total_excluded_stake m +₆₄ st_stake transition)
    | _, _ => Panic
    end;
  state_map ← vec_set (am_state_map m) (st_authority_id transition)
    (mkAncestorInfo new_state (current_clock_round +₃₂ STATE_LOCK_CLOCK_ROUNDS));
  Done (mkAncestorStateManager (am_context m) state_map (am_excluded_nodes_stake_threshold m)
    total_excluded_stake (am_propagation_scores m)).

(** The iteration of the loop that collects the transitions, as the pair
    [(exclude_to_include, include_to_exclude)]. *)
Definition collect_transition (m : AncestorStateManager) (accepted_quorum_rounds : list QuorumRound)
    (current_clock_round low_score_threshold network_high_quorum_round : N)
    (acc : list StateTransition * list StateTransition) (x : N * N) :
    outcome (list StateTransition * list StateTransition) :=
  let '(idx, score) := x in
  let '(exclude_to_include, include_to_exclude) := acc in
  authority_id ← unwrap (to_authority_index (committee (am_context m)) idx);
  ancestor_info ← vec_index (am_state_map m) idx;
  '(_, authority_high_quorum_round) ← vec_index accepted_quorum_rounds idx;
  a ← authority (committee (am_context m)) authority_id;
  let transition := mkStateTransition authority_id score (stake a) authority_high_quorum_round in
  if is_locked ancestor_info current_clock_round then Done acc
  else match ai_state ancestor_info with
  | Include =>
      if decide (score ≤ low_score_threshold)%N
      then Done (exclude_to_include, include_to_exclude ++ [transition]) else Done acc
  | Exclude _ =>
      if decide (low_score_threshold < score ∨ network_high_quorum_round ≤ authority_high_quorum_round)%N
      then Done (exclude_to_include ++ [transition], include_to_exclude) else Done acc
  end.

(** [sort_by_key(|t| t.score)]. *)
Definition score_le (a b : StateTransition) : Prop := (st_score a ≤ st_score b)%N.

#[export] Instance score_le_dec : RelDecision score_le.
Proof. intros a b. unfold score_le. apply _. Defined.

(** An exclusion that would exceed the threshold is skipped. *)
Definition try_exclude (current_clock_round : N) (m : AncestorStateManager) (transition : StateTransition) :
    outcome AncestorStateManager :=
  if decide (am_total_excluded_stake m +₆₄ st_stake transition ≤ am_excluded_nodes_stake_threshold m)%N
  then apply_state_change (λ t, Exclude (st_score t)) current_clock_round m transition
  else Done m.

Definition update_all_ancestors_state {S} (m : AncestorStateManager) (ds : DagState S)
    (accepted_quorum_rounds : list QuorumRound) : outcome AncestorStateManager :=
  let network_high_quorum_round := calculate_network_high_quorum_round m accepted_quorum_rounds in
  let current_clock_round := threshold_clock_round ds in
  let low_score_threshold :=
    ((highest_score (am_propagation_scores m) *₆₄ SCORE_EXCLUSION_THRESHOLD_PERCENTAGE) `div` 100)%N in
  '(exclude_to_include, include_to_exclude) ← for_each
    (collect_transition m accepted_quorum_rounds current_clock_round low_score_threshold network_high_quorum_round)
    ([], []) (imap (λ i score, (N.of_nat i, score)) (scores_per_authority (am_propagation_scores m)));
  m ← for_each (apply_state_change (λ _, Include) current_clock_round) m exclude_to_include;
  for_each (try_exclude current_clock_round) m (stable_sort score_le include_to_exclude).

(** ** Invariant *)
Section invariant.
Context (ctx : Context) (Hc : committee_ok (committee ctx)).
Let c := committee ctx.
Implicit Types m : AncestorStateManager.

Definition excluded (info : AncestorInfo) : bool :=
  match ai_state info with Exclude _ => true | Include => false end.

(** The excluded authorities. *)
Definition excluded_set (l : list AncestorInfo) : gset N :=
  filter (λ a, (excluded <$> l !! N.to_nat a) = Some true) (all_authorities c).

(** The running total is the stake of the excluded authorities and never exceeds
    the threshold. *)
Record manager_ok m : Prop := {
  mo_context : am_context m = ctx;
  mo_len : lengthN (am_state_map m) = Committee_size c;
  mo_total : am_total_excluded_stake m = set_stake c (excluded_set (am_state_map m));
  mo_bound : (am_total_excluded_stake m ≤ am_excluded_nodes_stake_threshold m)%N;
}.

Lemma elem_of_excluded_set l a :
  lengthN l = Committee_size c → a ∈ excluded_set l ↔ ∃ i, l !! N.to_nat a = Some i ∧ excluded i = true.
Proof.
  intros Hlen. unfold excluded_set. rewrite elem_of_filter, elem_of_all_authorities, fmap_Some.
  split; [naive_solver|]. intros (i & Hi & He). split; [naive_solver|].
  apply lookup_lt_Some in Hi. unfold Committee_size, lengthN in *. lia.
Qed.

(** Changing one entry. *)
Lemma excluded_set_insert l a i :
  lengthN l = Committee_size c → (a < Committee_size c)%N →
  excluded_set (<[N.to_nat a := i]> l) = if excluded i then {[a]} ∪ excluded_set l else excluded_set l ∖ {[a]}.
Proof.
  intros Hlen Ha. apply set_eq. intros b. rewrite elem_of_excluded_set by (unfold lengthN in *; by rewrite length_insert).
  assert (N.to_nat a < length l) as Hlt by (unfold Committee_size, lengthN in *; lia).
  assert (b ∈ (if excluded i then {[a]} ∪ excluded_set l else excluded_set l ∖ {[a]}) ↔
    (b = a ∧ excluded i = true) ∨ (b ≠ a ∧ b ∈ excluded_set l)) as ->.
  { destruct (excluded i); [|set_solver]. rewrite elem_of_union, elem_of_singleton. destruct (decide (b = a)); naive_solver. }
  destruct (decide (b = a)) as [->|Hne].
  - rewrite list_lookup_insert_eq by done. naive_solver.
  - rewrite list_lookup_insert_ne by lia. rewrite elem_of_excluded_set by done. naive_solver.
Qed.

Lemma set_stake_insert X a : a ∉ X → set_stake c ({[a]} ∪ X) = (stake_of c a + set_stake c X)%N.
Proof. intros Ha. unfold set_stake. by rewrite set_sum_insert. Qed.

(** What a change of state does: one entry, and the total with it. *)
Definition changed m (t : StateTransition) (st : AncestorState) (clock : N) m' : Prop :=
  am_state_map m' = <[N.to_nat (st_authority_id t) := mkAncestorInfo st (clock +₃₂ STATE_LOCK_CLOCK_ROUNDS)]> (am_state_map m) ∧
  am_excluded_nodes_stake_threshold m' = am_excluded_nodes_stake_threshold m ∧
  am_propagation_scores m' = am_propagation_scores m.

(** A transition of a committee member with its stake. *)
Definition transition_ok (t : StateTransition) : Prop :=
  (st_authority_id t < Committee_size c)%N ∧ st_stake t = stake_of c (st_authority_id t).

Lemma include_spec m t clock i :
  manager_ok m → transition_ok t → am_state_map m !! N.to_nat (st_authority_id t) = Some i → excluded i = true →
  ∃ m', apply_state_change (λ _, Include) clock m t = Done m' ∧ manager_ok m' ∧ changed m t Include clock m' ∧
    am_total_excluded_stake m = (am_total_excluded_stake m' + st_stake t)%N.
Proof using Hc.
  intros [Hctx Hlen Htot Hb] [Ha Hst] Hi Hex. set (a := st_authority_id t) in *.
  assert (a ∈ excluded_set (am_state_map m)) as Hin by (apply elem_of_excluded_set; [done|by exists i]).
  assert (am_total_excluded_stake m = stake_of c a + set_stake c (excluded_set (am_state_map m) ∖ {[a]}))%N as Hsplit.
  { rewrite Htot, <- set_stake_insert by set_solver. f_equal. apply set_eq. intros x.
    destruct (decide (x = a)) as [->|]; set_solver. }
  unfold apply_state_change. fold a. rewrite Hctx. fold c.
  destruct (lookup_lt_is_Some_2 (authorities c) (N.to_nat a)) as [x Hx]; [unfold Committee_size, lengthN in *; lia|].
  unfold authority. rewrite (vec_index_some _ _ _ Hx). run_bind. rewrite (vec_index_some _ _ _ Hi). run_bind.
  unfold excluded in Hex. destruct (ai_state i) as [|s]; [done|].
  rewrite rassert_true by (rewrite Hst, Hsplit; lia). run_bind. rewrite vec_set_lt by (by eapply lookup_lt_Some). run_bind.
  eexists. split; [done|]. split_and!; [|done|cbn; lia]. split; cbn; [done|unfold lengthN in *; by rewrite length_insert| |lia].
  rewrite excluded_set_insert by done. cbn. rewrite Hst, Hsplit. lia.
Qed.

Lemma exclude_spec m t clock i :
  manager_ok m → transition_ok t → am_state_map m !! N.to_nat (st_authority_id t) = Some i → excluded i = false →
  ∃ m', try_exclude clock m t = Done m' ∧ manager_ok m' ∧ (am_total_excluded_stake m ≤ am_total_excluded_stake m')%N ∧
    ((changed m t (Exclude (st_score t)) clock m') ∨
     (m' = m ∧ (am_excluded_nodes_stake_threshold m < am_total_excluded_stake m + st_stake t)%N)).
Proof using Hc.
  intros Hok [Ha Hst] Hi Hex. pose proof Hok as [Hctx Hlen Htot Hb]. set (a := st_authority_id t) in *.
  assert (a ∉ excluded_set (am_state_map m)) as Hnin.
  { rewrite elem_of_excluded_set by done. intros (i' & Hi' & He'). congruence. }
  assert (set_stake c ({[a]} ∪ excluded_set (am_state_map m)) = am_total_excluded_stake m + st_stake t)%N as Hadd.
  { rewrite set_stake_insert, Hst, Htot by done. lia. }
  assert (am_total_excluded_stake m + st_stake t < u64_modulus)%N as Hw.
  { rewrite <- Hadd. pose proof (set_stake_le_total c ({[a]} ∪ excluded_set (am_state_map m))).
    pose proof (co_total c Hc). pose proof (co_bound c Hc). lia. }
  unfold try_exclude. rewrite wrap_add_small by done. case_decide as Hfit.
  2: { exists m. split_and!; [done|done|done|]. right. split; [done|lia]. }
  unfold apply_state_change. fold a. rewrite Hctx. fold c.
  destruct (lookup_lt_is_Some_2 (authorities c) (N.to_nat a)) as [x Hx]; [unfold Committee_size, lengthN in *; lia|].
  unfold authority. rewrite (vec_index_some _ _ _ Hx). run_bind. rewrite (vec_index_some _ _ _ Hi). run_bind.
  unfold excluded in Hex. destruct (ai_state i) as [|s]; [|done]. run_bind.
  rewrite wrap_add_small, vec_set_lt by (done || by eapply lookup_lt_Some). run_bind.
  eexists. split; [done|]. split_and!; [|cbn; lia|by left]. split; cbn; [done|unfold lengthN in *; by rewrite length_insert| |done].
  rewrite excluded_set_insert by done. cbn. by rewrite Hadd.
Qed.

(** ** The transitions of an update *)
Definition info_of m (a : N) : AncestorInfo := default AncestorInfo_new (am_state_map m !! N.to_nat a).

Definition wants_in m (clock low net : N) (t : StateTransition) : Prop :=
  is_locked (info_of m (st_authority_id t)) clock = false ∧ excluded (info_of m (st_authority_id t)) = true ∧
  (low < st_score t ∨ net ≤ st_high_quorum_round t)%N.

Definition wants_out m (clock low : N) (t : StateTransition) : Prop :=
  is_locked (info_of m (st_authority_id t)) clock = false ∧ excluded (info_of m (st_authority_id t)) = false ∧
  (st_score t ≤ low)%N.

#[export] Instance wants_in_dec m clock low net t : Decision (wants_in m clock low net t).
Proof. unfold wants_in. apply _. Defined.
#[export] Instance wants_out_dec m clock low t : Decision (wants_out m clock low t).
Proof. unfold wants_out. apply _. Defined.

Definition transition_of (qs : list QuorumRound) (x : N * N) : StateTransition :=
  mkStateTransition x.1 x.2 (stake_of c x.1) (default (0, 0)%N (qs !! N.to_nat x.1)).2.

Lemma info_of_lookup m a : manager_ok m → (a < Committee_size c)%N → am_state_map m !! N.to_nat a = Some (info_of m a).
Proof.
  intros Hok Ha. pose proof (mo_len _ Hok) as Hlen. unfold info_of.
  destruct (lookup_lt_is_Some_2 (am_state_map m) (N.to_nat a)) as [i Hi]; [unfold Committee_size, lengthN in *; lia|].
  by rewrite Hi.
Qed.

Lemma collect_transition_spec m qs clock low net ei ie x :
  manager_ok m → lengthN qs = Committee_size c → (x.1 < Committee_size c)%N →
  collect_transition m qs clock low net (ei, ie) x =
    Done (ei ++ filter (wants_in m clock low net) [transition_of qs x], ie ++ filter (wants_out m clock low) [transition_of qs x]).
Proof.
  intros Hok Hqs Hx. destruct x as [idx score]. cbn in Hx. unfold collect_transition. rewrite (mo_context _ Hok). fold c.
  unfold to_authority_index. rewrite decide_True by done. cbn [unwrap]. run_bind.
  rewrite (vec_index_some _ _ _ (info_of_lookup m idx Hok Hx)). run_bind.
  destruct (lookup_lt_is_Some_2 qs (N.to_nat idx)) as [[lo hi] Hq]; [unfold Committee_size, lengthN in *; lia|].
  rewrite (vec_index_some _ _ _ Hq). run_bind.
  destruct (lookup_lt_is_Some_2 (authorities c) (N.to_nat idx)) as [x Hx']; [unfold Committee_size, lengthN in *; lia|].
  unfold authority. rewrite (vec_index_some _ _ _ Hx'). run_bind.
  assert (transition_of qs (idx, score) = mkStateTransition idx score (stake x) hi) as ->.
  { unfold transition_of, stake_of. cbn [fst snd]. unfold QuorumRound in *. by rewrite Hq, Hx'. }
  set (t := mkStateTransition idx score (stake x) hi).
  assert (∀ (P : StateTransition → Prop) `{!∀ t, Decision (P t)}, filter P [t] = if decide (P t) then [t] else []) as Hf.
  { intros P ?. rewrite filter_cons. by case_decide. }
  rewrite !Hf. clear Hf.
  assert (wants_in m clock low net t ↔ is_locked (info_of m idx) clock = false ∧ excluded (info_of m idx) = true ∧
    (low < score ∨ net ≤ hi)%N) as Hin by done.
  assert (wants_out m clock low t ↔ is_locked (info_of m idx) clock = false ∧ excluded (info_of m idx) = false ∧
    (score ≤ low)%N) as Hout by done.
  destruct (is_locked (info_of m idx) clock) eqn:Hlk.
  { rewrite !decide_False by (rewrite ?Hin, ?Hout; naive_solver). by rewrite !app_nil_r. }
  unfold excluded in Hin, Hout. destruct (ai_state (info_of m idx)) as [|s] eqn:Hst.
  - rewrite (decide_False (P := wants_in _ _ _ _ _)) by (rewrite Hin; naive_solver). rewrite app_nil_r.
    destruct (decide (score ≤ low)%N); [by rewrite decide_True by (by rewrite Hout)|].
    rewrite decide_False by (rewrite Hout; naive_solver). by rewrite app_nil_r.
  - rewrite (decide_False (P := wants_out _ _ _ _)) by (rewrite Hout; naive_solver). rewrite app_nil_r.
    destruct (decide (low < score ∨ net ≤ hi)%N); [by rewrite decide_True by (by rewrite Hin)|].
    rewrite decide_False by (rewrite Hin; naive_solver). by rewrite app_nil_r.
Qed.

Lemma collect_transitions_spec m qs clock low net l ei ie :
  manager_ok m → lengthN qs = Committee_size c → (∀ x, x ∈ l → (x.1 < Committee_size c)%N) →
  for_each (collect_transition m qs clock low net) (ei, ie) l =
    Done (ei ++ filter (wants_in m clock low net) (transition_of qs <$> l),
          ie ++ filter (wants_out m clock low) (transition_of qs <$> l)).
Proof.
  intros Hok Hqs. revert ei ie. induction l as [|x l IH]; intros ei ie Hl; cbn [for_each].
  { by rewrite !app_nil_r. }
  rewrite collect_transition_spec by (done || auto with lists). run_bind. rewrite IH by auto with lists.
  change (transition_of qs <$> x :: l) with ([transition_of qs x] ++ (transition_of qs <$> l)).
  by rewrite !filter_app, <- !app_assoc.
Qed.

Lemma changed_info m t st clock m' b :
  manager_ok m → transition_ok t → changed m t st clock m' →
  info_of m' b = if decide (b = st_authority_id t) then mkAncestorInfo st (clock +₃₂ STATE_LOCK_CLOCK_ROUNDS) else info_of m b.
Proof.
  intros Hok [Ha _] [Hmap _]. pose proof (mo_len _ Hok) as Hlen. unfold info_of. rewrite Hmap. case_decide as Hb.
  - subst b. rewrite list_lookup_insert_eq; [done|]. unfold Committee_size, lengthN in *. lia.
  - by rewrite list_lookup_insert_ne by lia.
Qed.

(** What the loops leave alone. *)
Definition same_config m m' : Prop :=
  am_excluded_nodes_stake_threshold m' = am_excluded_nodes_stake_threshold m ∧
  am_propagation_scores m' = am_propagation_scores m.

Lemma include_loop_spec clock l m :
  manager_ok m → NoDup (st_authority_id <$> l) → (∀ t, t ∈ l → transition_ok t) →
  (∀ t, t ∈ l → excluded (info_of m (st_authority_id t)) = true) →
  ∃ m', for_each (apply_state_change (λ _, Include) clock) m l = Done m' ∧ manager_ok m' ∧ same_config m m' ∧
    ∀ a, info_of m' a = if decide (a ∈ st_authority_id <$> l)
      then mkAncestorInfo Include (clock +₃₂ STATE_LOCK_CLOCK_ROUNDS) else info_of m a.
Proof using Hc.
  revert m. induction l as [|t l IH]; intros m Hok Hnd Ht Hex; cbn [for_each].
  { exists m. split_and!; [done|done|done|]. intros a. rewrite decide_False; [done|apply not_elem_of_nil]. }
  apply NoDup_cons in Hnd as [Hnt Hnd]. assert (transition_ok t) as Htok by auto with lists.
  destruct (include_spec m t clock (info_of m (st_authority_id t))) as (m1 & -> & Hok1 & Hch & _);
    [done|done|apply info_of_lookup; [done|apply Htok]|auto with lists|]. run_bind.
  pose proof (λ b, changed_info m t Include clock m1 b Hok Htok Hch) as Hinfo.
  destruct (IH m1) as (m2 & Hrun & Hok2 & Hsame & Hinfo2); [done|done|auto with lists| |].
  { intros t' Ht'. rewrite Hinfo, decide_False; [auto with lists|]. intros Heq. apply Hnt. rewrite <- Heq.
    by apply list_elem_of_fmap_2. }
  exists m2. split_and!; [done|done| |].
  - destruct Hsame as [? ?], Hch as (_ & ? & ?). split; congruence.
  - intros a. rewrite Hinfo2, Hinfo. cbn [fmap list_fmap]. destruct (decide (a ∈ st_authority_id <$> l)) as [Hin|Hin].
    + rewrite decide_True; [done|]. by apply list_elem_of_further.
    + destruct (decide (a = st_authority_id t)) as [->|Hne].
      * rewrite decide_True; [done|apply list_elem_of_here].
      * rewrite decide_False; [done|]. rewrite elem_of_cons. tauto.
Qed.

Lemma exclude_loop_spec clock l m :
  manager_ok m → NoDup (st_authority_id <$> l) → (∀ t, t ∈ l → transition_ok t) →
  (∀ t, t ∈ l → excluded (info_of m (st_authority_id t)) = false) →
  ∃ m', for_each (try_exclude clock) m l = Done m' ∧ manager_ok m' ∧ same_config m m' ∧
    (am_total_excluded_stake m ≤ am_total_excluded_stake m')%N ∧
    (∀ a, a ∉ st_authority_id <$> l → info_of m' a = info_of m a) ∧
    (∀ t, t ∈ l →
      info_of m' (st_authority_id t) = mkAncestorInfo (Exclude (st_score t)) (clock +₃₂ STATE_LOCK_CLOCK_ROUNDS) ∨
      (info_of m' (st_authority_id t) = info_of m (st_authority_id t) ∧
       (am_excluded_nodes_stake_threshold m < am_total_excluded_stake m' + st_stake t)%N)).
Proof using Hc.
  revert m. induction l as [|t l IH]; intros m Hok Hnd Ht Hex; cbn [for_each].
  { exists m. split_and!; [done|done|done|done|done|by intros t []%not_elem_of_nil]. }
  apply NoDup_cons in Hnd as [Hnt Hnd]. assert (transition_ok t) as Htok by auto with lists.
  destruct (exclude_spec m t clock (info_of m (st_authority_id t))) as (m1 & -> & Hok1 & Hle & Hcase);
    [done|done|apply info_of_lookup; [done|apply Htok]|auto with lists|]. run_bind.
  assert (same_config m m1 ∧ ∀ b, b ≠ st_authority_id t → info_of m1 b = info_of m b) as [Hsame1 Hother].
  { destruct Hcase as [Hch|[-> _]]; [|done]. split; [by destruct Hch as (_ & ? & ?)|]. intros b Hb.
    by rewrite (changed_info m t _ clock m1 b Hok Htok Hch), decide_False. }
  destruct (IH m1) as (m2 & Hrun & Hok2 & Hsame2 & Hle2 & Hout & Hin); [done|done|auto with lists| |].
  { intros t' Ht'. rewrite Hother; [auto with lists|]. intros Heq. apply Hnt. rewrite <- Heq. by apply list_elem_of_fmap_2. }
  assert (info_of m2 (st_authority_id t) = info_of m1 (st_authority_id t)) as Hkeep by (by apply Hout).
  destruct Hsame1 as [Hth1 Hsc1], Hsame2 as [Hth2 Hsc2]. exists m2. split_and!; [done|done|split; congruence|lia| |].
  - intros a. cbn [fmap list_fmap]. rewrite not_elem_of_cons. intros [Hne Ha]. by rewrite Hout, Hother.
  - intros t' [->|Ht']%elem_of_cons.
    + rewrite Hkeep. destruct Hcase as [Hch|[-> Hlt]].
      * left. by rewrite (changed_info m t _ clock m1 _ Hok Htok Hch), decide_True.
      * right. split; [done|lia].
    + destruct (Hin t' Ht') as [->|[-> Hlt]]; [by left|right]. rewrite Hth1 in Hlt. split; [|done]. apply Hother.
      intros Heq. apply Hnt. rewrite <- Heq. by apply list_elem_of_fmap_2.
Qed.

(** The transitions that the scores give rise to, one per authority. *)
Definition score_entries m : list (N * N) :=
  imap (λ i score, (N.of_nat i, score)) (scores_per_authority (am_propagation_scores m)).

Lemma elem_of_score_entries m a s :
  (a, s) ∈ score_entries m ↔ scores_per_authority (am_propagation_scores m) !! N.to_nat a = Some s.
Proof.
  unfold score_entries. rewrite list_elem_of_lookup. setoid_rewrite list_lookup_imap. split.
  - intros (i & (x & Hx & [= -> ->])%fmap_Some). by rewrite Nat2N.id.
  - intros Hs. exists (N.to_nat a). by rewrite Hs, N2Nat.id.
Qed.

Lemma transition_ids m qs : NoDup (st_authority_id <$> (transition_of qs <$> score_entries m)).
Proof.
  rewrite <- list_fmap_compose. unfold score_entries. rewrite fmap_imap. apply NoDup_alt. intros i j a.
  rewrite !list_lookup_imap. intros (x & _ & ->)%fmap_Some (y & _ & Heq)%fmap_Some. cbn in Heq. lia.
Qed.

(** A transition is determined by its authority. *)
Lemma transition_inj m qs t t' :
  t ∈ transition_of qs <$> score_entries m → t' ∈ transition_of qs <$> score_entries m →
  st_authority_id t = st_authority_id t' → t = t'.
Proof.
  intros ([a s] & -> & Ha%elem_of_score_entries)%list_elem_of_fmap ([a' s'] & -> & Ha'%elem_of_score_entries)%list_elem_of_fmap.
  cbn. intros ->. congruence.
Qed.

(** Which authorities the two loops touch. *)
Lemma filtered_id m qs (P : StateTransition → Prop) `{!∀ t, Decision (P t)} t :
  t ∈ transition_of qs <$> score_entries m →
  st_authority_id t ∈ st_authority_id <$> filter P (transition_of qs <$> score_entries m) ↔ P t.
Proof.
  intros Ht. rewrite list_elem_of_fmap. split.
  - intros (t' & Heq & [Hw Ht']%list_elem_of_filter). by rewrite (transition_inj m qs t t').
  - intros Hw. exists t. split; [done|]. by apply list_elem_of_filter.
Qed.

Lemma filtered_ids m qs (P : StateTransition → Prop) `{!∀ t, Decision (P t)} :
  NoDup (st_authority_id <$> filter P (transition_of qs <$> score_entries m)).
Proof. eapply sublist_NoDup; [apply (transition_ids m qs)|]. apply fmap_sublist, sublist_filter. Qed.

(** The two loops on the collected transitions. *)
Lemma update_loops_spec m qs clock low net (ts := transition_of qs <$> score_entries m) :
  manager_ok m → (∀ t, t ∈ ts → transition_ok t) →
  ∃ m', (m1 ← for_each (apply_state_change (λ _, Include) clock) m (filter (wants_in m clock low net) ts);
      for_each (try_exclude clock) m1 (stable_sort score_le (filter (wants_out m clock low) ts))) = Done m' ∧
    manager_ok m' ∧ same_config m m' ∧
    (∀ a, a ∉ st_authority_id <$> ts → info_of m' a = info_of m a) ∧
    ∀ t (a := st_authority_id t), t ∈ ts →
      (wants_in m clock low net t ∧ info_of m' a = mkAncestorInfo Include (clock +₃₂ STATE_LOCK_CLOCK_ROUNDS)) ∨
      (wants_out m clock low t ∧ (info_of m' a = mkAncestorInfo (Exclude (st_score t)) (clock +₃₂ STATE_LOCK_CLOCK_ROUNDS) ∨
        (info_of m' a = info_of m a ∧ (am_excluded_nodes_stake_threshold m' < am_total_excluded_stake m' + st_stake t)%N))) ∨
      (¬ wants_in m clock low net t ∧ ¬ wants_out m clock low t ∧ info_of m' a = info_of m a).
Proof using Hc.
  intros Hok Hts. subst ts. set (ts := transition_of qs <$> score_entries m) in *.
  pose proof (filtered_id m qs) as Hfid. fold ts in Hfid.
  destruct (include_loop_spec clock (filter (wants_in m clock low net) ts) m Hok) as (m1 & -> & Hok1 & [Hth1 Hsc1] & Hinfo1).
  { apply filtered_ids. }
  { intros t [_ Ht]%list_elem_of_filter. by apply Hts. }
  { intros t [(_ & Ht & _) _]%list_elem_of_filter. done. }
  run_bind.
  assert (∀ t, t ∈ ts → wants_out m clock low t → info_of m1 (st_authority_id t) = info_of m (st_authority_id t)) as Hkeep.
  { intros t Ht (_ & He & _). rewrite Hinfo1, decide_False; [done|]. rewrite Hfid by done. intros (_ & He' & _). congruence. }
  destruct (exclude_loop_spec clock (stable_sort score_le (filter (wants_out m clock low) ts)) m1 Hok1)
    as (m2 & -> & Hok2 & [Hth2 Hsc2] & Hle & Hout & Hin).
  { rewrite stable_sort_perm. apply filtered_ids. }
  { intros t Ht%elem_of_stable_sort. apply list_elem_of_filter in Ht as [_ Ht]. by apply Hts. }
  { intros t Ht%elem_of_stable_sort. apply list_elem_of_filter in Ht as [Hw Ht]. rewrite Hkeep by done. apply Hw. }
  setoid_rewrite stable_sort_perm in Hout. exists m2. split_and!; [done|done|split; congruence| |].
  - intros a Ha. assert (∀ (P : StateTransition → Prop) `{!∀ t, Decision (P t)}, a ∉ st_authority_id <$> filter P ts) as Hno.
    { intros P ? (t & -> & [_ Ht]%list_elem_of_filter)%list_elem_of_fmap. apply Ha. by apply list_elem_of_fmap_2. }
    rewrite Hout by apply Hno. rewrite Hinfo1, decide_False; [done|apply Hno].
  - intros t Ht. destruct (decide (wants_out m clock low t)) as [Hw|Hw].
    + right. left. split; [done|]. rewrite Hth2, <- (Hkeep t Ht Hw). apply Hin. apply elem_of_stable_sort. by apply list_elem_of_filter.
    + rewrite Hout by (by rewrite Hfid). rewrite Hinfo1. destruct (decide (wants_in m clock low net t)) as [Hi|Hi].
      * left. split; [done|]. rewrite decide_True; [done|]. by rewrite Hfid.
      * right. right. split_and!; [done|done|]. rewrite decide_False; [done|]. by rewrite Hfid.
Qed.

End invariant.

(** A new manager includes everybody. *)
Lemma AncestorStateManager_new_ok ctx : manager_ok ctx (AncestorStateManager_new ctx).
Proof.
  unfold AncestorStateManager_new.
  assert (lengthN (replicate (N.to_nat (Committee_size (committee ctx))) AncestorInfo_new) = Committee_size (committee ctx)) as Hlen
    by (unfold lengthN; rewrite length_replicate; lia).
  split; cbn; [done|done| |apply N.le_0_l].
  assert (excluded_set ctx (replicate (N.to_nat (Committee_size (committee ctx))) AncestorInfo_new) = ∅) as ->; [|done].
  apply set_eq. intros a. rewrite elem_of_excluded_set by done. split; [|set_solver].
  intros (i & [-> _]%lookup_replicate & He). done.
Qed.

(** An update never panics and keeps the invariant. *)
Lemma update_all_ancestors_total {S} ctx m (ds : DagState S) qs :
  committee_ok (committee ctx) → manager_ok ctx m → lengthN qs = Committee_size (committee ctx) →
  (lengthN (scores_per_authority (am_propagation_scores m)) ≤ Committee_size (committee ctx))%N →
  ∃ m', update_all_ancestors_state m ds qs = Done m' ∧ manager_ok ctx m' ∧ same_config m m'.
Proof.
  intros Hc Hok Hqs Hlen.
  assert (∀ a s, (a, s) ∈ score_entries m → (a < Committee_size (committee ctx))%N) as Hvalid.
  { intros a s Ha%elem_of_score_entries%lookup_lt_Some. unfold lengthN in Hlen. lia. }
  unfold update_all_ancestors_state. fold (score_entries m).
  rewrite (collect_transitions_spec ctx) by first [done | intros [a s] Has; by eapply Hvalid]. run_bind.
  edestruct (update_loops_spec ctx Hc m qs) as (m' & Hrun & Hok' & Hsame & _); [done| |].
  { intros t ([a s] & -> & Ha)%list_elem_of_fmap. split; [by eapply Hvalid|done]. }
  exists m'. split; [exact Hrun|done].
Qed.

(** ** Properties *)

(** C39: one update of the ancestor states. With quorum rounds for every authority
    and scores for a prefix of them it never panics. The excluded stake is
    tracked exactly and stays within the threshold. Locked authorities keep their
    state. An unlocked excluded authority is included again exactly if its score
    is above the low score threshold or its quorum round has caught up with the
    network. An unlocked included authority is excluded only with a low score,
    and a low score is spared only if its stake does not fit below the threshold
    any more. Every change locks the authority for [STATE_LOCK_CLOCK_ROUNDS]. *)
Theorem ancestor_update_correct {S} ctx (c := committee ctx) m (ds : DagState S) qs
    (clock := threshold_clock_round ds) (net := calculate_network_high_quorum_round m qs)
    (low := ((highest_score (am_propagation_scores m) *₆₄ SCORE_EXCLUSION_THRESHOLD_PERCENTAGE) `div` 100)%N)
    (locked := λ st, mkAncestorInfo st (clock +₃₂ STATE_LOCK_CLOCK_ROUNDS)) :
  committee_ok c → manager_ok ctx m → lengthN qs = Committee_size c →
  (lengthN (scores_per_authority (am_propagation_scores m)) ≤ Committee_size c)%N →
  ∃ m', update_all_ancestors_state m ds qs = Done m' ∧ manager_ok ctx m' ∧ same_config m m' ∧
    ∀ a, match scores_per_authority (am_propagation_scores m) !! N.to_nat a with
    | None => info_of m' a = info_of m a
    | Some score =>
        if is_locked (info_of m a) clock then info_of m' a = info_of m a
        else if excluded (info_of m a) then
          info_of m' a = if decide (low < score ∨ net ≤ (default (0, 0)%N (qs !! N.to_nat a)).2)%N
            then locked Include else info_of m a
        else if decide (score ≤ low)%N then
          info_of m' a = locked (Exclude score) ∨
          (info_of m' a = info_of m a ∧
           (am_excluded_nodes_stake_threshold m' < am_total_excluded_stake m' + stake_of c a)%N)
        else info_of m' a = info_of m a
    end.
Proof.
  intros Hc Hok Hqs Hlen.
  assert (∀ a s, (a, s) ∈ score_entries m → (a < Committee_size c)%N) as Hvalid.
  { intros a s Ha%elem_of_score_entries%lookup_lt_Some. unfold lengthN in Hlen. lia. }
  destruct (update_loops_spec ctx Hc m qs clock low net Hok) as (m' & Hrun & Hok' & Hsame & Hother & Hts).
  { intros t ([a s] & -> & Ha)%list_elem_of_fmap. split; [by eapply Hvalid|done]. }
  exists m'. split_and!; [|done|done|].
  - unfold update_all_ancestors_state. fold clock low net. fold (score_entries m).
    rewrite (collect_transitions_spec ctx) by first [done | intros [a s] Has; by eapply Hvalid]. run_bind. exact Hrun.
  - intros a. destruct (scores_per_authority (am_propagation_scores m) !! N.to_nat a) as [score|] eqn:Hs.
    2: { apply Hother. intros (t & -> & ([b s] & -> & Hb%elem_of_score_entries)%list_elem_of_fmap)%list_elem_of_fmap.
         cbn in Hs. congruence. }
    apply elem_of_score_entries in Hs. specialize (Hts (transition_of ctx qs (a, score))). cbn in Hts.
    specialize (Hts ltac:(by apply list_elem_of_fmap_2)). unfold wants_in, wants_out in Hts. cbn in Hts.
    destruct (is_locked (info_of m a) clock); [naive_solver|]. destruct (excluded (info_of m a)); [|case_decide; naive_solver].
    destruct (decide (low < score ∨ net ≤ (default (0, 0)%N (qs !! N.to_nat a)).2)%N); naive_solver.
Qed.

(** ** A concrete committee: ten authorities with ten stake each; thirteen may be
    excluded. *)
Definition ancestor_committee : Committee :=
  mkCommittee 0 (replicate 10 (mkAuthority 10 "host" [])) 100 67 67 34.

Definition ancestor_context : Context :=
  Context_new 0 (Some 0%N) ancestor_committee sample_parameters
    (mkProtocolConfig 1000 10000 100 1 true (Some 1%N) 20 false 600 60).

(** Authorities 1 and 3 have low scores, 3 the lowest. *)
Definition ancestor_manager : AncestorStateManager :=
  set_propagation_scores (AncestorStateManager_new ancestor_context)
    (mkReputationScores [100; 5; 90; 3; 80; 70; 60; 90; 80; 100]%N CommitRange_default).

Lemma ancestor_update_correct_witness :
  ∃ m', update_all_ancestors_state ancestor_manager sample_start (replicate 10 (7, 8)%N) = Done m' ∧
    get_ancestor_states m' = [Include; Include; Include; Exclude 3; Include; Include; Include; Include; Include; Include] ∧
    (am_total_excluded_stake m' ≤ 13)%N.
Proof.
  destruct (ancestor_update_correct ancestor_context ancestor_manager sample_start (replicate 10 (7, 8)%N))
    as (m' & Hrun & Hok & _); [by split|split; [done|done|done|by vm_compute]|done|by vm_compute|].
  exists m'. split; [exact Hrun|]. vm_compute in Hrun. injection Hrun as <-. by vm_compute.
Defined.
