(* ===== verification/LeaderSchedule.v ===== *)
(** * Leader schedule (consensus/core/src/leader_schedule.rs)

    Election of the leader of a round, and the table that swaps authorities with
    the worst reputation scores for ones with the best. The random number
    generator (the crate [rand]) is a parameter, the class [LeaderRng], with what
    the code relies on in [LeaderRngLaws]. The election under [cfg(test)] is not
    modelled. *)

From S2P Require Import Prelude Committee Block StakeAggregator Commit Store LeaderScoring DagState.

(** [StdRng::from_seed] followed by one draw: the seed is its 32 bytes. *)
Class LeaderRng := {
  (** [choose_multiple_weighted] with the stakes as weights. *)
  rng_choose_multiple_weighted : list N → list (N * N) → N → option (list (N * N));
  (** [SliceRandom::shuffle]. *)
  rng_shuffle : list N → list (N * N) → list (N * N);
  (** [SliceRandom::choose]. *)
  rng_choose : list N → list (N * string * N) → option (N * string * N);
}.

(** Documented behaviour of [rand]: choosing as many elements as there are gives
    a permutation, shuffling permutes, and choosing from a non-empty slice gives
    one of its elements. *)
Class LeaderRngLaws `{LeaderRng} : Prop := {
  rng_choose_multiple_law seed choices n l :
    rng_choose_multiple_weighted seed choices n = Some l → n = lengthN choices → l ≡ₚ choices;
  rng_shuffle_law seed l : rng_shuffle seed l ≡ₚ l;
  rng_choose_law seed l : l ≠ [] → ∃ x, rng_choose seed l = Some x ∧ x ∈ l;
}.

(** [u32::to_le_bytes]. *)
Definition to_le_bytes (x : N) : list N :=
  [x `mod` 256; (x / 256) `mod` 256; (x / 65536) `mod` 256; (x / 16777216) `mod` 256]%N.

Record LeaderSwapTable := mkLeaderSwapTable {
  good_nodes : list (N * string * N);
  bad_nodes : gmap N (string * N);
  table_reputation_scores : ReputationScores;
}.

Definition LeaderSwapTable_default : LeaderSwapTable :=
  mkLeaderSwapTable [] ∅ ReputationScores_default.

(** The loop of [retrieve_first_nodes]: the authorities from the front while
    their accumulated stake stays within the threshold. *)
Fixpoint retrieve_loop (c : Committee) (stake_threshold acc : N) (l : list (N * N)) :
    outcome (list (N * string * N)) :=
  match l with
  | [] => Done []
  | (authority_idx, _) :: l =>
      s ← Committee_stake c authority_idx;
      let acc := acc +₆₄ s in
      if decide ((stake_threshold *₆₄ total_stake c) / 100 < acc)%N then Done []
      else
        a ← authority c authority_idx;
        rest ← retrieve_loop c stake_threshold acc l;
        Done ((authority_idx, hostname a, stake a) :: rest)
  end.

Definition retrieve_first_nodes (c : Committee) (l : list (N * N)) (stake_threshold : N) :
    outcome (list (N * string * N)) :=
  retrieve_loop c stake_threshold 0 l.

(** [.map(..).collect::<BTreeMap<..>>()]. *)
Definition collect_bad_nodes (l : list (N * string * N)) : gmap N (string * N) :=
  foldl (λ m '(idx, name, s), <[idx := (name, s)]> m) ∅ l.

(** Descending by score: [a2.1.cmp(&a1.1)]. *)
Definition score_ge (a b : N * N) : Prop := (b.2 ≤ a.2)%N.

#[export] Instance score_ge_dec : RelDecision score_ge.
Proof. intros ??. unfold score_ge. apply _. Defined.
#[export] Instance score_ge_trans : Transitive score_ge.
Proof. intros ???. unfold score_ge. lia. Qed.
#[export] Instance score_ge_total : Total score_ge.
Proof. intros ??. unfold score_ge. lia. Qed.

Section schedule.
Context `{LeaderRng}.

Definition LeaderSwapTable_new_inner (ctx : Context) (swap_stake_threshold commit_index : N)
    (scores : ReputationScores) : outcome LeaderSwapTable :=
  rassert (swap_stake_threshold ≤ 33)%N;;
  match scores_per_authority scores with
  | [] => Done LeaderSwapTable_default
  | _ =>
      let seed := replicate 28 0%N ++ to_le_bytes commit_index in
      by_score ← authorities_by_score ctx scores;
      rassert (lengthN by_score = Committee_size (committee ctx));;
      let sorted := stable_sort score_ge (rng_shuffle seed by_score) in
      good ← retrieve_first_nodes (committee ctx) sorted swap_stake_threshold;
      bad ← retrieve_first_nodes (committee ctx) (reverse sorted) swap_stake_threshold;
      Done (mkLeaderSwapTable good (collect_bad_nodes bad) scores)
  end.

Definition LeaderSwapTable_new (ctx : Context) (commit_index : N) (scores : ReputationScores) :
    outcome LeaderSwapTable :=
  LeaderSwapTable_new_inner ctx (bad_nodes_stake_threshold (protocol_config ctx)) commit_index scores.

Definition swap (t : LeaderSwapTable) (leader leader_round leader_offset : N) : outcome (option N) :=
  if decide (leader ∈ dom (bad_nodes t)) then
    rassert (leader_offset = 0%N);;
    let seed := replicate 24 0%N ++ to_le_bytes leader_round ++ to_le_bytes leader_offset in
    '(idx, _, _) ← unwrap (rng_choose seed (good_nodes t));
    Done (Some idx)
  else Done None.

Record LeaderSchedule := mkLeaderSchedule {
  leader_swap_table : LeaderSwapTable;
  ls_context : Context;
  num_commits_per_schedule : N;
}.

Definition CONSENSUS_COMMITS_PER_SCHEDULE : N := 300.

Definition LeaderSchedule_new (ctx : Context) (table : LeaderSwapTable) : LeaderSchedule :=
  mkLeaderSchedule table ctx CONSENSUS_COMMITS_PER_SCHEDULE.

Definition elect_leader_stake_based (ls : LeaderSchedule) (round offset : N) : outcome N :=
  let c := committee (ls_context ls) in
  rassert (offset < Committee_size c)%N;;
  let seed := replicate 28 0%N ++ to_le_bytes round in
  let choices := map (λ '(index, a), (index, stake a)) (authorities_iter c) in
  chosen ← unwrap (rng_choose_multiple_weighted seed choices (Committee_size c));
  '(index, _) ← unwrap (chosen !! N.to_nat offset);
  Done index.

Definition elect_leader (ls : LeaderSchedule) (round leader_offset : N) : outcome N :=
  leader ← elect_leader_stake_based ls round leader_offset;
  o ← swap (leader_swap_table ls) leader round leader_offset;
  Done (default leader o).

Definition update_leader_swap_table (ls : LeaderSchedule) (table : LeaderSwapTable) :
    outcome LeaderSchedule :=
  let old_range := commit_range (table_reputation_scores (leader_swap_table ls)) in
  let new_range := commit_range (table_reputation_scores table) in
  (if decide (old_range ≠ CommitRange_default) then
     rassert (CommitRange_is_next_range old_range new_range = true);;
     equal ← CommitRange_is_equal_size old_range new_range;
     rassert (equal = true)
   else Done ());;
  Done (mkLeaderSchedule table (ls_context ls) (num_commits_per_schedule ls)).

Section dag.
Context {S : Type} `{Store S}.
Implicit Types ds : DagState S.

Definition LeaderSchedule_from_store (ctx : Context) ds : outcome LeaderSchedule :=
  info ← recover_last_commit_info ds;
  table ← match info with
    | None => Done LeaderSwapTable_default
    | Some (commit_ref, info) => LeaderSwapTable_new ctx (cref_index commit_ref) (reputation_scores info)
    end;
  (* the count is read for the log *)
  scoring_subdags_count ds;;
  Done (LeaderSchedule_new ctx table).

Definition commits_until_leader_schedule_update (ls : LeaderSchedule) ds : outcome N :=
  subdag_count ← scoring_subdags_count ds;
  rassert (subdag_count ≤ num_commits_per_schedule ls)%N;;
  unwrap (checked_sub (num_commits_per_schedule ls) subdag_count).

Definition update_leader_schedule_v2 (ls : LeaderSchedule) ds : outcome (LeaderSchedule * DagState S) :=
  scores ← calculate_scoring_subdag_scores ds;
  last_commit_index ← scoring_subdag_commit_range ds;
  let ds := clear_scoring_subdag ds in
  ds ← add_commit_info ds scores;
  table ← LeaderSwapTable_new (ls_context ls) last_commit_index scores;
  ls ← update_leader_swap_table ls table;
  Done (ls, ds).

End dag.
End schedule.

(** ** The swap table *)

Section table.
Context (c : Committee) (Hc : committee_ok c).

Definition stakes (l : list N) : N := sumN (stake_of c <$> l).

Lemma stakes_app l k : stakes (l ++ k) = (stakes l + stakes k)%N.
Proof. unfold stakes. by rewrite fmap_app, sumN_app. Qed.

#[export] Instance stakes_perm : Proper (Permutation ==> eq) stakes.
Proof. intros l k Hlk. unfold stakes. by rewrite Hlk. Qed.

Lemma stakes_all : stakes (rangeN 0 (Committee_size c)) = total_stake c.
Proof.
  rewrite (co_total _ Hc), <- set_stake_all. unfold stakes, set_stake, all_authorities.
  by rewrite set_sum_list_to_set by apply NoDup_rangeN.
Qed.

(** The stake limit for a threshold in percent. *)
Definition stake_limit (threshold : N) : N := ((threshold *₆₄ total_stake c) / 100)%N.

Lemma retrieve_loop_spec threshold acc l :
  (∀ a, a ∈ l.*1 → a < Committee_size c)%N →
  (acc + stakes l.*1 < u64_modulus)%N → (acc ≤ stake_limit threshold)%N →
  ∃ r k, retrieve_loop c threshold acc l = Done r ∧ (λ x, x.1.1) <$> r = take k l.*1 ∧
    (acc + stakes (take k l.*1) ≤ stake_limit threshold)%N.
Proof.
  revert acc. induction l as [|[a s] l IH]; intros acc Ha Hb Hacc; cbn [retrieve_loop].
  { exists [], 0. split_and!; [done|done|cbn; lia]. }
  assert (a < Committee_size c)%N as Hlt by (apply Ha; set_solver).
  rewrite Committee_stake_valid by done. run_bind.
  cbn [fmap list_fmap fst] in *. change (stakes (a :: l.*1)) with (stake_of c a + stakes l.*1)%N in Hb.
  rewrite wrap_add_small by lia. case_decide as Hover.
  { exists [], 0. split_and!; [done|done|cbn; lia]. }
  unfold authority, vec_index. unfold Committee_size, lengthN in Hlt.
  destruct (authorities c !! N.to_nat a) as [x|] eqn:Hx; [|apply lookup_ge_None in Hx; lia].
  cbn [unwrap mbind outcome_bind].
  destruct (IH (acc + stake_of c a)%N) as (r & k & -> & Hr & Hk).
  { intros. apply Ha. set_solver. } { lia. } { unfold stake_limit. lia. }
  exists ((a, hostname x, stake x) :: r), (S k). run_bind. split; [done|].
  cbn [fmap list_fmap fst take]. split; [by f_equal|].
  change (stakes (a :: take k l.*1)) with (stake_of c a + stakes (take k l.*1))%N. lia.
Qed.

Lemma stake_limit_bound threshold : (threshold ≤ 33)%N → (100 * stake_limit threshold ≤ 33 * total_stake c)%N.
Proof.
  intros Ht. unfold stake_limit.
  etrans; [apply N.Div0.mul_div_le|]. unfold wrap_mul. etrans; [apply N.Div0.mod_le|].
  apply N.mul_le_mono_r. done.
Qed.

(** A prefix and a suffix of all authorities, each within a third of the stake,
    do not meet. *)
Lemma prefix_suffix_disjoint L k j threshold :
  L ≡ₚ rangeN 0 (Committee_size c) → (threshold ≤ 33)%N →
  (stakes (take k L) ≤ stake_limit threshold)%N →
  (stakes (take j (reverse L)) ≤ stake_limit threshold)%N →
  ∀ a, a ∈ take k L → a ∈ take j (reverse L) → False.
Proof.
  intros HL Ht Hk Hj a Ha Ha'. assert (NoDup L) as Hnd by (rewrite HL; apply NoDup_rangeN).
  rewrite take_reverse in Ha', Hj. rewrite elem_of_reverse in Ha'. rewrite (reverse_Permutation (drop _ L)) in Hj.
  apply elem_of_take in Ha as (i & Hi & Hik). apply list_elem_of_lookup in Ha' as (i' & Hi').
  rewrite lookup_drop in Hi'. assert (i = length L - j + i') as -> by (by eapply NoDup_lookup).
  pose proof (stakes_app (take k L) (drop k L)) as Hsplit. rewrite take_drop in Hsplit.
  assert (stakes (drop k L) ≤ stakes (drop (length L - j) L))%N as Hsuf.
  { rewrite <- (take_drop (k - (length L - j)) (drop (length L - j) L)), stakes_app, drop_drop.
    replace (length L - j + (k - (length L - j))) with k by lia. lia. }
  assert (stakes L = total_stake c) as Htot by (rewrite HL; apply stakes_all).
  pose proof (stake_limit_bound _ Ht). pose proof (co_pos _ Hc). lia.
Qed.

End table.

Section table_correct.
Context `{LeaderRngLaws}.

Lemma authorities_by_score_spec ctx scores :
  lengthN (scores_per_authority scores) = Committee_size (committee ctx) →
  authorities_by_score ctx scores =
    Done (zip (rangeN 0 (Committee_size (committee ctx))) (scores_per_authority scores)).
Proof.
  intros Hlen. unfold authorities_by_score. rewrite Hlen.
  rewrite (mapM_done _ id).
  - by rewrite list_fmap_id.
  - intros [a s] Ha%elem_of_zip_l%elem_of_rangeN. unfold to_authority_index.
    rewrite decide_True by lia. done.
Qed.

(** Score of an authority. *)
Definition score_of (scores : ReputationScores) (a : N) : N :=
  default 0%N (scores_per_authority scores !! N.to_nat a).

Lemma zip_scores_elem scores n a s :
  n = lengthN (scores_per_authority scores) →
  (a, s) ∈ zip (rangeN 0 n) (scores_per_authority scores) → s = score_of scores a.
Proof.
  intros Hn Hin. apply elem_of_lookup_zip_with in Hin as (i & a' & s' & [= <- <-] & Ha & Hs).
  unfold rangeN in Ha. rewrite list_lookup_fmap in Ha. apply fmap_Some in Ha as (j & Hj & ->).
  apply lookup_seq in Hj as [-> _]. unfold score_of.
  replace (N.to_nat (0 + N.of_nat (0 + i))) with i by lia. by rewrite Hs.
Qed.

Lemma bad_nodes_dom (l : list (N * string * N)) a :
  a ∈ dom (collect_bad_nodes l) ↔ a ∈ (λ x, x.1.1) <$> l.
Proof.
  unfold collect_bad_nodes.
  assert (∀ m : gmap N (string * N), a ∈ dom (foldl (λ m '(idx, name, s), <[idx := (name, s)]> m) m l) ↔
    a ∈ (λ x, x.1.1) <$> l ∨ a ∈ dom m) as Hgen; [|rewrite Hgen; set_solver].
  induction l as [|[[i n] s] l IH]; intros m; cbn; [set_solver|].
  rewrite IH, dom_insert. set_solver.
Qed.

(** In a list sorted by descending score, a prefix scores at least as high as a
    disjoint suffix. *)
Lemma sorted_scores L k j (x y : N * N) :
  StronglySorted score_ge L → NoDup L.*1 →
  x.1 ∈ take k L.*1 → y.1 ∈ take j (reverse L.*1) → x ∈ L → y ∈ L →
  (∀ a, a ∈ take k L.*1 → a ∈ take j (reverse L.*1) → False) → (y.2 ≤ x.2)%N.
Proof.
  intros Hs Hnd Hx Hy HxL HyL Hdisj.
  assert (x ∈ take k L) as HxT.
  { rewrite <- fmap_take in Hx. apply list_elem_of_fmap in Hx as (x' & Hxx & Hx').
    assert (x' ∈ L) as Hx'L by (apply elem_of_take in Hx' as (i & ? & _); by eapply list_elem_of_lookup_2).
    assert (x = x') as ->; [|done]. apply list_elem_of_lookup in HxL as [i Hi], Hx'L as [i' Hi'].
    assert (i = i') as ->; [|congruence].
    eapply (NoDup_lookup L.*1); [done|by rewrite list_lookup_fmap, Hi|].
    by rewrite list_lookup_fmap, Hi', Hxx. }
  assert (y ∉ take k L) as HyT.
  { intros Hyk. apply (Hdisj y.1); [|done]. rewrite <- fmap_take. by apply list_elem_of_fmap_2. }
  destruct (StronglySorted_take_le score_ge k L y Hs HyL) as [|[_ Hall]]; [done|].
  by apply (Hall x).
Qed.

(** The good nodes are a prefix of the authorities sorted by score, the bad nodes
    a suffix, both within the stake limit. *)
Lemma swap_table_run ctx threshold commit_index scores (c := committee ctx) :
  committee_ok c → lengthN (scores_per_authority scores) = Committee_size c → (threshold ≤ 33)%N →
  ∃ L k j good bad,
    LeaderSwapTable_new_inner ctx threshold commit_index scores =
      Done (mkLeaderSwapTable good (collect_bad_nodes bad) scores) ∧
    StronglySorted score_ge L ∧ L ≡ₚ zip (rangeN 0 (Committee_size c)) (scores_per_authority scores) ∧
    L.*1 ≡ₚ rangeN 0 (Committee_size c) ∧
    (λ x, x.1.1) <$> good = take k L.*1 ∧ (stakes c (take k L.*1) ≤ stake_limit c threshold)%N ∧
    (λ x, x.1.1) <$> bad = take j (reverse L.*1) ∧
    (stakes c (take j (reverse L.*1)) ≤ stake_limit c threshold)%N.
Proof.
  intros Hc Hlen Ht. unfold LeaderSwapTable_new_inner. rewrite (rassert_true (threshold ≤ 33)%N) by done.
  run_bind.
  destruct (scores_per_authority scores) as [|s0 ss] eqn:Hss.
  { exfalso. pose proof (co_total _ Hc) as Htot. pose proof (co_pos _ Hc) as Hpos. unfold Committee_size, lengthN in Hlen.
    cbn in Hlen. destruct (authorities c); cbn in *; lia. }
  rewrite <- Hss in *. rewrite authorities_by_score_spec by done. run_bind. fold c.
  set (Z := zip (rangeN 0 (Committee_size c)) (scores_per_authority scores)).
  assert (Z.*1 = rangeN 0 (Committee_size c)) as HZ.
  { unfold Z. apply fst_zip. unfold rangeN. rewrite length_fmap, length_seq. unfold lengthN in Hlen. lia. }
  rewrite rassert_true.
  2: { unfold lengthN. rewrite <- (length_fmap fst), HZ. unfold rangeN. rewrite length_fmap, length_seq. lia. }
  run_bind. set (L := stable_sort score_ge (rng_shuffle _ Z)).
  assert (L ≡ₚ Z) as HLZ by (unfold L; rewrite stable_sort_perm; apply rng_shuffle_law).
  assert (L.*1 ≡ₚ rangeN 0 (Committee_size c)) as HL by (by rewrite HLZ, HZ).
  assert (stakes c L.*1 = total_stake c) as HsL by (rewrite HL; by apply stakes_all).
  assert (∀ a, a ∈ L.*1 → a < Committee_size c)%N as Hin.
  { intros a. rewrite HL, elem_of_rangeN. lia. }
  pose proof (co_bound _ Hc) as Hbound.
  destruct (retrieve_loop_spec c Hc threshold 0 L) as (good & k & Hgood & Hgk & Hks); [done|lia|lia|].
  destruct (retrieve_loop_spec c Hc threshold 0 (reverse L)) as (bad & j & Hbad & Hbj & Hjs).
  { intros a. rewrite fmap_reverse, elem_of_reverse. apply Hin. }
  { rewrite fmap_reverse, (reverse_Permutation L.*1). lia. } { lia. }
  rewrite fmap_reverse in *. unfold retrieve_first_nodes. rewrite Hgood, Hbad. run_bind.
  exists L, k, j, good, bad. split_and!; try done. apply stable_sort_sorted; apply _.
Qed.


(** leader election by stake. When the weighted choice succeeds, every offset
    below the committee size elects a member of the committee, and different
    offsets of the same round elect different members. *)
Theorem elect_leader_distinct ls round (c := committee (ls_context ls)) :
  is_Some (rng_choose_multiple_weighted (replicate 28 0%N ++ to_le_bytes round)
    (map (λ '(index, a), (index, stake a)) (authorities_iter c)) (Committee_size c)) →
  ∀ o1 o2, (o1 < Committee_size c)%N → (o2 < Committee_size c)%N →
  ∃ a1 a2, elect_leader_stake_based ls round o1 = Done a1 ∧ elect_leader_stake_based ls round o2 = Done a2 ∧
    (a1 < Committee_size c)%N ∧ (a1 = a2 → o1 = o2).
Proof.
  intros [l Hl] o1 o2 Ho1 Ho2.
  set (choices := map (λ '(index, a), (index, stake a)) (authorities_iter c)) in *.
  assert (choices.*1 = rangeN 0 (Committee_size c)) as Hch.
  { rewrite <- authorities_iter_fst. change (map fst (authorities_iter c)) with (fst <$> authorities_iter c).
    change choices with ((λ '(index, a), (index, stake a)) <$> authorities_iter c).
    rewrite <- list_fmap_compose. apply list_fmap_ext. by intros _ [] _. }
  assert (l ≡ₚ choices) as Hperm.
  { eapply rng_choose_multiple_law; [exact Hl|]. unfold lengthN.
    rewrite <- (length_fmap fst), Hch. unfold rangeN. rewrite length_fmap, length_seq. lia. }
  assert (l.*1 ≡ₚ rangeN 0 (Committee_size c)) as Hperm1 by (by rewrite Hperm, Hch).
  assert (∀ o, (o < Committee_size c)%N → ∃ a, elect_leader_stake_based ls round o = Done a ∧
    l.*1 !! N.to_nat o = Some a) as Hsel.
  { intros o Ho. unfold elect_leader_stake_based. fold c. fold choices.
    rewrite rassert_true by done. rewrite Hl. cbn [mbind outcome_bind unwrap].
    destruct (l !! N.to_nat o) as [[a s]|] eqn:Hlo.
    - exists a. split; [done|]. by rewrite list_lookup_fmap, Hlo.
    - apply lookup_ge_None in Hlo. apply Permutation_length in Hperm1.
      rewrite length_fmap in Hperm1. unfold rangeN in Hperm1. rewrite length_fmap, length_seq in Hperm1. lia. }
  destruct (Hsel o1 Ho1) as (a1 & H1 & Hl1), (Hsel o2 Ho2) as (a2 & H2 & Hl2).
  exists a1, a2. split_and!; [done|done| |].
  - apply list_elem_of_lookup_2 in Hl1. rewrite Hperm1, elem_of_rangeN in Hl1. lia.
  - intros ->. assert (N.to_nat o1 = N.to_nat o2); [|lia].
    eapply (NoDup_lookup l.*1); [rewrite Hperm1; apply NoDup_rangeN|done|done].
Qed.

End table_correct.

(** A generator without randomness, for examples. *)
#[export] Instance sample_rng : LeaderRng := {|
  rng_choose_multiple_weighted := λ _ l _, Some l;
  rng_shuffle := λ _ l, l;
  rng_choose := λ _ l, head l;
|}.

#[export] Instance sample_rng_laws : LeaderRngLaws.
Proof.
  split; cbn.
  - by intros ???? [= ->].
  - done.
  - intros _ [|x l] Hne; [done|]. exists x. split; [done|set_solver].
Qed.

Definition committee_10 : Committee :=
  mkCommittee 0 (replicate 10 (mkAuthority 1 "host" [])) 10 7 7 4.

Definition sample_scores : ReputationScores :=
  mkReputationScores [5; 0; 9; 8; 7; 1; 6; 6; 6; 6]%N (CommitRange_new 1 300).

Definition context_10 : Context :=
  Context_new 0 (Some 0%N) committee_10 sample_parameters
    (mkProtocolConfig 1000 10000 100 1 true (Some 1%N) 20 false 600 60).


Lemma elect_leader_distinct_witness :
  ∃ a1 a2, elect_leader_stake_based (LeaderSchedule_new context_10 LeaderSwapTable_default) 7 0 = Done a1 ∧
    elect_leader_stake_based (LeaderSchedule_new context_10 LeaderSwapTable_default) 7 3 = Done a2 ∧ a1 ≠ a2.
Proof.
  destruct (elect_leader_distinct (LeaderSchedule_new context_10 LeaderSwapTable_default) 7)
    with (o1 := 0%N) (o2 := 3%N) as (a1 & a2 & H1 & H2 & _ & Hne); [by eexists|done|done|].
  exists a1, a2. split; [exact H1|]. split; [exact H2|]. intros Heq. discriminate (Hne Heq).
Defined.

(** the swap table can have bad nodes and no good node: when the best scoring
    authority alone holds more stake than the threshold, no good node is chosen,
    and electing a bad leader panics. *)
Theorem swap_panics_without_good_node :
  let auths := [mkAuthority 50 "a" []; mkAuthority 10 "b" []; mkAuthority 20 "c" []; mkAuthority 20 "d" []] in
  let scores := mkReputationScores [9; 1; 5; 5]%N (CommitRange_new 1 300) in
  ∃ c ctx t, Committee_new 0 auths = Done c ∧ committee ctx = c ∧
    LeaderSwapTable_new_inner ctx 20 300 scores = Done t ∧
    good_nodes t = [] ∧ dom (bad_nodes t) = {[1]}%N ∧ swap t 1 42 0 = Panic.
Proof.
  intros auths scores. destruct (Committee_new 0 auths) as [c| |] eqn:Hc;
    [|vm_compute in Hc; discriminate Hc..].
  exists c, (Context_new 0 (Some 0%N) c sample_parameters
    (mkProtocolConfig 1000 10000 100 1 true (Some 1%N) 20 false 600 60)).
  vm_compute in Hc. injection Hc as <-. eexists. split; [done|]. split; [done|].
  split; [vm_compute; reflexivity|]. split; [done|]. split; [vm_compute; reflexivity|]. reflexivity.
Qed.
