(* ===== verification/BaseCommitter.v ===== *)
(** * The base committer (consensus/core/src/base_committer.rs)

    The direct and the indirect decision rule for one leader slot. The dag state,
    which the code reaches through a shared lock, is an argument. *)

From S2P Require Import Prelude Committee Block StakeAggregator ThresholdClock Commit Store LeaderScoring.
From S2P Require Import DagState LeaderSchedule.

Record BaseCommitterOptions := mkBaseCommitterOptions {
  wave_length : N;
  leader_offset : N;
  round_offset : N;
}.

Definition BaseCommitterOptions_default : BaseCommitterOptions :=
  mkBaseCommitterOptions DEFAULT_WAVE_LENGTH 0 0.

Record BaseCommitter := mkBaseCommitter {
  bc_context : Context;
  bc_leader_schedule : LeaderSchedule;
  bc_options : BaseCommitterOptions;
}.

Definition BaseCommitter_new (ctx : Context) (schedule : LeaderSchedule) (options : BaseCommitterOptions) :
    BaseCommitter :=
  mkBaseCommitter ctx schedule options.

(** ** Waves *)

Definition leader_round (o : BaseCommitterOptions) (wave : N) : N :=
  (wave *₃₂ wave_length o) +₃₂ round_offset o.

Definition decision_round (o : BaseCommitterOptions) (wave : N) : N :=
  (((wave *₃₂ wave_length o) +₃₂ wave_length o) -₃₂ 1) +₃₂ round_offset o.

(** Division by a wave length of zero panics in the source; the committers are
    built with a wave length of three. *)
Definition wave_number (o : BaseCommitterOptions) (round : N) : N :=
  ((round - round_offset o) / wave_length o)%N.

Section committer.
Context {S : Type} `{Store S}.
Implicit Types ds : DagState S.

(** ** Votes and certificates *)

(** The loop over the ancestors in [find_supported_block]; [rec] is the recursive
    call on an ancestor's block. *)
Fixpoint supported_among ds (rec : VerifiedBlock → outcome (option BlockRef)) (leader_slot : Slot)
    (l : list BlockRef) : outcome (option BlockRef) :=
  match l with
  | [] => Done None
  | ancestor :: l =>
      if decide (Slot_from ancestor = leader_slot) then Done (Some ancestor)
      else if decide (ref_round ancestor ≤ slot_round leader_slot)%N then supported_among ds rec leader_slot l
      else
        o ← get_block ds ancestor;
        block ← unwrap o;
        support ← rec block;
        match support with
        | Some support => Done (Some support)
        | None => supported_among ds rec leader_slot l
        end
  end.

Fixpoint find_supported_block_fuel ds (fuel : nat) (leader_slot : Slot) (from : VerifiedBlock) :
    outcome (option BlockRef) :=
  match fuel with
  | O => OutOfFuel
  | Datatypes.S fuel =>
      if decide (round from < slot_round leader_slot)%N then Done None
      else supported_among ds (find_supported_block_fuel ds fuel leader_slot) leader_slot (ancestors from)
  end.

(** Every call goes at least one round down and stops below the leader's round. *)
Definition find_supported_block ds (leader_slot : Slot) (from : VerifiedBlock) : outcome (option BlockRef) :=
  find_supported_block_fuel ds (Datatypes.S (N.to_nat (round from - slot_round leader_slot))) leader_slot from.

Definition is_vote ds (potential_vote leader_block : VerifiedBlock) : outcome bool :=
  let r := reference leader_block in
  support ← find_supported_block ds (Slot_from r) potential_vote;
  Done (bool_decide (support = Some r)).

(** Whether a reference is a vote, remembered in the cache [all_votes]. *)
Definition cached_is_vote ds (leader_block : VerifiedBlock) (all_votes : gmap BlockRef bool) (r : BlockRef) :
    outcome (bool * gmap BlockRef bool) :=
  match all_votes !! r with
  | Some v => Done (v, all_votes)
  | None =>
      o ← get_block ds r;
      v ← match o with
        | Some potential_vote => is_vote ds potential_vote leader_block
        | None => rassert (ref_round r ≤ gc_round ds)%N;; Done false
        end;
      Done (v, <[r := v]> all_votes)
  end.

Definition is_certificate (c : Committee) ds (leader_block : VerifiedBlock)
    (all_votes : gmap BlockRef bool) (potential_certificate : VerifiedBlock) :
    outcome (bool * gmap BlockRef bool) :=
  aggregate_until (T := QuorumThreshold) c ref_author (cached_is_vote ds leader_block)
    StakeAggregator_new all_votes (ancestors potential_certificate).

(** ** The direct rule *)

Definition enough_leader_blame (bc : BaseCommitter) ds (voting_round leader : N) : outcome bool :=
  voting_blocks ← get_uncommitted_blocks_at_round ds voting_round;
  fst <$> aggregate_until (T := QuorumThreshold) (committee (bc_context bc)) (λ b, ref_author (reference b))
    (λ (_ : ()) b, Done (forallb (λ r, bool_decide (ref_author r ≠ leader)) (ancestors b), ()))
    StakeAggregator_new () voting_blocks.

Definition enough_leader_support (bc : BaseCommitter) ds (decision_round : N) (leader_block : VerifiedBlock) :
    outcome bool :=
  let c := committee (bc_context bc) in
  decision_blocks ← get_uncommitted_blocks_at_round ds decision_round;
  block_stakes ← mapM (λ b, Committee_stake c (author b)) decision_blocks;
  if reached_quorum c (u64_sum block_stakes) then
    fst <$> aggregate_until (T := QuorumThreshold) c (λ b, ref_author (reference b))
      (is_certificate c ds leader_block) StakeAggregator_new ∅ decision_blocks
  else Done false.

Definition try_direct_decide (bc : BaseCommitter) ds (leader : Slot) : outcome LeaderStatus :=
  let voting_round := slot_round leader +₃₂ 1 in
  blamed ← enough_leader_blame bc ds voting_round (slot_authority leader);
  if blamed : bool then Done (LSkip leader)
  else
    let wave := wave_number (bc_options bc) (slot_round leader) in
    let decision_round := decision_round (bc_options bc) wave in
    leader_blocks ← get_uncommitted_blocks_at_slot ds leader;
    supported ← filter_outcome (enough_leader_support bc ds decision_round) leader_blocks;
    match supported with
    | [] => Done (LUndecided leader)
    | [b] => Done (LCommit b)
    | _ => Panic
    end.

(** ** The indirect rule *)

Definition decide_leader_from_anchor (bc : BaseCommitter) ds (anchor : VerifiedBlock) (leader_slot : Slot) :
    outcome LeaderStatus :=
  leader_blocks ← get_uncommitted_blocks_at_slot ds leader_slot;
  let wave := wave_number (bc_options bc) (slot_round leader_slot) in
  let decision_round := decision_round (bc_options bc) wave in
  potential_certificates ← ancestors_at_round ds anchor decision_round;
  certified ← filter_outcome (λ leader_block,
      fst <$> any_outcome (is_certificate (committee (bc_context bc)) ds leader_block) ∅ potential_certificates)
    leader_blocks;
  match certified with
  | [] => Done (LSkip leader_slot)
  | [b] => Done (LCommit b)
  | _ => Panic
  end.

(** The loop over the anchors: the first leader that is not skipped decides. *)
Fixpoint try_anchors (bc : BaseCommitter) ds (leader_slot : Slot) (anchors : list LeaderStatus) :
    outcome LeaderStatus :=
  match anchors with
  | [] => Done (LUndecided leader_slot)
  | LCommit anchor :: _ => decide_leader_from_anchor bc ds anchor leader_slot
  | LSkip _ :: anchors => try_anchors bc ds leader_slot anchors
  | LUndecided _ :: _ => Done (LUndecided leader_slot)
  end.

Definition try_indirect_decide (bc : BaseCommitter) ds (leader_slot : Slot) (leaders : list LeaderStatus) :
    outcome LeaderStatus :=
  try_anchors bc ds leader_slot
    (filter (λ x, slot_round leader_slot +₃₂ wave_length (bc_options bc) ≤ LeaderStatus_round x)%N leaders).

End committer.

(** ** Leader election *)

Definition BaseCommitter_elect_leader `{LeaderRng} (bc : BaseCommitter) (round : N) : outcome (option Slot) :=
  let wave := wave_number (bc_options bc) round in
  if decide (leader_round (bc_options bc) wave ≠ round) then Done None
  else
    a ← elect_leader (bc_leader_schedule bc) round (leader_offset (bc_options bc));
    Done (Some (mkSlot round a)).
