(* ===== verification/UniversalCommitter.v ===== *)
(** * The universal committer (consensus/core/src/universal_committer.rs)

    Decides leader slots from the highest round down, with the base committers of
    a pipeline, and returns the decided prefix. *)

From S2P Require Import Prelude Committee Block StakeAggregator ThresholdClock Commit Store LeaderScoring.
From S2P Require Import DagState LeaderSchedule BaseCommitter.

Record UniversalCommitter := mkUniversalCommitter {
  uc_context : Context;
  committers : list BaseCommitter;
}.

Section universal.
Context {S : Type} `{Store S} `{LeaderRng}.
Implicit Types ds : DagState S.

(** Deciding one slot: directly if possible, else with the leaders above it. *)
Definition decide_slot (committer : BaseCommitter) ds (slot : Slot)
    (leaders : list (LeaderStatus * LeaderDecision)) : outcome (LeaderStatus * LeaderDecision) :=
  status ← try_direct_decide committer ds slot;
  if LeaderStatus_is_decided status then Done (status, Direct)
  else
    status ← try_indirect_decide committer ds slot (map fst leaders);
    Done (status, Indirect).

(** The committers of one round, in reverse order. The flag tells that the last
    decided leader has been reached ([break 'outer]). *)
Fixpoint decide_round ds (last_decided : Slot) (round : N) (cs : list BaseCommitter)
    (leaders : list (LeaderStatus * LeaderDecision)) : outcome (list (LeaderStatus * LeaderDecision) * bool) :=
  match cs with
  | [] => Done (leaders, false)
  | committer :: cs =>
      o ← BaseCommitter_elect_leader committer round;
      match o with
      | None => decide_round ds last_decided round cs leaders
      | Some slot =>
          if decide (slot = last_decided) then Done (leaders, true)
          else
            decided ← decide_slot committer ds slot leaders;
            decide_round ds last_decided round cs (decided :: leaders)
      end
  end.

(** The rounds from the highest down. *)
Fixpoint decide_rounds (uc : UniversalCommitter) ds (last_decided : Slot) (rounds : list N)
    (leaders : list (LeaderStatus * LeaderDecision)) : outcome (list (LeaderStatus * LeaderDecision)) :=
  match rounds with
  | [] => Done leaders
  | round :: rounds =>
      '(leaders, reached) ← decide_round ds last_decided round (reverse (committers uc)) leaders;
      if reached : bool then Done leaders else decide_rounds uc ds last_decided rounds leaders
  end.

(** The longest prefix of decided leaders; genesis leaders are passed over. *)
Fixpoint decided_prefix (uc : UniversalCommitter) (leaders : list (LeaderStatus * LeaderDecision)) :
    outcome (list DecidedLeader) :=
  match leaders with
  | [] => Done []
  | (leader, decision) :: leaders =>
      if decide (LeaderStatus_round leader = GENESIS_ROUND) then decided_prefix uc leaders
      else match into_decided_leader leader (bool_decide (decision = Direct)) with
      | None => Done []
      | Some decided_leader =>
          (* the metrics look the leader's host name up *)
          authority (committee (uc_context uc)) (slot_authority (DecidedLeader_slot decided_leader));;
          rest ← decided_prefix uc leaders;
          Done (decided_leader :: rest)
      end
  end.

(** The first round to decide after [last_decided]. *)
Definition first_round (uc : UniversalCommitter) (last_decided : Slot) : N :=
  if decide (num_leaders_per_round (protocol_config (uc_context uc)) = Some 1%N)
  then slot_round last_decided +₃₂ 1 else slot_round last_decided.

Definition try_decide (uc : UniversalCommitter) ds (last_decided : Slot) : outcome (list DecidedLeader) :=
  let last_round := first_round uc last_decided in
  let rounds := reverse (rangeN last_round (highest_accepted_round ds - 2 + 1)) in
  leaders ← decide_rounds uc ds last_decided rounds [];
  decided_prefix uc leaders.

Definition get_leaders (uc : UniversalCommitter) (round : N) : outcome (list N) :=
  slots ← mapM (λ committer, BaseCommitter_elect_leader committer round) (committers uc);
  Done (map slot_authority (omap id slots)).

End universal.

(** ** The builder *)

Record UniversalCommitterBuilder := mkUniversalCommitterBuilder {
  ucb_context : Context;
  ucb_leader_schedule : LeaderSchedule;
  ucb_wave_length : N;
  ucb_number_of_leaders : N;
  ucb_pipeline : bool;
}.

Definition UniversalCommitterBuilder_new (ctx : Context) (schedule : LeaderSchedule) : UniversalCommitterBuilder :=
  mkUniversalCommitterBuilder ctx schedule DEFAULT_WAVE_LENGTH 1 false.

Definition with_number_of_leaders (number_of_leaders : N) (b : UniversalCommitterBuilder) : UniversalCommitterBuilder :=
  mkUniversalCommitterBuilder (ucb_context b) (ucb_leader_schedule b) (ucb_wave_length b)
    number_of_leaders (ucb_pipeline b).

Definition with_pipeline (pipeline : bool) (b : UniversalCommitterBuilder) : UniversalCommitterBuilder :=
  mkUniversalCommitterBuilder (ucb_context b) (ucb_leader_schedule b) (ucb_wave_length b)
    (ucb_number_of_leaders b) pipeline.

Definition build (b : UniversalCommitterBuilder) : UniversalCommitter :=
  let pipeline_stages := if ucb_pipeline b then ucb_wave_length b else 1%N in
  mkUniversalCommitter (ucb_context b)
    (round_offset ← rangeN 0 pipeline_stages;
     leader_offset ← rangeN 0 (ucb_number_of_leaders b);
     [BaseCommitter_new (ucb_context b) (ucb_leader_schedule b)
        (mkBaseCommitterOptions (ucb_wave_length b) leader_offset round_offset)]).
