(* ===== verification/CausalHistory.v ===== *)
(** * Causal history

    Blocks reachable through ancestor references, the validity conditions that
    the block verifier checks, views of a dag state that are causally complete
    above the gc round, and the correctness of [ancestors_at_round]. *)

From S2P Require Import Prelude Committee Block StakeAggregator ThresholdClock Commit Store LeaderScoring.
From S2P Require Import DagState DagInvariant.

(** [linked_to U b r]: the block [b] reaches the reference [r] through ancestors
    that are blocks of [U]. *)
Inductive linked_to (U : gmap BlockRef VerifiedBlock) : VerifiedBlock → BlockRef → Prop :=
  | linked_direct b r : r ∈ ancestors b → linked_to U b r
  | linked_step b r b' r' : r ∈ ancestors b → U !! r = Some b' → linked_to U b' r' → linked_to U b r'.

Lemma linked_to_trans U b r b' r' :
  linked_to U b r → U !! r = Some b' → linked_to U b' r' → linked_to U b r'.
Proof. induction 1; intros; eapply linked_step; eauto. Qed.

Lemma linked_to_mono U U' b r : U ⊆ U' → linked_to U b r → linked_to U' b r.
Proof.
  intros Hsub. induction 1; [by apply linked_direct|]. eapply linked_step; eauto. by eapply lookup_weaken.
Qed.

(** What [verify_block] checks of the links of a block: ancestors from earlier
    rounds, committee members, one per author, and a quorum from the previous
    round. *)
Definition parents (b : VerifiedBlock) : gset N :=
  list_to_set (ref_author <$> filter (λ r, (ref_round r + 1)%N = round b) (ancestors b)).

Record valid_block (c : Committee) (b : VerifiedBlock) : Prop := {
  vb_author : (author b < Committee_size c)%N;
  vb_rounds r : r ∈ ancestors b → (ref_round r < round b)%N;
  vb_authors r : r ∈ ancestors b → (ref_author r < Committee_size c)%N;
  vb_distinct : NoDup (ref_author <$> ancestors b);
  vb_parents : (quorum_threshold c ≤ set_stake c (parents b))%N;
}.

Lemma valid_block_iff c b :
  valid_block c b ↔ (author b < Committee_size c)%N ∧
    Forall (λ r, ref_round r < round b ∧ ref_author r < Committee_size c)%N (ancestors b) ∧
    NoDup (ref_author <$> ancestors b) ∧ (quorum_threshold c ≤ set_stake c (parents b))%N.
Proof.
  rewrite Forall_forall. split.
  - intros [Ha Hr Has Hd Hp]. naive_solver.
  - intros (Ha & Hr & Hd & Hp). split; [done|by apply Hr|by apply Hr|done|done].
Qed.

Lemma dec_iff (P Q : Prop) : (P ↔ Q) → Decision Q → Decision P.
Proof. intros HPQ [HQ|HQ]; [left|right]; by rewrite HPQ. Defined.

#[export] Instance valid_block_dec c b : Decision (valid_block c b).
Proof. eapply dec_iff; [apply valid_block_iff|apply _]. Defined.

(** Ancestors of the same author are the same reference. *)
Lemma vb_ancestor_inj c b r r' :
  valid_block c b → r ∈ ancestors b → r' ∈ ancestors b → ref_author r = ref_author r' → r = r'.
Proof.
  intros Hv Hr Hr' Ha. apply list_elem_of_lookup in Hr as [i Hi], Hr' as [j Hj].
  assert (i = j) as ->; [|congruence].
  eapply (NoDup_lookup _ _ _ (ref_author r) (vb_distinct _ _ Hv)).
  - by rewrite list_lookup_fmap, Hi.
  - by rewrite list_lookup_fmap, Hj, Ha.
Qed.

Section view.
Context {S : Type} `{StoreLaws S}.
Implicit Types ds : DagState S.

(** A dag state whose cached blocks are valid and causally complete above the gc
    round, as the block manager ensures. Rounds stay far from the [u32] bound. *)
Record dag_view (c : Committee) ds : Prop := {
  dv_ok : dag_ok ds;
  dv_committee : ds_committee ds = c;
  dv_valid r b : cached ds !! r = Some b → valid_block c b;
  dv_causal r b a : cached ds !! r = Some b → a ∈ ancestors b → (gc_round ds < ref_round a)%N →
    a ∈ dom (cached ds);
  dv_rounds : (ds_highest_accepted_round ds + 8 < u32_MAX)%N;
}.

(** [dag_view] of a well-formed state as a check that can be run. *)
Definition view_check (c : Committee) ds : bool :=
  bool_decide (ds_highest_accepted_round ds + 8 < u32_MAX)%N &&
  forallb (λ '(_, b), bool_decide (valid_block c b) &&
    forallb (λ a, bool_decide (ref_round a ≤ gc_round ds)%N || bool_decide (a ∈ dom (cached ds))) (ancestors b))
    (map_to_list (cached ds)).

Lemma view_check_ok c ds : dag_ok ds → ds_committee ds = c → view_check c ds = true → dag_view c ds.
Proof.
  intros Hok Hc [Hr Hall]%andb_true_iff. apply bool_decide_eq_true in Hr. rewrite forallb_forall in Hall.
  assert (∀ r b, cached ds !! r = Some b → valid_block c b ∧
    ∀ a, a ∈ ancestors b → (ref_round a ≤ gc_round ds)%N ∨ a ∈ dom (cached ds)) as Hblock.
  { intros r b Hb%elem_of_map_to_list%list_elem_of_In. specialize (Hall _ Hb). cbn in Hall.
    apply andb_true_iff in Hall as [Hv%bool_decide_eq_true Ha]. split; [done|]. intros a Hin.
    rewrite forallb_forall in Ha. specialize (Ha a (proj1 (list_elem_of_In _ _) Hin)).
    by apply orb_true_iff in Ha as [?%bool_decide_eq_true|?%bool_decide_eq_true]; [left|right]. }
  split; [done|done|intros r b Hb; by apply (Hblock r)| |done].
  intros r b a Hb Ha Hgc. destruct (proj2 (Hblock r b Hb) a Ha); [lia|done].
Qed.

Lemma dv_reference c ds r b : dag_view c ds → cached ds !! r = Some b → reference b = r.
Proof. intros Hv Hr. by destruct (dk_recent _ (dv_ok _ _ Hv) _ _ Hr). Qed.

Lemma dv_get_block c ds r b : dag_view c ds → cached ds !! r = Some b → get_block ds r = Done (Some b).
Proof.
  intros Hv Hr. rewrite get_block_spec. unfold block_of.
  destruct (dk_recent _ (dv_ok _ _ Hv) _ _ Hr) as [_ [_ Hz _]]. rewrite decide_False by done.
  by rewrite accepted_lookup, Hr.
Qed.

(** References reached through cached blocks, above the gc round, are cached. *)
Lemma linked_cached c ds b r :
  dag_view c ds → cached ds !! reference b = Some b → linked_to (cached ds) b r →
  (gc_round ds < ref_round r)%N → r ∈ dom (cached ds).
Proof.
  intros Hv Hb Hl. revert Hb. induction Hl as [b r Hr|b r b' r' Hr Hb' Hl IH]; intros Hb Hgc.
  - by eapply dv_causal.
  - apply IH; [|done]. by rewrite (dv_reference c ds r b').
Qed.

Lemma linked_round c ds b r :
  dag_view c ds → cached ds !! reference b = Some b → linked_to (cached ds) b r → (ref_round r < round b)%N.
Proof.
  intros Hv Hb Hl. revert Hb. induction Hl as [b r Hr|b r b' r' Hr Hb' Hl IH]; intros Hb.
  - apply (dv_valid _ _ Hv) in Hb. by eapply vb_rounds.
  - assert (reference b' = r) as Href by (by eapply dv_reference). rewrite Href in IH.
    specialize (IH Hb'). apply (dv_valid _ _ Hv) in Hb. pose proof (vb_rounds _ _ Hb r Hr).
    assert (round b' = ref_round r) by (by rewrite <- Href). lia.
Qed.

(** ** [ancestors_at_round] *)
Section ancestors.
Context (c : Committee) (ds : DagState S) (Hv : dag_view c ds).
Context (later : VerifiedBlock) (Hlater : cached ds !! reference later = Some later).
Context (er : N) (Her : (gc_round ds < er)%N).

(** The loop keeps references of the history, and every reference of the history
    at [er] is in the set or below one that still has to be expanded. *)
Record linked_inv (X : gset BlockRef) : Prop := {
  li_sound r : r ∈ X → linked_to (cached ds) later r;
  li_complete r : linked_to (cached ds) later r → ref_round r = er →
    r ∈ X ∨ ∃ x b, x ∈ X ∧ (er < ref_round x)%N ∧ cached ds !! x = Some b ∧ linked_to (cached ds) b r;
}.

(** The references that can still be expanded. *)
Definition pending (X : gset BlockRef) : gset BlockRef :=
  filter (λ r, (er < ref_round r)%N ∧ set_Exists (BlockRef_le r) X) (dom (cached ds)).

Lemma elem_of_pending X r :
  r ∈ pending X ↔ r ∈ dom (cached ds) ∧ (er < ref_round r)%N ∧ ∃ x, x ∈ X ∧ BlockRef_le r x.
Proof. unfold pending, set_Exists. rewrite elem_of_filter. tauto. Qed.

Lemma linked_inv_init : linked_inv (list_to_set (ancestors later)).
Proof.
  split.
  - intros r Hr%elem_of_list_to_set. by apply linked_direct.
  - intros r Hl Hr. inversion Hl as [? ? Hin|b x b' ? Hin Hb' Hl']; subst.
    + left. by apply elem_of_list_to_set.
    + right. exists x, b'. split_and!; [by apply elem_of_list_to_set| |done|done].
      assert (reference b' = x) as Href by (by eapply dv_reference).
      assert (ref_round r < round b')%N by (eapply linked_round; [done|by rewrite Href|done]).
      rewrite <- Href. done.
Qed.

Lemma linked_inv_step X x b :
  linked_inv X → x ∈ X → cached ds !! x = Some b → (er < ref_round x)%N →
  linked_inv (list_to_set (ancestors b) ∪ (X ∖ {[x]})).
Proof.
  intros [Hs Hc] Hx Hb Hgt. split.
  - intros r [Hr%elem_of_list_to_set|[Hr _]%elem_of_difference]%elem_of_union; [|by apply Hs].
    eapply linked_to_trans; [by apply Hs|done|by apply linked_direct].
  - intros r Hl Hr. destruct (Hc r Hl Hr) as [Hin|(y & by_ & Hy & Hyr & Hby & Hly)].
    + left. apply elem_of_union_r, elem_of_difference. split; [done|].
      intros ->%elem_of_singleton. lia.
    + destruct (decide (y = x)) as [->|Hne].
      2: { right. exists y, by_. split_and!; [set_solver|done|done|done]. }
      rewrite Hb in Hby. injection Hby as <-.
      inversion Hly as [? ? Hin|? z bz ? Hin Hbz Hlz]; subst; [left; set_solver|].
      right. exists z, bz. split_and!; [set_solver| |done|done].
      assert (reference bz = z) as Href by (by eapply dv_reference).
      assert (ref_round r < round bz)%N by (eapply linked_round; [done|by rewrite Href|done]).
      rewrite <- Href. done.
Qed.

Lemma pending_step X x b :
  x ∈ X → (∀ y, y ∈ X → BlockRef_le y x) → cached ds !! x = Some b → (er < ref_round x)%N →
  size (pending (list_to_set (ancestors b) ∪ (X ∖ {[x]}))) < size (pending X).
Proof.
  intros Hx Hmax Hb Hgt. apply subset_size. split.
  - intros r (Hr & Hrr & y & Hy & Hle)%elem_of_pending. apply elem_of_pending.
    split_and!; [done|done|]. exists x. split; [done|].
    apply elem_of_union in Hy as [Hy%elem_of_list_to_set|[Hy _]%elem_of_difference].
    + assert (reference b = x) as Href by (by eapply dv_reference).
      pose proof (vb_rounds _ _ (dv_valid _ _ Hv _ _ Hb) y Hy) as Hlt.
      pose proof (BlockRef_le_round _ _ Hle). left. rewrite <- Href. cbn. lia.
    + etrans; [exact Hle|]. by apply Hmax.
  - intros Hsub. assert (x ∈ pending X) as Hin.
    { apply elem_of_pending. split_and!; [by eapply elem_of_dom_2|done|]. by exists x. }
    apply Hsub, elem_of_pending in Hin as (_ & _ & y & Hy & Hle).
    apply elem_of_union in Hy as [Hy%elem_of_list_to_set|[Hy Hne]%elem_of_difference].
    + assert (reference b = x) as Href by (by eapply dv_reference).
      pose proof (vb_rounds _ _ (dv_valid _ _ Hv _ _ Hb) y Hy) as Hlt.
      pose proof (BlockRef_le_round _ _ Hle). rewrite <- Href in *. cbn in *. lia.
    + apply Hne. apply elem_of_singleton. apply (anti_symm BlockRef_le); [by apply Hmax|done].
Qed.

Lemma ancestors_loop_spec fuel X :
  linked_inv X → size (pending X) ≤ fuel →
  ∃ X', ancestors_loop ds er fuel X = Done X' ∧ linked_inv X' ∧ ∀ r, r ∈ X' → (ref_round r ≤ er)%N.
Proof.
  revert X. induction fuel as [|fuel IH]; intros X HX Hsize; cbn [ancestors_loop];
    destruct (refs_last X) as [x|] eqn:Hlast.
  2, 4: exists X; apply set_last_None in Hlast as ->; try apply _;
    split_and!; [done|done|by intros r Hr%not_elem_of_empty].
  all: apply set_last_Some in Hlast as [Hx Hmax]; try apply _; case_decide as Hle.
  1, 3: exists X; split_and!; [done|done|]; intros r Hr; pose proof (BlockRef_le_round _ _ (Hmax r Hr)); lia.
  all: assert (x ∈ dom (cached ds)) as [b Hb]%elem_of_dom by
    (eapply linked_cached; [done|done|by apply (li_sound X)|lia]).
  all: pose proof (pending_step X x b Hx Hmax Hb ltac:(lia)) as Hlt.
  - lia.
  - rewrite (dv_get_block c ds x b) by done. cbn [mbind outcome_bind unwrap].
    apply IH; [apply linked_inv_step; (done || lia)|lia].
Qed.

(** The history at a round. *)
Lemma ancestors_at_round_spec :
  ∃ l, ancestors_at_round ds later er = Done l ∧
    ∀ b, b ∈ l ↔ cached ds !! reference b = Some b ∧ round b = er ∧ linked_to (cached ds) later (reference b).
Proof.
  unfold ancestors_at_round.
  destruct (ancestors_loop_spec (size (ds_recent_blocks ds)) (list_to_set (ancestors later)))
    as (X & -> & [Hs Hc] & Hle).
  { apply linked_inv_init. }
  { transitivity (size (dom (cached ds))); [apply subseteq_size; by intros r [? _]%elem_of_pending|].
    rewrite dom_cached, size_dom. done. }
  run_bind. set (L := filter _ _).
  assert (∀ r, r ∈ L ↔ linked_to (cached ds) later r ∧ ref_round r = er) as HL.
  { intros r. unfold L. rewrite list_elem_of_filter, elem_of_set_in_order. split.
    - intros [Hr Hin]. split; [by apply Hs|]. pose proof (Hle r Hin). apply BlockRef_le_round in Hr. cbn in Hr. lia.
    - intros [Hl Hr]. split.
      + unfold BlockRef_le, AuthorityIndex_ZERO, BlockDigest_MIN. cbn. lia.
      + destruct (Hc r Hl Hr) as [|(x & b & Hx & Hgt & _)]; [done|]. pose proof (Hle x Hx). lia. }
  assert (∀ r, r ∈ L → ∃ b, cached ds !! r = Some b) as HLc.
  { intros r [Hl Hr]%HL. apply elem_of_dom. eapply linked_cached; [done|done|done|lia]. }
  exists (omap (λ r, cached ds !! r) L). split.
  - clear HL. induction L as [|r L IH]; [done|]. destruct (HLc r) as [b Hb]; [apply list_elem_of_here|].
    cbn [mapM omap list_omap]. rewrite (dv_get_block c ds r b), Hb by done.
    cbn [mbind outcome_bind unwrap]. unfold omap in IH. rewrite IH by (intros; apply HLc, list_elem_of_further; done). done.
  - intros b. rewrite list_elem_of_omap. split.
    + intros (r & [Hl Hr]%HL & Hb). assert (reference b = r) as Href by (by eapply dv_reference).
      rewrite Href. split_and!; [done| |done]. rewrite <- Hr, <- Href. done.
    + intros (Hb & Hr & Hl). exists (reference b). split; [|done]. by apply HL.
Qed.

End ancestors.
End view.
