(* ===== verification/LeaderSlotDecider.v ===== *)
(** * Commit rule v3 (consensus/core/src/leader_slot_decider.rs)

    The decision logic that works on the vote accounting of the dag state: a slot
    is decided directly from the blocks of the next round, or indirectly from
    the history of a later anchor block. *)

From S2P Require Import Prelude Committee Block StakeAggregator ThresholdClock Commit Store LeaderScoring.
From S2P Require Import DagState.

(** Minimum number of rounds between an anchor and the leader it decides. *)
Definition INDIRECT_COMMIT_DEPTH : N := 2.

Record LeaderSlotDecider := mkLeaderSlotDecider { lsd_context : Context }.

(** [for r in refs { agg.add_unique(r.author, committee) }]. *)
Definition add_all {T} (c : Committee) (agg : StakeAggregator T) (refs : list BlockRef) : outcome (StakeAggregator T) :=
  for_each (λ agg r, '(agg, _) ← agg_add_unique agg (ref_author r) c; Done agg) agg refs.

(** The loop on the blocks of the slot: an early return, or the number of skipped
    blocks. *)
Fixpoint direct_loop (c : Committee) (voting_round_info : RoundInfo) (num_skipped : N) (block_infos : list BlockInfo) :
    outcome (LeaderStatus + N) :=
  match block_infos with
  | [] => Done (inr num_skipped)
  | info :: block_infos =>
      reject_votes ← add_all c (StakeAggregator_new : StakeAggregator QuorumThreshold)
        (refs_in_order (ri_blocks voting_round_info ∖ bi_children info));
      let block_rejected := reached_threshold reject_votes c in
      let num_skipped := if block_rejected then (num_skipped + 1)%N else num_skipped in
      if reached_threshold (bi_children_stake info) c then
        rassert (block_rejected = false);;
        Done (inl (LCommit (bi_block info)))
      else direct_loop c voting_round_info num_skipped block_infos
  end.

Section decider.
Context {S : Type} `{Store S}.
Implicit Types ds : DagState S.

Definition slot_try_direct_decide (d : LeaderSlotDecider) ds (slot : Slot) : outcome LeaderStatus :=
  let c := committee (lsd_context d) in
  o ← get_round_info ds (slot_round slot +₃₂ 1);
  match o with
  | None => Done (LUndecided slot)
  | Some voting_round_info =>
      if reached_threshold (ri_total_stake voting_round_info) c then
        block_infos ← get_block_info_at_slot ds slot;
        r ← direct_loop c voting_round_info 0 block_infos;
        match r with
        | inl status => Done status
        | inr num_skipped =>
            if decide (num_skipped = lengthN block_infos) then Done (LSkip slot) else Done (LUndecided slot)
        end
      else Done (LUndecided slot)
  end.

(** The state of the search: the queue, the visited references and the votes. *)
Definition search_state : Type :=
  list VerifiedBlock * gset BlockRef * gmap BlockRef (StakeAggregator CertificationThreshold).

Definition visit_ancestor ds (c : Committee) (decision_round : N) (decision_blocks : gset BlockRef) (block : VerifiedBlock)
    (st : search_state) (ancestor : BlockRef) : outcome search_state :=
  let '(to_visit, visited, votes) := st in
  '(to_visit, visited) ← (if decide (decision_round < ref_round ancestor ∧ ancestor ∉ visited)%N then
      o ← get_block ds ancestor;
      ancestor_block ← unwrap o;
      Done (to_visit ++ [ancestor_block], {[ancestor]} ∪ visited)
    else Done (to_visit, visited));
  if decide (ancestor ∈ decision_blocks ∧ round block = decision_round +₃₂ 1) then
    '(commit_stake, _) ← agg_add_unique (default StakeAggregator_new (votes !! ancestor)) (author block) c;
    Done (to_visit, visited, <[ancestor := commit_stake]> votes)
  else Done (to_visit, visited, votes).

Fixpoint search_loop ds (c : Committee) (decision_round : N) (decision_blocks : gset BlockRef) (fuel : nat)
    (st : search_state) : outcome (gmap BlockRef (StakeAggregator CertificationThreshold)) :=
  let '(to_visit, visited, votes) := st in
  match to_visit with
  | [] => Done votes
  | block :: to_visit =>
      match fuel with
      | O => OutOfFuel
      | Datatypes.S fuel =>
          st ← for_each (visit_ancestor ds c decision_round decision_blocks block) (to_visit, visited, votes) (ancestors block);
          search_loop ds c decision_round decision_blocks fuel st
      end
  end.

(** Collecting the certified blocks per slot. *)
Definition certify ds (c : Committee) (certified_slots : gmap Slot (list VerifiedBlock))
    (x : BlockRef * StakeAggregator CertificationThreshold) : outcome (gmap Slot (list VerifiedBlock)) :=
  let '(block_ref, commit_stake) := x in
  let slot := mkSlot (ref_round block_ref) (ref_author block_ref) in
  if reached_threshold commit_stake c then
    o ← get_block ds block_ref;
    b ← unwrap o;
    Done (<[slot := default [] (certified_slots !! slot) ++ [b]]> certified_slots)
  else Done certified_slots.

Definition slot_decision (certified_slots : gmap Slot (list VerifiedBlock)) (slot : Slot) : LeaderStatus :=
  match default [] (certified_slots !! slot) with
  | [b] => LCommit b
  | _ => LSkip slot
  end.

(** Every block that is visited is put into [visited] once, and is a block of the
    dag; the blocks in memory and the anchor bound the number of iterations. *)
Definition slot_try_indirect_decide (d : LeaderSlotDecider) ds (anchor_block : VerifiedBlock) (decision_slots : list Slot) :
    outcome (list LeaderStatus) :=
  let c := committee (lsd_context d) in
  first_slot ← unwrap (head decision_slots);
  let decision_round := slot_round first_slot in
  rassert (Forall (λ s, slot_round s = decision_round) decision_slots);;
  rassert (decision_round +₃₂ INDIRECT_COMMIT_DEPTH ≤ round anchor_block)%N;;
  blocks ← mapM (get_uncommitted_blocks_at_slot ds) decision_slots;
  let decision_blocks : gset BlockRef := list_to_set (map reference (concat blocks)) in
  votes ← search_loop ds c decision_round decision_blocks (Datatypes.S (size (ds_recent_blocks ds)))
    ([anchor_block], {[reference anchor_block]}, ∅);
  certified_slots ← for_each (certify ds c) ∅ (entries_in_order votes);
  Done (map (slot_decision certified_slots) decision_slots).

End decider.
