(* ===== verification/BlockVerifier.v ===== *)
(** * Block verification (consensus/core/src/block_verifier.rs, block.rs)

    The checks a block of a peer passes before it is a [VerifiedBlock]: epoch,
    author, signature, ancestors, parent stake and transaction limits. The
    signature scheme and the bcs encoding are external, as is the application's
    transaction verifier. The theorems characterise the accepted blocks exactly
    and show that they satisfy [valid_block], on which the safety of the commit
    rules rests. *)

From S2P Require Import Prelude Committee Block StakeAggregator ThresholdClock Commit Store LeaderScoring.
From S2P Require Import DagState DagInvariant DagDurability CausalHistory.

(** ** External code *)

(** The encoding of blocks and signing messages, and the protocol key scheme. *)
Class BlockCrypto := {
  Signature : Type;
  bcs_block : Block → option (list N);
  bcs_block_intent : N → option (list N);
  signature_from_bytes : list N → option Signature;
  protocol_key_verify : list N → list N → Signature → bool;
}.

Inductive ValidationError :=
  | VInvalidTransaction (reason : string).

Definition ValidationError_to_string (e : ValidationError) : string :=
  match e with VInvalidTransaction reason => ("Invalid transaction: " ++ reason)%string end.

Class TransactionVerifier := {
  verify_batch : list (list N) → result () ValidationError;
  verify_and_vote_batch : BlockRef → list (list N) → result (list N) ValidationError;
}.

(** ** Signatures *)
Section verifier.
Context `{BlockCodec} `{BlockCrypto} `{TransactionVerifier}.

Definition compute_inner_block_digest (block : Block) : ConsensusResult N :=
  match bcs_block block with
  | Some bytes => Ok (hash_bytes bytes)
  | None => Err SerializationFailure
  end.

Definition verify_block_signature (block : Block) (signature protocol_pubkey : list N) :
    ConsensusResult () :=
  match compute_inner_block_digest block with
  | Err e => Err e
  | Ok digest =>
      match bcs_block_intent digest with
      | None => Err SerializationFailure
      | Some message =>
          match signature_from_bytes signature with
          | None => Err MalformedSignature
          | Some sig =>
              if protocol_key_verify protocol_pubkey message sig then Ok ()
              else Err SignatureVerificationFailure
          end
      end
  end.

Definition verify_signature (ctx : Context) (sb : SignedBlock) : outcome (ConsensusResult ()) :=
  let block := inner sb in
  let c := committee ctx in
  ensure (is_valid_index c (Block_author block) = true)
    (InvalidAuthorityIndex (Block_author block) (Committee_size c -₆₄ 1)) ?;
  a ← authority c (Block_author block);
  Done (verify_block_signature block (signature sb) (protocol_key a)).

(** ** The verifier *)
Record SignedBlockVerifier := mkSignedBlockVerifier {
  bv_context : Context;
  bv_genesis : gset BlockRef;
}.

Definition SignedBlockVerifier_new (ctx : Context) : outcome SignedBlockVerifier :=
  blocks ← genesis_blocks ctx;
  Done (mkSignedBlockVerifier ctx (list_to_set (map reference blocks))).

(** One iteration of the loop on the ancestors; the state is the position, the
    vector [seen_ancestors] and [parent_stakes]. *)
Definition check_ancestor (v : SignedBlockVerifier) (block : Block) (st : N * list bool * N)
    (ancestor : BlockRef) : outcome (ConsensusResult (N * list bool * N)) :=
  let c := committee (bv_context v) in
  let '(i, seen_ancestors, parent_stakes) := st in
  ensure (is_valid_index c (ref_author ancestor) = true)
    (InvalidAuthorityIndex (ref_author ancestor) (Committee_size c -₆₄ 1)) ?;
  ensure (¬ ((i = 0%N ∧ ref_author ancestor ≠ Block_author block) ∨
             ((0 < i)%N ∧ ref_author ancestor = Block_author block)))
    (InvalidAncestorPosition (Block_author block) (ref_author ancestor) i) ?;
  ensure (¬ (Block_round block ≤ ref_round ancestor)%N)
    (InvalidAncestorRound (ref_round ancestor) (Block_round block)) ?;
  ensure (¬ (ref_round ancestor = GENESIS_ROUND ∧ ancestor ∉ bv_genesis v))
    (InvalidGenesisAncestor ancestor) ?;
  seen ← vec_index seen_ancestors (ref_author ancestor);
  ensure (seen = false) (DuplicatedAncestorsAuthority (ref_author ancestor)) ?;
  seen_ancestors ← vec_set seen_ancestors (ref_author ancestor) true;
  parent_round ← unwrap (checked_sub (Block_round block) 1);
  parent_stakes ← (if decide (ref_round ancestor = parent_round) then
                     s ← Committee_stake c (ref_author ancestor);
                     Done (parent_stakes +₆₄ s)
                   else Done parent_stakes);
  Done (Ok ((i + 1)%N, seen_ancestors, parent_stakes)).

Definition check_transactions (v : SignedBlockVerifier) (batch : list (list N)) :
    outcome (ConsensusResult ()) :=
  let config := protocol_config (bv_context v) in
  let max_size := max_transaction_size_bytes config in
  try_each (λ _ t, ensure (¬ ((max_size < lengthN t)%N ∧ (0 < max_size)%N))
    (TransactionTooLarge (lengthN t) max_size)) () batch ?;
  let max_num := max_num_transactions_in_block config in
  ensure (¬ ((max_num < lengthN batch)%N ∧ (0 < max_num)%N)) (TooManyTransactions (lengthN batch) max_num) ?;
  let max_bytes := max_transactions_in_block_bytes config in
  ensure (¬ ((max_bytes < u64_sum (map lengthN batch))%N ∧ (0 < max_bytes)%N))
    (TooManyTransactionBytes (lengthN batch) max_bytes) ?;
  Done (Ok ()).

Definition verify_block (v : SignedBlockVerifier) (sb : SignedBlock) : outcome (ConsensusResult ()) :=
  let c := committee (bv_context v) in
  let block := inner sb in
  ensure (Block_epoch block = epoch c) (WrongEpoch (epoch c) (Block_epoch block)) ?;
  ensure (Block_round block ≠ 0%N) UnexpectedGenesisBlock ?;
  ensure (is_valid_index c (Block_author block) = true)
    (InvalidAuthorityIndex (Block_author block) (Committee_size c -₆₄ 1)) ?;
  verify_signature (bv_context v) sb ?;
  ensure (lengthN (Block_ancestors block) ≤ Committee_size c)%N
    (TooManyAncestors (lengthN (Block_ancestors block)) (Committee_size c)) ?;
  ensure (Block_ancestors block ≠ []) (InsufficientParentStakes 0 (quorum_threshold c)) ?;
  st ?← try_each (check_ancestor v block)
    (0%N, replicate (N.to_nat (Committee_size c)) false, 0%N) (Block_ancestors block);
  let '(_, _, parent_stakes) := st in
  ensure (reached_quorum c parent_stakes = true)
    (InsufficientParentStakes parent_stakes (quorum_threshold c)) ?;
  check_transactions v (map data (Block_transactions block)).

Definition vote (block : VerifiedBlock) : ConsensusResult (list N) :=
  match verify_and_vote_batch (reference block) (Block_transactions_data (inner (signed_block block))) with
  | Ok rejected => Ok rejected
  | Err e => Err (InvalidTransaction (ValidationError_to_string e))
  end.

Definition verify_and_vote (v : SignedBlockVerifier) (sb : SignedBlock) (serialized_block : list N) :
    outcome (ConsensusResult (VerifiedBlock * list N)) :=
  verify_block v sb ?;
  let verified_block := new_verified sb serialized_block in
  if transaction_voting_enabled (protocol_config (bv_context v)) then
    rejected ?← Done (vote verified_block);
    Done (Ok (verified_block, rejected))
  else
    match verify_batch (Block_transactions_data (inner sb)) with
    | Ok _ => Done (Ok (verified_block, []))
    | Err e => Done (Err (InvalidTransaction (ValidationError_to_string e)))
    end.

End verifier.

(** ** What the verifier accepts *)

(** Conditions on the ancestor at one position. *)
Definition ancestor_ok (v : SignedBlockVerifier) (block : Block) (i : nat) (r : BlockRef) : Prop :=
  (ref_author r < Committee_size (committee (bv_context v)))%N ∧
  (i = 0 ↔ ref_author r = Block_author block) ∧
  (ref_round r < Block_round block)%N ∧
  (ref_round r = GENESIS_ROUND → r ∈ bv_genesis v).

(** Authors of the ancestors of the previous round. *)
Definition parent_authors (block : Block) (l : list BlockRef) : gset N :=
  list_to_set (ref_author <$> filter (λ r, (ref_round r + 1)%N = Block_round block) l).

(** Limits on the transactions of a block; a limit of 0 is no limit. *)
Definition within (limit x : N) : Prop := limit = 0%N ∨ (x ≤ limit)%N.

Definition transactions_ok (config : ProtocolConfig) (batch : list (list N)) : Prop :=
  (∀ t, t ∈ batch → within (max_transaction_size_bytes config) (lengthN t)) ∧
  within (max_num_transactions_in_block config) (lengthN batch) ∧
  within (max_transactions_in_block_bytes config) (sumN (map lengthN batch)).

Record block_accepted `{BlockCodec} `{BlockCrypto} (v : SignedBlockVerifier) (sb : SignedBlock) : Prop := {
  ba_epoch : Block_epoch (inner sb) = epoch (committee (bv_context v));
  ba_round : (0 < Block_round (inner sb))%N;
  ba_author : (Block_author (inner sb) < Committee_size (committee (bv_context v)))%N;
  ba_signature a : authority (committee (bv_context v)) (Block_author (inner sb)) = Done a →
    verify_block_signature (inner sb) (signature sb) (protocol_key a) = Ok ();
  ba_ancestors i r : Block_ancestors (inner sb) !! i = Some r → ancestor_ok v (inner sb) i r;
  ba_nonempty : Block_ancestors (inner sb) ≠ [];
  ba_distinct : NoDup (ref_author <$> Block_ancestors (inner sb));
  ba_quorum : (quorum_threshold (committee (bv_context v)) ≤
    set_stake (committee (bv_context v)) (parent_authors (inner sb) (Block_ancestors (inner sb))))%N;
  ba_transactions : transactions_ok (protocol_config (bv_context v)) (map data (Block_transactions (inner sb)));
}.

Section loop.
Context (v : SignedBlockVerifier) (block : Block).
Abbreviation c := (committee (bv_context v)).
Context (Hc : committee_ok c) (Hround : (0 < Block_round block)%N).

(** The vector [seen_ancestors] and the state after the ancestors [pre]. *)
Definition seen_of (pre : list BlockRef) : list bool :=
  (λ a, bool_decide (a ∈ ref_author <$> pre)) <$> rangeN 0 (Committee_size c).

Definition state_of (pre : list BlockRef) : N * list bool * N :=
  (lengthN pre, seen_of pre, set_stake c (parent_authors block pre)).

Lemma seen_of_lookup pre a :
  (a < Committee_size c)%N → vec_index (seen_of pre) a = Done (bool_decide (a ∈ ref_author <$> pre)).
Proof.
  intros Ha. apply vec_index_some. unfold seen_of. rewrite list_lookup_fmap.
  assert (rangeN 0 (Committee_size c) !! N.to_nat a = Some a) as ->; [|done].
  unfold rangeN. rewrite list_lookup_fmap, lookup_seq_lt by lia. cbn. f_equal. lia.
Qed.

Lemma seen_of_insert pre r :
  (ref_author r < Committee_size c)%N →
  vec_set (seen_of pre) (ref_author r) true = Done (seen_of (pre ++ [r])).
Proof.
  intros Ha. apply vec_set_Done. unfold seen_of. rewrite length_fmap, rangeN_length. split; [lia|].
  apply list_eq. intros i. rewrite list_lookup_insert, !list_lookup_fmap, length_fmap, rangeN_length.
  case_decide as Hi.
  - destruct Hi as [<- Hi]. rewrite rangeN_lookup by lia. cbn. f_equal.
    apply bool_decide_eq_true_2. rewrite fmap_app, N.add_0_l, N2Nat.id. set_solver.
  - destruct (decide (i < N.to_nat (Committee_size c))) as [Hlt|Hge].
    + rewrite rangeN_lookup by lia. cbn. f_equal. apply bool_decide_ext. rewrite fmap_app, N.add_0_l. cbn.
      assert (N.of_nat i ≠ ref_author r) by lia. set_solver.
    + rewrite lookup_ge_None_2; [done|]. rewrite rangeN_length. lia.
Qed.

Lemma seen_of_nil : seen_of [] = replicate (N.to_nat (Committee_size c)) false.
Proof.
  unfold seen_of. rewrite <- (N.sub_0_r (Committee_size c)) at 2. rewrite <- rangeN_length.
  rewrite <- const_fmap with (f := λ _ : N, false) by done.
  apply list_fmap_ext. intros. by apply bool_decide_eq_false_2, not_elem_of_nil.
Qed.

Lemma parent_authors_snoc pre r :
  parent_authors block (pre ++ [r]) =
    if decide ((ref_round r + 1)%N = Block_round block) then {[ref_author r]} ∪ parent_authors block pre
    else parent_authors block pre.
Proof.
  unfold parent_authors. rewrite filter_app, fmap_app, list_to_set_app_L, filter_cons. case_decide; cbn; set_solver.
Qed.

Lemma parent_authors_sub pre a : a ∈ parent_authors block pre → a ∈ ref_author <$> pre.
Proof.
  unfold parent_authors. rewrite elem_of_list_to_set, !list_elem_of_fmap.
  intros (r & -> & [_ Hr]%list_elem_of_filter). by exists r.
Qed.

(** One iteration accepts exactly the ancestors that satisfy [ancestor_ok] and
    are by an author not seen before. *)
Lemma check_ancestor_spec pre r :
  decides (check_ancestor v block (state_of pre) r) (state_of (pre ++ [r]))
    (ancestor_ok v block (length pre) r ∧ ref_author r ∉ ref_author <$> pre).
Proof using Hc Hround.
  unfold check_ancestor, state_of, ancestor_ok, is_valid_index, lengthN.
  apply decides_ensure; rewrite bool_decide_eq_true; [tauto|intros Ha].
  apply decides_ensure; [lia|intros Hp]. apply decides_ensure; [lia|intros Hr]. apply decides_ensure; [tauto|intros Hg].
  rewrite seen_of_lookup by done. run_bind.
  apply decides_ensure; rewrite bool_decide_eq_false; [tauto|intros Hs].
  rewrite seen_of_insert by done. run_bind.
  unfold checked_sub. rewrite decide_True by lia. cbn [mbind outcome_bind unwrap].
  rewrite parent_authors_snoc, length_app. replace (N.of_nat (length pre + length [r])) with (N.of_nat (length pre) + 1)%N by (cbn; lia).
  assert ((if decide (ref_round r = (Block_round block - 1)%N) then
             s ← Committee_stake c (ref_author r); Done (set_stake c (parent_authors block pre) +₆₄ s)
           else Done (set_stake c (parent_authors block pre))) =
    Done (set_stake c (if decide ((ref_round r + 1)%N = Block_round block) then {[ref_author r]} ∪ parent_authors block pre
      else parent_authors block pre))) as ->.
  { case_decide; case_decide; try lia; [|done]. rewrite Committee_stake_valid by done. cbn.
    rewrite set_stake_add; [done|done|intros ?%parent_authors_sub; done]. }
  apply decides_Ok. split; [|done]. split_and!; [done|destruct (length pre); lia|lia|].
  intros. destruct (decide (r ∈ bv_genesis v)); tauto.
Qed.

Definition ancestors_ok (l : list BlockRef) : Prop :=
  (∀ i r, l !! i = Some r → ancestor_ok v block i r) ∧ NoDup (ref_author <$> l).

Lemma ancestors_ok_snoc pre r :
  ancestors_ok (pre ++ [r]) ↔
    ancestors_ok pre ∧ ancestor_ok v block (length pre) r ∧ ref_author r ∉ ref_author <$> pre.
Proof.
  unfold ancestors_ok. rewrite fmap_app, NoDup_app. cbn. setoid_rewrite lookup_snoc_Some. split.
  - intros (Hall & Hnd & Hd & _). split_and!; [|done|by eauto|].
    + intros i r' Hi. apply Hall. left. split; [by apply lookup_lt_Some in Hi|done].
    + intros Hin. apply (Hd _ Hin). apply list_elem_of_here.
  - intros ([Hall Hnd] & Hr & Hn). split_and!; [intros i r' [[_ Hi]|[-> <-]]; by auto|done| |apply NoDup_singleton].
    intros x Hx ->%list_elem_of_singleton. done.
Qed.

Lemma ancestors_ok_app pre l : ancestors_ok (pre ++ l) → ancestors_ok pre.
Proof.
  induction l as [|r l IH] using rev_ind; [by rewrite app_nil_r|].
  rewrite (assoc app), ancestors_ok_snoc. tauto.
Qed.

Lemma check_ancestors_spec pre l :
  ancestors_ok pre →
  decides (try_each (check_ancestor v block) (state_of pre) l) (state_of (pre ++ l)) (ancestors_ok (pre ++ l)).
Proof using Hc Hround.
  revert pre. induction l as [|r l IH]; intros pre Hpre; cbn [try_each].
  { rewrite app_nil_r. by apply decides_Ok. }
  specialize (IH (pre ++ [r])). rewrite <- (assoc app) in IH. cbn in IH.
  eapply decides_bind; [apply check_ancestor_spec| |].
  - change (r :: l) with ([r] ++ l). rewrite (assoc app). intros Hok%ancestors_ok_app%ancestors_ok_snoc. tauto.
  - intros Hr. apply IH. by apply ancestors_ok_snoc.
Qed.

End loop.

(** ** Correctness of the verifier *)
Section correct.
Context `{BlockCodec} `{BlockCrypto} `{TransactionVerifier}.
Implicit Types v : SignedBlockVerifier.

Lemma verify_signature_spec ctx sb :
  decides (verify_signature ctx sb) ()
    ((Block_author (inner sb) < Committee_size (committee ctx))%N ∧
     ∀ a, authority (committee ctx) (Block_author (inner sb)) = Done a →
       verify_block_signature (inner sb) (signature sb) (protocol_key a) = Ok ()).
Proof.
  unfold verify_signature, is_valid_index. apply decides_ensure; rewrite bool_decide_eq_true; [tauto|intros Ha].
  destruct (lookup_lt_is_Some_2 (authorities (committee ctx)) (N.to_nat (Block_author (inner sb)))) as [a Ha'].
  { unfold Committee_size, lengthN in Ha. lia. }
  assert (authority (committee ctx) (Block_author (inner sb)) = Done a) as -> by (by apply vec_index_some).
  run_bind. destruct (verify_block_signature _ _ _) as [[]|e] eqn:Hv.
  - apply decides_Ok. split; [done|]. by intros ? [= <-].
  - left. exists e. split; [done|]. intros [_ Hok]. rewrite (Hok a) in Hv by done. done.
Qed.

Lemma check_transactions_spec v batch :
  (sumN (map lengthN batch) < u64_modulus)%N →
  decides (check_transactions v batch) () (transactions_ok (protocol_config (bv_context v)) batch).
Proof.
  intros Hsum. unfold check_transactions, transactions_ok, within. rewrite u64_sum_small by done.
  eapply decides_bind; [apply decides_each; intros t; apply decides_check| |].
  { intros (Hall & _). apply Forall_forall. intros t Ht. specialize (Hall t Ht). lia. }
  intros Hall. apply decides_ensure; [lia|intros Hnum]. apply decides_ensure; [lia|intros Hbytes].
  apply decides_Ok. split_and!; [|lia|lia]. intros t Ht. rewrite Forall_forall in Hall. specialize (Hall t Ht). lia.
Qed.

Lemma verify_block_spec v sb :
  committee_ok (committee (bv_context v)) →
  (sumN (map lengthN (map data (Block_transactions (inner sb)))) < u64_modulus)%N →
  decides (verify_block v sb) () (block_accepted v sb).
Proof.
  intros Hc Hsum. unfold verify_block. set (c := committee (bv_context v)) in *.
  apply decides_ensure; [by intros []|intros Hepoch].
  apply decides_ensure; [intros [? ?]; lia|intros Hround].
  apply decides_ensure; unfold is_valid_index; rewrite bool_decide_eq_true; [by intros []|intros Hauthor].
  eapply decides_bind; [apply verify_signature_spec|by intros []|]. intros [_ Hsig].
  apply decides_ensure.
  { intros Hb. unfold lengthN. pose proof (ba_distinct _ _ Hb) as Hd.
    assert (length (ref_author <$> Block_ancestors (inner sb)) ≤ length (rangeN 0 (Committee_size c))) as Hle.
    { apply submseteq_length, NoDup_submseteq; [done|]. intros a (r & -> & [i Hi]%list_elem_of_lookup)%list_elem_of_fmap.
      apply elem_of_rangeN. destruct (ba_ancestors _ _ Hb i r Hi) as [? _]. unfold c. lia. }
    rewrite length_fmap, rangeN_length in Hle. lia. }
  intros Hlen. apply decides_ensure; [by intros []|intros Hne].
  pose proof (check_ancestors_spec v (inner sb) Hc ltac:(lia) [] (Block_ancestors (inner sb))) as Hloop.
  unfold state_of in Hloop. rewrite seen_of_nil in Hloop. cbn [app lengthN length] in Hloop.
  replace (set_stake c (parent_authors (inner sb) [])) with 0%N in Hloop by (symmetry; apply set_sum_empty).
  eapply decides_bind; [apply Hloop; split; [done|apply NoDup_nil_2]|by intros []|intros [Hanc Hnd]].
  apply decides_ensure; unfold reached_quorum; rewrite bool_decide_eq_true; [by intros []|intros Hq].
  eapply decides_proper; [|by apply check_transactions_spec].
  split; [|by intros []]. intros Htx. split; try done. lia.
Qed.

(** An accepted block, as a verified block, has the links the commit rules need. *)
Lemma block_accepted_valid v sb bytes :
  block_accepted v sb → valid_block (committee (bv_context v)) (new_verified sb bytes).
Proof.
  intros Hb. assert (∀ r, r ∈ Block_ancestors (inner sb) → ∃ i, ancestor_ok v (inner sb) i r) as Hanc.
  { intros r [i Hi]%list_elem_of_lookup. exists i. by apply (ba_ancestors _ _ Hb). }
  split; cbn; [apply Hb| | |apply Hb|apply Hb]; intros r (i & ? & ? & ? & ?)%Hanc; done.
Qed.

(** C23: the block verifier accepts exactly the well-formed blocks. It never panics,
    and it succeeds if and only if the block is of the current epoch, of a
    positive round and by a member of the committee whose key verifies its
    signature; its ancestors are by distinct members, the first one its own, of
    earlier rounds, those of round 0 genuine genesis blocks; the ancestors of
    the previous round have a quorum of stake; and its transactions respect the
    three limits. *)
Theorem verify_block_exact v sb :
  committee_ok (committee (bv_context v)) →
  (sumN (map lengthN (map data (Block_transactions (inner sb)))) < u64_modulus)%N →
  is_done (verify_block v sb) ∧ (verify_block v sb = Done (Ok ()) ↔ block_accepted v sb).
Proof.
  intros Hc Hsum. pose proof (verify_block_spec v sb Hc Hsum) as Hd.
  split; [by eapply decides_done|]. rewrite (decides_iff _ _ _ _ Hd). tauto.
Qed.

(** C24: what the node puts into its dag is valid. When [verify_and_vote] returns a
    block, it is the submitted block with the digest of the submitted bytes, it
    satisfies [valid_block] (the assumption of the commit rules on all blocks),
    its own previous block comes first and is its only ancestor by its author,
    and the application accepted its transactions: all of them, or, when voting
    is on, all but the returned ones. *)
Theorem verify_and_vote_sound v sb bytes b rejected :
  committee_ok (committee (bv_context v)) →
  (sumN (map lengthN (map data (Block_transactions (inner sb)))) < u64_modulus)%N →
  verify_and_vote v sb bytes = Done (Ok (b, rejected)) →
  signed_block b = sb ∧ digest b = compute_digest bytes ∧ (0 < round b)%N ∧
  valid_block (committee (bv_context v)) b ∧
  (∀ i r, ancestors b !! i = Some r → i = 0 ↔ ref_author r = author b) ∧
  (if transaction_voting_enabled (protocol_config (bv_context v))
   then verify_and_vote_batch (reference b) (Block_transactions_data (inner sb)) = Ok rejected
   else rejected = [] ∧ verify_batch (Block_transactions_data (inner sb)) = Ok ()).
Proof.
  intros Hc Hsum [[] [Hok Hrest]]%try_bind_Ok.
  apply (decides_iff _ _ _ _ (verify_block_spec v sb Hc Hsum)) in Hok as [Hok _].
  assert (b = new_verified sb bytes ∧ (if transaction_voting_enabled (protocol_config (bv_context v))
     then verify_and_vote_batch (reference (new_verified sb bytes)) (Block_transactions_data (inner sb)) = Ok rejected
     else rejected = [] ∧ verify_batch (Block_transactions_data (inner sb)) = Ok ())) as [-> Htx].
  { destruct (transaction_voting_enabled _).
    - apply try_bind_Ok in Hrest as (l & Hv & [= <- <-]). split; [done|]. revert Hv. unfold vote. cbn.
      by destruct (verify_and_vote_batch _ _); intros [= ->].
    - destruct (verify_batch _) as [[]|]; naive_solver. }
  split_and!; [done|done|apply (ba_round _ _ Hok)|by apply block_accepted_valid| |done].
  intros i r Hi. by destruct (ba_ancestors _ _ Hok i r Hi) as (_ & ? & _).
Qed.

End correct.

(** ** A concrete verifier *)

(** A scheme whose signatures are the key itself, and an application that rejects
    the first transaction of every block. *)
#[export] Instance sample_crypto : BlockCrypto := {|
  Signature := list N;
  bcs_block := λ _, Some [];
  bcs_block_intent := λ _, Some [];
  signature_from_bytes := λ bytes, Some bytes;
  protocol_key_verify := λ key _ sig, bool_decide (key = sig);
|}.

#[export] Instance sample_transaction_verifier : TransactionVerifier := {|
  verify_batch := λ _, Ok ();
  verify_and_vote_batch := λ _ batch, Ok (match batch with [] => [] | _ => [0%N] end);
|}.

Definition sample_verifier : SignedBlockVerifier :=
  from_done (mkSignedBlockVerifier sample_context ∅) (SignedBlockVerifier_new sample_context).

(** Block of authority 1 at round 1 with two transactions. *)
Definition sample_signed : SignedBlock :=
  mkSignedBlock (V2 (mkBlockV2 0 1 1 10 [mkBlockRef 0 1 7; mkBlockRef 0 0 7; mkBlockRef 0 2 7]
    [mkTransaction [1; 2; 3]%N; mkTransaction [4]%N] [] [] [])) [].

Lemma verify_block_exact_witness :
  verify_block sample_verifier sample_signed = Done (Ok ()) ∧ block_accepted sample_verifier sample_signed.
Proof.
  assert (verify_block sample_verifier sample_signed = Done (Ok ())) as Hrun by (vm_compute; reflexivity).
  split; [exact Hrun|].
  apply (verify_block_exact sample_verifier sample_signed committee_4_ok ltac:(vm_compute; reflexivity)).
  exact Hrun.
Defined.

Lemma verify_and_vote_sound_witness :
  ∃ b, verify_and_vote sample_verifier sample_signed [5]%N = Done (Ok (b, [0%N])) ∧ valid_block committee_4 b.
Proof.
  exists (new_verified sample_signed [5]%N).
  assert (verify_and_vote sample_verifier sample_signed [5]%N =
    Done (Ok (new_verified sample_signed [5]%N, [0%N]))) as Hrun by (vm_compute; reflexivity).
  split; [exact Hrun|].
  exact (proj1 (proj2 (proj2 (proj2 (verify_and_vote_sound sample_verifier sample_signed [5]%N _ _
    committee_4_ok ltac:(vm_compute; reflexivity) Hrun))))).
Defined.

(** the size in the error on too many transaction bytes is not a size in bytes:
    two transactions of 80 bytes against a limit of 100 bytes are reported as
    size 2 over limit 100. *)
Theorem too_many_bytes_reports_count :
  let ctx := Context_new 0 (Some 0%N) committee_4 sample_parameters
    (mkProtocolConfig 1000 100 100 1 true (Some 1%N) 20 false 600 60) in
  let t := replicate 80 0%N in
  sumN (map lengthN [t; t]) = 160%N ∧
  check_transactions (mkSignedBlockVerifier ctx ∅) [t; t] = Done (Err (TooManyTransactionBytes 2 100)).
Proof. split; vm_compute; reflexivity. Qed.
