(* ===== verification/BlockManager.v ===== *)
(** * The block manager (consensus/core/src/block_manager.rs)

    Blocks received from peers are suspended until their causal history above
    the gc round has been accepted, then accepted into the dag state together
    with the suspended blocks that waited for them. The manager and the dag state
    it shares with the other components are passed as a pair. *)

From S2P Require Import Prelude Committee Block StakeAggregator ThresholdClock Commit Store LeaderScoring.
From S2P Require Import DagState.

(** The timestamp of a suspended block only feeds a metric. *)
Record SuspendedBlock := mkSuspendedBlock {
  sb_block : VerifiedBlock;
  sb_missing_ancestors : gset BlockRef;
}.

Record BlockManager := mkBlockManager {
  bm_context : Context;
  bm_suspended_blocks : gmap BlockRef SuspendedBlock;
  bm_missing_ancestors : gmap BlockRef (gset BlockRef);
  bm_missing_blocks : gset BlockRef;
  bm_received_block_rounds : list (option (N * N));
}.

Inductive TryAcceptResult :=
  | Accepted (block : VerifiedBlock)
  | Suspended (ancestors_to_fetch : gset BlockRef)
  | Processed
  | Skipped.

Definition set_suspended m bm :=
  mkBlockManager (bm_context bm) m (bm_missing_ancestors bm) (bm_missing_blocks bm) (bm_received_block_rounds bm).
Definition set_missing_ancestors m bm :=
  mkBlockManager (bm_context bm) (bm_suspended_blocks bm) m (bm_missing_blocks bm) (bm_received_block_rounds bm).
Definition set_missing_blocks X bm :=
  mkBlockManager (bm_context bm) (bm_suspended_blocks bm) (bm_missing_ancestors bm) X (bm_received_block_rounds bm).
Definition set_received_rounds l bm :=
  mkBlockManager (bm_context bm) (bm_suspended_blocks bm) (bm_missing_ancestors bm) (bm_missing_blocks bm) l.

Definition BlockManager_new (ctx : Context) : BlockManager :=
  mkBlockManager ctx ∅ ∅ ∅ (replicate (N.to_nat (Committee_size (committee ctx))) None).

(** The rounds received from an authority; the hostname is read for the metric. *)
Definition update_block_received_metrics (bm : BlockManager) (block : VerifiedBlock) : outcome BlockManager :=
  current ← vec_index (bm_received_block_rounds bm) (author block);
  let rounds := match current with
    | Some (curr_min, curr_max) => (N.min curr_min (round block), N.max curr_max (round block))
    | None => (round block, round block)
    end in
  received ← vec_set (bm_received_block_rounds bm) (author block) (Some rounds);
  authority (committee (bm_context bm)) (author block);;
  Done (set_received_rounds received bm).

(** [missing_ancestors.entry(key).or_default().insert(r)]. *)
Definition add_missing_child (key r : BlockRef) (m : gmap BlockRef (gset BlockRef)) : gmap BlockRef (gset BlockRef) :=
  <[key := {[r]} ∪ default ∅ (m !! key)]> m.

(** ** Unsuspending *)

Definition try_unsuspend_block (bm : BlockManager) (block_ref accepted_dependency : BlockRef) :
    outcome (BlockManager * option SuspendedBlock) :=
  block ← unwrap (bm_suspended_blocks bm !! block_ref);
  rassert (accepted_dependency ∈ sb_missing_ancestors block);;
  let missing := sb_missing_ancestors block ∖ {[accepted_dependency]} in
  let block := mkSuspendedBlock (sb_block block) missing in
  if decide (missing = ∅) then
    Done (set_suspended (delete block_ref (bm_suspended_blocks bm)) bm, Some block)
  else Done (set_suspended (<[block_ref := block]> (bm_suspended_blocks bm)) bm, None).

(** The body of the [for] loop over the children of a processed reference: the
    state is the manager, the stack [to_process_blocks] with its top first, and
    the unsuspended blocks. *)
Definition unsuspend_child (block_ref : BlockRef)
    (st : BlockManager * list BlockRef * list VerifiedBlock) (r : BlockRef) :
    outcome (BlockManager * list BlockRef * list VerifiedBlock) :=
  let '(bm, to_process, unsuspended) := st in
  '(bm, o) ← try_unsuspend_block bm r block_ref;
  match o with
  | Some block => Done (bm, reference (sb_block block) :: to_process, unsuspended ++ [sb_block block])
  | None => Done (bm, to_process, unsuspended)
  end.

Fixpoint unsuspend_loop (fuel : nat) (st : BlockManager * list BlockRef * list VerifiedBlock) :
    outcome (BlockManager * list VerifiedBlock) :=
  let '(bm, to_process, unsuspended) := st in
  match to_process with
  | [] => Done (bm, unsuspended)
  | block_ref :: to_process =>
      match fuel with
      | O => OutOfFuel
      | S fuel =>
          match bm_missing_ancestors bm !! block_ref with
          | Some children =>
              let bm := set_missing_ancestors (delete block_ref (bm_missing_ancestors bm)) bm in
              st ← for_each (unsuspend_child block_ref) (bm, to_process, unsuspended) (refs_in_order children);
              unsuspend_loop fuel st
          | None => unsuspend_loop fuel (bm, to_process, unsuspended)
          end
      end
  end.

(** Every pushed reference is a block taken out of [suspended_blocks], so one
    iteration more than there are suspended blocks is enough. *)
Definition try_unsuspend_children_blocks (bm : BlockManager) (accepted_block : BlockRef) :
    outcome (BlockManager * list VerifiedBlock) :=
  '(bm, unsuspended) ← unsuspend_loop (S (size (bm_suspended_blocks bm))) (bm, [accepted_block], []);
  mapM (λ b, authority (committee (bm_context bm)) (author b)) unsuspended;;
  Done (bm, unsuspended).

(** ** Accepting *)
Section manager.
Context {S : Type} `{Store S}.
Implicit Types ds : DagState S.

Definition try_accept_one_committed_block (bm : BlockManager) ds (block : VerifiedBlock) :
    outcome (BlockManager * DagState S * TryAcceptResult) :=
  known ← contains_block ds (reference block);
  if known : bool then Done (bm, ds, Processed)
  else
    let bm := set_missing_blocks (bm_missing_blocks bm ∖ {[reference block]}) bm in
    let bm := match bm_suspended_blocks bm !! reference block with
      | Some suspended_block =>
          let bm := set_suspended (delete (reference block) (bm_suspended_blocks bm)) bm in
          set_missing_ancestors
            (foldl (λ m ancestor, alter (λ references, references ∖ {[reference block]}) ancestor m)
              (bm_missing_ancestors bm) (refs_in_order (sb_missing_ancestors suspended_block))) bm
      | None => bm
      end in
    ds ← accept_blocks ds [block];
    Done (bm, ds, Accepted block).

(** One ancestor in [try_accept_one_block], with whether the dag state has it; the
    state is the manager, the missing ancestors of the block and those to fetch. *)
Definition check_found (block_ref : BlockRef) (st : BlockManager * gset BlockRef * gset BlockRef)
    (x : bool * BlockRef) : outcome (BlockManager * gset BlockRef * gset BlockRef) :=
  let '(bm, missing, to_fetch) := st in
  let '(found, ancestor) := x in
  if found : bool then Done st
  else
    let bm := set_missing_ancestors (add_missing_child ancestor block_ref (bm_missing_ancestors bm)) bm in
    authority (committee (bm_context bm)) (ref_author ancestor);;
    let missing := {[ancestor]} ∪ missing in
    if decide (ancestor ∈ dom (bm_suspended_blocks bm)) then Done (bm, missing, to_fetch)
    else Done (set_missing_blocks ({[ancestor]} ∪ bm_missing_blocks bm) bm, missing, {[ancestor]} ∪ to_fetch).

Definition try_accept_one_block (bm : BlockManager) ds (block : VerifiedBlock) :
    outcome (BlockManager * TryAcceptResult) :=
  let block_ref := reference block in
  known ← (if decide (block_ref ∈ dom (bm_suspended_blocks bm)) then Done true else contains_block ds block_ref);
  if known : bool then Done (bm, Processed)
  else if decide (round block ≤ gc_round ds)%N then
    authority (committee (bm_context bm)) (author block);;
    Done (bm, Skipped)
  else
    let ancestors := filter (λ a, ref_round a = GENESIS_ROUND ∨ gc_round ds < ref_round a)%N (ancestors block) in
    found ← contains_blocks ds ancestors;
    '(bm, missing, to_fetch) ← for_each (check_found block_ref) (bm, ∅, ∅) (zip found ancestors);
    let bm := set_missing_blocks (bm_missing_blocks bm ∖ {[block_ref]}) bm in
    if decide (missing = ∅) then Done (bm, Accepted block)
    else
      authority (committee (bm_context bm)) (author block);;
      Done (set_suspended (<[block_ref := mkSuspendedBlock block missing]> (bm_suspended_blocks bm)) bm,
            Suspended to_fetch).

(** The state of the loop of [try_accept_blocks_internal]: manager, dag state,
    accepted blocks and missing blocks. *)
Definition accept_state : Type := BlockManager * DagState S * list VerifiedBlock * gset BlockRef.

(** After a block was accepted: its children, and their insertion into the dag. *)
Definition accept_with_children (block_ref : BlockRef) (to_accept : list VerifiedBlock) (st : accept_state) :
    outcome accept_state :=
  let '(bm, ds, accepted_blocks, missing_blocks) := st in
  '(bm, unsuspended) ← try_unsuspend_children_blocks bm block_ref;
  let to_accept := to_accept ++ unsuspended in
  ds ← accept_blocks ds to_accept;
  Done (bm, ds, accepted_blocks ++ to_accept, missing_blocks).

Definition try_accept_step (committed : bool) (st : accept_state) (block : VerifiedBlock) : outcome accept_state :=
  let '(bm, ds, accepted_blocks, missing_blocks) := st in
  bm ← update_block_received_metrics bm block;
  let block_ref := reference block in
  if committed then
    '(bm, ds, r) ← try_accept_one_committed_block bm ds block;
    match r with
    | Accepted block => accept_with_children block_ref [] (bm, ds, accepted_blocks ++ [block], missing_blocks)
    | Processed => Done (bm, ds, accepted_blocks, missing_blocks)
    | Suspended _ | Skipped => Panic
    end
  else
    '(bm, r) ← try_accept_one_block bm ds block;
    match r with
    | Accepted block => accept_with_children block_ref [block] (bm, ds, accepted_blocks, missing_blocks)
    | Suspended to_fetch => Done (bm, ds, accepted_blocks, missing_blocks ∪ to_fetch)
    | Processed | Skipped => Done (bm, ds, accepted_blocks, missing_blocks)
    end.

(** [sort_by_key(|b| b.round())]. *)
Definition round_le (a b : VerifiedBlock) : Prop := (round a ≤ round b)%N.

#[export] Instance round_le_dec : RelDecision round_le.
Proof. intros ??. unfold round_le. apply _. Defined.

#[export] Instance round_le_trans : Transitive round_le.
Proof. intros ???. unfold round_le. lia. Qed.
#[export] Instance round_le_total : Total round_le.
Proof. intros ??. unfold round_le. lia. Qed.

Definition try_accept_blocks_internal (bm : BlockManager) ds (blocks : list VerifiedBlock) (committed : bool) :
    outcome accept_state :=
  for_each (try_accept_step committed) (bm, ds, [], ∅) (stable_sort round_le blocks).

Definition try_accept_blocks (bm : BlockManager) ds (blocks : list VerifiedBlock) : outcome accept_state :=
  try_accept_blocks_internal bm ds blocks false.

Definition try_accept_committed_blocks (bm : BlockManager) ds (blocks : list VerifiedBlock) :
    outcome (BlockManager * DagState S * list VerifiedBlock) :=
  '(bm, ds, accepted_blocks, missing_blocks) ← try_accept_blocks_internal bm ds blocks true;
  rassert (missing_blocks = ∅);;
  Done (bm, ds, accepted_blocks).

(** ** Looking for blocks *)

Definition ref_round_le (a b : BlockRef) : Prop := (ref_round a ≤ ref_round b)%N.

#[export] Instance ref_round_le_dec : RelDecision ref_round_le.
Proof. intros ??. unfold ref_round_le. apply _. Defined.

Definition find_block (st : BlockManager * gset BlockRef) (x : bool * BlockRef) :
    outcome (BlockManager * gset BlockRef) :=
  let '(bm, missing_blocks) := st in
  let '(found, block_ref) := x in
  if (found || bool_decide (block_ref ∈ dom (bm_suspended_blocks bm))) then Done st
  else
    let missing_blocks := {[block_ref]} ∪ missing_blocks in
    if decide (block_ref ∈ bm_missing_blocks bm) then Done (bm, missing_blocks)
    else
      let bm := set_missing_blocks ({[block_ref]} ∪ bm_missing_blocks bm) bm in
      let bm := set_missing_ancestors
        (<[block_ref := default ∅ (bm_missing_ancestors bm !! block_ref)]> (bm_missing_ancestors bm)) bm in
      authority (committee (bm_context bm)) (ref_author block_ref);;
      Done (bm, missing_blocks).

Definition try_find_blocks (bm : BlockManager) ds (block_refs : list BlockRef) :
    outcome (BlockManager * gset BlockRef) :=
  match filter (λ r, gc_round ds < ref_round r)%N block_refs with
  | [] => Done (bm, ∅)
  | block_refs =>
      let block_refs := stable_sort ref_round_le block_refs in
      found ← contains_blocks ds block_refs;
      for_each find_block (bm, ∅) (zip found block_refs)
  end.

(** ** Garbage collection *)

(** The loop over [missing_ancestors.first_key_value()]; every iteration removes
    the first key. *)
Fixpoint gc_loop (gc_round : N) (fuel : nat) (bm : BlockManager) ds : outcome (BlockManager * DagState S) :=
  match map_first BlockRef_le (bm_missing_ancestors bm) with
  | None => Done (bm, ds)
  | Some (block_ref, _) =>
      if decide (gc_round < ref_round block_ref)%N then Done (bm, ds)
      else
        match fuel with
        | O => OutOfFuel
        | Datatypes.S fuel =>
            authority (committee (bm_context bm)) (ref_author block_ref);;
            rassert (block_ref ∉ dom (bm_suspended_blocks bm));;
            let bm := set_missing_blocks (bm_missing_blocks bm ∖ {[block_ref]}) bm in
            '(bm, unsuspended) ← try_unsuspend_children_blocks bm block_ref;
            ds ← accept_blocks ds unsuspended;
            mapM (λ b, authority (committee (bm_context bm)) (author b)) unsuspended;;
            gc_loop gc_round fuel bm ds
        end
  end.

Definition try_unsuspend_blocks_for_latest_gc_round (bm : BlockManager) ds : outcome (BlockManager * DagState S) :=
  gc_loop (gc_round ds) (size (bm_missing_ancestors bm)) bm ds.

Definition missing_blocks (bm : BlockManager) : gset BlockRef := bm_missing_blocks bm.

End manager.
