(* ===== verification/BlockManagerSpec.v ===== *)
(** * Correctness of the block manager

    The invariant of the manager and the dag state: what is suspended waits for
    exactly its unknown ancestors, the dag is causally complete above the gc
    round, and the blocks reported as missing are those to fetch. Every operation
    keeps it and returns; every suspended block has a missing block in its
    history; once a causally closed set of blocks has been delivered, in any
    order, all of it has been accepted. *)

From S2P Require Import Prelude Committee Block StakeAggregator ThresholdClock Commit Store LeaderScoring.
From S2P Require Import DagState DagInvariant DagDurability CausalHistory BlockManager.

(** The blocks that exist: filed under their reference, valid, with genesis
    ancestors from [G], and not equivocating in the node's own name. The v3 vote
    accounting of the dag state is off. *)
Record blocks_ok (ctx : Context) (G : gset BlockRef) (U : gmap BlockRef VerifiedBlock) : Prop := {
  bk_ref r b : U !! r = Some b → reference b = r;
  bk_ok r : r ∈ dom U → ref_ok (committee ctx) r;
  bk_valid r b : U !! r = Some b → valid_block (committee ctx) b;
  bk_genesis r b a : U !! r = Some b → a ∈ ancestors b → ref_round a = GENESIS_ROUND → a ∈ G;
  bk_v3 : enable_v3 (protocol_config ctx) = false;
  bk_own r r' : r ∈ dom U → r' ∈ dom U → Slot_from r = Slot_from r' → ref_author r = own_index ctx → r = r';
}.

Lemma difference_singleton_empty (X : gset BlockRef) (a b : BlockRef) : X ∖ {[b]} = ∅ → a ∈ X → a = b.
Proof. intros HX Ha. destruct (decide (a = b)); [done|]. assert (a ∈ X ∖ {[b]}) by set_solver. set_solver. Qed.

(** ** The unsuspension loop *)
Section unsuspend.
Context (U : gmap BlockRef VerifiedBlock) (gc : N) (kn : BlockRef → Prop) (acc : BlockRef).
Context (dom0 : gset BlockRef) (waits0 : gmap BlockRef (gset BlockRef)).

(** The references that count as accepted: the one that starts the loop and the
    unsuspended blocks. *)
Definition resolved (out : list VerifiedBlock) (a : BlockRef) : Prop := a = acc ∨ a ∈ reference <$> out.

(** The invariant with the stack [todo], the unsuspended blocks [out], and, in the
    loop over the children of [b], those still to visit, [pending]. [dom0] are
    the blocks suspended before the loop, [waits0] what they wait for. *)
Record unsuspending (todo : list BlockRef) (out : list VerifiedBlock) (b : BlockRef) (pending : list BlockRef)
    (bm : BlockManager) : Prop := {
  us_suspended r sb : bm_suspended_blocks bm !! r = Some sb →
    U !! r = Some (sb_block sb) ∧ sb_missing_ancestors sb ≠ ∅ ∧
    ∀ a, a ∈ sb_missing_ancestors sb → a ∈ ancestors (sb_block sb);
  us_waits r sb a : bm_suspended_blocks bm !! r = Some sb → a ∈ sb_missing_ancestors sb →
    (∃ X, bm_missing_ancestors bm !! a = Some X ∧ r ∈ X) ∨ (a = b ∧ r ∈ pending);
  us_children a X r : bm_missing_ancestors bm !! a = Some X → r ∈ X →
    ∃ sb, bm_suspended_blocks bm !! r = Some sb ∧ a ∈ sb_missing_ancestors sb;
  us_pending r : r ∈ pending → ∃ sb, bm_suspended_blocks bm !! r = Some sb ∧ b ∈ sb_missing_ancestors sb;
  us_nodup : NoDup pending;
  us_gone : pending ≠ [] → (b ∉ dom (bm_missing_ancestors bm)) ∧ resolved out b;
  us_missing : bm_missing_blocks bm =
    dom (bm_missing_ancestors bm) ∖ dom (bm_suspended_blocks bm) ∖ list_to_set todo;
  us_todo r : r ∈ todo → resolved out r;
  us_resolved a : resolved out a → (a ∉ dom (bm_suspended_blocks bm)) ∧ (a ∈ todo ∨ a ∉ dom (bm_missing_ancestors bm));
  us_complete r sb a : bm_suspended_blocks bm !! r = Some sb → a ∈ ancestors (sb_block sb) → (gc < ref_round a)%N →
    a ∈ sb_missing_ancestors sb ∨ kn a ∨ resolved out a;
  us_causal i x a : out !! i = Some x → a ∈ ancestors x → (gc < ref_round a)%N → kn a ∨ resolved (take i out) a;
  us_out x : x ∈ out → U !! reference x = Some x ∧ reference x ∈ dom0;
  us_out_nodup : NoDup (reference <$> out);
  us_keys : bm_missing_ancestors bm ⊆ waits0;
  us_dom r : r ∈ dom0 ↔ r ∈ dom (bm_suspended_blocks bm) ∨ r ∈ reference <$> out;
}.

Lemma resolved_snoc out x a : resolved (out ++ [x]) a ↔ resolved out a ∨ a = reference x.
Proof. unfold resolved. rewrite fmap_app, elem_of_app. cbn. rewrite list_elem_of_singleton. tauto. Qed.

Definition same_rest (bm bm' : BlockManager) : Prop :=
  bm_context bm' = bm_context bm ∧ bm_received_block_rounds bm' = bm_received_block_rounds bm.

(** A child that still misses other ancestors. *)
Lemma unsuspending_keep todo out b r pending bm sb :
  unsuspending todo out b (r :: pending) bm → bm_suspended_blocks bm !! r = Some sb →
  sb_missing_ancestors sb ∖ {[b]} ≠ ∅ →
  unsuspending todo out b pending (set_suspended
    (<[r := mkSuspendedBlock (sb_block sb) (sb_missing_ancestors sb ∖ {[b]})]> (bm_suspended_blocks bm)) bm).
Proof.
  intros Hi Hr Hne. destruct (us_gone _ _ _ _ _ Hi) as [Hb Hres]; [done|].
  pose proof (us_nodup _ _ _ _ _ Hi) as [Hnr Hnd]%NoDup_cons.
  assert (dom (<[r := mkSuspendedBlock (sb_block sb) (sb_missing_ancestors sb ∖ {[b]})]> (bm_suspended_blocks bm)) =
    dom (bm_suspended_blocks bm)) as Hdom.
  { rewrite dom_insert_L. apply elem_of_dom_2 in Hr. set_solver. }
  split; cbn; rewrite ?Hdom; try apply Hi; try done.
  - intros r' sb' [[<- <-]|[Hne' Hr']]%lookup_insert_Some; [|by eapply us_suspended]. cbn.
    destruct (us_suspended _ _ _ _ _ Hi _ _ Hr) as (? & _ & Hanc). split_and!; [done|done|].
    intros a Ha. apply Hanc. set_solver.
  - intros r' sb' a [[<- <-]|[Hne' Hr']]%lookup_insert_Some Ha; cbn in *.
    + destruct (us_waits _ _ _ _ _ Hi _ _ a Hr) as [?|[-> _]]; [set_solver|by left|set_solver].
    + destruct (us_waits _ _ _ _ _ Hi _ _ a Hr') as [?|[-> Hin]]; [done|by left|].
      right. split; [done|]. by apply elem_of_cons in Hin as [->|].
  - intros a X r' HX Hr'. destruct (us_children _ _ _ _ _ Hi _ _ _ HX Hr') as (sb' & Hsb' & Ha).
    destruct (decide (r = r')) as [<-|Hne'].
    + rewrite lookup_insert_eq. eexists. split; [done|]. cbn. rewrite Hr in Hsb'. simplify_eq.
      assert (a ≠ b) by (intros ->; apply Hb; by eapply elem_of_dom_2). set_solver.
    + rewrite lookup_insert_ne by done. eauto.
  - intros r' Hr'. destruct (us_pending _ _ _ _ _ Hi r') as (sb' & Hsb' & Ha); [by apply list_elem_of_further|].
    rewrite lookup_insert_ne by (by intros ->). eauto.
  - intros r' sb' a [[<- <-]|[Hne' Hr']]%lookup_insert_Some Ha Hgc; cbn in *; [|by eapply us_complete].
    destruct (us_complete _ _ _ _ _ Hi _ _ a Hr Ha Hgc) as [Hm|]; [|by right].
    destruct (decide (a = b)) as [->|]; [by right; right|left; set_solver].
Qed.

(** A child whose last missing ancestor was [b]. *)
Lemma unsuspending_release todo out b r pending bm sb :
  unsuspending todo out b (r :: pending) bm → bm_suspended_blocks bm !! r = Some sb → reference (sb_block sb) = r →
  sb_missing_ancestors sb ∖ {[b]} = ∅ →
  unsuspending (r :: todo) (out ++ [sb_block sb]) b pending
    (set_suspended (delete r (bm_suspended_blocks bm)) bm).
Proof.
  intros Hi Hr Href Hempty. destruct (us_gone _ _ _ _ _ Hi) as [Hb Hres]; [done|].
  pose proof (us_nodup _ _ _ _ _ Hi) as [Hnr Hnd]%NoDup_cons.
  assert (r ∈ dom (bm_suspended_blocks bm)) as Hrd by (by eapply elem_of_dom_2).
  assert (r ∉ reference <$> out) as Hnew.
  { intros Hin. destruct (us_resolved _ _ _ _ _ Hi r) as [? _]; [by right|done]. }
  assert (∀ a, a ∈ sb_missing_ancestors sb → a = b) as Honly by (intros a; by apply difference_singleton_empty).
  split; cbn; rewrite ?dom_delete_L.
  - intros r' sb' [Hne Hr']%lookup_delete_Some. by eapply us_suspended.
  - intros r' sb' a [Hne Hr']%lookup_delete_Some Ha.
    destruct (us_waits _ _ _ _ _ Hi _ _ a Hr' Ha) as [?|[-> Hin]]; [by left|].
    right. split; [done|]. by apply elem_of_cons in Hin as [->|].
  - intros a X r' HX Hr'. destruct (us_children _ _ _ _ _ Hi _ _ _ HX Hr') as (sb' & Hsb' & Ha).
    destruct (decide (r = r')) as [<-|Hne]; [|rewrite lookup_delete_ne by done; eauto].
    rewrite Hr in Hsb'. simplify_eq. rewrite (Honly a Ha) in HX. destruct Hb. by eapply elem_of_dom_2.
  - intros r' Hr'. destruct (us_pending _ _ _ _ _ Hi r') as (sb' & Hsb' & Ha); [by apply list_elem_of_further|].
    rewrite lookup_delete_ne by (by intros ->). eauto.
  - done.
  - intros _. split; [done|]. rewrite resolved_snoc. by left.
  - rewrite (us_missing _ _ _ _ _ Hi). set_solver.
  - intros r' [->|Hr']%elem_of_cons; rewrite resolved_snoc; [by right|left; by eapply us_todo].
  - intros a [Ha| ->]%resolved_snoc.
    + destruct (us_resolved _ _ _ _ _ Hi a Ha) as [? [|]]; split; set_solver.
    + rewrite Href. split; [set_solver|left; apply list_elem_of_here].
  - intros r' sb' a [Hne Hr']%lookup_delete_Some Ha Hgc. rewrite resolved_snoc.
    destruct (us_complete _ _ _ _ _ Hi _ _ a Hr' Ha Hgc) as [|[|]]; tauto.
  - intros i x a Hx Ha Hgc. apply lookup_snoc_Some in Hx as [[Hlt Hx]|[-> <-]].
    + rewrite take_app_le by lia. by eapply us_causal.
    + rewrite take_app_length. destruct (us_complete _ _ _ _ _ Hi _ _ a Hr Ha Hgc) as [->%Honly|]; [by right|done].
  - intros x [Hx|Hx%list_elem_of_singleton]%elem_of_app; [by eapply us_out|]. subst x. rewrite Href.
    destruct (us_suspended _ _ _ _ _ Hi _ _ Hr) as [? _]. split; [done|]. apply (us_dom _ _ _ _ _ Hi). by left.
  - rewrite fmap_app. apply NoDup_app. split_and!; [apply Hi| |apply NoDup_singleton].
    intros x Hx ->%list_elem_of_singleton. by rewrite Href in Hx.
  - apply Hi.
  - intros r'. rewrite (us_dom _ _ _ _ _ Hi), fmap_app, elem_of_app. cbn. rewrite list_elem_of_singleton, Href.
    destruct (decide (r' = r)); set_solver.
Qed.

Context (HU : ∀ r x, U !! r = Some x → reference x = r).

Lemma unsuspend_child_ok todo out b r pending bm :
  unsuspending todo out b (r :: pending) bm →
  ∃ bm' todo' out', unsuspend_child b (bm, todo, out) r = Done (bm', todo', out') ∧
    unsuspending todo' out' b pending bm' ∧ same_rest bm bm' ∧
    length todo' + size (bm_suspended_blocks bm') = length todo + size (bm_suspended_blocks bm).
Proof using HU.
  intros Hi. destruct (us_pending _ _ _ _ _ Hi r) as (sb & Hr & Hb); [apply list_elem_of_here|].
  assert (reference (sb_block sb) = r) as Href.
  { apply HU. by destruct (us_suspended _ _ _ _ _ Hi _ _ Hr). }
  unfold unsuspend_child, try_unsuspend_block. rewrite Hr. cbn [unwrap mbind outcome_bind].
  rewrite rassert_true by done. run_bind. case_decide as He; cbn [mbind outcome_bind sb_block].
  - eexists _, _, _. split; [done|]. split; [|split; [done|]].
    + rewrite Href. by eapply unsuspending_release.
    + cbn. rewrite map_size_delete_Some by eauto. assert (size (bm_suspended_blocks bm) ≠ 0); [|lia].
      apply map_size_ne_0_lookup. eauto.
  - eexists _, _, _. split; [done|]. split; [by apply unsuspending_keep|]. split; [done|]. cbn.
    rewrite map_size_insert_Some by eauto. done.
Qed.

Lemma unsuspend_children_ok pending todo out b bm :
  unsuspending todo out b pending bm →
  ∃ bm' todo' out', for_each (unsuspend_child b) (bm, todo, out) pending = Done (bm', todo', out') ∧
    unsuspending todo' out' b [] bm' ∧ same_rest bm bm' ∧
    length todo' + size (bm_suspended_blocks bm') = length todo + size (bm_suspended_blocks bm).
Proof using HU.
  revert todo out bm. induction pending as [|r pending IH]; intros todo out bm Hi; cbn [for_each].
  { eexists _, _, _. done. }
  destruct (unsuspend_child_ok _ _ _ _ _ _ Hi) as (bm1 & todo1 & out1 & -> & Hi1 & [Hc Hr] & Hs). run_bind.
  destruct (IH _ _ _ Hi1) as (bm2 & todo2 & out2 & Hrun & Hi2 & [Hc' Hr'] & Hs').
  eexists _, _, _. split_and!; [done|done|split; congruence|lia].
Qed.

Lemma unsuspending_any b' todo out b bm : unsuspending todo out b [] bm → unsuspending todo out b' [] bm.
Proof.
  intros Hi. split; try apply Hi; try done.
  - intros r sb a Hr Ha. destruct (us_waits _ _ _ _ _ Hi _ _ a Hr Ha) as [|[_ []%not_elem_of_nil]]. by left.
  - by intros r ?%not_elem_of_nil.
Qed.

Lemma unsuspending_pop todo out b bm :
  unsuspending (b :: todo) out b [] bm →
  let X := default ∅ (bm_missing_ancestors bm !! b) in
  unsuspending todo out b (refs_in_order X)
    (set_missing_ancestors (delete b (bm_missing_ancestors bm)) bm).
Proof.
  intros Hi X. assert (∀ r, r ∈ refs_in_order X → ∃ Y, bm_missing_ancestors bm !! b = Some Y ∧ r ∈ Y) as HX.
  { intros r Hr%elem_of_set_in_order. unfold X in Hr. destruct (bm_missing_ancestors bm !! b); [by eauto|set_solver]. }
  split; cbn; rewrite ?dom_delete_L; try apply Hi; try done.
  - intros r sb a Hr Ha. destruct (us_waits _ _ _ _ _ Hi _ _ a Hr Ha) as [(Y & HY & Hin)|[_ []%not_elem_of_nil]].
    destruct (decide (b = a)) as [<-|Hne].
    + right. split; [done|]. apply elem_of_set_in_order. unfold X. by rewrite HY.
    + left. exists Y. by rewrite lookup_delete_ne.
  - intros a Y r [Hne HY]%lookup_delete_Some Hr. by eapply us_children.
  - intros r (Y & HY & Hr)%HX. by eapply us_children.
  - apply NoDup_set_in_order.
  - intros _. split; [set_solver|]. eapply us_todo; [done|apply list_elem_of_here].
  - rewrite (us_missing _ _ _ _ _ Hi). set_solver.
  - intros r Hr. eapply us_todo; [done|by apply list_elem_of_further].
  - intros a Ha. destruct (us_resolved _ _ _ _ _ Hi a Ha) as [? [Hin|]]; (split; [done|]); [|set_solver].
    apply elem_of_cons in Hin as [->|]; [right; set_solver|by left].
  - etrans; [apply delete_subseteq|apply Hi].
Qed.

Lemma unsuspend_loop_ok fuel todo out b bm :
  unsuspending todo out b [] bm → length todo + size (bm_suspended_blocks bm) ≤ fuel →
  ∃ bm' out', unsuspend_loop fuel (bm, todo, out) = Done (bm', out') ∧ unsuspending [] out' acc [] bm' ∧ same_rest bm bm'.
Proof using HU.
  revert todo out b bm. induction fuel as [|fuel IH]; intros [|x todo] out b bm Hi Hfuel; cbn [unsuspend_loop length] in *;
    [eexists _, _; split_and!; [done|by eapply unsuspending_any|done]|lia
    |eexists _, _; split_and!; [done|by eapply unsuspending_any|done]|].
  apply (unsuspending_any x), unsuspending_pop in Hi.
  destruct (bm_missing_ancestors bm !! x) as [X|] eqn:HX; cbn in Hi.
  - destruct (unsuspend_children_ok _ _ _ _ _ Hi) as (bm1 & todo1 & out1 & -> & Hi1 & [Hc Hr] & Hs). run_bind.
    cbn in Hc, Hr, Hs. destruct (IH _ _ _ _ Hi1) as (bm' & out' & Hrun & Hi' & [Hc' Hr']); [lia|].
    eexists _, _. split_and!; [done|done|split; congruence].
  - rewrite delete_id in Hi by done.
    assert (unsuspending todo out x [] bm) as Hi'.
    { clear -Hi. destruct bm. exact Hi. }
    destruct (IH _ _ _ _ Hi') as (bm' & out' & Hrun & Hi2 & Hrest); [lia|]. eauto.
Qed.

End unsuspend.

(** ** The dag state under acceptance *)
Section manager.
Context {S : Type} `{StoreLaws S}.
Context (ctx : Context) (G : gset BlockRef) (U : gmap BlockRef VerifiedBlock).
Context (HU : blocks_ok ctx G U).
Implicit Types ds : DagState S.
Implicit Types bm : BlockManager.

Record node_dag ds : Prop := {
  nd_ok : dag_ok ds;
  nd_context : ds_context ds = ctx;
  nd_genesis : dom (ds_genesis ds) = G;
  nd_accepted : accepted ds ⊆ U;
}.

(** [ds'] is [ds] after accepting the blocks [l]. *)
Record grown ds (l : list VerifiedBlock) ds' : Prop := {
  gw_dag : node_dag ds';
  gw_last_commit : ds_last_commit ds' = ds_last_commit ds;
  gw_accepted r b : accepted ds' !! r = Some b ↔ accepted ds !! r = Some b ∨ (b ∈ l ∧ reference b = r);
  gw_frame : accept_frame ds ds';
}.

Lemma known_iff ds r : node_dag ds → known ds r = true ↔ (∃ b, accepted ds !! r = Some b) ∨ r ∈ G.
Proof.
  intros Hd. unfold known. rewrite bool_decide_eq_true, (nd_genesis _ Hd), elem_of_dom. done.
Qed.

Lemma grown_known ds l ds' r :
  node_dag ds → grown ds l ds' → known ds' r = true ↔ known ds r = true ∨ r ∈ reference <$> l.
Proof.
  intros Hd Hg. rewrite (known_iff ds), (known_iff ds') by (done || apply Hg).
  setoid_rewrite (gw_accepted _ _ _ Hg). rewrite list_elem_of_fmap. naive_solver.
Qed.

Lemma grown_gc ds l ds' : node_dag ds → grown ds l ds' → gc_round ds' = gc_round ds.
Proof.
  intros Hd Hg. unfold gc_round, calculate_gc_round, last_commit_round.
  by rewrite (gw_last_commit _ _ _ Hg), (nd_context _ Hd), (nd_context _ (gw_dag _ _ _ Hg)).
Qed.

Lemma grown_app ds l ds1 k ds2 : grown ds l ds1 → grown ds1 k ds2 → grown ds (l ++ k) ds2.
Proof.
  intros H1 H2. split; [apply H2|by rewrite (gw_last_commit _ _ _ H2), (gw_last_commit _ _ _ H1)| |etrans; [apply H1|apply H2]].
  intros r b. rewrite (gw_accepted _ _ _ H2), (gw_accepted _ _ _ H1), elem_of_app. tauto.
Qed.

Lemma grown_nil ds : node_dag ds → grown ds [] ds.
Proof. intros Hd. split; [done|done| |done]. intros r b. rewrite elem_of_nil. tauto. Qed.

Lemma U_not_genesis ds r : node_dag ds → r ∈ dom U → r ∉ G.
Proof using HU.
  intros Hd Hr Hg. rewrite <- (nd_genesis _ Hd) in Hg. apply elem_of_dom in Hg as [g Hg].
  apply (dk_genesis _ (nd_ok _ Hd)) in Hg. pose proof (ro_round _ _ (bk_ok _ _ _ HU r Hr)). naive_solver.
Qed.

Lemma accept_one ds b : node_dag ds → U !! reference b = Some b → ∃ ds', accept_block ds b = Done ds' ∧ grown ds [b] ds'.
Proof using HU.
  intros Hd Hb. assert (reference b ∈ dom U) as Hr by (by eapply elem_of_dom_2).
  assert (ref_ok (ds_committee ds) (reference b)) as Hok.
  { unfold ds_committee. rewrite (nd_context _ Hd). by apply (bk_ok _ _ _ HU). }
  destruct (accept_block_total ds b) as [ds' Hrun]; [apply Hd|done|by rewrite (nd_context _ Hd), (bk_v3 _ _ _ HU)| |].
  { intros Hown Hk. right. intros r Hrc Hs. rewrite (nd_context _ Hd) in Hown. apply known_false in Hk as [Hk _].
    apply Hk. rewrite <- (bk_own _ _ _ HU r (reference b)); [done| |done|done|].
    - apply elem_of_dom in Hrc as [b' Hb']. eapply elem_of_dom_2, lookup_weaken; [|apply (nd_accepted _ Hd)].
      by rewrite accepted_lookup, Hb'.
    - apply (f_equal slot_authority) in Hs. cbn in Hs. by rewrite Hs. }
  exists ds'. split; [done|].
  destruct (accept_block_ok ds b ds') as (Hok' & Hctx & Hlc & Hacc); [apply Hd|done|done|].
  assert (accepted ds' = <[reference b := b]> (accepted ds)) as Hins.
  { rewrite Hacc. destruct (known ds (reference b)) eqn:Hk; [|done]. symmetry. apply insert_id.
    apply known_iff in Hk as [[b' Hb']|Hg]; [|by eapply U_not_genesis in Hg|done].
    rewrite Hb'. pose proof (lookup_weaken _ _ _ _ Hb' (nd_accepted _ Hd)). congruence. }
  split; [split|done| |by eapply accept_block_frame; [apply Hd|..]].
  - done.
  - by rewrite Hctx, (nd_context _ Hd).
  - by rewrite (accept_block_genesis _ _ _ Hrun), (nd_genesis _ Hd).
  - rewrite Hins. apply insert_subseteq_l; [done|apply Hd].
  - intros r b'. rewrite Hins, lookup_insert_Some, list_elem_of_singleton. split.
    + intros [[<- <-]|[_ ?]]; tauto.
    + intros [Hold|[-> <-]]; [|by left]. destruct (decide (reference b = r)) as [<-|]; [|by right].
      left. split; [done|]. pose proof (lookup_weaken _ _ _ _ Hold (nd_accepted _ Hd)). congruence.
Qed.

Lemma accept_all ds l :
  node_dag ds → (∀ b, b ∈ l → U !! reference b = Some b) → ∃ ds', accept_blocks ds l = Done ds' ∧ grown ds l ds'.
Proof using HU.
  unfold accept_blocks. revert ds. induction l as [|b l IH]; intros ds Hd Hl; cbn [for_each].
  { exists ds. split; [done|]. by apply grown_nil. }
  destruct (accept_one ds b) as (ds1 & -> & H1); [done|apply Hl, list_elem_of_here|]. run_bind.
  destruct (IH ds1) as (ds2 & Hrun & H2); [apply H1|intros; by apply Hl, list_elem_of_further|].
  exists ds2. split; [done|]. by apply (grown_app _ [b] ds1).
Qed.

(** ** The invariant of the manager *)

(** The accepted blocks are causally complete above the gc round. *)
Definition causally_closed ds : Prop :=
  ∀ r b a, accepted ds !! r = Some b → a ∈ ancestors b → (gc_round ds < ref_round a)%N → known ds a = true.

(** The invariant, where the references [X] have just been taken out of the set of
    missing blocks; between operations [X] is empty. *)
Record bm_ok_at (X : gset BlockRef) bm ds : Prop := {
  bo_dag : node_dag ds;
  bo_context : bm_context bm = ctx;
  bo_received : length (bm_received_block_rounds bm) = N.to_nat (Committee_size (committee ctx));
  bo_suspended r sb : bm_suspended_blocks bm !! r = Some sb →
    U !! r = Some (sb_block sb) ∧ sb_missing_ancestors sb ≠ ∅ ∧
    ∀ a, a ∈ sb_missing_ancestors sb → a ∈ ancestors (sb_block sb);
  bo_unknown r : r ∈ dom (bm_suspended_blocks bm) → known ds r = false;
  bo_waits r sb a : bm_suspended_blocks bm !! r = Some sb → a ∈ sb_missing_ancestors sb →
    ∃ X, bm_missing_ancestors bm !! a = Some X ∧ r ∈ X;
  bo_children a X r : bm_missing_ancestors bm !! a = Some X → r ∈ X →
    ∃ sb, bm_suspended_blocks bm !! r = Some sb ∧ a ∈ sb_missing_ancestors sb;
  bo_keys a : a ∈ dom (bm_missing_ancestors bm) →
    (ref_author a < Committee_size (committee ctx))%N ∧ (a ∉ X → known ds a = false);
  bo_missing : bm_missing_blocks bm = dom (bm_missing_ancestors bm) ∖ dom (bm_suspended_blocks bm) ∖ X;
  bo_exempt : X ## dom (bm_suspended_blocks bm);
  bo_complete r sb a : bm_suspended_blocks bm !! r = Some sb → a ∈ ancestors (sb_block sb) →
    (gc_round ds < ref_round a)%N → a ∈ sb_missing_ancestors sb ∨ known ds a = true;
  bo_closed : causally_closed ds;
}.

Definition bm_ok := bm_ok_at ∅.

Lemma bm_ok_start acc bm ds :
  bm_ok_at {[acc]} bm ds →
  unsuspending U (gc_round ds) (λ a, known ds a = true) acc (dom (bm_suspended_blocks bm))
    (bm_missing_ancestors bm) [acc] [] acc [] bm.
Proof.
  intros Hb. split; try apply Hb; try done.
  - intros r sb a Hr Ha. left. by eapply bo_waits.
  - by intros r ?%not_elem_of_nil.
  - apply NoDup_nil_2.
  - rewrite (bo_missing _ _ _ Hb). cbn. set_solver.
  - intros r ->%list_elem_of_singleton. by left.
  - intros a [->|?%not_elem_of_nil]; [|done]. pose proof (bo_exempt _ _ _ Hb).
    split; [set_solver|left; apply list_elem_of_here].
  - intros r sb a Hr Ha Hgc. destruct (bo_complete _ _ _ Hb _ _ _ Hr Ha Hgc); tauto.
  - by intros x ?%not_elem_of_nil.
  - apply NoDup_nil_2.
  - intros r. cbn. rewrite elem_of_nil. tauto.
Qed.

(** The reference [acc] is resolved: its block is accepted already, is about to be
    accepted as [pre], or is below the gc round. *)
Definition resolves (acc : BlockRef) (pre : list VerifiedBlock) ds : Prop :=
  (pre = [] ∧ (known ds acc = true ∨ (ref_round acc ≤ gc_round ds)%N)) ∨
  ∃ b, pre = [b] ∧ reference b = acc ∧ U !! acc = Some b ∧
    ∀ a, a ∈ ancestors b → (gc_round ds < ref_round a)%N → known ds a = true.

(** What unsuspending the descendants of [acc] and accepting them results in. *)
Record unsuspended (acc : BlockRef) (pre out : list VerifiedBlock) bm ds bm' ds' : Prop := {
  un_ok : bm_ok bm' ds';
  un_grown : grown ds (pre ++ out) ds';
  un_rest : same_rest bm bm';
  un_out b : b ∈ out → reference b ∈ dom (bm_suspended_blocks bm);
  un_suspended r : r ∈ dom (bm_suspended_blocks bm') ↔
    r ∈ dom (bm_suspended_blocks bm) ∧ r ∉ reference <$> out;
  un_keys : bm_missing_ancestors bm' ⊆ delete acc (bm_missing_ancestors bm);
  un_nodup : NoDup (reference <$> out);
  un_causal i x a : out !! i = Some x → a ∈ ancestors x → (gc_round ds < ref_round a)%N →
    known ds a = true ∨ resolved acc (take i out) a;
}.

Lemma unsuspended_intro acc pre bm ds bm' out ds' :
  bm_ok_at {[acc]} bm ds → resolves acc pre ds →
  unsuspending U (gc_round ds) (λ a, known ds a = true) acc (dom (bm_suspended_blocks bm))
    (bm_missing_ancestors bm) [] out acc [] bm' →
  same_rest bm bm' → grown ds (pre ++ out) ds' → unsuspended acc pre out bm ds bm' ds'.
Proof.
  intros Hb Hpre Hi [Hc Hr] Hg. pose proof (bo_dag _ _ _ Hb) as Hd.
  assert (∀ a, known ds' a = true ↔ known ds a = true ∨ a ∈ reference <$> pre ∨ a ∈ reference <$> out) as Hk.
  { intros a. rewrite (grown_known ds _ ds') by done. rewrite fmap_app, elem_of_app. tauto. }
  assert (∀ a, (gc_round ds < ref_round a)%N → known ds a = true ∨ resolved acc out a → known ds' a = true) as Hres.
  { intros a Hgc Ha. apply Hk. destruct Ha as [|[->|]]; [tauto| |tauto].
    destruct Hpre as [(-> & [|])|(b & -> & <- & _)]; [tauto|lia|]. right. left. apply list_elem_of_here. }
  assert (∀ r, r ∈ dom (bm_suspended_blocks bm') ↔ r ∈ dom (bm_suspended_blocks bm) ∧ r ∉ reference <$> out) as Hsus.
  { intros r. pose proof (us_dom _ _ _ _ _ _ _ _ _ _ _ Hi r).
    pose proof (us_resolved _ _ _ _ _ _ _ _ _ _ _ Hi r) as Hn. unfold resolved in Hn. tauto. }
  assert (∀ a, resolved acc out a → a ∉ dom (bm_missing_ancestors bm')) as Hgone.
  { intros a Ha. destruct (us_resolved _ _ _ _ _ _ _ _ _ _ _ Hi a Ha) as [_ [?%not_elem_of_nil|]]; done. }
  assert (∀ b, b ∈ pre → reference b = acc) as Hpre_acc.
  { intros b Hbp. destruct Hpre as [(-> & _)|(b' & -> & <- & _)]; [by apply not_elem_of_nil in Hbp|].
    by apply list_elem_of_singleton in Hbp as ->. }
  assert (∀ r, r ≠ acc → r ∉ reference <$> out → known ds r = false → known ds' r = false) as Hunk.
  { intros r Hne Hno Hf. apply not_true_iff_false. rewrite Hk. rewrite Hf.
    intros [?|[(b & -> & Hbp)%list_elem_of_fmap|?]]; [done| |done]. by apply Hne, Hpre_acc. }
  split; [split|done|done| |done| | |].
  - apply Hg.
  - by rewrite Hc, (bo_context _ _ _ Hb).
  - by rewrite Hr, (bo_received _ _ _ Hb).
  - apply Hi.
  - intros r [Hin Hno]%Hsus. apply Hunk; [|done|by eapply bo_unknown].
    intros ->. pose proof (bo_exempt _ _ _ Hb). set_solver.
  - intros r sb a Hrs Ha. by destruct (us_waits _ _ _ _ _ _ _ _ _ _ _ Hi _ _ _ Hrs Ha) as [|[_ ?%not_elem_of_nil]].
  - apply Hi.
  - intros a Ha. destruct (bo_keys _ _ _ Hb a) as [Hau Hka]; [by eapply subseteq_dom in Ha; [|apply (us_keys _ _ _ _ _ _ _ _ _ _ _ Hi)]|].
    split; [done|]. intros _. apply Hunk.
    + intros ->. apply (Hgone acc); [by left|done].
    + intros Hin. apply (Hgone a); [by right|done].
    + apply Hka. intros ->%elem_of_singleton. apply (Hgone acc); [by left|done].
  - rewrite (us_missing _ _ _ _ _ _ _ _ _ _ _ Hi). done.
  - set_solver.
  - intros r sb a Hrs Ha. rewrite (grown_gc _ _ _ Hd Hg). intros Hgc.
    destruct (us_complete _ _ _ _ _ _ _ _ _ _ _ Hi _ _ _ Hrs Ha Hgc) as [|Ho]; [by left|right]. by apply Hres.
  - intros r b a Hrb Ha. rewrite (grown_gc _ _ _ Hd Hg). intros Hgc.
    apply (gw_accepted _ _ _ Hg) in Hrb as [Hrb|[[Hbp|Hbo]%elem_of_app <-]].
    + apply Hk. left. by eapply (bo_closed _ _ _ Hb).
    + apply Hk. left. destruct Hpre as [(-> & _)|(b' & -> & _ & _ & Hanc)]; [by apply not_elem_of_nil in Hbp|].
      apply list_elem_of_singleton in Hbp as ->. by apply Hanc.
    + apply list_elem_of_lookup in Hbo as [i Hbo]. apply Hres; [done|].
      destruct (us_causal _ _ _ _ _ _ _ _ _ _ _ Hi _ _ _ Hbo Ha Hgc) as [|[->|Hin]]; [by left|by right; left|].
      right. right. apply list_elem_of_fmap in Hin as (x & -> & Hx). apply list_elem_of_fmap_2. by eapply elem_of_take in Hx as (j & Hj & _); eapply list_elem_of_lookup_2.
  - intros b Hbo. by apply (us_out _ _ _ _ _ _ _ _ _ _ _ Hi).
  - rewrite <- (delete_id (bm_missing_ancestors bm') acc); [apply delete_mono, Hi|].
    apply not_elem_of_dom, Hgone. by left.
  - apply Hi.
  - apply Hi.
Qed.

(** ** Unsuspending and accepting *)

Lemma authorities_done l :
  (∀ b, b ∈ l → U !! reference b = Some b) → is_done (mapM (λ b, authority (committee ctx) (author b)) l).
Proof using HU.
  unfold is_done. induction l as [|b l IH]; intros Hl; cbn; [by eexists|].
  destruct (authority_valid (committee ctx) (author b)) as [x ->].
  { eapply (ro_author _ (reference b)), (bk_ok _ _ _ HU), elem_of_dom_2, Hl, list_elem_of_here. }
  destruct IH as [y ->]; [intros; by apply Hl, list_elem_of_further|]. by eexists.
Qed.

Lemma try_unsuspend_children_ok acc pre bm ds :
  bm_ok_at {[acc]} bm ds → resolves acc pre ds →
  ∃ bm' out ds', try_unsuspend_children_blocks bm acc = Done (bm', out) ∧ accept_blocks ds (pre ++ out) = Done ds' ∧
    unsuspended acc pre out bm ds bm' ds' ∧ ∀ b, b ∈ out → U !! reference b = Some b.
Proof using HU.
  intros Hb Hpre. pose proof (bm_ok_start acc bm ds Hb) as Hi.
  eapply (unsuspend_loop_ok _ _ _ _ _ _ (bk_ref _ _ _ HU) (Datatypes.S (size (bm_suspended_blocks bm)))) in Hi
    as (bm' & out & Hrun & Hi & Hrest); [|done].
  assert (∀ b, b ∈ out → U !! reference b = Some b) as Hout by (intros; by eapply us_out).
  destruct (accept_all ds (pre ++ out)) as (ds' & Hacc & Hg); [apply Hb| |].
  { intros b [Hp|Ho]%elem_of_app; [|by apply Hout].
    destruct Hpre as [(-> & _)|(b' & -> & <- & Hb' & _)]; [by apply not_elem_of_nil in Hp|].
    by apply list_elem_of_singleton in Hp as ->. }
  exists bm', out, ds'. unfold try_unsuspend_children_blocks. rewrite Hrun. run_bind.
  rewrite (proj1 Hrest), (bo_context _ _ _ Hb). destruct (authorities_done out Hout) as [x ->].
  split_and!; [done|done|by apply unsuspended_intro|done].
Qed.

(** [M] has been recorded as the ancestors that [r] waits for. *)
Record marked (r : BlockRef) (M : gset BlockRef) bm bm' : Prop := {
  mk_suspended : bm_suspended_blocks bm' = bm_suspended_blocks bm;
  mk_rest : same_rest bm bm';
  mk_missing : bm_missing_blocks bm' = bm_missing_blocks bm ∪ (M ∖ dom (bm_suspended_blocks bm));
  mk_keys a : bm_missing_ancestors bm' !! a =
    if decide (a ∈ M) then Some ({[r]} ∪ default ∅ (bm_missing_ancestors bm !! a)) else bm_missing_ancestors bm !! a;
}.

Lemma check_found_ok r (p : BlockRef → bool) l M bm bm' :
  marked r M bm bm' → bm_context bm = ctx → (∀ a, a ∈ l → ref_author a < Committee_size (committee ctx))%N →
  ∃ bm'' M', for_each (check_found r) (bm', M, M ∖ dom (bm_suspended_blocks bm)) (zip (p <$> l) l) =
      Done (bm'', M', M' ∖ dom (bm_suspended_blocks bm)) ∧
    marked r M' bm bm'' ∧ ∀ a, a ∈ M' ↔ a ∈ M ∨ (a ∈ l ∧ p a = false).
Proof.
  revert M bm'. induction l as [|x l IH]; intros M bm' Hm Hctx Hl; cbn [fmap list_fmap zip zip_with for_each].
  { exists bm', M. split_and!; [done|done|]. intros a. rewrite elem_of_nil. tauto. }
  assert (∀ a, a ∈ l → ref_author a < Committee_size (committee ctx))%N as Hl' by (intros; by apply Hl, list_elem_of_further).
  unfold check_found at 2. destruct (p x) eqn:Hp; run_bind.
  { destruct (IH M bm') as (bm'' & M' & Hrun & Hm' & HM'); [done..|]. exists bm'', M'. split_and!; [done|done|].
    intros a. rewrite HM', elem_of_cons. split; [tauto|]. intros [|[[->|] ?]]; [tauto|congruence|tauto]. }
  cbn [bm_context set_missing_ancestors bm_suspended_blocks bm_missing_blocks].
  rewrite (proj1 (mk_rest _ _ _ _ Hm)), Hctx, (mk_suspended _ _ _ _ Hm).
  destruct (authority_valid (committee ctx) (ref_author x)) as [y ->]; [apply Hl, list_elem_of_here|].
  run_bind.
  set (bm1 := if decide (x ∈ dom (bm_suspended_blocks bm))
    then set_missing_ancestors (add_missing_child x r (bm_missing_ancestors bm')) bm'
    else set_missing_blocks ({[x]} ∪ bm_missing_blocks bm')
      (set_missing_ancestors (add_missing_child x r (bm_missing_ancestors bm')) bm')).
  assert (marked r ({[x]} ∪ M) bm bm1) as Hm1.
  { assert (bm_missing_ancestors bm1 = add_missing_child x r (bm_missing_ancestors bm')) as Hkeys
      by (unfold bm1; by case_decide).
    split.
    - unfold bm1. case_decide; cbn; apply Hm.
    - unfold bm1. case_decide; cbn; split; cbn; apply Hm.
    - unfold bm1. case_decide; cbn; rewrite (mk_missing _ _ _ _ Hm); set_solver.
    - intros a. rewrite Hkeys. unfold add_missing_child. destruct (decide (x = a)) as [<-|Hne].
      + rewrite lookup_insert_eq, decide_True by set_solver. f_equal. rewrite (mk_keys _ _ _ _ Hm).
        case_decide; [cbn; set_solver|done].
      + rewrite lookup_insert_ne, (mk_keys _ _ _ _ Hm) by done. apply decide_ext. set_solver. }
  destruct (IH ({[x]} ∪ M) bm1) as (bm'' & M' & Hrun & Hm' & HM'); [done..|]. exists bm'', M'. split_and!; [|done|].
  - rewrite <- Hrun. unfold bm1. case_decide; cbn [mbind outcome_bind]; do 2 f_equal; set_solver.
  - intros a. rewrite HM', elem_of_cons. set_solver.
Qed.

(** Taking the reference of a received block out of the missing blocks. *)
Lemma bm_ok_received r bm bm' ds :
  bm_ok bm ds → marked r ∅ bm bm' → r ∉ dom (bm_suspended_blocks bm) →
  bm_ok_at {[r]} (set_missing_blocks (bm_missing_blocks bm' ∖ {[r]}) bm') ds.
Proof.
  intros Hb Hm Hr. assert (∀ a, bm_missing_ancestors bm' !! a = bm_missing_ancestors bm !! a) as Hkeys.
  { intros a. rewrite (mk_keys _ _ _ _ Hm). by rewrite decide_False by set_solver. }
  assert (bm_missing_ancestors bm' = bm_missing_ancestors bm) as Hma by (by apply map_eq).
  split; cbn; rewrite ?(mk_suspended _ _ _ _ Hm), ?Hma, ?(proj1 (mk_rest _ _ _ _ Hm)), ?(proj2 (mk_rest _ _ _ _ Hm));
    try apply Hb.
  - intros a Ha. destruct (bo_keys _ _ _ Hb a Ha). split; [done|]. set_solver.
  - rewrite (mk_missing _ _ _ _ Hm), (bo_missing _ _ _ Hb). set_solver.
  - set_solver.
Qed.

(** Suspending a block that waits for [M]. *)
Lemma bm_ok_suspend b M bm bm' ds :
  bm_ok bm ds → marked (reference b) M bm bm' → M ≠ ∅ → U !! reference b = Some b →
  reference b ∉ dom (bm_suspended_blocks bm) → known ds (reference b) = false →
  (∀ a, a ∈ M → a ∈ ancestors b ∧ known ds a = false) →
  (∀ a, a ∈ ancestors b → (gc_round ds < ref_round a)%N → a ∈ M ∨ known ds a = true) →
  bm_ok (set_suspended (<[reference b := mkSuspendedBlock b M]> (bm_suspended_blocks bm'))
    (set_missing_blocks (bm_missing_blocks bm' ∖ {[reference b]}) bm')) ds.
Proof using HU.
  intros Hb Hm HM HbU Hns Hunk Hanc Hcomp. set (r := reference b) in *.
  assert (valid_block (committee ctx) b) as Hvalid by (by eapply bk_valid).
  assert (dom (bm_missing_ancestors bm') = dom (bm_missing_ancestors bm) ∪ M) as Hdom.
  { apply set_eq. intros a. rewrite elem_of_union, !elem_of_dom, (mk_keys _ _ _ _ Hm). case_decide; [|tauto].
    split; [by right|by eexists]. }
  assert (r ∉ M) as HrM.
  { intros [Hr _]%Hanc. pose proof (vb_rounds _ _ Hvalid r Hr) as Hlt. cbn in Hlt. lia. }
  split; cbn; rewrite ?(mk_suspended _ _ _ _ Hm), ?(proj1 (mk_rest _ _ _ _ Hm)), ?(proj2 (mk_rest _ _ _ _ Hm)), ?Hdom, ?dom_insert_L;
    try apply Hb.
  - intros r' sb [[<- <-]|[_ Hr']]%lookup_insert_Some; [|by eapply bo_suspended]. cbn.
    split_and!; [done|done|]. intros a Ha. by apply Hanc.
  - intros r' [->%elem_of_singleton|Hr']%elem_of_union; [done|by eapply bo_unknown].
  - intros r' sb a [[<- <-]|[_ Hr']]%lookup_insert_Some Ha; cbn in *; rewrite (mk_keys _ _ _ _ Hm).
    + rewrite decide_True by done. eexists. split; [done|set_solver].
    + destruct (bo_waits _ _ _ Hb _ _ _ Hr' Ha) as (X & HX & Hin). rewrite HX. case_decide; [|by eauto].
      eexists. split; [done|]. cbn. set_solver.
  - intros a X r' HX Hin. rewrite (mk_keys _ _ _ _ Hm) in HX.
    assert ((∃ Y, bm_missing_ancestors bm !! a = Some Y ∧ r' ∈ Y) ∨ (r' = r ∧ a ∈ M)) as [(Y & HY & Hold)|[-> HaM]].
    { case_decide; [|by left; eauto]. simplify_eq. apply elem_of_union in Hin as [->%elem_of_singleton|Hin]; [by right|].
      left. destruct (bm_missing_ancestors bm !! a); [by eauto|set_solver]. }
    + destruct (bo_children _ _ _ Hb _ _ _ HY Hold) as (sb & Hsb & Ha). exists sb. split; [|done].
      rewrite lookup_insert_ne; [done|]. intros <-. apply Hns. by eapply elem_of_dom_2.
    + rewrite lookup_insert_eq. by eexists.
  - intros a [Ha|Ha]%elem_of_union; [by apply (bo_keys _ _ _ Hb)|]. apply Hanc in Ha as [Ha Hka].
    split; [by apply (vb_authors _ _ Hvalid)|done].
  - rewrite (mk_missing _ _ _ _ Hm), (bo_missing _ _ _ Hb). set_solver.
  - set_solver.
  - intros r' sb a [[<- <-]|[_ Hr']]%lookup_insert_Some Ha Hgc; cbn in *; [by apply Hcomp|by eapply bo_complete].
Qed.

Lemma marked_none r bm : marked r ∅ bm bm.
Proof. split; [done|done|set_solver|]. intros a. by rewrite decide_False by set_solver. Qed.

(** New references waited for are above the gc round. *)
Definition keys_above (gc : N) bm bm' : Prop :=
  ∀ a, a ∈ dom (bm_missing_ancestors bm') → a ∈ dom (bm_missing_ancestors bm) ∨ (gc < ref_round a)%N.

Lemma marked_keys_above r M gc bm bm' :
  marked r M bm bm' → (∀ a, a ∈ M → gc < ref_round a)%N → keys_above gc bm bm'.
Proof.
  intros Hm HM a. rewrite !elem_of_dom, (mk_keys _ _ _ _ Hm). case_decide; [intros _; right; by apply HM|by left].
Qed.

(** Every reference waited for has a block that waits for it. *)
Definition all_wanted bm : Prop := ∀ a X, bm_missing_ancestors bm !! a = Some X → X ≠ ∅.

Lemma marked_wanted r M bm bm' : marked r M bm bm' → all_wanted bm → all_wanted bm'.
Proof.
  intros Hm Hw a X. rewrite (mk_keys _ _ _ _ Hm). case_decide; [|apply Hw]. intros [= <-]. set_solver.
Qed.

Lemma unsuspended_wanted acc pre out bm ds bm' ds' :
  unsuspended acc pre out bm ds bm' ds' → all_wanted bm → all_wanted bm'.
Proof.
  intros Hun Hw a X Ha. eapply lookup_weaken in Ha; [|apply (un_keys _ _ _ _ _ _ _ Hun)].
  apply lookup_delete_Some in Ha as [_ Ha]. by eapply Hw.
Qed.

(** The four results of [try_accept_one_block]. *)
Definition one_block_ok bm ds (b : VerifiedBlock) bm' (res : TryAcceptResult) : Prop :=
  match res with
  | Accepted b' => b' = b ∧ bm_ok_at {[reference b]} bm' ds ∧ resolves (reference b) [b] ds ∧
      known ds (reference b) = false ∧ dom (bm_suspended_blocks bm') = dom (bm_suspended_blocks bm) ∧
      keys_above (gc_round ds) bm bm'
  | Suspended to_fetch => bm_ok bm' ds ∧ to_fetch ⊆ bm_missing_blocks bm' ∧ keys_above (gc_round ds) bm bm' ∧
      dom (bm_suspended_blocks bm') = {[reference b]} ∪ dom (bm_suspended_blocks bm)
  | Processed => bm' = bm ∧ (known ds (reference b) = true ∨ reference b ∈ dom (bm_suspended_blocks bm))
  | Skipped => bm' = bm ∧ (round b ≤ gc_round ds)%N
  end.

Lemma try_accept_one_block_ok bm ds b :
  bm_ok bm ds → U !! reference b = Some b →
  ∃ bm' res, try_accept_one_block bm ds b = Done (bm', res) ∧ one_block_ok bm ds b bm' res ∧
    same_rest bm bm' ∧ (all_wanted bm → all_wanted bm').
Proof using HU.
  intros Hb HbU. pose proof (bo_dag _ _ _ Hb) as Hd. pose proof (nd_context _ Hd) as Hctx.
  assert (valid_block (committee ctx) b) as Hv by (by eapply bk_valid).
  unfold try_accept_one_block. destruct (decide (reference b ∈ dom (bm_suspended_blocks bm))) as [Hs|Hs]; run_bind.
  { eexists _, _. split; [done|]. split; [split; [done|by right]|by split; [split|]]. }
  rewrite contains_block_spec; [|apply Hd|unfold ds_committee; rewrite Hctx; apply Hv]. run_bind.
  destruct (known ds (reference b)) eqn:Hk; [eexists _, _; split; [done|]; split; [split; [done|by left]|by split; [split|]]|].
  rewrite (bo_context _ _ _ Hb). destruct (authority_valid (committee ctx) (author b)) as [y Hy]; [apply Hv|].
  destruct (decide (round b ≤ gc_round ds)%N) as [Hgc|Hgc]; [rewrite Hy; eexists _, _; split; [done|]; split; [by split|by split; [split|]]|].
  set (l := filter _ _). assert (∀ a, a ∈ l ↔ (ref_round a = GENESIS_ROUND ∨ gc_round ds < ref_round a)%N ∧ a ∈ ancestors b) as Hl
    by (intros a; unfold l; by rewrite list_elem_of_filter).
  rewrite contains_blocks_spec; [|apply Hd|].
  2: { intros a [_ Ha]%Hl. unfold ds_committee. rewrite Hctx. by apply Hv. }
  run_bind.
  destruct (check_found_ok (reference b) (known ds) l ∅ bm bm) as (bm' & M & Hrun & Hm & HM).
  { apply marked_none. } { apply Hb. } { intros a [_ Ha]%Hl. by apply Hv. }
  replace (∅ ∖ dom (bm_suspended_blocks bm)) with (∅ : gset BlockRef) in Hrun by set_solver.
  assert (∀ a, a ∈ M → gc_round ds < ref_round a)%N as HMgc.
  { intros a [?|[[[Hz|?] Ha]%Hl Hka]]%HM; [set_solver| |done].
    assert (known ds a = true); [|congruence]. apply known_iff; [done|]. right. by eapply bk_genesis. }
  rewrite Hrun. run_bind. case_decide as HMe.
  - subst M. eexists _, _. split_and!; [done| |apply Hm|by eapply (marked_wanted _ _ _ bm')]. split_and!; [done|by apply (bm_ok_received _ bm)| |done| |by eapply (marked_keys_above _ _ _ _ bm')].
    + right. exists b. split_and!; [done..|]. intros a Ha Hga. destruct (known ds a) eqn:Hka; [done|].
      assert (a ∈ (∅ : gset BlockRef)); [|set_solver]. apply HM. right. split; [|done]. apply Hl. tauto.
    + cbn. by rewrite (mk_suspended _ _ _ _ Hm).
  - cbn [bm_context set_missing_blocks]. rewrite (proj1 (mk_rest _ _ _ _ Hm)), (bo_context _ _ _ Hb), Hy.
    eexists _, _. split_and!; [done| |apply Hm|by eapply (marked_wanted _ _ _ bm')]. cbn [one_block_ok]. split_and!.
    + apply (bm_ok_suspend b M bm bm' ds); [done..| |].
      * intros a [?|[[_ Ha]%Hl Hka]]%HM; [set_solver|done].
      * intros a Ha Hga. destruct (known ds a) eqn:Hka; [by right|left]. apply HM. right. split; [|done]. apply Hl. tauto.
    + cbn. rewrite (mk_missing _ _ _ _ Hm). intros a Ha. assert (a ∈ M) as [?|[[_ Haa]%Hl _]]%HM by set_solver; [set_solver|].
      pose proof (vb_rounds _ _ Hv a Haa). assert (a ≠ reference b) by (intros ->; cbn in *; lia). set_solver.
    + by eapply (marked_keys_above _ _ _ _ bm').
    + cbn. by rewrite dom_insert_L, (mk_suspended _ _ _ _ Hm).
Qed.

(** ** Committed blocks *)

(** The reference [r] has been taken out of all the books. *)
Record released (r : BlockRef) bm bm' : Prop := {
  rl_suspended : bm_suspended_blocks bm' = delete r (bm_suspended_blocks bm);
  rl_rest : same_rest bm bm';
  rl_missing : bm_missing_blocks bm' = bm_missing_blocks bm ∖ {[r]};
  rl_keys a : bm_missing_ancestors bm' !! a = (λ X, X ∖ {[r]}) <$> bm_missing_ancestors bm !! a;
}.

Lemma foldl_alter_lookup (f : gset BlockRef → gset BlockRef) l (m : gmap BlockRef (gset BlockRef)) k :
  (∀ X, f (f X) = f X) →
  foldl (λ m a, alter f a m) m l !! k = if decide (k ∈ l) then f <$> m !! k else m !! k.
Proof.
  intros Hf. revert m. induction l as [|a l IH]; intros m; cbn [foldl].
  { by rewrite decide_False by apply not_elem_of_nil. }
  rewrite IH. destruct (decide (a = k)) as [<-|Hne].
  - rewrite lookup_alter, !(decide_True (P := a = a)) by done.
    rewrite (decide_True (P := a ∈ a :: l)) by apply list_elem_of_here.
    case_decide; [|done]. destruct (m !! a); cbn; [|done]. by rewrite Hf.
  - rewrite lookup_alter_ne by done. apply decide_ext. rewrite elem_of_cons. naive_solver.
Qed.

Lemma bm_ok_released b bm bm' ds ds' :
  bm_ok bm ds → released (reference b) bm bm' → grown ds [b] ds' →
  (∀ a, a ∈ ancestors b → (gc_round ds < ref_round a)%N → known ds a = true) →
  bm_ok_at {[reference b]} bm' ds'.
Proof.
  intros Hb Hrl Hg Hanc. pose proof (bo_dag _ _ _ Hb) as Hd. set (r := reference b) in *.
  assert (∀ a, known ds' a = true ↔ known ds a = true ∨ a = r) as Hk.
  { intros a. rewrite (grown_known ds _ ds') by done. cbn. by rewrite list_elem_of_singleton. }
  assert (∀ a, a ≠ r → known ds a = false → known ds' a = false) as Hunk.
  { intros a Hne Hf. apply not_true_iff_false. rewrite Hk, Hf. by intros [|]. }
  assert (dom (bm_missing_ancestors bm') = dom (bm_missing_ancestors bm)) as Hdom.
  { apply set_eq. intros a. rewrite !elem_of_dom, (rl_keys _ _ _ Hrl), fmap_is_Some. done. }
  split; rewrite ?Hdom, ?(rl_suspended _ _ _ Hrl), ?dom_delete_L.
  - apply Hg.
  - by rewrite (proj1 (rl_rest _ _ _ Hrl)), (bo_context _ _ _ Hb).
  - by rewrite (proj2 (rl_rest _ _ _ Hrl)), (bo_received _ _ _ Hb).
  - intros r' sb [_ Hr']%lookup_delete_Some. by eapply bo_suspended.
  - intros r' [Hr' Hne]%elem_of_difference. apply Hunk; [set_solver|by eapply bo_unknown].
  - intros r' sb a [Hne Hr']%lookup_delete_Some Ha. destruct (bo_waits _ _ _ Hb _ _ _ Hr' Ha) as (X & HX & Hin).
    rewrite (rl_keys _ _ _ Hrl), HX. eexists. split; [done|set_solver].
  - intros a X r' HX Hin. rewrite (rl_keys _ _ _ Hrl) in HX. apply fmap_Some in HX as (Y & HY & ->).
    destruct (bo_children _ _ _ Hb a Y r') as (sb & Hsb & Ha); [done|set_solver|]. exists sb. split; [|done].
    rewrite lookup_delete_ne; [done|set_solver].
  - intros a Ha. destruct (bo_keys _ _ _ Hb a Ha) as [? Hf]. split; [done|]. intros Hne. apply Hunk; [set_solver|]. apply Hf. set_solver.
  - rewrite (rl_missing _ _ _ Hrl), (bo_missing _ _ _ Hb). set_solver.
  - set_solver.
  - intros r' sb a [Hne Hr']%lookup_delete_Some Ha. rewrite (grown_gc _ _ _ Hd Hg). intros Hgc. rewrite Hk.
    destruct (bo_complete _ _ _ Hb _ _ _ Hr' Ha Hgc); tauto.
  - intros r' b' a Hr' Ha. rewrite (grown_gc _ _ _ Hd Hg). intros Hgc. apply Hk. left.
    apply (gw_accepted _ _ _ Hg) in Hr' as [Hr'|[->%list_elem_of_singleton _]]; [by eapply bo_closed|by apply Hanc].
Qed.

Lemma try_accept_one_committed_block_ok bm ds b :
  bm_ok bm ds → U !! reference b = Some b →
  (∀ a, a ∈ ancestors b → (gc_round ds < ref_round a)%N → known ds a = true) →
  ∃ bm' ds' res, try_accept_one_committed_block bm ds b = Done (bm', ds', res) ∧ same_rest bm bm' ∧
    ((res = Processed ∧ bm' = bm ∧ ds' = ds ∧ known ds (reference b) = true) ∨
     (res = Accepted b ∧ known ds (reference b) = false ∧ bm_ok_at {[reference b]} bm' ds' ∧ grown ds [b] ds' ∧
      resolves (reference b) [] ds' ∧ dom (bm_suspended_blocks bm') = dom (bm_suspended_blocks bm) ∖ {[reference b]} ∧
      keys_above (gc_round ds) bm bm')).
Proof using HU.
  intros Hb HbU Hanc. pose proof (bo_dag _ _ _ Hb) as Hd. unfold try_accept_one_committed_block.
  rewrite contains_block_spec; [|apply Hd|unfold ds_committee; rewrite (nd_context _ Hd)].
  2: { eapply ro_author, (bk_ok _ _ _ HU), elem_of_dom_2, HbU. }
  run_bind. destruct (known ds (reference b)) eqn:Hk.
  { eexists _, _, _. split; [done|]. split; [by split|]. by left. }
  destruct (accept_all ds [b]) as (ds' & -> & Hg); [done|by intros b' ->%list_elem_of_singleton|].
  run_bind. match goal with |- context [Done (?m, ds', _)] => set (bm' := m) end.
  assert (released (reference b) bm bm') as Hrl.
  { unfold bm'. cbn. destruct (bm_suspended_blocks bm !! reference b) as [sb|] eqn:Hsb.
    - split; cbn; [done|done|done|]. intros a. rewrite foldl_alter_lookup by (intros; set_solver).
      case_decide as Ha; [done|]. destruct (bm_missing_ancestors bm !! a) as [X|] eqn:HX; [|done]. cbn. f_equal.
      assert (reference b ∉ X); [|set_solver]. intros Hin. apply Ha, elem_of_set_in_order.
      destruct (bo_children _ _ _ Hb _ _ _ HX Hin) as (sb' & Hsb' & ?). congruence.
    - split; cbn; [by rewrite delete_id|done|done|]. intros a.
      destruct (bm_missing_ancestors bm !! a) as [X|] eqn:HX; [|done]. cbn. f_equal.
      assert (reference b ∉ X); [|set_solver]. intros Hin.
      destruct (bo_children _ _ _ Hb _ _ _ HX Hin) as (sb' & Hsb' & ?). congruence. }
  eexists bm', ds', _. split; [done|]. split; [apply Hrl|]. right. split_and!; [done|done| |done| | |].
  - by eapply bm_ok_released.
  - left. split; [done|]. left. apply (grown_known ds [b] ds'); [done|done|]. right. cbn. apply list_elem_of_here.
  - by rewrite (rl_suspended _ _ _ Hrl), dom_delete_L.
  - intros a. rewrite !elem_of_dom, (rl_keys _ _ _ Hrl), fmap_is_Some. by left.
Qed.

(** ** Batches *)

(** A reference the node has: accepted, or suspended. *)
Definition tracked bm ds (r : BlockRef) : Prop := known ds r = true ∨ r ∈ dom (bm_suspended_blocks bm).

(** The effect of processing [input]: the blocks [out] are accepted, new ones only
    and each after its ancestors; nothing the node has is dropped. *)
Record progress bm ds (input out : list VerifiedBlock) bm' ds' : Prop := {
  pg_ok : bm_ok bm' ds';
  pg_grown : grown ds out ds';
  pg_new b : b ∈ out → known ds (reference b) = false;
  pg_nodup : NoDup (reference <$> out);
  pg_causal i x a : out !! i = Some x → a ∈ ancestors x → (gc_round ds < ref_round a)%N →
    known ds a = true ∨ a ∈ reference <$> take i out;
  pg_tracked r : tracked bm ds r → tracked bm' ds' r;
  pg_suspended r : r ∈ dom (bm_suspended_blocks bm') → r ∈ dom (bm_suspended_blocks bm) ∨ r ∈ reference <$> input;
  pg_input b : b ∈ input → (gc_round ds < round b)%N → tracked bm' ds' (reference b);
  pg_keys : keys_above (gc_round ds) bm bm';
}.

Lemma progress_none bm ds input :
  bm_ok bm ds → (∀ b, b ∈ input → (gc_round ds < round b)%N → tracked bm ds (reference b)) →
  progress bm ds input [] bm ds.
Proof.
  intros Hb Hin. split; try done.
  - apply grown_nil, Hb.
  - by intros b ?%not_elem_of_nil.
  - apply NoDup_nil_2.
  - tauto.
  - by left.
Qed.

Lemma progress_trans bm ds i1 o1 bm1 ds1 i2 o2 bm2 ds2 :
  node_dag ds → progress bm ds i1 o1 bm1 ds1 → progress bm1 ds1 i2 o2 bm2 ds2 →
  progress bm ds (i1 ++ i2) (o1 ++ o2) bm2 ds2.
Proof.
  intros Hd H1 H2. pose proof (grown_gc _ _ _ Hd (pg_grown _ _ _ _ _ _ H1)) as Hgc.
  pose proof (λ r, grown_known ds o1 ds1 r Hd (pg_grown _ _ _ _ _ _ H1)) as Hk.
  assert (∀ b, b ∈ o2 → known ds (reference b) = false ∧ reference b ∉ reference <$> o1) as Hnew.
  { intros b Hb%(pg_new _ _ _ _ _ _ H2). rewrite <- not_true_iff_false, Hk in Hb.
    rewrite <- not_true_iff_false. tauto. }
  split.
  - apply H2.
  - eapply grown_app; [apply H1|apply H2].
  - intros b [Hb|Hb]%elem_of_app; [by eapply (pg_new _ _ _ _ _ _ H1)|by apply Hnew].
  - rewrite fmap_app. apply NoDup_app. split_and!; [apply H1| |apply H2].
    intros r Hr1 (b & -> & Hb)%list_elem_of_fmap. by apply (Hnew b).
  - intros i x a Hx Ha Hga. apply lookup_app_Some in Hx as [Hx|[Hge Hx]].
    + rewrite take_app_le by (apply lookup_lt_Some in Hx; lia). by eapply (pg_causal _ _ _ _ _ _ H1).
    + rewrite take_app_ge, fmap_app, elem_of_app by lia.
      destruct (pg_causal _ _ _ _ _ _ H2 _ _ a Hx Ha) as [Hka|?]; [lia| |tauto]. apply Hk in Hka as [|]; tauto.
  - intros r Hr. by apply H2, H1.
  - intros r Hr. rewrite fmap_app, elem_of_app. destruct (pg_suspended _ _ _ _ _ _ H2 r Hr) as [Hr1|]; [|tauto].
    destruct (pg_suspended _ _ _ _ _ _ H1 r Hr1); tauto.
  - intros b [Hb|Hb]%elem_of_app Hr; [by apply H2, (pg_input _ _ _ _ _ _ H1)|].
    apply (pg_input _ _ _ _ _ _ H2); [done|lia].
  - intros a Ha. destruct (pg_keys _ _ _ _ _ _ H2 a Ha) as [Ha1|]; [|right; lia]. by apply (pg_keys _ _ _ _ _ _ H1).
Qed.

(** Accepting [b] (now, as [pre], or already) and releasing its descendants. *)
Lemma progress_unsuspended b pre out bm bm0 ds ds0 bm' ds' :
  node_dag ds → (pre = [b] ∧ ds0 = ds ∨ pre = [] ∧ grown ds [b] ds0) → known ds (reference b) = false →
  (∀ a, a ∈ ancestors b → (gc_round ds < ref_round a)%N → known ds a = true) →
  dom (bm_suspended_blocks bm0) = dom (bm_suspended_blocks bm) ∖ {[reference b]} →
  (∀ r, r ∈ dom (bm_suspended_blocks bm0) → known ds0 r = false) → keys_above (gc_round ds) bm bm0 →
  unsuspended (reference b) pre out bm0 ds0 bm' ds' → progress bm ds [b] (b :: out) bm' ds'.
Proof.
  intros Hd Hcase Hk Hanc Hdom Hunk Hkeys Hun.
  assert (grown ds (b :: out) ds') as Hg.
  { destruct Hcase as [[-> ->]|[-> Hg0]]; [apply (un_grown _ _ _ _ _ _ _ Hun)|].
    apply (grown_app ds [b] ds0); [done|apply (un_grown _ _ _ _ _ _ _ Hun)]. }
  assert (gc_round ds0 = gc_round ds) as Hgc.
  { destruct Hcase as [[_ ->]|[_ Hg0]]; [done|by eapply grown_gc]. }
  assert (∀ a, known ds0 a = true → known ds a = true ∨ a = reference b) as Hk0.
  { intros a Ha. destruct Hcase as [[_ ->]|[_ Hg0]]; [by left|].
    apply (grown_known ds [b] ds0) in Ha as [|Ha%list_elem_of_singleton]; [by left|by right|done|done]. }
  assert (∀ a, known ds a = true → known ds0 a = true) as Hmono.
  { intros a Ha. destruct Hcase as [[_ ->]|[_ Hg0]]; [done|]. apply (grown_known ds [b] ds0); [done..|by left]. }
  assert (∀ r, known ds' r = true ↔ known ds r = true ∨ r ∈ reference <$> b :: out) as Hk' by (intros; by apply grown_known).
  split.
  - apply Hun.
  - done.
  - intros x [->|Hx]%elem_of_cons; [done|]. apply (un_out _ _ _ _ _ _ _ Hun), Hunk in Hx.
    rewrite <- not_true_iff_false in *. auto.
  - cbn. apply NoDup_cons. split; [|apply Hun]. intros (x & Hx & Hin)%list_elem_of_fmap.
    apply (un_out _ _ _ _ _ _ _ Hun) in Hin. rewrite Hdom, <- Hx in Hin. set_solver.
  - intros [|i] x a Hx Ha Hga; cbn in Hx; [simplify_eq; left; by apply Hanc|].
    cbn. rewrite elem_of_cons. destruct (un_causal _ _ _ _ _ _ _ Hun _ _ a Hx Ha) as [Hka|[->|?]]; [lia| |tauto..].
    destruct (Hk0 a Hka) as [| ->]; tauto.
  - intros r [Hr|Hr]; [left; apply Hk'; tauto|]. unfold tracked. rewrite Hk'. cbn. rewrite elem_of_cons.
    destruct (decide (r = reference b)) as [->|Hne]; [tauto|]. destruct (decide (r ∈ reference <$> out)); [tauto|].
    right. apply (un_suspended _ _ _ _ _ _ _ Hun). rewrite Hdom. set_solver.
  - intros r Hr. apply (un_suspended _ _ _ _ _ _ _ Hun) in Hr as [Hr _]. rewrite Hdom in Hr. set_solver.
  - intros x ->%list_elem_of_singleton _. left. apply Hk'. right. cbn. apply list_elem_of_here.
  - intros a Ha. pose proof (subseteq_dom _ _ (un_keys _ _ _ _ _ _ _ Hun)) as Hsub. rewrite dom_delete_L in Hsub.
    apply Hkeys. set_solver.
Qed.

Lemma bm_ok_rounds X bm ds l :
  bm_ok_at X bm ds → length l = N.to_nat (Committee_size (committee ctx)) → bm_ok_at X (set_received_rounds l bm) ds.
Proof. intros Hb Hl. split; try apply Hb. done. Qed.

Lemma update_block_received_metrics_ok bm ds b :
  bm_ok bm ds → U !! reference b = Some b →
  ∃ l, update_block_received_metrics bm b = Done (set_received_rounds l bm) ∧ bm_ok (set_received_rounds l bm) ds.
Proof using HU.
  intros Hb HbU. pose proof (ro_author _ _ (bk_ok _ _ _ HU _ (elem_of_dom_2 _ _ _ HbU))) as Ha. cbn in Ha.
  pose proof (bo_received _ _ _ Hb) as Hlen. unfold update_block_received_metrics.
  destruct (lookup_lt_is_Some_2 (bm_received_block_rounds bm) (N.to_nat (author b))) as [cur Hcur]; [lia|].
  rewrite (vec_index_some _ _ _ Hcur). run_bind. rewrite vec_set_lt by lia. run_bind.
  rewrite (bo_context _ _ _ Hb). destruct (authority_valid (committee ctx) (author b)) as [x ->]; [done|].
  eexists. split; [done|]. apply bm_ok_rounds; [done|]. by rewrite length_insert.
Qed.

Lemma accept_with_children_ok b bm ds bm0 ds0 pre accd miss :
  node_dag ds → (pre = [b] ∧ ds0 = ds ∨ pre = [] ∧ grown ds [b] ds0) → known ds (reference b) = false →
  (∀ a, a ∈ ancestors b → (gc_round ds < ref_round a)%N → known ds a = true) →
  dom (bm_suspended_blocks bm0) = dom (bm_suspended_blocks bm) ∖ {[reference b]} →
  keys_above (gc_round ds) bm bm0 → bm_ok_at {[reference b]} bm0 ds0 → resolves (reference b) pre ds0 →
  ∃ bm' ds' out, accept_with_children (reference b) pre (bm0, ds0, accd, miss) = Done (bm', ds', accd ++ pre ++ out, miss) ∧
    progress bm ds [b] (b :: out) bm' ds' ∧ (all_wanted bm0 → all_wanted bm').
Proof using HU.
  intros Hd Hcase Hk Hanc Hdom Hkeys Hb0 Hres. destruct (try_unsuspend_children_ok (reference b) pre bm0 ds0)
    as (bm' & out & ds' & Hrun & Hacc & Hun & _); [done..|].
  exists bm', ds', out. unfold accept_with_children. rewrite Hrun. run_bind. rewrite Hacc.
  split_and!; [done| |by eapply unsuspended_wanted].
  eapply progress_unsuspended; [done..| |done|done]. intros. by eapply bo_unknown.
Qed.

Lemma try_accept_step_ok bm ds b accd miss :
  bm_ok bm ds → U !! reference b = Some b →
  ∃ bm' ds' out miss', try_accept_step false (bm, ds, accd, miss) b = Done (bm', ds', accd ++ out, miss') ∧
    progress bm ds [b] out bm' ds' ∧ (all_wanted bm → all_wanted bm').
Proof using HU.
  intros Hb HbU. destruct (update_block_received_metrics_ok bm ds b) as (l & Hrun & Hb1); [done..|].
  set (bm1 := set_received_rounds l bm) in *. unfold try_accept_step. rewrite Hrun. run_bind.
  destruct (try_accept_one_block_ok bm1 ds b) as (bm2 & res & Hone & Hres & _ & Hw); [done..|].
  rewrite Hone. run_bind. destruct res as [b'|to_fetch| |]; cbn [one_block_ok] in Hres.
  - destruct Hres as (-> & Hb2 & Hres & Hk & Hdom & Hkeys).
    destruct (accept_with_children_ok b bm ds bm2 ds [b] accd miss) as (bm' & ds' & out & Hacc & Hpg & Hw');
      [apply Hb|by left|done| | |done|done|done|].
    { intros a Ha Hgc. destruct Hres as [(? & _)|(b' & [= <-] & _ & _ & Hanc)]; [done|by apply Hanc]. }
    { rewrite Hdom. pose proof (bo_exempt _ _ _ Hb2). cbn. rewrite Hdom in *. cbn in *. set_solver. }
    exists bm', ds', (b :: out), miss. split_and!; [done|done|auto].
  - destruct Hres as (Hb2 & _ & Hkeys & Hdom). exists bm2, ds, [], (miss ∪ to_fetch). rewrite app_nil_r. split_and!; [done| |done].
    split; try done.
    + apply grown_nil, Hb.
    + by intros x ?%not_elem_of_nil.
    + apply NoDup_nil_2.
    + intros r [|Hr]; [by left|right]. rewrite Hdom. cbn. set_solver.
    + intros r. rewrite Hdom. cbn. set_solver.
    + intros x ->%list_elem_of_singleton _. right. rewrite Hdom. set_solver.
  - destruct Hres as [-> Hin]. exists bm1, ds, [], miss. rewrite app_nil_r. split_and!; [done| |done].
    destruct (progress_none bm1 ds [b] Hb1) as []; [by intros x ->%list_elem_of_singleton _|]. by split.
  - destruct Hres as [-> Hle]. exists bm1, ds, [], miss. rewrite app_nil_r. split_and!; [done| |done].
    destruct (progress_none bm1 ds [b] Hb1) as []; [intros x ->%list_elem_of_singleton; lia|]. by split.
Qed.

Lemma try_accept_loop_ok l bm ds accd miss :
  bm_ok bm ds → (∀ b, b ∈ l → U !! reference b = Some b) →
  ∃ bm' ds' out miss', for_each (try_accept_step false) (bm, ds, accd, miss) l = Done (bm', ds', accd ++ out, miss') ∧
    progress bm ds l out bm' ds' ∧ (all_wanted bm → all_wanted bm').
Proof using HU.
  revert bm ds accd miss. induction l as [|b l IH]; intros bm ds accd miss Hb Hl; cbn [for_each].
  { exists bm, ds, [], miss. rewrite app_nil_r. split_and!; [done| |done]. apply progress_none; [done|]. by intros b ?%not_elem_of_nil. }
  destruct (try_accept_step_ok bm ds b accd miss) as (bm1 & ds1 & o1 & m1 & -> & H1 & Hw1); [done|apply Hl, list_elem_of_here|].
  run_bind. destruct (IH bm1 ds1 (accd ++ o1) m1) as (bm2 & ds2 & o2 & m2 & Hrun & H2 & Hw2);
    [apply H1|intros; by apply Hl, list_elem_of_further|].
  exists bm2, ds2, (o1 ++ o2), m2. rewrite Hrun, (assoc app). split_and!; [done| |auto].
  apply (progress_trans _ _ [b] _ bm1 ds1); [apply Hb|done|done].
Qed.

(** Processing depends on the set of input blocks only. *)
Lemma progress_perm bm ds i i' out bm' ds' : i ≡ₚ i' → progress bm ds i out bm' ds' → progress bm ds i' out bm' ds'.
Proof.
  intros Hp Hpg. split; try apply Hpg.
  - intros r. rewrite <- Hp. apply Hpg.
  - intros b. rewrite <- Hp. apply Hpg.
Qed.

Lemma try_accept_blocks_ok bm ds blocks :
  bm_ok bm ds → (∀ b, b ∈ blocks → U !! reference b = Some b) →
  ∃ bm' ds' out miss, try_accept_blocks bm ds blocks = Done (bm', ds', out, miss) ∧
    progress bm ds blocks out bm' ds' ∧ (all_wanted bm → all_wanted bm').
Proof using HU.
  intros Hb Hl. unfold try_accept_blocks, try_accept_blocks_internal.
  destruct (try_accept_loop_ok (stable_sort round_le blocks) bm ds [] ∅) as (bm' & ds' & out & miss & Hrun & Hpg & Hw); [done| |].
  { intros b. rewrite elem_of_stable_sort. apply Hl. }
  exists bm', ds', out, miss. split_and!; [done| |done]. eapply progress_perm; [apply (stable_sort_perm round_le)|done].
Qed.

(** ** Committed batches, garbage collection and lookups *)

Lemma try_accept_committed_step_ok bm ds b accd miss :
  bm_ok bm ds → U !! reference b = Some b →
  (∀ a, a ∈ ancestors b → (gc_round ds < ref_round a)%N → known ds a = true) →
  ∃ bm' ds' out, try_accept_step true (bm, ds, accd, miss) b = Done (bm', ds', accd ++ out, miss) ∧
    progress bm ds [b] out bm' ds' ∧ known ds' (reference b) = true.
Proof using HU.
  intros Hb HbU Hanc. destruct (update_block_received_metrics_ok bm ds b) as (l & Hrun & Hb1); [done..|].
  set (bm1 := set_received_rounds l bm) in *. unfold try_accept_step. rewrite Hrun. run_bind.
  destruct (try_accept_one_committed_block_ok bm1 ds b) as (bm2 & ds2 & res & Hone & _ & Hres); [done..|].
  rewrite Hone. run_bind. destruct Hres as [(-> & -> & -> & Hk)|(-> & Hk & Hb2 & Hg & Hres & Hdom & Hkeys)].
  - exists bm1, ds, []. rewrite app_nil_r. split_and!; [done| |done].
    destruct (progress_none bm1 ds [b] Hb1) as []; [intros x ->%list_elem_of_singleton _; by left|]. by split.
  - destruct (accept_with_children_ok b bm ds bm2 ds2 [] (accd ++ [b]) miss) as (bm' & ds' & out & -> & Hpg & _);
      [apply Hb|by right|done..|].
    exists bm', ds', (b :: out). rewrite <- (assoc app). split_and!; [done|done|].
    apply (grown_known ds (b :: out) ds'); [apply Hb|apply Hpg|]. right. cbn. apply list_elem_of_here.
Qed.

Lemma try_accept_committed_loop_ok l bm ds accd miss :
  bm_ok bm ds → (∀ b, b ∈ l → U !! reference b = Some b) → StronglySorted round_le l →
  (∀ b a, b ∈ l → a ∈ ancestors b → (gc_round ds < ref_round a)%N → known ds a = true ∨ a ∈ reference <$> l) →
  ∃ bm' ds' out, for_each (try_accept_step true) (bm, ds, accd, miss) l = Done (bm', ds', accd ++ out, miss) ∧
    progress bm ds l out bm' ds' ∧ ∀ b, b ∈ l → known ds' (reference b) = true.
Proof using HU.
  revert bm ds accd. induction l as [|b l IH]; intros bm ds accd Hb Hl Hs Hanc; cbn [for_each].
  { exists bm, ds, []. rewrite app_nil_r. split_and!; [done| |by intros b ?%not_elem_of_nil].
    apply progress_none; [done|]. by intros b ?%not_elem_of_nil. }
  apply StronglySorted_inv in Hs as [Hs Hmin]. rewrite Forall_forall in Hmin.
  destruct (try_accept_committed_step_ok bm ds b accd miss) as (bm1 & ds1 & o1 & -> & H1 & Hk1);
    [done|apply Hl, list_elem_of_here| |].
  { intros a Ha Hgc. destruct (Hanc b a) as [|(x & -> & Hx)%list_elem_of_fmap]; [apply list_elem_of_here|done..|].
    assert (valid_block (committee ctx) b) as Hv by (eapply bk_valid; [done|apply Hl, list_elem_of_here]).
    pose proof (vb_rounds _ _ Hv _ Ha) as Hlt. cbn in Hlt.
    apply elem_of_cons in Hx as [->|Hx%Hmin]; [lia|]. unfold round_le in Hx. lia. }
  run_bind. pose proof (grown_gc _ _ _ (bo_dag _ _ _ Hb) (pg_grown _ _ _ _ _ _ H1)) as Hgc1.
  assert (∀ r, known ds r = true → known ds1 r = true) as Hmono.
  { intros r Hr. apply (grown_known ds o1 ds1); [apply Hb|apply H1|by left]. }
  destruct (IH bm1 ds1 (accd ++ o1)) as (bm2 & ds2 & o2 & Hrun & H2 & Hk2);
    [apply H1|intros; by apply Hl, list_elem_of_further|done| |].
  { intros x a Hx Ha. rewrite Hgc1. intros Hgc. destruct (Hanc x a) as [|Hin]; [by apply list_elem_of_further|done..|auto|].
    cbn in Hin. apply elem_of_cons in Hin as [->|]; auto. }
  exists bm2, ds2, (o1 ++ o2). rewrite Hrun, (assoc app). split_and!; [done| |].
  - apply (progress_trans _ _ [b] _ bm1 ds1); [apply Hb|done|done].
  - intros x [->|Hx]%elem_of_cons; [|by apply Hk2].
    apply (grown_known ds1 o2 ds2); [apply H1|apply H2|by left].
Qed.

(** The blocks of a batch have their history above the gc round in the dag or in
    the batch, as the blocks of certified commits have. *)
Definition batch_closed ds (blocks : list VerifiedBlock) : Prop :=
  ∀ b a, b ∈ blocks → a ∈ ancestors b → (gc_round ds < ref_round a)%N → known ds a = true ∨ a ∈ reference <$> blocks.

Lemma try_accept_committed_blocks_ok bm ds blocks :
  bm_ok bm ds → (∀ b, b ∈ blocks → U !! reference b = Some b) → batch_closed ds blocks →
  ∃ bm' ds' out, try_accept_committed_blocks bm ds blocks = Done (bm', ds', out) ∧ progress bm ds blocks out bm' ds' ∧
    ∀ b, b ∈ blocks → known ds' (reference b) = true.
Proof using HU.
  intros Hb Hl Hcl. unfold try_accept_committed_blocks, try_accept_blocks_internal.
  pose proof (stable_sort_perm round_le blocks) as Hperm.
  destruct (try_accept_committed_loop_ok (stable_sort round_le blocks) bm ds [] ∅) as (bm' & ds' & out & -> & Hpg & Hk);
    [done| |apply stable_sort_sorted; apply _| |].
  { intros b. rewrite elem_of_stable_sort. apply Hl. }
  { intros b a. rewrite Hperm. apply Hcl. }
  run_bind. rewrite rassert_true by done. run_bind. exists bm', ds', out.
  split_and!; [done|by eapply progress_perm|]. intros b Hin. apply Hk. by rewrite elem_of_stable_sort.
Qed.

(** The first key of [missing_ancestors] is not a suspended block: a suspended
    block waits for a reference of a lower round. *)
Lemma first_key_not_suspended bm ds k X :
  bm_ok bm ds → map_first BlockRef_le (bm_missing_ancestors bm) = Some (k, X) → k ∉ dom (bm_suspended_blocks bm).
Proof using HU.
  intros Hb Hf [sb Hsb]%elem_of_dom. apply map_first_Some in Hf as [_ Hmin]; try apply _.
  destruct (bo_suspended _ _ _ Hb _ _ Hsb) as (HkU & Hne & Hanc). apply set_choose_L in Hne as [a Ha].
  destruct (bo_waits _ _ _ Hb _ _ _ Hsb Ha) as (Y & HY & _).
  pose proof (BlockRef_le_round _ _ (Hmin a (elem_of_dom_2 _ _ _ HY))) as Hle.
  pose proof (vb_rounds _ _ (bk_valid _ _ _ HU _ _ HkU) a (Hanc a Ha)) as Hlt.
  rewrite <- (bk_ref _ _ _ HU _ _ HkU) in Hle. cbn in Hle. lia.
Qed.

Lemma bm_ok_gc r bm ds :
  bm_ok bm ds → r ∉ dom (bm_suspended_blocks bm) →
  bm_ok_at {[r]} (set_missing_blocks (bm_missing_blocks bm ∖ {[r]}) bm) ds.
Proof. intros Hb Hr. apply (bm_ok_received r bm bm ds Hb); [apply marked_none|done]. Qed.

Lemma gc_loop_stop gc fuel bm ds :
  (∀ k X, map_first BlockRef_le (bm_missing_ancestors bm) = Some (k, X) → gc < ref_round k)%N →
  gc_loop gc fuel bm ds = Done (bm, ds) ∧ ∀ a, a ∈ dom (bm_missing_ancestors bm) → (gc < ref_round a)%N.
Proof.
  intros Hstop. destruct (map_first BlockRef_le (bm_missing_ancestors bm)) as [[k X]|] eqn:Hf.
  - split; [destruct fuel; cbn [gc_loop]; rewrite Hf, decide_True; by eauto|].
    intros a Ha. specialize (Hstop k X eq_refl). apply map_first_Some in Hf as [_ Hmin]; try apply _.
    pose proof (BlockRef_le_round _ _ (Hmin a Ha)). lia.
  - split; [destruct fuel; cbn [gc_loop]; by rewrite Hf|]. apply map_first_None in Hf; [|apply _..]. by rewrite Hf, dom_empty_L.
Qed.

Lemma gc_loop_ok fuel bm ds :
  bm_ok bm ds → size (bm_missing_ancestors bm) ≤ fuel →
  ∃ bm' ds' out, gc_loop (gc_round ds) fuel bm ds = Done (bm', ds') ∧ bm_ok bm' ds' ∧ grown ds out ds' ∧
    (∀ b, b ∈ out → reference b ∈ dom (bm_suspended_blocks bm)) ∧
    (∀ a, a ∈ dom (bm_missing_ancestors bm') → gc_round ds < ref_round a)%N ∧
    dom (bm_suspended_blocks bm') ⊆ dom (bm_suspended_blocks bm).
Proof using HU.
  revert bm ds. induction fuel as [fuel IH] using lt_wf_ind. intros bm ds Hb Hsize.
  assert ((∀ k X, map_first BlockRef_le (bm_missing_ancestors bm) = Some (k, X) → gc_round ds < ref_round k)%N →
    ∃ bm' ds' out, gc_loop (gc_round ds) fuel bm ds = Done (bm', ds') ∧ bm_ok bm' ds' ∧ grown ds out ds' ∧
      (∀ b, b ∈ out → reference b ∈ dom (bm_suspended_blocks bm)) ∧
      (∀ a, a ∈ dom (bm_missing_ancestors bm') → gc_round ds < ref_round a)%N ∧
      dom (bm_suspended_blocks bm') ⊆ dom (bm_suspended_blocks bm)) as Hend.
  { intros Hstop. destruct (gc_loop_stop (gc_round ds) fuel bm ds Hstop) as [Hrun Hkeys].
    exists bm, ds, []. split_and!; [done|done|apply grown_nil, Hb|by intros b ?%not_elem_of_nil|done|done]. }
  destruct (map_first BlockRef_le (bm_missing_ancestors bm)) as [[k X]|] eqn:Hf; [|by apply Hend].
  destruct (decide (gc_round ds < ref_round k)%N) as [Hgc|Hgc]; [apply Hend; by intros ?? [= <- _]|]. clear Hend.
  assert (bm_missing_ancestors bm !! k = Some X) as Hk by (apply map_first_Some in Hf as [? _]; [done|apply _..]).
  destruct fuel as [|fuel].
  { assert (size (bm_missing_ancestors bm) = 0) as He by lia. apply map_size_empty_inv in He. by rewrite He in Hk. }
  cbn [gc_loop]. rewrite Hf, decide_False by done.
  pose proof (first_key_not_suspended _ _ _ _ Hb Hf) as Hns.
  rewrite (bo_context _ _ _ Hb).
  destruct (authority_valid (committee ctx) (ref_author k)) as [y ->]; [by eapply bo_keys, elem_of_dom_2|].
  run_bind. rewrite rassert_true by done. run_bind.
  destruct (try_unsuspend_children_ok k [] _ ds (bm_ok_gc k bm ds Hb Hns)) as (bm1 & out & ds1 & -> & Hacc & Hun & Hout).
  { left. split; [done|]. right. lia. }
  cbn [mbind outcome_bind app] in *. rewrite Hacc. run_bind.
  pose proof (bo_context _ _ _ (un_ok _ _ _ _ _ _ _ Hun)) as ->.
  destruct (authorities_done out Hout) as [z ->]. run_bind.
  pose proof (un_grown _ _ _ _ _ _ _ Hun) as Hg1. cbn in Hg1. rewrite <- (grown_gc _ _ _ (bo_dag _ _ _ Hb) Hg1).
  destruct (IH fuel ltac:(lia) bm1 ds1) as (bm2 & ds2 & out2 & Hrun & Hb2 & Hg2 & Hout2 & Hkeys & Hsus2); [apply Hun| |].
  { pose proof (un_keys _ _ _ _ _ _ _ Hun) as Hsub. cbn in Hsub. apply subseteq_dom, subseteq_size in Hsub. rewrite dom_delete_L in Hsub.
    rewrite size_difference in Hsub by (apply elem_of_dom_2 in Hk; set_solver).
    rewrite size_singleton, !size_dom in Hsub. lia. }
  exists bm2, ds2, (out ++ out2). split_and!; [done|done|by eapply grown_app| |done|].
  - intros b [Hin|Hin]%elem_of_app; [by apply (un_out _ _ _ _ _ _ _ Hun) in Hin|].
    apply Hout2, (un_suspended _ _ _ _ _ _ _ Hun) in Hin as [? _]. done.
  - intros r Hin%Hsus2. by apply (un_suspended _ _ _ _ _ _ _ Hun) in Hin as [? _].
Qed.

Lemma bm_ok_find r bm ds :
  bm_ok bm ds → r ∉ bm_missing_blocks bm → r ∉ dom (bm_suspended_blocks bm) → known ds r = false →
  (ref_author r < Committee_size (committee ctx))%N →
  bm_ok (set_missing_ancestors (<[r := default ∅ (bm_missing_ancestors bm !! r)]> (bm_missing_ancestors bm))
    (set_missing_blocks ({[r]} ∪ bm_missing_blocks bm) bm)) ds.
Proof.
  intros Hb Hm Hs Hk Ha. rewrite (bo_missing _ _ _ Hb) in Hm.
  assert (bm_missing_ancestors bm !! r = None) as Hnone by (apply not_elem_of_dom; set_solver). rewrite Hnone. cbn [default].
  split; cbn; rewrite ?dom_insert_L; try apply Hb.
  - intros r' sb a Hr' Ha'. destruct (bo_waits _ _ _ Hb _ _ _ Hr' Ha') as (X & HX & Hin). exists X.
    rewrite lookup_insert_ne; [done|]. intros <-. by rewrite Hnone in HX.
  - intros a X r' [[<- <-]|[_ HX]]%lookup_insert_Some Hin; [set_solver|by eapply bo_children].
  - intros a [->%elem_of_singleton|Ha']%elem_of_union; [done|by apply (bo_keys _ _ _ Hb)].
  - rewrite (bo_missing _ _ _ Hb). set_solver.
Qed.

Lemma find_loop_ok l bm ds X :
  bm_ok bm ds → (∀ r, r ∈ l → ref_author r < Committee_size (committee ctx))%N →
  ∃ bm' X', for_each find_block (bm, X) (zip (known ds <$> l) l) = Done (bm', X') ∧ bm_ok bm' ds ∧
    bm_suspended_blocks bm' = bm_suspended_blocks bm ∧ bm_missing_blocks bm ⊆ bm_missing_blocks bm' ∧
    (∀ r, r ∈ X' → r ∈ X ∨ r ∈ bm_missing_blocks bm') ∧
    ∀ r, r ∈ X' ↔ r ∈ X ∨ (r ∈ l ∧ known ds r = false ∧ r ∉ dom (bm_suspended_blocks bm)).
Proof.
  revert bm X. induction l as [|r l IH]; intros bm X Hb Hl; cbn [fmap list_fmap zip zip_with for_each].
  { exists bm, X. split_and!; [done..|set_solver|]. intros r. rewrite elem_of_nil. tauto. }
  assert (∀ x, x ∈ l → ref_author x < Committee_size (committee ctx))%N as Hl' by (intros; by apply Hl, list_elem_of_further).
  set (skip := known ds r || bool_decide (r ∈ dom (bm_suspended_blocks bm))). unfold find_block at 2. fold skip.
  destruct skip eqn:Hskip; cbn [mbind outcome_bind]; unfold skip in Hskip.
  - destruct (IH bm X) as (bm' & X' & Hrun & Hb' & Hs & Hm & Hsub & HX); [done..|].
    exists bm', X'. split_and!; [done..|]. intros x. rewrite HX, elem_of_cons.
    apply orb_true_iff in Hskip as [Hskip|Hskip%bool_decide_eq_true]; split; try tauto;
      intros [|[[->|] [? ?]]]; try tauto; congruence.
  - apply orb_false_iff in Hskip as [Hk Hs%bool_decide_eq_false].
    set (bm1 := if decide (r ∈ bm_missing_blocks bm) then bm else
      set_missing_ancestors (<[r := default ∅ (bm_missing_ancestors bm !! r)]> (bm_missing_ancestors bm))
        (set_missing_blocks ({[r]} ∪ bm_missing_blocks bm) bm)).
    assert (bm_ok bm1 ds ∧ bm_suspended_blocks bm1 = bm_suspended_blocks bm ∧
      bm_missing_blocks bm1 = {[r]} ∪ bm_missing_blocks bm) as (Hb1 & Hs1 & Hm1).
    { unfold bm1. case_decide; [split_and!; [done|done|set_solver]|]. split_and!; [|done|done].
      apply bm_ok_find; [done..|]. apply Hl, list_elem_of_here. }
    destruct (IH bm1 ({[r]} ∪ X)) as (bm' & X' & Hrun & Hb' & Hs' & Hm' & Hsub & HX); [done..|].
    exists bm', X'. rewrite Hs1 in *. split_and!; [|done|done|set_solver|set_solver|].
    + rewrite <- Hrun. unfold bm1. case_decide; [done|].
      cbn [bm_context set_missing_blocks set_missing_ancestors]. rewrite (bo_context _ _ _ Hb).
      destruct (authority_valid (committee ctx) (ref_author r)) as [y ->]; [apply Hl, list_elem_of_here|done].
    + intros x. rewrite HX, elem_of_cons, elem_of_union, elem_of_singleton. split; [|tauto].
      intros [[->|]|]; tauto.
Qed.

Lemma try_find_blocks_ok bm ds refs :
  bm_ok bm ds → (∀ r, r ∈ refs → ref_author r < Committee_size (committee ctx))%N →
  ∃ bm' X, try_find_blocks bm ds refs = Done (bm', X) ∧ bm_ok bm' ds ∧ X ⊆ bm_missing_blocks bm' ∧
    ∀ r, r ∈ X ↔ r ∈ refs ∧ (gc_round ds < ref_round r)%N ∧ ¬ tracked bm ds r.
Proof.
  intros Hb Hl. unfold try_find_blocks, tracked. set (l := filter _ refs).
  assert (∀ r, r ∈ l ↔ (gc_round ds < ref_round r)%N ∧ r ∈ refs) as Hfl by (intros r; unfold l; by rewrite list_elem_of_filter).
  clearbody l. destruct l as [|r0 l].
  { exists bm, ∅. split_and!; [done|done|set_solver|]. intros r. specialize (Hfl r). rewrite elem_of_nil in Hfl. set_solver. }
  set (s := stable_sort ref_round_le (r0 :: l)) in *.
  assert (∀ r, r ∈ s ↔ (gc_round ds < ref_round r)%N ∧ r ∈ refs) as Hs by (intros r; unfold s; by rewrite elem_of_stable_sort).
  assert (∀ r, r ∈ s → ref_author r < Committee_size (committee ctx))%N as Hsa by (intros r [_ ?]%Hs; by apply Hl).
  rewrite contains_blocks_spec; [|apply (bo_dag _ _ _ Hb)|].
  2: { unfold ds_committee. by rewrite (nd_context _ (bo_dag _ _ _ Hb)). }
  run_bind. destruct (find_loop_ok s bm ds ∅ Hb Hsa) as (bm' & X & Hrun & Hb' & _ & _ & Hsub & HX).
  exists bm', X. split_and!; [done|done|set_solver|]. intros r. rewrite HX, Hs, <- not_true_iff_false. set_solver.
Qed.

(** ** Progress: what is suspended can be completed *)

(** Every suspended block has a missing block, above the gc round or not, in its
    causal history. *)
Lemma suspended_missing bm ds r sb :
  bm_ok bm ds → bm_suspended_blocks bm !! r = Some sb → ∃ m, m ∈ bm_missing_blocks bm ∧ linked_to U (sb_block sb) m.
Proof using HU.
  intros Hb. remember (N.to_nat (ref_round r)) as n eqn:Hn. revert r sb Hn.
  induction n as [n IH] using lt_wf_ind. intros r sb Hn Hr.
  destruct (bo_suspended _ _ _ Hb _ _ Hr) as (HrU & Hne & Hanc). apply set_choose_L in Hne as [a Ha].
  destruct (bo_waits _ _ _ Hb _ _ _ Hr Ha) as (X & HX & _). specialize (Hanc a Ha).
  pose proof (vb_rounds _ _ (bk_valid _ _ _ HU _ _ HrU) a Hanc) as Hlt.
  pose proof (bk_ref _ _ _ HU _ _ HrU) as Href.
  destruct (bm_suspended_blocks bm !! a) as [sb'|] eqn:Hsa.
  - destruct (IH (N.to_nat (ref_round a))) with (r := a) (sb := sb') as (m & Hm & Hlink); [|done|done|].
    { rewrite Hn, <- Href. cbn. lia. }
    exists m. split; [done|]. eapply linked_step; [done| |done]. by destruct (bo_suspended _ _ _ Hb _ _ Hsa).
  - exists a. split; [|by apply linked_direct]. rewrite (bo_missing _ _ _ Hb).
    apply elem_of_dom_2 in HX. apply not_elem_of_dom in Hsa. set_solver.
Qed.

(** ** The node: the manager and the other users of the dag state *)
Inductive node_step : BlockManager * DagState S → BlockManager * DagState S → Prop :=
  | node_blocks bm ds blocks bm' ds' out miss :
      (∀ b, b ∈ blocks → U !! reference b = Some b) →
      try_accept_blocks bm ds blocks = Done (bm', ds', out, miss) → node_step (bm, ds) (bm', ds')
  | node_committed bm ds blocks bm' ds' out :
      (∀ b, b ∈ blocks → U !! reference b = Some b) → batch_closed ds blocks →
      try_accept_committed_blocks bm ds blocks = Done (bm', ds', out) → node_step (bm, ds) (bm', ds')
  | node_find bm ds refs bm' X :
      (∀ r, r ∈ refs → ref_author r < Committee_size (committee ctx))%N →
      try_find_blocks bm ds refs = Done (bm', X) → node_step (bm, ds) (bm', ds)
  | node_gc bm ds bm' ds' :
      try_unsuspend_blocks_for_latest_gc_round bm ds = Done (bm', ds') → node_step (bm, ds) (bm', ds')
  | node_dag_only bm ds ds' : dag_step ds ds' → accepted ds' = accepted ds → node_step (bm, ds) (bm, ds').

Lemma bm_ok_same_blocks bm ds ds' :
  bm_ok bm ds → dag_ok ds' → ds_context ds' = ds_context ds → ds_genesis ds' = ds_genesis ds → (gc_round ds ≤ gc_round ds')%N →
  accepted ds' = accepted ds → bm_ok bm ds'.
Proof.
  intros Hb Hok' Hc Hg Hgc Hacc. pose proof (bo_dag _ _ _ Hb) as Hd.
  assert (∀ a, known ds' a = known ds a) as Hk by (intros a; unfold known; by rewrite Hacc, Hg).
  split; try apply Hb.
  - split; [done|by rewrite Hc, (nd_context _ Hd)|by rewrite Hg, (nd_genesis _ Hd)|by rewrite Hacc; apply Hd].
  - intros r Hr. rewrite Hk. by eapply bo_unknown.
  - intros a Ha. rewrite Hk. by eapply bo_keys.
  - intros r sb a Hr Ha Hlt. rewrite Hk. eapply bo_complete; [done..|lia].
  - intros r b a Hr Ha Hlt. rewrite Hk. rewrite Hacc in Hr. eapply (bo_closed _ _ _ Hb); [done..|lia].
Qed.

Lemma bm_ok_dag_step bm ds ds' : bm_ok bm ds → dag_step ds ds' → accepted ds' = accepted ds → bm_ok bm ds'.
Proof.
  intros Hb Hstep Hacc. pose proof (nd_ok _ (bo_dag _ _ _ Hb)) as Hok.
  destruct (dag_step_ok _ _ Hstep Hok) as [Hok' _]. destruct (dag_step_frame _ _ Hstep Hok) as (Hc & Hg & Hgc).
  by apply (bm_ok_same_blocks bm ds).
Qed.

Lemma node_step_ok bm ds bm' ds' : node_step (bm, ds) (bm', ds') → bm_ok bm ds → bm_ok bm' ds'.
Proof using HU.
  inversion 1 as [? ? blocks ? ? out miss Hin Hrun|? ? blocks ? ? out Hin Hcl Hrun|? ? refs ? X Hin Hrun|? ? ? ? Hrun
    |? ? ? Hstep Hacc]; subst; intros Hb.
  - destruct (try_accept_blocks_ok bm ds blocks) as (bm1 & ds1 & o1 & m1 & Hrun1 & Hpg & _); [done..|].
    rewrite Hrun in Hrun1. simplify_eq. apply Hpg.
  - destruct (try_accept_committed_blocks_ok bm ds blocks) as (bm1 & ds1 & o1 & Hrun1 & Hpg & _); [done..|].
    rewrite Hrun in Hrun1. simplify_eq. apply Hpg.
  - destruct (try_find_blocks_ok bm ds' refs) as (bm1 & X1 & Hrun1 & Hb1 & _); [done..|].
    rewrite Hrun in Hrun1. by simplify_eq.
  - destruct (gc_loop_ok (size (bm_missing_ancestors bm)) bm ds) as (bm1 & ds1 & o1 & Hrun1 & Hb1 & _); [done..|].
    unfold try_unsuspend_blocks_for_latest_gc_round in Hrun. rewrite Hrun in Hrun1. by simplify_eq.
  - by eapply bm_ok_dag_step.
Qed.

Lemma node_steps_ok st st' : rtc node_step st st' → bm_ok st.1 st.2 → bm_ok st'.1 st'.2.
Proof using HU.
  induction 1 as [|[bm ds] [bm1 ds1] st3 Hstep _ IH]; intros Hb; [done|]. apply IH. by eapply node_step_ok.
Qed.

Lemma node_run_ok bm ds bm' ds' : rtc node_step (bm, ds) (bm', ds') → bm_ok bm ds → bm_ok bm' ds'.
Proof using HU. apply (node_steps_ok (bm, ds) (bm', ds')). Qed.

Lemma bm_ok_new ds : node_dag ds → causally_closed ds → bm_ok (BlockManager_new ctx) ds.
Proof.
  intros Hd Hcl. split; cbn; rewrite ?dom_empty_L; try done; try set_solver.
  by rewrite length_replicate.
Qed.

(** Batches of blocks, delivered one after the other. *)
Definition deliver (st : BlockManager * DagState S) (blocks : list VerifiedBlock) : outcome (BlockManager * DagState S) :=
  '(bm, ds, _, _) ← try_accept_blocks st.1 st.2 blocks; Done (bm, ds).

Lemma deliver_all_ok batches bm ds :
  bm_ok bm ds → (∀ b, b ∈ concat batches → U !! reference b = Some b) →
  ∃ bm' ds' out, for_each deliver (bm, ds) batches = Done (bm', ds') ∧ progress bm ds (concat batches) out bm' ds' ∧
    (all_wanted bm → all_wanted bm').
Proof using HU.
  revert bm ds. induction batches as [|l batches IH]; intros bm ds Hb Hl; cbn [for_each concat].
  { exists bm, ds, []. split_and!; [done| |done]. apply progress_none; [done|]. by intros b ?%not_elem_of_nil. }
  cbn [concat] in Hl. unfold deliver at 2. cbn [fst snd].
  destruct (try_accept_blocks_ok bm ds l) as (bm1 & ds1 & o1 & m1 & -> & H1 & Hw1); [done|set_solver|]. run_bind.
  destruct (IH bm1 ds1) as (bm2 & ds2 & o2 & Hrun & H2 & Hw2); [apply H1|set_solver|].
  exists bm2, ds2, (o1 ++ o2). split_and!; [done| |auto]. apply (progress_trans _ _ _ _ bm1 ds1); [apply Hb|done|done].
Qed.

(** Nothing stays suspended when every block waited for was delivered. *)
Lemma none_suspended bm ds (D : BlockRef → Prop) :
  bm_ok bm ds → all_wanted bm → (∀ r, r ∈ dom (bm_suspended_blocks bm) → D r) → (∀ r, D r → tracked bm ds r) →
  (∀ r b a, D r → U !! r = Some b → a ∈ ancestors b → a ∈ dom (bm_missing_ancestors bm) → D a) →
  bm_suspended_blocks bm = ∅ ∧ bm_missing_blocks bm = ∅.
Proof using HU.
  intros Hb Hw Hsus Htr Hcl. assert (∀ a, a ∈ dom (bm_missing_ancestors bm) → a ∈ dom (bm_suspended_blocks bm)) as Hkeys.
  { intros a Ha. assert (D a) as HD.
    { apply elem_of_dom in Ha as [X HX]. destruct (set_choose_L X) as [r Hr]; [by eapply Hw|].
      destruct (bo_children _ _ _ Hb _ _ _ HX Hr) as (sb & Hsb & Hm).
      destruct (bo_suspended _ _ _ Hb _ _ Hsb) as (HrU & _ & Hanc).
      eapply (Hcl r); [apply Hsus; by eapply elem_of_dom_2|done|by apply Hanc|by eapply elem_of_dom_2]. }
    destruct (Htr a HD) as [Hk|]; [|done]. destruct (bo_keys _ _ _ Hb a Ha) as [_ Hf]. rewrite Hf in Hk by set_solver. done. }
  assert (bm_missing_blocks bm = ∅) as Hm by (rewrite (bo_missing _ _ _ Hb); set_solver).
  split; [|done]. apply map_empty. intros r. destruct (bm_suspended_blocks bm !! r) as [sb|] eqn:Hr; [|done].
  destruct (suspended_missing bm ds r sb Hb Hr) as (m & Hin & _). rewrite Hm in Hin. set_solver.
Qed.

(** What is accepted above the gc round is in memory. *)
Lemma bm_ok_cached bm ds r : bm_ok bm ds → known ds r = true → (gc_round ds < ref_round r)%N → r ∈ dom (cached ds).
Proof.
  intros Hb Hk Hgc. pose proof (bo_dag _ _ _ Hb) as Hd. pose proof (nd_ok _ Hd) as Hok.
  apply known_iff in Hk as [[b Hacc%elem_of_dom_2]|Hg]; [| |done].
  - apply elem_of_accepted in Hacc as [|[x Hst]%elem_of_dom]; [done|].
    destruct (dk_store _ Hok _ _ Hst) as [_ [Ha _ _]]. pose proof (dk_evicted_len _ Hok) as Hlen. unfold lengthN in Hlen.
    destruct (lookup_lt_is_Some_2 (ds_evicted_rounds ds) (N.to_nat (ref_author r))) as [e He]; [lia|].
    eapply (dk_evicted _ Hok); [done|by eapply elem_of_dom_2|done|].
    destruct (dk_evicted_le _ Hok _ _ He) as [->|[? _]]; lia.
  - rewrite <- (nd_genesis _ Hd) in Hg. apply elem_of_dom in Hg as [g Hg].
    apply (dk_genesis _ Hok) in Hg as [_ Hz]. unfold GENESIS_ROUND in Hz. lia.
Qed.

Lemma bm_ok_view bm ds :
  bm_ok bm ds → (ds_highest_accepted_round ds + 8 < u32_MAX)%N → dag_view (committee ctx) ds.
Proof using HU.
  intros Hb Hr. pose proof (bo_dag _ _ _ Hb) as Hd.
  assert (∀ r b, cached ds !! r = Some b → accepted ds !! r = Some b) as Hacc.
  { intros r b Hrb. by rewrite accepted_lookup, Hrb. }
  split; [apply Hd|unfold ds_committee; by rewrite (nd_context _ Hd)| | |done].
  - intros r b Hrb%Hacc. eapply (bk_valid _ _ _ HU r), lookup_weaken; [done|apply Hd].
  - intros r b a Hrb%Hacc Ha Hgc. eapply bm_ok_cached; [done| |done]. by eapply (bo_closed _ _ _ Hb).
Qed.

(** ** Properties *)

(** C20: the invariant of the block manager. From a fresh manager on a causally
    complete dag, after any sequence of received blocks, committed blocks,
    lookups, garbage collections and steps of the other users of the dag state,
    the invariant holds: blocks are suspended exactly while an ancestor above the
    gc round is unknown, the two maps mirror each other, the missing blocks are
    the references waited for that are not suspended themselves, and the dag is
    causally complete above the gc round, so that the commit rules apply to it. *)
Theorem block_manager_invariant ds0 bm ds :
  node_dag ds0 → causally_closed ds0 → rtc node_step (BlockManager_new ctx, ds0) (bm, ds) →
  bm_ok bm ds ∧
  bm_missing_blocks bm = dom (bm_missing_ancestors bm) ∖ dom (bm_suspended_blocks bm) ∧
  ((ds_highest_accepted_round ds + 8 < u32_MAX)%N → dag_view (committee ctx) ds).
Proof using HU.
  intros Hd Hcl Hsteps. assert (bm_ok bm ds) as Hb by (by apply (node_steps_ok _ _ Hsteps), bm_ok_new).
  split_and!; [done|rewrite (bo_missing _ _ _ Hb); set_solver|by eapply bm_ok_view].
Qed.

(** accepting a batch of blocks. It always returns: no assertion or lookup of
    the manager fails and its loop ends. It returns exactly the blocks that it
    adds to the dag, none twice and none known before, each after its ancestors
    above the gc round; the invariant is kept, and every input block above the gc
    round is accepted or suspended afterwards. *)
Theorem try_accept_blocks_correct bm ds blocks :
  bm_ok bm ds → (∀ b, b ∈ blocks → U !! reference b = Some b) →
  ∃ bm' ds' out miss, try_accept_blocks bm ds blocks = Done (bm', ds', out, miss) ∧ bm_ok bm' ds' ∧
    (∀ r b, accepted ds' !! r = Some b ↔ accepted ds !! r = Some b ∨ (b ∈ out ∧ reference b = r)) ∧
    NoDup (reference <$> out) ∧ (∀ b, b ∈ out → known ds (reference b) = false) ∧
    (∀ i b a, out !! i = Some b → a ∈ ancestors b → (gc_round ds < ref_round a)%N →
      known ds a = true ∨ a ∈ reference <$> take i out) ∧
    (∀ b, b ∈ blocks → (gc_round ds < round b)%N → tracked bm' ds' (reference b)).
Proof using HU.
  intros Hb Hl. destruct (try_accept_blocks_ok bm ds blocks) as (bm' & ds' & out & miss & Hrun & Hpg & _); [done..|].
  exists bm', ds', out, miss. split_and!; [done|apply Hpg|apply (pg_grown _ _ _ _ _ _ Hpg)|apply Hpg..].
Qed.

(** C21: delivery in any order. When batches of blocks are delivered to an idle
    manager, in any order and grouping, and the delivered blocks are causally
    closed above the gc round together with the dag, then at the end every
    delivered block above the gc round is in the dag, and nothing is suspended
    or missing. *)
Theorem delivery_complete bm ds batches :
  bm_ok bm ds → bm_suspended_blocks bm = ∅ → bm_missing_ancestors bm = ∅ →
  (∀ b, b ∈ concat batches → U !! reference b = Some b) → batch_closed ds (concat batches) →
  ∃ bm' ds', for_each deliver (bm, ds) batches = Done (bm', ds') ∧
    (∀ b, b ∈ concat batches → (gc_round ds < round b)%N → known ds' (reference b) = true) ∧
    bm_suspended_blocks bm' = ∅ ∧ bm_missing_blocks bm' = ∅.
Proof using HU.
  intros Hb Hs Hm Hl Hcl. destruct (deliver_all_ok batches bm ds) as (bm' & ds' & out & Hrun & Hpg & Hw); [done..|].
  pose proof (pg_ok _ _ _ _ _ _ Hpg) as Hb'. set (D r := (gc_round ds < ref_round r)%N ∧ r ∈ reference <$> concat batches).
  assert (∀ r, D r → tracked bm' ds' r) as Htr.
  { intros r [Hgc (b & -> & Hin)%list_elem_of_fmap]. by apply (pg_input _ _ _ _ _ _ Hpg). }
  assert (∀ a, a ∈ dom (bm_missing_ancestors bm') → gc_round ds < ref_round a)%N as Habove.
  { intros a Ha. destruct (pg_keys _ _ _ _ _ _ Hpg a Ha) as [Hold|]; [|done]. by rewrite Hm, dom_empty_L in Hold. }
  assert (bm_suspended_blocks bm' = ∅ ∧ bm_missing_blocks bm' = ∅) as [Hs' Hm'].
  { apply (none_suspended bm' ds' D); [done|apply Hw; intros a X; by rewrite Hm| |done|].
    - intros r Hr. assert (r ∈ reference <$> concat batches) as Hin.
      { destruct (pg_suspended _ _ _ _ _ _ Hpg r Hr) as [Hold|]; [|done]. by rewrite Hs, dom_empty_L in Hold. }
      split; [|done]. apply elem_of_dom in Hr as [sb Hsb].
      destruct (bo_suspended _ _ _ Hb' _ _ Hsb) as (HrU & Hne & Hanc). apply set_choose_L in Hne as [a Ha].
      destruct (bo_waits _ _ _ Hb' _ _ _ Hsb Ha) as (X & HX & _). pose proof (Habove a (elem_of_dom_2 _ _ _ HX)).
      pose proof (vb_rounds _ _ (bk_valid _ _ _ HU _ _ HrU) a (Hanc a Ha)) as Hlt.
      rewrite <- (bk_ref _ _ _ HU _ _ HrU). cbn. lia.
    - intros r b a [_ (x & -> & Hx)%list_elem_of_fmap] HrU Ha Hkey. pose proof (Habove a Hkey) as Hgc.
      assert (b = x) as -> by (specialize (Hl x Hx); congruence). split; [done|].
      destruct (Hcl x a Hx Ha Hgc) as [Hk|]; [|done]. destruct (bo_keys _ _ _ Hb' a Hkey) as [_ Hf].
      assert (known ds' a = true) as Hk' by (apply (grown_known ds out ds'); [apply Hb|apply Hpg|by left]).
      rewrite Hf in Hk' by set_solver. done. }
  exists bm', ds'. split_and!; [done| |done|done]. intros b Hin Hgc.
  destruct (Htr (reference b)) as [|Hsus]; [split; [done|by apply list_elem_of_fmap_2]|done|].
  by rewrite Hs', dom_empty_L in Hsus.
Qed.

(** nothing waits in vain. Every suspended block has, in its causal history, a
    block that the manager reports as missing; so fetching the missing blocks
    always makes progress, and when no block is missing no block is suspended. *)
Theorem suspended_blocks_wait_for_missing bm ds r sb :
  bm_ok bm ds → bm_suspended_blocks bm !! r = Some sb →
  ∃ m, m ∈ missing_blocks bm ∧ linked_to U (sb_block sb) m ∧ known ds m = false.
Proof using HU.
  intros Hb Hr. destruct (suspended_missing bm ds r sb Hb Hr) as (m & Hm & Hlink). exists m. split_and!; [done|done|].
  rewrite (bo_missing _ _ _ Hb) in Hm. destruct (bo_keys _ _ _ Hb m) as [_ Hf]; [set_solver|]. apply Hf. set_solver.
Qed.

(** C22: garbage collection of suspended blocks. It terminates and none of its
    assertions fails (in particular, the lowest reference waited for is never
    itself suspended). Afterwards nothing waits for a block at or below the gc
    round; what it accepts was suspended, and the invariant is kept. *)
Theorem gc_unsuspends bm ds :
  bm_ok bm ds →
  ∃ bm' ds' (out : list VerifiedBlock), try_unsuspend_blocks_for_latest_gc_round bm ds = Done (bm', ds') ∧ bm_ok bm' ds' ∧
    (∀ r b, accepted ds' !! r = Some b ↔ accepted ds !! r = Some b ∨ (b ∈ out ∧ reference b = r)) ∧
    (∀ b, b ∈ out → reference b ∈ dom (bm_suspended_blocks bm)) ∧
    (∀ a, a ∈ dom (bm_missing_ancestors bm') → gc_round ds' < ref_round a)%N.
Proof using HU.
  intros Hb. destruct (gc_loop_ok (size (bm_missing_ancestors bm)) bm ds) as (bm' & ds' & out & Hrun & Hb' & Hg & Hout & Hkeys & _);
    [done..|].
  exists bm', ds', out. rewrite (grown_gc _ _ _ (bo_dag _ _ _ Hb) Hg). split_and!; [done|done|apply Hg|done|done].
Qed.

(** blocks of certified commits. A batch whose history is in the dag or in the
    batch is accepted completely, in causal order, without a panic and without
    reporting a missing block, also when some of it was suspended before. *)
Theorem committed_blocks_accepted bm ds blocks :
  bm_ok bm ds → (∀ b, b ∈ blocks → U !! reference b = Some b) → batch_closed ds blocks →
  ∃ bm' ds' out, try_accept_committed_blocks bm ds blocks = Done (bm', ds', out) ∧ bm_ok bm' ds' ∧
    (∀ b, b ∈ blocks → known ds' (reference b) = true) ∧
    (∀ i b a, out !! i = Some b → a ∈ ancestors b → (gc_round ds < ref_round a)%N →
      known ds a = true ∨ a ∈ reference <$> take i out).
Proof using HU.
  intros Hb Hl Hcl. destruct (try_accept_committed_blocks_ok bm ds blocks) as (bm' & ds' & out & Hrun & Hpg & Hk); [done..|].
  exists bm', ds', out. split_and!; [done|apply Hpg|done|apply Hpg].
Qed.

End manager.

(** ** A concrete node *)

Ltac in_list := first [apply list_elem_of_here | apply list_elem_of_further; in_list].

(** [blocks_ok] as a check that can be run. *)
Definition blocks_check (ctx : Context) (G : gset BlockRef) (U : gmap BlockRef VerifiedBlock) : bool :=
  negb (enable_v3 (protocol_config ctx)) &&
  forallb (λ '(r, b), bool_decide (reference b = r) && bool_decide (ref_author r < Committee_size (committee ctx))%N &&
    bool_decide (ref_round r ≠ 0%N) && bool_decide (ref_digest r ≤ BlockDigest_MAX)%N &&
    bool_decide (valid_block (committee ctx) b) && bool_decide (ref_author r ≠ own_index ctx) &&
    forallb (λ a, bool_decide (ref_round a ≠ GENESIS_ROUND) || bool_decide (a ∈ G)) (ancestors b)) (map_to_list U).

Lemma blocks_check_ok ctx G U : blocks_check ctx G U = true → blocks_ok ctx G U.
Proof.
  unfold blocks_check. rewrite andb_true_iff, negb_true_iff, forallb_forall. intros [Hv3 Hall].
  assert (∀ r b, U !! r = Some b → reference b = r ∧ ref_ok (committee ctx) r ∧ valid_block (committee ctx) b ∧
    ref_author r ≠ own_index ctx ∧ ∀ a, a ∈ ancestors b → ref_round a = GENESIS_ROUND → a ∈ G) as Hb.
  { intros r b Hr%elem_of_map_to_list%list_elem_of_In. specialize (Hall _ Hr). cbn in Hall.
    rewrite !andb_true_iff, !bool_decide_eq_true, forallb_forall in Hall.
    destruct Hall as ((((((? & ?) & ?) & ?) & ?) & ?) & Hanc). split_and!; [done|by split|done|done|].
    intros a Ha%list_elem_of_In Hz. specialize (Hanc a Ha). rewrite orb_true_iff, !bool_decide_eq_true in Hanc. tauto. }
  split; [..|done|].
  - intros r b Hr. by apply Hb.
  - intros r [b Hr]%elem_of_dom. by apply (Hb r b).
  - intros r b Hr. by apply (Hb r b).
  - intros r b a Hr. by apply (Hb r b).
  - intros r r' [b Hr]%elem_of_dom _ _ Hown. by destruct (Hb r b Hr) as (_ & _ & _ & ? & _).
Qed.

(** Three blocks of round 1, and one of round 2 on top of them. *)
Definition manager_genesis : gset BlockRef := list_to_set (map (λ a, mkBlockRef 0 a 7) [0; 1; 2; 3]%N).
Definition manager_round_1 (a : N) : VerifiedBlock :=
  sample_block 1 a (10 + a) [mkBlockRef 0 a 7; mkBlockRef 0 ((a + 1) `mod` 4) 7; mkBlockRef 0 ((a + 2) `mod` 4) 7].
Definition manager_round_2 : VerifiedBlock :=
  sample_block 2 1 21 [mkBlockRef 1 1 11; mkBlockRef 1 2 12; mkBlockRef 1 3 13].
Definition manager_blocks : list VerifiedBlock := [manager_round_1 1; manager_round_1 2; manager_round_1 3; manager_round_2].
Definition manager_universe : gmap BlockRef VerifiedBlock := list_to_map (map (λ b, (reference b, b)) manager_blocks).

Lemma manager_universe_ok : blocks_ok sample_context manager_genesis manager_universe.
Proof. apply blocks_check_ok. vm_compute. reflexivity. Qed.

Lemma manager_blocks_in b : b ∈ manager_blocks → manager_universe !! reference b = Some b.
Proof.
  unfold manager_blocks. intros Hb. repeat (apply elem_of_cons in Hb as [->|Hb]); [vm_compute; reflexivity..|].
  by apply not_elem_of_nil in Hb.
Qed.

(** Above round 0 the blocks are causally closed. *)
Lemma manager_blocks_closed b a :
  b ∈ manager_blocks → a ∈ ancestors b → (0 < ref_round a)%N → a ∈ reference <$> manager_blocks.
Proof.
  unfold manager_blocks. intros Hb Ha Hgc. repeat (apply elem_of_cons in Hb as [->|Hb]); [..|by apply not_elem_of_nil in Hb];
    cbn in Ha; repeat (apply elem_of_cons in Ha as [->|Ha]);
    first [by apply not_elem_of_nil in Ha|by vm_compute in Hgc|vm_compute; in_list].
Qed.

Lemma manager_start_dag : node_dag sample_context manager_genesis manager_universe sample_start.
Proof.
  split; [exact sample_start_ok|vm_compute; reflexivity|vm_compute; reflexivity|].
  assert (accepted sample_start = ∅) as ->; [|apply map_empty_subseteq]. vm_compute. reflexivity.
Qed.

Lemma manager_start_ok :
  bm_ok sample_context manager_genesis manager_universe (BlockManager_new sample_context) sample_start.
Proof.
  apply bm_ok_new; [exact manager_start_dag|]. intros r b a Hr.
  assert (accepted sample_start = ∅) as He by (vm_compute; reflexivity). rewrite He in Hr. by rewrite lookup_empty in Hr.
Qed.

(** The manager after receiving the block of round 2 first. *)
Definition manager_waiting : BlockManager * DagState MemStore.Inner :=
  from_done (BlockManager_new sample_context, sample_start)
    (deliver (BlockManager_new sample_context, sample_start) [manager_round_2]).

Lemma manager_waiting_step :
  try_accept_blocks (BlockManager_new sample_context) sample_start [manager_round_2] =
    Done (manager_waiting.1, manager_waiting.2, [], list_to_set (ancestors manager_round_2)).
Proof. vm_compute. reflexivity. Qed.

Lemma manager_waiting_steps :
  rtc (node_step sample_context manager_universe) (BlockManager_new sample_context, sample_start)
    (manager_waiting.1, manager_waiting.2).
Proof.
  apply rtc_once. eapply node_blocks; [|exact manager_waiting_step].
  intros b ->%list_elem_of_singleton. apply manager_blocks_in. unfold manager_blocks. in_list.
Qed.

Lemma manager_waiting_ok :
  bm_ok sample_context manager_genesis manager_universe manager_waiting.1 manager_waiting.2.
Proof. exact (node_run_ok _ _ _ manager_universe_ok _ _ _ _ manager_waiting_steps manager_start_ok). Qed.

Lemma block_manager_invariant_witness :
  rtc (node_step sample_context manager_universe) (BlockManager_new sample_context, sample_start)
    (manager_waiting.1, manager_waiting.2) ∧
  dag_view committee_4 manager_waiting.2.
Proof.
  split; [exact manager_waiting_steps|].
  refine (proj2 (proj2 (block_manager_invariant sample_context manager_genesis manager_universe manager_universe_ok
    sample_start manager_waiting.1 manager_waiting.2 manager_start_dag _ manager_waiting_steps)) _).
  - exact (bo_closed _ _ _ _ _ _ manager_start_ok).
  - vm_compute. reflexivity.
Defined.

Lemma try_accept_blocks_correct_witness :
  ∃ bm ds out miss, try_accept_blocks (BlockManager_new sample_context) sample_start (reverse manager_blocks) =
    Done (bm, ds, out, miss) ∧ length out = 4 ∧ NoDup (reference <$> out).
Proof.
  destruct (try_accept_blocks_correct sample_context manager_genesis manager_universe manager_universe_ok
    (BlockManager_new sample_context) sample_start (reverse manager_blocks) manager_start_ok)
    as (bm & ds & out & miss & Hrun & _ & _ & Hnd & _).
  { intros b Hb%elem_of_reverse. exact (manager_blocks_in b Hb). }
  exists bm, ds, out, miss. split; [exact Hrun|]. split; [|exact Hnd].
  assert ((λ st : accept_state, length st.1.2) <$>
    try_accept_blocks (BlockManager_new sample_context) sample_start (reverse manager_blocks) = Done 4) as Hlen
    by (vm_compute; reflexivity).
  rewrite Hrun in Hlen. injection Hlen as Hlen. exact Hlen.
Defined.

Lemma delivery_complete_witness :
  let batches := [[manager_round_2]; [manager_round_1 3; manager_round_1 1]; [manager_round_1 2]] in
  ∃ bm ds, for_each deliver (BlockManager_new sample_context, sample_start) batches = Done (bm, ds) ∧
    known ds (reference manager_round_2) = true ∧ bm_suspended_blocks bm = ∅.
Proof.
  intros batches. assert (concat batches ≡ₚ manager_blocks) as Hperm.
  { unfold manager_blocks. cbn [concat app batches]. solve_Permutation. }
  destruct (delivery_complete sample_context manager_genesis manager_universe manager_universe_ok
    (BlockManager_new sample_context) sample_start batches manager_start_ok eq_refl eq_refl)
    as (bm & ds & Hrun & Hknown & Hs & _).
  - intros b Hb. apply manager_blocks_in. by rewrite <- Hperm.
  - intros b a Hb Ha Hgc. right. replace (gc_round sample_start) with 0%N in Hgc by (vm_compute; reflexivity).
    rewrite Hperm in Hb |- *. exact (manager_blocks_closed b a Hb Ha Hgc).
  - exists bm, ds. split; [exact Hrun|]. split; [|exact Hs]. apply Hknown; [cbn [concat app batches]; in_list|vm_compute; reflexivity].
Defined.

Lemma suspended_blocks_wait_for_missing_witness :
  ∃ sb m, bm_suspended_blocks manager_waiting.1 !! reference manager_round_2 = Some sb ∧
    m ∈ missing_blocks manager_waiting.1 ∧ linked_to manager_universe (sb_block sb) m.
Proof.
  destruct (bm_suspended_blocks manager_waiting.1 !! reference manager_round_2) as [sb|] eqn:Hr;
    [|vm_compute in Hr; discriminate Hr].
  destruct (suspended_blocks_wait_for_missing sample_context manager_genesis manager_universe manager_universe_ok
    manager_waiting.1 manager_waiting.2 _ sb manager_waiting_ok Hr) as (m & Hm & Hl & _).
  exists sb, m. split; [exact eq_refl|]. split; [exact Hm|exact Hl].
Defined.

Lemma gc_unsuspends_witness :
  ∃ bm ds, try_unsuspend_blocks_for_latest_gc_round manager_waiting.1 manager_waiting.2 = Done (bm, ds) ∧
    ∀ a, a ∈ dom (bm_missing_ancestors bm) → (gc_round ds < ref_round a)%N.
Proof.
  destruct (gc_unsuspends sample_context manager_genesis manager_universe manager_universe_ok
    manager_waiting.1 manager_waiting.2 manager_waiting_ok) as (bm & ds & out & Hrun & _ & _ & _ & Hkeys).
  exists bm, ds. split; [exact Hrun|exact Hkeys].
Defined.

Lemma committed_blocks_accepted_witness :
  ∃ bm ds out, try_accept_committed_blocks manager_waiting.1 manager_waiting.2 manager_blocks = Done (bm, ds, out) ∧
    known ds (reference manager_round_2) = true.
Proof.
  destruct (committed_blocks_accepted sample_context manager_genesis manager_universe manager_universe_ok
    manager_waiting.1 manager_waiting.2 manager_blocks manager_waiting_ok manager_blocks_in)
    as (bm & ds & out & Hrun & _ & Hk & _).
  - intros b a Hb Ha Hgc. right. replace (gc_round manager_waiting.2) with 0%N in Hgc by (vm_compute; reflexivity).
    exact (manager_blocks_closed b a Hb Ha Hgc).
  - exists bm, ds, out. split; [exact Hrun|]. apply Hk. unfold manager_blocks. in_list.
Defined.

(** accepted blocks are returned in causal order, not in round order. A block of
    round 1 completes two suspended blocks, of rounds 2 and 5, and their children
    of rounds 3 and 6: the block of round 6 is returned before the one of round 3. *)
Theorem accepted_blocks_not_in_round_order :
  let a := sample_block 1 1 11 [mkBlockRef 0 1 7] in
  let b2 := sample_block 2 2 22 [reference a] in
  let b3 := sample_block 3 3 33 [reference b2] in
  let b5 := sample_block 5 1 51 [reference a] in
  let b6 := sample_block 6 2 62 [reference b5] in
  (map round ∘ (λ st : accept_state, st.1.2) <$>
    (st ← deliver (BlockManager_new sample_context, sample_start) [b2; b3; b5; b6];
     try_accept_blocks st.1 st.2 [a])) = Done [1; 2; 5; 6; 3]%N.
Proof. vm_compute. reflexivity. Qed.
