(* ===== verification/CommitRules.v ===== *)
(** * What the commit rules compute

    Votes, certificates and blames as facts about block contents, independent of
    the node that looks at them, and the proof that the base committer computes
    them: it never panics, never runs out of fuel and its caches never change a
    result. *)

From S2P Require Import Prelude Committee Block StakeAggregator ThresholdClock Commit Store LeaderScoring.
From S2P Require Import DagState DagInvariant LeaderSchedule BaseCommitter CausalHistory.

(** ** The specification

    [U] holds all blocks of the network. A vote for a leader block [L] is a block
    of the next round with [L] among its ancestors; a certificate is a block
    whose ancestors include a quorum of votes. *)
Section spec.
Context (U : gmap BlockRef VerifiedBlock) (c : Committee).

Definition votes_for (L r : BlockRef) : bool :=
  match U !! r with
  | Some v => bool_decide (ref_round r = ref_round L + 1)%N && bool_decide (L ∈ ancestors v)
  | None => false
  end.

(** The authors of the votes for [L] that [C] links to. *)
Definition voters (C : VerifiedBlock) (L : BlockRef) : gset N :=
  list_to_set (ref_author <$> filter (λ r, votes_for L r = true) (ancestors C)).

Definition certifies (C : VerifiedBlock) (L : BlockRef) : bool :=
  bool_decide (quorum_threshold c ≤ set_stake c (voters C L))%N.

Definition blames (v : VerifiedBlock) (leader : N) : bool :=
  forallb (λ r, bool_decide (ref_author r ≠ leader)) (ancestors v).

Lemma votes_for_true L r :
  votes_for L r = true ↔ ∃ v, U !! r = Some v ∧ ref_round r = (ref_round L + 1)%N ∧ L ∈ ancestors v.
Proof.
  unfold votes_for. destruct (U !! r) as [v|]; [|naive_solver].
  rewrite andb_true_iff, !bool_decide_eq_true. naive_solver.
Qed.

Lemma elem_of_voters C L a :
  a ∈ voters C L ↔ ∃ r, r ∈ ancestors C ∧ ref_author r = a ∧ votes_for L r = true.
Proof.
  unfold voters. rewrite elem_of_list_to_set, list_elem_of_fmap.
  setoid_rewrite list_elem_of_filter. naive_solver.
Qed.

Lemma blames_true v leader : blames v leader = true ↔ ∀ r, r ∈ ancestors v → ref_author r ≠ leader.
Proof.
  unfold blames. rewrite forallb_forall. setoid_rewrite bool_decide_eq_true.
  setoid_rewrite list_elem_of_In. done.
Qed.

End spec.

(** ** Quorums

    The faulty authorities [byz] hold at most [f] stake; the others make one
    block per round. *)
Section network.
Context (c : Committee) (f : N) (byz : gset N) (U : gmap BlockRef VerifiedBlock).

Record network : Prop := {
  nw_committee : committee_ok c;
  nw_quorums : quorums_intersect c f;
  nw_byz : (set_stake c byz ≤ f)%N;
  nw_reference r b : U !! r = Some b → reference b = r;
  nw_valid r b : U !! r = Some b → valid_block c b;
  nw_honest r r' : r ∈ dom U → r' ∈ dom U → ref_author r = ref_author r' → ref_author r ∉ byz →
    ref_round r = ref_round r' → r = r';
}.

(** The conditions on blocks as a check that can be run. *)
Definition network_check : bool :=
  bool_decide (set_stake c byz ≤ f)%N &&
  forallb (λ '(r, b), bool_decide (reference b = r) && bool_decide (valid_block c b)) (map_to_list U) &&
  forallb (λ r, forallb (λ r', bool_decide (r = r') || bool_decide (ref_author r ≠ ref_author r') ||
    bool_decide (ref_author r ∈ byz) || bool_decide (ref_round r ≠ ref_round r')) (map fst (map_to_list U)))
    (map fst (map_to_list U)).

Lemma network_check_ok :
  committee_ok c → quorums_intersect c f → network_check = true → network.
Proof.
  intros Hc Hq [[Hs%bool_decide_eq_true Hb]%andb_true_iff Hh]%andb_true_iff.
  rewrite forallb_forall in Hb. rewrite forallb_forall in Hh.
  assert (∀ r b, U !! r = Some b → reference b = r ∧ valid_block c b) as Hblock.
  { intros r b Hr%elem_of_map_to_list%list_elem_of_In. specialize (Hb _ Hr). cbn in Hb.
    by apply andb_true_iff in Hb as [?%bool_decide_eq_true ?%bool_decide_eq_true]. }
  assert (∀ r : BlockRef, r ∈ dom U → In r (map fst (map_to_list U))) as Hdom.
  { intros r [b Hr%elem_of_map_to_list%list_elem_of_In]%elem_of_dom. by apply (in_map fst) in Hr. }
  split; [done|done|done|intros r b Hr; by apply Hblock|intros r b Hr; by apply (Hblock r)|].
  intros r r' Hr Hr' Ha Hnb Hround. specialize (Hh r (Hdom r Hr)). rewrite forallb_forall in Hh.
  specialize (Hh r' (Hdom r' Hr')). rewrite !orb_true_iff, !bool_decide_eq_true in Hh. tauto.
Qed.

Context (Hnw : network).

(** A quorum of authors with a block that satisfies [P]. *)
Definition quorum_of (P : VerifiedBlock → Prop) : Prop :=
  ∃ Q, (quorum_threshold c ≤ set_stake c Q)%N ∧ ∀ a, a ∈ Q → ∃ b, U !! reference b = Some b ∧ author b = a ∧ P b.

Definition blame_quorum (slot : Slot) : Prop :=
  quorum_of (λ v, round v = (slot_round slot + 1)%N ∧ blames v (slot_authority slot) = true).

Definition cert_quorum (L : BlockRef) : Prop :=
  quorum_of (λ C, round C = (ref_round L + 2)%N ∧ certifies U c C L = true).

(** Two quorums have a non-faulty author in common, with the same block if they
    are about the same round. *)
Lemma quorum_common Q1 Q2 :
  (quorum_threshold c ≤ set_stake c Q1)%N → (quorum_threshold c ≤ set_stake c Q2)%N →
  ∃ a, a ∈ Q1 ∧ a ∈ Q2 ∧ a ∉ byz.
Proof. intros H1 H2. destruct Hnw. by eapply quorum_intersection. Qed.

Lemma certifies_voter C L a : certifies U c C L = true → a ∈ voters U C L →
  ∃ r v, r ∈ ancestors C ∧ U !! r = Some v ∧ ref_author r = a ∧ ref_round r = (ref_round L + 1)%N ∧ L ∈ ancestors v.
Proof.
  intros _ (r & Hr & Ha & (v & Hv & Hrr & HL)%votes_for_true)%elem_of_voters. exists r, v. done.
Qed.

(** At most one block of a slot has a certificate. *)
Lemma certificate_unique C1 C2 L1 L2 :
  certifies U c C1 L1 = true → certifies U c C2 L2 = true → Slot_from L1 = Slot_from L2 → L1 = L2.
Proof.
  intros H1 H2 [Hr Ha]%Slot_from_eq. cbn in Hr, Ha.
  pose proof H1 as Q1. pose proof H2 as Q2. unfold certifies in Q1, Q2.
  apply bool_decide_eq_true in Q1, Q2.
  destruct (quorum_common _ _ Q1 Q2) as (a & Ha1 & Ha2 & Hnb).
  destruct (certifies_voter _ _ _ H1 Ha1) as (r1 & v1 & _ & Hv1 & Hra1 & Hrr1 & HL1).
  destruct (certifies_voter _ _ _ H2 Ha2) as (r2 & v2 & _ & Hv2 & Hra2 & Hrr2 & HL2).
  assert (r1 = r2) as ->.
  { apply (nw_honest Hnw); [by eapply elem_of_dom_2|by eapply elem_of_dom_2|congruence|congruence|lia]. }
  simplify_eq. eapply vb_ancestor_inj; [by eapply nw_valid|done|done|done].
Qed.

(** A blamed slot has no certificate. *)
Lemma blame_no_certificate slot C L :
  blame_quorum slot → Slot_from L = slot → certifies U c C L = true → False.
Proof.
  intros (Q & HQ & Hb) <- HC. pose proof HC as HC'. unfold certifies in HC'. apply bool_decide_eq_true in HC'.
  destruct (quorum_common _ _ HQ HC') as (a & Ha1 & Ha2 & Hnb).
  destruct (Hb a Ha1) as (v & Hv & Hav & Hrv & Hbl).
  destruct (certifies_voter _ _ _ HC Ha2) as (r & v' & _ & Hv' & Hra & Hrr & HL).
  assert (reference v = r) as <-.
  { apply (nw_honest Hnw); [by eapply elem_of_dom_2|by eapply elem_of_dom_2|cbn; congruence|cbn; congruence|].
    cbn in *. lia. }
  simplify_eq. by apply (proj1 (blames_true v _) Hbl L).
Qed.

End network.

Section rules.
Context {S : Type} `{StoreLaws S}.
Context (c : Committee) (Hc : committee_ok c) (f : N) (Hq : quorums_intersect c f).
Context (U : gmap BlockRef VerifiedBlock).
Context (ds : DagState S) (Hv : dag_view c ds) (HU : cached ds ⊆ U).

Lemma quorum_pos : (0 < quorum_threshold c)%N.
Proof. destruct Hq. lia. Qed.

(** ** Votes *)

Lemma supported_low rec slot l :
  (∀ r, r ∈ l → ref_round r ≤ slot_round slot)%N →
  supported_among ds rec slot l = Done (head (filter (λ r, Slot_from r = slot) l)).
Proof.
  induction l as [|r l IH]; intros Hl; [done|]. cbn [supported_among]. rewrite filter_cons.
  case_decide; [done|]. rewrite decide_True by (apply Hl; set_solver). apply IH. set_solver.
Qed.

(** Blocks below the voting round support nothing at the slot. *)
Lemma is_vote_low v L :
  (round v < slot_round (Slot_from (reference L)))%N ∨
    (round v = slot_round (Slot_from (reference L)) ∧ ∀ r, r ∈ ancestors v → (ref_round r < round v)%N) →
  is_vote ds v L = Done false.
Proof.
  intros Hcase. unfold is_vote, find_supported_block. cbn [find_supported_block_fuel].
  case_decide as Hlt; [done|].
  destruct Hcase as [|[Hr Hanc]]; [lia|].
  rewrite supported_low by (intros r Hr'; specialize (Hanc r Hr'); lia). run_bind.
  rewrite bool_decide_eq_false_2; [done|].
  destruct (filter _ _) as [|r l] eqn:Hf; [done|].
  assert (r ∈ filter (λ r, Slot_from r = Slot_from (reference L)) (ancestors v)) as [Hs Hin]%list_elem_of_filter
    by (rewrite Hf; set_solver).
  apply Slot_from_eq in Hs as [Hs _]. specialize (Hanc r Hin). cbn in *. lia.
Qed.

(** A block of the voting round votes for a leader among its ancestors. *)
Lemma is_vote_voting v L :
  valid_block c v → round v = (round L + 1)%N →
  is_vote ds v L = Done (bool_decide (reference L ∈ ancestors v)).
Proof.
  intros Hval Hr. unfold is_vote, find_supported_block. cbn [find_supported_block_fuel].
  rewrite decide_False by (cbn; lia).
  rewrite supported_low.
  2: { intros r Hin. pose proof (vb_rounds _ _ Hval r Hin). cbn. lia. }
  run_bind. f_equal. apply bool_decide_ext.
  destruct (filter _ _) as [|r l] eqn:Hf; cbn.
  - split; [done|]. intros Hin.
    assert (reference L ∈ filter (λ r, Slot_from r = Slot_from (reference L)) (ancestors v)) as Hin'
      by (by apply list_elem_of_filter).
    rewrite Hf in Hin'. by apply not_elem_of_nil in Hin'.
  - assert (r ∈ filter (λ r, Slot_from r = Slot_from (reference L)) (ancestors v)) as [Hs Hin]%list_elem_of_filter
      by (rewrite Hf; set_solver).
    split; [by intros [= <-]|]. intros HL. f_equal. eapply vb_ancestor_inj; [done..|].
    apply Slot_from_eq in Hs as [_ Hs]. done.
Qed.

Context (L : VerifiedBlock) (Hgc : (gc_round ds < round L)%N).

(** The cache of votes holds what a fresh look would give. *)
Definition votes_ok (all_votes : gmap BlockRef bool) : Prop :=
  ∀ r v, all_votes !! r = Some v → v = votes_for U (reference L) r.

Lemma cached_is_vote_spec C all_votes r :
  cached ds !! reference C = Some C → round C = (round L + 2)%N → r ∈ ancestors C → votes_ok all_votes →
  ∃ all_votes', cached_is_vote ds L all_votes r = Done (votes_for U (reference L) r, all_votes') ∧
    votes_ok all_votes'.
Proof.
  intros HC HCr Hr Hok. unfold cached_is_vote. destruct (all_votes !! r) as [v|] eqn:Hcache.
  { exists all_votes. rewrite (Hok _ _ Hcache). done. }
  assert (ref_round r < round C)%N as HrC by (eapply vb_rounds; [by eapply dv_valid|done]).
  rewrite get_block_spec. run_bind.
  assert (∃ v, match block_of ds r with
    | Some potential_vote => is_vote ds potential_vote L
    | None => rassert (ref_round r ≤ gc_round ds)%N;; Done false
    end = Done v ∧ v = votes_for U (reference L) r) as (v & -> & ->).
  2: { run_bind. eexists. split; [done|].
       intros r' v'. rewrite lookup_insert_Some. intros [[<- <-]|[_ Hr']]; [done|by apply Hok]. }
  destruct (decide (gc_round ds < ref_round r)%N) as [Hgcr|Hgcr].
  - assert (r ∈ dom (cached ds)) as [v Hvr]%elem_of_dom by (by eapply dv_causal).
    assert (reference v = r) as Href by (by eapply dv_reference).
    assert (round v = ref_round r) as Hrv by (by rewrite <- Href).
    assert (valid_block c v) as Hval by (by eapply dv_valid).
    pose proof (dv_get_block c ds r v Hv Hvr) as Hget. rewrite get_block_spec in Hget. injection Hget as ->.
    unfold votes_for. rewrite (lookup_weaken _ _ _ _ Hvr HU).
    destruct (decide (round v = round L + 1)%N) as [Heq|Hne].
    + rewrite is_vote_voting by done. rewrite (bool_decide_eq_true_2 (ref_round r = _)) by (cbn; lia). eauto.
    + rewrite is_vote_low.
      2: { cbn. destruct (decide (round v < round L)%N); [by left|right]. split; [lia|]. apply Hval. }
      rewrite bool_decide_eq_false_2 by (cbn; lia). eauto.
  - assert (votes_for U (reference L) r = false) as ->.
    { destruct (votes_for U (reference L) r) eqn:E; [|done].
      apply votes_for_true in E as (_ & _ & E & _). cbn in E. lia. }
    destruct (block_of ds r) as [v|] eqn:Hb.
    + rewrite is_vote_low; [by eauto|]. left. cbn.
      assert (round v = ref_round r) as ->; [|lia]. unfold block_of in Hb. pose proof (dv_ok _ _ Hv) as Hdok.
      case_decide; [destruct (dk_genesis _ Hdok _ _ Hb) as [<- _]; done|]. rewrite accepted_lookup in Hb.
      destruct (cached ds !! r) as [v'|] eqn:Hcr; [|destruct (dk_store _ Hdok _ _ Hb) as [<- _]; done].
      simplify_eq. destruct (dk_recent _ Hdok _ _ Hcr) as [<- _]. done.
    + rewrite rassert_true by lia. eauto.
Qed.

Lemma is_certificate_spec C all_votes :
  cached ds !! reference C = Some C → round C = (round L + 2)%N → votes_ok all_votes →
  ∃ all_votes', is_certificate c ds L all_votes C = Done (certifies U c C (reference L), all_votes') ∧
    votes_ok all_votes'.
Proof.
  intros HC HCr Hok. unfold is_certificate.
  destruct (aggregate_until_spec c Hc (T := QuorumThreshold) ref_author (cached_is_vote ds L)
    (votes_for U (reference L)) votes_ok StakeAggregator_new all_votes (ancestors C))
    as (av & -> & Hav).
  - apply StakeAggregator_new_ok.
  - done.
  - cbn. unfold set_stake. rewrite set_sum_empty. apply quorum_pos.
  - intros av r Hr Hav. by eapply cached_is_vote_spec.
  - intros r Hr _. eapply vb_authors; [by eapply dv_valid|done].
  - exists av. split; [|done]. cbn [votes StakeAggregator_new threshold_of QuorumThreshold_impl].
    rewrite union_empty_r_L. done.
Qed.

End rules.

(** ** The direct rule *)
Section direct.
Context {S : Type} `{StoreLaws S}.
Context (c : Committee) (f : N) (byz : gset N) (U : gmap BlockRef VerifiedBlock).
Context (Hnw : network c f byz U).
Context (ds : DagState S) (Hv : dag_view c ds) (HU : cached ds ⊆ U).
Context (bc : BaseCommitter) (Hbc : committee (bc_context bc) = c).

Let Hc : committee_ok c := nw_committee _ _ _ _ Hnw.
Let Hq : quorums_intersect c f := nw_quorums _ _ _ _ Hnw.

Lemma new_below_quorum :
  (set_stake c (votes (StakeAggregator_new : StakeAggregator QuorumThreshold)) < quorum_threshold c)%N.
Proof. cbn. unfold set_stake. rewrite set_sum_empty. by eapply quorum_pos. Qed.

(** The authors of the selected blocks form a quorum of [P]. *)
Lemma selected_quorum (P : VerifiedBlock → Prop) (p : VerifiedBlock → bool) l :
  (∀ b, b ∈ l → cached ds !! reference b = Some b) → (∀ b, b ∈ l → p b = true → P b) →
  (quorum_threshold c ≤ set_stake c (list_to_set ((λ b, ref_author (reference b)) <$> filter (λ x, p x = true) l)))%N →
  quorum_of c U P.
Proof.
  intros Hl HP Hqs. eexists. split; [exact Hqs|]. intros a Ha.
  apply elem_of_list_to_set, list_elem_of_fmap in Ha as (b & -> & [Hp Hb]%list_elem_of_filter).
  exists b. split_and!; [eapply lookup_weaken; [by apply Hl|done]|done|by apply HP].
Qed.

Lemma dv_author b : cached ds !! reference b = Some b → (author b < Committee_size c)%N.
Proof. intros Hb. eapply vb_author. by eapply dv_valid. Qed.

Lemma enough_leader_blame_spec slot :
  (last_commit_round ds < slot_round slot + 1)%N → (slot_round slot + 1 < u32_MAX)%N →
  ∃ b, enough_leader_blame bc ds (slot_round slot + 1) (slot_authority slot) = Done b ∧
    (b = true → blame_quorum c U slot).
Proof.
  intros Hlc Hmax. unfold enough_leader_blame. rewrite Hbc.
  destruct (get_uncommitted_blocks_at_round_spec ds (slot_round slot + 1)) as (l & -> & Hl & _);
    [apply Hv|done|done|]. run_bind.
  destruct (aggregate_until_spec c Hc (T := QuorumThreshold) (λ b, ref_author (reference b))
    (λ (_ : ()) b, Done (blames b (slot_authority slot), ())) (λ b, blames b (slot_authority slot)) (λ _, True)
    StakeAggregator_new () l) as ([] & Hrun & _).
  { apply StakeAggregator_new_ok. } { done. } { apply new_below_quorum. } { intros [] x _ _. by exists (). }
  { intros b Hb _. apply dv_author, Hl, Hb. }
  unfold blames in Hrun at 1. rewrite Hrun. eexists. split; [done|]. cbn [fst].
  intros Hb%bool_decide_eq_true. cbn [votes StakeAggregator_new threshold_of QuorumThreshold_impl] in Hb.
  rewrite union_empty_r_L in Hb. eapply selected_quorum; [|clear Hb|exact Hb].
  - intros b Hin. by apply Hl.
  - intros b [_ Hr]%Hl Hbl. done.
Qed.

Lemma enough_leader_support_spec L :
  cached ds !! reference L = Some L → (gc_round ds < round L)%N → (last_commit_round ds < round L + 2)%N →
  (round L + 2 < u32_MAX)%N →
  ∃ b, enough_leader_support bc ds (round L + 2) L = Done b ∧ (b = true → cert_quorum c U (reference L)).
Proof.
  intros HL Hgc Hlc Hmax. unfold enough_leader_support. rewrite Hbc.
  destruct (get_uncommitted_blocks_at_round_spec ds (round L + 2)) as (l & -> & Hl & _);
    [apply Hv|done|done|]. run_bind.
  rewrite (mapM_done _ (λ b, stake_of c (author b))).
  2: { intros b Hb. apply Committee_stake_valid, dv_author, Hl, Hb. }
  run_bind. destruct (reached_quorum _ _); [|by eexists].
  destruct (aggregate_until_spec c Hc (T := QuorumThreshold) (λ b, ref_author (reference b))
    (is_certificate c ds L) (λ C, certifies U c C (reference L)) (votes_ok U L)
    StakeAggregator_new ∅ l) as (av & Hrun & _).
  { apply StakeAggregator_new_ok. } { intros r v. by rewrite lookup_empty. } { apply new_below_quorum. }
  { intros av C [HC HCr]%Hl Hav. by eapply is_certificate_spec. }
  { intros b Hb _. apply dv_author, Hl, Hb. }
  rewrite Hrun. eexists. split; [done|]. cbn [fst].
  intros Hb%bool_decide_eq_true. cbn [votes StakeAggregator_new threshold_of QuorumThreshold_impl] in Hb.
  rewrite union_empty_r_L in Hb. eapply selected_quorum; [|clear Hb|exact Hb].
  - intros b Hin. by apply Hl.
  - intros b [_ Hr]%Hl Hcert. done.
Qed.

(** A quorum of certificates contains one. *)
Lemma cert_quorum_nonempty L : cert_quorum c U L → ∃ C, U !! reference C = Some C ∧ certifies U c C L = true.
Proof.
  intros (Q & HQ & HC). destruct (quorum_nonempty c Q f Hc Hq HQ) as [a Ha].
  destruct (HC a Ha) as (C & HC' & _ & _ & Hcert). by exists C.
Qed.

(** A list of distinct blocks with the same property that determines a block is
    empty or a singleton. *)
Lemma at_most_one (l : list VerifiedBlock) :
  (∀ b b', b ∈ l → b' ∈ l → reference b = reference b') → NoDup (reference <$> l) →
  l = [] ∨ ∃ b, l = [b].
Proof.
  destruct l as [|b [|b' l]]; intros Huniq Hnd; [by left|right; by exists b|]. exfalso.
  cbn in Hnd. inversion Hnd as [|? ? Hn _]; subst. apply Hn.
  rewrite (Huniq b b') by set_solver. set_solver.
Qed.

(** ** Waves *)
Context (slot : Slot) (Hwave : wave_length (bc_options bc) = 3%N) (Hoff : (round_offset (bc_options bc) < 3)%N).
Context (Hleader : leader_round (bc_options bc) (wave_number (bc_options bc) (slot_round slot)) = slot_round slot).
Context (Hlc : (last_commit_round ds < slot_round slot)%N) (Hmax : (slot_round slot + 2 < u32_MAX)%N).

Lemma decision_round_spec :
  decision_round (bc_options bc) (wave_number (bc_options bc) (slot_round slot)) = (slot_round slot + 2)%N.
Proof.
  revert Hleader. unfold decision_round, leader_round, wave_number. rewrite Hwave.
  unfold u32_MAX in Hmax. set (o := round_offset _) in *.
  assert (3 * ((slot_round slot - o) / 3) ≤ slot_round slot - o)%N as Hdiv by (apply N.Div0.mul_div_le).
  generalize dependent ((slot_round slot - o) / 3)%N. intros w Hdiv.
  rewrite (wrap_mul_small _ w 3) by lia. rewrite (wrap_add_small _ (w * 3) o) by lia. intros Heq.
  rewrite (wrap_add_small _ (w * 3) 3) by lia. rewrite wrap_sub_small by lia. rewrite wrap_add_small; lia.
Qed.

Lemma gc_below_slot : (gc_round ds < slot_round slot)%N.
Proof. unfold gc_round, calculate_gc_round. lia. Qed.

(** ** Direct decisions *)

(** What a decision on the slot says about the blocks of the network. *)
Definition direct_ok (st : LeaderStatus) : Prop :=
  match st with
  | LCommit b => cached ds !! reference b = Some b ∧ Slot_from (reference b) = slot ∧ cert_quorum c U (reference b)
  | LSkip s => s = slot ∧ blame_quorum c U slot
  | LUndecided s => s = slot
  end.

Lemma try_direct_decide_spec : ∃ st, try_direct_decide bc ds slot = Done st ∧ direct_ok st.
Proof.
  unfold try_direct_decide. pose proof Hmax as Hmax'. unfold u32_MAX in Hmax'. rewrite wrap_add_small by lia.
  destruct (enough_leader_blame_spec slot) as (blamed & -> & Hblame); [lia|lia|].
  run_bind. destruct blamed; [eexists; split; [done|]; split; [done|by apply Hblame]|].
  rewrite decision_round_spec.
  destruct (get_uncommitted_blocks_at_slot_spec ds slot) as (l & -> & Hl & Hnd); [apply Hv|].
  run_bind.
  assert (∃ p : VerifiedBlock → bool, ∀ b, b ∈ l →
    enough_leader_support bc ds (slot_round slot + 2) b = Done (p b) ∧ (p b = true → cert_quorum c U (reference b)))
    as [p Hp].
  { exists (λ b, match enough_leader_support bc ds (slot_round slot + 2) b with Done x => x | _ => false end).
    intros b [Hb Hs]%Hl. apply Slot_from_eq in Hs as [Hr _]. cbn in Hr. rewrite <- Hr.
    pose proof gc_below_slot.
    destruct (enough_leader_support_spec b) as (x & -> & Hx); [done|lia|lia|lia|]. done. }
  rewrite (filter_outcome_done _ p) by (intros b Hb; by apply Hp). run_bind.
  destruct (at_most_one (filter (λ x, p x = true) l)) as [-> | [b Hb]].
  - intros b b' [Hpb Hb]%list_elem_of_filter [Hpb' Hb']%list_elem_of_filter.
    destruct (Hp b Hb) as [_ Hcb], (Hp b' Hb') as [_ Hcb'].
    destruct (cert_quorum_nonempty _ (Hcb Hpb)) as (C & _ & HC), (cert_quorum_nonempty _ (Hcb' Hpb')) as (C' & _ & HC').
    eapply certificate_unique; [done|done|done|]. apply Hl in Hb as [_ ->], Hb' as [_ ->]. done.
  - eapply sublist_NoDup; [exact Hnd|]. apply fmap_sublist, sublist_filter.
  - by eexists.
  - rewrite Hb. eexists. split; [done|].
    assert (b ∈ filter (λ x, p x = true) l) as [Hpb Hin]%list_elem_of_filter by (rewrite Hb; set_solver).
    destruct (Hp b Hin) as [_ Hcb]. apply Hl in Hin as [Hin Hs]. split_and!; [done|done|by apply Hcb].
Qed.

(** ** Indirect decisions *)

(** The leader block has a certificate in the history of the anchor. *)
Definition anchored (anchor : VerifiedBlock) (L : BlockRef) : Prop :=
  ∃ C, linked_to (cached ds) anchor (reference C) ∧ cached ds !! reference C = Some C ∧
    round C = (ref_round L + 2)%N ∧ certifies U c C L = true.

Definition indirect_ok (anchor : VerifiedBlock) (st : LeaderStatus) : Prop :=
  match st with
  | LCommit b => cached ds !! reference b = Some b ∧ Slot_from (reference b) = slot ∧ anchored anchor (reference b)
  | LSkip s => s = slot ∧ ∀ b, cached ds !! reference b = Some b → Slot_from (reference b) = slot →
      ¬ anchored anchor (reference b)
  | LUndecided _ => False
  end.

Lemma decide_leader_from_anchor_spec anchor :
  cached ds !! reference anchor = Some anchor →
  ∃ st, decide_leader_from_anchor bc ds anchor slot = Done st ∧ indirect_ok anchor st.
Proof.
  intros Hanchor. unfold decide_leader_from_anchor. rewrite Hbc, decision_round_spec.
  destruct (get_uncommitted_blocks_at_slot_spec ds slot) as (l & -> & Hl & Hnd); [apply Hv|].
  pose proof gc_below_slot as Hgc. run_bind.
  destruct (ancestors_at_round_spec c ds Hv anchor Hanchor (slot_round slot + 2)) as (certs & -> & Hcerts); [lia|].
  run_bind.
  set (p := λ b, existsb (λ C, certifies U c C (reference b)) certs).
  assert (∀ b, b ∈ l → p b = true ↔ anchored anchor (reference b)) as Hp.
  { intros b [Hb [Hr _]%Slot_from_eq]%Hl. unfold p, anchored. rewrite existsb_exists, Hr.
    setoid_rewrite <- list_elem_of_In. setoid_rewrite Hcerts. naive_solver. }
  rewrite (filter_outcome_done _ p).
  2: { intros b [Hb [Hr _]%Slot_from_eq]%Hl. cbn in Hr.
       destruct (any_outcome_done (is_certificate c ds b) (λ C, certifies U c C (reference b)) (votes_ok U b) ∅ certs)
         as (s & -> & _); [intros r v; by rewrite lookup_empty| |done].
       intros av C (HC & HCr & _)%Hcerts Hav. eapply is_certificate_spec; [done|done|done|done|lia|done|lia|done]. }
  run_bind.
  destruct (at_most_one (filter (λ x, p x = true) l)) as [Hnil | [b Hb]].
  - intros b b' [Hpb Hb]%list_elem_of_filter [Hpb' Hb']%list_elem_of_filter.
    apply Hp in Hpb as (C & _ & _ & _ & HC), Hpb' as (C' & _ & _ & _ & HC'); [|done..].
    eapply certificate_unique; [done|done|done|]. apply Hl in Hb as [_ ->], Hb' as [_ ->]. done.
  - eapply sublist_NoDup; [exact Hnd|]. apply fmap_sublist, sublist_filter.
  - rewrite Hnil. eexists. split; [done|]. split; [done|]. intros b Hb Hs Ha.
    assert (b ∈ l) as Hin by (by apply Hl). apply Hp in Ha; [|done].
    eapply not_elem_of_nil. rewrite <- Hnil. by apply list_elem_of_filter.
  - rewrite Hb. eexists. split; [done|].
    assert (b ∈ filter (λ x, p x = true) l) as [Hpb Hin]%list_elem_of_filter by (rewrite Hb; set_solver).
    apply Hp in Hpb; [|done]. apply Hl in Hin as [Hin Hs]. done.
Qed.

End direct.
