(* ===== verification/CommitSafety.v ===== *)
(** * Safety of the commit rules

    Two nodes that run the universal committer of the production configuration
    (one leader per round, pipelined waves of three rounds) on their own dag
    states agree on every leader slot that both decide, while the faulty
    authorities hold at most [f] stake. *)

From S2P Require Import Prelude Committee Block StakeAggregator ThresholdClock Commit Store LeaderScoring.
From S2P Require Import DagState DagInvariant DagDurability LeaderSchedule BaseCommitter UniversalCommitter CausalHistory CommitRules.

Definition LeaderStatus_slot (st : LeaderStatus) : Slot :=
  match st with
  | LCommit b => Slot_from (reference b)
  | LSkip s => s
  | LUndecided s => s
  end.

Lemma LeaderStatus_round_slot st : LeaderStatus_round st = slot_round (LeaderStatus_slot st).
Proof. by destruct st. Qed.

(** ** Facts that do not depend on the view *)
Section transfer.
Context {S : Type} `{StoreLaws S}.
Context (c : Committee) (f : N) (byz : gset N) (U : gmap BlockRef VerifiedBlock).
Context (Hnw : network c f byz U).
Implicit Types ds : DagState S.

Definition view_of ds : Prop := dag_view c ds ∧ cached ds ⊆ U.

Lemma view_block ds r b b' : view_of ds → cached ds !! r = Some b → U !! r = Some b' → b = b'.
Proof. intros [_ HU] Hb Hb'. eapply lookup_weaken in Hb; [|exact HU]. congruence. Qed.

Lemma view_cached ds r b : view_of ds → r ∈ dom (cached ds) → U !! r = Some b → cached ds !! r = Some b.
Proof. intros Hv [b' Hb']%elem_of_dom HU. by rewrite <- (view_block ds r b' b). Qed.

(** An ancestor of a block that a view has, above its gc round, is in the view
    with the content it has in the network. *)
Lemma view_ancestor ds b r :
  view_of ds → cached ds !! reference b = Some b → r ∈ ancestors b → (gc_round ds < ref_round r)%N →
  ∃ b', cached ds !! r = Some b' ∧ U !! r = Some b' ∧ reference b' = r.
Proof.
  intros [Hv HU] Hb Hr Hgc. assert (r ∈ dom (cached ds)) as [b' Hb']%elem_of_dom by (by eapply dv_causal).
  exists b'. split_and!; [done|by eapply lookup_weaken|by eapply dv_reference].
Qed.

(** Two views that both have a block have the same history of it. *)
Lemma linked_transfer ds ds' b r :
  view_of ds → view_of ds' → linked_to (cached ds) b r →
  cached ds !! reference b = Some b → cached ds' !! reference b = Some b → (gc_round ds' < ref_round r)%N →
  linked_to (cached ds') b r.
Proof.
  intros Hv Hv' Hl. induction Hl as [b r Hr|b r b' r' Hr Hb' Hl IH]; intros Hb Hcb Hgc; [by apply linked_direct|].
  assert (reference b' = r) as Href by (eapply dv_reference; [apply Hv|done]).
  assert (ref_round r' < round b')%N as Hlt by (eapply linked_round; [apply Hv|by rewrite Href|done]).
  assert (round b' = ref_round r) as Hrr by (by rewrite <- Href).
  destruct (view_ancestor ds' b r Hv' Hcb Hr) as (b2 & Hb2 & HU2 & _); [lia|].
  assert (b' = b2) as <- by exact (view_block ds r b' b2 Hv Hb' HU2).
  eapply linked_step; [done|done|]. rewrite Href in IH. by apply IH.
Qed.

Lemma anchored_transfer ds ds' anchor L :
  view_of ds → view_of ds' →
  cached ds !! reference anchor = Some anchor → cached ds' !! reference anchor = Some anchor →
  (gc_round ds' < ref_round L)%N → anchored c U ds anchor L → anchored c U ds' anchor L.
Proof.
  intros Hv Hv' Ha Ha' Hgc (C & Hl & HC & Hr & Hcert). exists C.
  assert (linked_to (cached ds') anchor (reference C)) as Hl'.
  { eapply (linked_transfer ds ds'); [done|done|done|done|done|cbn; lia]. }
  split_and!; [done| |done|done]. eapply view_cached; [done| |].
  - eapply linked_cached; [apply Hv'|done|done|cbn; lia].
  - eapply lookup_weaken; [done|apply Hv].
Qed.

(** A certified leader block is in every view that has the certificate. *)
Lemma certified_cached ds C L :
  view_of ds → cached ds !! reference C = Some C → certifies U c C L = true → (gc_round ds < ref_round L)%N →
  ∃ b, cached ds !! L = Some b ∧ reference b = L.
Proof.
  intros Hv HC Hcert Hgc. pose proof Hcert as Hq. unfold certifies in Hq. apply bool_decide_eq_true in Hq.
  destruct (quorum_nonempty c _ f (nw_committee _ _ _ _ Hnw) (nw_quorums _ _ _ _ Hnw) Hq) as [a Ha].
  destruct (certifies_voter _ _ _ _ _ Hcert Ha) as (r & v & Hr & HUv & _ & Hrr & HL).
  destruct (view_ancestor ds C r Hv HC Hr) as (v' & Hv' & HUv' & Href); [lia|].
  rewrite HUv in HUv'. injection HUv' as <-. rewrite <- Href in Hv'.
  destruct (view_ancestor ds v L Hv Hv' HL) as (b & Hb & _ & Hrefb); [done|]. by exists b.
Qed.

(** A directly committed leader has a certificate in the history of every block
    three or more rounds later. *)
Lemma cert_quorum_anchors ds L anchor :
  view_of ds → cert_quorum c U L → (gc_round ds < ref_round L)%N →
  cached ds !! reference anchor = Some anchor → (ref_round L + 3 ≤ round anchor)%N → anchored c U ds anchor L.
Proof.
  intros Hv (Q & HQ & Hcerts) Hgc. remember (N.to_nat (round anchor)) as n eqn:Hn.
  revert anchor Hn. induction (lt_wf n) as [n _ IH]; intros anchor -> Ha Hr.
  assert (valid_block c anchor) as Hval by (eapply dv_valid; [apply Hv|done]).
  pose proof (vb_parents _ _ Hval) as HP.
  destruct (quorum_common _ _ _ _ Hnw _ _ HQ HP) as (a & HaQ & HaP & Hnb).
  apply elem_of_list_to_set, list_elem_of_fmap in HaP as (r & -> & [Hrr Hin]%list_elem_of_filter).
  destruct (view_ancestor ds anchor r Hv Ha Hin) as (b & Hb & HUb & Href); [lia|].
  destruct (decide (round anchor = ref_round L + 3)%N) as [Heq|Hne].
  - destruct (Hcerts _ HaQ) as (C & HUC & HCa & HCr & Hcert).
    assert (reference C = r) as HCref.
    { apply (nw_honest _ _ _ _ Hnw); [by eapply elem_of_dom_2|by eapply elem_of_dom_2|done|cbn; congruence|cbn; lia]. }
    exists C. rewrite HCref in *. simplify_eq. split_and!; [by apply linked_direct|done|lia|done].
  - assert (round b = ref_round r) as Hrb by (by rewrite <- Href).
    destruct (IH (N.to_nat (round b)) ltac:(lia) b eq_refl) as (C & Hl & HC); [by rewrite Href|lia|].
    exists C. split; [by eapply linked_step|done].
Qed.

(** ** One slot *)

(** How a view [ds] decides the slot [slot]: directly, or from an anchor at least
    three rounds above. *)
Definition decided_directly ds slot st : Prop :=
  LeaderStatus_is_decided st = true ∧ direct_ok c U ds slot st.

Definition decided_by ds slot anchor st : Prop :=
  cached ds !! reference anchor = Some anchor ∧ (slot_round slot + 3 ≤ round anchor)%N ∧
  indirect_ok c U ds slot anchor st.

Section slot.
Context (ds ds' : DagState S) (Hv : view_of ds) (Hv' : view_of ds') (slot : Slot).
Context (Hgc : (gc_round ds < slot_round slot)%N) (Hgc' : (gc_round ds' < slot_round slot)%N).

(** Two blocks of the slot with certificates are the same block. *)
Lemma certified_same b b' C C' :
  cached ds !! reference b = Some b → cached ds' !! reference b' = Some b' →
  Slot_from (reference b) = slot → Slot_from (reference b') = slot →
  certifies U c C (reference b) = true → certifies U c C' (reference b') = true → b = b'.
Proof.
  intros Hb Hb' Hs Hs' HC HC'.
  assert (reference b = reference b') as Href by (eapply certificate_unique; [done|done|done|congruence]).
  rewrite Href in Hb. eapply view_block; [exact Hv|done|]. eapply lookup_weaken; [done|apply Hv'].
Qed.

Lemma direct_direct st st' : decided_directly ds slot st → decided_directly ds' slot st' → st = st'.
Proof.
  intros [Hd Hst] [Hd' Hst'].
  destruct st as [b|s|s], st' as [b'|s'|s']; cbn in *; try done.
  - destruct Hst as (Hb & Hs & HQ), Hst' as (Hb' & Hs' & HQ').
    destruct (cert_quorum_nonempty _ _ _ _ Hnw _ HQ) as (C & _ & HC), (cert_quorum_nonempty _ _ _ _ Hnw _ HQ') as (C' & _ & HC').
    f_equal. by eapply certified_same.
  - destruct Hst as (Hb & Hs & HQ), Hst' as (_ & Hbl). exfalso.
    destruct (cert_quorum_nonempty _ _ _ _ Hnw _ HQ) as (C & _ & HC). by eapply blame_no_certificate.
  - destruct Hst as (_ & Hbl), Hst' as (Hb & Hs & HQ). exfalso.
    destruct (cert_quorum_nonempty _ _ _ _ Hnw _ HQ) as (C & _ & HC). by eapply blame_no_certificate.
  - destruct Hst as [-> _], Hst' as [-> _]. done.
Qed.

Lemma direct_indirect st st' anchor : decided_directly ds slot st → decided_by ds' slot anchor st' → st = st'.
Proof.
  intros [Hd Hst] (Ha & Hr & Hst').
  destruct st as [b|s|s]; cbn in Hst; [| |done].
  - destruct Hst as (Hb & Hs & HQ). pose proof Hs as [Hsr _]%Slot_from_eq. cbn in Hsr.
    assert (anchored c U ds' anchor (reference b)) as Hanch by (apply cert_quorum_anchors; [done|done|cbn; lia|done|cbn; lia]).
    pose proof Hanch as (C & _ & HC & _ & Hcert).
    destruct st' as [b'|s'|s']; cbn in Hst'; [| |done].
    + destruct Hst' as (Hb' & Hs' & (C' & _ & _ & _ & Hcert')). f_equal. by eapply certified_same.
    + destruct Hst' as [_ Hno]. exfalso.
      destruct (certified_cached ds' C (reference b) Hv' HC Hcert) as (b2 & Hb2 & Href); [cbn; lia|].
      apply (Hno b2); rewrite Href; done.
  - destruct Hst as [-> Hbl]. destruct st' as [b'|s'|s']; cbn in Hst'; [| |done].
    + destruct Hst' as (_ & Hs' & (C' & _ & _ & _ & Hcert')). exfalso. by eapply blame_no_certificate.
    + by destruct Hst' as [-> _].
Qed.

Lemma indirect_commit anchor st b :
  decided_by ds slot anchor (LCommit b) → decided_by ds' slot anchor st → LCommit b = st.
Proof.
  intros (Ha & Hr & Hb & Hs & Hanch) (Ha' & _ & Hst). pose proof Hs as [Hsr _]%Slot_from_eq. cbn in Hsr.
  assert (anchored c U ds' anchor (reference b)) as Hanch' by (eapply (anchored_transfer ds ds'); [done..|cbn; lia|done]).
  pose proof Hanch as (C & _ & _ & _ & Hcert). pose proof Hanch' as (C2 & _ & HC2 & _ & Hcert2).
  destruct st as [b'|s'|s']; cbn in Hst; [| |done].
  - destruct Hst as (Hb' & Hs' & (C' & _ & _ & _ & Hcert')). f_equal. by eapply certified_same.
  - destruct Hst as [_ Hno]. exfalso.
    destruct (certified_cached ds' C2 (reference b) Hv' HC2 Hcert2) as (b2 & Hb2 & Href); [cbn; lia|].
    apply (Hno b2); rewrite Href; done.
Qed.

End slot.

Lemma indirect_indirect ds ds' slot anchor st st' :
  view_of ds → view_of ds' → (gc_round ds < slot_round slot)%N → (gc_round ds' < slot_round slot)%N →
  decided_by ds slot anchor st → decided_by ds' slot anchor st' → st = st'.
Proof.
  intros Hv Hv' Hgc Hgc' Hst Hst'. destruct st as [b|s|s]; [by eapply (indirect_commit ds ds')| |by destruct Hst as (_ & _ & [])].
  destruct st' as [b'|s'|s']; [symmetry; by eapply (indirect_commit ds' ds)| |by destruct Hst' as (_ & _ & [])].
  destruct Hst as (_ & _ & -> & _), Hst' as (_ & _ & -> & _). done.
Qed.

End transfer.

(** ** Sequences of slots *)
Section sequence.
Context {S : Type} `{StoreLaws S}.
Context (c : Committee) (f : N) (byz : gset N) (U : gmap BlockRef VerifiedBlock).
Context (Hnw : network c f byz U).
Context (leader : N → N).
Implicit Types ds : DagState S.

Definition slot_at (k : N) : Slot := mkSlot k (leader k).

(** The status of round [k], given the statuses [sts] of the rounds above. *)
Definition status_ok ds k st (sts : list LeaderStatus) : Prop :=
  LeaderStatus_slot st = slot_at k ∧
  (LeaderStatus_is_decided st = true →
    decided_directly c U ds (slot_at k) st ∨
    ∃ i anchor, 2 ≤ i ∧ sts !! i = Some (LCommit anchor) ∧
      (∀ j, 2 ≤ j < i → ∃ s, sts !! j = Some (LSkip s)) ∧ decided_by c U ds (slot_at k) anchor st).

(** The statuses of the rounds from [k] on. *)
Inductive decided_from ds : N → list LeaderStatus → Prop :=
  | decided_nil k : decided_from ds k []
  | decided_cons k st sts :
      status_ok ds k st sts → decided_from ds (k + 1) sts → decided_from ds k (st :: sts).

Lemma decided_from_lookup ds k sts i st :
  decided_from ds k sts → sts !! i = Some st → status_ok ds (k + N.of_nat i) st (drop (Datatypes.S i) sts).
Proof.
  intros Hd. revert i. induction Hd as [|k st' sts Hst Hd IH]; intros [|i] Hi; [done|done| |].
  - cbn in Hi. simplify_eq. by rewrite N.add_0_r.
  - replace (k + N.of_nat (Datatypes.S i))%N with (k + 1 + N.of_nat i)%N by lia. by apply IH.
Qed.

Lemma decided_from_drop ds k sts n : decided_from ds k sts → decided_from ds (k + N.of_nat n) (drop n sts).
Proof.
  revert k sts. induction n as [|n IH]; intros k sts Hd; [by rewrite N.add_0_r|].
  inversion Hd as [|? st sts' _ Hd']; subst; cbn [drop]; [constructor|].
  replace (k + N.of_nat (Datatypes.S n))%N with (k + 1 + N.of_nat n)%N by lia. by apply IH.
Qed.

(** The first leader that is not skipped is the same in two lists that agree. *)
Lemma same_anchor (sts sts' : list LeaderStatus) i i' A A' :
  (∀ n st st', sts !! n = Some st → sts' !! n = Some st' → LeaderStatus_is_decided st = true →
    LeaderStatus_is_decided st' = true → st = st') →
  2 ≤ i → sts !! i = Some (LCommit A) → (∀ j, 2 ≤ j < i → ∃ s, sts !! j = Some (LSkip s)) →
  2 ≤ i' → sts' !! i' = Some (LCommit A') → (∀ j, 2 ≤ j < i' → ∃ s, sts' !! j = Some (LSkip s)) → A = A'.
Proof.
  intros Hagree Hi HA Hskip Hi' HA' Hskip'.
  destruct (lt_eq_lt_dec i i') as [[Hlt| ->]|Hlt].
  - destruct (Hskip' i) as [s Hs]; [lia|]. by pose proof (Hagree i _ _ HA Hs eq_refl eq_refl).
  - by simplify_eq (Hagree i' _ _ HA HA' eq_refl eq_refl).
  - destruct (Hskip i') as [s Hs]; [lia|]. by pose proof (Hagree i' _ _ Hs HA' eq_refl eq_refl).
Qed.

Lemma decided_agree ds ds' k sts sts' i st st' :
  view_of c U ds → view_of c U ds' → (gc_round ds < k)%N → (gc_round ds' < k)%N →
  decided_from ds k sts → decided_from ds' k sts' →
  sts !! i = Some st → sts' !! i = Some st' →
  LeaderStatus_is_decided st = true → LeaderStatus_is_decided st' = true → st = st'.
Proof.
  intros Hv Hv' Hgc Hgc' Hd. revert sts' i st st' Hgc Hgc'.
  induction Hd as [|k s sts Hs Hd IH]; intros sts' i st st' Hgc Hgc' Hd' Hi Hi' Hdec Hdec'; [done|].
  destruct Hd' as [|k s' sts' Hs' Hd']; [done|].
  destruct i as [|i]; [|eapply IH; [| |exact Hd'|exact Hi|exact Hi'|done|done]; lia].
  cbn in Hi, Hi'. simplify_eq. destruct Hs as [_ Hs], Hs' as [_ Hs'].
  destruct (Hs Hdec) as [Hs1|(j & A & Hj & HA & Hskip & Hs1)], (Hs' Hdec') as [Hs1'|(j' & A' & Hj' & HA' & Hskip' & Hs1')].
  - by eapply (direct_direct c f byz U Hnw ds ds' Hv Hv' (slot_at k)).
  - by eapply (direct_indirect c f byz U Hnw ds ds' Hv Hv' (slot_at k)).
  - symmetry. by eapply (direct_indirect c f byz U Hnw ds' ds Hv' Hv (slot_at k)).
  - assert (A = A') as <-.
    { eapply (same_anchor sts sts' j j'); [|done..]. intros n t t' Ht Ht' Htd Htd'.
      eapply (IH sts' n); [| |exact Hd'|done..]; lia. }
    by eapply (indirect_indirect c f byz U Hnw ds ds' (slot_at k)).
Qed.

(** ** The committers of the pipeline *)

Definition pipeline_committer (ctx : Context) (ls : LeaderSchedule) (offset : N) : BaseCommitter :=
  BaseCommitter_new ctx ls (mkBaseCommitterOptions 3 0 offset).

Definition pipeline (ctx : Context) (ls : LeaderSchedule) : UniversalCommitter :=
  build (with_pipeline true (with_number_of_leaders 1 (UniversalCommitterBuilder_new ctx ls))).

Lemma pipeline_committers ctx ls :
  reverse (committers (pipeline ctx ls)) = pipeline_committer ctx ls <$> [2; 1; 0]%N.
Proof. reflexivity. Qed.

Context `{LeaderRng}.
Context (ctx : Context) (ls : LeaderSchedule) (Hctx : committee ctx = c).
Context (Helect : ∀ k, elect_leader ls k 0 = Done (leader k)).

Lemma leader_round_iff off k :
  (off < 3)%N → (k + 3 < u32_modulus)%N →
  let o := mkBaseCommitterOptions 3 0 off in leader_round o (wave_number o k) = k ↔ (k mod 3 = off)%N.
Proof.
  intros Hoff Hk. unfold leader_round, wave_number. cbn [wave_length round_offset].
  pose proof (N.div_mod (k - off) 3 ltac:(done)) as Hdm. pose proof (N.mod_lt (k - off) 3 ltac:(done)) as Hlt.
  pose proof (N.div_mod k 3 ltac:(done)) as Hdk. pose proof (N.mod_lt k 3 ltac:(done)) as Hltk.
  generalize dependent ((k - off) / 3)%N. generalize dependent ((k - off) mod 3)%N.
  generalize dependent (k / 3)%N. generalize dependent (k mod 3)%N. intros x Hx y Hy u Hu w Hw.
  rewrite wrap_mul_small by lia. rewrite wrap_add_small by lia. lia.
Qed.

Lemma elect_pipeline off k :
  (off < 3)%N → (k + 3 < u32_modulus)%N →
  BaseCommitter_elect_leader (pipeline_committer ctx ls off) k =
    Done (if decide (k mod 3 = off)%N then Some (slot_at k) else None).
Proof.
  intros Hoff Hk. unfold BaseCommitter_elect_leader. cbn [bc_options pipeline_committer BaseCommitter_new].
  pose proof (leader_round_iff off k Hoff Hk) as Hiff. cbn zeta in Hiff.
  destruct (decide (k mod 3 = off)%N) as [Heq|Hne].
  - rewrite decide_False by (intros Hn; apply Hn, Hiff, Heq). cbn [bc_leader_schedule leader_offset]. by rewrite Helect.
  - rewrite decide_True by tauto. done.
Qed.

Context (ds : DagState S) (Hv : view_of c U ds).

Lemma statuses_round k sts : decided_from ds k sts →
  ∀ i st, sts !! i = Some st → LeaderStatus_round st = (k + N.of_nat i)%N.
Proof.
  intros Hd i st Hi. destruct (decided_from_lookup _ _ _ _ _ Hd Hi) as [Hs _].
  by rewrite LeaderStatus_round_slot, Hs.
Qed.

(** The anchors of round [k] are the leaders from the third round above it on. *)
Lemma anchors_drop k sts :
  decided_from ds (k + 1) sts → filter (λ x, k + 3 ≤ LeaderStatus_round x)%N sts = drop 2 sts.
Proof.
  intros Hd. pose proof (statuses_round _ _ Hd) as Hr.
  assert (∀ (l : list LeaderStatus) (m : N), (∀ i st, l !! i = Some st → LeaderStatus_round st = (k + 3 + m + N.of_nat i)%N) →
    filter (λ x, k + 3 ≤ LeaderStatus_round x)%N l = l) as Hall.
  { clear. induction l as [|x l IH]; intros m Hl; [done|]. rewrite filter_cons.
    rewrite decide_True by (rewrite (Hl 0%nat x) by done; lia). f_equal. apply (IH (m + 1)%N).
    intros i st Hi. rewrite (Hl (Datatypes.S i) st Hi). lia. }
  destruct sts as [|x [|y sts]]; cbn [drop]; rewrite ?filter_cons.
  - done.
  - rewrite decide_False by (rewrite (Hr 0%nat x) by done; lia). done.
  - rewrite decide_False by (rewrite (Hr 0%nat x) by done; lia).
    rewrite decide_False by (rewrite (Hr 1%nat y) by done; lia).
    apply (Hall _ 0%N). intros i st Hi. rewrite (Hr (Datatypes.S (Datatypes.S i)) st Hi). lia.
Qed.
Context (Hleader : ∀ k, (leader k < Committee_size c)%N).

Lemma try_anchors_spec bc slot sts :
  (∀ anchor, LCommit anchor ∈ sts → ∃ st, decide_leader_from_anchor bc ds anchor slot = Done st ∧
    indirect_ok c U ds slot anchor st) →
  ∃ st, try_anchors bc ds slot sts = Done st ∧
    (st = LUndecided slot ∨ ∃ i anchor, sts !! i = Some (LCommit anchor) ∧
      (∀ j, j < i → ∃ s, sts !! j = Some (LSkip s)) ∧ indirect_ok c U ds slot anchor st).
Proof.
  induction sts as [|[A|s|s] sts IH]; intros Hdec; cbn [try_anchors].
  - eexists. split; [done|by left].
  - destruct (Hdec A) as (st & -> & Hst); [by apply list_elem_of_here|]. eexists. split; [done|]. right.
    exists 0, A. split_and!; [done|lia|done].
  - destruct IH as (st & -> & Hst); [intros A HA; by apply Hdec, list_elem_of_further|].
    eexists. split; [done|]. destruct Hst as [|(i & A & Hi & Hskip & Hst)]; [by left|right].
    exists (Datatypes.S i), A. split_and!; [done| |done].
    intros [|j] Hj; [by exists s|]. apply Hskip. lia.
  - eexists. split; [done|by left].
Qed.

(** A commit in a list of statuses is a block of the view. *)
Lemma status_commit k st sts b :
  status_ok ds k st sts → st = LCommit b → cached ds !! reference b = Some b ∧ round b = k.
Proof.
  intros [Hs Hst] ->. cbn in Hs. apply Slot_from_eq in Hs as [Hr _].
  destruct (Hst eq_refl) as [[_ [Hb _]]|(i & A & _ & _ & _ & _ & _ & Hb & _)]; done.
Qed.

Lemma decide_slot_spec off k leaders :
  (off < 3)%N → (k mod 3 = off)%N → (last_commit_round ds < k)%N → (k + 3 < u32_MAX)%N →
  decided_from ds (k + 1) (map fst leaders) →
  ∃ st dec, decide_slot (pipeline_committer ctx ls off) ds (slot_at k) leaders = Done (st, dec) ∧
    status_ok ds k st (map fst leaders).
Proof.
  intros Hoff Hmod Hlc Hmax Hd. destruct Hv as [Hview HU]. pose proof Hmax as Hmax'. unfold u32_MAX in Hmax'.
  assert (Hwave := proj2 (leader_round_iff off k Hoff ltac:(lia)) Hmod). cbn zeta in Hwave.
  unfold decide_slot.
  destruct (try_direct_decide_spec c f byz U Hnw ds Hview HU (pipeline_committer ctx ls off) Hctx (slot_at k))
    as (st & -> & Hst); [done..|cbn; lia|cbn; lia|]. run_bind.
  destruct (LeaderStatus_is_decided st) eqn:Hdec.
  { exists st, Direct. split; [done|]. split; [|intros _; by left].
    destruct st as [b|s|s]; cbn in Hst |- *; [by destruct Hst as (_ & -> & _)|by destruct Hst as [-> _]|done]. }
  unfold try_indirect_decide. cbn [slot_round slot_at bc_options pipeline_committer BaseCommitter_new wave_length].
  rewrite wrap_add_small by lia. rewrite anchors_drop by done.
  destruct (try_anchors_spec (pipeline_committer ctx ls off) (slot_at k) (drop 2 (map fst leaders)))
    as (st' & -> & Hst').
  { intros A HA. apply list_elem_of_lookup in HA as [i Hi]. rewrite lookup_drop in Hi.
    pose proof (decided_from_lookup _ _ _ _ _ Hd Hi) as Hok.
    destruct (status_commit _ _ _ _ Hok eq_refl) as [HA HAr].
    eapply (decide_leader_from_anchor_spec c f byz U Hnw); done || (cbn; lia). }
  exists st', Indirect. split; [done|].
  destruct Hst' as [-> |(i & A & Hi & Hskip & Hst')]; [by split|]. rewrite lookup_drop in Hi.
  pose proof (decided_from_lookup _ _ _ _ _ Hd Hi) as Hok.
  destruct (status_commit _ _ _ _ Hok eq_refl) as [HA HAr]. split.
  - destruct st' as [b|s|s]; cbn in Hst' |- *; [by destruct Hst' as (_ & -> & _)|by destruct Hst' as [-> _]|done].
  - intros _. right. exists (2 + i), A. split_and!; [lia|done| |].
    + intros j Hj. destruct (Hskip (j - 2)) as [s Hs]; [lia|]. exists s. rewrite lookup_drop in Hs.
      by replace (2 + (j - 2)) with j in Hs by lia.
    + split_and!; [done|cbn; lia|done].
Qed.

Lemma decide_round_spec last k leaders :
  (slot_round last < k)%N → (last_commit_round ds < k)%N → (k + 3 < u32_MAX)%N →
  decided_from ds (k + 1) (map fst leaders) →
  ∃ st dec, decide_round ds last k (reverse (committers (pipeline ctx ls))) leaders = Done ((st, dec) :: leaders, false) ∧
    status_ok ds k st (map fst leaders).
Proof.
  intros Hlast Hlc Hmax Hd. pose proof Hmax as Hmax'. unfold u32_MAX in Hmax'. rewrite pipeline_committers.
  assert (slot_at k ≠ last) as Hne by (intros <-; cbn in Hlast; lia).
  pose proof (N.mod_lt k 3 ltac:(done)) as Hmod. remember (k mod 3)%N as off eqn:Hoff. symmetry in Hoff.
  destruct (decide_slot_spec off k leaders) as (st & dec & Hslot & Hst); [done..|]. exists st, dec.
  split; [|done]. cbn [fmap list_fmap decide_round]. rewrite !elect_pipeline, Hoff by lia.
  assert (off = 0 ∨ off = 1 ∨ off = 2)%N as [Ho|[Ho|Ho]] by lia; rewrite Ho in *;
    repeat first [progress cbn [mbind outcome_bind] | rewrite decide_False by done | rewrite decide_True by done];
    rewrite Hslot; done.
Qed.

(** The rounds [lo, lo + n) from the top down, on the statuses above them. *)
Lemma decide_rounds_spec last lo n leaders :
  (slot_round last < lo)%N → (last_commit_round ds < lo)%N → (lo + N.of_nat n + 3 < u32_MAX)%N →
  decided_from ds (lo + N.of_nat n) (map fst leaders) →
  ∃ leaders', decide_rounds (pipeline ctx ls) ds last (reverse (rangeN lo (lo + N.of_nat n))) leaders = Done leaders' ∧
    decided_from ds lo (map fst leaders') ∧ length leaders' = n + length leaders.
Proof.
  revert leaders. induction n as [|n IH]; intros leaders Hlast Hlc Hmax Hd.
  - rewrite N.add_0_r in *. rewrite rangeN_empty by lia. by exists leaders.
  - replace (lo + N.of_nat (Datatypes.S n))%N with (lo + N.of_nat n + 1)%N in * by lia.
    rewrite rangeN_snoc by lia. rewrite reverse_snoc. cbn [decide_rounds].
    destruct (decide_round_spec last (lo + N.of_nat n) leaders) as (st & dec & -> & Hst); [lia..|done|].
    run_bind. destruct (IH ((st, dec) :: leaders)) as (leaders' & Hrun & Hd' & Hlen); [done|done|lia|by constructor|].
    exists leaders'. split_and!; [done|done|]. cbn in Hlen. lia.
Qed.

End sequence.

(** ** The decided prefix *)

Definition status_of (d : DecidedLeader) : LeaderStatus :=
  match d with DCommit b _ => LCommit b | DSkip s => LSkip s end.

Lemma status_of_slot d : LeaderStatus_slot (status_of d) = DecidedLeader_slot d.
Proof. by destruct d. Qed.

Lemma status_of_decided d : LeaderStatus_is_decided (status_of d) = true.
Proof. by destruct d. Qed.

(** Lists that agree where both are defined are comparable. *)
Lemma comparable_lists {A} (l k : list A) :
  (∀ i x y, l !! i = Some x → k !! i = Some y → x = y) → l `prefix_of` k ∨ k `prefix_of` l.
Proof.
  revert k. induction l as [|x l IH]; intros [|y k] Hlk; [left; done|left; apply prefix_nil|right; apply prefix_nil|].
  assert (x = y) as <- by (by apply (Hlk 0)).
  destruct (IH k) as [Hp|Hp]; [intros i; apply (Hlk (S i))|left; by apply prefix_cons|right; by apply prefix_cons].
Qed.

Section prefix.
Context {S : Type} `{StoreLaws S}.
Context (c : Committee) (U : gmap BlockRef VerifiedBlock) (leader : N → N) (ds : DagState S).

Lemma decided_prefix_spec (uc : UniversalCommitter) lo leaders :
  committee (uc_context uc) = c → (∀ k, (leader k < Committee_size c)%N) → (0 < lo)%N →
  decided_from c U leader ds lo (map fst leaders) →
  ∃ seq, decided_prefix uc leaders = Done seq ∧ (status_of <$> seq) `prefix_of` map fst leaders.
Proof.
  intros Hc Hleader. revert lo. induction leaders as [|[st dec] leaders IH]; intros lo Hlo Hd; cbn [decided_prefix].
  { exists []. by split. }
  inversion Hd as [|? ? ? [Hslot _] Hd']; subst.
  rewrite decide_False by (rewrite LeaderStatus_round_slot, Hslot; cbn; unfold GENESIS_ROUND; lia).
  destruct (into_decided_leader st _) as [d|] eqn:Hinto; [|exists []; split; [done|apply prefix_nil]].
  assert (status_of d = st) as Hst by (by destruct st; simplify_eq/=).
  destruct (authority_valid (committee (uc_context uc)) (slot_authority (DecidedLeader_slot d))) as [a ->].
  { rewrite <- status_of_slot, Hst, Hslot. apply Hleader. }
  destruct (IH (lo + 1)%N) as (seq & -> & Hseq); [lia|done|]. run_bind.
  exists (d :: seq). split; [done|]. cbn. rewrite Hst. by apply prefix_cons.
Qed.

End prefix.

(** ** Nodes *)
Section nodes.
Context {S : Type} `{StoreLaws S} `{LeaderRng}.
Context (c : Committee) (U : gmap BlockRef VerifiedBlock) (leader : N → N).

(** A node that runs the production committer: one leader per round, elected as
    [leader] says, on a view of the network's blocks, with everything it has
    committed at or below the round of [last_decided]. *)
Record node_ok (ctx : Context) (ls : LeaderSchedule) (ds : DagState S) (last_decided : Slot) : Prop := {
  no_committee : committee ctx = c;
  no_leaders : num_leaders_per_round (protocol_config ctx) = Some 1%N;
  no_election k : elect_leader ls k 0 = Done (leader k);
  no_member k : (leader k < Committee_size c)%N;
  no_view : view_of c U ds;
  no_last : (last_commit_round ds ≤ slot_round last_decided)%N;
  no_round : (slot_round last_decided + 8 < u32_MAX)%N;
}.

Lemma try_decide_run f byz ctx ls ds last :
  network c f byz U → node_ok ctx ls ds last →
  ∃ seq sts, try_decide (pipeline ctx ls) ds last = Done seq ∧ (status_of <$> seq) `prefix_of` sts ∧
    decided_from c U leader ds (slot_round last + 1) sts ∧
    (slot_round last + lengthN seq ≤ N.max (slot_round last) (highest_accepted_round ds - 2))%N.
Proof.
  intros Hnw [Hc Hn Hel Hmem Hv Hlast Hr]. unfold try_decide, first_round.
  pose proof (dv_rounds _ _ (proj1 Hv)) as Hhigh. unfold u32_MAX in *.
  rewrite decide_True by done. rewrite wrap_add_small by lia.
  set (hi := (highest_accepted_round ds - 2 + 1)%N).
  assert (hi + 6 < u32_modulus)%N as Hhi by (unfold hi, highest_accepted_round; lia).
  assert (∃ n, rangeN (slot_round last + 1) hi = rangeN (slot_round last + 1) (slot_round last + 1 + N.of_nat n) ∧
    slot_round last + 1 + N.of_nat n + 3 < u32_modulus - 1 ∧
    slot_round last + N.of_nat n ≤ N.max (slot_round last) (highest_accepted_round ds - 2))%N as (n & -> & Hn' & Hbound).
  { exists (N.to_nat (hi - (slot_round last + 1))). destruct (decide (slot_round last + 1 ≤ hi)%N).
    - split_and!; [f_equal|..]; lia.
    - rewrite !rangeN_empty by lia. split_and!; [done|lia..]. }
  destruct (decide_rounds_spec c f byz U Hnw leader ctx ls Hc Hel ds Hv last (slot_round last + 1) n [])
    as (leaders & -> & Hd & Hlen); [lia|lia|done|constructor|].
  run_bind.
  destruct (decided_prefix_spec c U leader ds (pipeline ctx ls) (slot_round last + 1) leaders) as (seq & -> & Hp);
    [done|done|lia|done|].
  exists seq, (map fst leaders). split_and!; [done..|]. apply prefix_length in Hp. rewrite length_fmap, length_map in Hp.
  unfold lengthN. cbn in Hlen. lia.
Qed.

Lemma decided_lookup seq sts (ds : DagState S) k i d :
  (status_of <$> seq) `prefix_of` sts → decided_from c U leader ds k sts → seq !! i = Some d →
  sts !! i = Some (status_of d) ∧ DecidedLeader_slot d = slot_at leader (k + N.of_nat i).
Proof.
  intros Hp Hd Hi. assert (sts !! i = Some (status_of d)) as Hs.
  { eapply prefix_lookup_Some; [|exact Hp]. by rewrite list_lookup_fmap, Hi. }
  split; [done|]. destruct (decided_from_lookup _ _ _ _ _ _ _ _ Hd Hs) as [Hslot _].
  by rewrite <- Hslot, status_of_slot.
Qed.

(** The statuses of a commit are backed by a certificate. *)
Lemma committed_certificate f byz (ds : DagState S) k st sts b :
  network c f byz U → status_ok c U leader ds k st sts → st = LCommit b →
  cached ds !! reference b = Some b ∧ ∃ C, certifies U c C (reference b) = true.
Proof.
  intros Hnw [_ Hst] ->.
  destruct (Hst eq_refl) as [[_ (Hb & _ & HQ)]|(i & A & _ & _ & _ & _ & _ & Hb & _ & (C & _ & _ & _ & HC))].
  - split; [done|]. destruct (cert_quorum_nonempty _ _ _ _ Hnw _ HQ) as (C & _ & HC). by exists C.
  - split; [done|]. by exists C.
Qed.

(** Two runs that agree slot by slot. *)
Lemma try_decide_pointwise f byz ctx ctx' ls ls' (ds ds' : DagState S) last last' :
  network c f byz U → node_ok ctx ls ds last → node_ok ctx' ls' ds' last' →
  ∃ seq seq', try_decide (pipeline ctx ls) ds last = Done seq ∧ try_decide (pipeline ctx' ls') ds' last' = Done seq' ∧
    ∀ i i' d d', seq !! i = Some d → seq' !! i' = Some d' →
      (slot_round last + N.of_nat i = slot_round last' + N.of_nat i')%N → status_of d = status_of d'.
Proof.
  intros Hnw Hn Hn'. pose proof (no_view _ _ _ _ Hn) as Hv. pose proof (no_view _ _ _ _ Hn') as Hv'.
  pose proof (no_last _ _ _ _ Hn) as Hl. pose proof (no_last _ _ _ _ Hn') as Hl'.
  destruct (try_decide_run f byz ctx ls ds last Hnw Hn) as (seq & sts & -> & Hp & Hd & _).
  destruct (try_decide_run f byz ctx' ls' ds' last' Hnw Hn') as (seq' & sts' & -> & Hp' & Hd' & _).
  exists seq, seq'. split_and!; [done|done|]. intros i i' d d' Hi Hi' Hsum.
  destruct (decided_lookup _ _ _ _ _ _ Hp Hd Hi) as [Hs _], (decided_lookup _ _ _ _ _ _ Hp' Hd' Hi') as [Hs' _].
  apply (decided_from_drop _ _ _ _ _ _ i) in Hd. apply (decided_from_drop _ _ _ _ _ _ i') in Hd'.
  replace (slot_round last' + 1 + N.of_nat i')%N with (slot_round last + 1 + N.of_nat i)%N in Hd' by lia.
  eapply (decided_agree c f byz U Hnw leader ds ds'); [done|done| | |exact Hd|exact Hd'| | | |].
  - unfold gc_round, calculate_gc_round. lia.
  - unfold gc_round, calculate_gc_round. lia.
  - by rewrite lookup_drop, Nat.add_0_r.
  - by rewrite lookup_drop, Nat.add_0_r.
  - apply status_of_decided.
  - apply status_of_decided.
Qed.

End nodes.

(** C17: the committer returns one decision per round, without gaps. On a causally
    complete view, [try_decide] of the production pipeline neither panics nor
    runs out of fuel; its [i]-th decision is for the elected leader of round
    [last_decided.round + 1 + i], and every block it commits is a block of the
    view with a certificate (a block with a quorum of votes for it). *)
Theorem try_decide_sequence {S : Type} `{StoreLaws S} `{LeaderRng} c f byz U leader ctx ls (ds : DagState S) last :
  network c f byz U → node_ok c U leader ctx ls ds last →
  ∃ seq, try_decide (pipeline ctx ls) ds last = Done seq ∧
    (∀ i d, seq !! i = Some d → DecidedLeader_slot d = slot_at leader (slot_round last + 1 + N.of_nat i)) ∧
    ∀ b direct, DCommit b direct ∈ seq →
      cached ds !! reference b = Some b ∧ ∃ C, certifies U c C (reference b) = true.
Proof.
  intros Hnw Hn. destruct (try_decide_run c U leader f byz ctx ls ds last Hnw Hn) as (seq & sts & Hrun & Hp & Hd & _).
  exists seq. split_and!; [done| |].
  - intros i d Hi. by destruct (decided_lookup c U leader seq sts ds _ i d Hp Hd Hi).
  - intros b direct [i Hi]%list_elem_of_lookup.
    destruct (decided_lookup c U leader seq sts ds _ i _ Hp Hd Hi) as [Hs _].
    eapply committed_certificate; [done|by eapply decided_from_lookup|done].
Qed.

(** C4: safety of the commit rules. Two nodes whose dag states hold blocks of
    one network, in which the faulty authorities have at most [f] stake, agree
    on every slot that both decide: they commit the same block or both skip. If
    they start after the same round, one sequence of decisions is a prefix of
    the other. The states can also be those of one node at two times, so a
    decision is never revised. *)
Theorem try_decide_agreement {S : Type} `{StoreLaws S} `{LeaderRng} c f byz U leader
    ctx ctx' ls ls' (ds ds' : DagState S) last last' :
  network c f byz U → node_ok c U leader ctx ls ds last → node_ok c U leader ctx' ls' ds' last' →
  ∃ seq seq', try_decide (pipeline ctx ls) ds last = Done seq ∧ try_decide (pipeline ctx' ls') ds' last' = Done seq' ∧
    (∀ d d', d ∈ seq → d' ∈ seq' → DecidedLeader_slot d = DecidedLeader_slot d' → status_of d = status_of d') ∧
    (slot_round last = slot_round last' →
      (status_of <$> seq) `prefix_of` (status_of <$> seq') ∨ (status_of <$> seq') `prefix_of` (status_of <$> seq)).
Proof.
  intros Hnw Hn Hn'.
  destruct (try_decide_pointwise c U leader f byz ctx ctx' ls ls' ds ds' last last') as (seq & seq' & Hrun & Hrun' & Heq);
    [done..|].
  destruct (try_decide_run c U leader f byz ctx ls ds last Hnw Hn) as (seq1 & sts & Hrun1 & Hp & Hd & _).
  destruct (try_decide_run c U leader f byz ctx' ls' ds' last' Hnw Hn') as (seq2 & sts' & Hrun2 & Hp' & Hd' & _).
  rewrite Hrun1 in Hrun. rewrite Hrun2 in Hrun'. injection Hrun as <-. injection Hrun' as <-.
  exists seq1, seq2. split_and!; [done|done| |].
  - intros d d' [i Hi]%list_elem_of_lookup [i' Hi']%list_elem_of_lookup Hslot.
    apply (Heq i i' d d'); [done|done|].
    destruct (decided_lookup c U leader seq1 sts ds _ i d Hp Hd Hi) as [_ Hs].
    destruct (decided_lookup c U leader seq2 sts' ds' _ i' d' Hp' Hd' Hi') as [_ Hs'].
    rewrite Hs, Hs' in Hslot. injection Hslot as Hk _. lia.
  - intros Hlast. apply comparable_lists. intros i st st'. rewrite !list_lookup_fmap, !fmap_Some.
    intros (d & Hi & ->) (d' & Hi' & ->). apply (Heq i i d d'); [done|done|lia].
Qed.

(** ** A concrete network

    Four authorities, of which authority 3 is faulty: it makes two blocks at round
    4, one for each of two nodes. Authority 0, the leader of every round, makes
    no block at round 2. *)

Definition sample_round_refs (r : N) : list BlockRef :=
  if decide (r = 0)%N then (λ a, mkBlockRef 0 a 7) <$> [0; 1; 2; 3]%N
  else if decide (r = 2)%N then (λ a, mkBlockRef r a (10 * r + a)) <$> [1; 2; 3]%N
  else (λ a, mkBlockRef r a (10 * r + a)) <$> [0; 1; 2; 3]%N.

Definition sample_of (r : BlockRef) : VerifiedBlock :=
  sample_block (ref_round r) (ref_author r) (ref_digest r) (sample_round_refs (ref_round r - 1)).

Definition sample_node (blocks : list VerifiedBlock) : DagState MemStore.Inner :=
  from_done sample_start (for_each accept_block sample_start blocks).

(** The first node has the rounds up to 6, the second has round 4 with the other
    block of authority 3 and nothing after it. *)
Definition sample_blocks_1 : list VerifiedBlock := sample_of <$> (r ← [1; 2; 3; 4; 5; 6]%N; sample_round_refs r).
Definition sample_blocks_2 : list VerifiedBlock :=
  sample_of <$> (r ← [1; 2; 3]%N; sample_round_refs r) ++
    [mkBlockRef 4 0 40; mkBlockRef 4 1 41; mkBlockRef 4 2 42; mkBlockRef 4 3 99].

Definition sample_node_1 := sample_node sample_blocks_1.
Definition sample_node_2 := sample_node sample_blocks_2.
Definition sample_network : gmap BlockRef VerifiedBlock := cached sample_node_1 ∪ cached sample_node_2.
Definition sample_schedule : LeaderSchedule := LeaderSchedule_new sample_context LeaderSwapTable_default.

Lemma accept_blocks_ok (ds : DagState MemStore.Inner) blocks ds' :
  Forall (λ b, ref_ok (ds_committee ds) (reference b)) blocks → for_each accept_block ds blocks = Done ds' →
  dag_ok ds → dag_ok ds'.
Proof.
  revert ds. induction blocks as [|b blocks IH]; intros ds Hall Hrun Hok; cbn in Hrun; [by simplify_eq|].
  inversion Hall; subst. apply bind_Done in Hrun as (ds1 & Hb & Hrun).
  destruct (accept_block_ok ds b ds1) as (Hok1 & Hc & _); [done..|]. eapply IH; [|done|done]. unfold ds_committee. by rewrite Hc.
Qed.

Lemma sample_nodes_run :
  for_each accept_block sample_start sample_blocks_1 = Done sample_node_1 ∧
  for_each accept_block sample_start sample_blocks_2 = Done sample_node_2.
Proof. split; vm_compute; reflexivity. Qed.

Lemma sample_refs_ok : Forall (λ b, ref_ok committee_4 (reference b)) (sample_blocks_1 ++ sample_blocks_2).
Proof. repeat (constructor; [by split|]). constructor. Qed.

Lemma sample_views : view_of committee_4 sample_network sample_node_1 ∧ view_of committee_4 sample_network sample_node_2.
Proof.
  destruct sample_nodes_run as [H1 H2]. pose proof sample_refs_ok as [Hr1 Hr2]%Forall_app. split; split.
  - apply view_check_ok; [|vm_compute; reflexivity|vm_compute; reflexivity].
    eapply (accept_blocks_ok sample_start); [exact Hr1|exact H1|exact sample_start_ok].
  - apply map_union_subseteq_l.
  - apply view_check_ok; [|vm_compute; reflexivity|vm_compute; reflexivity].
    eapply (accept_blocks_ok sample_start); [exact Hr2|exact H2|exact sample_start_ok].
  - apply map_subseteq_spec. intros r b Hb%elem_of_map_to_list. revert r b Hb.
    assert (Forall (λ e, sample_network !! e.1 = Some e.2) (map_to_list (cached sample_node_2))) as Hall
      by (vm_compute; repeat constructor).
    rewrite Forall_forall in Hall. intros r b Hb. exact (Hall (r, b) Hb).
Qed.

Lemma sample_network_ok : network committee_4 1 {[3%N]} sample_network.
Proof.
  apply network_check_ok; [exact committee_4_ok|vm_compute; split; discriminate || done|vm_compute; reflexivity].
Qed.

Lemma sample_node_ok_1 : node_ok committee_4 sample_network (λ _, 0%N) sample_context sample_schedule
  sample_node_1 (mkSlot 0 0).
Proof. split; [reflexivity..|intros; reflexivity|done|exact (proj1 sample_views)|by vm_compute|done]. Qed.

Lemma sample_node_ok_2 : node_ok committee_4 sample_network (λ _, 0%N) sample_context sample_schedule
  sample_node_2 (mkSlot 0 0).
Proof. split; [reflexivity..|intros; reflexivity|done|exact (proj2 sample_views)|by vm_compute|done]. Qed.

Lemma try_decide_sequence_witness :
  ∃ seq, try_decide (pipeline sample_context sample_schedule) sample_node_1 (mkSlot 0 0) = Done seq ∧
    map DecidedLeader_slot seq = [mkSlot 1 0; mkSlot 2 0; mkSlot 3 0; mkSlot 4 0] ∧
    ∀ b direct, DCommit b direct ∈ seq → ∃ C, certifies sample_network committee_4 C (reference b) = true.
Proof.
  destruct (try_decide_sequence committee_4 1 {[3%N]} sample_network (λ _, 0%N) sample_context sample_schedule
    sample_node_1 (mkSlot 0 0)) as (seq & Hrun & _ & Hcommit); [exact sample_network_ok|exact sample_node_ok_1|].
  exists seq. split; [exact Hrun|]. split.
  - vm_compute in Hrun. injection Hrun as <-. reflexivity.
  - intros b direct Hb. destruct (Hcommit b direct Hb) as [_ Hcert]. exact Hcert.
Defined.

Lemma try_decide_agreement_witness :
  ∃ seq seq', try_decide (pipeline sample_context sample_schedule) sample_node_1 (mkSlot 0 0) = Done seq ∧
    try_decide (pipeline sample_context sample_schedule) sample_node_2 (mkSlot 0 0) = Done seq' ∧
    length seq = 4 ∧ length seq' = 2 ∧
    ((status_of <$> seq) `prefix_of` (status_of <$> seq') ∨ (status_of <$> seq') `prefix_of` (status_of <$> seq)).
Proof.
  destruct (try_decide_agreement committee_4 1 {[3%N]} sample_network (λ _, 0%N) sample_context sample_context
    sample_schedule sample_schedule sample_node_1 sample_node_2 (mkSlot 0 0) (mkSlot 0 0))
    as (seq & seq' & Hrun & Hrun' & _ & Hprefix);
    [exact sample_network_ok|exact sample_node_ok_1|exact sample_node_ok_2|].
  exists seq, seq'. split; [exact Hrun|]. split; [exact Hrun'|]. split; [|split].
  - vm_compute in Hrun. injection Hrun as <-. reflexivity.
  - vm_compute in Hrun'. injection Hrun' as <-. reflexivity.
  - exact (Hprefix eq_refl).
Defined.

(** [ancestors_at_round] returns exactly the blocks of the given round in the
    causal history of the later block, and its loop terminates: every iteration
    expands a cached block that no later iteration meets again. *)
Theorem ancestors_at_round_exact {S : Type} `{StoreLaws S} c (ds : DagState S) later r :
  dag_view c ds → cached ds !! reference later = Some later → (gc_round ds < r)%N →
  ∃ l, ancestors_at_round ds later r = Done l ∧
    ∀ b, b ∈ l ↔ cached ds !! reference b = Some b ∧ round b = r ∧ linked_to (cached ds) later (reference b).
Proof. intros Hv Hlater Hr. by apply (ancestors_at_round_spec c). Qed.

Lemma ancestors_at_round_exact_witness :
  ∃ l, ancestors_at_round sample_node_1 (sample_of (mkBlockRef 5 1 51)) 2 = Done l ∧
    map reference l = [mkBlockRef 2 1 21; mkBlockRef 2 2 22; mkBlockRef 2 3 23] ∧
    ∀ b, b ∈ l → linked_to (cached sample_node_1) (sample_of (mkBlockRef 5 1 51)) (reference b).
Proof.
  destruct (ancestors_at_round_exact committee_4 sample_node_1 (sample_of (mkBlockRef 5 1 51)) 2)
    as (l & Hrun & Hl); [exact (proj1 (proj1 sample_views))|vm_compute; reflexivity|vm_compute; reflexivity|].
  exists l. split; [exact Hrun|]. split.
  - vm_compute in Hrun. injection Hrun as <-. reflexivity.
  - intros b Hb. apply Hl in Hb as (_ & _ & Hlinked). exact Hlinked.
Defined.
