(* ===== verification/VoteAccounting.v ===== *)
(** * Vote accounting of the dag state (consensus/core/src/dag_state.rs)

    With commit rule v3 the dag state records, for each block, the blocks of the
    next round that include it, and for each round its blocks, with their stake.
    The records are exact in every state that is reached by accepting blocks
    after their ancestors and by the other operations of the dag state. *)

From S2P Require Import Prelude Committee Block StakeAggregator ThresholdClock Commit Store LeaderScoring.
From S2P Require Import DagState DagInvariant DagDurability CausalHistory CommitRules LeaderSlotDecider.

(** ** The vote accounting of the dag state *)
Section accounting.
Context {S : Type} `{StoreLaws S}.
Context (c : Committee).
Implicit Types ds : DagState S.

(** The stake of the aggregator is that of the authors of the references [X]. *)
Definition counts {T} (X : gset BlockRef) (agg : StakeAggregator T) : Prop :=
  agg_ok c agg ∧ ∀ a, a ∈ votes agg ↔ ∃ k, k ∈ X ∧ ref_author k = a.

(** Above the gc round, every cached block has its children in the next round, and
    the rounds with their blocks are recorded without gaps, from the first round
    above the gc round on. *)
Record v3_ok ds : Prop := {
  vo_children r info k : ds_recent_blocks ds !! r = Some info → (gc_round ds < ref_round r)%N →
    k ∈ bi_children info ↔ votes_for (cached ds) r k = true;
  vo_children_stake r info : ds_recent_blocks ds !! r = Some info → (gc_round ds < ref_round r)%N →
    counts (bi_children info) (bi_children_stake info);
  vo_contiguous i x front : head (ds_round_info ds) = Some front → ds_round_info ds !! i = Some x →
    ri_round x = (ri_round front + N.of_nat i)%N;
  vo_front front : head (ds_round_info ds) = Some front → (ri_round front ≤ gc_round ds + 1)%N;
  vo_bound x : x ∈ ds_round_info ds → (ri_round x ≤ ds_highest_accepted_round ds)%N;
  vo_rounds r : r ∈ dom (cached ds) → (gc_round ds < ref_round r)%N →
    ∃ x, x ∈ ds_round_info ds ∧ ri_round x = ref_round r;
  vo_blocks x k : x ∈ ds_round_info ds → (gc_round ds < ri_round x)%N →
    k ∈ ri_blocks x ↔ k ∈ dom (cached ds) ∧ ref_round k = ri_round x;
  vo_total_stake x : x ∈ ds_round_info ds → (gc_round ds < ri_round x)%N → counts (ri_blocks x) (ri_total_stake x);
}.

Lemma get_round_info_spec ds r :
  v3_ok ds → (gc_round ds < r)%N →
  ∃ o, get_round_info ds r = Done o ∧
    match o with
    | Some x => x ∈ ds_round_info ds ∧ ri_round x = r
    | None => ∀ k, k ∈ dom (cached ds) → ref_round k ≠ r
    end.
Proof.
  intros Hv Hgc. unfold get_round_info.
  assert (∀ k, k ∈ dom (cached ds) → ref_round k = r → ∃ i x front, head (ds_round_info ds) = Some front ∧
    ds_round_info ds !! i = Some x ∧ ri_round x = r ∧ r = (ri_round front + N.of_nat i)%N) as Hex.
  { intros k Hk <-. destruct (vo_rounds _ Hv k Hk Hgc) as (x & [i Hi]%list_elem_of_lookup & Hx).
    destruct (ds_round_info ds) as [|front l] eqn:El; [done|]. exists i, x, front. rewrite <- El in *.
    split_and!; [by rewrite El|done|done|]. rewrite <- Hx. eapply vo_contiguous; [done|by rewrite El|done]. }
  destruct (head (ds_round_info ds)) as [front|] eqn:Hf.
  2: { exists None. split; [done|]. intros k Hk Hr. by destruct (Hex k Hk Hr) as (? & ? & ? & ? & _). }
  case_decide as Hlow.
  { exists None. split; [done|]. intros k Hk Hr. destruct (Hex k Hk Hr) as (i & x & f' & [= <-] & _ & _ & ?). lia. }
  destruct (ds_round_info ds !! N.to_nat (r - ri_round front)) as [x|] eqn:Hx.
  - assert (ri_round x = r) as Hr by (rewrite (vo_contiguous _ Hv _ _ _ Hf Hx); lia).
    rewrite rassert_true by done. exists (Some x). split; [done|]. split; [by eapply list_elem_of_lookup_2|done].
  - exists None. split; [done|]. intros k Hk Hr. destruct (Hex k Hk Hr) as (i & x & f' & [= <-] & Hi & _ & Heq).
    replace (N.to_nat (r - ri_round front)) with i in Hx by lia. congruence.
Qed.

Lemma add_all_spec {T} (agg : StakeAggregator T) l :
  committee_ok c → agg_ok c agg → (∀ r, r ∈ l → ref_author r < Committee_size c)%N →
  ∃ agg', add_all c agg l = Done agg' ∧ agg_ok c agg' ∧
    ∀ a, a ∈ votes agg' ↔ a ∈ votes agg ∨ ∃ r, r ∈ l ∧ ref_author r = a.
Proof.
  intros Hc. unfold add_all. revert agg. induction l as [|r l IH]; intros agg Hok Hl; cbn [for_each].
  { exists agg. split_and!; [done|done|]. intros a. set_solver. }
  destruct (agg_add_unique_spec c Hc agg (ref_author r)) as (agg1 & -> & Hok1 & Hv1); [done|apply Hl, list_elem_of_here|].
  run_bind. destruct (IH agg1) as (agg2 & Hrun & Hok2 & Hv2); [done|intros; by apply Hl, list_elem_of_further|].
  exists agg2. split_and!; [done|done|]. intros a. rewrite Hv2, Hv1. set_solver.
Qed.

Lemma counts_reached {T} `{CommitteeThresholdLaw T} X (agg : StakeAggregator T) :
  counts X agg → reached_threshold agg c = true →
  ∃ Q, (threshold_of T c ≤ set_stake c Q)%N ∧ ∀ a, a ∈ Q → ∃ k, k ∈ X ∧ ref_author k = a.
Proof.
  intros [Hok Hv] Hr. exists (votes agg). rewrite (reached_threshold_spec c agg Hok) in Hr.
  apply bool_decide_eq_true in Hr. split; [done|]. intros a. apply Hv.
Qed.


(** ** Operations that do not add blocks *)

(** A record that counts the same children. *)
Definition same_votes (i i' : BlockInfo) : Prop :=
  bi_block i' = bi_block i ∧ bi_children i' = bi_children i ∧ bi_children_stake i' = bi_children_stake i.

Lemma votes_for_ext (U U' : gmap BlockRef VerifiedBlock) L k :
  U !! k = U' !! k → votes_for U L k = votes_for U' L k.
Proof. unfold votes_for. by intros ->. Qed.

(** Dropping round infos keeps those above the gc round and their order. *)
Lemma pop_round_infos_spec gc l :
  ∃ n, pop_round_infos gc l = drop n l ∧ (∀ x, x ∈ take n l → (ri_round x ≤ gc)%N) ∧
    (∀ x, head (drop n l) = Some x → (gc < ri_round x)%N).
Proof.
  induction l as [|x l (n & Hpop & Hle & Hhd)]; cbn [pop_round_infos].
  { exists 0. split_and!; [done|intros x []%not_elem_of_nil|done]. }
  case_decide as Hx.
  - exists (Datatypes.S n). split_and!; [done| |done]. intros y. cbn. intros [->|Hy]%elem_of_cons; [done|by apply Hle].
  - exists 0. split_and!; [done|intros y []%not_elem_of_nil|]. cbn. intros y [= <-]. lia.
Qed.

Record quiet_step ds ds' : Prop := {
  qs_gc : (gc_round ds ≤ gc_round ds')%N;
  qs_highest : ds_highest_accepted_round ds' = ds_highest_accepted_round ds;
  qs_recent r i' : ds_recent_blocks ds' !! r = Some i' → ∃ i, ds_recent_blocks ds !! r = Some i ∧ same_votes i i';
  qs_cached r : r ∈ dom (cached ds) → (gc_round ds' < ref_round r)%N → r ∈ dom (cached ds');
  qs_rounds : ds_round_info ds' = ds_round_info ds ∨ ds_round_info ds' = pop_round_infos (gc_round ds') (ds_round_info ds);
}.

Lemma quiet_cached ds ds' r :
  quiet_step ds ds' → (gc_round ds' < ref_round r)%N → cached ds' !! r = cached ds !! r.
Proof.
  intros Hq Hr. rewrite !cached_lookup. destruct (ds_recent_blocks ds' !! r) as [i'|] eqn:Hi'.
  - destruct (qs_recent _ _ Hq r i' Hi') as (i & -> & Hb & _). cbn. by rewrite Hb.
  - destruct (ds_recent_blocks ds !! r) as [i|] eqn:Hi; [|done].
    assert (r ∈ dom (cached ds')) as Hd by (apply (qs_cached _ _ Hq); [rewrite dom_cached; by eapply elem_of_dom_2|done]).
    rewrite dom_cached in Hd. apply elem_of_dom in Hd as [i' ?]. congruence.
Qed.

Lemma quiet_rounds ds ds' :
  quiet_step ds ds' → ∃ n, ds_round_info ds' = drop n (ds_round_info ds) ∧
    (∀ x, x ∈ take n (ds_round_info ds) → (ri_round x ≤ gc_round ds')%N) ∧
    (n ≠ 0 → ∀ x, head (ds_round_info ds') = Some x → (gc_round ds' < ri_round x)%N).
Proof.
  intros [_ _ _ _ [Heq|Heq]].
  - exists 0. rewrite Heq. split_and!; [done|intros x []%not_elem_of_nil|done].
  - destruct (pop_round_infos_spec (gc_round ds') (ds_round_info ds)) as (n & Hpop & Hle & Hhd).
    exists n. rewrite Heq, Hpop. done.
Qed.

Lemma quiet_step_ok ds ds' : quiet_step ds ds' → v3_ok ds → v3_ok ds'.
Proof.
  intros Hq Hok. destruct (quiet_rounds _ _ Hq) as (n & Hri & Hlow & Hhd). pose proof (qs_gc _ _ Hq) as Hgc.
  assert (∀ x, x ∈ ds_round_info ds' → x ∈ ds_round_info ds) as Hsub.
  { intros x Hx. rewrite Hri in Hx. rewrite <- (take_drop n (ds_round_info ds)). apply elem_of_app. by right. }
  assert (∀ i, ds_round_info ds' !! i = ds_round_info ds !! (n + i)) as Hlk by (intros; by rewrite Hri, lookup_drop).
  split.
  - intros r i' k Hi' Hr. destruct (qs_recent _ _ Hq r i' Hi') as (i & Hi & _ & -> & _).
    rewrite (vo_children _ Hok r i k Hi) by lia.
    destruct (decide (ref_round k = ref_round r + 1)%N) as [Hk|Hk].
    + by rewrite (votes_for_ext (cached ds') (cached ds)) by (apply quiet_cached; [done|lia]).
    + split; intros (v & _ & ? & _)%votes_for_true; lia.
  - intros r i' Hi' Hr. destruct (qs_recent _ _ Hq r i' Hi') as (i & Hi & _ & -> & ->).
    apply (vo_children_stake _ Hok r i Hi). lia.
  - intros i x front Hf Hx. rewrite head_lookup, Hlk, Nat.add_0_r in Hf. rewrite Hlk in Hx.
    destruct (ds_round_info ds) as [|f l] eqn:El; [done|]. rewrite <- El in *.
    rewrite (vo_contiguous _ Hok _ x f), (vo_contiguous _ Hok _ front f) by (done || by rewrite El). lia.
  - intros front Hf. destruct (decide (n = 0)) as [->|Hn].
    + rewrite Hri, drop_0 in Hf. pose proof (vo_front _ Hok _ Hf). lia.
    + rewrite head_lookup, Hlk, Nat.add_0_r in Hf. destruct (ds_round_info ds !! pred n) as [y|] eqn:Hy.
      2: { apply lookup_ge_None in Hy. apply lookup_lt_Some in Hf. lia. }
      destruct (ds_round_info ds) as [|f l] eqn:El; [done|]. rewrite <- El in *.
      assert (ri_round y ≤ gc_round ds')%N.
      { apply Hlow, list_elem_of_lookup. exists (pred n). rewrite lookup_take_lt by lia. done. }
      rewrite (vo_contiguous _ Hok _ y f) in * by (done || by rewrite El).
      rewrite (vo_contiguous _ Hok _ front f) by (done || by rewrite El). lia.
  - intros x Hx%Hsub. pose proof (vo_bound _ Hok x Hx). pose proof (qs_highest _ _ Hq). lia.
  - intros r [b Hb]%elem_of_dom Hr. rewrite (quiet_cached ds ds' r Hq Hr) in Hb.
    destruct (vo_rounds _ Hok r) as (x & Hx & Hxr); [by eapply elem_of_dom_2|lia|]. exists x. split; [|done].
    rewrite <- (take_drop n (ds_round_info ds)), elem_of_app, <- Hri in Hx. destruct Hx as [Hx%Hlow|]; [lia|done].
  - intros x k Hx%Hsub Hr. rewrite (vo_blocks _ Hok x k Hx) by lia.
    destruct (decide (ref_round k = ri_round x)) as [Hk|]; [|tauto].
    by rewrite !elem_of_dom, (quiet_cached ds ds') by (done || lia).
  - intros x Hx%Hsub Hr. apply (vo_total_stake _ Hok x Hx). lia.
Qed.

(** ** Accepting a block *)

(** The record of a block that gets the child [r] if [P] holds. *)
Record child_added (r : BlockRef) (P : Prop) (i i' : BlockInfo) : Prop := {
  ca_block : bi_block i' = bi_block i;
  ca_children k : k ∈ bi_children i' ↔ k ∈ bi_children i ∨ (P ∧ k = r);
  ca_ok : agg_ok c (bi_children_stake i) → agg_ok c (bi_children_stake i');
  ca_votes a : agg_ok c (bi_children_stake i) →
    a ∈ votes (bi_children_stake i') ↔ a ∈ votes (bi_children_stake i) ∨ (P ∧ a = ref_author r);
}.

Lemma child_added_counts r P i i' :
  child_added r P i i' → counts (bi_children i) (bi_children_stake i) → counts (bi_children i') (bi_children_stake i').
Proof.
  intros Hca [Hok Hv]. split; [by apply (ca_ok _ _ _ _ Hca)|]. intros a. rewrite (ca_votes _ _ _ _ Hca a Hok), Hv.
  setoid_rewrite (ca_children _ _ _ _ Hca). naive_solver.
Qed.

(** The guard of [update_child]. *)
Definition votes_above ds (r a : BlockRef) : Prop := (ref_round a + 1)%N = ref_round r ∧ (gc_round ds < ref_round a)%N.

Lemma update_child_spec r ds a ds' :
  committee_ok c → ds_committee ds = c → (ref_author r < Committee_size c)%N → (ref_round a + 1 < u32_modulus)%N →
  update_child r ds a = Done ds' →
  ∃ m, ds' = set_recent_blocks m ds ∧
    (∀ k i', m !! k = Some i' → ∃ i, ds_recent_blocks ds !! k = Some i ∧ child_added r (k = a ∧ votes_above ds r k) i i') ∧
    (∀ k, is_Some (ds_recent_blocks ds !! k) → is_Some (m !! k)).
Proof.
  intros Hc Hdc Ha Hw. unfold update_child. rewrite wrap_add_small by done.
  assert (∀ P i, ¬ P → child_added r P i i) as Hsame by (intros P i HP; split; [done|tauto|done|tauto]).
  destruct (decide (ref_round a + 1 ≠ ref_round r ∨ ref_round a ≤ gc_round ds)%N) as [Hno|Hyes].
  - intros [= <-]. exists (ds_recent_blocks ds). split_and!; [by destruct ds| |done]. intros k i Hk. exists i.
    split; [done|]. apply Hsame. unfold votes_above. intros (-> & ? & ?). lia.
  - intros Hrun. apply bind_Done in Hrun as (i & Hi%unwrap_Done & Hrun). rewrite Hdc in Hrun.
    apply bind_Done in Hrun as ([agg first] & Hagg & Hrun). invert_done. eexists. split_and!; [done| |].
    + intros k i' Hk. apply lookup_insert_Some in Hk as [[<- <-]|[Hne Hk]].
      * exists i. split; [done|].
        assert (a = a ∧ votes_above ds r a) as HP by (unfold votes_above; split_and!; [done|lia|lia]).
        assert (agg_ok c (bi_children_stake i) → agg_ok c agg ∧ votes agg = {[ref_author r]} ∪ votes (bi_children_stake i)) as Hspec.
        { intros Hok. destruct (agg_add_unique_spec c Hc _ _ Hok Ha) as (agg' & Hrun & Hok' & Hv). rewrite Hrun in Hagg. by invert_done. }
        split; cbn; [done|set_solver|intros Hok; by apply Hspec|]. intros x Hok. destruct (Hspec Hok) as [_ ->]. set_solver.
      * exists i'. split; [done|]. apply Hsame. intros [-> _]. done.
    + intros k Hk. destruct (decide (k = a)) as [->|]; [by rewrite lookup_insert_eq|]. by rewrite lookup_insert_ne.
Qed.

Lemma child_added_weaken r (P Q R : Prop) i i1 i' :
  child_added r P i i1 → child_added r Q i1 i' → (R ↔ P ∨ Q) → child_added r R i i'.
Proof.
  intros [H1b H1c H1o H1v] [H2b H2c H2o H2v] HR. split.
  - congruence.
  - intros k. rewrite H2c, H1c, HR. tauto.
  - tauto.
  - intros a Hok. rewrite H2v, H1v, HR by tauto. tauto.
Qed.

Lemma update_children_spec r l ds ds' :
  committee_ok c → ds_committee ds = c → (ref_author r < Committee_size c)%N →
  (∀ a, a ∈ l → (ref_round a + 1 < u32_modulus)%N) →
  for_each (update_child r) ds l = Done ds' →
  ∃ m, ds' = set_recent_blocks m ds ∧
    (∀ k i', m !! k = Some i' → ∃ i, ds_recent_blocks ds !! k = Some i ∧ child_added r (k ∈ l ∧ votes_above ds r k) i i') ∧
    (∀ k, is_Some (ds_recent_blocks ds !! k) → is_Some (m !! k)).
Proof.
  intros Hc Hdc Ha. revert ds Hdc. induction l as [|a l IH]; intros ds Hdc Hl Hrun; cbn [for_each] in Hrun.
  - invert_done. exists (ds_recent_blocks ds'). split_and!; [by destruct ds'| |done]. intros k i Hk. exists i.
    split; [done|]. split; [done|set_solver|done|set_solver].
  - apply bind_Done in Hrun as (ds1 & Hstep & Hrun).
    destruct (update_child_spec r ds a ds1) as (m1 & -> & Hm1 & Hd1); [done|done|done|apply Hl; auto with lists|done|].
    destruct (IH (set_recent_blocks m1 ds)) as (m & -> & Hm & Hd); [done|auto with lists|done|].
    exists m. split_and!; [done| |intros k Hk; by apply Hd, Hd1].
    intros k i' Hk. destruct (Hm k i' Hk) as (i1 & Hi1 & Hca). destruct (Hm1 k i1 Hi1) as (i & Hi & Hca1).
    exists i. split; [done|]. eapply child_added_weaken; [done|done|]. rewrite elem_of_cons.
    change (votes_above (set_recent_blocks m1 ds) r k) with (votes_above ds r k). tauto.
Qed.

(** Round infos for consecutive rounds. *)
Definition contiguous (l : list RoundInfo) : Prop :=
  ∀ i x front, head l = Some front → l !! i = Some x → ri_round x = (ri_round front + N.of_nat i)%N.

Lemma contiguous_push l x :
  contiguous l → (∀ y, last l = Some y → ri_round x = (ri_round y + 1)%N) → contiguous (l ++ [x]).
Proof.
  intros Hl Hx i y front Hf Hy. destruct l as [|f l]; cbn in Hf; injection Hf as <-.
  { destruct i; [injection Hy as <-; lia|done]. }
  apply lookup_app_Some in Hy as [Hy|[Hi Hy]]; [by apply Hl|].
  apply list_lookup_singleton_Some in Hy as [Hi0 <-]. rewrite last_lookup in Hx.
  destruct (lookup_lt_is_Some_2 (f :: l) (pred (length (f :: l)))) as [z Hz]; [cbn; lia|].
  rewrite (Hx z Hz), (Hl _ _ _ eq_refl Hz). cbn in Hi, Hi0 |- *. lia.
Qed.

Lemma contiguous_set l n x y :
  contiguous l → l !! n = Some x → ri_round y = ri_round x → contiguous (<[n := y]> l).
Proof.
  intros Hl Hx Hr i z front Hf Hz. rewrite head_lookup in Hf.
  assert (∀ j w, <[n := y]> l !! j = Some w → ∃ w', l !! j = Some w' ∧ ri_round w' = ri_round w) as Hback.
  { intros j w. destruct (decide (j = n)) as [->|].
    - rewrite list_lookup_insert_eq by (by eapply lookup_lt_Some). intros [= <-]. by exists x.
    - rewrite list_lookup_insert_ne by done. by exists w. }
  destruct (Hback _ _ Hf) as (f' & Hf' & <-), (Hback _ _ Hz) as (z' & Hz' & <-). apply Hl; [by rewrite head_lookup|done].
Qed.

Lemma contiguous_last l x y : contiguous l → x ∈ l → last l = Some y → (ri_round x ≤ ri_round y)%N.
Proof.
  intros Hl [i Hi]%list_elem_of_lookup Hy. rewrite last_lookup in Hy. destruct l as [|f l]; [done|].
  pose proof (lookup_lt_Some _ _ _ Hi). rewrite (Hl _ _ _ eq_refl Hi), (Hl _ _ _ eq_refl Hy). cbn in *. lia.
Qed.

(** Where [update_round_info] records a block. *)
Lemma update_round_info_run ds b ds' :
  contiguous (ds_round_info ds) → (∀ f, head (ds_round_info ds) = Some f → (ri_round f ≤ gc_round ds + 1)%N) →
  (∀ x, x ∈ ds_round_info ds → (ri_round x + 1 < u32_modulus)%N) →
  (gc_round ds < round b)%N → (round b + 1 < u32_modulus)%N → update_round_info ds b = Done ds' →
  ∃ infos n info agg first, (infos = ds_round_info ds ∨ (infos = ds_round_info ds ++ [RoundInfo_new (round b)] ∧
      ∀ x, x ∈ ds_round_info ds → (ri_round x < round b)%N)) ∧
    contiguous infos ∧ (∀ f, head infos = Some f → (ri_round f ≤ gc_round ds + 1)%N) ∧
    infos !! n = Some info ∧ ri_round info = round b ∧
    agg_add_unique (ri_total_stake info) (author b) (ds_committee ds) = Done (agg, first) ∧
    ds' = set_round_info (<[n := mkRoundInfo (round b) ({[reference b]} ∪ ri_blocks info) agg]> infos) ds.
Proof.
  intros Hcont Hfront Hbound Hgc Hw. unfold update_round_info. rewrite decide_False by lia.
  set (next := match last (ds_round_info ds) with Some info => ri_round info +₃₂ 1 | None => gc_round ds +₃₂ 1 end).
  intros Hrun. apply bind_Done in Hrun as (u & Hnext%rassert_Done & Hrun).
  assert (∀ y, last (ds_round_info ds) = Some y → next = (ri_round y + 1)%N) as Hlast.
  { intros y Hy. unfold next. rewrite Hy, wrap_add_small; [done|]. apply Hbound. apply last_Some_elem_of in Hy. done. }
  set (infos := if decide (round b = next) then _ else _) in Hrun.
  assert ((infos = ds_round_info ds ∨ (infos = ds_round_info ds ++ [RoundInfo_new (round b)] ∧
      ∀ x, x ∈ ds_round_info ds → (ri_round x < round b)%N)) ∧ contiguous infos ∧
    ∀ f, head infos = Some f → (ri_round f ≤ gc_round ds + 1)%N) as (Hinfos & Hcont' & Hfront').
  { unfold infos. destruct (decide (round b = next)) as [Heq|Hne]; [|by split_and!; [left|..]]. split_and!.
    - right. split; [done|]. intros x Hx. destruct (last (ds_round_info ds)) as [y|] eqn:Hy.
      + pose proof (contiguous_last _ _ _ Hcont Hx Hy). rewrite Heq, (Hlast y eq_refl). lia.
      + apply last_None in Hy. rewrite Hy in Hx. by apply not_elem_of_nil in Hx.
    - apply contiguous_push; [done|]. intros y Hy. cbn. rewrite Heq. by apply Hlast.
    - intros f. destruct (ds_round_info ds) as [|f' l] eqn:El; [|by apply Hfront]. cbn. intros [= <-]. cbn.
      unfold next in Heq. cbn in Heq. rewrite wrap_add_small in Heq; lia. }
  clearbody infos. apply bind_Done in Hrun as (front & Hf%unwrap_Done & Hrun).
  apply bind_Done in Hrun as (info & Hinfo%vec_index_Done & Hrun).
  pose proof (Hfront' _ Hf). rewrite wrap_sub_small in Hinfo by lia.
  pose proof (Hcont' _ _ _ Hf Hinfo) as Hr.
  apply bind_Done in Hrun as ([agg first] & Hagg & Hrun).
  apply bind_Done in Hrun as (infos' & [_ ->]%vec_set_Done & Hrun). invert_done.
  rewrite wrap_sub_small by lia. assert (ri_round info = round b) as Hri by lia.
  exists infos, (N.to_nat (round b - ri_round front)), info, agg, first. split_and!; try done. by rewrite Hri.
Qed.

(** What accepting an unknown block does to the records. *)
Lemma accept_block_records ds b ds' :
  dag_ok ds → ref_ok (ds_committee ds) (reference b) → known ds (reference b) = false →
  enable_v3 (protocol_config (ds_context ds)) = true → accept_block ds b = Done ds' →
  ∃ ds0 ds1 ds2, ds_recent_blocks ds0 = <[reference b := BlockInfo_new b]> (ds_recent_blocks ds) ∧
    ds_round_info ds0 = ds_round_info ds ∧ ds_context ds0 = ds_context ds ∧ ds_last_commit ds0 = ds_last_commit ds ∧
    for_each (update_child (reference b)) ds0 (ancestors b) = Done ds1 ∧ update_round_info ds1 b = Done ds2 ∧
    ds_recent_blocks ds' = ds_recent_blocks ds2 ∧ ds_round_info ds' = ds_round_info ds2 ∧
    ds_highest_accepted_round ds' = N.max (ds_highest_accepted_round ds) (round b).
Proof.
  intros Hok Href Hk H3 Hrun. unfold accept_block in Hrun. apply bind_Done in Hrun as (u & _ & Hrun).
  rewrite contains_block_spec in Hrun by (done || apply Href). cbn [mbind outcome_bind] in Hrun. rewrite Hk in Hrun.
  apply bind_Done in Hrun as (au & _ & Hrun). apply bind_Done in Hrun as (u' & _ & Hrun).
  apply bind_Done in Hrun as (dsm & Hmeta & Hrun). invert_done.
  destruct (update_block_metadata_eqv _ _ _ Hmeta) as (refs & _ & Heqv). apply de_highest in Heqv.
  unfold update_block_metadata in Hmeta. apply bind_Done in Hmeta as (refs' & _ & Hmeta).
  apply bind_Done in Hmeta as (by_auth & _ & Hmeta). apply bind_Done in Hmeta as (ds2 & Hv3 & Hmeta).
  cbn [ds_context set_recent_blocks set_recent_refs_by_authority] in Hv3. rewrite H3 in Hv3.
  apply bind_Done in Hv3 as (ds1 & Hloop & Hri). eexists _, ds1, ds2. split_and!; [..|exact Hloop|exact Hri| | |]; try done.
  - apply bind_Done in Hmeta as ([clk adv] & _ & Hmeta). apply bind_Done in Hmeta as (lp & _ & Hmeta). by invert_done.
  - apply bind_Done in Hmeta as ([clk adv] & _ & Hmeta). apply bind_Done in Hmeta as (lp & _ & Hmeta). by invert_done.
Qed.

Section accept.
Context (Hc : committee_ok c) (ds ds' : DagState S) (b : VerifiedBlock).
Context (Hdc : ds_committee ds = c) (Hok : dag_ok ds) (H3 : v3_ok ds).
Context (Hv3 : enable_v3 (protocol_config (ds_context ds)) = true).
Context (Href : ref_ok c (reference b)) (Hnew : known ds (reference b) = false).
Context (Hcausal : ∀ r x a, cached ds !! r = Some x → a ∈ ancestors x → (gc_round ds < ref_round a)%N → a ∈ dom (cached ds)).
Context (Hanc : ∀ a, a ∈ ancestors b → (ref_round a < round b)%N).
Context (Hhigh : (ds_highest_accepted_round ds + 1 < u32_modulus)%N) (Hround : (round b + 1 < u32_modulus)%N).
Context (Hcached : cached ds' = <[reference b := b]> (cached ds)) (Hgc : gc_round ds' = gc_round ds).
Context (Hhigh' : ds_highest_accepted_round ds' = N.max (ds_highest_accepted_round ds) (round b)).

Lemma new_uncached : cached ds !! reference b = None.
Proof. apply not_elem_of_dom. by apply known_false. Qed.

(** The votes that the new block adds. *)
Lemma votes_for_new L k : (gc_round ds < ref_round L)%N →
  votes_for (cached ds') L k = true ↔ votes_for (cached ds) L k = true ∨
    (L ∈ ancestors b ∧ (ref_round L + 1)%N = round b ∧ k = reference b).
Proof.
  intros HL. rewrite !votes_for_true, Hcached. destruct (decide (k = reference b)) as [->|Hk].
  - setoid_rewrite lookup_insert_eq. setoid_rewrite new_uncached. cbn. naive_solver lia.
  - setoid_rewrite lookup_insert_ne; [|done]. naive_solver.
Qed.

Lemma no_votes_for_new k : (gc_round ds < round b)%N → votes_for (cached ds') (reference b) k ≠ true.
Proof.
  intros Hr (v & Hv & Hkr & Hin)%votes_for_true. rewrite Hcached in Hv.
  apply lookup_insert_Some in Hv as [[<- <-]|[Hne Hv]]; [cbn in Hkr; lia|].
  pose proof (Hcausal k v (reference b) Hv Hin Hr) as Hd. apply elem_of_dom in Hd as [? Hd]. by rewrite new_uncached in Hd.
Qed.

Lemma children_after ds0 ds1 r i' :
  ds_recent_blocks ds0 = <[reference b := BlockInfo_new b]> (ds_recent_blocks ds) → ds_committee ds0 = c →
  gc_round ds0 = gc_round ds → for_each (update_child (reference b)) ds0 (ancestors b) = Done ds1 →
  ds_recent_blocks ds1 !! r = Some i' → (gc_round ds < ref_round r)%N →
  (∀ k, k ∈ bi_children i' ↔ votes_for (cached ds') r k = true) ∧ counts (bi_children i') (bi_children_stake i').
Proof.
  intros Hr0 Hc0 Hgc0 Hrun Hi' Hr.
  destruct (update_children_spec (reference b) (ancestors b) ds0 ds1 Hc Hc0) as (m & -> & Hm & _); [apply Href| |done|].
  { intros a Ha%Hanc. lia. }
  destruct (Hm r i' Hi') as (i & Hi & Hca). rewrite Hr0 in Hi. unfold votes_above in Hca. rewrite Hgc0 in Hca.
  apply lookup_insert_Some in Hi as [[<- <-]|[Hne Hi]].
  - assert (∀ k, k ∉ bi_children i') as Hempty.
    { intros k. rewrite (ca_children _ _ _ _ Hca). intros [Hk|((_ & Hk & _) & _)]; [by apply not_elem_of_empty in Hk|lia]. }
    split; [intros k; split; [by intros ?%Hempty|by intros ?%no_votes_for_new]|].
    eapply child_added_counts; [done|]. split; [apply StakeAggregator_new_ok|]. cbn. set_solver.
  - split; [|eapply child_added_counts; [done|]; by apply (vo_children_stake _ H3 r i Hi)].
    intros k. rewrite (ca_children _ _ _ _ Hca), (vo_children _ H3 r i k Hi Hr), votes_for_new by done. cbn. naive_solver.
Qed.

(** The record of the round of the new block, before it is added. *)
Lemma round_before infos n info :
  (gc_round ds < round b)%N →
  infos = ds_round_info ds ∨
    (infos = ds_round_info ds ++ [RoundInfo_new (round b)] ∧ ∀ x, x ∈ ds_round_info ds → (ri_round x < round b)%N) →
  infos !! n = Some info → ri_round info = round b →
  (∀ k, k ∈ ri_blocks info ↔ k ∈ dom (cached ds) ∧ ref_round k = round b) ∧ counts (ri_blocks info) (ri_total_stake info) ∧
  ∀ x i, infos !! i = Some x → i ≠ n → x ∈ ds_round_info ds.
Proof.
  intros Hr Hinfos Hn Hinfo.
  assert (info ∈ ds_round_info ds → (∀ k, k ∈ ri_blocks info ↔ k ∈ dom (cached ds) ∧ ref_round k = round b) ∧
    counts (ri_blocks info) (ri_total_stake info)) as Hold.
  { intros Hin. rewrite <- Hinfo in Hr |- *. split; [intros k; by apply (vo_blocks _ H3)|by apply (vo_total_stake _ H3)]. }
  destruct Hinfos as [->|[-> Hlow]].
  - destruct (Hold (list_elem_of_lookup_2 _ _ _ Hn)) as [? ?]. split_and!; [done|done|].
    intros x i Hx _. by eapply list_elem_of_lookup_2.
  - apply lookup_app_Some in Hn as [Hn|[Hlen Hn]].
    { pose proof (Hlow _ (list_elem_of_lookup_2 _ _ _ Hn)). lia. }
    apply list_lookup_singleton_Some in Hn as [Hn <-]. split_and!.
    + intros k. cbn. split; [by intros ?%not_elem_of_empty|]. intros [Hk Hkr].
      destruct (vo_rounds _ H3 k Hk) as (x & Hx%Hlow & Hxr); lia.
    + split; [apply StakeAggregator_new_ok|]. cbn. set_solver.
    + intros x i [Hx|[Hi Hx]]%lookup_app_Some Hne; [by eapply list_elem_of_lookup_2|].
      apply list_lookup_singleton_Some in Hx as [Hi0 _]. lia.
Qed.

(** The round infos with the new block. *)
Lemma rounds_after infos n info agg first :
  (gc_round ds < round b)%N →
  infos = ds_round_info ds ∨
    (infos = ds_round_info ds ++ [RoundInfo_new (round b)] ∧ ∀ x, x ∈ ds_round_info ds → (ri_round x < round b)%N) →
  contiguous infos → infos !! n = Some info → ri_round info = round b →
  agg_add_unique (ri_total_stake info) (author b) c = Done (agg, first) →
  ds_round_info ds' = <[n := mkRoundInfo (round b) ({[reference b]} ∪ ri_blocks info) agg]> infos →
  (∀ x, x ∈ ds_round_info ds' → (ri_round x ≤ ds_highest_accepted_round ds')%N) ∧
  (∀ r, r ∈ dom (cached ds') → (gc_round ds < ref_round r)%N → ∃ x, x ∈ ds_round_info ds' ∧ ri_round x = ref_round r) ∧
  (∀ x k, x ∈ ds_round_info ds' → (gc_round ds < ri_round x)%N →
    k ∈ ri_blocks x ↔ k ∈ dom (cached ds') ∧ ref_round k = ri_round x) ∧
  (∀ x, x ∈ ds_round_info ds' → (gc_round ds < ri_round x)%N → counts (ri_blocks x) (ri_total_stake x)).
Proof.
  intros Hr Hinfos Hcont Hn Hinfo Hagg Hri. set (y := mkRoundInfo _ _ _) in Hri.
  destruct (round_before infos n info Hr Hinfos Hn Hinfo) as (Hblocks & [Hagg_ok Hvotes] & Hother).
  destruct (agg_add_unique_spec c Hc _ (author b) Hagg_ok) as (agg' & Hrun & Hok' & Hv'); [apply Href|].
  rewrite Hrun in Hagg. injection Hagg as -> _.
  assert (∀ x, x ∈ ds_round_info ds' → x = y ∨ (x ∈ ds_round_info ds ∧ ri_round x ≠ round b)) as Hin.
  { intros x [i Hi]%list_elem_of_lookup. rewrite Hri in Hi. destruct (decide (i = n)) as [->|Hne].
    - rewrite list_lookup_insert_eq in Hi by (by eapply lookup_lt_Some). injection Hi as <-. by left.
    - rewrite list_lookup_insert_ne in Hi by done. right. split; [by eapply Hother|].
      destruct infos as [|f l]; [done|]. rewrite <- Hinfo, (Hcont _ _ _ eq_refl Hi), (Hcont _ _ _ eq_refl Hn). lia. }
  assert (y ∈ ds_round_info ds') as Hy.
  { apply list_elem_of_lookup. exists n. rewrite Hri. apply list_lookup_insert_eq. by eapply lookup_lt_Some. }
  rewrite Hcached, dom_insert_L. split_and!.
  - intros x [->|[Hx _]]%Hin; rewrite Hhigh'; [cbn; lia|]. pose proof (vo_bound _ H3 x Hx). lia.
  - intros r Hrin Hrr. destruct (decide (ref_round r = round b)) as [Heq|Hne]; [by exists y|].
    apply elem_of_union in Hrin as [->%elem_of_singleton|Hrc]; [done|].
    destruct (vo_rounds _ H3 r Hrc Hrr) as (x & Hx & Hxr). exists x. split; [|done].
    assert (x ∈ infos) as [i Hi]%list_elem_of_lookup.
    { destruct Hinfos as [->|[-> _]]; [done|]. apply elem_of_app. by left. }
    apply list_elem_of_lookup. exists i. rewrite Hri, list_lookup_insert_ne; [done|]. intros ->. congruence.
  - intros x k [->|[Hx Hne]]%Hin Hxr; rewrite elem_of_union, elem_of_singleton.
    + cbn. rewrite elem_of_union, elem_of_singleton, Hblocks. naive_solver.
    + rewrite (vo_blocks _ H3 x k Hx Hxr). split; [tauto|]. intros [[->|] ?]; [by destruct Hne|done].
  - intros x [->|[Hx Hne]]%Hin Hxr; [|by apply (vo_total_stake _ H3)]. split; [done|]. intros a. cbn.
    rewrite Hv', elem_of_union, elem_of_singleton, Hvotes. setoid_rewrite elem_of_union. setoid_rewrite elem_of_singleton.
    naive_solver.
Qed.

(** All records are exact again. *)
Definition children_ok : Prop := ∀ r i', ds_recent_blocks ds' !! r = Some i' → (gc_round ds < ref_round r)%N →
  (∀ k, k ∈ bi_children i' ↔ votes_for (cached ds') r k = true) ∧ counts (bi_children i') (bi_children_stake i').

Lemma accounting_below_gc :
  children_ok → (round b ≤ gc_round ds)%N → ds_round_info ds' = ds_round_info ds → v3_ok ds'.
Proof.
  intros Hch Hlow Hi'.
  split; rewrite ?Hgc, ?Hi'; [intros; by eapply Hch|intros; by eapply Hch|apply H3|apply H3| | | |apply H3].
  - intros x Hx. pose proof (vo_bound _ H3 x Hx). lia.
  - intros r. rewrite Hcached, dom_insert_L. intros [->%elem_of_singleton|Hr]%elem_of_union Hgr; [cbn in *; lia|].
    by apply (vo_rounds _ H3).
  - intros x k Hx Hgx. rewrite (vo_blocks _ H3 x k Hx Hgx), Hcached, dom_insert_L, elem_of_union, elem_of_singleton.
    split; [tauto|]. intros [[->|] Hkr]; [cbn in *; lia|done].
Qed.

Lemma accounting_above_gc ds1 ds2 :
  children_ok → (gc_round ds < round b)%N →
  ds_round_info ds1 = ds_round_info ds → gc_round ds1 = gc_round ds → ds_committee ds1 = c →
  update_round_info ds1 b = Done ds2 → ds_round_info ds' = ds_round_info ds2 → v3_ok ds'.
Proof.
  intros Hch Hhi Hi1 Hgc1 Hdc1 Hri Hi2.
  destruct (update_round_info_run ds1 b ds2) as (infos & n & info & agg & first & Hinfos & Hcont & Hfront & Hn & Hinfo & Hagg & Hds2).
  { rewrite Hi1. intros i x f. apply (vo_contiguous _ H3). }
  { rewrite Hi1, Hgc1. apply (vo_front _ H3). }
  { rewrite Hi1. intros x Hx. pose proof (vo_bound _ H3 x Hx). lia. }
  { by rewrite Hgc1. }
  { done. }
  { done. }
  rewrite Hi1 in Hinfos. rewrite Hgc1 in Hfront. rewrite Hdc1 in Hagg. rewrite Hds2 in Hi2.
  destruct (rounds_after infos n info agg first) as (Hb' & Hro' & Hbl' & Hst'); try done.
  split; rewrite ?Hgc; [intros; by eapply Hch|intros; by eapply Hch| | |done..].
  - rewrite Hi2. by eapply (contiguous_set infos n info).
  - intros f Hf. rewrite Hi2, head_lookup in Hf. cbn in Hf. destruct (decide (n = 0)) as [->|Hn0].
    + rewrite list_lookup_insert_eq in Hf by (by eapply lookup_lt_Some). injection Hf as <-. cbn. rewrite <- Hinfo.
      apply Hfront. by rewrite head_lookup.
    + rewrite list_lookup_insert_ne in Hf by done. apply Hfront. by rewrite head_lookup.
Qed.

End accept.

Lemma accept_block_cached ds b ds' :
  dag_ok ds → ref_ok (ds_committee ds) (reference b) → known ds (reference b) = false → accept_block ds b = Done ds' →
  cached ds' = <[reference b := b]> (cached ds).
Proof.
  intros Hok Href Hk Hrun. unfold accept_block in Hrun. apply bind_Done in Hrun as (u & _ & Hrun).
  rewrite contains_block_spec in Hrun by (done || apply Href). cbn [mbind outcome_bind] in Hrun. rewrite Hk in Hrun.
  apply bind_Done in Hrun as (au & _ & Hrun). apply bind_Done in Hrun as (u' & _ & Hrun).
  apply bind_Done in Hrun as (dsm & Hmeta & Hrun). invert_done.
  apply update_block_metadata_eqv in Hmeta as (refs & _ & Heqv%de_cached). unfold cached in *. cbn in *.
  by rewrite Heqv, fmap_insert.
Qed.

Lemma update_round_info_recent ds b ds' : update_round_info ds b = Done ds' → ds_recent_blocks ds' = ds_recent_blocks ds.
Proof.
  unfold update_round_info. case_decide; intros Hrun; [by invert_done|].
  apply bind_Done in Hrun as (u & _ & Hrun). apply bind_Done in Hrun as (front & _ & Hrun).
  apply bind_Done in Hrun as (info & _ & Hrun). apply bind_Done in Hrun as ([agg first] & _ & Hrun). by invert_done.
Qed.

(** Blocks in memory have their ancestors above the gc round in memory. *)
Definition causal ds : Prop :=
  ∀ r x a, cached ds !! r = Some x → a ∈ ancestors x → (gc_round ds < ref_round a)%N → a ∈ dom (cached ds).

Lemma accept_block_accounting ds b ds' :
  committee_ok c → ds_committee ds = c → dag_ok ds → causal ds → v3_ok ds →
  enable_v3 (protocol_config (ds_context ds)) = true →
  ref_ok c (reference b) → (∀ a, a ∈ ancestors b → (ref_round a < round b)%N) →
  (ds_highest_accepted_round ds + 1 < u32_modulus)%N → (round b + 1 < u32_modulus)%N →
  known ds (reference b) = false → accept_block ds b = Done ds' →
  v3_ok ds' ∧ gc_round ds' = gc_round ds ∧ cached ds' = <[reference b := b]> (cached ds) ∧
  ds_highest_accepted_round ds' = N.max (ds_highest_accepted_round ds) (round b).
Proof.
  intros Hc Hdc Hok Hcausal H3 Hv3 Href Hanc Hh Hw Hk Hrun.
  destruct (accept_block_ok ds b ds') as (Hok' & Hctx & Hlc & _); [done|by rewrite Hdc|done|].
  assert (gc_round ds' = gc_round ds) as Hgc.
  { unfold gc_round, calculate_gc_round, last_commit_round. by rewrite Hctx, Hlc. }
  destruct (accept_block_records ds b ds') as (ds0 & ds1 & ds2 & Hr0 & Hi0 & Hc0 & Hl0 & Hloop & Hri & Hr2 & Hi2 & Hhigh);
    [done|by rewrite Hdc|done..|].
  assert (gc_round ds0 = gc_round ds) as Hgc0.
  { unfold gc_round, calculate_gc_round, last_commit_round. by rewrite Hc0, Hl0. }
  assert (ds_committee ds0 = c) as Hdc0 by (unfold ds_committee; by rewrite Hc0).
  pose proof (accept_block_cached ds b ds' Hok ltac:(by rewrite Hdc) Hk Hrun) as Hcached. split; [|done].
  destruct (update_children_spec (reference b) (ancestors b) ds0 ds1 Hc Hdc0) as (m & Hds1 & _ & _); [apply Href| |done|].
  { intros a Ha%Hanc. lia. }
  assert (ds_round_info ds1 = ds_round_info ds) as Hi1 by (by rewrite Hds1).
  assert (gc_round ds1 = gc_round ds) as Hgc1 by (by rewrite Hds1).
  assert (ds_committee ds1 = c) as Hdc1 by (by rewrite Hds1).
  assert (ds_recent_blocks ds' = ds_recent_blocks ds1) as Hrec.
  { rewrite Hr2. by apply update_round_info_recent in Hri. }
  assert (children_ok ds ds') as Hch.
  { intros r i' Hi'. rewrite Hrec in Hi'. by eapply (children_after Hc ds ds' b). }
  destruct (decide (round b ≤ gc_round ds)%N) as [Hlow|Hhi].
  - eapply (accounting_below_gc ds ds' b); try done.
    unfold update_round_info in Hri. rewrite decide_True in Hri by lia. invert_done. congruence.
  - eapply (accounting_above_gc Hc ds ds' b); try done. lia.
Qed.

(** ** The other operations *)

#[export] Instance same_votes_refl : Reflexive same_votes.
Proof. by intros i. Qed.

(** A step that leaves the blocks, the rounds and the gc round alone. *)
Lemma quiet_frame ds ds' :
  ds_recent_blocks ds' = ds_recent_blocks ds → ds_round_info ds' = ds_round_info ds →
  ds_highest_accepted_round ds' = ds_highest_accepted_round ds → (gc_round ds ≤ gc_round ds')%N → quiet_step ds ds'.
Proof.
  intros Hr Hi Hh Hgc. split; [done|done| | |by left].
  - intros r i'. rewrite Hr. by exists i'.
  - intros r Hrc _. unfold cached in *. by rewrite Hr.
Qed.

(** Marks on blocks are not votes. *)
Lemma quiet_marks ds m :
  (∀ r i', m !! r = Some i' → ∃ i, ds_recent_blocks ds !! r = Some i ∧ same_votes i i') →
  bi_block <$> m = cached ds → quiet_step ds (set_recent_blocks m ds).
Proof.
  intros Hm Hc. split; [done|done|done| |by left]. intros r Hr _. change (r ∈ dom (bi_block <$> m)). by rewrite Hc.
Qed.

Lemma link_loop_votes gc fuel recent linked targets recent' linked' :
  link_loop gc fuel recent linked targets = Done (recent', linked') →
  ∀ r i', recent' !! r = Some i' → ∃ i, recent !! r = Some i ∧ same_votes i i'.
Proof.
  revert recent linked targets. induction fuel as [|fuel IH]; intros recent linked [|t targets]; cbn;
    try (intros Hrun; invert_done; intros r i' Hi; by exists i').
  case_decide; [apply IH|]. intros Hrun. invert_done. destruct (bi_included x); [by eapply IH|].
  intros r i' Hi'. destruct (IH _ _ _ Hrun r i' Hi') as (i & Hi & Hs).
  apply lookup_insert_Some in Hi as [[<- <-]|[_ Hi]]; [|by exists i]. by exists x.
Qed.

Lemma evict_loop_sub e l recent refs : (evict_loop e l recent refs).1 ⊆ recent.
Proof.
  revert recent refs. induction l as [|r l IH]; intros recent refs; cbn; [done|]. case_decide; [|done].
  etrans; [apply IH|apply delete_subseteq].
Qed.

Lemma flush_records ds ds' :
  flush ds = Done ds' → ds_recent_blocks ds' ⊆ ds_recent_blocks ds ∧
    ds_highest_accepted_round ds' = ds_highest_accepted_round ds ∧
    (ds_round_info ds' = ds_round_info ds ∨ ds_round_info ds' = pop_round_infos (gc_round ds') (ds_round_info ds)).
Proof.
  assert (∀ (d : DagState S) s (d' : DagState S), (ds ← for_each evict_authority (set_store s d) (map fst (authorities_iter (ds_committee (set_store s d))));
      Done (set_round_info (pop_round_infos (gc_round ds) (ds_round_info ds)) ds)) = Done d' →
    ds_recent_blocks d' ⊆ ds_recent_blocks d ∧ ds_highest_accepted_round d' = ds_highest_accepted_round d ∧
    ds_round_info d' = pop_round_infos (gc_round d') (ds_round_info d)) as Hevict.
  { intros d s d' Hrun. apply bind_Done in Hrun as (d1 & Hloop & Hrun). invert_done. cbn.
    assert (ds_recent_blocks d1 ⊆ ds_recent_blocks d ∧ ds_highest_accepted_round d1 = ds_highest_accepted_round d ∧
      ds_round_info d1 = ds_round_info d) as (Hr & Hh & ->); [|done].
    eapply (for_each_inv (λ x : DagState S, ds_recent_blocks x ⊆ ds_recent_blocks d ∧
      ds_highest_accepted_round x = ds_highest_accepted_round d ∧ ds_round_info x = ds_round_info d) _ (set_store s d)); [done| |exact Hloop].
    intros x a y _ (Hr & Hh & Hi) Hstep. unfold evict_authority in Hstep.
    apply bind_Done in Hstep as (e & _ & Hstep). apply bind_Done in Hstep as (refs & _ & Hstep).
    pose proof (evict_loop_sub e (refs_in_order refs) (ds_recent_blocks x) refs) as Hsub.
    destruct (evict_loop _ _ _ _) as [m refs']. invert_done. cbn. split_and!; [by etrans|done|done]. }
  unfold flush. intros Hrun.
  destruct (ds_blocks_to_write ds), (ds_commits_to_write ds), (ds_commit_info_to_write ds), (ds_finalized_commits_to_write ds);
    [by invert_done; split_and!; [done|done|left]|..];
    apply bind_Done in Hrun as (s & _ & Hrun); destruct (Hevict _ _ _ Hrun) as (Hr & Hh & Hi);
    (split_and!; [exact Hr|exact Hh|right; exact Hi]).
Qed.

Lemma dag_step_quiet ds ds' : dag_step ds ds' → dag_ok ds → accepted ds' = accepted ds → quiet_step ds ds'.
Proof.
  intros Hstep Hok Hacc. destruct (dag_step_frame ds ds' Hstep Hok) as (_ & _ & Hgc).
  destruct Hstep as [ds b ds' Href Hrun|ds commit ds' Hle Hrun|ds r ds' first Hrun|ds r ds' l Hrun
    |ds subdags ds' Hrun|ds|ds scores ds' Hrun|ds r rejected|ds limit|ds commits|ds ds' Hrun].
  - destruct (accept_block_ok ds b ds' Hok Href Hrun) as (_ & _ & _ & Hacc').
    destruct (known ds (reference b)) eqn:Hk.
    + unfold accept_block in Hrun. apply bind_Done in Hrun as (u & _ & Hrun).
      rewrite contains_block_spec in Hrun by (done || apply Href). cbn [mbind outcome_bind] in Hrun.
      rewrite Hk in Hrun. invert_done. by apply quiet_frame.
    + apply known_false in Hk as [Hn1 Hn2]. exfalso. rewrite Hacc in Hacc'.
      assert (reference b ∈ dom (accepted ds)) as Hin by (rewrite Hacc'; set_solver).
      apply elem_of_accepted in Hin. tauto.
  - unfold add_commit in Hrun. apply bind_Done in Hrun as (proceed & Hchk & Hrun).
    destruct proceed; invert_done; by apply quiet_frame.
  - pose proof (set_committed_eqv _ _ _ _ Hrun) as Heqv%de_cached. unfold set_committed in Hrun.
    apply bind_Done in Hrun as (i & Hi%unwrap_Done & Hrun). destruct (bi_committed i); invert_done; [by apply quiet_frame|].
    apply quiet_marks; [|exact Heqv]. intros k i' [[<- <-]|[_ Hk]]%lookup_insert_Some; [by exists i|by exists i'].
  - unfold link_causal_history in Hrun. apply bind_Done in Hrun as ([m l'] & Hloop & Hrun). invert_done.
    apply quiet_marks; [by eapply link_loop_votes|by eapply link_loop_blocks].
  - unfold add_scoring_subdags in Hrun. invert_done. by apply quiet_frame.
  - by apply quiet_frame.
  - unfold add_commit_info in Hrun. invert_done. by apply quiet_frame.
  - by apply quiet_frame.
  - unfold take_commit_votes in *. destruct (take_votes _ _ _). by apply quiet_frame.
  - by apply quiet_frame.
  - destruct (flush_records ds ds' Hrun) as (Hr & Hh & Hi). destruct (flush_ok ds Hok) as (ds1 & Hrun1 & Hfl).
    assert (ds1 = ds') as -> by congruence. split; [done|done| |intros r Hrc Hgr; apply (fl_cached _ _ Hfl); [done|lia]|done].
    intros r i' Hi'. exists i'. split; [by eapply lookup_weaken|done].
Qed.

(** ** Reachable states *)

(** Operations of the dag state when blocks are accepted after their ancestors, as
    the block manager does. *)
Inductive accounting_step : DagState S → DagState S → Prop :=
  | accounting_accept ds b ds' :
      ref_ok (ds_committee ds) (reference b) → (round b + 1 < u32_modulus)%N →
      (∀ a, a ∈ ancestors b → (ref_round a < round b)%N ∧ ((gc_round ds < ref_round a)%N → a ∈ dom (cached ds))) →
      accept_block ds b = Done ds' → accounting_step ds ds'
  | accounting_other ds ds' : dag_step ds ds' → accepted ds' = accepted ds → accounting_step ds ds'.

Record accounting_ok ds : Prop := {
  ac_ok : dag_ok ds;
  ac_committee : ds_committee ds = c;
  ac_v3 : enable_v3 (protocol_config (ds_context ds)) = true;
  ac_causal : causal ds;
  ac_records : v3_ok ds;
  ac_rounds : (ds_highest_accepted_round ds + 1 < u32_modulus)%N;
}.

Lemma quiet_accounting ds ds' :
  quiet_step ds ds' → dag_ok ds' → ds_context ds' = ds_context ds → accounting_ok ds → accounting_ok ds'.
Proof.
  intros Hq Hok' Hctx [Hok Hc Hv3 Hcausal Hrec Hr].
  split; [done|unfold ds_committee; by rewrite Hctx|by rewrite Hctx| |by eapply quiet_step_ok|by rewrite (qs_highest _ _ Hq)].
  intros r x a Hx Ha Hgr. pose proof (qs_gc _ _ Hq). apply (qs_cached _ _ Hq); [|done].
  apply (Hcausal r x); [|done|lia]. rewrite cached_lookup in Hx. apply fmap_Some in Hx as (i' & Hi' & ->).
  destruct (qs_recent _ _ Hq r i' Hi') as (i & Hi & -> & _). by rewrite cached_lookup, Hi.
Qed.

Lemma accounting_step_ok ds ds' : committee_ok c → accounting_step ds ds' → accounting_ok ds → accounting_ok ds'.
Proof.
  intros Hc Hstep Hac. pose proof (ac_ok _ Hac) as Hok. pose proof (ac_committee _ Hac) as Hdc.
  destruct Hstep as [ds b ds' Href Hw Hanc Hrun|ds ds' Hstep Hacc].
  - assert (dag_step ds ds') as Hstep by (by eapply step_accept).
    destruct (accept_block_ok ds b ds' Hok Href Hrun) as (Hok' & Hctx & _ & Hacc).
    destruct (known ds (reference b)) eqn:Hk; [eapply quiet_accounting; [by apply dag_step_quiet|done..]|].
    destruct (accept_block_accounting ds b ds') as (H3 & Hgc & Hcached & Hhigh); try done; try apply Hac.
    { by rewrite <- Hdc. }
    { intros a Ha. by apply Hanc. }
    split; [done|unfold ds_committee; by rewrite Hctx|rewrite Hctx; apply Hac| |done|rewrite Hhigh; pose proof (ac_rounds _ Hac); lia].
    intros r x a. rewrite Hcached, Hgc, dom_insert_L. intros [[<- <-]|[_ Hx]]%lookup_insert_Some Ha Hgr; apply elem_of_union; right.
    + by apply Hanc.
    + by eapply (ac_causal _ Hac r x).
  - destruct (dag_step_frame ds ds' Hstep Hok) as (Hctx & _). destruct (dag_step_ok ds ds' Hstep Hok) as [Hok' _].
    eapply quiet_accounting; [by apply dag_step_quiet|done..].
Qed.

Lemma accounting_steps_ok ds ds' : committee_ok c → rtc accounting_step ds ds' → accounting_ok ds → accounting_ok ds'.
Proof. intros Hc. induction 1; eauto using accounting_step_ok. Qed.

(** Accepting a list of blocks in causal order, as a check that can be run. *)
Fixpoint causal_run ds (blocks : list VerifiedBlock) : bool :=
  match blocks with
  | [] => true
  | b :: blocks =>
      bool_decide (author b < Committee_size (ds_committee ds) ∧ round b ≠ 0 ∧ digest b ≤ BlockDigest_MAX ∧
        round b + 1 < u32_modulus)%N &&
      forallb (λ a, bool_decide (ref_round a < round b)%N &&
        (bool_decide (ref_round a ≤ gc_round ds)%N || bool_decide (a ∈ dom (cached ds)))) (ancestors b) &&
      match accept_block ds b with Done ds => causal_run ds blocks | _ => false end
  end.

Lemma causal_run_steps ds blocks ds' :
  causal_run ds blocks = true → for_each accept_block ds blocks = Done ds' → rtc accounting_step ds ds'.
Proof.
  revert ds. induction blocks as [|b blocks IH]; intros ds; cbn [causal_run for_each]; [intros _ [= ->]; apply rtc_refl|].
  rewrite !andb_true_iff, bool_decide_eq_true, forallb_forall. intros [[(Ha & Hr & Hd & Hw) Hanc] Hrest] Hrun.
  destruct (accept_block ds b) as [ds1| |] eqn:Hb; [|done..]. apply (rtc_l _ _ ds1); [|by apply IH].
  apply (accounting_accept ds b ds1); [by split|done| |done]. intros a Hin%list_elem_of_In.
  specialize (Hanc a Hin). rewrite andb_true_iff, orb_true_iff, !bool_decide_eq_true in Hanc.
  destruct Hanc as [Hlt Hor]. split; [done|]. intros Hgr. destruct Hor; [lia|done].
Qed.

End accounting.

(** A fresh node records nothing. *)
Lemma empty_accounting_ok `{BlockCodec} ctx ds :
  context_ok ctx → (∀ sb, is_Some (bcs_signed_block sb)) → enable_v3 (protocol_config ctx) = true →
  DagState_new ctx MemStore.new = Done ds → accounting_ok (committee ctx) ds.
Proof.
  intros Hctx Henc Hv3 Hnew. destruct (genesis_blocks_spec ctx Henc) as (l & Hl & Hg & Hall).
  rewrite (DagState_new_empty ctx l Hl) in Hnew. injection Hnew as <-.
  assert (cached (empty_dag_state ctx l) = ∅) as Hcached by apply fmap_empty.
  split; [by apply empty_dag_state_ok|done|done| | |done].
  - intros r x a. by rewrite Hcached, lookup_empty.
  - split; rewrite ?Hcached; cbn; try done; intros *; (by rewrite lookup_empty || set_solver).
Qed.

(** ** Properties *)

(** C26: exact vote accounting. In every state that a fresh node with commit rule v3
    enabled reaches, by accepting blocks after their ancestors and by any other
    operation of the dag state (commits, marks, scores, votes taken, flushes with
    eviction), the records that the v3 decider reads are exact above the gc
    round: the children of a block in memory are the blocks of the next round
    that include it, the round infos are consecutive and list the blocks of their
    round, and each stake aggregator holds the stake of the authors of the
    recorded blocks, counted once. *)
Theorem vote_accounting_exact `{BlockCodec} ctx ds0 ds :
  context_ok ctx → (∀ sb, is_Some (bcs_signed_block sb)) → enable_v3 (protocol_config ctx) = true →
  DagState_new ctx MemStore.new = Done ds0 → rtc accounting_step ds0 ds →
  v3_ok (committee ctx) ds ∧ causal ds.
Proof.
  intros Hctx Henc Hv3 Hnew Hsteps.
  destruct (accounting_steps_ok (committee ctx) ds0 ds) as [_ _ _ Hcausal Hok _]; [apply Hctx|done|by apply empty_accounting_ok|].
  done.
Qed.

(** ** A concrete network for commit rule v3

    Six authorities with one faulty stake: a quorum is five of them and three
    certify. Authority 4 makes no block at round 2, and authority 5 makes two at
    round 1. *)
Definition committee_6 : Committee :=
  mkCommittee 0 (replicate 6 (mkAuthority 1 "host" [])) 6 5 3 2.

Definition v3_context : Context :=
  Context_new 0 (Some 0%N) committee_6 sample_parameters
    (mkProtocolConfig 1000 10000 100 1 true (Some 1%N) 20 true 600 60).

Definition v3_round_refs (r : N) : list BlockRef :=
  if decide (r = 0)%N then (λ a, mkBlockRef 0 a 7) <$> [0; 1; 2; 3; 4; 5]%N
  else if decide (r = 2)%N then (λ a, mkBlockRef r a (10 * r + a)) <$> [0; 1; 2; 3; 5]%N
  else (λ a, mkBlockRef r a (10 * r + a)) <$> [0; 1; 2; 3; 4; 5]%N.

Definition v3_block (r : BlockRef) : VerifiedBlock :=
  sample_block (ref_round r) (ref_author r) (ref_digest r) (v3_round_refs (ref_round r - 1)).

Definition v3_start : DagState MemStore.Inner :=
  from_done (empty_dag_state v3_context []) (DagState_new v3_context MemStore.new).

Definition v3_node (refs : list BlockRef) : DagState MemStore.Inner :=
  from_done v3_start (for_each accept_block v3_start (v3_block <$> refs)).

(** One node has the rounds up to 3; the other has round 4 as well, and the second
    block of authority 5. *)
Definition v3_refs_1 : list BlockRef := r ← [1; 2; 3]%N; v3_round_refs r.
Definition v3_refs_2 : list BlockRef := mkBlockRef 1 5 99 :: (r ← [1; 2; 3; 4]%N; v3_round_refs r).
Definition v3_node_1 := v3_node v3_refs_1.
Definition v3_node_2 := v3_node v3_refs_2.

Lemma committee_6_ok : committee_ok committee_6.
Proof. by split. Qed.

Lemma v3_context_ok : context_ok v3_context.
Proof. split; [exact committee_6_ok|reflexivity]. Qed.

Lemma v3_start_new : DagState_new v3_context MemStore.new = Done v3_start.
Proof. vm_compute. reflexivity. Qed.

Lemma v3_nodes_run :
  for_each accept_block v3_start (v3_block <$> v3_refs_1) = Done v3_node_1 ∧
  for_each accept_block v3_start (v3_block <$> v3_refs_2) = Done v3_node_2.
Proof. split; vm_compute; reflexivity. Qed.

Lemma v3_nodes_reached : rtc accounting_step v3_start v3_node_1 ∧ rtc accounting_step v3_start v3_node_2.
Proof.
  split.
  - apply (causal_run_steps v3_start (v3_block <$> v3_refs_1)); [vm_compute; reflexivity|apply v3_nodes_run].
  - apply (causal_run_steps v3_start (v3_block <$> v3_refs_2)); [vm_compute; reflexivity|apply v3_nodes_run].
Qed.

Lemma vote_accounting_exact_witness :
  v3_ok committee_6 v3_node_2 ∧ (size (ds_recent_blocks v3_node_2) = 24) ∧
  map (λ x, size (ri_blocks x)) (ds_round_info v3_node_2) = [7; 5; 6; 6].
Proof.
  split; [|vm_compute; done].
  apply (vote_accounting_exact v3_context v3_start v3_node_2); [exact v3_context_ok|by eexists|reflexivity
    |exact v3_start_new|exact (proj2 v3_nodes_reached)].
Defined.
