(* ===== verification/LeaderSlotSpec.v ===== *)
(** * Safety of commit rule v3

    The decider of commit rule v3 computes facts about block contents, and these
    facts exclude each other: what one node commits or skips directly, every
    node that decides the slot from an anchor commits or skips as well. *)

From S2P Require Import Prelude Committee Block StakeAggregator ThresholdClock Commit Store LeaderScoring.
From S2P Require Import DagState DagInvariant DagDurability LeaderSchedule BaseCommitter UniversalCommitter CausalHistory.
From S2P Require Import CommitRules CommitSafety LeaderSlotDecider VoteAccounting.

(** ** Direct decisions *)
Section facts.
Context (c : Committee) (U : gmap BlockRef VerifiedBlock).

(** A quorum of blocks of the next round that include [L], or that do not. *)
Definition commit_quorum (L : BlockRef) : Prop :=
  ∃ Q, (quorum_threshold c ≤ set_stake c Q)%N ∧ ∀ a, a ∈ Q → ∃ k, votes_for U L k = true ∧ ref_author k = a.

Definition reject_quorum (L : BlockRef) : Prop :=
  ∃ Q, (quorum_threshold c ≤ set_stake c Q)%N ∧ ∀ a, a ∈ Q →
    ∃ k b, U !! k = Some b ∧ ref_round k = (ref_round L + 1)%N ∧ (L ∉ ancestors b) ∧ ref_author k = a.

(** Certification-threshold stake of votes for [L] among the references [X]. *)
Definition certified_in (X : BlockRef → Prop) (L : BlockRef) : Prop :=
  ∃ Q, (certification_threshold c ≤ set_stake c Q)%N ∧ ∀ a, a ∈ Q → ∃ k, X k ∧ votes_for U L k = true ∧ ref_author k = a.

(** What the direct rule may answer. *)
Definition direct_status (B : gmap BlockRef VerifiedBlock) (slot : Slot) (st : LeaderStatus) : Prop :=
  match st with
  | LCommit b => B !! reference b = Some b ∧ Slot_from (reference b) = slot ∧ commit_quorum (reference b)
  | LSkip s => s = slot ∧ ∀ L, Slot_from L = slot → reject_quorum L
  | LUndecided s => s = slot
  end.

(** What the indirect rule answers for the voters [X]: the only certified block of
    the slot, if there is exactly one. *)
Definition indirect_status (X : BlockRef → Prop) (slot : Slot) (st : LeaderStatus) : Prop :=
  match st with
  | LCommit b => U !! reference b = Some b ∧ Slot_from (reference b) = slot ∧ certified_in X (reference b) ∧
      ∀ L, Slot_from L = slot → certified_in X L → L = reference b
  | LSkip s => s = slot ∧ ∀ L, Slot_from L = slot → certified_in X L →
      ∃ L', L' ≠ L ∧ Slot_from L' = slot ∧ certified_in X L'
  | LUndecided _ => False
  end.

End facts.

(** ** Decisions exclude each other

    The thresholds of the v3 committee: a quorum and a certification threshold
    share more than [f] stake, and what two quorums share beyond [f] is enough
    to certify. *)
Section network.
Context (c : Committee) (f : N) (byz : gset N) (U : gmap BlockRef VerifiedBlock).
Context (Hnw : network c f byz U).
Context (Hcert : (total_stake c + f < certification_threshold c + quorum_threshold c)%N).
Context (Hquorum : (total_stake c + f + certification_threshold c ≤ 2 * quorum_threshold c)%N).

Lemma votes_for_dom L k : votes_for U L k = true → k ∈ dom U.
Proof. intros (v & Hv & _)%votes_for_true. by eapply elem_of_dom_2. Qed.

(** Votes of a non-faulty authority for a slot are for the same block. *)
Lemma honest_votes L L' k k' :
  votes_for U L k = true → votes_for U L' k' = true → Slot_from L = Slot_from L' →
  ref_author k = ref_author k' → ref_author k ∉ byz → L = L'.
Proof using Hnw Hcert Hquorum.
  intros (v & Hv & Hr & HL)%votes_for_true (v' & Hv' & Hr' & HL')%votes_for_true [Hsr Hsa]%Slot_from_eq Ha Hnb.
  cbn in Hsr, Hsa.
  assert (k = k') as <- by (apply (nw_honest _ _ _ _ Hnw); [by eapply elem_of_dom_2..|done|done|lia]).
  simplify_eq. eapply vb_ancestor_inj; [by eapply (nw_valid _ _ _ _ Hnw)|done|done|done].
Qed.

Lemma commit_common q q' Q Q' :
  (q ≤ set_stake c Q)%N → (q' ≤ set_stake c Q')%N → (total_stake c + f < q + q')%N → ∃ a, a ∈ Q ∧ a ∈ Q' ∧ a ∉ byz.
Proof using Hnw Hcert Hquorum.
  intros HQ HQ' Hsum. eapply stake_intersection; [done|done|].
  pose proof (co_total _ (nw_committee _ _ _ _ Hnw)). pose proof (nw_byz _ _ _ _ Hnw). lia.
Qed.

Lemma commit_certified X L L' :
  commit_quorum c U L → certified_in c U X L' → Slot_from L = Slot_from L' → L = L'.
Proof using Hnw Hcert Hquorum.
  intros (Q & HQ & HL) (Q' & HQ' & HL') Hs.
  destruct (commit_common _ _ Q Q' HQ HQ') as (a & Ha & Ha' & Hnb); [lia|].
  destruct (HL a Ha) as (k & Hk & Hka). destruct (HL' a Ha') as (k' & _ & Hk' & Hka').
  eapply (honest_votes L L' k k'); [done|done|done|congruence|congruence].
Qed.

Lemma commit_unique L L' :
  commit_quorum c U L → commit_quorum c U L' → Slot_from L = Slot_from L' → L = L'.
Proof using Hnw Hcert Hquorum.
  intros (Q & HQ & HL) (Q' & HQ' & HL') Hs. destruct (nw_quorums _ _ _ _ Hnw) as [Hi _].
  destruct (commit_common _ _ Q Q' HQ HQ') as (a & Ha & Ha' & Hnb); [lia|].
  destruct (HL a Ha) as (k & Hk & Hka). destruct (HL' a Ha') as (k' & Hk' & Hka').
  eapply (honest_votes L L' k k'); [done|done|done|congruence|congruence].
Qed.

(** A non-faulty authority does not vote for a block and against it. *)
Lemma honest_reject L k k' b :
  votes_for U L k = true → U !! k' = Some b → ref_round k' = (ref_round L + 1)%N → L ∉ ancestors b →
  ref_author k = ref_author k' → ref_author k ∉ byz → False.
Proof using Hnw Hcert Hquorum.
  intros (v & Hv & Hr & HL)%votes_for_true Hb Hr' Hn Ha Hnb.
  assert (k = k') as <- by (apply (nw_honest _ _ _ _ Hnw); [by eapply elem_of_dom_2..|done|done|lia]).
  by simplify_eq.
Qed.

Lemma reject_certified X L : reject_quorum c U L → certified_in c U X L → False.
Proof using Hnw Hcert Hquorum.
  intros (Q & HQ & HL) (Q' & HQ' & HL').
  destruct (commit_common _ _ Q Q' HQ HQ') as (a & Ha & Ha' & Hnb); [lia|].
  destruct (HL a Ha) as (k & b & Hb & Hr & Hn & Hka). destruct (HL' a Ha') as (k' & _ & Hk' & Hka').
  eapply (honest_reject L k' k b); [done|done|done|done|congruence|congruence].
Qed.

Lemma reject_commit L : reject_quorum c U L → commit_quorum c U L → False.
Proof using Hnw Hcert Hquorum.
  intros (Q & HQ & HL) (Q' & HQ' & HL'). destruct (nw_quorums _ _ _ _ Hnw) as [Hi _].
  destruct (commit_common _ _ Q Q' HQ HQ') as (a & Ha & Ha' & Hnb); [lia|].
  destruct (HL a Ha) as (k & b & Hb & Hr & Hn & Hka). destruct (HL' a Ha') as (k' & Hk' & Hka').
  eapply (honest_reject L k' k b); [done|done|done|done|congruence|congruence].
Qed.

(** A quorum of references of round [r] among [X]. *)
Definition quorum_at (X : BlockRef → Prop) (r : N) : Prop :=
  ∃ P, (quorum_threshold c ≤ set_stake c P)%N ∧ ∀ a, a ∈ P → ∃ k, X k ∧ k ∈ dom U ∧ ref_round k = r ∧ ref_author k = a.

(** Whoever sees a quorum of the voting round sees a certificate for a block that
    was committed directly. *)
Lemma commit_is_certified X L : commit_quorum c U L → quorum_at X (ref_round L + 1) → certified_in c U X L.
Proof using Hnw Hcert Hquorum.
  intros (Q & HQ & HL) (P & HP & HX). exists ((Q ∩ P) ∖ byz). split.
  - pose proof (set_sum_union_inter (stake_of c) Q P) as Hui. pose proof (set_stake_le_total c (Q ∪ P)) as Htot.
    pose proof (set_sum_split (stake_of c) (Q ∩ P) byz) as Hsplit.
    pose proof (set_sum_mono (stake_of c) ((Q ∩ P) ∩ byz) byz ltac:(set_solver)) as Hmono.
    pose proof (co_total _ (nw_committee _ _ _ _ Hnw)). pose proof (nw_byz _ _ _ _ Hnw).
    unfold set_stake in *. lia.
  - intros a Ha. destruct (HL a) as (k & Hk & Hka); [set_solver|].
    destruct (HX a) as (k' & Hk' & Hd & Hr & Hka'); [set_solver|]. exists k'. split; [done|]. split; [|done].
    assert (k = k') as <-; [|done]. pose proof Hk as (v & Hv & Hrv & _)%votes_for_true.
    apply (nw_honest _ _ _ _ Hnw); [by eapply votes_for_dom|done|congruence|set_solver|lia].
Qed.

(** The direct decision of one node and the indirect decision of another. *)
Lemma direct_indirect_agree B X slot st st' :
  B ⊆ U → direct_status c U B slot st → indirect_status c U X slot st' → quorum_at X (slot_round slot + 1) →
  match st with LUndecided _ => True | _ => st' = st end.
Proof using Hnw Hcert Hquorum.
  intros HB Hst Hst' HX. destruct st as [b|s|s]; [| |done].
  - destruct Hst as (HbB & Hs & Hcq). eapply lookup_weaken in HbB; [|done].
    assert (certified_in c U X (reference b)) as Hb.
    { apply commit_is_certified; [done|]. by rewrite <- Hs in HX. }
    destruct st' as [b'|s'|s']; [| |done].
    + destruct Hst' as (Hb' & Hs' & _ & Huniq). rewrite <- (Huniq (reference b)) in Hb' by done. congruence.
    + destruct Hst' as (_ & Hno). destruct (Hno _ Hs Hb) as (L' & Hne & HsL & HcL). destruct Hne. symmetry.
      apply (commit_certified X); [done|done|congruence].
  - destruct Hst as (-> & Hrej). destruct st' as [b'|s'|s']; [| |done].
    + destruct Hst' as (_ & Hs' & Hc' & _). by destruct (reject_certified X (reference b') (Hrej _ Hs') Hc').
    + by destruct Hst' as [-> _].
Qed.

Lemma direct_direct_agree B B' slot st st' :
  B ⊆ U → B' ⊆ U → direct_status c U B slot st → direct_status c U B' slot st' →
  LeaderStatus_is_decided st = true → LeaderStatus_is_decided st' = true → st = st'.
Proof using Hnw Hcert Hquorum.
  intros HB HB' Hst Hst' Hd Hd'. destruct st as [b|s|s], st' as [b'|s'|s']; try done.
  - destruct Hst as (Hb & Hs & Hcq), Hst' as (Hb' & Hs' & Hcq'). eapply lookup_weaken in Hb, Hb'; [|done..].
    assert (reference b = reference b') as Heq by (apply commit_unique; [done|done|congruence]). congruence.
  - destruct Hst as (_ & Hs & Hcq), Hst' as (_ & Hrej). by destruct (reject_commit (reference b) (Hrej _ Hs) Hcq).
  - destruct Hst as (_ & Hrej), Hst' as (_ & Hs & Hcq). by destruct (reject_commit (reference b') (Hrej _ Hs) Hcq).
  - destruct Hst as [-> _], Hst' as [-> _]. done.
Qed.

End network.

(** ** The search from the anchor *)
Section search.
Context {S : Type} `{StoreLaws S}.
Context (c : Committee) (Hc : committee_ok c) (ds : DagState S) (Hv : dag_view c ds).
Context (dr : N) (Hgc : (gc_round ds < dr)%N) (Hw : (dr + 1 < u32_modulus)%N).
Context (D : gset BlockRef) (HD : ∀ L, L ∈ D → ref_round L = dr).
Abbreviation tally := (gmap BlockRef (StakeAggregator CertificationThreshold)).
Implicit Types (X : gset BlockRef) (t : tally) (q : list VerifiedBlock).

(** The votes of a decision block. *)
Definition tally_of t (L : BlockRef) : StakeAggregator CertificationThreshold := default StakeAggregator_new (t !! L).

Definition tally_ok t : Prop := dom t ⊆ D ∧ ∀ L, agg_ok c (tally_of t L).

Lemma tally_insert t L agg : tally_ok t → L ∈ D → agg_ok c agg → tally_ok (<[L := agg]> t).
Proof.
  intros [Hd Hok] HL Ha. split; [set_solver|]. intros L'. unfold tally_of. destruct (decide (L = L')) as [<-|Hne].
  - by rewrite lookup_insert_eq.
  - rewrite lookup_insert_ne by done. apply Hok.
Qed.

(** The blocks of a queue are cached and different. *)
Definition queue_ok q : Prop := Forall (λ b, cached ds !! reference b = Some b) q ∧ NoDup (reference <$> q).

(** One ancestor: it is queued if it is above the decision round and not visited. *)
Lemma queue_ancestor_spec q X a :
  ((dr < ref_round a)%N → a ∈ dom (cached ds)) →
  ∃ new X', (if decide (dr < ref_round a ∧ a ∉ X)%N then
      o ← get_block ds a; ancestor_block ← unwrap o; Done (q ++ [ancestor_block], {[a]} ∪ X)
    else Done (q, X)) = Done (q ++ new, X') ∧ queue_ok new ∧
    (∀ r, r ∈ reference <$> new ↔ r ∈ X' ∧ r ∉ X) ∧ (∀ r, r ∈ X' ↔ r ∈ X ∨ (r = a ∧ (dr < ref_round r)%N)).
Proof.
  intros Ha. destruct (decide (dr < ref_round a ∧ a ∉ X)%N) as [[Hr HaX]|Hno].
  - pose proof (Ha Hr) as [ab Hab]%elem_of_dom. rewrite (dv_get_block c ds a ab Hv Hab). cbn [mbind outcome_bind unwrap].
    assert (reference ab = a) as Href by (by eapply dv_reference). exists [ab], ({[a]} ∪ X). split_and!; [done| | |].
    + split; [constructor; [by rewrite Href|done]|cbn; apply NoDup_singleton].
    + intros r. cbn. rewrite Href. set_solver.
    + intros r. rewrite elem_of_union, elem_of_singleton. split; [intros [->|?]; auto|]. intros [?|[-> ?]]; auto.
  - exists [], X. rewrite app_nil_r. split_and!; [done|split; constructor|set_solver|]. intros r. split; [auto|].
    intros [?|[-> ?]]; [done|]. destruct (decide (a ∈ X)); [done|]. by destruct Hno.
Qed.

(** ... and it gets the vote of the block if it is a decision block. *)
Lemma vote_ancestor_spec b q X t a :
  (author b < Committee_size c)%N → tally_ok t →
  ∃ t', (if decide (a ∈ D ∧ round b = (dr + 1)%N) then
      '(commit_stake, _) ← agg_add_unique (default StakeAggregator_new (t !! a)) (author b) c;
      Done (q, X, <[a := commit_stake]> t)
    else Done (q, X, t)) = Done (q, X, t') ∧ tally_ok t' ∧
    ∀ L i, L ∈ D → i ∈ votes (tally_of t' L) ↔
      i ∈ votes (tally_of t L) ∨ (L = a ∧ round b = (dr + 1)%N ∧ i = author b).
Proof.
  intros Hb Ht. destruct (decide (a ∈ D ∧ round b = (dr + 1)%N)) as [[HaD Hr]|Hno].
  - destruct (agg_add_unique_spec c Hc (tally_of t a) (author b)) as (agg & Hrun & Hagg & Hva); [apply Ht|done|].
    unfold tally_of in Hrun. rewrite Hrun. run_bind. eexists. split; [done|].
    split; [by apply tally_insert|]. intros L i HL. unfold tally_of at 1. destruct (decide (a = L)) as [->|Hne].
    + rewrite lookup_insert_eq. cbn. rewrite Hva, elem_of_union, elem_of_singleton. tauto.
    + rewrite lookup_insert_ne by done. unfold tally_of. split; [by left|]. intros [?|(-> & _)]; done.
  - exists t. split_and!; [done|done|]. intros L i HL. split; [by left|]. intros [?|(-> & ? & _)]; [done|]. by destruct Hno.
Qed.

Lemma visit_ancestor_spec b q X t a :
  (author b < Committee_size c)%N → ((dr < ref_round a)%N → a ∈ dom (cached ds)) → tally_ok t →
  ∃ new X' t', visit_ancestor ds c dr D b (q, X, t) a = Done (q ++ new, X', t') ∧
    queue_ok new ∧ (∀ r, r ∈ reference <$> new ↔ r ∈ X' ∧ r ∉ X) ∧
    (∀ r, r ∈ X' ↔ r ∈ X ∨ (r = a ∧ (dr < ref_round r)%N)) ∧ tally_ok t' ∧
    (∀ L i, L ∈ D → i ∈ votes (tally_of t' L) ↔
      i ∈ votes (tally_of t L) ∨ (L = a ∧ round b = (dr + 1)%N ∧ i = author b)).
Proof.
  intros Hb Ha Ht. unfold visit_ancestor. rewrite wrap_add_small by done.
  destruct (queue_ancestor_spec q X a Ha) as (new & X1 & -> & Hnew & Hnewr & HX1). run_bind.
  destruct (vote_ancestor_spec b (q ++ new) X1 t a Hb Ht) as (t1 & -> & Ht1 & Hvt1).
  by exists new, X1, t1.
Qed.

(** All the ancestors of a block. *)
Lemma visit_ancestors_spec b l q X t :
  (author b < Committee_size c)%N → (∀ a, a ∈ l → (dr < ref_round a)%N → a ∈ dom (cached ds)) → tally_ok t →
  ∃ new X' t', for_each (visit_ancestor ds c dr D b) (q, X, t) l = Done (q ++ new, X', t') ∧
    queue_ok new ∧ (∀ r, r ∈ reference <$> new ↔ r ∈ X' ∧ r ∉ X) ∧
    (∀ r, r ∈ X' ↔ r ∈ X ∨ (r ∈ l ∧ (dr < ref_round r)%N)) ∧ tally_ok t' ∧
    (∀ L i, L ∈ D → i ∈ votes (tally_of t' L) ↔
      i ∈ votes (tally_of t L) ∨ (L ∈ l ∧ round b = (dr + 1)%N ∧ i = author b)).
Proof.
  intros Hb. revert q X t. induction l as [|a l IH]; intros q X t Hl Ht; cbn [for_each].
  { exists [], X, t. rewrite app_nil_r. split_and!; [done|split; constructor|set_solver|set_solver|done|].
    intros L i _. rewrite elem_of_nil. tauto. }
  destruct (visit_ancestor_spec b q X t a Hb) as (new & X1 & t1 & -> & Hnew & Hnewr & HX1 & Ht1 & Hvt1);
    [apply Hl, list_elem_of_here|done|]. run_bind.
  destruct (IH (q ++ new) X1 t1) as (new2 & X2 & t2 & Hrun & Hq2 & Hnew2 & HX2 & Ht2 & Hvt2).
  { intros. apply Hl; [by apply list_elem_of_further|done]. }
  { done. }
  exists (new ++ new2), X2, t2. rewrite app_assoc. split_and!; [done| | | |done|].
  - destruct Hnew as [Hf Hn], Hq2 as [Hf2 Hn2]. split; [by apply Forall_app|]. rewrite fmap_app. apply NoDup_app.
    split_and!; [done| |done]. intros r Hr%Hnewr Hr2%Hnew2. tauto.
  - intros r. rewrite fmap_app, elem_of_app, Hnewr, Hnew2. specialize (HX1 r). specialize (HX2 r).
    destruct (decide (r ∈ X1)); tauto.
  - intros r. rewrite HX2, HX1, elem_of_cons. clear. naive_solver.
  - intros L i HL. rewrite (Hvt2 L i HL), (Hvt1 L i HL), elem_of_cons. tauto.
Qed.

Context (anchor : VerifiedBlock) (Hanchor : cached ds !! reference anchor = Some anchor).
Context (Hdepth : (dr + 2 ≤ round anchor)%N).

(** Between two blocks of the queue: what is visited is reached from the anchor,
    the ancestors and the votes of the blocks that left the queue are recorded. *)
Record search_inv q X t : Prop := {
  si_queue : queue_ok q;
  si_visited r : r ∈ X → r = reference anchor ∨ (linked_to (cached ds) anchor r ∧ (dr < ref_round r)%N);
  si_anchor : reference anchor ∈ X;
  si_queued r : r ∈ reference <$> q → r ∈ X;
  si_closed r b a : r ∈ X → r ∉ reference <$> q → cached ds !! r = Some b → a ∈ ancestors b → (dr < ref_round a)%N →
    a ∈ X;
  si_tally : tally_ok t;
  si_votes L i : L ∈ D → i ∈ votes (tally_of t L) ↔
    ∃ k, (k ∈ X) ∧ (k ∉ reference <$> q) ∧ votes_for (cached ds) L k = true ∧ ref_author k = i;
}.

Lemma search_inv_init : search_inv [anchor] {[reference anchor]} ∅.
Proof.
  split.
  - split; [by constructor|apply NoDup_singleton].
  - intros r ->%elem_of_singleton. by left.
  - set_solver.
  - set_solver.
  - set_solver.
  - split; [set_solver|]. intros L. apply StakeAggregator_new_ok.
  - intros L i _. split; [done|]. intros (k & Hk & Hnk & _). set_solver.
Qed.

Lemma visited_cached q X t : search_inv q X t → X ⊆ dom (cached ds).
Proof.
  intros HI r [->|[Hl Hr]]%(si_visited _ _ _ HI); [by eapply elem_of_dom_2|].
  eapply linked_cached; [done|done|done|lia].
Qed.

Lemma search_inv_step b q X t new X' t' :
  search_inv (b :: q) X t → queue_ok new →
  (∀ r, r ∈ reference <$> new ↔ r ∈ X' ∧ r ∉ X) →
  (∀ r, r ∈ X' ↔ r ∈ X ∨ (r ∈ ancestors b ∧ (dr < ref_round r)%N)) → tally_ok t' →
  (∀ L i, L ∈ D → i ∈ votes (tally_of t' L) ↔
    i ∈ votes (tally_of t L) ∨ (L ∈ ancestors b ∧ round b = (dr + 1)%N ∧ i = author b)) →
  search_inv (q ++ new) X' t'.
Proof.
  intros HI Hnew Hnewr HX' Ht' Hvt'. pose proof (si_queue _ _ _ HI) as [[Hb Hq]%Forall_cons [Hbq Hndq]%NoDup_cons].
  assert (reference b ∈ X) as HbX by (apply (si_queued _ _ _ HI), list_elem_of_here).
  assert (∀ r, (r ∈ X' ∧ r ∉ reference <$> (q ++ new)) ↔ r = reference b ∨ (r ∈ X ∧ r ∉ reference <$> (b :: q))) as Hdone.
  { intros r. rewrite fmap_app, elem_of_app, fmap_cons, elem_of_cons, Hnewr, HX'.
    destruct (decide (r = reference b)) as [->|]; [tauto|]. destruct (decide (r ∈ X)); tauto. }
  split.
  - split; [by apply Forall_app; split; [|apply Hnew]|]. rewrite fmap_app. apply NoDup_app. split_and!; [done| |apply Hnew].
    intros r Hr [_ Hn]%Hnewr. destruct Hn. apply (si_queued _ _ _ HI). by apply list_elem_of_further.
  - intros r [Hr|[Hr Hrr]]%HX'; [by apply (si_visited _ _ _ HI)|]. right. split; [|done].
    destruct (si_visited _ _ _ HI _ HbX) as [Heq|[Hl _]].
    + rewrite Heq, Hanchor in Hb. injection Hb as <-. by apply linked_direct.
    + eapply linked_to_trans; [done|done|by apply linked_direct].
  - apply HX'. left. apply (si_anchor _ _ _ HI).
  - intros r. rewrite fmap_app, elem_of_app. intros [Hr|[? _]%Hnewr]; [|done].
    apply HX'. left. apply (si_queued _ _ _ HI). by apply list_elem_of_further.
  - intros r rb a Hr Hnq Hrb Ha Har. apply HX'. destruct (proj1 (Hdone r) (conj Hr Hnq)) as [->|[HrX Hrq]].
    + rewrite Hb in Hrb. injection Hrb as <-. by right.
    + left. by eapply (si_closed _ _ _ HI r).
  - done.
  - intros L i HL. rewrite (Hvt' L i HL), (si_votes _ _ _ HI L i HL). pose proof (HD L HL) as HLr. split.
    + intros [(k & Hk & Hkq & Hvk & Hka)|(HLb & Hr & ->)].
      * exists k. destruct (proj2 (Hdone k)) as [? ?]; auto.
      * exists (reference b). destruct (proj2 (Hdone (reference b))) as [? ?]; [by left|].
        split_and!; [done|done| |done]. apply votes_for_true. exists b. split_and!; [done|cbn; lia|done].
    + intros (k & Hk & Hkq & Hvk & Hka). destruct (proj1 (Hdone k) (conj Hk Hkq)) as [->|[HkX Hknq]].
      * right. apply votes_for_true in Hvk as (v & Hv' & Hr & Hin). rewrite Hb in Hv'. injection Hv' as <-.
        split_and!; [done|cbn in Hr; lia|done].
      * left. by exists k.
Qed.

Lemma search_loop_spec fuel q X t :
  search_inv q X t → (length q + size (dom (cached ds) ∖ X) ≤ fuel)%nat →
  ∃ X' t', search_loop ds c dr D fuel (q, X, t) = Done t' ∧ search_inv [] X' t'.
Proof.
  revert q X t. induction fuel as [|fuel IH]; intros q X t HI Hfuel.
  { destruct q; [|cbn in Hfuel; lia]. by exists X, t. }
  destruct q as [|b q]; [by exists X, t|]. cbn [search_loop].
  pose proof (si_queue _ _ _ HI) as [[Hb _]%Forall_cons _].
  destruct (visit_ancestors_spec b (ancestors b) q X t) as (new & X' & t' & -> & Hnew & Hnewr & HX' & Ht' & Hvt').
  { eapply vb_author, dv_valid; done. }
  { intros a Ha Har. eapply dv_causal; [done|exact Hb|done|lia]. }
  { apply (si_tally _ _ _ HI). }
  run_bind. pose proof (search_inv_step b q X t new X' t' HI Hnew Hnewr HX' Ht' Hvt') as HI'.
  apply IH; [done|]. rewrite length_app. cbn [length] in Hfuel.
  assert (list_to_set (reference <$> new) = X' ∖ X) as Hset.
  { apply set_eq. intros r. rewrite elem_of_list_to_set, Hnewr, elem_of_difference. done. }
  assert (length new = size (X' ∖ X)) as ->.
  { rewrite <- Hset, size_list_to_set by apply Hnew. by rewrite length_fmap. }
  assert (X ⊆ X') as Hsub by (intros r Hr; apply HX'; by left).
  pose proof (visited_cached _ _ _ HI') as Hcached.
  assert (size (dom (cached ds) ∖ X) = size (dom (cached ds) ∖ X') + size (X' ∖ X))%nat as Heq; [|lia].
  rewrite <- size_union by set_solver. f_equal. apply set_eq. intros r.
  rewrite elem_of_union, !elem_of_difference. destruct (decide (r ∈ X')); set_solver.
Qed.

(** At the end, everything above the decision round that the anchor reaches was
    visited. *)
Lemma search_inv_final X t k :
  search_inv [] X t → linked_to (cached ds) anchor k → (dr < ref_round k)%N → k ∈ X.
Proof.
  intros HI Hl Hk. assert (∀ b, reference b ∈ X → cached ds !! reference b = Some b →
    linked_to (cached ds) b k → k ∈ X) as Hgen; [|by apply (Hgen anchor (si_anchor _ _ _ HI))].
  clear Hl. intros b HbX Hb Hl. induction Hl as [b r Hr|b r b' r' Hr Hb' Hl IH].
  - by eapply (si_closed _ _ _ HI (reference b)); [|apply not_elem_of_nil|..].
  - assert (reference b' = r) as Href by (by eapply dv_reference). rewrite Href in IH.
    assert (ref_round r' < round b')%N as Hlt by (eapply linked_round; [done|by rewrite Href|done]).
    assert (round b' = ref_round r) by (by rewrite <- Href). apply IH; [done| |done].
    eapply (si_closed _ _ _ HI (reference b)); [done|apply not_elem_of_nil|done|done|lia].
Qed.

(** The search ends, and counts for each decision block the blocks that the anchor
    reaches and that include it. *)
Lemma search_spec :
  ∃ t, search_loop ds c dr D (Datatypes.S (size (ds_recent_blocks ds))) ([anchor], {[reference anchor]}, ∅) = Done t ∧
    tally_ok t ∧ ∀ L i, L ∈ D → i ∈ votes (tally_of t L) ↔
      ∃ k, linked_to (cached ds) anchor k ∧ votes_for (cached ds) L k = true ∧ ref_author k = i.
Proof.
  destruct (search_loop_spec (Datatypes.S (size (ds_recent_blocks ds))) _ _ _ search_inv_init) as (X & t & -> & HI).
  { assert (size (dom (cached ds) ∖ {[reference anchor]}) ≤ size (dom (cached ds)))%nat by (apply subseteq_size; set_solver).
    assert (size (dom (cached ds)) = size (ds_recent_blocks ds)) by (by rewrite dom_cached, size_dom). cbn. lia. }
  exists t. split_and!; [done|apply (si_tally _ _ _ HI)|]. intros L i HL. rewrite (si_votes _ _ _ HI L i HL).
  assert (∀ k, votes_for (cached ds) L k = true → ref_round k = (dr + 1)%N) as Hround.
  { intros k (v & _ & Hr & _)%votes_for_true. rewrite (HD L HL) in Hr. lia. }
  split; intros (k & Hk).
  - destruct Hk as (HkX & _ & Hvk & Hka). exists k. split_and!; [|done|done].
    destruct (si_visited _ _ _ HI k HkX) as [->|[Hl _]]; [|done]. specialize (Hround _ Hvk). cbn in Hround. lia.
  - destruct Hk as (Hl & Hvk & Hka). exists k. split_and!; [|apply not_elem_of_nil|done|done].
    apply (search_inv_final X t); [done|done|]. specialize (Hround _ Hvk). lia.
Qed.

(** ** Certified blocks per slot *)
Lemma certify_spec l cs :
  (∀ L agg, (L, agg) ∈ l → L ∈ dom (cached ds)) →
  ∃ cs', for_each (certify ds c) cs l = Done cs' ∧
    ∀ s, ∃ bs, default [] (cs' !! s) = default [] (cs !! s) ++ bs ∧
      Forall (λ b, cached ds !! reference b = Some b) bs ∧
      reference <$> bs = (filter (λ e, reached_threshold e.2 c = true ∧ Slot_from e.1 = s) l).*1.
Proof.
  revert cs. induction l as [|[L agg] l IH]; intros cs Hl; cbn [for_each].
  { exists cs. split; [done|]. intros s. exists []. by rewrite app_nil_r. }
  pose proof (Hl L agg ltac:(apply list_elem_of_here)) as [b Hb]%elem_of_dom.
  assert (reference b = L) as Href by (by eapply dv_reference).
  assert (certify ds c cs (L, agg) = Done (if reached_threshold agg c then
    <[Slot_from L := default [] (cs !! Slot_from L) ++ [b]]> cs else cs)) as ->.
  { unfold certify. rewrite (dv_get_block c ds L b Hv Hb). by destruct (reached_threshold agg c). }
  run_bind. destruct (reached_threshold agg c) eqn:Hreached.
  - destruct (IH (<[mkSlot (ref_round L) (ref_author L) := default [] (cs !! mkSlot (ref_round L) (ref_author L)) ++ [b]]> cs))
      as (cs' & Hrun & Hcs'); [intros; by eapply Hl, list_elem_of_further|].
    exists cs'. split; [done|]. intros s. destruct (Hcs' s) as (bs & Heq & Hbs & Hrefs).
    rewrite filter_cons. destruct (decide (Slot_from L = s)) as [<-|Hne].
    + rewrite decide_True by done. exists (b :: bs). rewrite Heq. unfold Slot_from. rewrite lookup_insert_eq. cbn.
      split_and!; [by rewrite <- app_assoc|constructor; [by rewrite Href|done]|]. rewrite Href. by f_equal.
    + rewrite decide_False by (by intros [_ ?]). exists bs. rewrite Heq, lookup_insert_ne by done. done.
  - destruct (IH cs) as (cs' & Hrun & Hcs'); [intros; by eapply Hl, list_elem_of_further|].
    exists cs'. split; [done|]. intros s. rewrite filter_cons, decide_False by (intros [Hre _]; cbn [fst snd] in Hre; congruence). apply Hcs'.
Qed.

End search.

(** ** The decider computes them *)
Section view.
Context {S : Type} `{StoreLaws S}.
Context (c : Committee) (f : N) (byz : gset N) (U : gmap BlockRef VerifiedBlock).
Context (Hnw : network c f byz U).
Context (Hcert : (total_stake c + f < certification_threshold c + quorum_threshold c)%N).
Context (Hquorum : (total_stake c + f + certification_threshold c ≤ 2 * quorum_threshold c)%N).
Context (ds : DagState S) (Hview : view_of c U ds).

Lemma view_votes_for L k : k ∈ dom (cached ds) → votes_for (cached ds) L k = votes_for U L k.
Proof using Hview.
  intros [b Hb]%elem_of_dom. unfold votes_for. rewrite Hb. by rewrite (lookup_weaken _ _ _ _ Hb (proj2 Hview)).
Qed.

Lemma votes_for_cached L k : votes_for (cached ds) L k = true → k ∈ dom (cached ds).
Proof. intros (v & Hv & _)%votes_for_true. by eapply elem_of_dom_2. Qed.

Context (H3 : v3_ok c ds).

Section direct.
Context (slot : Slot) (Hgc : (gc_round ds < slot_round slot)%N).
Context (x : RoundInfo) (Hx : x ∈ ds_round_info ds) (Hxr : ri_round x = (slot_round slot + 1)%N).

Lemma voting_block k : k ∈ ri_blocks x ↔ k ∈ dom (cached ds) ∧ ref_round k = (slot_round slot + 1)%N.
Proof using Hnw Hcert Hquorum Hview Hgc Hx Hxr H3. rewrite <- Hxr. apply (vo_blocks _ _ H3); [done|lia]. Qed.

Lemma voting_author k : k ∈ ri_blocks x → (ref_author k < Committee_size c)%N.
Proof using Hnw Hcert Hquorum Hview Hgc Hx Hxr H3.
  intros [[b Hb]%elem_of_dom _]%voting_block. destruct Hview as [Hv _].
  rewrite <- (dv_reference c ds k b Hv Hb). apply (dv_valid _ _ Hv _ _ Hb).
Qed.

(** Who does not include the block of [info] votes against it. *)
Lemma reject_votes_spec r info agg :
  ds_recent_blocks ds !! r = Some info → Slot_from r = slot →
  agg_ok c agg → (∀ a, a ∈ votes agg ↔ ∃ k, k ∈ refs_in_order (ri_blocks x ∖ bi_children info) ∧ ref_author k = a) →
  reached_threshold (agg : StakeAggregator QuorumThreshold) c = true → reject_quorum c U r.
Proof using Hnw Hcert Hquorum Hview Hgc Hx Hxr H3.
  intros Hr Hs Hok Hvotes Hreach. rewrite (reached_threshold_spec c agg Hok) in Hreach.
  apply bool_decide_eq_true in Hreach. exists (votes agg). split; [done|].
  intros a (k & [Hk Hnc]%elem_of_set_in_order%elem_of_difference & Ha)%Hvotes.
  apply voting_block in Hk as [Hk Hkr]. pose proof Hk as [b Hb]%elem_of_dom.
  assert (ref_round r = slot_round slot) as Hrr by (by apply (f_equal slot_round) in Hs).
  exists k, b. split_and!; [by eapply lookup_weaken, (proj2 Hview)|lia| |done].
  intros Hin. apply Hnc, (vo_children _ _ H3 r info k Hr); [lia|]. apply votes_for_true. exists b. split_and!; [done|lia|done].
Qed.

Lemma direct_loop_spec n infos :
  (∀ info, info ∈ infos → ∃ r, ds_recent_blocks ds !! r = Some info ∧ Slot_from r = slot) →
  ∃ res, direct_loop c x n infos = Done res ∧
    match res with
    | inl st => ∃ b, st = LCommit b ∧ cached ds !! reference b = Some b ∧ Slot_from (reference b) = slot ∧
        commit_quorum c U (reference b)
    | inr m => (m ≤ n + lengthN infos)%N ∧
        (m = (n + lengthN infos)%N → ∀ info, info ∈ infos → reject_quorum c U (reference (bi_block info)))
    end.
Proof using Hnw Hcert Hquorum Hview Hgc Hx Hxr H3.
  revert n. induction infos as [|info infos IH]; intros n Hinfos; cbn [direct_loop].
  { eexists. split; [done|]. unfold lengthN. cbn. split; [lia|]. intros _ info []%not_elem_of_nil. }
  destruct (Hinfos info) as (r & Hr & Hs); [apply list_elem_of_here|].
  assert (cached ds !! r = Some (bi_block info)) as Hcached by (by rewrite cached_lookup, Hr).
  assert (reference (bi_block info) = r) as Href by (exact (dv_reference c ds r _ (proj1 Hview) Hcached)).
  assert (ref_round r = slot_round slot) as Hrr by (by apply (f_equal slot_round) in Hs).
  pose proof (nw_committee _ _ _ _ Hnw) as Hc.
  destruct (add_all_spec c (StakeAggregator_new : StakeAggregator QuorumThreshold)
    (refs_in_order (ri_blocks x ∖ bi_children info)) Hc (StakeAggregator_new_ok c)) as (agg & -> & Hok & Hvotes).
  { intros k [Hk _]%elem_of_set_in_order%elem_of_difference. by apply voting_author. }
  run_bind.
  assert (reached_threshold agg c = true → reject_quorum c U r) as Hreject.
  { apply (reject_votes_spec r info agg Hr Hs Hok). intros a. rewrite Hvotes. cbn. set_solver. }
  destruct (reached_threshold (bi_children_stake info) c) eqn:Hcommit.
  - assert (commit_quorum c U r) as Hcq.
    { assert (gc_round ds < ref_round r)%N as Hgcr by lia. pose proof (vo_children_stake _ _ H3 r info Hr Hgcr) as Hcs.
      destruct (counts_reached c _ _ Hcs Hcommit) as (Q & HQ & Hk).
      exists Q. split; [done|]. intros a (k & Hk' & Ha)%Hk. exists k. split; [|done].
      apply (vo_children _ _ H3 r info k Hr) in Hk'; [|lia]. by rewrite <- view_votes_for by (by eapply votes_for_cached). }
    rewrite rassert_true.
    2: { apply not_true_iff_false. intros Hrej. by eapply (reject_commit c f byz U Hnw Hcert Hquorum r), Hcq; apply Hreject. }
    eexists. split; [done|]. exists (bi_block info). rewrite Href. done.
  - set (n' := if reached_threshold agg c then (n + 1)%N else n).
    destruct (IH n') as (res & Hrun & Hres); [intros; by apply Hinfos, list_elem_of_further|].
    exists res. split; [done|]. destruct res as [st|m]; [done|]. destruct Hres as [Hle Hall].
    assert (lengthN (info :: infos) = (lengthN infos + 1)%N) as Hlen by (unfold lengthN; cbn; lia).
    unfold n' in *. split; [destruct (reached_threshold agg c); lia|]. intros Heq.
    destruct (reached_threshold agg c); [|lia].
    intros info' [->|Hin]%elem_of_cons; [rewrite Href; by apply Hreject|]. apply Hall; [lia|done].
Qed.

End direct.

Context (d : LeaderSlotDecider) (Hd : committee (lsd_context d) = c).

(** The direct rule never panics and answers as specified. *)
Lemma slot_try_direct_decide_spec slot :
  (gc_round ds < slot_round slot)%N → (slot_round slot + 1 < u32_modulus)%N →
  ∃ st, slot_try_direct_decide d ds slot = Done st ∧ direct_status c U (cached ds) slot st.
Proof using Hnw Hcert Hquorum Hd Hview H3.
  intros Hgc Hw. unfold slot_try_direct_decide. rewrite Hd, wrap_add_small by done.
  destruct (get_round_info_spec c ds (slot_round slot + 1) H3) as (o & -> & Ho); [lia|]. run_bind.
  destruct o as [x|]; [|by eexists]. destruct Ho as [Hx Hxr].
  destruct (reached_threshold (ri_total_stake x) c) eqn:Htotal; [|by eexists].
  unfold get_block_info_at_slot. rewrite rassert_true by done. run_bind.
  rewrite slot_range_spec by apply (dv_ok _ _ (proj1 Hview)). run_bind.
  set (infos := map snd _).
  assert (∀ info, info ∈ infos ↔ ∃ r, ds_recent_blocks ds !! r = Some info ∧ Slot_from r = slot) as Hinfos.
  { intros info. unfold infos. rewrite <- list_fmap_alt, list_elem_of_fmap. split.
    - intros ([r i] & -> & [Hs Hr%elem_of_map_in_order]%list_elem_of_filter). by exists r.
    - intros (r & Hr & Hs). exists (r, info). split; [done|]. apply list_elem_of_filter. split; [done|].
      by apply elem_of_map_in_order. }
  destruct (direct_loop_spec slot Hgc x Hx Hxr 0 infos) as (res & -> & Hres); [by intros info ?%Hinfos|].
  run_bind. destruct res as [st|m].
  { destruct Hres as (b & -> & Hb & Hs & Hcq). eexists. split; [done|]. done. }
  destruct Hres as [_ Hall]. case_decide as Hm; [|by eexists].
  eexists. split; [done|]. split; [done|]. intros L HL. destruct (ds_recent_blocks ds !! L) as [info|] eqn:HLr.
  - assert (reference (bi_block info) = L) as <-.
    { eapply dv_reference; [apply Hview|]. by rewrite cached_lookup, HLr. }
    apply Hall; [lia|]. apply Hinfos. by exists (reference (bi_block info)).
  - assert (gc_round ds < ri_round x)%N as Hgcx by lia. pose proof (vo_total_stake _ _ H3 x Hx Hgcx) as Hts.
    destruct (counts_reached c _ _ Hts Htotal) as (Q & HQ & Hk).
    exists Q. split; [done|]. intros a (k & Hk' & Ha)%Hk.
    apply (voting_block slot Hgc x Hx Hxr) in Hk' as [Hkd Hkr]. pose proof Hkd as [b Hb]%elem_of_dom.
    assert (ref_round L = slot_round slot) as HLround by (by apply (f_equal slot_round) in HL).
    exists k, b. split_and!; [by eapply lookup_weaken, (proj2 Hview)|lia| |done]. intros Hin.
    assert (L ∈ dom (cached ds)) as [b' Hb']%elem_of_dom by (eapply (dv_causal _ _ (proj1 Hview)); [done|done|lia]).
    rewrite cached_lookup, HLr in Hb'. done.
Qed.

(** A block reaches a quorum of every earlier round above the gc round. *)
Lemma reaches_quorum b r :
  cached ds !! reference b = Some b → (gc_round ds < r)%N → (r < round b)%N →
  quorum_at c U (linked_to (cached ds) b) r.
Proof using Hnw Hcert Hquorum Hview.
  intros Hb Hr. remember (N.to_nat (round b)) as n eqn:Hn. revert b Hn Hb.
  induction (lt_wf n) as [n _ IH]; intros b -> Hb Hlt.
  assert (valid_block c b) as Hval by (eapply dv_valid; [apply Hview|done]).
  pose proof (vb_parents _ _ Hval) as HP.
  assert (∀ a, a ∈ parents b → ∃ p pb, p ∈ ancestors b ∧ (ref_round p + 1)%N = round b ∧ ref_author p = a ∧
    cached ds !! p = Some pb ∧ U !! p = Some pb ∧ reference pb = p) as Hparent.
  { intros a (p & -> & [Hpr Hin]%list_elem_of_filter)%elem_of_list_to_set%list_elem_of_fmap.
    destruct (view_ancestor c U ds b p Hview Hb Hin) as (pb & Hpb); [lia|]. by exists p, pb. }
  destruct (decide (r + 1 = round b)%N) as [Heq|Hne].
  - exists (parents b). split; [done|]. intros a (p & pb & Hin & Hpr & Hpa & Hpc & HpU & _)%Hparent.
    exists p. split_and!; [by apply linked_direct|by eapply elem_of_dom_2|lia|done].
  - destruct (quorum_nonempty c _ f (nw_committee _ _ _ _ Hnw) (nw_quorums _ _ _ _ Hnw) HP) as [a Ha].
    destruct (Hparent a Ha) as (p & pb & Hin & Hpr & _ & Hpc & _ & Href).
    assert (round pb = ref_round p) as Hround by (by rewrite <- Href).
    destruct (IH (N.to_nat (round pb)) ltac:(lia) pb eq_refl) as (P & HPq & HPk); [by rewrite Href|lia|].
    exists P. split; [done|]. intros i Hi. destruct (HPk i Hi) as (k & Hl & Hk). exists k. split; [|done].
    by eapply linked_step.
Qed.

Section indirect.
Context (anchor : VerifiedBlock) (Hanchor : cached ds !! reference anchor = Some anchor).
Context (dr : N) (Hgc : (gc_round ds < dr)%N) (Hdepth : (dr + 2 ≤ round anchor)%N).
Context (slots : list Slot) (Hslots : ∀ s, s ∈ slots → slot_round s = dr).

(** The votes that were counted decide whether a block is certified. *)
Lemma tally_certified (D : gset BlockRef) t L :
  (∀ L, L ∈ D ↔ L ∈ dom (cached ds) ∧ Slot_from L ∈ slots) → tally_ok c D t →
  (∀ L i, L ∈ D → i ∈ votes (tally_of t L) ↔
    ∃ k, linked_to (cached ds) anchor k ∧ votes_for (cached ds) L k = true ∧ ref_author k = i) →
  Slot_from L ∈ slots →
  certified_in c U (linked_to (cached ds) anchor) L ↔ ∃ agg, t !! L = Some agg ∧ reached_threshold agg c = true.
Proof using Hnw Hcert Hquorum Hview Hanchor Hgc Hdepth Hslots.
  intros HD [Hdom Hok] Ht HL. pose proof (Hslots _ HL) as HLr. cbn in HLr. split.
  - intros (Q & HQ & Hk). assert (∀ a, a ∈ Q → L ∈ D ∧ a ∈ votes (tally_of t L)) as HQt.
    { intros a (k & Hl & Hvk & Hka)%Hk. pose proof Hvk as (v & HUv & Hkr & HLv)%votes_for_true.
      assert (k ∈ dom (cached ds)) as Hkc by (eapply linked_cached; [apply Hview|done|done|lia]).
      assert (cached ds !! k = Some v) as Hkv by (eapply view_cached; done).
      assert (L ∈ D) as HLD by (apply HD; split; [eapply dv_causal; [apply Hview|done|done|lia]|done]).
      split; [done|]. apply Ht; [done|]. exists k. split_and!; [done| |done]. by rewrite view_votes_for. }
    assert (threshold_of CertificationThreshold c ≤ set_stake c (votes (tally_of t L)))%N as Hle.
    { cbn. etrans; [exact HQ|]. apply set_sum_mono. intros a Ha. by apply HQt. }
    unfold tally_of in Hle. destruct (t !! L) as [agg|] eqn:HtL.
    + exists agg. split; [done|]. specialize (Hok L). unfold tally_of in Hok. rewrite HtL in Hok.
      rewrite reached_threshold_spec by done. by apply bool_decide_eq_true.
    + exfalso. cbn in Hle. unfold set_stake in Hle. rewrite set_sum_empty in Hle.
      destruct (nw_quorums _ _ _ _ Hnw) as [_ Hqt]. lia.
  - intros (agg & HtL & Hreach). specialize (Hok L). unfold tally_of in Hok. rewrite HtL in Hok. cbn in Hok.
    rewrite reached_threshold_spec in Hreach by done. apply bool_decide_eq_true in Hreach.
    exists (votes agg). split; [done|]. intros a Ha.
    assert (L ∈ D) as HLD by (apply Hdom; by eapply elem_of_dom_2).
    destruct (proj1 (Ht L a HLD)) as (k & Hl & Hvk & Hka); [unfold tally_of; by rewrite HtL|].
    exists k. split_and!; [done| |done]. rewrite <- view_votes_for; [done|]. by eapply votes_for_cached.
Qed.

(** The blocks certified for a slot, listed once each, decide it. *)
Lemma slot_decision_spec (cs : gmap Slot (list VerifiedBlock)) slot (X : BlockRef → Prop) :
  Forall (λ b, cached ds !! reference b = Some b) (default [] (cs !! slot)) →
  NoDup (reference <$> default [] (cs !! slot)) →
  (∀ L, L ∈ reference <$> default [] (cs !! slot) ↔ Slot_from L = slot ∧ certified_in c U X L) →
  indirect_status c U X slot (slot_decision cs slot).
Proof using Hview.
  unfold slot_decision. destruct (default [] (cs !! slot)) as [|b [|b' bs]]; intros Hb Hnd Hcs.
  - split; [done|]. intros L HL Hc. destruct (not_elem_of_nil L). by apply Hcs.
  - destruct (proj1 (Hcs (reference b))) as [Hs Hc]; [apply list_elem_of_here|]. apply Forall_cons in Hb as [Hb _].
    split_and!; [by eapply lookup_weaken, (proj2 Hview)|done|done|]. intros L HL HcL.
    apply list_elem_of_singleton. by apply Hcs.
  - split; [done|]. intros L HL HcL. cbn in Hnd, Hcs. apply NoDup_cons in Hnd as [Hne _].
    destruct (decide (L = reference b)) as [->|HLb].
    + exists (reference b'). destruct (proj1 (Hcs (reference b'))) as [Hs Hc]; [auto with lists|].
      split_and!; [|done|done]. intros Heq. apply Hne. rewrite Heq. apply list_elem_of_here.
    + exists (reference b). destruct (proj1 (Hcs (reference b))) as [Hs Hc]; [auto with lists|]. by split_and!.
Qed.

(** The decision blocks are the cached blocks of the slots. *)
Lemma decision_blocks_spec blocks :
  Forall2 (λ slot l, ∀ b, b ∈ l ↔ cached ds !! reference b = Some b ∧ Slot_from (reference b) = slot) slots blocks →
  ∀ L, L ∈ (list_to_set (map reference (concat blocks)) : gset BlockRef) ↔ L ∈ dom (cached ds) ∧ Slot_from L ∈ slots.
Proof using Hview.
  intros Hblocks L. rewrite elem_of_list_to_set, <- list_fmap_alt, list_elem_of_fmap. split.
  - intros (b & -> & (l & Hl & Hb)%list_elem_of_In%in_concat).
    apply list_elem_of_In in Hb. apply list_elem_of_In, list_elem_of_lookup in Hl as [i Hl].
    destruct (Forall2_lookup_r _ _ _ _ _ Hblocks Hl) as (s & Hs & Hin). destruct (proj1 (Hin b) Hb) as [Hb' Hsb].
    rewrite Hsb. split; [by eapply elem_of_dom_2|by eapply list_elem_of_lookup_2].
  - intros [[b Hb]%elem_of_dom [i Hs]%list_elem_of_lookup].
    assert (reference b = L) as <- by (eapply dv_reference; [apply Hview|done]). exists b. split; [done|].
    destruct (Forall2_lookup_l _ _ _ _ _ Hblocks Hs) as (l & Hl & Hin). apply list_elem_of_In, in_concat.
    exists l. split; apply list_elem_of_In; [by eapply list_elem_of_lookup_2|by apply Hin].
Qed.

(** The indirect rule decides every slot. *)
Lemma slot_try_indirect_decide_spec :
  slots ≠ [] → (dr + 2 < u32_modulus)%N →
  ∃ sts, slot_try_indirect_decide d ds anchor slots = Done sts ∧
    Forall2 (indirect_status c U (linked_to (cached ds) anchor)) slots sts.
Proof using Hnw Hcert Hquorum Hd Hview Hanchor Hgc Hdepth Hslots.
  intros Hne Hw. unfold slot_try_indirect_decide. rewrite Hd.
  destruct (head slots) as [first|] eqn:Hhead; [|by apply head_None in Hhead]. cbn [unwrap]. run_bind.
  assert (slot_round first = dr) as -> by (apply Hslots; by apply head_Some_elem_of).
  rewrite (rassert_true (Forall _ _)) by (by apply Forall_forall). run_bind.
  unfold INDIRECT_COMMIT_DEPTH. rewrite wrap_add_small, rassert_true by done. run_bind.
  destruct (mapM_total (get_uncommitted_blocks_at_slot ds) (λ slot l, ∀ b, b ∈ l ↔
    cached ds !! reference b = Some b ∧ Slot_from (reference b) = slot) slots) as (blocks & -> & Hblocks).
  { intros s _. destruct (get_uncommitted_blocks_at_slot_spec ds s) as (l & Hl & Hb & _); [apply Hview|]. by exists l. }
  run_bind. set (D := list_to_set (map reference (concat blocks)) : gset BlockRef).
  pose proof (decision_blocks_spec blocks Hblocks) as HD. fold D in HD.
  destruct (search_spec c (nw_committee _ _ _ _ Hnw) ds (proj1 Hview) dr Hgc ltac:(lia) D) with (anchor := anchor)
    as (t & -> & Htok & Ht); [intros L [_ HL]%HD; by apply Hslots in HL|done|done|].
  run_bind. destruct (certify_spec c ds (proj1 Hview) (entries_in_order t) ∅) as (cs & -> & Hcs).
  { intros L agg HL%elem_of_map_in_order. eapply HD, (proj1 Htok), elem_of_dom_2, HL. }
  run_bind. eexists. split; [done|]. rewrite <- list_fmap_alt. apply Forall2_fmap_r, Forall_Forall2_diag, Forall_forall.
  intros s Hs. destruct (Hcs s) as (bs & Heq & Hbs & Hrefs). rewrite lookup_empty in Heq. cbn in Heq.
  apply slot_decision_spec; rewrite Heq; [done| |].
  - rewrite Hrefs. eapply sublist_NoDup, fmap_sublist, sublist_filter. rewrite map_in_order_keys. apply NoDup_set_in_order.
  - intros L. rewrite Hrefs, list_elem_of_fmap. split.
    + intros ([L' agg] & -> & [[Hr HL] Hin%elem_of_map_in_order]%list_elem_of_filter). split; [done|].
      apply (tally_certified D t); [done|done|done|by rewrite HL|by exists agg].
    + intros [HL Hcert']. apply (tally_certified D t) in Hcert' as (agg & HtL & Hr); [|done|done|done|by rewrite HL].
      exists (L, agg). split; [done|]. apply list_elem_of_filter. split; [done|]. by apply elem_of_map_in_order.
Qed.

End indirect.

End view.

(** ** Properties *)

(** What [Committee::new_v3] establishes of its thresholds for [f] faulty stake. *)
Definition v3_quorums (c : Committee) (f : N) : Prop :=
  (total_stake c + f < certification_threshold c + quorum_threshold c)%N ∧
  (total_stake c + f + certification_threshold c ≤ 2 * quorum_threshold c)%N.

(** The decision of an anchor depends on the references it reaches from the voting
    round on only. *)
Lemma indirect_status_ext c U (X X' : BlockRef → Prop) slot st st' :
  (∀ k, ref_round k = (slot_round slot + 1)%N → X k ↔ X' k) →
  indirect_status c U X slot st → indirect_status c U X' slot st' → st = st'.
Proof.
  intros HX Hst Hst'.
  assert (∀ L, Slot_from L = slot → certified_in c U X L ↔ certified_in c U X' L) as Hc.
  { intros L HL. assert (ref_round L = slot_round slot) as HLr by (by rewrite <- HL).
    split; intros (Q & HQ & Hk); exists Q; (split; [done|]); intros a (k & Hkx & Hvk & Hka)%Hk; exists k;
      pose proof Hvk as (v & _ & Hkr & _)%votes_for_true; (split_and!; [apply HX; [lia|done]|done|done]). }
  destruct st as [b|s|], st' as [b'|s'|]; try done.
  - destruct Hst as (Hb & Hs & Hcb & Huniq), Hst' as (Hb' & Hs' & Hcb' & _).
    rewrite (Huniq (reference b')) in Hb' by (done || by apply Hc). congruence.
  - destruct Hst as (Hb & Hs & Hcb & Huniq), Hst' as [-> Hno].
    destruct (Hno (reference b)) as (L & Hne & HL & HcL); [done|by apply Hc|]. destruct Hne.
    apply Huniq; [done|by apply Hc].
  - destruct Hst' as (Hb & Hs & Hcb & Huniq), Hst as [-> Hno].
    destruct (Hno (reference b')) as (L & Hne & HL & HcL); [done|by apply Hc|]. destruct Hne.
    apply Huniq; [done|by apply Hc].
  - destruct Hst as [-> _], Hst' as [-> _]. done.
Qed.

Lemma indirect_decided c U X slot st : indirect_status c U X slot st → LeaderStatus_is_decided st = true.
Proof. by destruct st. Qed.

(** direct decisions of commit rule v3 agree. Two nodes with any parts of the
    dag both get an answer from the direct rule, without a failed assertion;
    where both decide, they commit the same block or both skip. *)
Theorem v3_direct_agreement {S : Type} `{StoreLaws S} c f byz U (ds ds' : DagState S) d d' slot :
  network c f byz U → v3_quorums c f → committee (lsd_context d) = c → committee (lsd_context d') = c →
  view_of c U ds → v3_ok c ds → view_of c U ds' → v3_ok c ds' →
  (gc_round ds < slot_round slot)%N → (gc_round ds' < slot_round slot)%N → (slot_round slot + 1 < u32_modulus)%N →
  ∃ st st', slot_try_direct_decide d ds slot = Done st ∧ slot_try_direct_decide d' ds' slot = Done st' ∧
    (LeaderStatus_is_decided st = true → LeaderStatus_is_decided st' = true → st = st').
Proof.
  intros Hnw [Hcert Hq] Hd Hd' Hv H3 Hv' H3' Hgc Hgc' Hw.
  destruct (slot_try_direct_decide_spec c f byz U Hnw Hcert Hq ds Hv H3 d Hd slot Hgc Hw) as (st & Hrun & Hst).
  destruct (slot_try_direct_decide_spec c f byz U Hnw Hcert Hq ds' Hv' H3' d' Hd' slot Hgc' Hw) as (st' & Hrun' & Hst').
  exists st, st'. split_and!; [done|done|].
  eapply (direct_direct_agree c f byz U Hnw Hcert Hq); [apply Hv|apply Hv'|done|done].
Qed.

(** C25: direct decisions of commit rule v3 are final. The indirect rule always
    returns, with a decision for every slot, and if any node has decided a slot
    directly then every anchor two or more rounds later, on every node, decides
    the slot the same way. *)
Theorem v3_direct_final {S : Type} `{StoreLaws S} c f byz U (ds ds' : DagState S) d d' slot slots anchor :
  network c f byz U → v3_quorums c f → committee (lsd_context d) = c → committee (lsd_context d') = c →
  view_of c U ds → v3_ok c ds → view_of c U ds' → v3_ok c ds' →
  (gc_round ds < slot_round slot)%N → (gc_round ds' < slot_round slot)%N → (slot_round slot + 2 < u32_modulus)%N →
  slot ∈ slots → (∀ s, s ∈ slots → slot_round s = slot_round slot) →
  cached ds' !! reference anchor = Some anchor → (slot_round slot + INDIRECT_COMMIT_DEPTH ≤ round anchor)%N →
  ∃ st sts, slot_try_direct_decide d ds slot = Done st ∧ slot_try_indirect_decide d' ds' anchor slots = Done sts ∧
    length sts = length slots ∧ Forall (λ x, LeaderStatus_is_decided x = true) sts ∧
    ∀ i, slots !! i = Some slot → LeaderStatus_is_decided st = true → sts !! i = Some st.
Proof.
  intros Hnw [Hcert Hq] Hd Hd' Hv H3 Hv' H3' Hgc Hgc' Hw Hin Hslots Ha Hr.
  destruct (slot_try_direct_decide_spec c f byz U Hnw Hcert Hq ds Hv H3 d Hd slot Hgc) as (st & Hrun & Hst); [lia|].
  destruct (slot_try_indirect_decide_spec c f byz U Hnw Hcert Hq ds' Hv' d' Hd' anchor Ha (slot_round slot) Hgc' Hr
    slots Hslots) as (sts & Hrun' & Hsts); [by intros ->; apply not_elem_of_nil in Hin|done|].
  exists st, sts. split_and!; [done|done|by eapply eq_sym, Forall2_length| |].
  - eapply Forall2_Forall_r; [exact Hsts|]. apply Forall_forall. intros s _ x. apply indirect_decided.
  - intros i Hi Hdec. destruct (Forall2_lookup_l _ _ _ _ _ Hsts Hi) as (x & Hx & Hind). rewrite Hx. f_equal.
    pose proof (direct_indirect_agree c f byz U Hnw Hcert Hq (cached ds) _ slot st x (proj2 Hv) Hst Hind) as Hagree.
    destruct st; [| |done]; apply Hagree, (reaches_quorum c f byz U Hnw Hcert Hq ds' Hv'); unfold INDIRECT_COMMIT_DEPTH in Hr; done || lia.
Qed.

(** indirect decisions of commit rule v3 depend on the anchor only. Two nodes
    that have the anchor decide the slots of a round the same way, whatever else
    they have received, evicted or garbage collected. *)
Theorem v3_indirect_deterministic {S : Type} `{StoreLaws S} c f byz U (ds ds' : DagState S) d d' slots dr anchor :
  network c f byz U → v3_quorums c f → committee (lsd_context d) = c → committee (lsd_context d') = c →
  view_of c U ds → view_of c U ds' →
  (gc_round ds < dr)%N → (gc_round ds' < dr)%N → (dr + 2 < u32_modulus)%N →
  slots ≠ [] → (∀ s, s ∈ slots → slot_round s = dr) →
  cached ds !! reference anchor = Some anchor → cached ds' !! reference anchor = Some anchor →
  (dr + INDIRECT_COMMIT_DEPTH ≤ round anchor)%N →
  ∃ sts, slot_try_indirect_decide d ds anchor slots = Done sts ∧ slot_try_indirect_decide d' ds' anchor slots = Done sts.
Proof.
  intros Hnw [Hcert Hq] Hd Hd' Hv Hv' Hgc Hgc' Hw Hne Hslots Ha Ha' Hr.
  destruct (slot_try_indirect_decide_spec c f byz U Hnw Hcert Hq ds Hv d Hd anchor Ha dr Hgc Hr slots Hslots Hne Hw)
    as (sts & Hrun & Hsts).
  destruct (slot_try_indirect_decide_spec c f byz U Hnw Hcert Hq ds' Hv' d' Hd' anchor Ha' dr Hgc' Hr slots Hslots Hne Hw)
    as (sts' & Hrun' & Hsts').
  exists sts. split; [done|]. rewrite Hrun'. f_equal. apply list_eq_same_length with (length slots);
    [by eapply eq_sym, Forall2_length|by eapply eq_sym, Forall2_length|].
  intros i x x' Hi Hx Hx'. destruct (Forall2_lookup_r _ _ _ _ _ Hsts Hx') as (s & Hs & Hst).
  destruct (Forall2_lookup_r _ _ _ _ _ Hsts' Hx) as (s' & Hs' & Hst'). rewrite Hs in Hs'. injection Hs' as <-.
  symmetry. eapply indirect_status_ext; [|exact Hst|exact Hst']. intros k Hk.
  rewrite (Hslots s) in Hk by (by eapply list_elem_of_lookup_2).
  split; intros Hl; [eapply (linked_transfer c U ds ds')|eapply (linked_transfer c U ds' ds)]; try done; lia.
Qed.

(** ** The concrete network *)
Definition v3_network : gmap BlockRef VerifiedBlock := cached v3_node_2.
Definition v3_decider : LeaderSlotDecider := mkLeaderSlotDecider v3_context.
Definition v3_anchor : VerifiedBlock := v3_block (mkBlockRef 4 0 40).

Lemma v3_network_ok : network committee_6 1 {[5%N]} v3_network.
Proof.
  apply network_check_ok; [exact committee_6_ok|vm_compute; split; discriminate || done|vm_compute; reflexivity].
Qed.

Lemma v3_nodes_ok : accounting_ok committee_6 v3_node_1 ∧ accounting_ok committee_6 v3_node_2.
Proof.
  assert (accounting_ok committee_6 v3_start) as Hstart.
  { apply (empty_accounting_ok v3_context); [exact v3_context_ok|by eexists|reflexivity|exact v3_start_new]. }
  split; (eapply accounting_steps_ok; [exact committee_6_ok|apply v3_nodes_reached|exact Hstart]).
Qed.

Lemma v3_views : view_of committee_6 v3_network v3_node_1 ∧ view_of committee_6 v3_network v3_node_2.
Proof.
  destruct v3_nodes_ok as [[Hok1 _ _ _ _ _] [Hok2 _ _ _ _ _]]. split; split.
  - apply view_check_ok; [exact Hok1|reflexivity|vm_compute; reflexivity].
  - apply map_subseteq_spec. intros r b Hb%elem_of_map_to_list. revert r b Hb.
    assert (Forall (λ e, v3_network !! e.1 = Some e.2) (map_to_list (cached v3_node_1))) as Hall
      by (vm_compute; repeat constructor).
    rewrite Forall_forall in Hall. intros r b Hb. exact (Hall (r, b) Hb).
  - apply view_check_ok; [exact Hok2|reflexivity|vm_compute; reflexivity].
  - done.
Qed.

Lemma v3_quorums_6 : v3_quorums committee_6 1.
Proof. by vm_compute. Qed.

Lemma v3_direct_agreement_witness :
  ∃ st, slot_try_direct_decide v3_decider v3_node_1 (mkSlot 1 0) = Done st ∧
    slot_try_direct_decide v3_decider v3_node_2 (mkSlot 1 0) = Done st ∧ LeaderStatus_is_decided st = true.
Proof.
  destruct (v3_direct_agreement committee_6 1 {[5%N]} v3_network v3_node_1 v3_node_2 v3_decider v3_decider (mkSlot 1 0))
    as (st & st' & Hrun & Hrun' & Heq);
    [exact v3_network_ok|exact v3_quorums_6|reflexivity|reflexivity|exact (proj1 v3_views)|apply v3_nodes_ok
    |exact (proj2 v3_views)|apply v3_nodes_ok|by vm_compute|by vm_compute|by vm_compute|].
  assert (LeaderStatus_is_decided st = true) as Hd by (vm_compute in Hrun; injection Hrun as <-; reflexivity).
  assert (LeaderStatus_is_decided st' = true) as Hd' by (vm_compute in Hrun'; injection Hrun' as <-; reflexivity).
  rewrite <- (Heq Hd Hd') in Hrun'. exists st. exact (conj Hrun (conj Hrun' Hd)).
Defined.

Lemma v3_direct_final_witness :
  slot_try_direct_decide v3_decider v3_node_1 (mkSlot 2 4) = Done (LSkip (mkSlot 2 4)) ∧
  ∃ sts, slot_try_indirect_decide v3_decider v3_node_2 v3_anchor [mkSlot 2 0; mkSlot 2 4] = Done sts ∧
    sts !! 1 = Some (LSkip (mkSlot 2 4)).
Proof.
  destruct (v3_direct_final committee_6 1 {[5%N]} v3_network v3_node_1 v3_node_2 v3_decider v3_decider (mkSlot 2 4)
    [mkSlot 2 0; mkSlot 2 4] v3_anchor) as (st & sts & Hrun & Hrun' & _ & _ & Hfinal);
    [exact v3_network_ok|exact v3_quorums_6|reflexivity|reflexivity|exact (proj1 v3_views)|apply v3_nodes_ok
    |exact (proj2 v3_views)|apply v3_nodes_ok|by vm_compute|by vm_compute|by vm_compute|auto with lists
    |intros s Hs; apply elem_of_cons in Hs as [->|Hs]; [done|]; by apply list_elem_of_singleton in Hs as ->
    |vm_compute; reflexivity|by vm_compute|].
  assert (slot_try_direct_decide v3_decider v3_node_1 (mkSlot 2 4) = Done (LSkip (mkSlot 2 4))) as Hskip
    by (vm_compute; reflexivity).
  assert (st = LSkip (mkSlot 2 4)) as -> by (rewrite Hskip in Hrun; by injection Hrun as <-).
  split; [exact Hskip|]. exists sts. split; [exact Hrun'|exact (Hfinal 1 eq_refl eq_refl)].
Defined.

Lemma v3_indirect_deterministic_witness :
  ∃ b s, slot_try_indirect_decide v3_decider v3_node_1 (v3_block (mkBlockRef 3 0 30)) [mkSlot 1 0; mkSlot 1 7]
      = Done [LCommit b; LSkip s] ∧
    slot_try_indirect_decide v3_decider v3_node_2 (v3_block (mkBlockRef 3 0 30)) [mkSlot 1 0; mkSlot 1 7]
      = Done [LCommit b; LSkip s].
Proof.
  destruct (v3_indirect_deterministic committee_6 1 {[5%N]} v3_network v3_node_1 v3_node_2 v3_decider v3_decider
    [mkSlot 1 0; mkSlot 1 7] 1 (v3_block (mkBlockRef 3 0 30))) as (sts & Hrun & Hrun');
    [exact v3_network_ok|exact v3_quorums_6|reflexivity|reflexivity|exact (proj1 v3_views)|exact (proj2 v3_views)
    |by vm_compute|by vm_compute|by vm_compute|done
    |intros s Hs; apply elem_of_cons in Hs as [->|Hs]; [done|]; by apply list_elem_of_singleton in Hs as ->
    |vm_compute; reflexivity|vm_compute; reflexivity|by vm_compute|].
  rewrite Hrun, Hrun'. clear Hrun'. vm_compute in Hrun. injection Hrun as <-. eexists _, _. split; reflexivity.
Defined.
