(* ===== verification/Linearizer.v ===== *)
(** * The linearizer (consensus/core/src/linearizer.rs)

    Expands a sequence of committed leaders into sub-dags: each leader commits the
    part of its causal history, above the gc round, that no earlier leader has
    committed. The traversal is written against the trait [BlockStoreAPI], a
    class here, and verified against its contract [BlockStoreLaws], which the
    dag state implements. *)

From S2P Require Import Prelude Committee Block StakeAggregator ThresholdClock Commit Store LeaderScoring.
From S2P Require Import DagState DagInvariant CausalHistory.

(** [bs_len] is the number of blocks in the store. It bounds the traversal. *)
Class BlockStoreAPI (D : Type) := {
  bs_get_blocks : D → list BlockRef → outcome (list (option VerifiedBlock));
  bs_gc_round : D → N;
  bs_set_committed : D → BlockRef → outcome (D * bool);
  bs_is_committed : D → BlockRef → outcome bool;
  bs_len : D → nat;
}.

#[export] Instance DagState_BlockStoreAPI {S} `{Store S} : BlockStoreAPI (DagState S) := {|
  bs_get_blocks := get_blocks;
  bs_gc_round := gc_round;
  bs_set_committed := set_committed;
  bs_is_committed := is_committed;
  bs_len := λ ds, size (ds_recent_blocks ds);
|}.

(** ** Collecting a sub-dag *)
Section linearize.
Context {D : Type} `{BlockStoreAPI D}.

(** The filter on the ancestors of a block. *)
Definition to_expand (gc_round : N) (d : D) (ancestor : BlockRef) : outcome bool :=
  if decide (gc_round < ref_round ancestor)%N then negb <$> bs_is_committed d ancestor else Done false.

Definition commit_block (d : D) (block : VerifiedBlock) : outcome D :=
  '(d, first_time) ← bs_set_committed d (reference block);
  rassert (first_time = true);; Done d.

(** The uncommitted ancestors of a block above the gc round, marked committed. *)
Definition expand (gc_round : N) (d : D) (x : VerifiedBlock) : outcome (D * list VerifiedBlock) :=
  refs ← filter_outcome (to_expand gc_round d) (ancestors x);
  blocks ← bs_get_blocks d refs;
  ancestors ← mapM unwrap blocks;
  d ← for_each commit_block d ancestors;
  Done (d, ancestors).

(** The loop on the stack [buffer], whose top is the head of the list. *)
Fixpoint linearize_loop (gc_round : N) (fuel : nat) (d : D) (buffer to_commit : list VerifiedBlock) :
    outcome (D * list VerifiedBlock) :=
  match buffer with
  | [] => Done (d, to_commit)
  | x :: buffer =>
      match fuel with
      | O => OutOfFuel
      | S fuel =>
          '(d, ancestors) ← expand gc_round d x;
          linearize_loop gc_round fuel d (reverse ancestors ++ buffer) (to_commit ++ [x])
      end
  end.

Definition linearize_sub_dag (leader_block : VerifiedBlock) (d : D) : outcome (D * list VerifiedBlock) :=
  let gc_round := bs_gc_round d in
  d ← commit_block d leader_block;
  '(d, to_commit) ← linearize_loop gc_round (bs_len d) d [leader_block] [];
  rassert (Forall (λ b, gc_round < round b)%N to_commit);;
  Done (d, sort_sub_dag_blocks to_commit).

End linearize.

(** ** The timestamp of a commit *)

Definition timestamp_le (a b : N * N) : Prop := (a.1 ≤ b.1)%N.

#[export] Instance timestamp_le_dec : RelDecision timestamp_le.
Proof. intros a b. unfold timestamp_le. apply _. Defined.
#[export] Instance timestamp_le_trans : Transitive timestamp_le.
Proof. intros ???. unfold timestamp_le. lia. Qed.
#[export] Instance timestamp_le_total : Total timestamp_le.
Proof. intros ??. unfold timestamp_le. lia. Qed.

(** The scan for the first timestamp whose cumulative stake is more than half. *)
Fixpoint median_scan (half cumulative_stake : N) (timestamps : list (N * N)) : option N :=
  match timestamps with
  | [] => None
  | (ts, stake) :: timestamps =>
      let cumulative_stake := cumulative_stake +₆₄ stake in
      if decide (half < cumulative_stake)%N then Some ts else median_scan half cumulative_stake timestamps
  end.

Definition median_timestamps_by_stake_inner (timestamps : list (N * N)) (total_stake : N) : outcome N :=
  let timestamps := stable_sort timestamp_le timestamps in
  match median_scan (total_stake / 2)%N 0 timestamps with
  | Some ts => Done ts
  | None => '(ts, _) ← unwrap (last timestamps); Done ts
  end.

Inductive MedianError :=
  | NoBlocksProvided
  | InsufficientStake (total_stake quorum : N).

Definition median_timestamp_by_stake (c : Committee) (blocks : list VerifiedBlock) :
    outcome (result N MedianError) :=
  timestamps ← mapM (λ b, a ← authority c (author b); Done (timestamp_ms b, stake a)) blocks;
  let total_stake := u64_sum (map snd timestamps) in
  match timestamps with
  | [] => Done (Err NoBlocksProvided)
  | _ =>
      if decide (total_stake < quorum_threshold c)%N
      then Done (Err (InsufficientStake total_stake (quorum_threshold c)))
      else Ok <$> median_timestamps_by_stake_inner timestamps total_stake
  end.

Definition calculate_commit_timestamp {D} `{BlockStoreAPI D} (c : Committee) (d : D) (leader_block : VerifiedBlock)
    (last_commit_timestamp_ms : N) : outcome N :=
  let block_refs := filter (λ r, ref_round r = round leader_block -₃₂ 1) (ancestors leader_block) in
  os ← bs_get_blocks d block_refs;
  blocks ← mapM unwrap os;
  r ← median_timestamp_by_stake c blocks;
  timestamp_ms ← unwrap_ok r;
  Done (N.max timestamp_ms last_commit_timestamp_ms).

(** ** The linearizer of the dag state *)
Section linearizer.
Context {S : Type} `{Store S} `{BlockCodec} `{CommitCodec}.
Implicit Types ds : DagState S.

Definition collect_sub_dag_and_commit ds (leader_block : VerifiedBlock) :
    outcome (DagState S * CommittedSubDag * TrustedCommit) :=
  let index := last_commit_index ds in
  let digest := last_commit_digest ds in
  let last_timestamp_ms := last_commit_timestamp_ms ds in
  '(ds, to_commit) ← linearize_sub_dag leader_block ds;
  timestamp_ms ← calculate_commit_timestamp (ds_committee ds) ds leader_block last_timestamp_ms;
  let commit := Commit_new (index +₃₂ 1) digest timestamp_ms (reference leader_block) (map reference to_commit) in
  serialized ← unwrap (bcs_commit commit);
  let commit := TrustedCommit_new_trusted commit serialized in
  let sub_dag := CommittedSubDag_new (reference leader_block) to_commit timestamp_ms (TrustedCommit_reference commit) in
  Done (ds, sub_dag, commit).

(** The lookups of the metric on pruned blocks. *)
Definition update_blocks_pruned_metric ds (sub_dag : CommittedSubDag) : outcome () :=
  for_each (λ _ r,
      if decide (ref_round r ≤ gc_round ds)%N then
        last ← vec_index (last_committed_rounds ds) (ref_author r);
        if decide (last ≠ ref_round r) then authority (ds_committee ds) (ref_author r);; Done () else Done ()
      else Done ())
    () (sd_blocks sub_dag ≫= ancestors).

Definition handle_leader (s : DagState S * list CommittedSubDag) (leader_block : VerifiedBlock) :
    outcome (DagState S * list CommittedSubDag) :=
  let '(ds, committed_sub_dags) := s in
  '(ds, sub_dag, commit) ← collect_sub_dag_and_commit ds leader_block;
  update_blocks_pruned_metric ds sub_dag;;
  ds ← add_commit ds commit;
  Done (ds, committed_sub_dags ++ [sub_dag]).

Definition handle_commit ds (committed_leaders : list VerifiedBlock) :
    outcome (DagState S * list CommittedSubDag) :=
  for_each handle_leader (ds, []) committed_leaders.

End linearizer.
