(* ===== verification/LinearizerSpec.v ===== *)
(** * Correctness of the linearizer

    A sub-dag is exactly the uncommitted causal history of its leader, no block is
    committed twice, and nodes that agree on the history of a leader and on what
    is already committed produce the same list of blocks. *)

From S2P Require Import Prelude Committee Block StakeAggregator ThresholdClock Commit Store LeaderScoring.
From S2P Require Import DagState DagInvariant CausalHistory Linearizer.

(** What the traversal needs of a store: an abstract state of blocks and of
    committed references, and operations that respect it. *)
Class BlockStoreLaws (D : Type) `{BlockStoreAPI D} := {
  bs_ok : D → Prop;
  bs_blocks : D → gmap BlockRef VerifiedBlock;
  bs_committed : D → gset BlockRef;
  bs_reference_law d r b : bs_ok d → bs_blocks d !! r = Some b → reference b = r;
  bs_get_blocks_law d refs : bs_ok d → (∀ r, r ∈ refs → r ∈ dom (bs_blocks d)) →
    bs_get_blocks d refs = Done (map (λ r, bs_blocks d !! r) refs);
  bs_is_committed_law d r : bs_ok d → r ∈ dom (bs_blocks d) →
    bs_is_committed d r = Done (bool_decide (r ∈ bs_committed d));
  bs_set_committed_law d r : bs_ok d → r ∈ dom (bs_blocks d) →
    ∃ d', bs_set_committed d r = Done (d', bool_decide (r ∉ bs_committed d)) ∧ bs_ok d' ∧
      bs_blocks d' = bs_blocks d ∧ bs_committed d' = {[r]} ∪ bs_committed d ∧
      bs_gc_round d' = bs_gc_round d ∧ bs_len d' = bs_len d;
  bs_len_law d : bs_ok d → size (bs_blocks d) ≤ bs_len d;
}.

(** The stored blocks and their commit status form a dag: ancestors are from
    earlier rounds and pairwise different, and above the gc round they are in the
    store, and committed if the block is. *)
Record store_closed (gc : N) (B : gmap BlockRef VerifiedBlock) (M : gset BlockRef) : Prop := {
  sc_reference r b : B !! r = Some b → reference b = r;
  sc_rounds r b a : B !! r = Some b → a ∈ ancestors b → (ref_round a < ref_round r)%N;
  sc_distinct r b : B !! r = Some b → NoDup (ancestors b);
  sc_causal r b a : B !! r = Some b → a ∈ ancestors b → (gc < ref_round a)%N → a ∈ dom B;
  sc_committed r b a : B !! r = Some b → r ∈ M → a ∈ ancestors b → (gc < ref_round a)%N → a ∈ M;
}.

Abbreviation refs_of l := (list_to_set (map reference l) : gset BlockRef).

Section traversal.
Context {D : Type} `{BlockStoreLaws D}.
Context (gc : N) (B : gmap BlockRef VerifiedBlock) (M0 : gset BlockRef) (leader : VerifiedBlock).
Context (Hclosed : store_closed gc B M0) (Hleader : B !! reference leader = Some leader).

(** The history of the leader. *)
Definition history (r : BlockRef) : Prop := r = reference leader ∨ linked_to B leader r.

Lemma history_step r b a : history r → B !! r = Some b → a ∈ ancestors b → history a.
Proof.
  intros [->|Hl] Hb Ha; right.
  - rewrite Hleader in Hb. injection Hb as <-. by apply linked_direct.
  - eapply linked_to_trans; [done|done|by apply linked_direct].
Qed.

(** The invariant of the loop: [T] is the output, [buffer] the stack. *)
Record loop_inv (d : D) (buffer T : list VerifiedBlock) : Prop := {
  lv_ok : bs_ok d;
  lv_blocks : bs_blocks d = B;
  lv_committed : bs_committed d = refs_of (T ++ buffer) ∪ M0;
  lv_fresh r : r ∈ map reference (T ++ buffer) → r ∉ M0;
  lv_nodup : NoDup (map reference (T ++ buffer));
  lv_member b : b ∈ T ++ buffer → B !! reference b = Some b ∧ history (reference b) ∧ (gc < round b)%N;
  lv_expanded b a : b ∈ T → a ∈ ancestors b → (gc < ref_round a)%N → a ∈ refs_of (T ++ buffer) ∪ M0;
}.

(** The references that one iteration adds. *)
Definition expansion (d : D) (x : VerifiedBlock) : list BlockRef :=
  filter (λ a, (gc < ref_round a)%N ∧ a ∉ bs_committed d) (ancestors x).

Lemma to_expand_spec d x :
  bs_ok d → bs_blocks d = B → B !! reference x = Some x →
  filter_outcome (to_expand gc d) (ancestors x) = Done (expansion d x).
Proof.
  intros Hok HB Hx.
  rewrite (filter_outcome_done _ (λ a, bool_decide ((gc < ref_round a)%N ∧ a ∉ bs_committed d))).
  { f_equal. apply list_filter_iff. intros a. by rewrite bool_decide_eq_true. }
  intros a Ha. unfold to_expand. case_decide as Hgc.
  - rewrite bs_is_committed_law; [|done|rewrite HB; by eapply sc_causal]. cbn. f_equal.
    destruct (decide (a ∈ bs_committed d)) as [Hin|Hin].
    + rewrite bool_decide_eq_true_2, bool_decide_eq_false_2 by tauto. done.
    + rewrite bool_decide_eq_false_2, bool_decide_eq_true_2 by tauto. done.
  - rewrite bool_decide_eq_false_2 by tauto. done.
Qed.

(** Blocks of references that are in the store. *)
Definition blocks_at (refs : list BlockRef) : list VerifiedBlock := omap (λ r, B !! r) refs.

Lemma blocks_at_refs d refs :
  bs_ok d → bs_blocks d = B → (∀ r, r ∈ refs → r ∈ dom B) → map reference (blocks_at refs) = refs.
Proof.
  intros Hok HB. induction refs as [|r refs IH]; intros Hin; [done|].
  destruct (proj1 (elem_of_dom B r)) as [b Hb]; [apply Hin, list_elem_of_here|].
  unfold blocks_at in *. cbn. rewrite Hb. cbn. rewrite IH by eauto with lists.
  f_equal. eapply bs_reference_law; [done|by rewrite HB].
Qed.

Lemma fetch_blocks d refs :
  bs_ok d → bs_blocks d = B → (∀ r, r ∈ refs → r ∈ dom B) →
  (blocks ← bs_get_blocks d refs; mapM unwrap blocks) = Done (blocks_at refs).
Proof.
  intros Hok HB Hin. rewrite bs_get_blocks_law by (rewrite ?HB; done). run_bind. rewrite HB.
  apply (mapM_unwrap (λ r, B !! r)). intros r Hr. by apply elem_of_dom, Hin.
Qed.

(** Marking new blocks succeeds. *)
Lemma commit_block_spec d b :
  bs_ok d → bs_blocks d = B → reference b ∈ dom B → reference b ∉ bs_committed d →
  ∃ d', commit_block d b = Done d' ∧ bs_ok d' ∧ bs_blocks d' = B ∧
    bs_committed d' = {[reference b]} ∪ bs_committed d ∧ bs_gc_round d' = bs_gc_round d ∧ bs_len d' = bs_len d.
Proof.
  intros Hok HB Hin Hnew.
  destruct (bs_set_committed_law d (reference b)) as (d1 & Hset & Hok1 & HB1 & HM1 & Hgc1 & Hlen1); [done|by rewrite HB|].
  exists d1. unfold commit_block. rewrite Hset. run_bind.
  rewrite rassert_true by (by apply bool_decide_eq_true). split_and!; try done. congruence.
Qed.

Lemma commit_blocks_spec d l :
  bs_ok d → bs_blocks d = B → NoDup (map reference l) →
  (∀ r, r ∈ map reference l → r ∈ dom B ∧ r ∉ bs_committed d) →
  ∃ d', for_each commit_block d l = Done d' ∧ bs_ok d' ∧ bs_blocks d' = B ∧
    bs_committed d' = refs_of l ∪ bs_committed d ∧ bs_gc_round d' = bs_gc_round d ∧ bs_len d' = bs_len d.
Proof.
  revert d. induction l as [|b l IH]; intros d Hok HB Hnd Hl; cbn [for_each].
  { exists d. split_and!; try done. cbn. set_solver. }
  cbn in Hnd. apply NoDup_cons in Hnd as [Hb Hnd].
  destruct (Hl (reference b)) as [Hin Hnew]; [cbn; set_solver|].
  destruct (commit_block_spec d b) as (d1 & -> & Hok1 & HB1 & HM1 & Hgc1 & Hlen1); [done..|].
  run_bind.
  destruct (IH d1) as (d' & Hrun & Hok' & HB' & HM' & Hgc' & Hlen'); [done|congruence|done| |].
  - intros r Hr. destruct (Hl r) as [? ?]; [cbn; set_solver|]. split; [done|]. rewrite HM1.
    intros [->%elem_of_singleton|?]%elem_of_union; done.
  - exists d'. split_and!; [done|done|done| |congruence|congruence]. rewrite HM', HM1. cbn. set_solver.
Qed.
Lemma expansion_spec d x :
  bs_blocks d = B → B !! reference x = Some x →
  NoDup (expansion d x) ∧
  ∀ r, r ∈ expansion d x ↔ r ∈ ancestors x ∧ (gc < ref_round r)%N ∧ r ∉ bs_committed d.
Proof.
  intros HB Hx. split.
  - apply NoDup_filter. by eapply sc_distinct.
  - intros r. unfold expansion. rewrite list_elem_of_filter. tauto.
Qed.

Lemma stack_perm (T E buffer : list VerifiedBlock) x :
  (T ++ [x]) ++ reverse E ++ buffer ≡ₚ E ++ (T ++ x :: buffer).
Proof. rewrite reverse_Permutation, <- app_assoc. cbn. solve_Permutation. Qed.

Lemma loop_inv_step d d' x buffer T E :
  loop_inv d (x :: buffer) T →
  map reference E = expansion d x → (∀ b, b ∈ E → B !! reference b = Some b) →
  bs_ok d' → bs_blocks d' = B → bs_committed d' = refs_of E ∪ bs_committed d →
  loop_inv d' (reverse E ++ buffer) (T ++ [x]).
Proof.
  intros [Hok HB HM Hfresh Hnd Hmem Hexp] HE HEb Hok' HB' HM'.
  destruct (Hmem x) as (Hx & Hhist & Hgc); [set_solver|].
  destruct (expansion_spec d x HB Hx) as [HndE Hin]. rewrite <- HE in HndE, Hin.
  pose proof (stack_perm T E buffer x) as Hperm.
  assert (map reference ((T ++ [x]) ++ reverse E ++ buffer) ≡ₚ map reference E ++ map reference (T ++ x :: buffer))
    as Hpr by (rewrite <- map_app; by apply fmap_Permutation).
  assert (refs_of ((T ++ [x]) ++ reverse E ++ buffer) = refs_of E ∪ refs_of (T ++ x :: buffer)) as Hset.
  { apply set_eq. intros r. rewrite elem_of_union, !elem_of_list_to_set, Hpr, elem_of_app. done. }
  split; [done|done| | | | |].
  - rewrite HM', HM, Hset. set_solver.
  - intros r. rewrite Hpr, elem_of_app. intros [Hr|Hr]; [|by apply Hfresh].
    apply Hin in Hr as (_ & _ & Hr). rewrite HM in Hr. set_solver.
  - rewrite Hpr. apply NoDup_app. split_and!; [done| |done].
    intros r (_ & _ & Hr)%Hin Hr'. apply Hr. rewrite HM. apply elem_of_union_l. by apply elem_of_list_to_set.
  - intros b. rewrite Hperm, elem_of_app. intros [Hb|Hb]; [|by apply Hmem].
    assert (reference b ∈ map reference E) as Hbr by (by apply (list_elem_of_fmap_2 reference)).
    apply Hin in Hbr as (Ha & Hr & _). split_and!; [by apply HEb|by eapply history_step|done].
  - intros b a Hb Ha Har. rewrite Hset. apply elem_of_app in Hb as [Hb|Hb%list_elem_of_singleton].
    + pose proof (Hexp b a Hb Ha Har). set_solver.
    + subst b. destruct (decide (a ∈ bs_committed d)) as [Hc|Hc]; [rewrite HM in Hc; set_solver|].
      apply elem_of_union_l, elem_of_union_l, elem_of_list_to_set, Hin. done.
Qed.

(** One iteration. *)
Lemma linearize_step d x buffer T :
  loop_inv d (x :: buffer) T →
  ∃ d', expand gc d x = Done (d', blocks_at (expansion d x)) ∧
    loop_inv d' (reverse (blocks_at (expansion d x)) ++ buffer) (T ++ [x]) ∧
    bs_gc_round d' = bs_gc_round d ∧ bs_len d' = bs_len d.
Proof.
  intros Hinv. pose proof (lv_ok _ _ _ Hinv) as Hok. pose proof (lv_blocks _ _ _ Hinv) as HB.
  destruct (lv_member _ _ _ Hinv x) as (Hx & Hhist & Hgc); [set_solver|].
  destruct (expansion_spec d x HB Hx) as [HndE HE].
  assert (∀ r, r ∈ expansion d x → r ∈ dom B) as HinB by (intros r (Ha & Hr & _)%HE; by eapply sc_causal).
  pose proof (blocks_at_refs d _ Hok HB HinB) as Hrefs.
  unfold expand. rewrite to_expand_spec by done. run_bind.
  pose proof (fetch_blocks d _ Hok HB HinB) as Hfetch.
  destruct (commit_blocks_spec d (blocks_at (expansion d x))) as (d' & Hrun & Hok' & HB' & HM' & Hgc' & Hlen');
    [done|done|by rewrite Hrefs| |].
  { rewrite Hrefs. intros r Hr. split; [by apply HinB|]. by apply HE in Hr as (_ & _ & ?). }
  exists d'. apply bind_Done in Hfetch as (os & Hos & Hmap). rewrite Hos. run_bind.
  rewrite Hmap. run_bind. rewrite Hrun. split_and!; [done| |done|done].
  eapply loop_inv_step; [done|done| |done|done|done].
  intros b Hb. apply list_elem_of_omap in Hb as (r & Hr & Hb).
  rewrite (bs_reference_law d r b) by (rewrite ?HB; done). done.
Qed.

(** The loop empties the stack: every iteration outputs a block of the store that
    was not output before. *)
Lemma linearize_loop_spec fuel d buffer T :
  loop_inv d buffer T → size B - length T ≤ fuel →
  ∃ d' T', linearize_loop gc fuel d buffer T = Done (d', T') ∧ loop_inv d' [] T' ∧
    (∀ b, b ∈ T ++ buffer → b ∈ T') ∧ bs_gc_round d' = bs_gc_round d.
Proof.
  revert d buffer T. induction fuel as [|fuel IH]; intros d [|x buffer] T Hinv Hfuel; cbn [linearize_loop].
  1, 3: exists d, T; rewrite app_nil_r; done.
  - exfalso. assert (length (T ++ x :: buffer) ≤ size B) as Hle.
    { rewrite <- (length_map reference), <- (size_list_to_set (C := gset BlockRef)) by apply Hinv.
      rewrite <- (size_dom (D := gset BlockRef)). apply subseteq_size. intros r Hr%elem_of_list_to_set.
      apply list_elem_of_fmap in Hr as (b & -> & Hb). apply (lv_member _ _ _ Hinv) in Hb as [Hb _].
      by eapply elem_of_dom_2. }
    rewrite length_app in Hle. cbn in Hle. lia.
  - destruct (linearize_step d x buffer T Hinv) as (d1 & -> & Hinv1 & Hgc1 & Hlen1).
    run_bind.
    destruct (IH _ _ _ Hinv1) as (d' & T' & -> & Hinv' & Hsub & Hgc').
    { rewrite length_app. cbn. lia. }
    exists d', T'. split_and!; [done|done| |congruence]. intros b Hb. apply Hsub.
    rewrite stack_perm, elem_of_app. by right.
Qed.

Lemma linked_lower b r : linked_to B b r → B !! reference b = Some b → (ref_round r < round b)%N.
Proof.
  induction 1 as [b r Hr|b r b' r' Hr Hb' Hl IH]; intros Hb.
  - by apply (sc_rounds _ _ _ Hclosed (reference b) b r).
  - pose proof (sc_reference _ _ _ Hclosed _ _ Hb') as Href. rewrite Href in IH. specialize (IH Hb').
    pose proof (sc_rounds _ _ _ Hclosed _ _ _ Hb Hr) as Hlt. rewrite <- Href in Hlt. cbn in Hlt. lia.
Qed.

Lemma loop_closed d T b a :
  loop_inv d [] T → B !! reference b = Some b → reference b ∈ refs_of T ∪ M0 → a ∈ ancestors b →
  (gc < ref_round a)%N → a ∈ refs_of T ∪ M0.
Proof.
  intros Hinv Hb [Hin%elem_of_list_to_set|Hin]%elem_of_union Ha Hgc.
  - apply list_elem_of_fmap in Hin as (b' & Heq & Hin).
    destruct (lv_member _ _ _ Hinv b') as [Hb' _]; [by rewrite app_nil_r|].
    rewrite Heq, Hb' in Hb. injection Hb as ->.
    pose proof (lv_expanded _ _ _ Hinv b a Hin Ha Hgc) as Hres. by rewrite app_nil_r in Hres.
  - apply elem_of_union_r. by eapply sc_committed.
Qed.

(** When the loop ends the output is the uncommitted history above the gc round. *)
Lemma loop_inv_complete d T r :
  loop_inv d [] T → reference leader ∈ map reference T → history r → (gc < ref_round r)%N →
  r ∈ refs_of T ∪ M0.
Proof.
  intros Hinv HL Hr Hgc.
  assert (∀ b r, linked_to B b r → B !! reference b = Some b → reference b ∈ refs_of T ∪ M0 →
    (gc < ref_round r)%N → r ∈ refs_of T ∪ M0) as Hlinked.
  { clear r Hr Hgc. intros b r Hl. induction Hl as [b r Hr|b r b' r' Hr Hb' Hl IH]; intros Hb Hin Hgc.
    - by eapply loop_closed.
    - pose proof (sc_reference _ _ _ Hclosed _ _ Hb') as Href.
      assert (ref_round r' < round b')%N as Hlt by (apply linked_lower; [done|by rewrite Href]).
      rewrite Href in IH. apply IH; [done| |done]. eapply loop_closed; [done|exact Hb|done|done|].
      rewrite <- Href. cbn. lia. }
  destruct Hr as [->|Hr].
  - apply elem_of_union_l. by apply elem_of_list_to_set.
  - eapply Hlinked; [done|done| |done]. apply elem_of_union_l. by apply elem_of_list_to_set.
Qed.

Lemma initial_inv d1 :
  bs_ok d1 → bs_blocks d1 = B → bs_committed d1 = {[reference leader]} ∪ M0 →
  reference leader ∉ M0 → (gc < round leader)%N → loop_inv d1 [leader] [].
Proof.
  intros Hok HB HM Hnew Hgc. split; cbn; [done|done|rewrite HM; set_solver| | | |].
  - intros r ->%list_elem_of_singleton. done.
  - apply NoDup_singleton.
  - intros b ->%list_elem_of_singleton. split_and!; [done|by left|done].
  - intros b a []%not_elem_of_nil.
Qed.

Lemma sort_refs T : map reference (sort_sub_dag_blocks T) ≡ₚ map reference T.
Proof. apply (fmap_Permutation reference), stable_sort_perm. Qed.

(** The result of the traversal on a well-formed store. *)
Record linearized (l : list VerifiedBlock) : Prop := {
  ln_sorted : StronglySorted sub_dag_le l;
  ln_nodup : NoDup (map reference l);
  ln_exact b : b ∈ l ↔ B !! reference b = Some b ∧ history (reference b) ∧ (gc < round b)%N ∧ reference b ∉ M0;
}.

Lemma loop_linearized d T :
  loop_inv d [] T → leader ∈ T → linearized (sort_sub_dag_blocks T).
Proof.
  intros Hinv HL. split.
  - apply stable_sort_sorted; apply _.
  - pose proof (lv_nodup _ _ _ Hinv) as Hnd. rewrite app_nil_r in Hnd.
    by rewrite sort_refs.
  - intros b. unfold sort_sub_dag_blocks. rewrite elem_of_stable_sort. split.
    + intros Hb. assert (b ∈ T ++ []) as Hb' by (by rewrite app_nil_r).
      destruct (lv_member _ _ _ Hinv b Hb') as (HBb & Hh & Hgc). split_and!; [done|done|done|].
      apply (lv_fresh _ _ _ Hinv). by apply (list_elem_of_fmap_2 reference).
    + intros (HBb & Hh & Hgc & Hnew).
      assert (reference b ∈ refs_of T ∪ M0) as Hin.
      { eapply loop_inv_complete; [done|by apply (list_elem_of_fmap_2 reference)|done|done]. }
      apply elem_of_union in Hin as [Hin%elem_of_list_to_set|?]; [|done].
      apply list_elem_of_fmap in Hin as (b' & Heq & Hin).
      destruct (lv_member _ _ _ Hinv b') as [HBb' _]; [by rewrite app_nil_r|].
      rewrite Heq, HBb' in HBb. by injection HBb as ->.
Qed.

Lemma linearize_sub_dag_spec d :
  bs_ok d → bs_blocks d = B → bs_committed d = M0 → bs_gc_round d = gc →
  reference leader ∉ M0 → (gc < round leader)%N →
  ∃ d' l, linearize_sub_dag leader d = Done (d', l) ∧ linearized l ∧
    bs_ok d' ∧ bs_blocks d' = B ∧ bs_committed d' = refs_of l ∪ M0 ∧ bs_gc_round d' = gc ∧
    store_closed gc B (bs_committed d').
Proof.
  intros Hok HB HM Hg Hnew Hgc. unfold linearize_sub_dag. rewrite Hg.
  destruct (commit_block_spec d leader) as (d1 & -> & Hok1 & HB1 & HM1 & Hgc1 & Hlen1);
    [done|done|by eapply elem_of_dom_2|by rewrite HM|]. run_bind. rewrite HM in HM1.
  destruct (linearize_loop_spec (bs_len d1) d1 [leader] []) as (d' & T & -> & Hinv & Hsub & Hgc').
  { by apply initial_inv. } { pose proof (bs_len_law d1 Hok1) as Hl. rewrite HB1 in Hl. lia. }
  run_bind. rewrite rassert_true.
  2: { apply Forall_forall. intros b Hb. eapply (lv_member _ _ _ Hinv). by rewrite app_nil_r. }
  run_bind.
  assert (leader ∈ T) as HL by (apply Hsub; set_solver).
  assert (refs_of (sort_sub_dag_blocks T) = refs_of T) as Hrefs.
  { apply set_eq. intros r. by rewrite !elem_of_list_to_set, sort_refs. }
  assert (bs_committed d' = refs_of T ∪ M0) as HM' by (rewrite (lv_committed _ _ _ Hinv), app_nil_r; done).
  exists d', (sort_sub_dag_blocks T). split_and!; [done|by eapply loop_linearized|apply Hinv|apply Hinv| |congruence|].
  - by rewrite Hrefs.
  - rewrite HM'. destruct Hclosed as [H1 H2 H3 H4 H5]. split; [done|done|done|done|].
    intros r b a Hb Hr Ha Har. eapply loop_closed; [done| | |done|done]; by rewrite (H1 r b).
Qed.

End traversal.

(** ** Agreement of two traversals *)
Section agreement.
Context {D D' : Type} `{BlockStoreLaws D} `{BlockStoreLaws D'}.
Context (gc : N) (B B' : gmap BlockRef VerifiedBlock) (M M' : gset BlockRef) (leader : VerifiedBlock).
Context (Hclosed : store_closed gc B M) (Hleader : B !! reference leader = Some leader).
Context (Hclosed' : store_closed gc B' M') (Hleader' : B' !! reference leader = Some leader).

(** The two stores agree on the history of the leader above the gc round. *)
Context (Hagree : ∀ r, history B leader r → (gc < ref_round r)%N → B !! r = B' !! r ∧ (r ∈ M ↔ r ∈ M')).

Lemma expansions_agree (d : D) (d' : D') x buffer T :
  loop_inv gc B M leader d (x :: buffer) T → loop_inv gc B' M' leader d' (x :: buffer) T →
  expansion gc d x = expansion gc d' x ∧
  blocks_at B (expansion gc d x) = blocks_at B' (expansion gc d' x).
Proof.
  intros Hinv Hinv'.
  destruct (lv_member _ _ _ _ _ _ _ Hinv x) as (Hx & Hh & _); [set_solver|].
  assert (∀ a, a ∈ ancestors x → history B leader a) as Hanc by (intros a Ha; by eapply history_step).
  assert (expansion gc d x = expansion gc d' x) as Hexp.
  { apply list_filter_iff'. intros a Ha. rewrite (lv_committed _ _ _ _ _ _ _ Hinv), (lv_committed _ _ _ _ _ _ _ Hinv').
    split; intros [Hgc Hin]; (split; [done|]); destruct (Hagree a (Hanc a Ha) Hgc) as [_ Hiff]; set_solver. }
  split; [done|]. rewrite <- Hexp. unfold blocks_at.
  assert (∀ r, r ∈ expansion gc d x → B !! r = B' !! r) as Heq.
  { intros r [[Hgc _] Ha]%list_elem_of_filter. by apply Hagree; [apply Hanc|]. }
  clear Hexp. induction (expansion gc d x) as [|r l IH]; [done|]. cbn.
  rewrite <- Heq by apply list_elem_of_here. destruct (B !! r); [f_equal|]; apply IH; eauto with lists.
Qed.

Lemma loops_agree fuel fuel' (d d1 : D) (d' d1' : D') buffer T T1 T1' :
  loop_inv gc B M leader d buffer T → loop_inv gc B' M' leader d' buffer T →
  linearize_loop gc fuel d buffer T = Done (d1, T1) → linearize_loop gc fuel' d' buffer T = Done (d1', T1') →
  T1 = T1'.
Proof.
  revert fuel' d d' buffer T. induction fuel as [|fuel IH]; intros fuel' d d' buffer T Hinv Hinv' Hrun Hrun'.
  - destruct buffer; [|done]. destruct fuel'; cbn in *; congruence.
  - destruct buffer as [|x buffer]; [destruct fuel'; cbn in *; congruence|].
    destruct fuel' as [|fuel']; [done|]. cbn [linearize_loop] in Hrun, Hrun'.
    destruct (linearize_step gc B M leader Hclosed Hleader d x buffer T Hinv) as (d2 & Hs & Hinv2 & _).
    destruct (linearize_step gc B' M' leader Hclosed' Hleader' d' x buffer T Hinv') as (d2' & Hs' & Hinv2' & _).
    destruct (expansions_agree d d' x buffer T Hinv Hinv') as [_ Heq]. rewrite <- Heq in Hinv2', Hs'.
    rewrite Hs in Hrun. rewrite Hs' in Hrun'.
    eapply (IH fuel' d2 d2'); [exact Hinv2|exact Hinv2'|exact Hrun|exact Hrun'].
Qed.

Lemma linearize_sub_dags_agree (d : D) (d' : D') :
  bs_ok d → bs_blocks d = B → bs_committed d = M → bs_gc_round d = gc →
  bs_ok d' → bs_blocks d' = B' → bs_committed d' = M' → bs_gc_round d' = gc →
  reference leader ∉ M → (gc < round leader)%N →
  ∃ d1 d1' l, linearize_sub_dag leader d = Done (d1, l) ∧ linearize_sub_dag leader d' = Done (d1', l).
Proof.
  intros Hok HB HM Hg Hok' HB' HM' Hg' Hnew Hgc.
  assert (reference leader ∉ M') as Hnew' by (destruct (Hagree (reference leader)) as [_ <-]; [by left|done|done]).
  destruct (linearize_sub_dag_spec gc B M leader Hclosed Hleader d) as (d1 & l & Hrun & _); [done..|].
  destruct (linearize_sub_dag_spec gc B' M' leader Hclosed' Hleader' d') as (d1' & l' & Hrun' & _); [done..|].
  exists d1, d1', l. split; [done|]. rewrite Hrun'. f_equal. f_equal.
  unfold linearize_sub_dag in Hrun, Hrun'. rewrite Hg in Hrun. rewrite Hg' in Hrun'.
  destruct (commit_block_spec B d leader) as (d2 & Hc & Hok2 & HB2 & HM2 & _);
    [done|done|by eapply elem_of_dom_2|by rewrite HM|].
  destruct (commit_block_spec B' d' leader) as (d2' & Hc' & Hok2' & HB2' & HM2' & _);
    [done|done|by eapply elem_of_dom_2|by rewrite HM'|].
  rewrite Hc in Hrun. rewrite Hc' in Hrun'. cbn [mbind outcome_bind] in Hrun, Hrun'. rewrite HM in HM2. rewrite HM' in HM2'.
  apply bind_Done in Hrun as ([d3 T] & Hloop & Hrun). apply bind_Done in Hrun as (u & _ & [= _ <-]).
  apply bind_Done in Hrun' as ([d3' T'] & Hloop' & Hrun'). apply bind_Done in Hrun' as (u' & _ & [= _ <-]).
  f_equal. symmetry. eapply loops_agree; [| |exact Hloop|exact Hloop']; by apply initial_inv.
Qed.

End agreement.

(** ** The dag state implements the interface *)
Section dag_store.
Context {S : Type} `{StoreLaws S}.
Implicit Types ds : DagState S.

Definition committed_refs ds : gset BlockRef :=
  dom (filter (λ e, bi_committed e.2 = true) (ds_recent_blocks ds)).

Lemma elem_of_committed_refs ds r :
  r ∈ committed_refs ds ↔ ∃ info, ds_recent_blocks ds !! r = Some info ∧ bi_committed info = true.
Proof.
  unfold committed_refs. rewrite elem_of_dom. unfold is_Some. setoid_rewrite map_lookup_filter_Some. done.
Qed.

Lemma committed_refs_mark ds r info :
  ds_recent_blocks ds !! r = Some info →
  committed_refs (set_recent_blocks (<[r := mkBlockInfo (bi_block info) (bi_children info)
    (bi_children_stake info) true (bi_included info)]> (ds_recent_blocks ds)) ds) = {[r]} ∪ committed_refs ds.
Proof.
  intros Hr. apply set_eq. intros r'. rewrite elem_of_union, elem_of_singleton, !elem_of_committed_refs. cbn.
  destruct (decide (r' = r)) as [->|Hne].
  - rewrite lookup_insert_eq. split; [by left|]. intros _. by eexists.
  - rewrite lookup_insert_ne by done. naive_solver.
Qed.

#[export] Program Instance DagState_BlockStoreLaws : BlockStoreLaws (DagState S) := {|
  bs_ok := dag_ok;
  bs_blocks := cached;
  bs_committed := committed_refs;
|}.
Next Obligation. intros ds r b Hok Hb. by destruct (dk_recent _ Hok _ _ Hb). Qed.
Next Obligation.
  intros ds refs Hok Hin. cbn. rewrite get_blocks_spec. f_equal. apply list_fmap_ext. intros i r Hi.
  apply list_elem_of_lookup_2, Hin, elem_of_dom in Hi as [b Hb].
  unfold block_of. destruct (dk_recent _ Hok _ _ Hb) as [_ [_ Hz _]]. rewrite decide_False by done.
  by rewrite accepted_lookup, Hb.
Qed.
Next Obligation.
  intros ds r Hok Hin. cbn. unfold is_committed. rewrite dom_cached in Hin.
  apply elem_of_dom in Hin as [info Hi]. rewrite Hi. cbn. f_equal.
  destruct (bi_committed info) eqn:Hc.
  - rewrite bool_decide_eq_true_2; [done|]. apply elem_of_committed_refs. eauto.
  - rewrite bool_decide_eq_false_2; [done|]. rewrite elem_of_committed_refs. intros (i & Hi' & Hc'). congruence.
Qed.
Next Obligation.
  intros ds r Hok Hin. cbn. rewrite dom_cached in Hin. apply elem_of_dom in Hin as [info Hi].
  destruct (set_committed ds r) as [[ds' first]| |] eqn:Hrun; unfold set_committed in Hrun; rewrite Hi in Hrun;
    cbn in Hrun; destruct (bi_committed info) eqn:Hc; try done; injection Hrun as <- <-.
  - exists ds. assert (r ∈ committed_refs ds) as Hin by (apply elem_of_committed_refs; eauto).
    rewrite bool_decide_eq_false_2 by tauto. split_and!; try done. set_solver.
  - assert (r ∉ committed_refs ds) as Hnin by (rewrite elem_of_committed_refs; intros (i & Hi' & Hc'); congruence).
    eexists. rewrite bool_decide_eq_true_2 by done. split; [done|].
    assert (dag_eqv (set_recent_blocks (<[r := mkBlockInfo (bi_block info) (bi_children info)
      (bi_children_stake info) true (bi_included info)]> (ds_recent_blocks ds)) ds) ds) as Heqv.
    { eapply (set_committed_eqv _ r _ true). unfold set_committed. rewrite Hi. cbn. by rewrite Hc. }
    split_and!; [by rewrite Heqv|apply Heqv|by apply committed_refs_mark|done|]. cbn.
    rewrite <- !(size_dom (D := gset BlockRef)), dom_insert_lookup_L; [done|by eexists].
Qed.
Next Obligation. intros ds Hok. cbn. unfold cached. rewrite map_size_fmap. done. Qed.

(** A view of the network is closed; what is committed has to be closed too. *)
Definition committed_closed ds : Prop :=
  ∀ r b a, cached ds !! r = Some b → r ∈ committed_refs ds → a ∈ ancestors b → (gc_round ds < ref_round a)%N →
    a ∈ committed_refs ds.

Lemma view_store_closed c ds :
  dag_view c ds → committed_closed ds → store_closed (gc_round ds) (cached ds) (committed_refs ds).
Proof.
  intros Hv Hcc. split.
  - intros r b Hb. by eapply dv_reference.
  - intros r b a Hb Ha. rewrite <- (dv_reference c ds r b) by done. eapply vb_rounds; [by eapply dv_valid|done].
  - intros r b Hb. eapply NoDup_fmap_1, vb_distinct. by eapply dv_valid.
  - intros r b a. apply Hv.
  - exact Hcc.
Qed.

End dag_store.
