(* ===== verification/CommitTimestamp.v ===== *)
(** * The timestamp of a commit

    The stake-weighted median of the timestamps of the leader's parents, and what
    faulty authorities can do to it. *)

From S2P Require Import Prelude Committee Block StakeAggregator Commit Linearizer.

Definition total (l : list (N * N)) : N := sumN (map snd l).

Lemma total_app l k : total (l ++ k) = (total l + total k)%N.
Proof. unfold total. by rewrite map_app, sumN_app. Qed.

Lemma total_cons x l : total (x :: l) = (x.2 + total l)%N.
Proof. done. Qed.

#[export] Instance total_perm : Proper ((≡ₚ) ==> (=)) total.
Proof. intros l k Hlk. unfold total. by rewrite Hlk. Qed.

Lemma total_filter_le (P : N * N → Prop) `{!∀ x, Decision (P x)} l : (total (filter P l) ≤ total l)%N.
Proof. induction l as [|x l IH]; [done|]. rewrite filter_cons. case_decide; rewrite !total_cons; lia. Qed.

Lemma total_filter_split (P : N * N → Prop) `{!∀ x, Decision (P x)} l :
  (total (filter P l) + total (filter (λ x, ¬ P x) l) = total l)%N.
Proof.
  induction l as [|x l IH]; [done|]. rewrite !filter_cons, total_cons.
  destruct (decide (P x)) as [Hx|Hx].
  - rewrite (decide_False (P := ¬ P x)) by tauto. rewrite total_cons. lia.
  - rewrite (decide_True (P := ¬ P x)) by done. rewrite total_cons. lia.
Qed.

(** The scan stops where the cumulative stake passes one half. *)
Lemma median_scan_spec half cum l :
  (cum ≤ half)%N → (half < cum + total l)%N → (cum + total l < u64_modulus)%N →
  ∃ l1 ts s l2, l = l1 ++ (ts, s) :: l2 ∧ median_scan half cum l = Some ts ∧
    (cum + total l1 ≤ half)%N ∧ (half < cum + total l1 + s)%N.
Proof.
  revert cum. induction l as [|[ts s] l IH]; intros cum Hle Hlt Hb; [unfold total in Hlt; cbn in Hlt; lia|].
  rewrite total_cons in Hlt, Hb. cbn [snd] in *. cbn [median_scan]. rewrite wrap_add_small by lia.
  case_decide as Hstop.
  - exists [], ts, s, l. unfold total. cbn. split_and!; [done|done|lia|lia].
  - destruct (IH (cum + s)%N) as (l1 & ts' & s' & l2 & -> & -> & H1 & H2); [lia|lia|lia|].
    exists ((ts, s) :: l1), ts', s', l2. rewrite total_cons. cbn. split_and!; [done|done|lia|lia].
Qed.

(** [m] splits the stake of [l] in half. *)
Record weighted_median (l : list (N * N)) (m : N) : Prop := {
  wm_member : m ∈ map fst l;
  wm_below : (total (filter (λ x, x.1 < m)%N l) ≤ total l / 2)%N;
  wm_up_to : (total l / 2 < total (filter (λ x, x.1 ≤ m)%N l))%N;
}.

#[export] Instance weighted_median_perm : Proper ((≡ₚ) ==> (=) ==> iff) weighted_median.
Proof.
  assert (∀ l k m, l ≡ₚ k → weighted_median l m → weighted_median k m) as Himpl.
  { intros l k m Hlk [Hm Hb Hu]. split.
    - by rewrite <- (fmap_Permutation fst _ _ Hlk).
    - by rewrite <- Hlk.
    - by rewrite <- Hlk. }
  intros l k Hlk m _ <-. split; apply Himpl; [done|by symmetry].
Qed.

Lemma sorted_median l l1 ts s l2 :
  StronglySorted timestamp_le l → l = l1 ++ (ts, s) :: l2 →
  (total l1 ≤ total l / 2)%N → (total l / 2 < total l1 + s)%N → weighted_median l ts.
Proof.
  intros Hs -> Hbelow Habove.
  assert (∀ x, x ∈ l1 → (x.1 ≤ ts)%N) as H1.
  { intros x Hx. apply StronglySorted_app in Hs as (Hcross & _ & _). apply (Hcross x (ts, s) Hx). set_solver. }
  assert (∀ x, x ∈ (ts, s) :: l2 → (ts ≤ x.1)%N) as H2.
  { intros x Hx. apply StronglySorted_app in Hs as (_ & _ & Hs). inversion Hs as [|? ? _ Hall]; subst.
    apply elem_of_cons in Hx as [->|Hx]; [done|]. rewrite Forall_forall in Hall. by apply (Hall x). }
  split.
  - rewrite map_app. cbn. set_solver.
  - etrans; [|exact Hbelow]. rewrite filter_app, total_app.
    assert (filter (λ x, x.1 < ts)%N ((ts, s) :: l2) = []) as ->.
    { apply list_filter_none. intros x Hx. pose proof (H2 x Hx). lia. }
    unfold total at 2. cbn. pose proof (total_filter_le (λ x, x.1 < ts)%N l1). lia.
  - eapply N.lt_le_trans; [exact Habove|]. rewrite filter_app, total_app.
    rewrite (list_filter_all (λ x, x.1 ≤ ts)%N l1) by done. rewrite filter_cons, decide_True by (cbn; lia).
    rewrite total_cons. cbn. lia.
Qed.

Lemma median_inner_spec l :
  l ≠ [] → (0 < total l)%N → (total l < u64_modulus)%N →
  ∃ m, median_timestamps_by_stake_inner l (total l) = Done m ∧ weighted_median l m.
Proof.
  intros Hne Hpos Hb. unfold median_timestamps_by_stake_inner.
  pose proof (stable_sort_perm timestamp_le l) as Hperm.
  assert (total (stable_sort timestamp_le l) = total l) as Ht by (by rewrite Hperm).
  assert (total l / 2 < total l)%N as Hhalf by (apply N.div_lt; lia).
  destruct (median_scan_spec (total l / 2) 0 (stable_sort timestamp_le l)) as (l1 & ts & s & l2 & Hl & -> & H1 & H2);
    [apply N.le_0_l|by rewrite Ht|by rewrite Ht|].
  exists ts. split; [done|]. rewrite <- Hperm. rewrite <- Ht in H1, H2.
  eapply sorted_median; [by apply stable_sort_sorted; apply _|done|done|done].
Qed.

Section blocks.
Context (c : Committee) (Hc : committee_ok c).

(** The timestamp and stake of a block. *)
Definition weighted (b : VerifiedBlock) : N * N := (timestamp_ms b, stake_of c (author b)).

Lemma authority_stake a : (a < Committee_size c)%N → ∃ x, authority c a = Done x ∧ stake x = stake_of c a.
Proof.
  intros Ha. pose proof (Committee_stake_valid c a Ha) as Hs. unfold Committee_stake in Hs.
  apply bind_Done in Hs as (x & Hx & Hs). exists x. split; [done|]. congruence.
Qed.

Lemma total_distinct blocks :
  NoDup (map author blocks) → total (map weighted blocks) = set_stake c (list_to_set (map author blocks)).
Proof.
  intros Hnd. unfold set_stake. rewrite set_sum_list_to_set by done. unfold total. rewrite map_map.
  rewrite <- list_fmap_compose. done.
Qed.

Lemma median_timestamp_spec blocks :
  (∀ b, b ∈ blocks → (author b < Committee_size c)%N) → NoDup (map author blocks) →
  (0 < quorum_threshold c)%N → (quorum_threshold c ≤ total (map weighted blocks))%N →
  ∃ m, median_timestamp_by_stake c blocks = Done (Ok m) ∧ weighted_median (map weighted blocks) m.
Proof.
  intros Ha Hnd Hq Htot. unfold median_timestamp_by_stake.
  rewrite (mapM_done _ weighted).
  2: { intros b Hb. destruct (authority_stake (author b) (Ha b Hb)) as (x & -> & Hx). cbn. by rewrite Hx. }
  run_bind.
  assert (total (map weighted blocks) < u64_modulus)%N as Hb.
  { rewrite total_distinct by done. by apply set_stake_bound. }
  change (weighted <$> blocks) with (map weighted blocks). rewrite u64_sum_small by exact Hb.
  change (sumN (map snd (map weighted blocks))) with (total (map weighted blocks)).
  destruct (map weighted blocks) as [|x l] eqn:Hl; [unfold total in Htot; cbn in Htot; lia|].
  rewrite decide_False by (by apply N.le_ngt).
  destruct (median_inner_spec (x :: l)) as (m & -> & Hm); [done|lia|done|]. by exists m.
Qed.

End blocks.

(** Faulty elements with less than half of the stake cannot move the median out of
    the range of the correct timestamps. *)
Lemma median_between {A} (w : A → N * N) l m (faulty : A → Prop) `{!∀ x, Decision (faulty x)} lo hi :
  weighted_median (map w l) m → (2 * total (map w (filter faulty l)) < total (map w l))%N →
  (∀ x, x ∈ l → ¬ faulty x → (lo ≤ (w x).1 ≤ hi)%N) → (lo ≤ m ≤ hi)%N.
Proof.
  intros [_ Hbelow Hup] Hf Hrange. pose proof (N.div_mod (total (map w l)) 2 ltac:(done)) as Hdm.
  pose proof (N.mod_lt (total (map w l)) 2 ltac:(done)) as Hmod.
  generalize dependent (total (map w l) / 2)%N. generalize dependent (total (map w l) mod 2)%N.
  intros e He h Hbelow Hup Hdm.
  assert (∀ P : N * N → Prop, ∀ `{!∀ x, Decision (P x)}, (∀ x, x ∈ l → P (w x) → faulty x) →
    (total (filter P (map w l)) ≤ total (map w (filter faulty l)))%N) as Hsub.
  { clear. intros P HP. induction l as [|x l IH]; intros Himpl; [done|]. cbn [map]. rewrite !filter_cons.
    pose proof (Himpl x ltac:(set_solver)) as Hx. specialize (IH ltac:(set_solver)).
    destruct (decide (P (w x))) as [Px|Px], (decide (faulty x)) as [Fx|Fx]; cbn [map]; rewrite ?total_cons; try lia. tauto. }
  assert (∀ x, x ∈ l → ¬ (lo ≤ (w x).1 ≤ hi)%N → faulty x) as Hout.
  { intros x Hx Hxm. destruct (decide (faulty x)) as [|Hnf]; [done|]. by destruct (Hxm (Hrange x Hx Hnf)). }
  split.
  - destruct (decide (lo ≤ m)%N) as [|Hlt]; [done|]. exfalso.
    assert (total (filter (λ x, x.1 ≤ m)%N (map w l)) ≤ total (map w (filter faulty l)))%N; [|lia].
    apply Hsub. intros x Hx Hxm. apply Hout; [done|]. lia.
  - destruct (decide (m ≤ hi)%N) as [|Hlt]; [done|]. exfalso.
    pose proof (total_filter_split (λ x, x.1 < m)%N (map w l)) as Hsplit.
    assert (total (filter (λ x, ¬ (x.1 < m)%N) (map w l)) ≤ total (map w (filter faulty l)))%N; [|lia].
    apply Hsub. intros x Hx Hxm. apply Hout; [done|]. lia.
Qed.
