(* ===== verification/CommitOrder.v ===== *)
(** * The order of commits

    The linearizer on the dag state: every leader of a sequence commits the part of
    its history that is not committed yet, commits are numbered and chained
    without gaps, and two nodes that commit the same leaders output the same
    sub-dags. *)

From S2P Require Import Prelude Committee Block StakeAggregator ThresholdClock Commit Store LeaderScoring.
From S2P Require Import DagState DagInvariant DagDurability LeaderSchedule UniversalCommitter CausalHistory CommitRules CommitSafety.
From S2P Require Import Linearizer LinearizerSpec CommitTimestamp.

Section frame.
Context {S : Type} `{Store S}.
Implicit Types ds : DagState S.

(** Only the status of blocks differs. *)
Definition same_but_recent ds ds' : Prop := ds' = set_recent_blocks (ds_recent_blocks ds') ds.

Lemma same_but_recent_refl ds : same_but_recent ds ds.
Proof. by destruct ds. Qed.

Lemma same_but_recent_trans ds1 ds2 ds3 :
  same_but_recent ds1 ds2 → same_but_recent ds2 ds3 → same_but_recent ds1 ds3.
Proof. intros H12 H23. unfold same_but_recent in *. rewrite H23, H12. done. Qed.

Lemma commit_block_frame ds b ds' : commit_block ds b = Done ds' → same_but_recent ds ds'.
Proof.
  unfold commit_block. cbn. unfold set_committed. intros Hrun.
  apply bind_Done in Hrun as ([d first] & Hset & Hrun). apply bind_Done in Hrun as (u & _ & [= ->]).
  apply bind_Done in Hset as (info & _ & Hset).
  destruct (bi_committed info); injection Hset as <- _; [apply same_but_recent_refl|done].
Qed.

Lemma commit_blocks_frame ds l ds' : for_each commit_block ds l = Done ds' → same_but_recent ds ds'.
Proof.
  revert ds. induction l as [|b l IH]; intros ds Hrun; cbn in Hrun.
  - injection Hrun as <-. apply same_but_recent_refl.
  - apply bind_Done in Hrun as (d & Hb & Hrun).
    eapply same_but_recent_trans; [by eapply commit_block_frame|by apply IH].
Qed.

Lemma linearize_loop_frame gc fuel ds buffer T ds' T' :
  linearize_loop gc fuel ds buffer T = Done (ds', T') → same_but_recent ds ds'.
Proof.
  revert ds buffer T. induction fuel as [|fuel IH]; intros ds [|x buffer] T Hrun; cbn in Hrun;
    try (injection Hrun as <- _; apply same_but_recent_refl); [done|].
  apply bind_Done in Hrun as ([d anc] & Hex & Hrun). unfold expand in Hex.
  apply bind_Done in Hex as (refs & _ & Hex). apply bind_Done in Hex as (os & _ & Hex).
  apply bind_Done in Hex as (l & _ & Hex). apply bind_Done in Hex as (d' & Hd & [= -> ->]).
  eapply same_but_recent_trans; [by eapply commit_blocks_frame|by eapply IH].
Qed.

Lemma linearize_frame leader ds ds' l : linearize_sub_dag leader ds = Done (ds', l) → same_but_recent ds ds'.
Proof.
  unfold linearize_sub_dag. intros Hrun. apply bind_Done in Hrun as (d & Hd & Hrun).
  apply bind_Done in Hrun as ([d' T] & Hl & Hrun). apply bind_Done in Hrun as (u & _ & [= <- _]).
  eapply same_but_recent_trans; [by eapply commit_block_frame|by eapply linearize_loop_frame].
Qed.

End frame.

(** ** Parents *)
Section order.
Context {S : Type} `{StoreLaws S}.
Context (c : Committee).
Implicit Types ds : DagState S.

(** The state of a node between commits. *)
Record commit_view ds : Prop := {
  cv_view : dag_view c ds;
  cv_closed : committed_closed ds;
  cv_committed r : r ∈ committed_refs ds → (ref_round r ≤ last_commit_round ds)%N;
  cv_genesis r b a : cached ds !! r = Some b → a ∈ ancestors b → ref_round a = GENESIS_ROUND →
    a ∈ dom (ds_genesis ds);
  cv_rounds : lengthN (ds_last_committed_rounds ds) = Committee_size c;
  cv_gc_depth : (0 < gc_depth (protocol_config (ds_context ds)))%N;
}.

(** A block that can be the next leader to commit. *)
Definition next_leader ds (leader : VerifiedBlock) : Prop :=
  cached ds !! reference leader = Some leader ∧ (last_commit_round ds < round leader)%N.

Definition parent_refs (leader : VerifiedBlock) : list BlockRef :=
  filter (λ r, ref_round r = round leader -₃₂ 1) (ancestors leader).

Lemma parent_refs_spec ds leader :
  commit_view ds → next_leader ds leader →
  parent_refs leader = filter (λ r, (ref_round r + 1)%N = round leader) (ancestors leader).
Proof.
  intros Hv [Hl Hr]. apply list_filter_iff. intros r.
  pose proof (dv_rounds _ _ (cv_view _ Hv)) as Hmax.
  assert (round leader ≤ ds_highest_accepted_round ds)%N.
  { change (round leader) with (ref_round (reference leader)).
    apply (dk_highest _ (dv_ok _ _ (cv_view _ Hv))). by eapply elem_of_dom_2. }
  unfold u32_MAX in Hmax. rewrite wrap_sub_small by lia. lia.
Qed.

Lemma parent_block ds leader r :
  commit_view ds → next_leader ds leader → r ∈ parent_refs leader →
  ∃ b, block_of ds r = Some b ∧ reference b = r.
Proof.
  intros Hv Hn Hr. pose proof Hn as [Hl Hround]. rewrite (parent_refs_spec ds) in Hr by done.
  apply list_elem_of_filter in Hr as [Hrr Ha]. unfold block_of. pose proof (cv_view _ Hv) as Hview.
  case_decide as Hz.
  - assert (r ∈ dom (ds_genesis ds)) as [b Hb]%elem_of_dom by (by eapply cv_genesis).
    exists b. split; [done|]. by destruct (dk_genesis _ (dv_ok _ _ Hview) _ _ Hb).
  - assert (r ∈ dom (cached ds)) as [b Hb]%elem_of_dom.
    { eapply dv_causal; [done|done|done|]. pose proof (cv_gc_depth _ Hv) as Hd. unfold GENESIS_ROUND in Hz.
      unfold gc_round, calculate_gc_round. lia. }
    exists b. split; [by rewrite accepted_lookup, Hb|by eapply dv_reference].
Qed.

(** The parents of the leader, and the median of their timestamps. *)
Definition parent_blocks ds leader : list VerifiedBlock := omap (block_of ds) (parent_refs leader).

Lemma parent_blocks_refs ds leader :
  commit_view ds → next_leader ds leader → map reference (parent_blocks ds leader) = parent_refs leader.
Proof.
  intros Hv Hn. unfold parent_blocks.
  assert (∀ r, r ∈ parent_refs leader → ∃ b, block_of ds r = Some b ∧ reference b = r) as Hp
    by (intros; by eapply parent_block).
  induction (parent_refs leader) as [|r l IH]; [done|]. destruct (Hp r) as (b & Hb & Href); [set_solver|].
  cbn. rewrite Hb. cbn. rewrite Href, IH by eauto with lists. done.
Qed.

Lemma parent_blocks_authors ds leader :
  commit_view ds → next_leader ds leader →
  (∀ b, b ∈ parent_blocks ds leader → (author b < Committee_size c)%N) ∧ NoDup (map author (parent_blocks ds leader)) ∧
  total (map (weighted c) (parent_blocks ds leader)) = set_stake c (parents leader).
Proof.
  intros Hv Hn. pose proof (parent_blocks_refs ds leader Hv Hn) as Hrefs. pose proof Hn as [Hl _].
  assert (valid_block c leader) as Hval by (eapply dv_valid; [apply Hv|done]).
  assert (map author (parent_blocks ds leader) = map ref_author (parent_refs leader)) as Hauth.
  { rewrite <- Hrefs, map_map. done. }
  assert (NoDup (map author (parent_blocks ds leader))) as Hnd.
  { rewrite Hauth. eapply sublist_NoDup; [apply (vb_distinct _ _ Hval)|]. apply fmap_sublist, sublist_filter. }
  split_and!; [|done|].
  - intros b Hb. apply (list_elem_of_fmap_2 reference) in Hb. change (reference <$> ?l) with (map reference l) in Hb.
    rewrite Hrefs in Hb. apply list_elem_of_filter in Hb as [_ Ha]. apply (vb_authors _ _ Hval _ Ha).
  - rewrite total_distinct by done. rewrite Hauth, (parent_refs_spec ds) by done. done.
Qed.

Context (Hquorum : (0 < quorum_threshold c)%N).

Lemma calculate_commit_timestamp_spec ds leader last :
  commit_view ds → next_leader ds leader →
  ∃ m, calculate_commit_timestamp c ds leader last = Done (N.max m last) ∧
    weighted_median (map (weighted c) (parent_blocks ds leader)) m.
Proof.
  intros Hv Hn. destruct (parent_blocks_authors ds leader Hv Hn) as (Hauth & Hnd & Htot).
  unfold calculate_commit_timestamp. fold (parent_refs leader). cbn [bs_get_blocks DagState_BlockStoreAPI].
  rewrite get_blocks_spec. run_bind.
  rewrite mapM_unwrap.
  2: { intros r Hr. destruct (parent_block ds leader r Hv Hn Hr) as (b & Hb & _). by exists b. }
  fold (parent_blocks ds leader).
  run_bind.
  destruct (median_timestamp_spec c) with (blocks := parent_blocks ds leader) as (m & -> & Hm);
    [rewrite <- (dv_committee _ _ (cv_view _ Hv)); apply (dv_ok _ _ (cv_view _ Hv))|done|done|done| |].
  { rewrite Htot. eapply vb_parents, dv_valid; [apply Hv|apply Hn]. }
  exists m. split; [done|done].
Qed.

(** ** One leader *)

Context `{BlockCodec} `{CommitCodec} (Hcodec : ∀ commit, is_Some (bcs_commit commit)).

(** What the commit of a leader is, from the state before it. *)
Record commit_step ds (leader : VerifiedBlock) (sd : CommittedSubDag) (commit : TrustedCommit) : Prop := {
  cs_blocks : linearized (gc_round ds) (cached ds) (committed_refs ds) leader (sd_blocks sd);
  cs_leader : sd_leader sd = reference leader ∧ tc_leader commit = reference leader;
  cs_refs : tc_blocks commit = map reference (sd_blocks sd);
  cs_ref : sd_commit_ref sd = TrustedCommit_reference commit;
  cs_index : tc_index commit = (last_commit_index ds + 1)%N;
  cs_previous : Commit_previous_digest (tc_inner commit) = last_commit_digest ds;
  cs_timestamp : tc_timestamp_ms commit = sd_timestamp_ms sd;
  cs_median : ∃ m, sd_timestamp_ms sd = N.max m (last_commit_timestamp_ms ds) ∧
    weighted_median (map (weighted c) (parent_blocks ds leader)) m;
  cs_undecided : sd_rejected_transactions_by_block sd = ∅;
}.

Lemma gc_below_leader ds leader : next_leader ds leader → (gc_round ds < round leader)%N.
Proof. intros [_ Hr]. unfold gc_round, calculate_gc_round. lia. Qed.

Lemma linearize_leader ds leader :
  commit_view ds → next_leader ds leader →
  ∃ ds1 l, linearize_sub_dag leader ds = Done (ds1, l) ∧ same_but_recent ds ds1 ∧ dag_ok ds1 ∧ cached ds1 = cached ds ∧
    committed_refs ds1 = refs_of l ∪ committed_refs ds ∧ committed_closed ds1 ∧
    linearized (gc_round ds) (cached ds) (committed_refs ds) leader l.
Proof.
  intros Hv Hn. pose proof Hn as [Hl Hr]. pose proof (cv_view _ Hv) as Hview.
  destruct (linearize_sub_dag_spec (gc_round ds) (cached ds) (committed_refs ds) leader) with (d := ds)
    as (ds1 & l & Hrun & Hlin & Hok & HB & HM & Hgc & Hclosed); [|done|apply Hview|done|done|done| |by apply gc_below_leader|].
  { eapply view_store_closed; [done|apply Hv]. }
  { intros Hin%(cv_committed _ Hv). cbn in Hin. lia. }
  exists ds1, l. split_and!; [done|by eapply linearize_frame|done|done|done| |done].
  intros r b a Hb Hin Ha Hgca. cbn in HB, Hgc. rewrite Hgc in Hgca. rewrite HB in Hb.
  by apply (sc_committed _ _ _ Hclosed r b a).
Qed.

(** The state after the traversal is one before a commit, except for the blocks
    that are now committed. *)
Lemma linearize_view ds ds1 :
  commit_view ds → same_but_recent ds ds1 → dag_ok ds1 → cached ds1 = cached ds → dag_view c ds1.
Proof.
  intros Hv Hsame Hok HB. pose proof (cv_view _ Hv) as [_ Hc Hval Hcausal Hmax].
  assert (gc_round ds1 = gc_round ds) as Hgc by (by rewrite Hsame).
  split; [done|by rewrite Hsame|by rewrite HB|by rewrite HB, Hgc|by rewrite Hsame].
Qed.

Lemma timestamp_same ds ds1 leader last :
  same_but_recent ds ds1 → cached ds1 = cached ds →
  calculate_commit_timestamp c ds1 leader last = calculate_commit_timestamp c ds leader last.
Proof.
  intros Hsame HB. unfold calculate_commit_timestamp. cbn [bs_get_blocks DagState_BlockStoreAPI].
  rewrite !get_blocks_spec. run_bind.
  assert (∀ r, block_of ds1 r = block_of ds r) as Heq.
  { intros r. unfold block_of, accepted. by rewrite HB, Hsame. }
  assert (∀ l, block_of ds1 <$> l = block_of ds <$> l) as -> by (intros l; apply list_fmap_ext; auto). done.
Qed.

Lemma collect_spec ds leader :
  commit_view ds → next_leader ds leader → (last_commit_index ds + 1 < u32_modulus)%N →
  ∃ ds1 sd commit, collect_sub_dag_and_commit ds leader = Done (ds1, sd, commit) ∧ commit_step ds leader sd commit ∧
    same_but_recent ds ds1 ∧ dag_view c ds1 ∧ cached ds1 = cached ds ∧
    committed_refs ds1 = refs_of (sd_blocks sd) ∪ committed_refs ds ∧ committed_closed ds1.
Proof.
  intros Hv Hn Hidx. destruct (linearize_leader ds leader Hv Hn) as (ds1 & l & Hrun & Hsame & Hok & HB & HM & Hcc & Hlin).
  pose proof (linearize_view ds ds1 Hv Hsame Hok HB) as Hview1.
  unfold collect_sub_dag_and_commit. rewrite Hrun. run_bind.
  rewrite (dv_committee _ _ Hview1), (timestamp_same ds) by done.
  destruct (calculate_commit_timestamp_spec ds leader (last_commit_timestamp_ms ds) Hv Hn) as (m & -> & Hm).
  run_bind. destruct (Hcodec (Commit_new (last_commit_index ds +₃₂ 1) (last_commit_digest ds)
    (N.max m (last_commit_timestamp_ms ds)) (reference leader) (map reference l))) as [bytes Hbytes].
  rewrite Hbytes. cbn [unwrap mbind outcome_bind]. do 3 eexists. split; [done|]. split; [|by split_and!].
  split; try done.
  - by apply wrap_add_small.
  - by exists m.
Qed.

(** ** After the commit *)

Lemma update_rounds_total rounds (l : list BlockRef) :
  (∀ r, r ∈ l → (ref_author r < lengthN rounds)%N) →
  ∃ rounds', for_each update_committed_round rounds l = Done rounds' ∧ lengthN rounds' = lengthN rounds.
Proof.
  intros Hl. apply (for_each_total (λ x, lengthN x = lengthN rounds)); [done|].
  intros x r Hr Hlen. unfold update_committed_round. specialize (Hl r Hr). rewrite <- Hlen in Hl. unfold lengthN in *.
  destruct (lookup_lt_is_Some_2 x (N.to_nat (ref_author r))) as [old Hold]; [lia|].
  rewrite (vec_index_some _ _ _ Hold). cbn. rewrite vec_set_lt by lia.
  eexists. split; [done|]. rewrite length_insert. done.
Qed.

Lemma add_commit_total ds commit :
  (tc_index commit = last_commit_index ds + 1)%N → (last_commit_index ds + 1 < u32_modulus)%N →
  (last_commit_timestamp_ms ds ≤ tc_timestamp_ms commit)%N →
  lengthN (ds_last_committed_rounds ds) = Committee_size (ds_committee ds) →
  (∀ r, r ∈ tc_blocks commit → (ref_author r < Committee_size (ds_committee ds))%N) →
  ∃ ds', add_commit ds commit = Done ds' ∧ ds_last_commit ds' = Some commit ∧
    ds_recent_blocks ds' = ds_recent_blocks ds ∧ ds_context ds' = ds_context ds ∧ ds_genesis ds' = ds_genesis ds ∧
    ds_highest_accepted_round ds' = ds_highest_accepted_round ds ∧
    lengthN (ds_last_committed_rounds ds') = lengthN (ds_last_committed_rounds ds) ∧
    ds_commits_to_write ds' = ds_commits_to_write ds ++ [commit] ∧
    ds_store ds' = ds_store ds ∧ ds_scoring_subdag ds' = ds_scoring_subdag ds.
Proof.
  intros Hidx Hmax Hts Hlen Hauth. unfold add_commit.
  assert (check_commit ds commit = Done true) as ->.
  { unfold check_commit. unfold last_commit_index, last_commit_timestamp_ms in *.
    destruct (ds_last_commit ds) as [last|]; [|by rewrite rassert_true].
    rewrite decide_False by lia. rewrite wrap_add_small by done.
    rewrite (rassert_true (tc_index commit = tc_index last + 1)%N) by done.
    run_bind. by rewrite rassert_true. }
  run_bind.
  destruct (update_rounds_total (ds_last_committed_rounds ds) (tc_blocks commit)) as (rounds & Hr & Hlen');
    [by rewrite Hlen|]. cbn [ds_last_committed_rounds set_last_commit]. rewrite Hr. run_bind.
  rewrite (mapM_done _ id).
  2: { intros i [_ Hi]%elem_of_rangeN. rewrite Hlen', Hlen in Hi. unfold to_authority_index.
       by rewrite decide_True by exact Hi. }
  run_bind. eexists. by split_and!.
Qed.

Lemma pruned_metric_total ds sd :
  lengthN (ds_last_committed_rounds ds) = Committee_size (ds_committee ds) →
  (∀ b r, b ∈ sd_blocks sd → r ∈ ancestors b → (ref_author r < Committee_size (ds_committee ds))%N) →
  update_blocks_pruned_metric ds sd = Done ().
Proof.
  intros Hlen Hauth. unfold update_blocks_pruned_metric.
  destruct (for_each_total (λ _ : (), True) (λ _ r,
      if decide (ref_round r ≤ gc_round ds)%N then
        last ← vec_index (last_committed_rounds ds) (ref_author r);
        if decide (last ≠ ref_round r) then authority (ds_committee ds) (ref_author r);; Done () else Done ()
      else Done ()) () (sd_blocks sd ≫= ancestors)) as ([] & Hrun & _); [done| |exact Hrun].
  intros _ r (b & Hr & Hb)%list_elem_of_bind _. exists (). split; [|done]. case_decide; [|done].
  specialize (Hauth b r Hb Hr). unfold last_committed_rounds.
  destruct (lookup_lt_is_Some_2 (ds_last_committed_rounds ds) (N.to_nat (ref_author r))) as [old Hold];
    [unfold lengthN in Hlen; lia|].
  rewrite (vec_index_some _ _ _ Hold). run_bind. case_decide; [|done].
  destruct (authority_valid (ds_committee ds) (ref_author r) Hauth) as [a ->]. done.
Qed.

(** The state after the commit of a leader. *)
Record committed_state ds (sd : CommittedSubDag) (commit : TrustedCommit) ds' : Prop := {
  ct_last : ds_last_commit ds' = Some commit;
  ct_cached : cached ds' = cached ds;
  ct_committed : committed_refs ds' = refs_of (sd_blocks sd) ∪ committed_refs ds;
  ct_context : ds_context ds' = ds_context ds;
  ct_genesis : ds_genesis ds' = ds_genesis ds;
  ct_write : ds_commits_to_write ds' = ds_commits_to_write ds ++ [commit];
  ct_store : ds_store ds' = ds_store ds;
  ct_scoring : ds_scoring_subdag ds' = ds_scoring_subdag ds;
  ct_highest : ds_highest_accepted_round ds' = ds_highest_accepted_round ds;
}.

Lemma committed_rounds_le ds leader sd commit r :
  commit_view ds → next_leader ds leader → commit_step ds leader sd commit →
  r ∈ refs_of (sd_blocks sd) ∪ committed_refs ds → (ref_round r ≤ round leader)%N.
Proof.
  intros Hv [Hl Hr] Hstep [Hin%elem_of_list_to_set|Hin]%elem_of_union.
  - apply list_elem_of_fmap in Hin as (b & -> & Hb). apply (ln_exact _ _ _ _ _ (cs_blocks _ _ _ _ Hstep)) in Hb
      as (Hb & [Heq|Hlink] & _); [by rewrite Heq|].
    apply N.lt_le_incl. eapply linked_round; [apply Hv|done|done].
  - pose proof (cv_committed _ Hv r Hin). lia.
Qed.

Lemma committed_view ds leader sd commit ds' :
  commit_view ds → next_leader ds leader → commit_step ds leader sd commit → committed_state ds sd commit ds' →
  dag_ok ds' → ds_highest_accepted_round ds' = ds_highest_accepted_round ds →
  lengthN (ds_last_committed_rounds ds') = lengthN (ds_last_committed_rounds ds) →
  (∀ r b a, cached ds !! r = Some b → r ∈ committed_refs ds' → a ∈ ancestors b → (gc_round ds < ref_round a)%N →
    a ∈ committed_refs ds') →
  commit_view ds'.
Proof.
  intros Hv Hn Hstep Hst Hok Hhigh Hlen Hcc. pose proof Hn as [Hl Hr]. pose proof (cv_view _ Hv) as Hview.
  assert (last_commit_round ds' = round leader) as Hlast.
  { unfold last_commit_round. rewrite (ct_last _ _ _ _ Hst). by rewrite (proj2 (cs_leader _ _ _ _ Hstep)). }
  assert (gc_round ds ≤ gc_round ds')%N as Hgc.
  { unfold gc_round, calculate_gc_round. rewrite Hlast, (ct_context _ _ _ _ Hst). lia. }
  assert (ds_committee ds' = c) as Hc by (unfold ds_committee; rewrite (ct_context _ _ _ _ Hst); apply Hview).
  split.
  - split; [done|done|by rewrite (ct_cached _ _ _ _ Hst); apply Hview| |by rewrite Hhigh; apply Hview].
    rewrite (ct_cached _ _ _ _ Hst). intros r b a Hb Ha Hga. eapply dv_causal; [done|done|done|lia].
  - intros r b a. rewrite (ct_cached _ _ _ _ Hst). intros Hb Hin Ha Hga. eapply Hcc; [done|done|done|lia].
  - intros r. rewrite (ct_committed _ _ _ _ Hst), Hlast. by eapply committed_rounds_le.
  - rewrite (ct_cached _ _ _ _ Hst), (ct_genesis _ _ _ _ Hst). apply Hv.
  - rewrite Hlen. apply Hv.
  - rewrite (ct_context _ _ _ _ Hst). apply Hv.
Qed.

Lemma handle_leader_spec ds sds leader :
  commit_view ds → next_leader ds leader → (last_commit_index ds + 1 < u32_modulus)%N →
  ∃ ds1 ds' sd commit, collect_sub_dag_and_commit ds leader = Done (ds1, sd, commit) ∧
    handle_leader (ds, sds) leader = Done (ds', sds ++ [sd]) ∧ commit_step ds leader sd commit ∧
    committed_state ds sd commit ds' ∧ commit_view ds'.
Proof.
  intros Hv Hn Hidx. pose proof Hn as [Hl Hr]. pose proof (cv_view _ Hv) as Hview.
  destruct (collect_spec ds leader Hv Hn Hidx) as (ds1 & sd & commit & Hrun & Hstep & Hsame & Hview1 & HB & HM & Hcc).
  unfold handle_leader. rewrite Hrun. run_bind.
  assert (ds_committee ds1 = c) as Hc1 by apply Hview1.
  assert (lengthN (ds_last_committed_rounds ds1) = Committee_size c) as Hlen1 by (rewrite Hsame; apply Hv).
  assert (∀ b, b ∈ sd_blocks sd → valid_block c b) as Hval.
  { intros b Hb. apply (ln_exact _ _ _ _ _ (cs_blocks _ _ _ _ Hstep)) in Hb as [Hb _]. by apply (dv_valid _ _ Hview) in Hb. }
  rewrite pruned_metric_total; [|by rewrite Hc1|rewrite Hc1; intros b r Hb Ha; by apply (vb_authors _ _ (Hval b Hb))].
  run_bind.
  assert (last_commit_index ds1 = last_commit_index ds ∧ last_commit_timestamp_ms ds1 = last_commit_timestamp_ms ds ∧
    last_commit_round ds1 = last_commit_round ds ∧ gc_round ds1 = gc_round ds) as (Hi1 & Ht1 & Hr1 & Hg1)
    by (rewrite Hsame; done).
  destruct (add_commit_total ds1 commit) as (ds' & Hadd & Hlast' & Hrec & Hctx & Hgen & Hhigh & Hlen' & Hw & Hst' & Hsc').
  - by rewrite Hi1, (cs_index _ _ _ _ Hstep).
  - by rewrite Hi1.
  - rewrite Ht1, (cs_timestamp _ _ _ _ Hstep). destruct (cs_median _ _ _ _ Hstep) as (m & -> & _). lia.
  - by rewrite Hc1.
  - rewrite (cs_refs _ _ _ _ Hstep), Hc1. intros r (b & -> & Hb)%list_elem_of_fmap. apply Hval, Hb.
  - rewrite Hadd. run_bind. exists ds1, ds', sd, commit.
    assert (cached ds' = cached ds1) as HB' by (unfold cached; by rewrite Hrec).
    assert (committed_refs ds' = committed_refs ds1) as HM' by (unfold committed_refs; by rewrite Hrec).
    assert (committed_state ds sd commit ds') as Hst.
    { split; [done|by rewrite HB'|by rewrite HM'|by rewrite Hctx, Hsame|by rewrite Hgen, Hsame|by rewrite Hw, Hsame
        |by rewrite Hst', Hsame|by rewrite Hsc', Hsame|by rewrite Hhigh, Hsame]. }
    split_and!; [done|done|done|done|]. eapply committed_view; [done|done|done|done| | | |].
    + eapply add_commit_ok; [apply Hview1| |done]. rewrite Hr1, (proj2 (cs_leader _ _ _ _ Hstep)). cbn. lia.
    + by rewrite Hhigh, Hsame.
    + by rewrite Hlen', Hsame.
    + rewrite HM'. intros r b a Hb Hin Ha Hga. apply (Hcc r b a); [by rewrite HB|done|done|by rewrite Hg1].
Qed.

(** ** A sequence of leaders *)

Inductive commit_chain : DagState S → list VerifiedBlock → list CommittedSubDag → list TrustedCommit →
    DagState S → Prop :=
  | chain_nil ds : commit_chain ds [] [] [] ds
  | chain_cons ds leader sd commit ds1 leaders sds commits ds' :
      next_leader ds leader → commit_step ds leader sd commit → committed_state ds sd commit ds1 → commit_view ds1 →
      commit_chain ds1 leaders sds commits ds' →
      commit_chain ds (leader :: leaders) (sd :: sds) (commit :: commits) ds'.

(** Leaders that can be committed one after the other. *)
Record leaders_ok ds (leaders : list VerifiedBlock) : Prop := {
  lo_cached b : b ∈ leaders → cached ds !! reference b = Some b;
  lo_above b : b ∈ leaders → (last_commit_round ds < round b)%N;
  lo_sorted : StronglySorted (λ a b, round a < round b)%N leaders;
}.

Lemma committed_last ds leader sd commit ds1 :
  commit_step ds leader sd commit → committed_state ds sd commit ds1 →
  last_commit_index ds1 = (last_commit_index ds + 1)%N ∧ last_commit_round ds1 = round leader ∧
  last_commit_digest ds1 = tc_digest commit ∧ last_commit_timestamp_ms ds1 = sd_timestamp_ms sd.
Proof.
  intros Hstep Hst. unfold last_commit_index, last_commit_round, last_commit_digest, last_commit_timestamp_ms.
  rewrite (ct_last _ _ _ _ Hst). rewrite (cs_index _ _ _ _ Hstep), (proj2 (cs_leader _ _ _ _ Hstep)).
  rewrite (cs_timestamp _ _ _ _ Hstep). done.
Qed.

Lemma leaders_ok_head ds leader leaders : leaders_ok ds (leader :: leaders) → next_leader ds leader.
Proof. intros [Hc Ha Hs]. split; [apply Hc|apply Ha]; apply list_elem_of_here. Qed.

Lemma leaders_ok_next ds leader leaders sd commit ds1 :
  leaders_ok ds (leader :: leaders) → commit_step ds leader sd commit → committed_state ds sd commit ds1 →
  leaders_ok ds1 leaders.
Proof.
  intros [Hc Ha Hs] Hstep Hst. inversion Hs as [|? ? Hs' Hall]; subst. rewrite Forall_forall in Hall.
  destruct (committed_last _ _ _ _ _ Hstep Hst) as (_ & Hlr & _).
  split; [|by rewrite Hlr|done]. rewrite (ct_cached _ _ _ _ Hst). eauto with lists.
Qed.

Lemma handle_leaders ds sds0 leaders :
  commit_view ds → leaders_ok ds leaders → (last_commit_index ds + lengthN leaders < u32_modulus)%N →
  ∃ ds' sds commits, for_each handle_leader (ds, sds0) leaders = Done (ds', sds0 ++ sds) ∧
    commit_chain ds leaders sds commits ds' ∧ commit_view ds'.
Proof.
  revert ds sds0. induction leaders as [|leader leaders IH]; intros ds sds0 Hv Hlo Hidx; cbn [for_each].
  { exists ds, [], []. rewrite app_nil_r. split_and!; [done|constructor|done]. }
  pose proof (leaders_ok_head _ _ _ Hlo) as Hn. unfold lengthN in Hidx. cbn [length] in Hidx.
  destruct (handle_leader_spec ds sds0 leader Hv Hn) as (_ & ds1 & sd & commit & _ & -> & Hstep & Hst & Hv1); [lia|].
  run_bind. pose proof (leaders_ok_next _ _ _ _ _ _ Hlo Hstep Hst) as Hlo1.
  destruct (IH ds1 (sds0 ++ [sd]) Hv1 Hlo1) as (ds' & sds & commits & -> & Hchain & Hv').
  { destruct (committed_last _ _ _ _ _ Hstep Hst) as (-> & _). unfold lengthN. lia. }
  exists ds', (sd :: sds), (commit :: commits). rewrite <- app_assoc. split_and!; [done| |done]. by econstructor.
Qed.

(** What a chain of commits gives: all blocks are new and different, commits are
    numbered and linked, and timestamps grow. *)
Lemma chain_blocks ds leaders sds commits ds' :
  commit_chain ds leaders sds commits ds' →
  NoDup (map reference (sds ≫= sd_blocks)) ∧
  (∀ b, b ∈ sds ≫= sd_blocks → reference b ∉ committed_refs ds) ∧
  committed_refs ds' = refs_of (sds ≫= sd_blocks) ∪ committed_refs ds ∧
  ds_commits_to_write ds' = ds_commits_to_write ds ++ commits.
Proof.
  clear Hquorum Hcodec.
  induction 1 as [ds|ds leader sd commit ds1 leaders sds commits ds' Hn Hstep Hst Hv1 Hchain (Hnd & Hnew & HM & Hw)].
  { split_and!; [constructor|by intros b []%not_elem_of_nil|cbn; set_solver|by rewrite app_nil_r]. }
  pose proof (cs_blocks _ _ _ _ Hstep) as Hlin. cbn [mbind list_bind]. rewrite map_app.
  rewrite (ct_committed _ _ _ _ Hst) in Hnew, HM. rewrite (ct_write _ _ _ _ Hst), <- app_assoc in Hw.
  split_and!; [|..|done].
  - apply NoDup_app. split_and!; [apply Hlin| |done].
    intros r Hr (b & -> & Hb)%list_elem_of_fmap. apply (Hnew b Hb). apply elem_of_union_l. by apply elem_of_list_to_set.
  - intros b [Hb|Hb]%elem_of_app; [by apply (ln_exact _ _ _ _ _ Hlin)|]. intros Hin. apply (Hnew b Hb).
    by apply elem_of_union_r.
  - rewrite HM, list_to_set_app_L. set_solver.
Qed.

Lemma chain_numbers ds leaders sds commits ds' :
  commit_chain ds leaders sds commits ds' →
  map sd_leader sds = map reference leaders ∧ map sd_commit_ref sds = map TrustedCommit_reference commits ∧
  map tc_index commits = rangeN (last_commit_index ds + 1) (last_commit_index ds + 1 + lengthN commits) ∧
  (∀ i commit, commits !! i = Some commit → Commit_previous_digest (tc_inner commit) =
    match i with O => last_commit_digest ds | Datatypes.S j => default 0%N (tc_digest <$> commits !! j) end) ∧
  StronglySorted N.le (last_commit_timestamp_ms ds :: map tc_timestamp_ms commits).
Proof.
  clear Hquorum Hcodec.
  induction 1 as [ds|ds leader sd commit ds1 leaders sds commits ds' Hn Hstep Hst Hv1 Hchain (Hl & Hr & Hi & Hp & Ht)].
  { split_and!; [done|done|by rewrite rangeN_empty by (unfold lengthN; cbn; lia)|done|repeat constructor]. }
  destruct (committed_last _ _ _ _ _ Hstep Hst) as (Hi1 & _ & Hd1 & Ht1). rewrite Hi1 in Hi. rewrite Ht1 in Ht.
  cbn [map]. split_and!.
  - by rewrite (proj1 (cs_leader _ _ _ _ Hstep)), Hl.
  - by rewrite (cs_ref _ _ _ _ Hstep), Hr.
  - rewrite (cs_index _ _ _ _ Hstep), Hi. rewrite (rangeN_cons (last_commit_index ds + 1)) by (unfold lengthN; cbn; lia).
    f_equal. f_equal. unfold lengthN. cbn. lia.
  - intros [|[|j]] commit' Hc; cbn in Hc.
    + injection Hc as <-. apply (cs_previous _ _ _ _ Hstep).
    + rewrite (Hp 0 commit' Hc), Hd1. done.
    + by rewrite (Hp (Datatypes.S j) commit' Hc).
  - rewrite (cs_timestamp _ _ _ _ Hstep). constructor; [done|].
    assert (last_commit_timestamp_ms ds ≤ sd_timestamp_ms sd)%N as Hle
      by (destruct (cs_median _ _ _ _ Hstep) as (m & -> & _); lia).
    constructor; [done|]. inversion Ht as [|? ? _ Hall]; subst. eapply Forall_impl; [exact Hall|]. intros x Hx. cbn in Hx. lia.
Qed.

Lemma chain_gc ds leaders sds commits ds' :
  commit_chain ds leaders sds commits ds' → (gc_round ds ≤ gc_round ds')%N ∧ cached ds' = cached ds.
Proof.
  clear Hquorum Hcodec.
  induction 1 as [ds|ds leader sd commit ds1 leaders sds commits ds' [_ Hr] Hstep Hst Hv1 Hchain [Hgc HB]]; [done|].
  split; [|by rewrite HB, (ct_cached _ _ _ _ Hst)]. etrans; [|exact Hgc].
  destruct (committed_last _ _ _ _ _ Hstep Hst) as (_ & Hl & _).
  unfold gc_round, calculate_gc_round. rewrite Hl, (ct_context _ _ _ _ Hst). lia.
Qed.

Lemma chain_cached ds leaders sds commits ds' b :
  commit_chain ds leaders sds commits ds' → b ∈ sds ≫= sd_blocks → cached ds !! reference b = Some b.
Proof.
  clear Hquorum Hcodec.
  induction 1 as [ds|ds leader sd commit ds1 leaders sds commits ds' Hn Hstep Hst Hv1 Hchain IH]; cbn;
    [by intros []%not_elem_of_nil|].
  intros [Hb|Hb]%elem_of_app; [by apply (ln_exact _ _ _ _ _ (cs_blocks _ _ _ _ Hstep))|].
  rewrite <- (ct_cached _ _ _ _ Hst). by apply IH.
Qed.

(** The history of a committed leader above the final gc round is committed. *)
Lemma chain_history ds leaders sds commits ds' leader b :
  commit_chain ds leaders sds commits ds' → leader ∈ leaders → cached ds !! reference b = Some b →
  history (cached ds) leader (reference b) → (gc_round ds' < round b)%N → reference b ∈ committed_refs ds'.
Proof.
  clear Hquorum Hcodec.
  induction 1 as [ds|ds leader' sd commit ds1 leaders sds commits ds' Hn Hstep Hst Hv1 Hchain IH];
    intros Hin Hb Hh Hgc; [by apply not_elem_of_nil in Hin|].
  destruct (chain_gc _ _ _ _ _ Hchain) as [Hg HB].
  destruct (chain_blocks _ _ _ _ _ Hchain) as (_ & _ & HM & _).
  rewrite (ct_cached _ _ _ _ Hst) in IH. apply elem_of_cons in Hin as [->|Hin]; [|by apply IH].
  assert (gc_round ds ≤ gc_round ds1)%N as Hg1.
  { eapply chain_gc. econstructor; [exact Hn|done|done|done|constructor]. }
  rewrite HM, (ct_committed _ _ _ _ Hst). apply elem_of_union_r.
  destruct (decide (reference b ∈ committed_refs ds)) as [|Hnew]; [by apply elem_of_union_r|].
  apply elem_of_union_l, elem_of_list_to_set. apply (list_elem_of_fmap_2 reference).
  apply (ln_exact _ _ _ _ _ (cs_blocks _ _ _ _ Hstep)). split_and!; [done|done|lia|done].
Qed.

(** ** Two nodes *)

(** Nodes that have made the same commits, on blocks of the same network [U]. *)
Record same_commits (U : gmap BlockRef VerifiedBlock) ds ds' : Prop := {
  sm_left : commit_view ds ∧ cached ds ⊆ U;
  sm_right : commit_view ds' ∧ cached ds' ⊆ U;
  sm_last : ds_last_commit ds = ds_last_commit ds';
  sm_gc_depth : gc_depth (protocol_config (ds_context ds)) = gc_depth (protocol_config (ds_context ds'));
  sm_genesis : ds_genesis ds = ds_genesis ds';
  sm_committed r : (gc_round ds < ref_round r)%N → r ∈ committed_refs ds ↔ r ∈ committed_refs ds';
}.

Section agree.
Context (U : gmap BlockRef VerifiedBlock).

Lemma same_gc ds ds' : same_commits U ds ds' → gc_round ds = gc_round ds'.
Proof.
  intros Hs. unfold gc_round, calculate_gc_round, last_commit_round. by rewrite (sm_last _ _ _ Hs), (sm_gc_depth _ _ _ Hs).
Qed.

(** The history of a leader above the gc round is the same in both. *)
Lemma same_history ds ds' leader r :
  same_commits U ds ds' → next_leader ds leader → next_leader ds' leader →
  history (cached ds) leader r → (gc_round ds < ref_round r)%N → cached ds !! r = cached ds' !! r.
Proof.
  intros Hs [Hl _] [Hl' _] [->|Hlink] Hgc; [congruence|].
  destruct (sm_left _ _ _ Hs) as [Hv HU], (sm_right _ _ _ Hs) as [Hv' HU'].
  assert (r ∈ dom (cached ds)) as [b Hb]%elem_of_dom by (eapply linked_cached; [apply Hv|done|done|done]).
  rewrite Hb. symmetry. rewrite (same_gc ds ds') in Hgc by done.
  eapply (view_cached c U ds'); [split; [apply Hv'|done]| |by eapply lookup_weaken].
  eapply linked_cached; [apply Hv'|exact Hl'| |done].
  eapply (linked_transfer c U ds ds'); [split; [apply Hv|done]|split; [apply Hv'|done]|done|done|done|done].
Qed.

Lemma same_parents ds ds' leader r :
  same_commits U ds ds' → next_leader ds leader → next_leader ds' leader → r ∈ parent_refs leader →
  block_of ds r = block_of ds' r.
Proof.
  intros Hs Hn Hn' Hr. destruct (sm_left _ _ _ Hs) as [Hv _], (sm_right _ _ _ Hs) as [Hv' _].
  destruct (parent_block ds leader r Hv Hn Hr) as (b & Hb & _).
  unfold block_of in *. rewrite <- (sm_genesis _ _ _ Hs). case_decide as Hz; [done|].
  rewrite (parent_refs_spec ds) in Hr by done. apply list_elem_of_filter in Hr as [Hrr Ha].
  assert (gc_round ds < ref_round r)%N as Hgc.
  { pose proof (cv_gc_depth _ Hv) as Hd. destruct Hn as [_ Hround]. unfold GENESIS_ROUND in Hz.
    unfold gc_round, calculate_gc_round. lia. }
  assert (r ∈ dom (cached ds)) as [b' Hb']%elem_of_dom by (eapply dv_causal; [apply Hv|apply Hn|done|done]).
  assert (cached ds !! r = cached ds' !! r) as Heq
    by (eapply same_history; [done|done|done|right; by apply linked_direct|done]).
  rewrite !accepted_lookup. by rewrite <- Heq, Hb'.
Qed.

Lemma same_timestamp ds ds' leader last :
  same_commits U ds ds' → next_leader ds leader → next_leader ds' leader →
  calculate_commit_timestamp c ds leader last = calculate_commit_timestamp c ds' leader last.
Proof.
  intros Hs Hn Hn'. unfold calculate_commit_timestamp. fold (parent_refs leader).
  cbn [bs_get_blocks DagState_BlockStoreAPI]. rewrite !get_blocks_spec. run_bind.
  assert (block_of ds <$> parent_refs leader = block_of ds' <$> parent_refs leader) as ->; [|done].
  apply list_fmap_ext. intros i r Hr%list_elem_of_lookup_2. by eapply same_parents.
Qed.

Lemma collect_agree ds ds' leader ds1 ds1' sd sd' commit commit' :
  same_commits U ds ds' → next_leader ds leader → next_leader ds' leader →
  collect_sub_dag_and_commit ds leader = Done (ds1, sd, commit) →
  collect_sub_dag_and_commit ds' leader = Done (ds1', sd', commit') → sd = sd' ∧ commit = commit'.
Proof.
  intros Hs Hn Hn' Hrun Hrun'. destruct (sm_left _ _ _ Hs) as [Hv _], (sm_right _ _ _ Hs) as [Hv' _].
  pose proof (same_gc _ _ Hs) as Hgc.
  destruct (linearize_leader ds leader Hv Hn) as (d2 & l & Hlin & Hsame & Hok & HB & _).
  destruct (linearize_leader ds' leader Hv' Hn') as (d2' & l' & Hlin' & Hsame' & Hok' & HB' & _).
  destruct (linearize_sub_dags_agree (gc_round ds) (cached ds) (cached ds') (committed_refs ds) (committed_refs ds')
    leader) with (d := ds) (d' := ds') as (e & e' & l0 & Hl0 & Hl0');
    [eapply view_store_closed; [apply Hv|apply Hv]|apply Hn
    |rewrite Hgc; eapply view_store_closed; [apply Hv'|apply Hv']|apply Hn'| |apply Hv|done|done|done|apply Hv'|done|done|done| |by apply gc_below_leader|].
  { intros r Hh Hr. split; [by eapply same_history|by apply (sm_committed _ _ _ Hs)]. }
  { intros Hin%(cv_committed _ Hv). destruct Hn as [_ Hr]. cbn in Hin. lia. }
  unfold collect_sub_dag_and_commit in Hrun, Hrun'. rewrite Hl0 in Hrun. rewrite Hl0' in Hrun'.
  rewrite Hl0 in Hlin. injection Hlin as -> ->. rewrite Hl0' in Hlin'. injection Hlin' as -> ->.
  cbn [mbind outcome_bind] in Hrun, Hrun'.
  assert (ds_committee d2 = c ∧ ds_committee d2' = c) as [Hc2 Hc2'].
  { split; [rewrite Hsame; apply Hv|rewrite Hsame'; apply Hv']. }
  rewrite Hc2, (timestamp_same ds d2) in Hrun by done. rewrite Hc2', (timestamp_same ds' d2') in Hrun' by done.
  assert (last_commit_index ds = last_commit_index ds' ∧ last_commit_digest ds = last_commit_digest ds' ∧
    last_commit_timestamp_ms ds = last_commit_timestamp_ms ds') as (Hi & Hd & Ht)
    by (unfold last_commit_index, last_commit_digest, last_commit_timestamp_ms; by rewrite (sm_last _ _ _ Hs)).
  rewrite (same_timestamp ds ds') in Hrun by done. rewrite Hi, Hd, Ht in Hrun.
  apply bind_Done in Hrun as (m & Hm & Hrun). apply bind_Done in Hrun' as (m' & Hm' & Hrun').
  rewrite Hm in Hm'. injection Hm' as <-.
  apply bind_Done in Hrun as (bytes & Hbytes & [= _ <- <-]). apply bind_Done in Hrun' as (bytes' & Hbytes' & [= _ <- <-]).
  rewrite Hbytes in Hbytes'. by injection Hbytes' as <-.
Qed.

Lemma same_commits_next ds ds' leader sd commit ds1 ds1' :
  same_commits U ds ds' → commit_step ds leader sd commit → next_leader ds leader →
  committed_state ds sd commit ds1 → committed_state ds' sd commit ds1' → commit_view ds1 → commit_view ds1' →
  same_commits U ds1 ds1'.
Proof.
  intros Hs Hstep Hn Hst Hst' Hv1 Hv1'. destruct (sm_left _ _ _ Hs) as [Hv HU], (sm_right _ _ _ Hs) as [Hv' HU'].
  split.
  - by rewrite (ct_cached _ _ _ _ Hst).
  - by rewrite (ct_cached _ _ _ _ Hst').
  - by rewrite (ct_last _ _ _ _ Hst), (ct_last _ _ _ _ Hst').
  - rewrite (ct_context _ _ _ _ Hst), (ct_context _ _ _ _ Hst'). apply Hs.
  - rewrite (ct_genesis _ _ _ _ Hst), (ct_genesis _ _ _ _ Hst'). apply Hs.
  - intros r Hr. rewrite (ct_committed _ _ _ _ Hst), (ct_committed _ _ _ _ Hst'), !elem_of_union.
    rewrite (sm_committed _ _ _ Hs); [done|].
    assert (gc_round ds ≤ gc_round ds1)%N; [|lia].
    eapply chain_gc. econstructor; [exact Hn|done|done|done|constructor].
Qed.

Lemma handle_leaders_agree ds ds' sds0 leaders :
  same_commits U ds ds' → leaders_ok ds leaders → leaders_ok ds' leaders →
  (last_commit_index ds + lengthN leaders < u32_modulus)%N →
  ∃ ds1 ds1' sds, for_each handle_leader (ds, sds0) leaders = Done (ds1, sds) ∧
    for_each handle_leader (ds', sds0) leaders = Done (ds1', sds) ∧ same_commits U ds1 ds1'.
Proof.
  revert ds ds' sds0. induction leaders as [|leader leaders IH]; intros ds ds' sds0 Hs Hlo Hlo' Hidx; cbn [for_each].
  { by exists ds, ds', sds0. }
  destruct (sm_left _ _ _ Hs) as [Hv _], (sm_right _ _ _ Hs) as [Hv' _].
  unfold lengthN in Hidx. cbn [length] in Hidx.
  assert (last_commit_index ds = last_commit_index ds') as Hi by (unfold last_commit_index; by rewrite (sm_last _ _ _ Hs)).
  pose proof (leaders_ok_head _ _ _ Hlo) as Hn. pose proof (leaders_ok_head _ _ _ Hlo') as Hn'.
  destruct (handle_leader_spec ds sds0 leader Hv Hn) as (d1 & ds1 & sd & commit & Hc & -> & Hstep & Hst & Hv1); [lia|].
  destruct (handle_leader_spec ds' sds0 leader Hv' Hn') as (d1' & ds1' & sd' & commit' & Hc' & -> & Hstep' & Hst' & Hv1'); [lia|].
  destruct (collect_agree _ _ _ _ _ _ _ _ _ Hs Hn Hn' Hc Hc') as [<- <-]. run_bind.
  apply IH.
  - by eapply (same_commits_next ds ds').
  - exact (leaders_ok_next _ _ _ _ _ _ Hlo Hstep Hst).
  - exact (leaders_ok_next _ _ _ _ _ _ Hlo' Hstep' Hst').
  - destruct (committed_last _ _ _ _ _ Hstep Hst) as (-> & _). unfold lengthN. lia.
Qed.

End agree.
End order.

(** ** From decisions to commits *)
Section replication.
Context {S : Type} `{StoreLaws S} `{LeaderRng} `{BlockCodec} `{CommitCodec}.
Context (c : Committee).
Implicit Types ds : DagState S.

(** The blocks that a sequence of decisions commits. *)
Definition committed_leaders (seq : list DecidedLeader) : list VerifiedBlock := omap into_committed_block seq.

Lemma committed_leaders_status seq :
  committed_leaders seq = omap (λ st, match st with LCommit b => Some b | _ => None end) (status_of <$> seq).
Proof.
  unfold committed_leaders. induction seq as [|[b direct|s] seq IH]; [done| |]; cbn; cbn in IH; by rewrite <- IH.
Qed.

Lemma committed_leaders_prefix seq seq' :
  (status_of <$> seq) `prefix_of` (status_of <$> seq') → committed_leaders seq `prefix_of` committed_leaders seq'.
Proof.
  intros [rest Hrest]. rewrite !committed_leaders_status, Hrest, omap_app. by eexists.
Qed.

(** Decisions for consecutive rounds commit leaders of growing rounds. *)
Lemma committed_leaders_sorted (seq : list DecidedLeader) k :
  (∀ i d, seq !! i = Some d → slot_round (DecidedLeader_slot d) = (k + N.of_nat i)%N) →
  StronglySorted (λ a b, round a < round b)%N (committed_leaders seq) ∧
  ∀ b, b ∈ committed_leaders seq → (k ≤ round b)%N.
Proof.
  revert k. induction seq as [|d seq IH]; intros k Hseq; cbn; [split; [constructor|by intros b []%not_elem_of_nil]|].
  destruct (IH (k + 1)%N) as [Hs Hb].
  { intros i d' Hi. rewrite (Hseq (Datatypes.S i) d' Hi). lia. }
  destruct d as [b direct|s]; cbn.
  - pose proof (Hseq 0 _ eq_refl) as Hr. cbn in Hr. split.
    + constructor; [done|]. apply Forall_forall. intros b' Hb'. specialize (Hb b' Hb'). lia.
    + intros b' [->|Hb']%elem_of_cons; [lia|]. specialize (Hb b' Hb'). lia.
  - split; [done|]. intros b Hin. specialize (Hb b Hin). lia.
Qed.

Lemma sorted_rounds_length (l : list VerifiedBlock) lo h :
  StronglySorted (λ a b, round a < round b)%N l → (∀ b, b ∈ l → (lo < round b ≤ h)%N) → (lo + lengthN l ≤ N.max lo h)%N.
Proof.
  intros Hs. revert lo. induction Hs as [|b l Hs IH Hall]; intros lo Hb; unfold lengthN in *; cbn [length]; [lia|].
  rewrite Forall_forall in Hall. pose proof (Hb b ltac:(set_solver)) as Hb0.
  assert (round b + N.of_nat (length l) ≤ N.max (round b) h)%N as Hlen; [|lia].
  apply IH. intros b' Hb'. pose proof (Hall b' Hb'). pose proof (Hb b' ltac:(set_solver)). cbn in *. lia.
Qed.

Lemma decided_leaders_ok U leader f byz ctx ls ds last seq :
  network c f byz U → node_ok c U leader ctx ls ds last → try_decide (pipeline ctx ls) ds last = Done seq →
  leaders_ok ds (committed_leaders seq) ∧ (lengthN (committed_leaders seq) ≤ ds_highest_accepted_round ds)%N.
Proof.
  intros Hnw Hn Hrun.
  destruct (try_decide_run c U leader f byz ctx ls ds last Hnw Hn) as (seq' & sts & Hrun' & Hp & Hd & _).
  rewrite Hrun in Hrun'. injection Hrun' as <-.
  destruct (committed_leaders_sorted seq (slot_round last + 1)) as [Hs Hr].
  { intros i d Hi. destruct (decided_lookup c U leader seq sts ds _ i d Hp Hd Hi) as [_ ->]. done. }
  assert (∀ b, b ∈ committed_leaders seq → cached ds !! reference b = Some b) as Hc.
  { intros b ([b' direct|s] & Hin & [= ->])%list_elem_of_omap. apply list_elem_of_lookup in Hin as [i Hi].
    destruct (decided_lookup c U leader seq sts ds _ i _ Hp Hd Hi) as [Hst _].
    eapply committed_certificate; [done|by eapply decided_from_lookup|done]. }
  pose proof (no_last _ _ _ _ _ _ _ Hn) as Hl. split.
  - split; [done| |done]. intros b Hb. specialize (Hr b Hb). lia.
  - pose proof (sorted_rounds_length _ 0 (ds_highest_accepted_round ds) Hs) as Hlen.
    assert (0 + lengthN (committed_leaders seq) ≤ N.max 0 (ds_highest_accepted_round ds))%N; [|lia].
    apply Hlen. intros b Hb. split; [specialize (Hr b Hb); lia|].
    change (round b) with (ref_round (reference b)). eapply dk_highest.
    + eapply dv_ok, (no_view _ _ _ _ _ _ _ Hn).
    + eapply elem_of_dom_2. by apply Hc.
Qed.

Lemma handle_leaders_extend ds sds leaders ds' sds' :
  for_each handle_leader (ds, sds) leaders = Done (ds', sds') → sds `prefix_of` sds'.
Proof.
  revert ds sds. induction leaders as [|leader leaders IH]; intros ds sds Hrun; cbn in Hrun; [by injection Hrun as _ <-|].
  apply bind_Done in Hrun as ([ds1 sds1] & Hl & Hrun). unfold handle_leader in Hl.
  apply bind_Done in Hl as ([[d sd] commit] & _ & Hl). apply bind_Done in Hl as (u & _ & Hl).
  apply bind_Done in Hl as (d' & _ & [= _ <-]). etrans; [|by eapply IH]. by eexists.
Qed.

Lemma leaders_ok_app ds l k : leaders_ok ds (l ++ k) → leaders_ok ds l.
Proof.
  intros [Hc Ha Hs]. split; [intros b Hb; apply Hc; set_solver|intros b Hb; apply Ha; set_solver|].
  by apply StronglySorted_app in Hs as (_ & Hs & _).
Qed.

(** Committing a prefix of the leaders gives a prefix of the sub-dags. *)
Lemma handle_commit_prefix U ds ds' l l' :
  (∀ commit, is_Some (bcs_commit commit)) → (0 < quorum_threshold c)%N →
  same_commits c U ds ds' → leaders_ok ds l → leaders_ok ds' l' →
  (last_commit_index ds + lengthN l' < u32_modulus)%N → l `prefix_of` l' →
  ∃ ds1 ds1' sds sds', handle_commit ds l = Done (ds1, sds) ∧ handle_commit ds' l' = Done (ds1', sds') ∧
    sds `prefix_of` sds'.
Proof.
  intros Hcodec Hq Hs Hlo Hlo' Hidx [rest ->].
  destruct (handle_leaders_agree c Hq Hcodec U ds ds' [] l) as (ds1 & ds2 & sds & Hrun & Hrun2 & _);
    [done|done|by eapply leaders_ok_app|unfold lengthN in *; rewrite length_app in Hidx; lia|].
  destruct (handle_leaders c Hq Hcodec ds' [] (l ++ rest)) as (ds1' & sds' & commits & Hrun' & _);
    [apply Hs|done|unfold last_commit_index in *; by rewrite <- (sm_last _ _ _ _ Hs)|].
  exists ds1, ds1', sds, sds'. split_and!; [done|done|].
  rewrite for_each_app, Hrun2 in Hrun'. cbn [mbind outcome_bind] in Hrun'. by eapply handle_leaders_extend.
Qed.

End replication.

Lemma same_commits_sym {S : Type} `{StoreLaws S} c U (ds ds' : DagState S) :
  same_commits c U ds ds' → same_commits c U ds' ds.
Proof.
  intros Hs. pose proof (same_gc c U ds ds' Hs) as Hgc. destruct Hs as [Hl Hr Hlast Hd Hg HM].
  split; [done|done|done|done|done|]. rewrite <- Hgc. intros r Hr'. symmetry. by apply HM.
Qed.

(** C5: the linearizer commits every block once. For leaders of growing rounds on a
    closed view, [handle_commit] never panics (none of its assertions on blocks
    committed twice, on garbage-collected blocks or on commit order can fail) and
    terminates. The sub-dags have no block twice and none that was committed
    before; commits are numbered consecutively after the last one, each carries
    the digest of the previous one, their timestamps never decrease; and every
    block in the history of a committed leader above the new gc round is
    committed. *)
Theorem handle_commit_correct {S : Type} `{StoreLaws S} `{BlockCodec} `{CommitCodec} c (ds : DagState S) leaders :
  (0 < quorum_threshold c)%N → (∀ commit, is_Some (bcs_commit commit)) →
  commit_view c ds → leaders_ok ds leaders → (last_commit_index ds + lengthN leaders < u32_modulus)%N →
  ∃ ds' sds commits, handle_commit ds leaders = Done (ds', sds) ∧ commit_view c ds' ∧
    map sd_leader sds = map reference leaders ∧ map sd_commit_ref sds = map TrustedCommit_reference commits ∧
    NoDup (map reference (sds ≫= sd_blocks)) ∧
    (∀ b, b ∈ sds ≫= sd_blocks → cached ds !! reference b = Some b ∧ reference b ∉ committed_refs ds) ∧
    map tc_index commits = rangeN (last_commit_index ds + 1) (last_commit_index ds + 1 + lengthN commits) ∧
    (∀ i commit, commits !! i = Some commit → Commit_previous_digest (tc_inner commit) =
      match i with O => last_commit_digest ds | Datatypes.S j => default 0%N (tc_digest <$> commits !! j) end) ∧
    StronglySorted N.le (last_commit_timestamp_ms ds :: map tc_timestamp_ms commits) ∧
    ds_commits_to_write ds' = ds_commits_to_write ds ++ commits ∧
    ∀ leader b, leader ∈ leaders → cached ds !! reference b = Some b → history (cached ds) leader (reference b) →
      (gc_round ds' < round b)%N → reference b ∈ committed_refs ds'.
Proof.
  intros Hq Hcodec Hv Hlo Hidx.
  destruct (handle_leaders c Hq Hcodec ds [] leaders Hv Hlo Hidx) as (ds' & sds & commits & Hrun & Hchain & Hv').
  destruct (chain_blocks c ds leaders sds commits ds' Hchain) as (Hnd & Hnew & HM & Hw).
  destruct (chain_numbers c ds leaders sds commits ds' Hchain) as (Hl & Hr & Hi & Hp & Ht).
  exists ds', sds, commits. split_and!; try done.
  - intros b Hb. split; [|by apply Hnew]. by eapply chain_cached.
  - intros leader b Hin. by eapply chain_history.
Qed.

(** agreement of the linearizers. Two nodes with the same last commit and the
    same committed blocks above the gc round, on dag states that hold blocks of
    one network, turn the same leaders into the same sub-dags, with blocks in the
    same order, the same timestamps and the same commit digests. *)
Theorem handle_commit_agreement {S : Type} `{StoreLaws S} `{BlockCodec} `{CommitCodec} c U (ds ds' : DagState S) leaders :
  (0 < quorum_threshold c)%N → (∀ commit, is_Some (bcs_commit commit)) →
  same_commits c U ds ds' → leaders_ok ds leaders → leaders_ok ds' leaders →
  (last_commit_index ds + lengthN leaders < u32_modulus)%N →
  ∃ ds1 ds1' sds, handle_commit ds leaders = Done (ds1, sds) ∧ handle_commit ds' leaders = Done (ds1', sds) ∧
    same_commits c U ds1 ds1'.
Proof. intros Hq Hcodec Hs Hlo Hlo' Hidx. by apply handle_leaders_agree. Qed.

(** C3: consensus safety from the dag to the output. Two nodes that have made the
    same commits decide leaders with the commit rules and linearize them; with at
    most [f] faulty stake, the sequence of sub-dags of one node is a prefix of
    that of the other. *)
Theorem consensus_output_agreement {S : Type} `{StoreLaws S} `{LeaderRng} `{BlockCodec} `{CommitCodec}
    c f byz U leader ctx ctx' ls ls' (ds ds' : DagState S) last last' :
  (∀ commit, is_Some (bcs_commit commit)) → network c f byz U →
  node_ok c U leader ctx ls ds last → node_ok c U leader ctx' ls' ds' last' → slot_round last = slot_round last' →
  same_commits c U ds ds' →
  (last_commit_index ds + ds_highest_accepted_round ds < u32_modulus)%N →
  (last_commit_index ds + ds_highest_accepted_round ds' < u32_modulus)%N →
  ∃ seq seq' ds1 ds1' sds sds',
    try_decide (pipeline ctx ls) ds last = Done seq ∧ try_decide (pipeline ctx' ls') ds' last' = Done seq' ∧
    handle_commit ds (committed_leaders seq) = Done (ds1, sds) ∧
    handle_commit ds' (committed_leaders seq') = Done (ds1', sds') ∧
    (sds `prefix_of` sds' ∨ sds' `prefix_of` sds).
Proof.
  intros Hcodec Hnw Hn Hn' Hlast Hs Hidx Hidx'.
  assert (0 < quorum_threshold c)%N as Hq by (eapply quorum_pos, nw_quorums; done).
  destruct (try_decide_pointwise c U leader f byz ctx ctx' ls ls' ds ds' last last') as (seq & seq' & Hrun & Hrun' & Heq);
    [done..|].
  destruct (decided_leaders_ok c U leader f byz ctx ls ds last seq Hnw Hn Hrun) as [Hlo Hlen].
  destruct (decided_leaders_ok c U leader f byz ctx' ls' ds' last' seq' Hnw Hn' Hrun') as [Hlo' Hlen'].
  assert ((status_of <$> seq) `prefix_of` (status_of <$> seq') ∨ (status_of <$> seq') `prefix_of` (status_of <$> seq))
    as [Hp|Hp].
  { apply comparable_lists. intros i st st'. rewrite !list_lookup_fmap, !fmap_Some.
    intros (d & Hi & ->) (d' & Hi' & ->). apply (Heq i i d d'); [done|done|lia]. }
  - destruct (handle_commit_prefix c U ds ds' (committed_leaders seq) (committed_leaders seq'))
      as (ds1 & ds1' & sds & sds' & Hh & Hh' & Hpre); [done|done|done|done|done|lia|by apply committed_leaders_prefix|].
    exists seq, seq', ds1, ds1', sds, sds'. split_and!; try done. by left.
  - destruct (handle_commit_prefix c U ds' ds (committed_leaders seq') (committed_leaders seq))
      as (ds1' & ds1 & sds' & sds & Hh' & Hh & Hpre);
      [done|done|by apply same_commits_sym|done|done| |by apply committed_leaders_prefix|].
    { unfold last_commit_index in *. rewrite <- (sm_last _ _ _ _ Hs). lia. }
    exists seq, seq', ds1, ds1', sds, sds'. split_and!; try done. by right.
Qed.

(** C18: faulty authorities cannot move commit timestamps. The timestamp of a commit
    is never before the previous one. If the faulty authorities hold less than
    half of a quorum, and the leader's parents by correct authorities have
    timestamps between [lo] and [hi], then the timestamp is between them too, up
    to the bound by the previous timestamp. *)
Theorem commit_timestamp_bounded {S : Type} `{StoreLaws S} c (ds : DagState S) leader (byz : gset N) last lo hi :
  (0 < quorum_threshold c)%N → (2 * set_stake c byz < quorum_threshold c)%N →
  commit_view c ds → next_leader ds leader →
  (∀ b, b ∈ parent_blocks ds leader → author b ∉ byz → (lo ≤ timestamp_ms b ≤ hi)%N) →
  ∃ ts, calculate_commit_timestamp c ds leader last = Done ts ∧ (last ≤ ts)%N ∧
    (N.max lo last ≤ ts ≤ N.max hi last)%N.
Proof.
  intros Hq Hbyz Hv Hn Hrange.
  destruct (calculate_commit_timestamp_spec c Hq ds leader last Hv Hn) as (m & Hrun & Hm).
  destruct (parent_blocks_authors c ds leader Hv Hn) as (Hauth & Hnd & Htot).
  exists (N.max m last). split; [done|]. split; [lia|].
  assert (lo ≤ m ≤ hi)%N; [|lia].
  apply (median_between (weighted c) (parent_blocks ds leader) m (λ b, author b ∈ byz)); [done| |].
  - assert (valid_block c leader) as Hval by (eapply dv_valid; [apply Hv|apply Hn]).
    pose proof (vb_parents _ _ Hval) as Hp. rewrite <- Htot in Hp.
    assert (total (map (weighted c) (filter (λ b, author b ∈ byz) (parent_blocks ds leader))) ≤ set_stake c byz)%N; [|lia].
    rewrite total_distinct.
    + apply set_sum_mono. intros a Ha%elem_of_list_to_set.
      apply list_elem_of_fmap in Ha as (b & -> & [Hb _]%list_elem_of_filter). done.
    + eapply sublist_NoDup; [exact Hnd|]. apply fmap_sublist, sublist_filter.
  - intros b Hb Hnf. by apply Hrange.
Qed.

(** ** Examples *)

#[export] Instance sample_commit_codec : CommitCodec := {| bcs_commit := λ _, Some [] |}.

(** A state without commits, as a check that can be run. *)
Definition fresh_check {S} `{Store S} (c : Committee) (ds : DagState S) : bool :=
  forallb (λ '(_, i), negb (bi_committed i)) (map_to_list (ds_recent_blocks ds)) &&
  forallb (λ '(_, i), forallb (λ a, bool_decide (ref_round a ≠ GENESIS_ROUND) || bool_decide (a ∈ dom (ds_genesis ds)))
    (ancestors (bi_block i))) (map_to_list (ds_recent_blocks ds)) &&
  bool_decide (lengthN (ds_last_committed_rounds ds) = Committee_size c) &&
  bool_decide (0 < gc_depth (protocol_config (ds_context ds)))%N.

Lemma fresh_commit_view {S} `{StoreLaws S} c (ds : DagState S) :
  dag_view c ds → fresh_check c ds = true → commit_view c ds ∧ committed_refs ds = ∅.
Proof.
  intros Hv Hcheck. unfold fresh_check in Hcheck. rewrite !andb_true_iff, !forallb_forall, !bool_decide_eq_true in Hcheck.
  destruct Hcheck as [[[Hnone Hgen] Hlen] Hgc].
  assert (committed_refs ds = ∅) as Hempty.
  { apply set_eq. intros r. rewrite elem_of_committed_refs. split; [|set_solver].
    intros (i & Hi%elem_of_map_to_list%list_elem_of_In & Hcom). specialize (Hnone _ Hi). cbn in Hnone. by rewrite Hcom in Hnone. }
  split; [|done]. split; [done| | | |done|done].
  - intros r b a _ Hr. rewrite Hempty in Hr. by apply not_elem_of_empty in Hr.
  - intros r Hr. rewrite Hempty in Hr. by apply not_elem_of_empty in Hr.
  - intros r b a Hb Ha Hz. rewrite cached_lookup in Hb. apply fmap_Some in Hb as (i & Hi & ->).
    apply elem_of_map_to_list, list_elem_of_In in Hi. specialize (Hgen _ Hi). cbn in Hgen. rewrite forallb_forall in Hgen.
    specialize (Hgen a (proj1 (list_elem_of_In _ _) Ha)).
    by apply orb_true_iff in Hgen as [Hne%bool_decide_eq_true|Hin%bool_decide_eq_true].
Qed.

Lemma sample_commit_views :
  (commit_view committee_4 sample_node_1 ∧ committed_refs sample_node_1 = ∅) ∧
  (commit_view committee_4 sample_node_2 ∧ committed_refs sample_node_2 = ∅).
Proof.
  destruct sample_views as [[Hv1 _] [Hv2 _]].
  split; apply fresh_commit_view; [exact Hv1|vm_compute; reflexivity|exact Hv2|vm_compute; reflexivity].
Qed.

Lemma sample_same_commits : same_commits committee_4 sample_network sample_node_1 sample_node_2.
Proof.
  destruct sample_views as [[_ HU1] [_ HU2]], sample_commit_views as [[Hv1 HM1] [Hv2 HM2]].
  split; [exact (conj Hv1 HU1)|exact (conj Hv2 HU2)|vm_compute; reflexivity..|].
  intros r _. rewrite HM1, HM2. reflexivity.
Qed.

(** The leaders that both nodes decide to commit. *)
Definition sample_leaders : list VerifiedBlock := [sample_of (mkBlockRef 1 0 10); sample_of (mkBlockRef 3 0 30)].

Lemma sample_leaders_ok : leaders_ok sample_node_1 sample_leaders ∧ leaders_ok sample_node_2 sample_leaders.
Proof.
  split; split; try (intros b Hb; repeat (apply elem_of_cons in Hb as [->|Hb]);
    [vm_compute; reflexivity..|by apply not_elem_of_nil in Hb]); repeat constructor.
Qed.

Lemma handle_commit_correct_witness :
  ∃ ds' sds, handle_commit sample_node_1 sample_leaders = Done (ds', sds) ∧ commit_view committee_4 ds' ∧
    map (λ sd, map reference (sd_blocks sd)) sds =
      [[mkBlockRef 1 0 10];
       [mkBlockRef 1 1 11; mkBlockRef 1 2 12; mkBlockRef 1 3 13; mkBlockRef 2 1 21; mkBlockRef 2 2 22;
        mkBlockRef 2 3 23; mkBlockRef 3 0 30]] ∧
    NoDup (map reference (sds ≫= sd_blocks)).
Proof.
  destruct (handle_commit_correct committee_4 sample_node_1 sample_leaders)
    as (ds' & sds & commits & Hrun & Hv & _ & _ & Hnd & _).
  - reflexivity.
  - intros commit. by eexists.
  - exact (proj1 (proj1 sample_commit_views)).
  - exact (proj1 sample_leaders_ok).
  - vm_compute. reflexivity.
  - exists ds', sds. split; [exact Hrun|]. split; [exact Hv|]. split; [|exact Hnd].
    clear Hv Hnd. vm_compute in Hrun. injection Hrun as _ <-. reflexivity.
Defined.

Lemma handle_commit_agreement_witness :
  ∃ ds1 ds1' sds, handle_commit sample_node_1 sample_leaders = Done (ds1, sds) ∧
    handle_commit sample_node_2 sample_leaders = Done (ds1', sds) ∧ length sds = 2.
Proof.
  destruct (handle_commit_agreement committee_4 sample_network sample_node_1 sample_node_2 sample_leaders)
    as (ds1 & ds1' & sds & Hrun & Hrun' & _).
  - reflexivity.
  - intros commit. by eexists.
  - exact sample_same_commits.
  - exact (proj1 sample_leaders_ok).
  - exact (proj2 sample_leaders_ok).
  - vm_compute. reflexivity.
  - exists ds1, ds1', sds. split; [exact Hrun|]. split; [exact Hrun'|].
    clear Hrun'. vm_compute in Hrun. injection Hrun as _ <-. reflexivity.
Defined.

Lemma consensus_output_agreement_witness :
  ∃ seq seq' ds1 ds1' sds sds',
    try_decide (pipeline sample_context sample_schedule) sample_node_1 (mkSlot 0 0) = Done seq ∧
    try_decide (pipeline sample_context sample_schedule) sample_node_2 (mkSlot 0 0) = Done seq' ∧
    handle_commit sample_node_1 (committed_leaders seq) = Done (ds1, sds) ∧
    handle_commit sample_node_2 (committed_leaders seq') = Done (ds1', sds') ∧
    (sds `prefix_of` sds' ∨ sds' `prefix_of` sds).
Proof.
  apply (consensus_output_agreement committee_4 1 {[3%N]} sample_network (λ _, 0%N)).
  - intros commit. by eexists.
  - exact sample_network_ok.
  - exact sample_node_ok_1.
  - exact sample_node_ok_2.
  - reflexivity.
  - exact sample_same_commits.
  - vm_compute. reflexivity.
  - vm_compute. reflexivity.
Defined.

Lemma commit_timestamp_bounded_witness :
  ∃ ts, calculate_commit_timestamp committee_4 sample_node_1 (sample_of (mkBlockRef 3 0 30)) 0 = Done ts ∧
    (0 ≤ ts)%N ∧ (N.max 2000 0 ≤ ts ≤ N.max 2000 0)%N.
Proof.
  apply (commit_timestamp_bounded committee_4 sample_node_1 (sample_of (mkBlockRef 3 0 30)) {[3%N]} 0 2000 2000).
  - reflexivity.
  - vm_compute. reflexivity.
  - exact (proj1 (proj1 sample_commit_views)).
  - split; vm_compute; reflexivity.
  - intros b Hb _.
    assert (Forall (λ b, timestamp_ms b = 2000%N) (parent_blocks sample_node_1 (sample_of (mkBlockRef 3 0 30)))) as Hall
      by (vm_compute; repeat constructor).
    rewrite Forall_forall in Hall. rewrite (Hall b Hb). done.
Defined.
