(* ===== verification/ScheduleSpec.v ===== *)
(** * Reputation scores and the leader schedule over a run

    What the dag state collects for the scores of the next leader schedule: scoring the
    sub-dags of consecutive commits never panics, the schedule is replaced after its
    number of commits, and every schedule elects a leader for every round. *)

From S2P Require Import Prelude Committee Block StakeAggregator ThresholdClock Commit Store LeaderScoring.
From S2P Require Import DagState DagInvariant CausalHistory LeaderSchedule.

(** ** Scoring one more sub-dag *)
Section scoring.
Context (c : Committee) (Hc : committee_ok c).

(** The scores collected up to commit [index], whose leader is of round [top]. [seen]
    holds of every reference that has been committed. *)
Record scores_ok (seen : BlockRef → Prop) (top index : N) (ss : ScoringSubdag) : Prop := {
  so_votes : scoring_ok c (ss_votes ss);
  so_seen r : r ∈ dom (ss_votes ss) → seen r;
  so_leaders r r' : r ∈ ss_leaders ss → r' ∈ ss_leaders ss → ref_round r = ref_round r' → r = r';
  so_top r : r ∈ ss_leaders ss → (ref_round r ≤ top)%N;
  so_range range : ss_commit_range ss = Some range → (0 < range_start range ≤ index ∧ range_end_ range = index + 1)%N;
}.

Lemma scores_ok_mono (seen seen' : BlockRef → Prop) top index ss :
  scores_ok seen top index ss → (∀ r, seen r → seen' r) → scores_ok seen' top index ss.
Proof using. intros [] Hm. split; auto. Qed.

Lemma scores_ok_new seen top index : scores_ok seen top index ScoringSubdag_new.
Proof using.
  split; cbn; [|by intros r ?|by intros r r' ?|by intros r ?|done]. intros v agg Hv. by rewrite lookup_empty in Hv.
Qed.

(** The first commit of the schedule. *)
Definition window_start (index : N) (ss : ScoringSubdag) : N :=
  match ss_commit_range ss with Some range => range_start range | None => (index + 1)%N end.

Lemma scores_count seen top index ss :
  scores_ok seen top index ss → scored_subdags_count ss = Done (index + 1 - window_start index ss)%N.
Proof using.
  intros Hok. unfold scored_subdags_count, window_start. destruct (ss_commit_range ss) as [range|] eqn:Hr.
  - destruct (so_range _ _ _ _ Hok range Hr) as [Hs He]. unfold CommitRange_size, checked_sub. rewrite He.
    by rewrite decide_True by lia.
  - f_equal. lia.
Qed.

(** The ancestors of a block. At most one of them is a leader of the previous round. *)
Lemma score_ancestors_total leaders b l votes :
  (∀ r r', r ∈ leaders → r' ∈ leaders → ref_round r = ref_round r' → r = r') → NoDup l →
  (author b < Committee_size c)%N → scoring_ok c votes →
  (votes !! reference b = None ∨ ∀ a, a ∈ l → a ∈ leaders → ref_round a ≠ (round b - 1)%N) →
  ∃ votes', for_each (score_ancestor c leaders b) votes l = Done votes' ∧ scoring_ok c votes' ∧
    ∀ r, r ∈ dom votes' → r ∈ dom votes ∨ r = reference b.
Proof using Hc.
  intros Hlead. revert votes. induction l as [|a l IH]; intros votes Hnd Hb Hok Hnew; cbn [for_each].
  { exists votes. split_and!; [done|done|auto]. }
  apply NoDup_cons in Hnd as [Ha Hnd].
  assert (∃ votes1, score_ancestor c leaders b votes a = Done votes1 ∧ (∀ r, r ∈ dom votes1 → r ∈ dom votes ∨ r = reference b) ∧
    (votes1 !! reference b = None ∨ ∀ a, a ∈ l → a ∈ leaders → ref_round a ≠ (round b - 1)%N)) as (votes1 & Hrun & Hdom & Hnew1).
  { unfold score_ancestor. case_decide as Hr; [exists votes; split_and!; [done|auto|destruct Hnew; [auto|right; set_solver]]|].
    assert (∃ votes0, (if decide (a ∈ leaders) then rassert (votes !! reference b = None);;
        Done (<[reference b := StakeAggregator_new]> votes) else Done votes) = Done votes0 ∧
      (∀ r, r ∈ dom votes0 → r ∈ dom votes ∨ r = reference b) ∧ scoring_ok c votes0 ∧
      (((a ∉ leaders) ∧ votes0 = votes) ∨ (a ∈ leaders))) as (votes0 & -> & Hdom0 & Hok0 & Hcase).
    { case_decide as Hin; [|exists votes; split_and!; auto].
      rewrite rassert_true.
      2: { destruct Hnew as [|Hno]; [done|]. by destruct (Hno a (list_elem_of_here _ _) Hin). }
      run_bind. eexists. split_and!; [done|set_solver| |auto].
      intros v agg [[<- <-]|[_ Hv]]%lookup_insert_Some; [split; [apply StakeAggregator_new_ok|done]|by apply Hok]. }
    run_bind. assert (a ∈ leaders → ∀ a', a' ∈ l → a' ∈ leaders → ref_round a' ≠ (round b - 1)%N) as Honce.
    { intros Hin a' Ha' Hin' Hr'. rewrite (Hlead a' a) in Ha' by (done || congruence). done. }
    destruct (votes0 !! a) as [agg|] eqn:Hagg.
    - destruct (Hok0 _ _ Hagg) as [Hagg_ok _].
      destruct (agg_add_spec c Hc agg (author b)) as (agg' & -> & _); [done..|]. run_bind.
      eexists. split_and!; [done| |].
      + intros r. rewrite dom_insert_lookup_L by eauto. auto.
      + destruct Hcase as [[Hn ->]|Hin]; [|by eauto]. destruct Hnew as [Hnone|]; [|right; set_solver].
        left. apply lookup_insert_None. split; [done|]. intros ->. congruence.
    - eexists. split_and!; [done|done|]. destruct Hcase as [[Hn ->]|Hin]; [|by eauto].
      destruct Hnew as [Hnone|]; [by left|right; set_solver]. }
  rewrite Hrun. run_bind. assert (scoring_ok c votes1) as Hok1 by (by eapply score_ancestor_ok).
  destruct (IH votes1) as (votes' & Hrun' & Hok' & Hdom'); [done..|].
  exists votes'. split_and!; [done|done|]. intros r [Hr|]%Hdom'; auto.
Qed.

(** A sub-dag that can be scored next: new blocks of the committee, and a leader above
    those before. *)
Record next_subdag (seen : BlockRef → Prop) (top index : N) (sd : CommittedSubDag) : Prop := {
  ns_index : cref_index (sd_commit_ref sd) = (index + 1)%N;
  ns_bound : (index + 1 < u32_MAX)%N;
  ns_leader : (top < ref_round (sd_leader sd))%N;
  ns_valid b : b ∈ sd_blocks sd → valid_block c b;
  ns_new b : b ∈ sd_blocks sd → ¬ seen (reference b);
  ns_distinct : NoDup (reference <$> sd_blocks sd);
}.

Lemma score_blocks_total leaders l votes :
  (∀ r r', r ∈ leaders → r' ∈ leaders → ref_round r = ref_round r' → r = r') →
  (∀ b, b ∈ l → valid_block c b) → NoDup (reference <$> l) → (∀ b, b ∈ l → reference b ∉ dom votes) → scoring_ok c votes →
  ∃ votes', for_each (score_block c leaders) votes l = Done votes' ∧ scoring_ok c votes' ∧
    ∀ r, r ∈ dom votes' → r ∈ dom votes ∨ r ∈ reference <$> l.
Proof using Hc.
  intros Hlead. revert votes. induction l as [|b l IH]; intros votes Hval Hnd Hnew Hok; cbn [for_each].
  { exists votes. split_and!; [done|done|auto]. }
  rewrite fmap_cons in Hnd. apply NoDup_cons in Hnd as [Hb Hnd]. pose proof (Hval b (list_elem_of_here _ _)) as Hvb.
  destruct (score_ancestors_total leaders b (ancestors b) votes) as (votes1 & Hrun & Hok1 & Hdom1); [done| |apply Hvb|done| |].
  { eapply NoDup_fmap_1, vb_distinct, Hvb. }
  { left. apply not_elem_of_dom, Hnew, list_elem_of_here. }
  change (score_block c leaders votes b) with (for_each (score_ancestor c leaders b) votes (ancestors b)).
  rewrite Hrun. run_bind. destruct (IH votes1) as (votes' & Hrun' & Hok' & Hdom').
  - intros; by apply Hval, list_elem_of_further.
  - done.
  - intros b' Hb' [Hin|Heq]%Hdom1; [by apply (Hnew b'); [apply list_elem_of_further|]|].
    apply Hb. rewrite <- Heq. by apply list_elem_of_fmap_2.
  - done.
  - exists votes'. split_and!; [done|done|]. intros r Hr. rewrite fmap_cons, elem_of_cons.
    apply Hdom' in Hr as [[Hr|Hr]%Hdom1|Hr]; auto.
Qed.

Lemma add_subdag_total seen top index ss sd :
  scores_ok seen top index ss → next_subdag seen top index sd →
  ∃ ss', add_subdag c ss sd = Done ss' ∧
    scores_ok (λ r, seen r ∨ r ∈ reference <$> sd_blocks sd) (ref_round (sd_leader sd)) (index + 1) ss' ∧
    window_start (index + 1) ss' = window_start index ss.
Proof using Hc.
  intros Hok Hn. pose proof (ns_bound _ _ _ _ Hn) as Hmax. unfold u32_MAX in Hmax. unfold add_subdag. rewrite (ns_index _ _ _ _ Hn).
  assert (u32_saturating_add (index + 1) 1 = index + 2)%N as Hsat by (unfold u32_saturating_add, u32_MAX; lia).
  assert (∃ range, (match ss_commit_range ss with
      | None => Done (CommitRange_new (index + 1) (index + 1))
      | Some range => CommitRange_extend_to range (index + 1)
      end) = Done range ∧ (0 < range_start range ≤ index + 1)%N ∧ range_end_ range = (index + 2)%N ∧
      range_start range = window_start index ss) as (range & -> & Hs & He & Hw).
  { unfold window_start. destruct (ss_commit_range ss) as [range|] eqn:Hr.
    - destruct (so_range _ _ _ _ Hok range Hr) as [Hs He]. unfold CommitRange_extend_to. rewrite Hsat.
      rewrite rassert_true by lia. run_bind. eexists. split_and!; [done|cbn; lia..].
    - unfold CommitRange_new. rewrite Hsat. eexists. split_and!; [done|cbn; lia..]. }
  run_bind. pose proof (ns_leader _ _ _ _ Hn) as Hl.
  assert (∀ r r', r ∈ {[sd_leader sd]} ∪ ss_leaders ss → r' ∈ {[sd_leader sd]} ∪ ss_leaders ss →
    ref_round r = ref_round r' → r = r') as Hlead.
  { intros r r' [->%elem_of_singleton|Hr]%elem_of_union [->%elem_of_singleton|Hr']%elem_of_union Heq.
    - done.
    - pose proof (so_top _ _ _ _ Hok r' Hr'). lia.
    - pose proof (so_top _ _ _ _ Hok r Hr). lia.
    - by eapply so_leaders. }
  destruct (score_blocks_total _ (sd_blocks sd) (ss_votes ss) Hlead) as (votes & -> & Hv & Hdom).
  - apply Hn.
  - apply Hn.
  - intros b Hb Hin%(so_seen _ _ _ _ Hok). by eapply ns_new.
  - apply Hok.
  - run_bind. eexists. split_and!; [done| |done]. split; [done| |done| |].
    + intros r [Hr%(so_seen _ _ _ _ Hok)|]%Hdom; auto.
    + intros r [->%elem_of_singleton|Hr]%elem_of_union; [done|]. pose proof (so_top _ _ _ _ Hok r Hr). lia.
    + intros ? [= <-]. split; [done|]. lia.
Qed.

(** The scores are computed, one per authority. *)
Lemma scores_total seen top index ss (V : gset BlockRef) :
  scores_ok seen top index ss → is_Some (ss_commit_range ss) → (∀ r, seen r → r ∈ V) →
  (N.of_nat (size V) * total_stake c < u64_modulus)%N →
  ∃ scores, calculate_distributed_vote_scores c ss = Done scores ∧ lengthN (scores_per_authority scores) = Committee_size c ∧
    ss_commit_range ss = Some (commit_range scores).
Proof using Hc.
  intros Hok [range Hr] HV Hsize. unfold calculate_distributed_vote_scores, distributed_votes_scores.
  destruct (distributed_loop c Hc (entries_in_order (ss_votes ss)) (replicate (length (authorities c)) 0%N) [])
    as (scores & -> & Hlen & _).
  - intros v agg Hin%elem_of_map_in_order. by apply (so_votes _ _ _ _ Hok).
  - by rewrite length_replicate.
  - intros a Ha. rewrite lookup_replicate_2; [done|]. unfold Committee_size, lengthN in Ha. lia.
  - cbn [app]. unfold lengthN. rewrite <- (length_fmap fst), map_in_order_keys.
    unfold set_in_order. rewrite stable_sort_length. change (length (elements (dom (ss_votes ss)))) with (size (dom (ss_votes ss))).
    assert (size (dom (ss_votes ss)) ≤ size V) as Hle; [|nia]. apply subseteq_size. intros r ?. by eapply HV, so_seen.
  - run_bind. rewrite Hr. run_bind. eexists. split_and!; [done| |done]. unfold Committee_size, lengthN. cbn. by rewrite Hlen.
Qed.

End scoring.

(** ** The schedule *)

(** Either every authority fits in the stake limit of the swapped nodes, or none. *)
Definition balanced (c : Committee) (threshold : N) : Prop :=
  (∀ a, a < Committee_size c → stake_of c a ≤ stake_limit c threshold)%N ∨
  (∀ a, a < Committee_size c → stake_limit c threshold < stake_of c a)%N.

(** A table with which every leader can be swapped. *)
Record table_ok (c : Committee) (t : LeaderSwapTable) : Prop := {
  tb_members x : x ∈ good_nodes t → (x.1.1 < Committee_size c)%N;
  tb_good : bad_nodes t ≠ ∅ → good_nodes t ≠ [];
}.

Lemma table_ok_default c : table_ok c LeaderSwapTable_default.
Proof. split; cbn; [by intros x ?%not_elem_of_nil|done]. Qed.

Lemma retrieve_first c threshold l r :
  committee_ok c → (∀ a, a ∈ l.*1 → a < Committee_size c)%N → l ≠ [] → retrieve_first_nodes c l threshold = Done r →
  ((∀ a, a < Committee_size c → stake_of c a ≤ stake_limit c threshold)%N → r ≠ []) ∧
  ((∀ a, a < Committee_size c → stake_limit c threshold < stake_of c a)%N → r = []).
Proof.
  intros Hc Ha Hne Hrun. destruct l as [|[a s] l]; [done|]. unfold retrieve_first_nodes in Hrun. cbn [retrieve_loop] in Hrun.
  assert (a < Committee_size c)%N as Hlt by (apply Ha; cbn; apply list_elem_of_here).
  rewrite Committee_stake_valid in Hrun by done. cbn [mbind outcome_bind] in Hrun.
  assert (stake_of c a ≤ total_stake c)%N as Hle.
  { rewrite <- (stakes_all c Hc). assert (a ∈ rangeN 0 (Committee_size c)) as [l1 [l2 ->]]%list_elem_of_split by (apply elem_of_rangeN; lia).
    rewrite stakes_app. change (stakes c (a :: l2)) with (stake_of c a + stakes c l2)%N. lia. }
  pose proof (co_bound _ Hc) as Hb. rewrite wrap_add_small in Hrun by lia. rewrite N.add_0_l in Hrun.
  split; intros Hall; specialize (Hall a Hlt); unfold stake_limit in Hall.
  - rewrite decide_False in Hrun by lia. by invert_done.
  - rewrite decide_True in Hrun by lia. by invert_done.
Qed.

Section schedule.
Context `{LeaderRngLaws}.
Context (c : Committee) (Hc : committee_ok c).

(** [choose_multiple_weighted] fails only on bad weights. *)
Definition rng_chooses : Prop := ∀ seed, is_Some (rng_choose_multiple_weighted seed
  (map (λ '(index, a), (index, stake a)) (authorities_iter c)) (Committee_size c)).

Lemma committee_nonempty : (0 < Committee_size c)%N.
Proof using Hc.
  pose proof (co_total _ Hc) as Htot. pose proof (co_pos _ Hc) as Hpos. unfold Committee_size, lengthN.
  destruct (authorities c); cbn in *; lia.
Qed.

(** Every round has a leader. *)
Lemma elect_leader_total ls k :
  rng_chooses → committee (ls_context ls) = c → table_ok c (leader_swap_table ls) →
  ∃ a, elect_leader ls k 0 = Done a ∧ (a < Committee_size c)%N.
Proof using All.
  intros Hrng Hctx Ht. pose proof committee_nonempty as Hpos.
  destruct (elect_leader_distinct ls k) with (o1 := 0%N) (o2 := 0%N) as (a & _ & Hrun & _ & Ha & _);
    [rewrite Hctx; apply Hrng|by rewrite Hctx..|]. rewrite Hctx in Ha.
  unfold elect_leader. rewrite Hrun. run_bind. unfold swap. case_decide as Hbad; [|by exists a].
  rewrite rassert_true by done. run_bind.
  destruct (rng_choose_law (replicate 24 0%N ++ to_le_bytes k ++ to_le_bytes 0) (good_nodes (leader_swap_table ls)))
    as ([[g n] s] & -> & Hg).
  { apply (tb_good _ _ Ht). intros He. rewrite He, dom_empty_L in Hbad. by apply not_elem_of_empty in Hbad. }
  cbn [unwrap mbind outcome_bind]. exists g. split; [done|]. apply (tb_members _ _ Ht _ Hg).
Qed.

(** In a balanced committee there are good nodes whenever there are bad ones. *)
Lemma new_table_good ctx threshold index scores t :
  committee ctx = c → lengthN (scores_per_authority scores) = Committee_size c → balanced c threshold →
  LeaderSwapTable_new_inner ctx threshold index scores = Done t → good_nodes t = [] → bad_nodes t = ∅.
Proof using All.
  intros Hctx Hlen Hbal Hrun Hgood. unfold LeaderSwapTable_new_inner in Hrun. pose proof committee_nonempty as Hpos.
  apply bind_Done in Hrun as (u & _ & Hrun). destruct (scores_per_authority scores) as [|s0 ss] eqn:Hss; [by invert_done|].
  apply bind_Done in Hrun as (by_score & Hby & Hrun). rewrite authorities_by_score_spec in Hby by (rewrite ?Hss, ?Hctx; done).
  injection Hby as <-. apply bind_Done in Hrun as (u2 & _ & Hrun). rewrite Hctx in Hrun.
  set (Z := zip _ _) in Hrun. set (sorted := stable_sort score_ge _) in Hrun.
  assert (sorted ≡ₚ Z) as HZ by (unfold sorted; rewrite stable_sort_perm; apply rng_shuffle_law).
  assert (sorted.*1 ≡ₚ rangeN 0 (Committee_size c)) as HS.
  { rewrite HZ. unfold Z. rewrite fst_zip; [done|]. unfold rangeN. rewrite length_fmap, length_seq. rewrite Hss. unfold lengthN in Hlen. lia. }
  assert (sorted ≠ []) as Hne.
  { intros He. rewrite He in HS. cbn in HS. apply Permutation_nil_l in HS.
    assert (0%N ∈ rangeN 0 (Committee_size c)) as Hz by (apply elem_of_rangeN; lia). rewrite <- HS in Hz. by apply not_elem_of_nil in Hz. }
  apply bind_Done in Hrun as (good & Hg & Hrun). apply bind_Done in Hrun as (bad & Hb & [= <-]). cbn in Hgood |- *. subst good.
  destruct (retrieve_first c threshold sorted []) as [Hg1 _]; [done| |done|done|].
  { intros a. rewrite HS, elem_of_rangeN. lia. }
  destruct (retrieve_first c threshold (reverse sorted) bad) as [_ Hb2]; [done| | |done|].
  { intros a. rewrite fmap_reverse, elem_of_reverse, HS, elem_of_rangeN. lia. }
  { intros He. apply Hne. by rewrite <- (reverse_involutive sorted), He. }
  destruct Hbal as [Hall|Hall]; [by destruct (Hg1 Hall)|]. by rewrite (Hb2 Hall).
Qed.

(** The table of the next schedule. *)
Lemma new_table_ok ctx index scores :
  committee ctx = c → lengthN (scores_per_authority scores) = Committee_size c →
  (bad_nodes_stake_threshold (protocol_config ctx) ≤ 33)%N → balanced c (bad_nodes_stake_threshold (protocol_config ctx)) →
  ∃ t, LeaderSwapTable_new ctx index scores = Done t ∧ table_ok c t ∧ table_reputation_scores t = scores.
Proof using All.
  intros Hctx Hlen Ht Hbal. unfold LeaderSwapTable_new. set (threshold := bad_nodes_stake_threshold _) in *.
  destruct (swap_table_run ctx threshold index scores) as (L & k & j & good & bad & Hrun & _ & _ & HL & Hgk & _ & Hbj & _);
    [by rewrite Hctx|by rewrite Hctx|done|]. rewrite Hctx in HL.
  eexists. split_and!; [exact Hrun| |done]. split.
  - cbn. intros x Hx. assert (x.1.1 ∈ take k L.*1) as (i & Hi & _)%elem_of_take.
    { rewrite <- Hgk. apply list_elem_of_fmap. by exists x. }
    apply list_elem_of_lookup_2 in Hi. rewrite HL, elem_of_rangeN in Hi. lia.
  - intros Hbad Hgood. by apply Hbad, (new_table_good ctx threshold index scores _ Hctx Hlen Hbal Hrun).
Qed.

(** What the configuration must satisfy. *)
Record schedule_config (ctx : Context) : Prop := {
  sg_committee : committee ctx = c;
  sg_threshold : (bad_nodes_stake_threshold (protocol_config ctx) ≤ 33)%N;
  sg_balanced : balanced c (bad_nodes_stake_threshold (protocol_config ctx));
}.

(** The schedule in force after commit [index], with the scores [ss] collected since it
    was made. *)
Record schedule_ok (ctx : Context) (index : N) (ss : ScoringSubdag) (ls : LeaderSchedule) : Prop := {
  sk_context : ls_context ls = ctx;
  sk_table : table_ok c (leader_swap_table ls);
  sk_pos : (0 < num_commits_per_schedule ls)%N;
  sk_count : (index + 1 - window_start index ss ≤ num_commits_per_schedule ls)%N;
  sk_previous : let range := commit_range (table_reputation_scores (leader_swap_table ls)) in
    range = CommitRange_default ∨
    (range_end_ range = window_start index ss ∧ range_start range + num_commits_per_schedule ls = range_end_ range)%N;
}.

Context {S : Type} `{Store S}.
Implicit Types ds : DagState S.

Lemma commits_until_spec ctx seen top ls ds (index := last_commit_index ds) (ss := ds_scoring_subdag ds) :
  scores_ok c seen top index ss → schedule_ok ctx index ss ls →
  commits_until_leader_schedule_update ls ds = Done (num_commits_per_schedule ls - (index + 1 - window_start index ss))%N.
Proof using.
  intros Hs Hls. pose proof (sk_count _ _ _ _ Hls) as Hle.
  unfold commits_until_leader_schedule_update, scoring_subdags_count. fold ss. rewrite (scores_count c seen top index ss Hs).
  run_bind. rewrite rassert_true by done. run_bind. unfold checked_sub. by rewrite decide_True by done.
Qed.

(** The scores that the next schedule is made from, and the schedule. *)
Definition next_table (ctx : Context) (ss : ScoringSubdag) : outcome LeaderSwapTable :=
  scores ← calculate_distributed_vote_scores (committee ctx) ss;
  range ← unwrap (ss_commit_range ss);
  LeaderSwapTable_new ctx (CommitRange_end range) scores.

Lemma update_schedule_total ctx seen top ls ds (V : gset BlockRef) (index := last_commit_index ds) (ss := ds_scoring_subdag ds) :
  schedule_config ctx → ds_context ds = ctx → scores_ok c seen top index ss → schedule_ok ctx index ss ls →
  (index + 1 - window_start index ss)%N = num_commits_per_schedule ls → is_Some (ds_last_commit ds) →
  (∀ r, seen r → r ∈ V) → (N.of_nat (size V) * total_stake c < u64_modulus)%N →
  ∃ ls' info, update_leader_schedule_v2 ls ds =
      Done (ls', set_commit_info_to_write (ds_commit_info_to_write ds ++ [info]) (clear_scoring_subdag ds)) ∧
    schedule_ok ctx index ScoringSubdag_new ls' ∧ num_commits_per_schedule ls' = num_commits_per_schedule ls ∧
    next_table ctx ss = Done (leader_swap_table ls').
Proof using All.
  intros Hcfg Hds Hs Hls Hfull [commit Hlast] HV Hsize. pose proof (sk_pos _ _ _ _ Hls) as Hpos.
  destruct (ss_commit_range ss) as [range|] eqn:Hr.
  2: { unfold window_start in Hfull. rewrite Hr in Hfull. lia. }
  assert (window_start index ss = range_start range) as Hw by (unfold window_start; by rewrite Hr).
  destruct (so_range _ _ _ _ _ Hs range Hr) as [Hst He].
  destruct (scores_total c Hc seen top index ss V) as (scores & Hcalc & Hlen & Hrange); [done|by eauto|done|done|].
  rewrite Hr in Hrange. injection Hrange as ->.
  destruct (new_table_ok ctx (CommitRange_end (commit_range scores)) scores) as (t & Hnew & Ht & Hsc); [apply Hcfg|done|apply Hcfg..|].
  unfold update_leader_schedule_v2, next_table, calculate_scoring_subdag_scores, scoring_subdag_commit_range, ds_committee.
  fold ss. rewrite Hds, (sg_committee _ Hcfg), Hcalc, Hr, (sk_context _ _ _ _ Hls).
  cbn [unwrap mbind outcome_bind]. rewrite Hnew.
  unfold add_commit_info. cbn [ds_scoring_subdag clear_scoring_subdag set_scoring_subdag ds_last_commit]. rewrite Hlast.
  rewrite rassert_true by done. run_bind. cbn [unwrap mbind outcome_bind].
  unfold update_leader_swap_table. rewrite Hsc.
  assert (∀ old, old = CommitRange_default ∨ (range_end_ old = window_start index ss ∧
      range_start old + num_commits_per_schedule ls = range_end_ old)%N →
    (if decide (old ≠ CommitRange_default) then
      rassert (CommitRange_is_next_range old (commit_range scores) = true);;
      equal ← CommitRange_is_equal_size old (commit_range scores); rassert (equal = true) else Done ()) = Done ()) as Hold.
  { intros old [->|[Hend Hsz]]; [by rewrite decide_False by auto|]. case_decide; [|done].
    unfold CommitRange_is_next_range, CommitRange_is_equal_size, CommitRange_size, checked_sub.
    rewrite rassert_true by (apply bool_decide_eq_true; lia). run_bind.
    rewrite !decide_True by lia. cbn [unwrap mbind outcome_bind]. rewrite rassert_true; [done|]. apply bool_decide_eq_true. lia. }
  rewrite Hold by apply Hls. run_bind. eexists _, _. split_and!; [done| |done|done].
  split; cbn; [apply Hls|done|apply Hls|lia|]. rewrite Hsc. right. unfold window_start. cbn. lia.
Qed.

End schedule.
