(* ===== verification/TransactionVoteTracker.v ===== *)
(** * Transaction vote tracker (consensus/core/src/transaction_vote_tracker.rs)

    Own votes on the transactions of peer blocks, and the reject votes that blocks
    carry for transactions, aggregated by stake until the block is garbage
    collected. The dag state, the store and the block verifier, which the code
    reaches through shared handles, are arguments. *)

From S2P Require Import Prelude Committee Block StakeAggregator ThresholdClock Commit Store LeaderScoring.
From S2P Require Import DagState DagInvariant DagDurability.

Record VoteInfo := mkVoteInfo {
  vi_block : option VerifiedBlock;
  vi_own_reject_txn_votes : list N;
  vi_reject_txn_votes : gmap N (StakeAggregator QuorumThreshold);
}.

Definition VoteInfo_default : VoteInfo := mkVoteInfo None [] ∅.

Record VoteTrackerState := mkVoteTrackerState {
  vt_context : Context;
  vt_votes : gmap BlockRef VoteInfo;
  vt_gc_round : N;
}.

Definition VoteTrackerState_new (ctx : Context) : VoteTrackerState := mkVoteTrackerState ctx ∅ GENESIS_ROUND.

Definition set_votes (votes : gmap BlockRef VoteInfo) (st : VoteTrackerState) : VoteTrackerState :=
  mkVoteTrackerState (vt_context st) votes (vt_gc_round st).

(** One reject vote of [author] on the block of [info]. *)
Definition add_reject (c : Committee) (author : N) (info : VoteInfo) (reject : N) : outcome VoteInfo :=
  '(agg, _) ← agg_add_unique (default StakeAggregator_new (vi_reject_txn_votes info !! reject)) author c;
  Done (mkVoteInfo (vi_block info) (vi_own_reject_txn_votes info) (<[reject := agg]> (vi_reject_txn_votes info))).

(** The votes of a block on the transactions of one other block. *)
Definition add_block_votes (author : N) (st : VoteTrackerState) (block_votes : BlockTransactionVotes) :
    outcome VoteTrackerState :=
  if decide (ref_round (btv_block_ref block_votes) ≤ vt_gc_round st)%N then Done st
  else
    info ← for_each (add_reject (committee (vt_context st)) author)
      (default VoteInfo_default (vt_votes st !! btv_block_ref block_votes)) (btv_rejects block_votes);
    Done (set_votes (<[btv_block_ref block_votes := info]> (vt_votes st)) st).

Definition add_voted_block (st : VoteTrackerState) (voted : VerifiedBlock * list N) : outcome VoteTrackerState :=
  let '(voted_block, reject_txn_votes) := voted in
  if decide (round voted_block ≤ vt_gc_round st)%N then Done st
  else
    authority (committee (vt_context st)) (author voted_block);;
    let vote_info := default VoteInfo_default (vt_votes st !! reference voted_block) in
    match vi_block vote_info with
    | Some _ => Done st
    | None =>
        let vote_info := mkVoteInfo (Some voted_block) reject_txn_votes (vi_reject_txn_votes vote_info) in
        for_each (add_block_votes (author voted_block))
          (set_votes (<[reference voted_block := vote_info]> (vt_votes st)) st) (transaction_votes voted_block)
    end.

Definition add_voted_blocks (st : VoteTrackerState) (voted_blocks : list (VerifiedBlock * list N)) : outcome VoteTrackerState :=
  for_each add_voted_block st voted_blocks.

(** The loop that pops the first entries, [l] in order, at or below the gc round. *)
Fixpoint gc_votes (gc_round : N) (l : list BlockRef) (votes : gmap BlockRef VoteInfo) : gmap BlockRef VoteInfo :=
  match l with
  | [] => votes
  | r :: l => if decide (ref_round r ≤ gc_round)%N then gc_votes gc_round l (delete r votes) else votes
  end.

Definition update_gc_round (st : VoteTrackerState) (gc_round : N) : VoteTrackerState :=
  mkVoteTrackerState (vt_context st) (gc_votes gc_round (refs_in_order (dom (vt_votes st))) (vt_votes st)) gc_round.

Definition get_own_votes (st : VoteTrackerState) (block_refs : list BlockRef) : outcome (list BlockTransactionVotes) :=
  for_each (λ votes block_ref,
    if decide (ref_round block_ref ≤ vt_gc_round st)%N then Done votes
    else
      vote_info ← unwrap (vt_votes st !! block_ref);
      match vi_own_reject_txn_votes vote_info with
      | [] => Done votes
      | rejects => Done (votes ++ [mkBlockTransactionVotes block_ref rejects])
      end) [] block_refs.

Definition get_reject_votes (st : VoteTrackerState) (block_ref : BlockRef) : option (list (N * N)) :=
  vote_info ← vt_votes st !! block_ref;
  Some ((λ '(idx, agg), (idx, agg_stake agg)) <$> map_in_order N.le (vi_reject_txn_votes vote_info)).

Section tracker.
Context {S : Type} `{Store S}.
Implicit Types ds : DagState S.

Definition run_gc (st : VoteTrackerState) ds (gc : N) : outcome VoteTrackerState :=
  rassert (gc ≤ gc_round ds)%N;; Done (update_gc_round st gc).

(** [verifier_vote] is [BlockVerifier::vote]. *)
Definition recover_and_vote_on_blocks (verifier_vote : VerifiedBlock → ConsensusResult (list N))
    (st : VoteTrackerState) ds (blocks : list VerifiedBlock) : outcome VoteTrackerState :=
  should_vote_blocks ← mapM (λ b, if decide (gc_round ds < round b)%N
    then included ← has_been_included ds (reference b); Done (negb included) else Done false) blocks;
  voted_blocks ← mapM (λ '(b, should_vote), if should_vote : bool
    then rejects ← unwrap_ok (verifier_vote b); Done (b, rejects) else Done (b, []))
    (zip blocks should_vote_blocks);
  add_voted_blocks st voted_blocks.

Definition recover_blocks_after_round (verifier_vote : VerifiedBlock → ConsensusResult (list N))
    (st : VoteTrackerState) ds (after_round : N) : outcome VoteTrackerState :=
  let ctx := vt_context st in
  if transaction_voting_enabled (protocol_config ctx) then
    let recovery_start_round := after_round +₃₂ 1 in
    for_each (λ st authority_index,
      blocks ← call (store_scan_blocks_by_author (ds_store ds) authority_index recovery_start_round);
      authority (committee ctx) authority_index;;
      recover_and_vote_on_blocks verifier_vote st ds blocks)
      st (map fst (authorities_iter (committee ctx)))
  else Done st.

End tracker.

(** ** What the tracker knows

    The reference for the aggregated state is the history of the blocks the
    tracker took, each with the node's own votes on it: it is only ever extended,
    by a block above the gc round that is not there yet. *)

Inductive tracker_op :=
  | AddBlock (b : VerifiedBlock) (own : list N)
  | RunGc (gc : N).

Definition tracker_step (st : VoteTrackerState) (op : tracker_op) : outcome VoteTrackerState :=
  match op with
  | AddBlock b own => add_voted_block st (b, own)
  | RunGc gc => Done (update_gc_round st gc)
  end.

Abbreviation taken_blocks := (gmap BlockRef (VerifiedBlock * list N)).

Definition taken_step (h : N * taken_blocks) (op : tracker_op) : N * taken_blocks :=
  match op with
  | AddBlock b own => (h.1, if decide (round b ≤ h.1 ∨ reference b ∈ dom h.2)%N then h.2 else <[reference b := (b, own)]> h.2)
  | RunGc gc => (gc, h.2)
  end.

Definition taken_by (ops : list tracker_op) : N * taken_blocks := foldl taken_step (GENESIS_ROUND, ∅) ops.

(** Whether block [b] rejects transaction [idx] of the block [r]. *)
Definition rejects_txn (b : VerifiedBlock) (r : BlockRef) (idx : N) : bool :=
  existsb (λ v, bool_decide (btv_block_ref v = r) && bool_decide (idx ∈ btv_rejects v)) (transaction_votes b).

Definition votes_on (b : VerifiedBlock) (r : BlockRef) : bool :=
  bool_decide (r ∈ btv_block_ref <$> transaction_votes b).

(** The authorities with a block in the history that rejects the transaction. *)
Definition rejecters (h : taken_blocks) (r : BlockRef) (idx : N) : gset N :=
  set_map ref_author (dom (filter (λ kv, rejects_txn kv.2.1 r idx = true) h)).

Definition op_ok (c : Committee) (op : tracker_op) : Prop :=
  match op with AddBlock b _ => author b < Committee_size c | RunGc _ => True end%N.

(** The rounds given to the garbage collection never decrease. *)
Fixpoint gc_monotone (gc : N) (ops : list tracker_op) : Prop :=
  match ops with
  | [] => True
  | AddBlock _ _ :: ops => gc_monotone gc ops
  | RunGc g :: ops => (gc ≤ g)%N ∧ gc_monotone g ops
  end.

Lemma rejects_txn_true b r idx :
  rejects_txn b r idx = true ↔ ∃ v, v ∈ transaction_votes b ∧ btv_block_ref v = r ∧ idx ∈ btv_rejects v.
Proof.
  unfold rejects_txn. rewrite existsb_exists. setoid_rewrite andb_true_iff.
  setoid_rewrite bool_decide_eq_true. by setoid_rewrite list_elem_of_In.
Qed.

Lemma elem_of_rejecters h r idx a :
  a ∈ rejecters h r idx ↔ ∃ k b own, h !! k = Some (b, own) ∧ ref_author k = a ∧ rejects_txn b r idx = true.
Proof.
  unfold rejecters. rewrite elem_of_map. setoid_rewrite elem_of_dom. split.
  - intros (k & -> & [[b own] [Hk Hr]%map_lookup_filter_Some]). by exists k, b, own.
  - intros (k & b & own & Hk & <- & Hr). exists k. split; [done|]. exists (b, own).
    by apply map_lookup_filter_Some.
Qed.

(** ** The loops

    [P] lists the reject votes counted so far, as author, target and index. *)

Implicit Types P : list (N * BlockRef * N).

Definition reject_voters P (r : BlockRef) (idx : N) : gset N :=
  list_to_set ((λ t, t.1.1) <$> filter (λ t, t.1.2 = r ∧ t.2 = idx) P).

Lemma elem_of_reject_voters P r idx a : a ∈ reject_voters P r idx ↔ (a, r, idx) ∈ P.
Proof.
  unfold reject_voters. rewrite elem_of_list_to_set, list_elem_of_fmap. split.
  - intros ([[a' r'] i'] & -> & [[??] ?]%list_elem_of_filter). cbn in *. by subst.
  - intros Hin. exists (a, r, idx). split; [done|]. by apply list_elem_of_filter.
Qed.

Lemma reject_voters_app P Q r idx : reject_voters (P ++ Q) r idx = reject_voters P r idx ∪ reject_voters Q r idx.
Proof. apply set_eq. intros a. rewrite elem_of_union, !elem_of_reject_voters. set_solver. Qed.

Lemma reject_voters_none P r idx : (∀ t, t ∈ P → t.1.2 = r → t.2 = idx → False) → reject_voters P r idx = ∅.
Proof. intros HP. apply set_eq. intros a. rewrite elem_of_reject_voters. split; [|set_solver]. intros Ha. by destruct (HP _ Ha). Qed.

Definition entry_ok (c : Committee) P (r : BlockRef) (info : VoteInfo) : Prop :=
  ∀ idx, match vi_reject_txn_votes info !! idx with
         | Some agg => agg_ok c agg ∧ votes agg = reject_voters P r idx ∧ votes agg ≠ ∅
         | None => reject_voters P r idx = ∅
         end.

Lemma entry_ok_iff c P Q r info :
  (∀ idx, reject_voters P r idx = reject_voters Q r idx) → entry_ok c P r info → entry_ok c Q r info.
Proof. intros HPQ Hi idx. specialize (Hi idx). by rewrite <- HPQ. Qed.

(** The garbage collection loop removes the entries at or below the round. *)
Lemma gc_votes_lookup gc l m r :
  StronglySorted BlockRef_le l →
  gc_votes gc l m !! r = if decide (r ∈ l ∧ ref_round r ≤ gc)%N then None else m !! r.
Proof.
  intros Hs. revert m. induction Hs as [|k l Hs IH Hall]; intros m; cbn [gc_votes].
  - rewrite decide_False; [done|]. set_solver.
  - rewrite Forall_forall in Hall. destruct (decide (ref_round k ≤ gc)%N) as [Hk|Hk].
    + rewrite IH. destruct (decide (r = k)) as [->|Hne].
      * rewrite lookup_delete_eq. rewrite (decide_True (P:=_ ∈ k :: l ∧ _)) by (split; [apply list_elem_of_here|done]).
        by case_decide.
      * rewrite lookup_delete_ne by done. apply decide_ext. set_solver.
    + rewrite decide_False; [done|]. intros [Hin Hr]. apply elem_of_cons in Hin as [->|Hin]; [done|].
      pose proof (BlockRef_le_round _ _ (Hall r Hin)). lia.
Qed.

Lemma update_gc_round_lookup st gc r :
  vt_votes (update_gc_round st gc) !! r = if decide (ref_round r ≤ gc)%N then None else vt_votes st !! r.
Proof.
  cbn. rewrite gc_votes_lookup by (apply set_in_order_sorted; apply _).
  destruct (decide (ref_round r ≤ gc)%N) as [Hr|Hr]; [|by rewrite decide_False by tauto].
  case_decide as Hd; [done|]. rewrite elem_of_set_in_order in Hd. apply not_elem_of_dom. tauto.
Qed.

Section loops.
Context (ctx : Context) (Hc : committee_ok (committee ctx)).
Implicit Types st : VoteTrackerState.

Lemma add_reject_spec a P r info idx :
  (a < Committee_size (committee ctx))%N → entry_ok (committee ctx) P r info →
  ∃ info', add_reject (committee ctx) a info idx = Done info' ∧
    entry_ok (committee ctx) (P ++ [(a, r, idx)]) r info' ∧
    vi_block info' = vi_block info ∧ vi_own_reject_txn_votes info' = vi_own_reject_txn_votes info.
Proof.
  intros Ha Hi. unfold add_reject. set (agg := default _ _).
  assert (agg_ok (committee ctx) agg ∧ votes agg = reject_voters P r idx) as [Hok Hv].
  { specialize (Hi idx). subst agg. destruct (_ !! idx) as [g|]; [naive_solver|].
    split; [apply StakeAggregator_new_ok|]. by rewrite Hi. }
  destruct (agg_add_unique_spec _ Hc agg a Hok Ha) as (agg' & -> & Hok' & Hv'). run_bind.
  eexists. split_and!; [done| |done|done]. intros i. cbn [vi_reject_txn_votes].
  rewrite reject_voters_app. destruct (decide (i = idx)) as [->|Hne].
  - rewrite lookup_insert_eq. assert (reject_voters [(a, r, idx)] r idx = {[a]}) as ->.
    { apply set_eq. intros x. rewrite elem_of_reject_voters. set_solver. }
    rewrite Hv', Hv. split; [done|]. set_solver.
  - rewrite lookup_insert_ne by done. rewrite (reject_voters_none [_]), union_empty_r_L; [apply Hi|].
    intros t Ht%list_elem_of_singleton _ Hidx. subst t. by cbn in Hidx.
Qed.

Lemma add_rejects_spec a P r info l :
  (a < Committee_size (committee ctx))%N → entry_ok (committee ctx) P r info →
  ∃ info', for_each (add_reject (committee ctx) a) info l = Done info' ∧
    entry_ok (committee ctx) (P ++ (pair (a, r) <$> l)) r info' ∧
    vi_block info' = vi_block info ∧ vi_own_reject_txn_votes info' = vi_own_reject_txn_votes info.
Proof.
  intros Ha. revert P info. induction l as [|i l IH]; intros P info Hi; cbn [for_each fmap list_fmap].
  - exists info. by rewrite app_nil_r.
  - destruct (add_reject_spec a P r info i Ha Hi) as (i1 & -> & Hi1 & Hb1 & Ho1). run_bind.
    destruct (IH _ i1 Hi1) as (i2 & -> & Hi2 & Hb2 & Ho2).
    exists i2. rewrite <- app_assoc in Hi2. split_and!; [done|done|congruence|congruence].
Qed.

(** The state against the history [B] of the blocks taken, the targets [K] of
    their votes and the counted reject votes. *)
Record tracker_inv (gc : N) (B : taken_blocks) (K : gset BlockRef) P st : Prop := {
  ti_context : vt_context st = ctx;
  ti_gc : vt_gc_round st = gc;
  ti_above : ∀ r, r ∈ dom (vt_votes st) → (gc < ref_round r)%N;
  ti_entry : ∀ r, (gc < ref_round r)%N →
    match vt_votes st !! r with
    | None => (r ∉ dom B) ∧ (r ∉ K) ∧ ∀ idx, reject_voters P r idx = ∅
    | Some info => (r ∈ dom B ∨ r ∈ K) ∧ entry_ok (committee ctx) P r info ∧
        (vi_block info, vi_own_reject_txn_votes info) = (fst <$> B !! r, default [] (snd <$> B !! r))
    end;
}.

(** The entry of [r], a default one if it is not there. *)
Lemma tracker_inv_entry gc B K P st r :
  tracker_inv gc B K P st → (gc < ref_round r)%N →
  let info := default VoteInfo_default (vt_votes st !! r) in
  entry_ok (committee ctx) P r info ∧
  (vi_block info, vi_own_reject_txn_votes info) = (fst <$> B !! r, default [] (snd <$> B !! r)).
Proof using.
  intros [_ _ _ He] Hr. specialize (He r Hr). destruct (vt_votes st !! r) as [info|]; cbn; [tauto|].
  destruct He as (HB & _ & Hv). apply not_elem_of_dom in HB. rewrite HB. split; [|done].
  intros idx. cbn. rewrite lookup_empty. apply Hv.
Qed.

Lemma add_block_votes_spec gc B K P st a v :
  (a < Committee_size (committee ctx))%N → tracker_inv gc B K P st →
  ∃ st', add_block_votes a st v = Done st' ∧
    tracker_inv gc B ({[btv_block_ref v]} ∪ K) (P ++ (pair (a, btv_block_ref v) <$> btv_rejects v)) st'.
Proof.
  intros Ha Hst. pose proof Hst as [Hctx Hgc Hab He]. unfold add_block_votes. rewrite Hgc. set (r := btv_block_ref v).
  assert (∀ x idx, x ≠ r → reject_voters (P ++ (pair (a, r) <$> btv_rejects v)) x idx = reject_voters P x idx) as Hother.
  { intros x idx Hx. rewrite reject_voters_app, (reject_voters_none (_ <$> _)), union_empty_r_L; [done|].
    intros t (i & -> & _)%list_elem_of_fmap Hr _. cbn in Hr. congruence. }
  case_decide as Hle.
  - exists st. split; [done|]. split; [done|done|done|]. intros x Hx. specialize (He x Hx).
    assert (x ≠ r) as Hne by (intros ->; lia).
    destruct (vt_votes st !! x) as [info|].
    + destruct He as (Hk & Hi & Hb). split_and!; [set_solver| |done].
      eapply entry_ok_iff; [|exact Hi]. intros idx. by rewrite Hother.
    + destruct He as (? & ? & Hv). split_and!; [done|set_solver|]. intros idx. by rewrite Hother.
  - destruct (tracker_inv_entry _ _ _ _ _ r Hst) as [Hi Hb]; [lia|]. rewrite Hctx.
    destruct (add_rejects_spec a P r _ (btv_rejects v) Ha Hi) as (info & -> & Hi' & Hb' & Ho'). run_bind.
    eexists. split; [done|]. split; cbn; [done|done|rewrite dom_insert_L; intros x Hx; apply elem_of_union in Hx as [->%elem_of_singleton|Hx]; [lia|by apply Hab]|].
    intros x Hx. destruct (decide (x = r)) as [->|Hne].
    + rewrite lookup_insert_eq. split_and!; [set_solver|done|]. by rewrite Hb', Ho'.
    + rewrite lookup_insert_ne by done. specialize (He x Hx). destruct (vt_votes st !! x) as [i|].
      * destruct He as (? & ? & ?). split_and!; [set_solver| |done].
        eapply entry_ok_iff; [|done]. intros idx. by rewrite Hother.
      * destruct He as (? & ? & Hv). split_and!; [done|set_solver|]. intros idx. by rewrite Hother.
Qed.

(** The reject votes of a block, and the blocks it votes on. *)
Definition block_rejects (b : VerifiedBlock) : list (N * BlockRef * N) :=
  transaction_votes b ≫= λ v, pair (author b, btv_block_ref v) <$> btv_rejects v.

Lemma add_all_votes_spec gc B K P st a l :
  (a < Committee_size (committee ctx))%N → tracker_inv gc B K P st →
  ∃ st', for_each (add_block_votes a) st l = Done st' ∧
    tracker_inv gc B (list_to_set (btv_block_ref <$> l) ∪ K)
      (P ++ (l ≫= λ v, pair (a, btv_block_ref v) <$> btv_rejects v)) st'.
Proof.
  intros Ha. revert K P st. induction l as [|v l IH]; intros K P st Hst; cbn [for_each].
  - exists st. split; [done|]. rewrite app_nil_r. cbn. by rewrite union_empty_l_L.
  - destruct (add_block_votes_spec _ _ _ _ _ a v Ha Hst) as (s1 & -> & H1). run_bind.
    destruct (IH _ _ _ H1) as (s2 & -> & H2). exists s2. split; [done|].
    rewrite <- app_assoc in H2. cbn. by replace ({[btv_block_ref v]} ∪ list_to_set (btv_block_ref <$> l) ∪ K)
      with (list_to_set (btv_block_ref <$> l) ∪ ({[btv_block_ref v]} ∪ K)) by set_solver.
Qed.

Lemma add_voted_block_spec gc B K P st b own :
  (author b < Committee_size (committee ctx))%N → tracker_inv gc B K P st →
  ∃ st', add_voted_block st (b, own) = Done st' ∧
    if decide (round b ≤ gc ∨ reference b ∈ dom B)%N then st' = st
    else tracker_inv gc (<[reference b := (b, own)]> B)
      (list_to_set (btv_block_ref <$> transaction_votes b) ∪ K) (P ++ block_rejects b) st'.
Proof.
  intros Ha Hst. pose proof Hst as [Hctx Hgc Hab He]. unfold add_voted_block. rewrite Hgc, Hctx.
  case_decide as Hle; [exists st; split; [done|]; by rewrite decide_True by tauto|].
  destruct (authority_valid (committee ctx) (author b) Ha) as [x ->]. run_bind.
  destruct (tracker_inv_entry _ _ _ _ _ (reference b) Hst) as [Hi [= Hb Ho]]; [cbn; lia|].
  rewrite Hb. destruct (B !! reference b) as [[b0 o0]|] eqn:HB; cbn [fmap option_fmap option_map fst].
  { exists st. split; [done|]. rewrite decide_True by (right; by apply elem_of_dom). done. }
  apply not_elem_of_dom in HB. case_decide as Hd; [tauto|].
  apply add_all_votes_spec; [done|]. split; cbn; [done|done|rewrite dom_insert_L; intros y Hy; apply elem_of_union in Hy as [->%elem_of_singleton|Hy]; [cbn; lia|by apply Hab]|].
  intros r Hr. destruct (decide (r = reference b)) as [->|Hne].
  - rewrite !lookup_insert_eq. split_and!; [set_solver|exact Hi|done].
  - rewrite !lookup_insert_ne by done. specialize (He r Hr). destruct (vt_votes st !! r) as [i|]; destruct He as (H1 & H2 & H3).
    + split_and!; [|done|done]. rewrite dom_insert_L. set_solver.
    + split_and!; [|done|done]. rewrite dom_insert_L. set_solver.
Qed.

Lemma update_gc_round_spec gc B K P st gc' :
  (gc ≤ gc')%N → tracker_inv gc B K P st → tracker_inv gc' B K P (update_gc_round st gc').
Proof using ctx.
  intros Hle [Hctx Hgc Hab He]. split; [done|done| |].
  - intros r [i Hi]%elem_of_dom. rewrite update_gc_round_lookup in Hi. case_decide; [done|]. lia.
  - intros r Hr. rewrite update_gc_round_lookup, decide_False by lia. apply He. lia.
Qed.

End loops.

(** ** The tracker against its history *)

Definition taken_ok (B : taken_blocks) : Prop := ∀ k b own, B !! k = Some (b, own) → reference b = k.

Definition vote_tracker_ok (ctx : Context) (h : N * taken_blocks) (st : VoteTrackerState) : Prop :=
  taken_ok h.2 ∧ ∃ K P, tracker_inv ctx h.1 h.2 K P st ∧
    (∀ r idx, reject_voters P r idx = rejecters h.2 r idx) ∧
    (∀ r, r ∈ K ↔ ∃ k b own, h.2 !! k = Some (b, own) ∧ votes_on b r = true).

Lemma elem_of_block_rejects b a r idx :
  (a, r, idx) ∈ block_rejects b ↔ a = author b ∧ rejects_txn b r idx = true.
Proof.
  unfold block_rejects. rewrite list_elem_of_bind, rejects_txn_true. setoid_rewrite list_elem_of_fmap. split.
  - intros (v & (i & [= -> -> ->] & Hi) & Hv). eauto.
  - intros (-> & v & Hv & <- & Hi). eauto.
Qed.

(** A lookup in a map with one new entry, for an existential over the entries. *)
Lemma exists_insert_fresh (B : taken_blocks) k b own (Q : BlockRef → VerifiedBlock → Prop) :
  k ∉ dom B →
  (∃ k' b' own', <[k := (b, own)]> B !! k' = Some (b', own') ∧ Q k' b') ↔
  Q k b ∨ ∃ k' b' own', B !! k' = Some (b', own') ∧ Q k' b'.
Proof.
  intros Hk%not_elem_of_dom. split.
  - intros (k' & b' & o' & [(-> & [= -> ->])|(? & Hl)]%lookup_insert_Some & HQ); [by left|]. right. eauto.
  - intros [HQ|(k' & b' & o' & Hl & HQ)].
    + exists k, b, own. by rewrite lookup_insert_eq.
    + exists k', b', o'. split; [|done]. rewrite lookup_insert_ne; [done|]. congruence.
Qed.

Lemma tracker_step_ok ctx h st op :
  committee_ok (committee ctx) → op_ok (committee ctx) op →
  (∀ g, op = RunGc g → (h.1 ≤ g)%N) → vote_tracker_ok ctx h st →
  ∃ st', tracker_step st op = Done st' ∧ vote_tracker_ok ctx (taken_step h op) st'.
Proof.
  intros Hc Hop Hg (HB & K & P & Hst & Hv & HK). destruct op as [b own|g]; cbn [tracker_step taken_step op_ok] in *.
  2:{ eexists. split; [done|]. split; [done|]. exists K, P. split; [|done].
      eapply update_gc_round_spec; [by apply Hg|done]. }
  destruct (add_voted_block_spec ctx Hc _ _ _ _ _ b own Hop Hst) as (st' & -> & Hst').
  exists st'. split; [done|]. unfold vote_tracker_ok. cbn [fst snd]. case_decide as Hd; [subst st'; split; eauto|].
  assert (reference b ∉ dom h.2) as Hd' by tauto. split.
  - intros k b' o' [(<- & [= -> ->])|(? & Hl)]%lookup_insert_Some; [done|]. by eapply HB.
  - eexists _, _. split_and!; [exact Hst'| |].
    + intros r idx. apply set_eq. intros a. rewrite reject_voters_app, elem_of_union, Hv, elem_of_reject_voters,
        elem_of_block_rejects, !elem_of_rejecters, exists_insert_fresh by done. cbn. naive_solver.
    + intros r. rewrite exists_insert_fresh, elem_of_union, HK, elem_of_list_to_set by done.
      unfold votes_on. by rewrite bool_decide_eq_true.
Qed.

Lemma tracker_run_ok ctx h st ops :
  committee_ok (committee ctx) → Forall (op_ok (committee ctx)) ops → gc_monotone h.1 ops →
  vote_tracker_ok ctx h st →
  ∃ st', for_each tracker_step st ops = Done st' ∧ vote_tracker_ok ctx (foldl taken_step h ops) st'.
Proof.
  intros Hc Hops. revert h st. induction Hops as [|op ops Hop Hops IH]; intros h st Hm Hst; cbn [for_each foldl]; [by eauto|].
  assert ((∀ g, op = RunGc g → (h.1 ≤ g)%N) ∧ gc_monotone (taken_step h op).1 ops) as [Hg Hm'].
  { destruct op; cbn in Hm |- *; split; naive_solver. }
  destruct (tracker_step_ok ctx h st op Hc Hop Hg Hst) as (st1 & -> & H1). run_bind. by apply IH.
Qed.

Lemma VoteTrackerState_new_ok ctx : vote_tracker_ok ctx (GENESIS_ROUND, ∅) (VoteTrackerState_new ctx).
Proof.
  split; [intros k b o Hk; cbn in Hk; by rewrite lookup_empty in Hk|]. exists ∅, []. split_and!.
  - split; cbn; [done|done|set_solver|]. intros r _. rewrite lookup_empty. set_solver.
  - intros r idx. apply set_eq. intros a. rewrite elem_of_reject_voters, elem_of_rejecters. cbn.
    setoid_rewrite lookup_empty. split; [set_solver|]. intros (?&?&?&?&?). done.
  - intros r. cbn. setoid_rewrite lookup_empty. split; [set_solver|]. intros (?&?&?&?&?). done.
Qed.

(** What the tracker knows of the block [r]: it took it, or a block that votes on it. *)
Definition vote_tracked (h : N * taken_blocks) (r : BlockRef) : Prop :=
  (h.1 < ref_round r)%N ∧ (r ∈ dom h.2 ∨ ∃ k b own, h.2 !! k = Some (b, own) ∧ votes_on b r = true).

Lemma sorted_strict l : NoDup l → StronglySorted N.le l → StronglySorted N.lt l.
Proof.
  intros Hnd Hs. induction Hs as [|x l Hs IH Hall]; [constructor|].
  apply NoDup_cons in Hnd as [Hx Hnd]. constructor; [by apply IH|].
  rewrite Forall_forall in *. intros y Hy. specialize (Hall y Hy).
  assert (x ≠ y) by (by intros ->). lia.
Qed.

Lemma get_reject_votes_spec ctx h st r :
  vote_tracker_ok ctx h st →
  match get_reject_votes st r with
  | None => ¬ vote_tracked h r
  | Some l => vote_tracked h r ∧ StronglySorted N.lt l.*1 ∧
      ∀ idx s, (idx, s) ∈ l ↔ rejecters h.2 r idx ≠ ∅ ∧ s = set_stake (committee ctx) (rejecters h.2 r idx)
  end.
Proof.
  intros (HB & K & P & [Hctx Hgc Hab He] & Hv & HK). unfold get_reject_votes, vote_tracked.
  destruct (decide (h.1 < ref_round r)%N) as [Hr|Hr].
  2:{ destruct (vt_votes st !! r) eqn:Hl; [|by intros []]. destruct Hr. apply Hab. by eapply elem_of_dom_2. }
  specialize (He r Hr). destruct (vt_votes st !! r) as [info|]; cbn [mbind option_bind].
  2:{ rewrite <- HK. naive_solver. }
  destruct He as (Hk & Hi & _). rewrite HK in Hk. split_and!; [done|done| |].
  - rewrite <- list_fmap_compose.
    replace (_ <$> _) with (set_in_order N.le (dom (vi_reject_txn_votes info))).
    2:{ rewrite <- map_in_order_keys. apply list_fmap_ext. by intros _ [] _. }
    apply sorted_strict; [apply NoDup_set_in_order|apply set_in_order_sorted; apply _].
  - intros idx s. rewrite list_elem_of_fmap. specialize (Hi idx). rewrite <- Hv. split.
    + intros ([i agg] & [= -> ->] & Hin%elem_of_map_in_order). rewrite Hin in Hi.
      destruct Hi as ([_ Hs] & <- & Hne). by rewrite Hs.
    + intros [Hne ->]. destruct (_ !! idx) as [agg|] eqn:Hl; [|done]. destruct Hi as ([_ Hs] & <- & _).
      exists (idx, agg). rewrite Hs. split; [done|]. by apply elem_of_map_in_order.
Qed.

(** The node's own votes, for the blocks of [refs] above the gc round that it rejects something of. *)
Definition own_votes (h : N * taken_blocks) (refs : list BlockRef) : list BlockTransactionVotes :=
  omap (λ r, '(_, own) ← h.2 !! r;
    if decide ((h.1 < ref_round r)%N ∧ own ≠ []) then Some (mkBlockTransactionVotes r own) else None) refs.

Lemma get_own_votes_spec ctx h st refs :
  vote_tracker_ok ctx h st → (∀ r, r ∈ refs → (h.1 < ref_round r)%N → r ∈ dom h.2) →
  get_own_votes st refs = Done (own_votes h refs).
Proof.
  intros (HB & K & P & [Hctx Hgc Hab He] & _) Hrefs. unfold get_own_votes.
  set (f := λ _ _, _). enough (∀ acc, for_each f acc refs = Done (acc ++ own_votes h refs)) as Hen by apply Hen.
  induction refs as [|r refs IH]; intros acc; cbn [for_each own_votes omap list_omap]; [by rewrite app_nil_r|].
  assert (f acc r = Done (acc ++ own_votes h [r])) as ->.
  2:{ run_bind. rewrite IH by auto with lists. rewrite <- app_assoc. f_equal. f_equal. unfold own_votes. cbn.
      by destruct ('(_, _) ← _; _). }
  subst f. cbn [own_votes omap list_omap]. rewrite Hgc. case_decide as Hle.
  { destruct (h.2 !! r) as [[b own]|]; cbn; [|by rewrite app_nil_r]. rewrite decide_False by lia. by rewrite app_nil_r. }
  specialize (He r ltac:(lia)). pose proof (Hrefs r (list_elem_of_here _ _) ltac:(lia)) as Hr.
  pose proof Hr as [[b own] Hb]%elem_of_dom. rewrite Hb in He |- *.
  destruct (vt_votes st !! r) as [info|]; [|by destruct He]. destruct He as (_ & _ & [= _ Ho]). cbn.
  rewrite Ho. cbn. destruct own as [|x own]; [rewrite decide_False by naive_solver; by rewrite app_nil_r|].
  rewrite decide_True; [done|]. split; [lia|done].
Qed.

(** C31: the reject votes that the tracker reports are exact. After any sequence of
    added blocks and garbage collections with rounds that never decrease, the
    tracker has an entry for a block above the gc round exactly if it took the
    block or a block that votes on it; the entry lists, in increasing order,
    exactly the transactions that some taken block rejects, each once, with the
    stake of the distinct authors of these blocks: the order of arrival, repeated
    blocks and repeated votes make no difference. The node's own votes on taken
    blocks are returned as they were given with the first copy of the block. *)
Theorem reject_votes_exact ctx ops (h := taken_by ops) :
  committee_ok (committee ctx) → Forall (op_ok (committee ctx)) ops → gc_monotone GENESIS_ROUND ops →
  ∃ st, for_each tracker_step (VoteTrackerState_new ctx) ops = Done st ∧
    (∀ r, match get_reject_votes st r with
          | None => ¬ vote_tracked h r
          | Some l => vote_tracked h r ∧ StronglySorted N.lt l.*1 ∧
              ∀ idx s, (idx, s) ∈ l ↔ rejecters h.2 r idx ≠ ∅ ∧ s = set_stake (committee ctx) (rejecters h.2 r idx)
          end) ∧
    ∀ refs, (∀ r, r ∈ refs → (h.1 < ref_round r)%N → r ∈ dom h.2) → get_own_votes st refs = Done (own_votes h refs).
Proof.
  intros Hc Hops Hm. destruct (tracker_run_ok ctx (GENESIS_ROUND, ∅) (VoteTrackerState_new ctx) ops) as (st & Hrun & Hst);
    [done..|apply VoteTrackerState_new_ok|].
  exists st. split_and!; [done| |].
  - intros r. by apply (get_reject_votes_spec ctx).
  - intros refs. by apply (get_own_votes_spec ctx).
Qed.

(** A block with transactions of the given bytes and transaction votes, for examples. *)
Definition reject_block (r a d : N) (ancestors : list BlockRef) (txns : list Transaction)
    (votes : list BlockTransactionVotes) : VerifiedBlock :=
  {| signed_block := {| inner := V2 {| v2_epoch := 0; v2_round := r; v2_author := a;
       v2_timestamp_ms := 1000 * r; v2_ancestors := ancestors; v2_transactions := txns;
       v2_transaction_votes := votes; v2_commit_votes := []; v2_misbehavior_reports := [] |}; signature := [] |};
     digest := d; serialized := [] |}.

(** Authorities 0 and 1 vote on the block of authority 3 at round 1, authority 0
    twice on the same transaction, and one of the reject_voters arrives first. *)
Definition tracker_target : BlockRef := mkBlockRef 1 3 13.
Definition tracker_ops : list tracker_op :=
  [AddBlock (reject_block 2 0 20 [] [] [mkBlockTransactionVotes tracker_target [0; 2; 0]]) [];
   AddBlock (reject_block 1 3 13 [] [mkTransaction [1]; mkTransaction [2]; mkTransaction [3]] []) [1];
   RunGc 0;
   AddBlock (reject_block 2 1 21 [] [] [mkBlockTransactionVotes tracker_target [2]]) [];
   AddBlock (reject_block 2 1 21 [] [] [mkBlockTransactionVotes tracker_target [2]]) []]%N.

Lemma reject_votes_exact_witness :
  ∃ st, for_each tracker_step (VoteTrackerState_new sample_context) tracker_ops = Done st ∧
    get_reject_votes st tracker_target = Some [(0, 1); (2, 2)]%N ∧
    get_own_votes st [tracker_target] = Done [mkBlockTransactionVotes tracker_target [1%N]].
Proof.
  destruct (reject_votes_exact sample_context tracker_ops) as (st & Hrun & _ & Hown);
    [exact committee_4_ok|repeat constructor|repeat constructor; vm_compute; discriminate|].
  assert (get_reject_votes (from_done (VoteTrackerState_new sample_context)
    (for_each tracker_step (VoteTrackerState_new sample_context) tracker_ops)) tracker_target = Some [(0, 1); (2, 2)]%N) as Hv
    by (vm_compute; reflexivity).
  rewrite Hrun in Hv. exists st. split_and!; [exact Hrun|exact Hv|].
  rewrite Hown; [vm_compute; reflexivity|]. intros r ->%list_elem_of_singleton _.
  apply elem_of_dom. vm_compute. eauto.
Defined.
