(* ===== verification/CommitFinalizer.v ===== *)
(** * Commit finalizer (consensus/core/src/commit_finalizer.rs)

    Buffers the committed sub-dags and outputs them, in order, once every
    transaction in them is finalized or rejected. The vote tracker and the dag
    state, which the code reads through shared handles, are arguments; the vote
    tracker does not change while one commit is processed. The tasks that check
    the pending blocks only read the block map, so they are run one after the
    other. Metrics and the cancellation of tasks at shutdown are left out. *)

From S2P Require Import Prelude Committee Block StakeAggregator ThresholdClock Commit Store LeaderScoring.
From S2P Require Import DagState TransactionVoteTracker.

Definition INDIRECT_REJECT_DEPTH : N := 3.

Record CommitState := mkCommitState {
  cs_commit : CommittedSubDag;
  cs_pending_blocks : gmap BlockRef N;
  cs_pending_transactions : gmap BlockRef (gset N);
  cs_rejected_transactions : gmap BlockRef (gset N);
}.

Definition CommitState_new (commit : CommittedSubDag) : outcome CommitState :=
  let pending_blocks := foldl (λ m b, <[reference b := lengthN (transactions b)]> m) ∅ (sd_blocks commit) in
  rassert (pending_blocks ≠ ∅);;
  Done (mkCommitState commit pending_blocks ∅ ∅).

(** [entry(r).or_default().extend(X)] *)
Definition extend_at (m : gmap BlockRef (gset N)) (r : BlockRef) (X : gset N) : gmap BlockRef (gset N) :=
  <[r := default ∅ (m !! r) ∪ X]> m.

Definition set_pending_blocks (x : gmap BlockRef N) (cs : CommitState) : CommitState :=
  mkCommitState (cs_commit cs) x (cs_pending_transactions cs) (cs_rejected_transactions cs).
Definition set_pending_transactions (x : gmap BlockRef (gset N)) (cs : CommitState) : CommitState :=
  mkCommitState (cs_commit cs) (cs_pending_blocks cs) x (cs_rejected_transactions cs).
Definition set_rejected_transactions (x : gmap BlockRef (gset N)) (cs : CommitState) : CommitState :=
  mkCommitState (cs_commit cs) (cs_pending_blocks cs) (cs_pending_transactions cs) x.

Definition add_pending (r : BlockRef) (X : gset N) (cs : CommitState) : CommitState :=
  set_pending_transactions (extend_at (cs_pending_transactions cs) r X) cs.
Definition add_rejected (r : BlockRef) (X : gset N) (cs : CommitState) : CommitState :=
  set_rejected_transactions (extend_at (cs_rejected_transactions cs) r X) cs.

Definition remove_pending_transactions (cs : CommitState) (r : BlockRef) (txns : list N) : CommitState :=
  match cs_pending_transactions cs !! r with
  | None => cs
  | Some X =>
      let X := foldl (λ X t, X ∖ {[t]}) X txns in
      set_pending_transactions
        (if decide (X = ∅) then delete r (cs_pending_transactions cs)
         else <[r := X]> (cs_pending_transactions cs)) cs
  end.

Record BlockState := mkBlockState {
  bst_block : VerifiedBlock;
  bst_children : gset BlockRef;
  bst_reject_votes : gmap BlockRef (gset N);
  bst_origin_descendants : list BlockRef;
  bst_commit_index : N;
}.

Definition BlockState_new (block : VerifiedBlock) (commit_index : N) : BlockState :=
  mkBlockState block ∅
    (foldl (λ m v, <[btv_block_ref v := list_to_set (btv_rejects v)]> m) ∅ (transaction_votes block))
    [] commit_index.

Definition add_child (r : BlockRef) (s : BlockState) : BlockState :=
  mkBlockState (bst_block s) ({[r]} ∪ bst_children s) (bst_reject_votes s) (bst_origin_descendants s) (bst_commit_index s).
Definition push_origin_descendant (r : BlockRef) (s : BlockState) : BlockState :=
  mkBlockState (bst_block s) (bst_children s) (bst_reject_votes s) (bst_origin_descendants s ++ [r]) (bst_commit_index s).

Abbreviation blocks_map := (gmap BlockRef BlockState).

Record CommitFinalizer := mkCommitFinalizer {
  cf_context : Context;
  cf_last_processed_commit : option N;
  cf_pending_commits : list CommitState;
  cf_blocks : blocks_map;
}.

Definition CommitFinalizer_new (ctx : Context) : CommitFinalizer := mkCommitFinalizer ctx None [] ∅.

Definition set_pending_commits (x : list CommitState) (cf : CommitFinalizer) : CommitFinalizer :=
  mkCommitFinalizer (cf_context cf) (cf_last_processed_commit cf) x (cf_blocks cf).
Definition set_blocks (x : blocks_map) (cf : CommitFinalizer) : CommitFinalizer :=
  mkCommitFinalizer (cf_context cf) (cf_last_processed_commit cf) (cf_pending_commits cf) x.

Definition cs_leader_round (cs : CommitState) : N := ref_round (sd_leader (cs_commit cs)).
Definition cs_commit_index (cs : CommitState) : N := cref_index (sd_commit_ref (cs_commit cs)).

(** ** Direct finalization *)

(** One reject vote entry: pending below a quorum of stake, rejected otherwise. *)
Definition direct_vote (c : Committee) (block_ref : BlockRef) (cs : CommitState) (vote : N * N) : CommitState :=
  let '(transaction_index, stake) := vote in
  if decide (stake < quorum_threshold c)%N then add_pending block_ref {[transaction_index]} cs
  else add_rejected block_ref {[transaction_index]} cs.

(** One block of the commit, with its number of transactions. *)
Definition direct_block (c : Committee) (vt : VoteTrackerState) (vote_gc_round : N) (cs : CommitState)
    (entry : BlockRef * N) : outcome CommitState :=
  let '(block_ref, num_transactions) := entry in
  if decide (ref_round block_ref ≤ vote_gc_round ∧ 0 < num_transactions)%N then
    authority c (ref_author block_ref);;
    Done (add_pending block_ref (list_to_set (rangeN 0 (num_transactions `mod` u16_modulus))) cs)
  else
    reject_votes ← unwrap (get_reject_votes vt block_ref);
    authority c (ref_author block_ref);;
    Done (foldl (direct_vote c block_ref) cs reject_votes).

(** ** Indirect finalization *)

(** The loop over the origin ancestors of a committed block. *)
Fixpoint append_origin (fuel : nat) (committed r : BlockRef) (blocks : blocks_map) : outcome blocks_map :=
  match fuel with
  | O => OutOfFuel
  | S fuel =>
      if decide (ref_author r = ref_author committed) then
        match blocks !! r with
        | None => Done blocks
        | Some s =>
            next ← unwrap (head (ancestors (bst_block s)));
            append_origin fuel committed next (<[r := push_origin_descendant committed s]> blocks)
        end
      else Done blocks
  end.

Definition append_origin_block (blocks : blocks_map) (committed_block : VerifiedBlock) : outcome blocks_map :=
  s ← unwrap (blocks !! reference committed_block);
  origin_ancestor_ref ← unwrap (head (ancestors (bst_block s)));
  append_origin (S (N.to_nat (round committed_block))) (reference committed_block) origin_ancestor_ref blocks.

Definition link_block (commit_index : N) (blocks : blocks_map) (block : VerifiedBlock) : blocks_map :=
  let blocks := foldl (λ m ancestor, alter (add_child (reference block)) ancestor m) blocks (ancestors block) in
  match blocks !! reference block with
  | Some _ => blocks
  | None => <[reference block := BlockState_new block commit_index]> blocks
  end.

(** [sort_by_key(|b| b.round())] *)
Definition block_round_le (a b : VerifiedBlock) : Prop := (round a ≤ round b)%N.

#[export] Instance block_round_le_dec : RelDecision block_round_le.
Proof. intros a b. unfold block_round_le. apply _. Defined.
#[export] Instance block_round_le_trans : Transitive block_round_le.
Proof. intros ???. unfold block_round_le. lia. Qed.
#[export] Instance block_round_le_total : Total block_round_le.
Proof. intros ??. unfold block_round_le. lia. Qed.

Definition gced_transaction_votes_for_pending_block (gc_rounds : list (N * N))
    (pending_block_round pending_commit_index current_commit_index : N) : outcome bool :=
  rassert (pending_commit_index ≤ current_commit_index)%N;;
  if decide (pending_commit_index = current_commit_index) then Done false
  else
    '(commit_index, gc_round) ← vec_index gc_rounds ((current_commit_index -₃₂ 1) -₃₂ pending_commit_index);
    rassert (commit_index = current_commit_index -₃₂ 1);;
    Done (bool_decide (pending_block_round ≤ gc_round)%N).

(** The accept votes of one block of [author], for the transactions in [l]. *)
Definition accept_vote (c : Committee) (author : N) (reject_votes : gset N)
    (st : gmap N (StakeAggregator QuorumThreshold) * list N) (entry : N * StakeAggregator QuorumThreshold) :
    outcome (gmap N (StakeAggregator QuorumThreshold) * list N) :=
  let '(accept_votes, newly_finalized) := st in
  let '(index, stake) := entry in
  if decide (index ∈ reject_votes) then Done st
  else
    '(stake, reached) ← agg_add stake author c;
    Done (<[index := stake]> accept_votes, if reached : bool then newly_finalized ++ [index] else newly_finalized).

Definition count_accepts (c : Committee) (author : N) (reject_votes : gset N)
    (accept_votes : gmap N (StakeAggregator QuorumThreshold)) :
    outcome (gmap N (StakeAggregator QuorumThreshold) * list N) :=
  '(accept_votes, newly_finalized) ← for_each (accept_vote c author reject_votes) (accept_votes, [])
    (map_in_order N.le accept_votes);
  Done (foldl (λ m index, delete index m) accept_votes newly_finalized, newly_finalized).

Section traverse.
Context (c : Committee) (blocks : blocks_map) (gc_rounds : list (N * N)).
Context (pending_block_ref : BlockRef) (pending_commit_index : N).

(** The traversal of the descendants, earliest first. *)
Fixpoint traverse (fuel : nat) (accept_votes : gmap N (StakeAggregator QuorumThreshold))
    (finalized_transactions : list N) (to_visit visited ignored : gset BlockRef) : outcome (list N) :=
  match fuel with
  | O => OutOfFuel
  | S fuel =>
      match refs_first to_visit with
      | None => Done finalized_transactions
      | Some curr =>
          let to_visit := to_visit ∖ {[curr]} in
          if decide (curr ∈ visited) then traverse fuel accept_votes finalized_transactions to_visit visited ignored
          else
            let visited := {[curr]} ∪ visited in
            s ← unwrap (blocks !! curr);
            votes_gced ← gced_transaction_votes_for_pending_block gc_rounds (ref_round pending_block_ref)
              pending_commit_index (bst_commit_index s);
            let to_visit' := to_visit ∪ (bst_children s ∖ visited) in
            if decide (curr ∈ ignored) then traverse fuel accept_votes finalized_transactions to_visit' visited ignored
            else
              let ignored := {[curr]} ∪ ignored ∪ list_to_set (bst_origin_descendants s) in
              if votes_gced : bool then
                authority c (ref_author pending_block_ref);;
                traverse fuel accept_votes finalized_transactions to_visit visited ignored
              else
                '(accept_votes, newly_finalized) ← count_accepts c (ref_author curr)
                  (default ∅ (bst_reject_votes s !! pending_block_ref)) accept_votes;
                let finalized_transactions := finalized_transactions ++ newly_finalized in
                if decide (accept_votes = ∅) then Done finalized_transactions
                else traverse fuel accept_votes finalized_transactions to_visit' visited ignored
      end
  end.

End traverse.

Definition try_indirect_finalize_pending_transactions_in_block (c : Committee) (blocks : blocks_map)
    (gc_rounds : list (N * N)) (pending_block_ref : BlockRef) (pending_transactions : gset N) : outcome (list N) :=
  if decide (pending_transactions = ∅) then Done []
  else
    let accept_votes := gset_to_gmap StakeAggregator_new pending_transactions in
    s ← unwrap (blocks !! pending_block_ref);
    traverse c blocks gc_rounds pending_block_ref (bst_commit_index s) (S (size blocks))
      accept_votes [] (bst_children s) ∅ ∅.

(** ** The finalizer *)
Section finalizer.
Context {S : Type} `{Store S}.
Implicit Types ds : DagState S.
Implicit Types cf : CommitFinalizer.
Implicit Types vt : VoteTrackerState.

Definition try_direct_finalize_commit ds vt cf (index : nat) : outcome CommitFinalizer :=
  commit_state ← unwrap (cf_pending_commits cf !! index);
  let vote_gc_round := calculate_gc_round ds (cs_leader_round commit_state +₃₂ INDIRECT_REJECT_DEPTH) in
  rassert (cs_pending_blocks commit_state ≠ ∅);;
  commit_state ← for_each (direct_block (committee (cf_context cf)) vt vote_gc_round)
    (set_pending_blocks ∅ commit_state) (entries_in_order (cs_pending_blocks commit_state));
  Done (set_pending_commits (<[index := commit_state]> (cf_pending_commits cf)) cf).

Definition link_blocks_in_last_commit cf : outcome CommitFinalizer :=
  commit_state ← unwrap (last (cf_pending_commits cf));
  Done (set_blocks (foldl (link_block (cs_commit_index commit_state)) (cf_blocks cf)
    (stable_sort block_round_le (sd_blocks (cs_commit commit_state)))) cf).

Definition append_origin_descendants_from_last_commit cf : outcome CommitFinalizer :=
  commit_state ← unwrap (last (cf_pending_commits cf));
  blocks ← for_each append_origin_block (cf_blocks cf) (stable_sort block_round_le (sd_blocks (cs_commit commit_state)));
  Done (set_blocks blocks cf).

(** The pending transactions of one block that a quorum rejects by now. *)
Definition late_rejects (c : Committee) vt (entry : BlockRef * gset N) : outcome (BlockRef * list N) :=
  let '(block_ref, pending_transactions) := entry in
  reject_votes ← unwrap (get_reject_votes vt block_ref);
  let reject_votes : gmap N N := foldl (λ m '(idx, stake), <[idx := stake]> m) ∅ reject_votes in
  Done (block_ref, filter (λ idx, ¬ (default 0 (reject_votes !! idx) < quorum_threshold c)%N)
    (set_in_order N.le pending_transactions)).

Definition check_pending_transactions_in_first_commit vt cf : outcome CommitFinalizer :=
  commit_state ← unwrap (cf_pending_commits cf !! 0);
  all ← mapM (late_rejects (committee (cf_context cf)) vt) (entries_in_order (cs_pending_transactions commit_state));
  let commit_state := foldl (λ cs '(block_ref, rejected),
      add_rejected block_ref (list_to_set rejected) (remove_pending_transactions cs block_ref rejected))
    commit_state (filter (λ e, e.2 ≠ []) all) in
  Done (set_pending_commits (<[0 := commit_state]> (cf_pending_commits cf)) cf).

Definition try_indirect_finalize_pending_transactions_in_first_commit ds cf : outcome CommitFinalizer :=
  commit_state ← unwrap (cf_pending_commits cf !! 0);
  let gc_rounds := (λ cs, (cs_commit_index cs, calculate_gc_round ds (cs_leader_round cs))) <$> cf_pending_commits cf in
  all ← mapM (λ '(block_ref, pending_transactions),
      pair block_ref <$> try_indirect_finalize_pending_transactions_in_block (committee (cf_context cf))
        (cf_blocks cf) gc_rounds block_ref pending_transactions)
    (entries_in_order (cs_pending_transactions commit_state));
  let commit_state := foldl (λ cs '(block_ref, finalized), remove_pending_transactions cs block_ref finalized)
    commit_state (filter (λ e, e.2 ≠ []) all) in
  Done (set_pending_commits (<[0 := commit_state]> (cf_pending_commits cf)) cf).

Definition try_indirect_reject_pending_transactions_in_first_commit cf : outcome CommitFinalizer :=
  commit_state ← unwrap (cf_pending_commits cf !! 0);
  last_commit_state ← unwrap (last (cf_pending_commits cf));
  if decide (cs_leader_round commit_state +₃₂ INDIRECT_REJECT_DEPTH ≤ cs_leader_round last_commit_state)%N then
    rassert (cs_pending_blocks commit_state = ∅);;
    let commit_state := foldl (λ cs '(block_ref, pending), add_rejected block_ref pending cs)
      (set_pending_transactions ∅ commit_state) (entries_in_order (cs_pending_transactions commit_state)) in
    Done (set_pending_commits (<[0 := commit_state]> (cf_pending_commits cf)) cf)
  else Done cf.

Definition try_indirect_finalize_first_commit ds vt cf : outcome CommitFinalizer :=
  commit_state ← unwrap (cf_pending_commits cf !! 0);
  rassert (cs_pending_blocks commit_state = ∅);;
  cf ← check_pending_transactions_in_first_commit vt cf;
  cf ← try_indirect_finalize_pending_transactions_in_first_commit ds cf;
  try_indirect_reject_pending_transactions_in_first_commit cf.

(** The output of a finalized commit, with its rejected transactions. *)
Definition finalized_commit (cs : CommitState) : CommittedSubDag :=
  let commit := cs_commit cs in
  {| sd_leader := sd_leader commit; sd_blocks := sd_blocks commit; sd_timestamp_ms := sd_timestamp_ms commit;
     sd_commit_ref := sd_commit_ref commit; sd_decided_with_local_blocks := sd_decided_with_local_blocks commit;
     sd_recovered_rejected_transactions := sd_recovered_rejected_transactions commit;
     sd_rejected_transactions_by_block :=
       foldl (λ m '(r, X), <[r := set_in_order N.le X]> m) (sd_rejected_transactions_by_block commit)
         (entries_in_order (cs_rejected_transactions cs)) |}.

Fixpoint pop_finalized (pending : list CommitState) (blocks : blocks_map) :
    list CommittedSubDag * list CommitState * blocks_map :=
  match pending with
  | [] => ([], [], blocks)
  | cs :: rest =>
      if decide (cs_pending_blocks cs ≠ ∅ ∨ cs_pending_transactions cs ≠ ∅) then ([], pending, blocks)
      else
        let '(out, rest, blocks) := pop_finalized rest
          (foldl (λ m b, delete (reference b) m) blocks (sd_blocks (cs_commit cs))) in
        (finalized_commit cs :: out, rest, blocks)
  end.

Definition pop_finalized_commits cf : CommitFinalizer * list CommittedSubDag :=
  let '(out, rest, blocks) := pop_finalized (cf_pending_commits cf) (cf_blocks cf) in
  (set_blocks blocks (set_pending_commits rest cf), out).

(** The loop over the pending commits for direct finalization, from index [i]. *)
Fixpoint direct_finalize_loop ds vt (indices : list nat) cf : outcome CommitFinalizer :=
  match indices with
  | [] => Done cf
  | i :: indices =>
      commit_state ← unwrap (cf_pending_commits cf !! i);
      if decide (cs_pending_blocks commit_state = ∅) then direct_finalize_loop ds vt indices cf
      else
        last_commit_state ← unwrap (last (cf_pending_commits cf));
        if decide (sd_decided_with_local_blocks (cs_commit commit_state) = false ∧
             cs_leader_round last_commit_state < cs_leader_round commit_state +₃₂ DEFAULT_WAVE_LENGTH)%N
        then Done cf
        else
          cf ← try_direct_finalize_commit ds vt cf i;
          direct_finalize_loop ds vt indices cf
  end.

Fixpoint indirect_loop (fuel : nat) ds vt cf (finalized_commits : list CommittedSubDag) :
    outcome (CommitFinalizer * list CommittedSubDag) :=
  match fuel with
  | O => OutOfFuel
  | Datatypes.S fuel =>
      match cf_pending_commits cf with
      | commit_state :: _ :: _ =>
          if decide (cs_pending_blocks commit_state ≠ ∅) then Done (cf, finalized_commits)
          else
            cf ← try_indirect_finalize_first_commit ds vt cf;
            let '(cf, indirect_finalized_commits) := pop_finalized_commits cf in
            if decide (indirect_finalized_commits = []) then Done (cf, finalized_commits)
            else indirect_loop fuel ds vt cf (finalized_commits ++ indirect_finalized_commits)
      | _ => Done (cf, finalized_commits)
      end
  end.

Definition process_commit ds vt cf (committed_sub_dag : CommittedSubDag) :
    outcome (CommitFinalizer * list CommittedSubDag) :=
  let index := cref_index (sd_commit_ref committed_sub_dag) in
  (match cf_last_processed_commit cf with
   | Some last_processed_commit => rassert (last_processed_commit +₃₂ 1 = index)
   | None => Done ()
   end);;
  commit_state ← CommitState_new committed_sub_dag;
  let cf := mkCommitFinalizer (cf_context cf) (Some index) (cf_pending_commits cf ++ [commit_state]) (cf_blocks cf) in
  cf ← direct_finalize_loop ds vt (seq 0 (length (cf_pending_commits cf))) cf;
  let '(cf, finalized_commits) := pop_finalized_commits cf in
  if decide (cf_pending_commits cf = []) then Done (cf, finalized_commits)
  else
    cf ← link_blocks_in_last_commit cf;
    cf ← append_origin_descendants_from_last_commit cf;
    indirect_loop (Datatypes.S (length (cf_pending_commits cf))) ds vt cf finalized_commits.

Definition try_update_gc_round ds vt (last_finalized_commit_round : N) : outcome VoteTrackerState :=
  run_gc vt ds (calculate_gc_round ds last_finalized_commit_round).

(** One iteration of [run]: the new states and the commits that are sent on. *)
Definition run_commit (st : CommitFinalizer * VoteTrackerState * DagState S) (committed_sub_dag : CommittedSubDag) :
    outcome (CommitFinalizer * VoteTrackerState * DagState S * list CommittedSubDag) :=
  let '(cf, vt, ds) := st in
  let already_finalized := negb (transaction_voting_enabled (protocol_config (cf_context cf)))
    || sd_recovered_rejected_transactions committed_sub_dag in
  '(cf, finalized_commits) ←
    if already_finalized then Done (cf, [committed_sub_dag]) else process_commit ds vt cf committed_sub_dag;
  match last finalized_commits with
  | None => Done (cf, vt, ds, [])
  | Some last_commit =>
      vt ← try_update_gc_round ds vt (ref_round (sd_leader last_commit));
      let ds := if already_finalized then ds
        else foldl (λ ds commit, add_finalized_commit ds (sd_commit_ref commit) (sd_rejected_transactions_by_block commit))
               ds finalized_commits in
      ds ← flush ds;
      Done (cf, vt, ds, finalized_commits)
  end.

End finalizer.
