(* ===== verification/CommitFinalizerSpec.v ===== *)
(** * Correctness of the commit finalizer

    The invariant of [CommitFinalizer]: the buffered commits are consecutive and
    the block map holds exactly their blocks, linked to their children. From it:
    processing a commit never panics and terminates, commits leave the buffer in
    order, every transaction of an output commit is decided for a reason, and no
    commit waits for more than three leader rounds. *)

From S2P Require Import Prelude Committee Block StakeAggregator ThresholdClock Commit Store LeaderScoring.
From S2P Require Import DagState DagInvariant DagDurability TransactionVoteTracker CommitFinalizer.

(** ** Blocks of commits *)

Definition sd_index (sd : CommittedSubDag) : N := cref_index (sd_commit_ref sd).
Definition sd_round (sd : CommittedSubDag) : N := ref_round (sd_leader sd).

(** The blocks of a list of commits, with the index of their commit. *)
Definition placed (L : list CommittedSubDag) : list (N * VerifiedBlock) :=
  L ≫= λ sd, pair (sd_index sd) <$> sd_blocks sd.

Abbreviation placed_refs L := ((λ e : N * VerifiedBlock, reference e.2) <$> placed L).

Lemma elem_of_placed L e : e ∈ placed L ↔ ∃ sd, sd ∈ L ∧ e.1 = sd_index sd ∧ e.2 ∈ sd_blocks sd.
Proof.
  unfold placed. rewrite list_elem_of_bind. setoid_rewrite list_elem_of_fmap. split.
  - intros (sd & (b & -> & Hb) & Hsd). by exists sd.
  - intros (sd & Hsd & He & Hb). exists sd. split; [|done]. exists e.2. split; [|done]. destruct e; cbn in *. by subst.
Qed.

Lemma placed_app L L' : placed (L ++ L') = placed L ++ placed L'.
Proof. apply bind_app. Qed.

Lemma placed_cons sd L : placed (sd :: L) = (pair (sd_index sd) <$> sd_blocks sd) ++ placed L.
Proof. done. Qed.

Lemma placed_unique L e1 e2 :
  NoDup (placed_refs L) → e1 ∈ placed L → e2 ∈ placed L → reference e1.2 = reference e2.2 → e1 = e2.
Proof.
  intros Hnd [i Hi]%list_elem_of_lookup [j Hj]%list_elem_of_lookup Heq.
  enough (i = j) by congruence. eapply (NoDup_lookup _ _ _ (reference e1.2) Hnd);
    rewrite list_lookup_fmap, ?Hi, ?Hj; cbn; by rewrite ?Heq.
Qed.

(** ** Well-formed commits *)

Record block_ok (c : Committee) (b : VerifiedBlock) : Prop := {
  fb_author : (author b < Committee_size c)%N;
  fb_parent : ∃ r, head (ancestors b) = Some r ∧ (ref_round r < round b)%N;
  fb_transactions : (lengthN (transactions b) < u16_modulus)%N;
}.

Record sub_dag_ok (c : Committee) (sd : CommittedSubDag) : Prop := {
  sk_nonempty : sd_blocks sd ≠ [];
  sk_blocks : ∀ b, b ∈ sd_blocks sd → block_ok c b;
  sk_index : (sd_index sd < u32_modulus)%N;
  sk_round : (sd_round sd + 3 < u32_modulus)%N;
  sk_undecided : sd_rejected_transactions_by_block sd = ∅;
}.

(** Consecutive commits: increasing indices, leader rounds that do not decrease,
    and no block in two of them. *)
Record stream_ok (c : Committee) (L : list CommittedSubDag) : Prop := {
  so_commits : ∀ sd, sd ∈ L → sub_dag_ok c sd;
  so_index : ∀ i sd0 sd, head L = Some sd0 → L !! i = Some sd → sd_index sd = (sd_index sd0 + N.of_nat i)%N;
  so_rounds : ∀ i j sd sd', L !! i = Some sd → L !! j = Some sd' → i ≤ j → (sd_round sd ≤ sd_round sd')%N;
  so_distinct : NoDup (placed_refs L);
}.

Lemma stream_ok_tail c sd L : stream_ok c (sd :: L) → stream_ok c L.
Proof.
  intros [Hc Hi Hr Hd]. split.
  - intros x Hx. apply Hc. by apply list_elem_of_further.
  - intros i sd0 x H0 Hx. destruct L as [|y L]; [done|]. injection H0 as ->.
    pose proof (Hi (S i) sd x eq_refl Hx). pose proof (Hi 1 sd sd0 eq_refl eq_refl). lia.
  - intros i j x y Hx Hy Hij. apply (Hr (S i) (S j) x y); [done|done|lia].
  - rewrite placed_cons, fmap_app in Hd. by apply NoDup_app in Hd as (_ & _ & ?).
Qed.

Lemma stream_ok_drop c n L : stream_ok c L → stream_ok c (drop n L).
Proof. revert L. induction n as [|n IH]; intros [|x L]; cbn; [done..|]. intros HL. by eapply IH, stream_ok_tail. Qed.

Lemma stream_ok_prefix c L L' : stream_ok c (L ++ L') → stream_ok c L.
Proof.
  intros [Hc Hi Hr Hd]. split.
  - intros x Hx. apply Hc. set_solver.
  - intros i sd0 x H0 Hx. apply Hi; [by destruct L|by apply lookup_app_l_Some].
  - intros i j x y Hx Hy. apply Hr; by apply lookup_app_l_Some.
  - rewrite placed_app, fmap_app in Hd. by apply NoDup_app in Hd as (? & _ & _).
Qed.

(** ** The block map, for blocks [P] with their commit indices *)
Record blocks_ok (P : list (N * VerifiedBlock)) (m : blocks_map) : Prop := {
  bk_placed : ∀ r s, m !! r = Some s → (bst_commit_index s, bst_block s) ∈ P ∧ reference (bst_block s) = r;
  bk_present : ∀ e, e ∈ P → is_Some (m !! reference e.2);
  bk_children : ∀ r s r', m !! r = Some s → r' ∈ bst_children s →
    ∃ s', m !! r' = Some s' ∧ (bst_commit_index s ≤ bst_commit_index s')%N ∧ r ∈ ancestors (bst_block s');
  bk_rejects : ∀ r s, m !! r = Some s → bst_reject_votes s = bst_reject_votes (BlockState_new (bst_block s) 0);
}.

Lemma blocks_ok_empty : blocks_ok [] ∅.
Proof. split; [|set_solver| |]; intros r s; intros; by rewrite lookup_empty in *. Qed.

(** What the invariant says of a block state; the origin descendants are free. *)
Definition strip (s : BlockState) : VerifiedBlock * gset BlockRef * gmap BlockRef (gset N) * N :=
  (bst_block s, bst_children s, bst_reject_votes s, bst_commit_index s).

Lemma strip_lookup (m m' : blocks_map) r s' :
  strip <$> m = strip <$> m' → m' !! r = Some s' → ∃ s, m !! r = Some s ∧ strip s = strip s'.
Proof.
  intros Hm Hr. assert ((strip <$> m) !! r = Some (strip s')) as Hs by (rewrite Hm, lookup_fmap, Hr; done).
  rewrite lookup_fmap in Hs. destruct (m !! r) as [s|]; [|done]. injection Hs as ???. exists s.
  split; [done|]. unfold strip. congruence.
Qed.

Lemma blocks_ok_strip P m m' : strip <$> m = strip <$> m' → blocks_ok P m → blocks_ok P m'.
Proof.
  intros Hm [Hp Hq Hk Hv]. split.
  - intros r s' Hr. destruct (strip_lookup _ _ _ _ Hm Hr) as (s & Hs & [= <- ? ? <-]). by apply Hp.
  - intros e He. destruct (Hq e He) as [s Hs]. destruct (strip_lookup _ _ _ _ (eq_sym Hm) Hs) as (s' & ? & _). by eauto.
  - intros r s' r' Hr Hc. destruct (strip_lookup _ _ _ _ Hm Hr) as (s & Hs & [= ? Hch ? Hidx]). rewrite <- Hch in Hc. rewrite <- Hidx.
    destruct (Hk _ _ _ Hs Hc) as (t & Ht & Hle & Ha).
    destruct (strip_lookup _ _ _ _ (eq_sym Hm) Ht) as (t' & ? & [= Hb ? ? Hi]).
    exists t'. by rewrite Hb, Hi.
  - intros r s' Hr. destruct (strip_lookup _ _ _ _ Hm Hr) as (s & Hs & [= <- ? <- ?]). by apply (Hv r).
Qed.

(** *** Removing the first commit *)

Lemma lookup_delete_blocks (l : list VerifiedBlock) (m : blocks_map) r :
  foldl (λ m b, delete (reference b) m) m l !! r = if decide (r ∈ reference <$> l) then None else m !! r.
Proof.
  revert m. induction l as [|b l IH]; intros m; cbn [foldl fmap list_fmap].
  - rewrite decide_False; [done|set_solver].
  - rewrite IH. destruct (decide (r = reference b)) as [->|Hne].
    + rewrite lookup_delete_eq, (decide_True (P:=_ ∈ _ :: _)) by apply list_elem_of_here. by case_decide.
    + rewrite lookup_delete_ne by done. apply decide_ext. set_solver.
Qed.

Lemma sd_index_lt_tail c sd L e : stream_ok c (sd :: L) → e ∈ placed L → (sd_index sd < e.1)%N.
Proof.
  intros Hs (x & [i Hi]%list_elem_of_lookup & -> & _)%elem_of_placed.
  rewrite (so_index _ _ Hs (S i) sd x eq_refl Hi). lia.
Qed.

Lemma blocks_ok_pop c sd L m :
  stream_ok c (sd :: L) → blocks_ok (placed (sd :: L)) m →
  blocks_ok (placed L) (foldl (λ m b, delete (reference b) m) m (sd_blocks sd)).
Proof.
  intros Hs [Hp Hq Hk Hv]. pose proof (so_distinct _ _ Hs) as Hd.
  assert (∀ e, e ∈ placed L → reference e.2 ∉ reference <$> sd_blocks sd) as Hfresh.
  { intros e He. rewrite placed_cons, fmap_app, <- list_fmap_compose in Hd. apply NoDup_app in Hd as (_ & Hd & _).
    intros (b & Hb & Hin)%list_elem_of_fmap. apply (Hd (reference e.2)); [|apply list_elem_of_fmap; by eauto].
    apply list_elem_of_fmap. by exists b. }
  assert (∀ r s, m !! r = Some s → r ∉ reference <$> sd_blocks sd → (bst_commit_index s, bst_block s) ∈ placed L) as Hin.
  { intros r s Hr Hnot. destruct (Hp _ _ Hr) as [Hin <-]. rewrite placed_cons in Hin.
    apply elem_of_app in Hin as [Hin|?]; [|done]. apply list_elem_of_fmap in Hin as (b & [= _ Hbs] & Hb).
    destruct Hnot. apply list_elem_of_fmap. exists b. by rewrite Hbs. }
  split.
  - intros r s. rewrite lookup_delete_blocks. case_decide; [done|]. intros Hr. split; [by eapply Hin|by apply Hp].
  - intros e He. rewrite lookup_delete_blocks, decide_False by by apply Hfresh. apply Hq.
    rewrite placed_cons. set_solver.
  - intros r s r'. rewrite !lookup_delete_blocks. case_decide as Hr1; [done|]. intros Hr Hc.
    destruct (Hk _ _ _ Hr Hc) as (s' & Hs' & Hle & Ha). exists s'. split; [|done].
    rewrite decide_False; [done|]. intros (b & -> & Hb)%list_elem_of_fmap.
    pose proof (sd_index_lt_tail _ _ _ _ Hs (Hin _ _ Hr Hr1)) as Hlt. cbn in Hlt.
    assert ((bst_commit_index s', bst_block s') = (sd_index sd, b)) as [= Hi' _].
    { apply (placed_unique _ _ _ Hd); [by apply (Hp (reference b))|apply elem_of_placed; exists sd; set_solver|].
      cbn. by apply (Hp (reference b)). }
    lia.
  - intros r s. rewrite lookup_delete_blocks. case_decide; [done|]. apply Hv.
Qed.

(** Removing a commit that was not linked. *)
Lemma blocks_ok_pop_nil sd m :
  blocks_ok [] m → blocks_ok [] (foldl (λ m b, delete (reference b) m) m (sd_blocks sd)).
Proof.
  intros [Hp _ _ _]. assert (m = ∅) as ->.
  { apply map_empty. intros r. apply eq_None_not_Some. intros [s Hs]. destruct (Hp _ _ Hs) as [Hin _].
    by apply elem_of_nil in Hin. }
  replace (foldl _ _ _) with (∅ : blocks_map); [apply blocks_ok_empty|].
  symmetry. apply map_empty. intros r. rewrite lookup_delete_blocks, lookup_empty. by case_decide.
Qed.

(** *** Linking the blocks of a commit *)

Lemma add_child_idemp r s : add_child r (add_child r s) = add_child r s.
Proof. unfold add_child. cbn. f_equal. set_solver. Qed.

Lemma lookup_add_children (l : list BlockRef) (m : blocks_map) r0 r :
  foldl (λ m ancestor, alter (add_child r0) ancestor m) m l !! r =
  (λ s, if decide (r ∈ l) then add_child r0 s else s) <$> m !! r.
Proof.
  revert m. induction l as [|x l IH]; intros m; cbn [foldl].
  - destruct (m !! r); cbn; [|done]. by rewrite decide_False by set_solver.
  - rewrite IH. destruct (decide (x = r)) as [->|Hne].
    + rewrite lookup_alter_eq, <- option_fmap_compose. destruct (m !! r) as [s|]; cbn; [|done]. f_equal.
      rewrite (decide_True (P:=_ ∈ _ :: _)) by apply list_elem_of_here. case_decide; [by rewrite add_child_idemp|done].
    + rewrite lookup_alter_ne by done. destruct (m !! r) as [s|]; cbn; [|done]. f_equal. apply decide_ext. set_solver.
Qed.

Lemma link_block_ok P m idx b :
  blocks_ok P m → (∀ e, e ∈ P → (e.1 ≤ idx)%N) → reference b ∉ (λ e, reference e.2) <$> P →
  blocks_ok (P ++ [(idx, b)]) (link_block idx m b).
Proof.
  intros [Hp Hq Hk Hv] Hidx Hnew. unfold link_block. set (m1 := foldl _ m (ancestors b)).
  assert (m !! reference b = None) as Hnone.
  { apply eq_None_not_Some. intros [s Hs]. destruct (Hp _ _ Hs) as [Hin Hr]. apply Hnew. rewrite <- Hr.
    apply list_elem_of_fmap. by exists (bst_commit_index s, bst_block s). }
  assert (∀ r, m1 !! r = (λ s, if decide (r ∈ ancestors b) then add_child (reference b) s else s) <$> m !! r) as Hm1
    by (intros; apply lookup_add_children).
  rewrite Hm1, Hnone. cbn [fmap option_fmap option_map].
  assert (∀ r s, <[reference b := BlockState_new b idx]> m1 !! r = Some s →
    (r = reference b ∧ s = BlockState_new b idx) ∨
    (r ≠ reference b ∧ ∃ s0, m !! r = Some s0 ∧ bst_block s = bst_block s0 ∧ bst_commit_index s = bst_commit_index s0 ∧
      bst_reject_votes s = bst_reject_votes s0 ∧
      ∀ r', r' ∈ bst_children s → r' ∈ bst_children s0 ∨ r' = reference b ∧ r ∈ ancestors b)) as Hinv.
  { intros r s [[<- <-]|[Hne Hr]]%lookup_insert_Some; [by left|right; split; [done|]]. rewrite Hm1 in Hr.
    destruct (m !! r) as [s0|]; [|done]. injection Hr as <-. exists s0. case_decide; cbn; set_solver. }
  split.
  - intros r s [[-> ->]|(Hne & s0 & Hs0 & -> & -> & _)]%Hinv; [set_solver|]. destruct (Hp _ _ Hs0). set_solver.
  - intros e [He| ->%list_elem_of_singleton]%elem_of_app; [|cbn; rewrite lookup_insert_eq; by eauto].
    destruct (Hq e He) as [s Hs]. rewrite lookup_insert_ne by congruence. rewrite Hm1, Hs. by eauto.
  - intros r s r' [[-> ->]|(Hne & s0 & Hs0 & _ & Hi & _ & Hch)]%Hinv Hr'; [cbn in Hr'; set_solver|].
    destruct (Hch r' Hr') as [Hc|[-> Ha]].
    + destruct (Hk _ _ _ Hs0 Hc) as (t & Ht & Hle & Ha). rewrite lookup_insert_ne by congruence.
      rewrite Hm1, Ht, Hi. eexists. split; [done|]. by case_decide.
    + exists (BlockState_new b idx). rewrite lookup_insert_eq. split_and!; [done| |done]. cbn. rewrite Hi.
      by apply (Hidx (bst_commit_index s0, bst_block s0)), (Hp _ _ Hs0).
  - intros r s [[-> ->]|(Hne & s0 & Hs0 & -> & _ & -> & _)]%Hinv; [done|]. by eapply Hv.
Qed.

Lemma link_blocks_ok P m idx l :
  blocks_ok P m → (∀ e, e ∈ P → (e.1 ≤ idx)%N) →
  NoDup ((λ e, reference e.2) <$> (P ++ (pair idx <$> l))) →
  blocks_ok (P ++ (pair idx <$> l)) (foldl (link_block idx) m l).
Proof.
  revert P m. induction l as [|b l IH]; intros P m Hm Hidx Hnd; cbn [foldl fmap list_fmap] in *; [by rewrite app_nil_r|].
  rewrite (cons_middle (idx, b)), app_assoc in Hnd |- *. apply IH; [|set_solver|done].
  apply link_block_ok; [done|done|]. rewrite !fmap_app in Hnd. apply NoDup_app in Hnd as (Hnd & _ & _).
  apply NoDup_app in Hnd as (_ & Hnd & _). intros Hin. by apply (Hnd _ Hin), list_elem_of_here.
Qed.

Lemma blocks_ok_perm P Q m : P ≡ₚ Q → blocks_ok P m → blocks_ok Q m.
Proof.
  intros HPQ [Hp Hq Hk Hv]. split; [|by setoid_rewrite <- HPQ|done|done].
  intros r s Hr. rewrite <- HPQ. by apply Hp.
Qed.

Lemma link_commit_ok c L sd m :
  stream_ok c (L ++ [sd]) → blocks_ok (placed L) m →
  blocks_ok (placed (L ++ [sd])) (foldl (link_block (sd_index sd)) m (stable_sort block_round_le (sd_blocks sd))).
Proof.
  intros Hs Hm. set (l := stable_sort _ _). assert (l ≡ₚ sd_blocks sd) as Hl by apply stable_sort_perm.
  assert (placed (L ++ [sd]) = placed L ++ (pair (sd_index sd) <$> sd_blocks sd)) as Hpl
    by (rewrite placed_app, placed_cons; cbn; by rewrite app_nil_r).
  apply (blocks_ok_perm (placed L ++ (pair (sd_index sd) <$> l))); [by rewrite Hl, Hpl|].
  apply link_blocks_ok; [done| |rewrite Hl, <- Hpl; apply Hs].
  intros e (x & [i Hi]%list_elem_of_lookup & -> & _)%elem_of_placed.
  destruct L as [|sd0 L]; [done|]. apply lookup_lt_Some in Hi as Hlt.
  rewrite (so_index _ _ Hs i sd0 x eq_refl) by by apply lookup_app_l_Some.
  rewrite (so_index _ _ Hs (length (sd0 :: L)) sd0 sd eq_refl) by by apply list_lookup_middle. lia.
Qed.

(** *** The origin descendants *)

Definition blocks_total (c : Committee) (m : blocks_map) : Prop :=
  ∀ r s, m !! r = Some s → reference (bst_block s) = r ∧ block_ok c (bst_block s).

Lemma append_origin_total c fuel committed r m :
  blocks_total c m → (N.to_nat (ref_round r) < fuel)%nat →
  ∃ m', append_origin fuel committed r m = Done m' ∧ strip <$> m = strip <$> m'.
Proof.
  revert r m. induction fuel as [|fuel IH]; intros r m Hm Hf; [lia|]. cbn [append_origin].
  case_decide; [|by eauto]. destruct (m !! r) as [s|] eqn:Hr; [|by eauto].
  destruct (Hm _ _ Hr) as [Href [_ (next & Hn & Hlt) _]]. rewrite Hn. cbn [unwrap]. run_bind.
  assert (strip <$> m = strip <$> <[r := push_origin_descendant committed s]> m) as Hst.
  { rewrite fmap_insert. symmetry. apply insert_id. by rewrite lookup_fmap, Hr. }
  destruct (IH next (<[r := push_origin_descendant committed s]> m)) as (m' & -> & Hm').
  - intros r' s' [[<- <-]|[_ Hr']]%lookup_insert_Some; [exact (Hm r s Hr)|by apply Hm].
  - rewrite <- Href in Hf. cbn in Hf. lia.
  - exists m'. split; [done|]. by rewrite Hst.
Qed.

Lemma blocks_ok_total c L m : stream_ok c L → blocks_ok (placed L) m → blocks_total c m.
Proof.
  intros Hs [Hp _ _ _] r s Hr. destruct (Hp _ _ Hr) as [(sd & Hsd & _ & Hb)%elem_of_placed Href]. split; [done|].
  by eapply sk_blocks; [apply Hs|].
Qed.

Lemma append_origin_blocks_total c L m l :
  stream_ok c L → blocks_ok (placed L) m → (∀ b, b ∈ l → ∃ i, (i, b) ∈ placed L) →
  ∃ m', for_each append_origin_block m l = Done m' ∧ blocks_ok (placed L) m'.
Proof.
  intros Hs Hm Hl. apply (for_each_total (blocks_ok (placed L))); [done|]. clear m Hm. intros m b Hb Hm.
  destruct (Hl b Hb) as [i Hi]. unfold append_origin_block.
  destruct (bk_present _ _ Hm _ Hi) as [s Hr]. cbn in Hr. rewrite Hr. cbn [unwrap]. run_bind.
  destruct (blocks_ok_total _ _ _ Hs Hm _ _ Hr) as [Href [_ (r & Hh & Hlt) _]]. rewrite Hh. cbn [unwrap]. run_bind.
  assert (round (bst_block s) = round b) as Hrd by (by injection Href).
  destruct (append_origin_total c (S (N.to_nat (round b))) (reference b) r m) as (m' & -> & Hm');
    [by eapply blocks_ok_total|lia|].
  exists m'. split; [done|]. by eapply blocks_ok_strip.
Qed.

(** ** Accept votes *)
Section accept.
Context (c : Committee) (Hc : committee_ok c).
Implicit Types m : gmap N (StakeAggregator QuorumThreshold).

(** Whether [T] may be the votes for [idx] after a block of [a] with rejects [X]. *)
Definition voted_once (a : N) (X : gset N) m (idx : N) (agg : StakeAggregator QuorumThreshold) : Prop :=
  ∃ agg0, m !! idx = Some agg0 ∧ (agg = agg0 ∨ (idx ∉ X) ∧ agg_ok c agg ∧ votes agg = {[a]} ∪ votes agg0).

Lemma accept_votes_loop a X m0 m new l :
  (a < Committee_size c)%N → (∀ idx agg, m0 !! idx = Some agg → agg_ok c agg) →
  (∀ e, e ∈ l → m0 !! e.1 = Some e.2) →
  (∀ idx agg, m !! idx = Some agg → voted_once a X m0 idx agg) →
  (∀ idx, idx ∈ new → (idx ∉ X) ∧ ∃ agg0, m0 !! idx = Some agg0 ∧ (quorum_threshold c ≤ set_stake c ({[a]} ∪ votes agg0))%N) →
  ∃ m' new', for_each (accept_vote c a X) (m, new) l = Done (m', new') ∧
    (∀ idx agg, m' !! idx = Some agg → voted_once a X m0 idx agg) ∧
    (∀ idx, idx ∈ new' → (idx ∉ X) ∧ ∃ agg0, m0 !! idx = Some agg0 ∧ (quorum_threshold c ≤ set_stake c ({[a]} ∪ votes agg0))%N).
Proof.
  intros Ha Hok. revert m new. induction l as [|[idx agg] l IH]; intros m new Hl Hm Hn; cbn [for_each]; [by eauto|].
  pose proof (Hl _ (list_elem_of_here _ _)) as Hidx. cbn in Hidx. unfold accept_vote at 2. case_decide as Hx.
  { run_bind. apply IH; auto with lists. }
  destruct (agg_add_spec c Hc agg a (Hok _ _ Hidx) Ha) as (agg' & -> & Hok' & Hv'). run_bind.
  apply IH; [by auto with lists| |].
  - intros i g [[<- <-]|[_ Hi]]%lookup_insert_Some; [|by apply Hm]. exists agg. split; [done|]. right. by rewrite Hv'.
  - intros i. rewrite is_threshold_spec. case_bool_decide as Hq; [|by apply Hn].
    intros [Hi| ->%list_elem_of_singleton]%elem_of_app; [by apply Hn|]. by eauto.
Qed.

Lemma delete_all_lookup {V} (l : list N) (m : gmap N V) i v :
  foldl (λ (M : gmap N V) index, delete index M) m l !! i = Some v → m !! i = Some v.
Proof.
  revert m. induction l as [|x l IH]; intros m; cbn [foldl]; [done|]. intros Hi%IH.
  by apply lookup_delete_Some in Hi as [_ ?].
Qed.

Lemma count_accepts_spec a X m :
  (a < Committee_size c)%N → (∀ idx agg, m !! idx = Some agg → agg_ok c agg) →
  ∃ m' new, count_accepts c a X m = Done (m', new) ∧
    (∀ idx agg, m' !! idx = Some agg → voted_once a X m idx agg) ∧
    (∀ idx, idx ∈ new → (idx ∉ X) ∧ ∃ agg0, m !! idx = Some agg0 ∧ (quorum_threshold c ≤ set_stake c ({[a]} ∪ votes agg0))%N).
Proof.
  intros Ha Hok. unfold count_accepts.
  destruct (accept_votes_loop a X m m [] (map_in_order N.le m) Ha Hok) as (m' & new & -> & Hm' & Hn).
  - intros [idx agg] He. by apply elem_of_map_in_order in He.
  - intros idx agg Hi. exists agg. by split; [|left].
  - set_solver.
  - run_bind. eexists _, _. split; [done|]. split; [|done]. intros idx agg Hi. by apply Hm', (delete_all_lookup new).
Qed.

End accept.

(** ** The traversal of the descendants of a pending block *)
Section traversal.
Context (c : Committee) (Hc : committee_ok c) (m : blocks_map) (gc_rounds : list (N * N)).
Context (p : BlockRef) (pidx : N).
Hypothesis m_total : blocks_total c m.
Hypothesis m_children : ∀ r s r', m !! r = Some s → r' ∈ bst_children s →
  ∃ s', m !! r' = Some s' ∧ (bst_commit_index s ≤ bst_commit_index s')%N.
Hypothesis p_author : (ref_author p < Committee_size c)%N.
Hypothesis gced_total : ∀ r s, m !! r = Some s → (pidx ≤ bst_commit_index s)%N →
  is_done (gced_transaction_votes_for_pending_block gc_rounds (ref_round p) pidx (bst_commit_index s)).

Definition child_of (r r' : BlockRef) : Prop := ∃ s, m !! r = Some s ∧ r' ∈ bst_children s.

(** A block in the map that descends from the pending block and does not reject transaction [idx] of it. *)
Definition accepter (idx : N) (r : BlockRef) : Prop :=
  tc child_of p r ∧ ∃ s, m !! r = Some s ∧ idx ∉ default ∅ (bst_reject_votes s !! p).

Definition accepters (idx : N) (X : gset N) : Prop := ∀ a, a ∈ X → ∃ r, ref_author r = a ∧ accepter idx r.

(** A quorum of authorities accepts the transaction. *)
Definition quorum_accepts (idx : N) : Prop := ∃ X, accepters idx X ∧ (quorum_threshold c ≤ set_stake c X)%N.

Definition reached (r : BlockRef) : Prop := tc child_of p r ∧ ∃ s, m !! r = Some s ∧ (pidx ≤ bst_commit_index s)%N.

Lemma reached_child r s r' : reached r → m !! r = Some s → r' ∈ bst_children s → reached r'.
Proof.
  intros (Htc & s0 & Hs0 & Hi) Hs Hr'. rewrite Hs in Hs0. injection Hs0 as <-. destruct (m_children _ _ _ Hs Hr') as (s' & Hs' & Hle).
  split; [|exists s'; split; [done|lia]]. eapply tc_r; [done|]. by exists s.
Qed.

Lemma traverse_spec fuel votes fin todo visited ignored :
  (size (dom m ∖ visited) < fuel)%nat → todo ## visited → visited ⊆ dom m →
  (∀ r, r ∈ todo → reached r) →
  (∀ idx agg, votes !! idx = Some agg → agg_ok c agg ∧ accepters idx (StakeAggregator.votes agg)) →
  (∀ idx, idx ∈ fin → quorum_accepts idx) →
  ∃ out, traverse c m gc_rounds p pidx fuel votes fin todo visited ignored = Done out ∧
    ∀ idx, idx ∈ out → quorum_accepts idx.
Proof.
  revert votes fin todo visited ignored. induction fuel as [|fuel IH]; intros votes fin todo visited ignored Hf Hd Hvis Htodo Hv Hfin; [lia|].
  cbn [traverse]. destruct (refs_first todo) as [r|] eqn:Hfirst; [|by eauto].
  apply set_first_Some in Hfirst as [Hr _]; try apply _. destruct (Htodo r Hr) as (Hdesc & s & Hs & Hidx).
  rewrite decide_False by set_solver. rewrite Hs. cbn [unwrap]. run_bind.
  destruct (gced_total r s Hs Hidx) as [gced ->]. run_bind.
  assert (r ∈ dom m) as Hdom by by eapply elem_of_dom_2.
  assert (size (dom m ∖ ({[r]} ∪ visited)) < fuel)%nat as Hf'.
  { enough (size (dom m ∖ ({[r]} ∪ visited)) < size (dom m ∖ visited))%nat by lia. apply subset_size. set_solver. }
  assert (∀ r', r' ∈ bst_children s → reached r') as Hch by (intros; by eapply reached_child; [apply Htodo|..]).
  case_decide; [apply IH; set_solver|]. destruct gced.
  { destruct (authority_valid c (ref_author p) p_author) as [x ->]. run_bind. apply IH; set_solver. }
  destruct (m_total _ _ Hs) as [Href [Hauth _ _]].
  destruct (count_accepts_spec c Hc (ref_author r) (default ∅ (bst_reject_votes s !! p)) votes) as (votes' & new & -> & Hv' & Hnew);
    [by rewrite <- Href|intros i g; apply Hv|]. run_bind.
  assert (∀ idx agg, votes !! idx = Some agg → idx ∉ default ∅ (bst_reject_votes s !! p) →
    accepters idx ({[ref_author r]} ∪ StakeAggregator.votes agg)) as Hadd.
  { intros idx agg Hi Hx a [->%elem_of_singleton|Ha]%elem_of_union; [exists r; split; [done|]; split; eauto|].
    by apply (Hv idx agg Hi). }
  assert (∀ idx, idx ∈ fin ++ new → quorum_accepts idx) as Hfin'.
  { intros idx [?|Hi]%elem_of_app; [by apply Hfin|]. destruct (Hnew idx Hi) as (Hx & agg & Ha & Hq).
    exists ({[ref_author r]} ∪ StakeAggregator.votes agg). eauto. }
  case_decide; [by eauto|]. apply IH; [done|set_solver|set_solver|set_solver| |done].
  intros idx agg' (agg & Hi & [->|(Hx & Hok & Heq)])%Hv'; [by apply Hv|]. split; [done|]. rewrite Heq. by apply Hadd.
Qed.

Lemma indirect_block_spec pending s :
  m !! p = Some s → bst_commit_index s = pidx →
  ∃ out, try_indirect_finalize_pending_transactions_in_block c m gc_rounds p pending = Done out ∧
    ∀ idx, idx ∈ out → quorum_accepts idx.
Proof.
  intros Hp Hi. unfold try_indirect_finalize_pending_transactions_in_block. case_decide; [exists []; split; [done|set_solver]|].
  rewrite Hp. cbn [unwrap]. run_bind. rewrite Hi. apply traverse_spec; [| |set_solver| | |set_solver].
  - rewrite difference_empty_L, size_dom. lia.
  - set_solver.
  - intros r Hr. destruct (m_children _ _ _ Hp Hr) as (s' & ? & ?). split; [apply tc_once; by exists s|].
    exists s'. split; [done|]. lia.
  - intros idx agg [_ <-]%lookup_gset_to_gmap_Some. split; [apply StakeAggregator_new_ok|]. intros a. cbn. set_solver.
Qed.

End traversal.

(** ** Why a transaction is finalized or rejected

    The evidence is the history of the processed commits, each with the state of
    the vote tracker at that time. *)
Abbreviation evidence := (list (VoteTrackerState * CommittedSubDag)).

Section causes.
Context (ctx : Context).
Implicit Types E : evidence.

Definition seen_blocks E : list VerifiedBlock := E.*2 ≫= sd_blocks.

Definition parent_link E (r r' : BlockRef) : Prop := ∃ b, b ∈ seen_blocks E ∧ reference b = r' ∧ r ∈ ancestors b.

(** Transaction [idx] of [r] is not among the votes of [b]. *)
Definition accepts_txn (b : VerifiedBlock) (r : BlockRef) (idx : N) : Prop :=
  idx ∉ default ∅ (bst_reject_votes (BlockState_new b 0) !! r).

(** A quorum of authorities has committed descendants of [r] that accept the transaction. *)
Definition accept_quorum E (r : BlockRef) (idx : N) : Prop :=
  ∃ X, (quorum_threshold (committee ctx) ≤ set_stake (committee ctx) X)%N ∧
    ∀ a, a ∈ X → ∃ b, b ∈ seen_blocks E ∧ author b = a ∧ tc (parent_link E) r (reference b) ∧ accepts_txn b r idx.

Definition accept_cause E (sd : CommittedSubDag) (r : BlockRef) (idx : N) : Prop :=
  (∃ vt l, vt ∈ E.*1 ∧ get_reject_votes vt r = Some l ∧ (idx ∉ l.*1) ∧
     (sd_round sd + 3 - gc_depth (protocol_config ctx) < ref_round r)%N) ∨
  accept_quorum E r idx.

Definition reject_cause E (sd : CommittedSubDag) (r : BlockRef) (idx : N) : Prop :=
  (∃ vt l s, vt ∈ E.*1 ∧ get_reject_votes vt r = Some l ∧ (idx, s) ∈ l ∧ (quorum_threshold (committee ctx) ≤ s)%N) ∨
  (∃ sd', sd' ∈ E.*2 ∧ (sd_round sd + 3 ≤ sd_round sd')%N).

Lemma seen_blocks_mono E E' : E ⊆ E' → seen_blocks E ⊆ seen_blocks E'.
Proof.
  intros HE b (sd & Hb & (e & -> & He)%list_elem_of_fmap)%list_elem_of_bind. apply list_elem_of_bind.
  exists e.2. split; [done|]. apply list_elem_of_fmap. by eauto.
Qed.

Lemma accept_quorum_mono E E' r idx : E ⊆ E' → accept_quorum E r idx → accept_quorum E' r idx.
Proof.
  intros HE (X & Hq & HX). exists X. split; [done|]. intros a Ha. destruct (HX a Ha) as (b & Hb & Hab & Hl & Hacc).
  exists b. split_and!; [by eapply seen_blocks_mono|done| |done].
  clear -Hl HE. induction Hl as [x y (d & ? & ? & ?)|x y z (d & ? & ? & ?) _ IH].
  - apply tc_once. exists d. split; [by eapply seen_blocks_mono|done].
  - eapply tc_l; [|done]. exists d. split; [by eapply seen_blocks_mono|done].
Qed.

Lemma fmap_mono {A B} (f : A → B) (l k : list A) : l ⊆ k → f <$> l ⊆ f <$> k.
Proof. intros Hlk x (y & -> & Hy)%list_elem_of_fmap. apply list_elem_of_fmap. by eauto. Qed.

Lemma accept_cause_mono E E' sd r idx : E ⊆ E' → accept_cause E sd r idx → accept_cause E' sd r idx.
Proof.
  intros HE [(vt & l & Hvt & ?)|?]; [left|right; by eapply accept_quorum_mono].
  exists vt, l. split; [|done]. by eapply fmap_mono.
Qed.

Lemma reject_cause_mono E E' sd r idx : E ⊆ E' → reject_cause E sd r idx → reject_cause E' sd r idx.
Proof.
  intros HE [(vt & l & s & Hvt & ?)|(sd' & Hsd & ?)]; [left; exists vt, l, s|right; exists sd'];
    (split; [|done]); by eapply fmap_mono.
Qed.

(** ** The state of a buffered commit *)
Implicit Types cs : CommitState.

Definition pend cs (r : BlockRef) : gset N := default ∅ (cs_pending_transactions cs !! r).
Definition rej cs (r : BlockRef) : gset N := default ∅ (cs_rejected_transactions cs !! r).

(** The pending blocks of a new commit. *)
Definition commit_blocks (sd : CommittedSubDag) : gmap BlockRef N :=
  foldl (λ m b, <[reference b := lengthN (transactions b)]> m) ∅ (sd_blocks sd).

Definition commit_refs (sd : CommittedSubDag) : gset BlockRef := list_to_set (reference <$> sd_blocks sd).

Record state_ok E cs : Prop := {
  ko_pending : dom (cs_pending_transactions cs) ⊆ commit_refs (cs_commit cs);
  ko_blocks : cs_pending_blocks cs = ∅ ∨ cs_pending_blocks cs = commit_blocks (cs_commit cs);
  ko_rejected : ∀ r idx, idx ∈ rej cs r → reject_cause E (cs_commit cs) r idx;
  ko_decided : cs_pending_blocks cs = ∅ → ∀ b idx, b ∈ sd_blocks (cs_commit cs) → (idx < lengthN (transactions b))%N →
    idx ∈ pend cs (reference b) ∨ idx ∈ rej cs (reference b) ∨ accept_cause E (cs_commit cs) (reference b) idx;
}.

Lemma state_ok_mono E E' cs : E ⊆ E' → state_ok E cs → state_ok E' cs.
Proof.
  intros HE [Hp Hb Hr Hd]. split; [done|done| |].
  - intros r idx Hi. by eapply reject_cause_mono; [|apply Hr].
  - intros He b idx Hb' Hi. destruct (Hd He b idx Hb' Hi) as [?|[?|?]]; [by left|by right; left|].
    right. right. by eapply accept_cause_mono.
Qed.

(** Progress on a commit: pending transactions stay, are rejected or are finalized. *)
Record decides E cs cs' : Prop := {
  de_commit : cs_commit cs' = cs_commit cs;
  de_blocks : cs_pending_blocks cs' = cs_pending_blocks cs;
  de_dom : dom (cs_pending_transactions cs') ⊆ dom (cs_pending_transactions cs);
  de_pending : ∀ r idx, idx ∈ pend cs r →
    idx ∈ pend cs' r ∨ idx ∈ rej cs' r ∨ accept_cause E (cs_commit cs) r idx;
  de_keeps : ∀ r, rej cs r ⊆ rej cs' r;
  de_rejects : ∀ r idx, idx ∈ rej cs' r → idx ∈ rej cs r ∨ reject_cause E (cs_commit cs) r idx;
}.

#[export] Instance decides_refl E : Reflexive (decides E).
Proof. intros cs. split; set_solver. Qed.

#[export] Instance decides_trans E : Transitive (decides E).
Proof.
  intros cs1 cs2 cs3 [H1 H2 H3 H4 H5 H6] [K1 K2 K3 K4 K5 K6]. rewrite H1 in *. split; [congruence|congruence|set_solver| |set_solver|].
  - intros r idx [Hi|[Hi|?]]%H4; [by apply K4|right; left; by apply K5|by right; right].
  - intros r idx [Hi|?]%K6; [by apply H6|by right].
Qed.

Lemma decides_ok E cs cs' : decides E cs cs' → state_ok E cs → state_ok E cs'.
Proof.
  intros [H1 H2 H3 H4 H5 H6] [Hp Hb Hr Hd]. split; rewrite ?H1, ?H2; [set_solver|done| |].
  - intros r idx [Hi|?]%H6; [by apply Hr|done].
  - intros He b idx Hb' Hi. destruct (Hd He b idx Hb' Hi) as [Hpd|[?|?]];
      [by apply H4|right; left; by apply H5|by right; right].
Qed.

(** A loop of progress steps. *)
Lemma decides_foldl {A} E (f : CommitState → A → CommitState) (Q : A → Prop) l cs :
  (∀ cs' x, x ∈ l → Q x → cs_commit cs' = cs_commit cs → decides E cs' (f cs' x)) → (∀ x, x ∈ l → Q x) →
  decides E cs (foldl f cs l).
Proof.
  intros Hf HQ. enough (∀ cs', decides E cs cs' → decides E cs (foldl f cs' l)) as Hen by by apply Hen.
  induction l as [|x l IH]; intros cs' Hcs; cbn [foldl]; [done|].
  apply IH; [by auto with lists|by auto with lists|]. etrans; [done|].
  apply Hf; [apply list_elem_of_here|apply HQ, list_elem_of_here|apply Hcs].
Qed.

End causes.
