(* ===== verification/CommitFinalizerSafety.v ===== *)
(** * Runs of the commit finalizer

    One lemma for every step of [process_commit], the invariant of the whole
    finalizer, and the theorems on its runs. *)

From S2P Require Import Prelude Committee Block StakeAggregator ThresholdClock Commit Store LeaderScoring.
From S2P Require Import DagState DagInvariant DagDurability TransactionVoteTracker CommitFinalizer CommitFinalizerSpec.

(** ** Updates of the transactions of one block *)
Implicit Types cs : CommitState.

Lemma remove_all (l : list N) (X : gset N) : foldl (λ X t, X ∖ {[t]}) X l = X ∖ list_to_set l.
Proof. revert X. induction l as [|x l IH]; intros X; cbn [foldl]; [set_solver|]. rewrite IH. set_solver. Qed.

Lemma pend_remove cs r l r' :
  pend (remove_pending_transactions cs r l) r' = if decide (r' = r) then pend cs r ∖ list_to_set l else pend cs r'.
Proof.
  unfold remove_pending_transactions, pend. destruct (cs_pending_transactions cs !! r) as [X|] eqn:HX.
  2:{ case_decide; subst; [rewrite HX; set_solver|done]. }
  rewrite remove_all. cbn. destruct (decide (r' = r)) as [->|Hr].
  - case_decide as He; [by rewrite lookup_delete_eq, He|by rewrite lookup_insert_eq].
  - case_decide; [by rewrite lookup_delete_ne|by rewrite lookup_insert_ne].
Qed.

Lemma remove_same cs r l :
  let cs' := remove_pending_transactions cs r l in
  cs_commit cs' = cs_commit cs ∧ cs_pending_blocks cs' = cs_pending_blocks cs ∧
  cs_rejected_transactions cs' = cs_rejected_transactions cs ∧
  dom (cs_pending_transactions cs') ⊆ dom (cs_pending_transactions cs).
Proof.
  unfold remove_pending_transactions. destruct (cs_pending_transactions cs !! r) as [X|] eqn:HX; [|done].
  split_and!; [done|done|done|]. apply elem_of_dom_2 in HX. cbn. case_decide; [rewrite dom_delete_L|rewrite dom_insert_L]; set_solver.
Qed.

Lemma rej_add_rejected cs r X r' :
  rej (add_rejected r X cs) r' = if decide (r' = r) then rej cs r ∪ X else rej cs r'.
Proof.
  unfold rej, add_rejected, extend_at. cbn. case_decide; [subst; by rewrite lookup_insert_eq|by rewrite lookup_insert_ne].
Qed.

Lemma pend_add_pending cs r X r' :
  pend (add_pending r X cs) r' = if decide (r' = r) then pend cs r ∪ X else pend cs r'.
Proof.
  unfold pend, add_pending, extend_at. cbn. case_decide; [subst; by rewrite lookup_insert_eq|by rewrite lookup_insert_ne].
Qed.

Section steps.
Context (ctx : Context).
Implicit Types E : evidence.

Lemma finalize_decides E cs r l :
  (∀ idx, idx ∈ l → accept_cause ctx E (cs_commit cs) r idx) → decides ctx E cs (remove_pending_transactions cs r l).
Proof.
  intros Hl. destruct (remove_same cs r l) as (H1 & H2 & H3 & H4). unfold rej. split; [done|done|done| | |].
  - intros r' idx Hi. rewrite pend_remove. case_decide; [|by left]. subst r'.
    destruct (decide (idx ∈ l)); [right; right; by apply Hl|left; set_solver].
  - intros r'. unfold rej. by rewrite H3.
  - intros r' idx. unfold rej. rewrite H3. by left.
Qed.

Lemma reject_decides E cs r l :
  (∀ idx, idx ∈ l → reject_cause ctx E (cs_commit cs) r idx) →
  decides ctx E cs (add_rejected r (list_to_set l) (remove_pending_transactions cs r l)).
Proof.
  intros Hl. destruct (remove_same cs r l) as (H1 & H2 & H3 & H4).
  assert (∀ r', rej (remove_pending_transactions cs r l) r' = rej cs r') as Hrej by (intros; unfold rej; by rewrite H3).
  split; [done|done|done| | |].
  - intros r' idx Hi. rewrite rej_add_rejected, !Hrej. change (pend (add_rejected _ _ ?x)) with (pend x).
    rewrite pend_remove. case_decide; [|by left]. subst r'.
    destruct (decide (idx ∈ l)); [right; left; set_solver|left; set_solver].
  - intros r'. rewrite rej_add_rejected, !Hrej. case_decide; set_solver.
  - intros r' idx. rewrite rej_add_rejected, !Hrej. case_decide; [subst r'|by left].
    intros [?|Hi]%elem_of_union; [by left|right; apply Hl; set_solver].
Qed.

(** Rejecting everything that is pending. *)
Lemma reject_all_decides E cs l :
  (∀ r idx, reject_cause ctx E (cs_commit cs) r idx) →
  (∀ r X, cs_pending_transactions cs !! r = Some X → (r, X) ∈ l) → 
  let cs' := foldl (λ cs '(r, X), add_rejected r X cs) (set_pending_transactions ∅ cs) l in
  decides ctx E cs cs' ∧ cs_pending_transactions cs' = ∅.
Proof.
  intros Hcause Hl cs'.
  assert (∀ l cs0, let cs1 := foldl (λ cs '(r, X), add_rejected r X cs) cs0 l in
    cs_commit cs1 = cs_commit cs0 ∧ cs_pending_blocks cs1 = cs_pending_blocks cs0 ∧
    cs_pending_transactions cs1 = cs_pending_transactions cs0 ∧ (∀ r, rej cs0 r ⊆ rej cs1 r) ∧
    ∀ r X, (r, X) ∈ l → X ⊆ rej cs1 r) as Hloop.
  { clear. induction l as [|[r X] l IH]; intros cs0; cbn [foldl]; [split_and!; set_solver|].
    destruct (IH (add_rejected r X cs0)) as (H1 & H2 & H3 & H4 & H5). split_and!; [done|done|done| |].
    - intros r'. etrans; [|apply H4]. rewrite rej_add_rejected. case_decide; set_solver.
    - intros r' Y [[= -> ->]|Hin]%elem_of_cons; [|by apply H5]. etrans; [|apply H4].
      rewrite rej_add_rejected, decide_True by done. set_solver. }
  destruct (Hloop l (set_pending_transactions ∅ cs)) as (H1 & H2 & H3 & H4 & H5). fold cs' in H1, H2, H3, H4, H5.
  split; [|done]. split; [done|done|rewrite H3; set_solver| |done|].
  - intros r idx Hi. right. left. unfold pend in Hi. destruct (cs_pending_transactions cs !! r) as [X|] eqn:HX; [|set_solver].
    by apply (H5 r X (Hl _ _ HX)).
  - intros r idx _. right. apply Hcause.
Qed.

(** ** Direct finalization *)

Lemma direct_votes_spec E cs r l k vt :
  vt ∈ E.*1 → get_reject_votes vt r = Some l → (∀ e, e ∈ k → e ∈ l) →
  let cs' := foldl (direct_vote (committee ctx) r) cs k in
  cs_commit cs' = cs_commit cs ∧ cs_pending_blocks cs' = cs_pending_blocks cs ∧
  dom (cs_pending_transactions cs') ⊆ {[r]} ∪ dom (cs_pending_transactions cs) ∧
  (∀ r', pend cs r' ⊆ pend cs' r') ∧ (∀ r', rej cs r' ⊆ rej cs' r') ∧
  (∀ r' idx, idx ∈ rej cs' r' → idx ∈ rej cs r' ∨ reject_cause ctx E (cs_commit cs) r' idx) ∧
  (∀ idx, idx ∈ k.*1 → idx ∈ pend cs' r ∨ idx ∈ rej cs' r).
Proof.
  intros Hvt Hl. revert cs. induction k as [|[idx s] k IH]; intros cs Hsub; cbn [foldl]; [split_and!; set_solver|].
  destruct (IH (direct_vote (committee ctx) r cs (idx, s))) as (H1 & H2 & H3 & H4 & H5 & H6 & H7); [by auto with lists|].
  assert (∀ r', pend cs r' ⊆ pend (direct_vote (committee ctx) r cs (idx, s)) r') as Hp.
  { intros r'. cbn. case_decide; [rewrite pend_add_pending; case_decide; set_solver|done]. }
  assert (∀ r', rej cs r' ⊆ rej (direct_vote (committee ctx) r cs (idx, s)) r') as Hr.
  { intros r'. cbn. case_decide; [done|]. rewrite rej_add_rejected; case_decide; set_solver. }
  assert (cs_commit (direct_vote (committee ctx) r cs (idx, s)) = cs_commit cs) as Hcm by (cbn; by case_decide).
  split_and!; [by rewrite H1| | |set_solver|set_solver| |].
  - rewrite H2. cbn. by case_decide.
  - etrans; [exact H3|]. cbn. case_decide; cbn; [unfold extend_at; rewrite dom_insert_L|]; set_solver.
  - intros r' i Hi. rewrite Hcm in H6. destruct (H6 r' i Hi) as [Hi'|?]; [|by right]. revert Hi'. cbn. case_decide as Hq; [by left|].
    rewrite rej_add_rejected. case_decide; [|by left]. subst r'. intros [?| ->%elem_of_singleton]%elem_of_union; [by left|].
    right. left. exists vt, l, s. split_and!; [done|done| |lia]. apply Hsub, list_elem_of_here.
  - intros i [->|Hi]%elem_of_cons; [|by apply H7]. cbn. cbn in Hp, Hr, H4, H5. case_decide.
    + left. apply (H4 r). rewrite pend_add_pending, decide_True by done. set_solver.
    + right. apply (H5 r). rewrite rej_add_rejected, decide_True by done. set_solver.
Qed.

(** New pending and rejected transactions. *)
Record grows E cs cs' : Prop := {
  gr_commit : cs_commit cs' = cs_commit cs;
  gr_blocks : cs_pending_blocks cs' = cs_pending_blocks cs;
  gr_pend : ∀ r, pend cs r ⊆ pend cs' r;
  gr_rej : ∀ r, rej cs r ⊆ rej cs' r;
  gr_cause : ∀ r idx, idx ∈ rej cs' r → idx ∈ rej cs r ∨ reject_cause ctx E (cs_commit cs) r idx;
}.

Lemma grows_trans E cs1 cs2 cs3 : grows E cs1 cs2 → grows E cs2 cs3 → grows E cs1 cs3.
Proof.
  intros [H1 H2 H3 H4 H5] [K1 K2 K3 K4 K5]. rewrite H1 in *. split; [congruence|congruence|set_solver|set_solver|].
  intros r idx [?|?]%K5; [by apply H5|by right].
Qed.

Definition decided E cs (b : VerifiedBlock) : Prop := ∀ idx, (idx < lengthN (transactions b))%N →
  idx ∈ pend cs (reference b) ∨ idx ∈ rej cs (reference b) ∨ accept_cause ctx E (cs_commit cs) (reference b) idx.

Lemma grows_decided E cs cs' b : grows E cs cs' → decided E cs b → decided E cs' b.
Proof.
  intros [H1 _ H3 H4 _] Hd idx Hi. rewrite H1. destruct (Hd idx Hi) as [?|[?|?]];
    [left; by apply H3|right; left; by apply H4|by right; right].
Qed.

Lemma direct_block_spec E cs vt b :
  vt ∈ E.*1 → block_ok (committee ctx) b → is_Some (get_reject_votes vt (reference b)) →
  ∃ cs', direct_block (committee ctx) vt (sd_round (cs_commit cs) + 3 - gc_depth (protocol_config ctx)) cs
      (reference b, lengthN (transactions b)) = Done cs' ∧
    grows E cs cs' ∧ decided E cs' b ∧
    dom (cs_pending_transactions cs') ⊆ {[reference b]} ∪ dom (cs_pending_transactions cs).
Proof.
  intros Hvt [Ha _ Hn] [l Hl]. unfold direct_block. case_decide as Hgc.
  - destruct (authority_valid (committee ctx) (ref_author (reference b)) Ha) as [x ->]. run_bind.
    eexists. split; [done|]. rewrite N.mod_small by done. split_and!.
    + split; [done|done| |done|by left]. intros r. rewrite pend_add_pending. case_decide; set_solver.
    + intros idx Hi. left. rewrite pend_add_pending, decide_True by done. apply elem_of_union. right.
      apply elem_of_list_to_set, elem_of_rangeN. lia.
    + cbn. unfold extend_at. rewrite dom_insert_L. set_solver.
  - rewrite Hl. cbn [unwrap]. run_bind.
    destruct (authority_valid (committee ctx) (ref_author (reference b)) Ha) as [x ->]. run_bind.
    destruct (direct_votes_spec E cs (reference b) l l vt Hvt Hl) as (H1 & H2 & H3 & H4 & H5 & H6 & H7); [done|].
    eexists. split; [done|]. split_and!; [by split| |done].
    intros idx Hi. destruct (decide (idx ∈ l.*1)) as [Hin|Hin]; [destruct (H7 idx Hin); tauto|].
    right. right. rewrite H1. left. exists vt, l. split_and!; [done|done|done|]. lia.
Qed.

Lemma direct_blocks_spec E cs vt l :
  vt ∈ E.*1 → (∀ b, b ∈ l → block_ok (committee ctx) b ∧ is_Some (get_reject_votes vt (reference b))) →
  ∃ cs', for_each (direct_block (committee ctx) vt (sd_round (cs_commit cs) + 3 - gc_depth (protocol_config ctx))) cs
      ((λ b, (reference b, lengthN (transactions b))) <$> l) = Done cs' ∧
    grows E cs cs' ∧ (∀ b, b ∈ l → decided E cs' b) ∧
    dom (cs_pending_transactions cs') ⊆ list_to_set (reference <$> l) ∪ dom (cs_pending_transactions cs).
Proof.
  intros Hvt. revert cs. induction l as [|b l IH]; intros cs Hl; cbn [for_each fmap list_fmap].
  - exists cs. split_and!; [done|split; set_solver|set_solver|set_solver].
  - destruct (Hl b (list_elem_of_here _ _)) as [Hb Hv].
    destruct (direct_block_spec E cs vt b Hvt Hb Hv) as (cs1 & -> & Hg1 & Hd1 & Hdom1). run_bind.
    destruct (IH cs1) as (cs2 & Hrun & Hg2 & Hd2 & Hdom2); [by auto with lists|].
    rewrite (gr_commit _ _ _ Hg1) in Hrun. exists cs2. rewrite Hrun. split_and!; [done|by eapply grows_trans| |set_solver].
    intros b' [->|Hb']%elem_of_cons; [by eapply grows_decided|by apply Hd2].
Qed.

(** The entries of the map of pending blocks. *)
Lemma insert_all_lookup {A V} (f : A → BlockRef) (g : A → V) l r n :
  (foldl (λ m b, <[f b := g b]> m) ∅ l : gmap BlockRef V) !! r = Some n → ∃ b, b ∈ l ∧ f b = r ∧ g b = n.
Proof.
  induction l as [|x l IH] using rev_ind; cbn [foldl]; [by rewrite lookup_empty|]. rewrite foldl_app. cbn.
  intros [[<- <-]|[_ Hr]]%lookup_insert_Some; [exists x; set_solver|]. destruct (IH Hr) as (b & ? & ?). exists b. set_solver.
Qed.

Lemma insert_all_dom {A V} (f : A → BlockRef) (g : A → V) l :
  dom (foldl (λ m b, <[f b := g b]> m) ∅ l : gmap BlockRef V) = list_to_set (f <$> l).
Proof.
  induction l as [|x l IH] using rev_ind; cbn [foldl]; [set_solver|]. rewrite foldl_app, fmap_app. cbn.
  rewrite dom_insert_L, IH, list_to_set_app_L. set_solver.
Qed.

Definition unique_refs (sd : CommittedSubDag) : Prop :=
  ∀ b b', b ∈ sd_blocks sd → b' ∈ sd_blocks sd → reference b = reference b' → b = b'.

Lemma stream_unique c L sd : stream_ok c L → sd ∈ L → unique_refs sd.
Proof.
  intros Hs Hsd b b' Hb Hb' Heq.
  assert ((sd_index sd, b) = (sd_index sd, b')) as [= ?]; [|done].
  apply (placed_unique L); [apply Hs|apply elem_of_placed; by eauto..|done].
Qed.

(** The pending blocks are visited in the order of their references. *)
Lemma commit_entries sd :
  unique_refs sd →
  ∃ l, entries_in_order (commit_blocks sd) = (λ b, (reference b, lengthN (transactions b))) <$> l ∧
    ∀ b, b ∈ l ↔ b ∈ sd_blocks sd.
Proof.
  intros Hu. set (F := λ b, (reference b, lengthN (transactions b))).
  assert (∀ e, e ∈ entries_in_order (commit_blocks sd) ↔ ∃ b, b ∈ sd_blocks sd ∧ F b = e) as He.
  { intros [r n]. rewrite elem_of_map_in_order. unfold commit_blocks. split.
    - intros (b & ? & <- & <-)%insert_all_lookup. by exists b.
    - intros (b & Hb & [= <- <-]). assert (reference b ∈ dom (commit_blocks sd)) as [n Hn]%elem_of_dom.
      { unfold commit_blocks. rewrite (insert_all_dom reference). apply elem_of_list_to_set, list_elem_of_fmap. by eauto. }
      destruct (insert_all_lookup _ _ _ _ _ Hn) as (b' & Hb' & Hr & Hl). unfold commit_blocks in Hn. rewrite Hn.
      by rewrite (Hu b' b Hb' Hb Hr) in Hl; subst n. }
  assert (∀ k : list (BlockRef * N), (∀ e, e ∈ k → ∃ b, b ∈ sd_blocks sd ∧ F b = e) →
    ∃ l, k = F <$> l ∧ ∀ b, b ∈ l → b ∈ sd_blocks sd) as Hex.
  { induction k as [|e k IH]; intros Hk; [exists []; split; [done|set_solver]|].
    destruct IH as (l & -> & Hl); [by auto with lists|]. destruct (Hk e (list_elem_of_here _ _)) as (b & Hb & <-).
    exists (b :: l). split; [done|]. set_solver. }
  destruct (Hex (entries_in_order (commit_blocks sd))) as (l & Hl & Hsub); [intros e; apply He|].
  exists l. split; [done|]. intros b. split; [by apply Hsub|]. intros Hb.
  assert (F b ∈ F <$> l) as (b' & HF & Hb')%list_elem_of_fmap; [rewrite <- Hl; apply He; by eauto|].
  by rewrite (Hu b b' Hb (Hsub _ Hb') (f_equal fst HF)).
Qed.

End steps.

(** ** The steps of the finalizer *)
Section finalizer.
Context {S : Type} `{Store S}.
Context (ctx : Context) (Hc : committee_ok (committee ctx)) (Hq : (0 < quorum_threshold (committee ctx))%N).
Implicit Types ds : DagState S.
Implicit Types cf : CommitFinalizer.
Implicit Types vt : VoteTrackerState.
Implicit Types E : evidence.
Implicit Types L : list CommittedSubDag.

Definition commits (l : list CommitState) : list CommittedSubDag := cs_commit <$> l.

(** Commits that can be processed: the vote tracker knows their blocks. *)
Record ready vt L : Prop := {
  rd_stream : stream_ok (committee ctx) L;
  rd_votes : ∀ sd b, sd ∈ L → b ∈ sd_blocks sd → is_Some (get_reject_votes vt (reference b));
}.

Lemma ready_drop vt n L : ready vt L → ready vt (drop n L).
Proof.
  intros [Hs Hv]. split; [by apply stream_ok_drop|]. intros sd b Hsd. apply Hv.
  rewrite <- (take_drop n L). set_solver.
Qed.

Lemma commits_insert l i cs cs' :
  l !! i = Some cs → cs_commit cs' = cs_commit cs → commits (<[i := cs']> l) = commits l.
Proof.
  intros Hi Heq. unfold commits. rewrite list_fmap_insert. apply list_insert_id.
  by rewrite list_lookup_fmap, Hi, Heq.
Qed.

Lemma leader_depth c sd : sub_dag_ok c sd → (sd_round sd +₃₂ INDIRECT_REJECT_DEPTH) = (sd_round sd + 3)%N.
Proof. intros [_ _ _ Hr _]. by rewrite wrap_add_small. Qed.

Lemma commit_blocks_nonempty c sd : sub_dag_ok c sd → commit_blocks sd ≠ ∅.
Proof.
  intros [Hne _ _ _ _] He. assert (dom (commit_blocks sd) = ∅) as Hd by (by rewrite He, dom_empty_L).
  unfold commit_blocks in Hd. rewrite (insert_all_dom reference) in Hd. destruct (sd_blocks sd); [done|]. cbn in Hd. set_solver.
Qed.

Lemma try_direct_spec E ds vt cf i cs L :
  ds_context ds = ctx → cf_context cf = ctx → vt ∈ E.*1 → ready vt L → commits (cf_pending_commits cf) = L →
  cf_pending_commits cf !! i = Some cs → state_ok ctx E cs → cs_pending_blocks cs ≠ ∅ →
  ∃ cs', try_direct_finalize_commit ds vt cf i = Done (set_pending_commits (<[i := cs']> (cf_pending_commits cf)) cf) ∧
    cs_commit cs' = cs_commit cs ∧ state_ok ctx E cs' ∧ cs_pending_blocks cs' = ∅.
Proof.
  intros Hds Hcf Hvt [Hs Hv] HL Hi [Hpend Hblk Hrej _] Hne. destruct Hblk as [|Hblk]; [done|].
  assert (cs_commit cs ∈ L) as Hin by (rewrite <- HL; apply list_elem_of_fmap; eauto using list_elem_of_lookup_2).
  pose proof (so_commits _ _ Hs _ Hin) as Hok.
  unfold try_direct_finalize_commit. rewrite Hi. cbn [unwrap]. run_bind. rewrite rassert_true by done. run_bind.
  unfold calculate_gc_round. rewrite Hds, Hcf. change (cs_leader_round cs) with (sd_round (cs_commit cs)).
  rewrite (leader_depth _ _ Hok).
  destruct (commit_entries _ (stream_unique _ _ _ Hs Hin)) as (l & Hl & Hmem). rewrite Hblk, Hl.
  destruct (direct_blocks_spec ctx E (set_pending_blocks ∅ cs) vt l Hvt) as (cs' & Hrun & Hg & Hd & Hdom).
  { intros b Hb%Hmem. split; [by apply Hok|by eapply Hv]. }
  cbn [cs_commit set_pending_blocks] in Hrun. rewrite Hrun. run_bind. exists cs'. split; [done|].
  pose proof (gr_commit _ _ _ _ Hg) as Hcm. pose proof (gr_blocks _ _ _ _ Hg) as Hbl. cbn in Hcm, Hbl.
  split_and!; [done| |done]. split; [| |intros r idx Hr; rewrite Hcm|intros _ b idx Hb Hlt].
  - rewrite Hcm. etrans; [exact Hdom|]. cbn. apply union_least; [|done]. unfold commit_refs.
    intros r (b & -> & Hb%Hmem)%elem_of_list_to_set%list_elem_of_fmap. apply elem_of_list_to_set, list_elem_of_fmap. by eauto.
  - by left.
  - destruct (gr_cause _ _ _ _ Hg r idx Hr) as [Hr'|?]; [by apply Hrej|done].
  - rewrite Hcm in Hb. by apply Hd; [apply Hmem|].
Qed.

Lemma commits_last l last_sd :
  last (commits l) = Some last_sd → ∃ cs, last l = Some cs ∧ cs_commit cs = last_sd.
Proof.
  unfold commits. rewrite fmap_last. intros Hl. destruct (last l) as [x|]; [|done]. exists x. by injection Hl.
Qed.

Lemma commits_length l : length (commits l) = length l.
Proof. apply length_fmap. Qed.

Lemma commits_lookup l i cs : l !! i = Some cs → commits l !! i = Some (cs_commit cs).
Proof. intros Hi. unfold commits. by rewrite list_lookup_fmap, Hi. Qed.

(** The commits at least three leader rounds below the last one are processed. *)
Lemma direct_finalize_loop_spec E ds vt cf k L last_sd :
  ds_context ds = ctx → cf_context cf = ctx → vt ∈ E.*1 → ready vt L → commits (cf_pending_commits cf) = L →
  last L = Some last_sd → Forall (state_ok ctx E) (cf_pending_commits cf) → k ≤ length L →
  ∃ l', direct_finalize_loop ds vt (seq k (length L - k)) cf = Done (set_pending_commits l' cf) ∧
    commits l' = L ∧ Forall (state_ok ctx E) l' ∧ (∀ i, i < k → l' !! i = cf_pending_commits cf !! i) ∧
    ∀ i cs, l' !! i = Some cs → k ≤ i → (sd_round (cs_commit cs) + 3 ≤ sd_round last_sd)%N → cs_pending_blocks cs = ∅.
Proof.
  intros Hds Hcf Hvt Hrd HL Hlast Hok Hk. remember (length L - k) as n eqn:Hn.
  revert k cf Hcf HL Hok Hk Hn. induction n as [|n IH]; intros k cf Hcf HL Hok Hk Hn; cbn [seq direct_finalize_loop].
  { exists (cf_pending_commits cf). split_and!; [by destruct cf|done|done|done|].
    intros i cs Hi%lookup_lt_Some Hki. rewrite <- HL, commits_length in Hn, Hk. lia. }
  destruct (lookup_lt_is_Some_2 (cf_pending_commits cf) k) as [cs Hcs]; [rewrite <- HL, commits_length in Hn; lia|].
  rewrite Hcs. cbn [unwrap]. run_bind. pose proof (commits_lookup _ _ _ Hcs) as Hck. rewrite HL in Hck.
  assert (∀ cf1 cs1, cf_context cf1 = ctx → commits (cf_pending_commits cf1) = L →
    Forall (state_ok ctx E) (cf_pending_commits cf1) → cf_pending_commits cf1 !! k = Some cs1 → cs_pending_blocks cs1 = ∅ →
    cf_pending_commits cf1 = <[k := cs1]> (cf_pending_commits cf) → set_pending_commits (cf_pending_commits cf) cf1 = cf →
    ∃ l', direct_finalize_loop ds vt (seq (Datatypes.S k) n) cf1 = Done (set_pending_commits l' cf) ∧
      commits l' = L ∧ Forall (state_ok ctx E) l' ∧ (∀ i, i < k → l' !! i = cf_pending_commits cf !! i) ∧
      ∀ i cs, l' !! i = Some cs → k ≤ i → (sd_round (cs_commit cs) + 3 ≤ sd_round last_sd)%N → cs_pending_blocks cs = ∅) as Hnext.
  { intros cf1 cs1 Hcf1 HL1 Hok1 Hk1 He1 Hins Hset.
    destruct (IH (Datatypes.S k) cf1) as (l' & Hrun & HL' & Hok' & Hsame & Hdone); [done|done|done|lia|lia|].
    exists l'. split_and!; [rewrite Hrun, <- Hset; by destruct cf1|done|done| |].
    - intros i Hi. rewrite Hsame, Hins by lia. apply list_lookup_insert_ne. lia.
    - intros i cs' Hi Hle. destruct (decide (i = k)) as [->|]; [|apply (Hdone i cs' Hi); lia].
      rewrite Hsame, Hk1 in Hi by lia. by injection Hi as <-. }
  case_decide as He.
  { apply (Hnext cf cs); [done|done|done|done|done| |by destruct cf]. symmetry. by apply list_insert_id. }
  rewrite <- HL in Hlast. destruct (commits_last _ _ Hlast) as (lcs & Hlcs & Hlsd). rewrite Hlcs. cbn [unwrap]. run_bind.
  pose proof (rd_stream _ _ Hrd) as Hs.
  case_decide as Hbr.
  - exists (cf_pending_commits cf). split_and!; [by destruct cf|done|done|done|].
    intros i cs' Hi Hle Hr. destruct Hbr as [_ Hbr]. change (cs_leader_round cs) with (sd_round (cs_commit cs)) in Hbr.
    change DEFAULT_WAVE_LENGTH with INDIRECT_REJECT_DEPTH in Hbr.
    rewrite (leader_depth (committee ctx)) in Hbr by (apply Hs; by eapply list_elem_of_lookup_2).
    unfold cs_leader_round in Hbr. rewrite Hlsd in Hbr. change (ref_round (sd_leader last_sd)) with (sd_round last_sd) in Hbr.
    pose proof (commits_lookup _ _ _ Hi) as Hci. rewrite HL in Hci. pose proof (so_rounds _ _ Hs _ _ _ _ Hck Hci Hle). lia.
  - destruct (try_direct_spec E ds vt cf k cs L) as (cs' & -> & Hcm & Hok' & He');
      [done|done|done|done|done|done|by eapply Forall_lookup_1|done|]. run_bind.
    apply (Hnext _ cs'); cbn [cf_pending_commits set_pending_commits cf_context]; [done|by rewrite (commits_insert _ _ _ _ Hcs Hcm)|by apply Forall_insert| |done|done|by destruct cf].
    apply list_lookup_insert_eq. by eapply lookup_lt_Some.
Qed.

(** *** The first commit *)

Lemma late_rejects_spec E vt sd r X :
  vt ∈ E.*1 → is_Some (get_reject_votes vt r) →
  ∃ out, late_rejects (committee ctx) vt (r, X) = Done (r, out) ∧ ∀ idx, idx ∈ out → reject_cause ctx E sd r idx.
Proof.
  intros Hvt [l Hl]. unfold late_rejects. rewrite Hl. cbn [unwrap]. run_bind. eexists. split; [done|].
  intros idx [Hs _]%list_elem_of_filter. destruct (_ !! idx) as [s|] eqn:Hi; [|cbn in Hs; lia]. cbn in Hs.
  left. exists vt, l, s. split_and!; [done|done| |lia]. clear -Hi.
  induction l as [|[i t] l IH] using rev_ind; cbn [foldl] in Hi; [by rewrite lookup_empty in Hi|].
  rewrite foldl_app in Hi. cbn in Hi. apply lookup_insert_Some in Hi as [[-> ->]|[_ Hi]]; [set_solver|].
  apply elem_of_app. left. by apply IH.
Qed.

(** Every block with pending transactions is a block of the commit. *)
Lemma pending_block E cs r X :
  state_ok ctx E cs → cs_pending_transactions cs !! r = Some X → ∃ b, b ∈ sd_blocks (cs_commit cs) ∧ reference b = r.
Proof.
  intros Hok Hr%elem_of_dom_2%(ko_pending _ _ _ Hok). unfold commit_refs in Hr.
  apply elem_of_list_to_set, list_elem_of_fmap in Hr as (b & -> & Hb). by eauto.
Qed.

(** The results of the checks of all pending blocks, applied to the commit. *)
Lemma apply_results E cs (f : CommitState → BlockRef * list N → CommitState) (P : BlockRef → N → Prop) all :
  (∀ cs' r l, cs_commit cs' = cs_commit cs → (∀ idx, idx ∈ l → P r idx) → decides ctx E cs' (f cs' (r, l))) →
  Forall (λ e, ∀ idx, idx ∈ e.2 → P e.1 idx) all →
  decides ctx E cs (foldl f cs (filter (λ e, e.2 ≠ []) all)).
Proof.
  intros Hf Hall. rewrite Forall_forall in Hall.
  apply (decides_foldl ctx E f (λ e, ∀ idx, idx ∈ e.2 → P e.1 idx)).
  - intros cs' [r l] _ HQ Hcm. by apply Hf.
  - intros e [_ He]%list_elem_of_filter. by apply Hall.
Qed.

Lemma check_pending_spec E vt cf cs L :
  cf_context cf = ctx → vt ∈ E.*1 → ready vt L → commits (cf_pending_commits cf) = L →
  cf_pending_commits cf !! 0 = Some cs → state_ok ctx E cs →
  ∃ cs', check_pending_transactions_in_first_commit vt cf =
      Done (set_pending_commits (<[0 := cs']> (cf_pending_commits cf)) cf) ∧ decides ctx E cs cs'.
Proof.
  intros Hcf Hvt [_ Hv] HL Hcs Hok. unfold check_pending_transactions_in_first_commit. rewrite Hcs, Hcf. cbn [unwrap]. run_bind.
  assert (cs_commit cs ∈ L) as Hin by (rewrite <- HL; eapply list_elem_of_lookup_2, commits_lookup, Hcs).
  destruct (mapM_total (late_rejects (committee ctx) vt)
    (λ _ e, ∀ idx, idx ∈ e.2 → reject_cause ctx E (cs_commit cs) e.1 idx)
    (entries_in_order (cs_pending_transactions cs))) as (all & -> & Hall).
  { intros [r X] Hr%elem_of_map_in_order. destruct (pending_block E cs r X Hok Hr) as (b & Hb & <-).
    destruct (late_rejects_spec E vt (cs_commit cs) (reference b) X) as (out & Hrun & Hout); [done|by eapply Hv|]. by eauto. }
  run_bind. eexists. split; [done|]. apply (apply_results _ _ _ (reject_cause ctx E (cs_commit cs))).
  - intros cs' r l Hcm Hl. apply reject_decides. intros idx Hi. rewrite Hcm. by apply Hl.
  - eapply Forall2_Forall_r; [exact Hall|]. by apply Forall_true.
Qed.

(** The gc rounds of the buffered commits cover the commits of all their blocks. *)
Lemma gced_done ds l sd0 m pr r s :
  stream_ok (committee ctx) (commits l) → blocks_ok (placed (commits l)) m → head (commits l) = Some sd0 →
  m !! r = Some s →
  is_done (gced_transaction_votes_for_pending_block
    ((λ cs, (cs_commit_index cs, calculate_gc_round ds (cs_leader_round cs))) <$> l) pr (sd_index sd0) (bst_commit_index s)).
Proof.
  intros Hs Hm H0 Hr. destruct (bk_placed _ _ Hm _ _ Hr) as [(sd & [j Hj]%list_elem_of_lookup & Hi & _)%elem_of_placed _].
  cbn in Hi. rewrite Hi. pose proof (so_index _ _ Hs j sd0 sd H0 Hj) as Hidx.
  assert (sd_index sd < u32_modulus)%N as Hlt by (apply (so_commits _ _ Hs); by eapply list_elem_of_lookup_2).
  unfold gced_transaction_votes_for_pending_block. rewrite rassert_true by lia. run_bind.
  case_decide as He; [by eexists|]. destruct j as [|j]; [lia|].
  rewrite !wrap_sub_small by (rewrite ?wrap_sub_small; lia).
  destruct (lookup_lt_is_Some_2 l j) as [cs Hcs].
  { apply lookup_lt_Some in Hj. rewrite commits_length in Hj. lia. }
  rewrite (vec_index_some _ _ (cs_commit_index cs, calculate_gc_round ds (cs_leader_round cs))).
  2:{ rewrite list_lookup_fmap. replace (N.to_nat _) with j by lia. by rewrite Hcs. }
  run_bind. pose proof (so_index _ _ Hs j sd0 _ H0 (commits_lookup _ _ _ Hcs)) as Hcj.
  change (cs_commit_index cs) with (sd_index (cs_commit cs)). rewrite rassert_true by lia. run_bind. by eexists.
Qed.

Lemma quorum_accepts_cause E L m p idx :
  L ⊆ E.*2 → blocks_ok (placed L) m → quorum_accepts (committee ctx) m p idx → accept_quorum ctx E p idx.
Proof.
  intros HL Hm (X & HX & Hqr). exists X. split; [done|]. intros a Ha. destruct (HX a Ha) as (r & <- & Htc & s & Hs & Hacc).
  assert (∀ r s, m !! r = Some s → bst_block s ∈ seen_blocks E ∧ reference (bst_block s) = r) as Hseen.
  { intros r' s' Hr'. destruct (bk_placed _ _ Hm _ _ Hr') as [(sd & Hsd & _ & Hb)%elem_of_placed Href].
    split; [|done]. apply list_elem_of_bind. eauto. }
  destruct (Hseen r s Hs) as [Hb Href]. exists (bst_block s). split_and!; [done|by rewrite <- Href| |].
  - rewrite Href. apply (tc_congruence id (R := child_of m)); [|done]. intros x y (sx & Hx & Hy).
    destruct (bk_children _ _ Hm _ _ _ Hx Hy) as (sy & Hsy & _ & Hanc). destruct (Hseen _ _ Hsy) as [Hin Hry].
    by exists (bst_block sy).
  - unfold accepts_txn. by rewrite <- (bk_rejects _ _ Hm _ _ Hs).
Qed.

Lemma indirect_finalize_spec E ds cf cs L :
  cf_context cf = ctx → stream_ok (committee ctx) L → L ⊆ E.*2 → commits (cf_pending_commits cf) = L →
  blocks_ok (placed L) (cf_blocks cf) → cf_pending_commits cf !! 0 = Some cs → state_ok ctx E cs →
  ∃ cs', try_indirect_finalize_pending_transactions_in_first_commit ds cf =
      Done (set_pending_commits (<[0 := cs']> (cf_pending_commits cf)) cf) ∧ decides ctx E cs cs'.
Proof.
  intros Hcf Hs HE HL Hm Hcs Hok. unfold try_indirect_finalize_pending_transactions_in_first_commit.
  rewrite Hcs, Hcf. cbn [unwrap]. run_bind. set (gcs := _ <$> cf_pending_commits cf). subst L.
  assert (head (commits (cf_pending_commits cf)) = Some (cs_commit cs)) as Hhd.
  { pose proof (commits_lookup _ _ _ Hcs). by destruct (commits (cf_pending_commits cf)). }
  edestruct (mapM_total (λ '(r, X), pair r <$> try_indirect_finalize_pending_transactions_in_block (committee ctx) (cf_blocks cf) gcs r X)
    (λ _ e, ∀ idx, idx ∈ e.2 → accept_cause ctx E (cs_commit cs) e.1 idx)
    (entries_in_order (cs_pending_transactions cs))) as (all & -> & Hall).
  { intros [r X] Hr%elem_of_map_in_order. destruct (pending_block E cs r X Hok Hr) as (b & Hb & <-).
    assert ((sd_index (cs_commit cs), b) ∈ placed (commits (cf_pending_commits cf))) as Hpl.
    { apply elem_of_placed. exists (cs_commit cs). split; [|done]. eapply list_elem_of_lookup_2, commits_lookup, Hcs. }
    destruct (bk_present _ _ Hm _ Hpl) as [s Hsb]. destruct (bk_placed _ _ Hm _ _ Hsb) as [Hin Href].
    pose proof (placed_unique _ _ _ (so_distinct _ _ Hs) Hpl Hin (eq_sym Href)) as [= Hi Hbb].
    destruct (indirect_block_spec (committee ctx) Hc (cf_blocks cf) gcs (reference b) (sd_index (cs_commit cs))) with (pending := X) (s := s)
      as (out & Hrun & Hout); [by eapply blocks_ok_total| | |intros r s' Hr' _; by eapply gced_done|done|done|].
    - intros r s' r' Hr1 Hr2. destruct (bk_children _ _ Hm _ _ _ Hr1 Hr2) as (t & ? & ? & _). by eauto.
    - apply (blocks_ok_total _ _ _ Hs Hm) in Hsb as [_ Hbok]. rewrite <- Hbb in Hbok. apply Hbok.
    - eexists. rewrite Hrun. split; [done|]. intros idx Hi'. right. eapply quorum_accepts_cause; [done|done|by apply Hout]. }
  run_bind. eexists. split; [done|]. apply (apply_results _ _ _ (accept_cause ctx E (cs_commit cs))).
  - intros cs' r l Hcm Hl. apply finalize_decides. intros idx Hi. rewrite Hcm. by apply Hl.
  - eapply Forall2_Forall_r; [exact Hall|]. by apply Forall_true.
Qed.

Lemma indirect_reject_spec E cf cs L last_sd :
  stream_ok (committee ctx) L → L ⊆ E.*2 → commits (cf_pending_commits cf) = L → last L = Some last_sd →
  cf_pending_commits cf !! 0 = Some cs → cs_pending_blocks cs = ∅ →
  ∃ cs', try_indirect_reject_pending_transactions_in_first_commit cf =
      Done (set_pending_commits (<[0 := cs']> (cf_pending_commits cf)) cf) ∧ decides ctx E cs cs' ∧
    ((sd_round (cs_commit cs) + 3 ≤ sd_round last_sd)%N → cs_pending_transactions cs' = ∅).
Proof.
  intros Hs HE HL Hlast Hcs Hblk. unfold try_indirect_reject_pending_transactions_in_first_commit.
  rewrite <- HL in Hlast. destruct (commits_last _ _ Hlast) as (lcs & Hlcs & Hlsd). rewrite Hcs, Hlcs. cbn [unwrap]. run_bind.
  pose proof (commits_lookup _ _ _ Hcs) as Hc0. rewrite HL in Hc0.
  change (cs_leader_round cs) with (sd_round (cs_commit cs)). change (cs_leader_round lcs) with (sd_round (cs_commit lcs)).
  rewrite (leader_depth (committee ctx)) by (apply Hs; by eapply list_elem_of_lookup_2). rewrite Hlsd.
  case_decide as Hr.
  - rewrite rassert_true by done. run_bind. eexists. split; [done|].
    edestruct (reject_all_decides ctx E cs (entries_in_order (cs_pending_transactions cs))) as [Hd He].
    + intros r idx. right. exists last_sd. split; [|done]. apply HE. rewrite <- HL.
      apply last_Some in Hlast as [? ->]. set_solver.
    + intros r X HX. by apply elem_of_map_in_order.
    + split; [exact Hd|]. intros _. exact He.
  - exists cs. split; [rewrite list_insert_id by done; by destruct cf|]. split; [done|lia].
Qed.

(** The attempt on the first commit: it makes progress, and decides everything
    once the last commit is three leader rounds above. *)
Lemma try_indirect_spec E ds vt cf cs L last_sd :
  cf_context cf = ctx → vt ∈ E.*1 → ready vt L → L ⊆ E.*2 → commits (cf_pending_commits cf) = L → last L = Some last_sd →
  blocks_ok (placed L) (cf_blocks cf) → cf_pending_commits cf !! 0 = Some cs → state_ok ctx E cs → cs_pending_blocks cs = ∅ →
  ∃ cs', try_indirect_finalize_first_commit ds vt cf =
      Done (set_pending_commits (<[0 := cs']> (cf_pending_commits cf)) cf) ∧ decides ctx E cs cs' ∧
    ((sd_round (cs_commit cs) + 3 ≤ sd_round last_sd)%N → cs_pending_transactions cs' = ∅).
Proof.
  intros Hcf Hvt Hrd HE HL Hlast Hm Hcs Hok Hblk. unfold try_indirect_finalize_first_commit.
  rewrite Hcs. cbn [unwrap]. run_bind. rewrite rassert_true by done. run_bind. pose proof (rd_stream _ _ Hrd) as Hs.
  destruct (check_pending_spec E vt cf cs L) as (cs1 & -> & H1); [done..|]. run_bind.
  assert (∀ cs', decides ctx E cs cs' → commits (<[0 := cs']> (cf_pending_commits cf)) = L) as Hsame.
  { intros cs' [Hcm _ _ _ _ _]. by rewrite (commits_insert _ _ _ _ Hcs Hcm). }
  assert (∀ cs', <[0 := cs']> (cf_pending_commits cf) !! 0 = Some cs') as Hlook.
  { intros cs'. apply list_lookup_insert_eq. by eapply lookup_lt_Some. }
  destruct (indirect_finalize_spec E ds (set_pending_commits (<[0 := cs1]> (cf_pending_commits cf)) cf) cs1 L)
    as (cs2 & -> & H2); [done|done|done|by apply Hsame|done|apply Hlook|by eapply decides_ok|].
  cbn [cf_pending_commits set_pending_commits]. run_bind. rewrite list_insert_insert_eq.
  assert (decides ctx E cs cs2) as H12 by by etrans.
  destruct (indirect_reject_spec E (set_pending_commits (<[0 := cs2]> (cf_pending_commits cf)) cf) cs2 L last_sd)
    as (cs3 & Hrun & H3 & Hall); [done|done|by apply Hsame|done|apply Hlook|by rewrite (de_blocks _ _ _ _ H12)|].
  exists cs3. split_and!; [|by etrans|by rewrite <- (de_commit _ _ _ _ H12)].
  etrans; [exact Hrun|]. cbn [cf_pending_commits set_pending_commits]. by rewrite list_insert_insert_eq.
Qed.

(** *** Popping the finalized commits *)

Definition finished cs : Prop := cs_pending_blocks cs = ∅ ∧ cs_pending_transactions cs = ∅.

Lemma pop_finalized_spec l m L :
  L `prefix_of` commits l → stream_ok (committee ctx) L → blocks_ok (placed L) m →
  ∃ n m', pop_finalized l m = (finalized_commit <$> take n l, drop n l, m') ∧
    Forall finished (take n l) ∧ (∀ cs, head (drop n l) = Some cs → ¬ finished cs) ∧ blocks_ok (placed (drop n L)) m'.
Proof.
  revert m L. induction l as [|cs l IH]; intros m L HL Hs Hm; cbn [pop_finalized].
  { exists 0, m. rewrite drop_0. split_and!; [done|done|done|done]. }
  case_decide as Hd.
  { exists 0, m. rewrite drop_0. split_and!; [done|constructor| |done]. intros x [= <-] [??]. tauto. }
  assert (∃ L', L' `prefix_of` commits l ∧ stream_ok (committee ctx) L' ∧ (∀ n, drop n L' = drop (Datatypes.S n) L) ∧
    blocks_ok (placed L') (foldl (λ m b, delete (reference b) m) m (sd_blocks (cs_commit cs)))) as (L' & HL' & Hs' & Hdrop & Hm').
  { destruct L as [|sd L].
    - exists []. split_and!; [apply prefix_nil|done|by intros []|]. by apply blocks_ok_pop_nil.
    - cbn in HL. apply prefix_cons_inv_1 in HL as Hsd. apply prefix_cons_inv_2 in HL. subst sd.
      exists L. split_and!; [done|by eapply stream_ok_tail|done|]. by eapply blocks_ok_pop. }
  destruct (IH _ L' HL' Hs' Hm') as (n & m' & -> & Hfin & Hrest & Hok). exists (Datatypes.S n), m'.
  split_and!; [done| |done|by rewrite <- Hdrop]. cbn. constructor; [|done].
  split; apply dec_stable; tauto.
Qed.

(** *** The loop over the first commits *)

(** A list of commit states in the middle of [process_commit]. *)
Record in_progress E vt (last_sd : CommittedSubDag) (l : list CommitState) (m : blocks_map) : Prop := {
  ip_ready : ready vt (commits l);
  ip_seen : commits l ⊆ E.*2;
  ip_last : ∀ sd, last (commits l) = Some sd → sd = last_sd;
  ip_states : Forall (state_ok ctx E) l;
  ip_blocks : blocks_ok (placed (commits l)) m;
  ip_direct : ∀ cs, cs ∈ l → (sd_round (cs_commit cs) + 3 ≤ sd_round last_sd)%N → cs_pending_blocks cs = ∅;
}.

Lemma last_drop_Some {A} n (l : list A) x : last (drop n l) = Some x → last l = Some x.
Proof.
  intros Hl. rewrite <- (take_drop n l). apply last_Some in Hl as [k Hk]. rewrite Hk, app_assoc. apply last_snoc.
Qed.

Lemma in_progress_drop E vt last_sd l m m' n :
  in_progress E vt last_sd l m → blocks_ok (placed (commits (drop n l))) m' → in_progress E vt last_sd (drop n l) m'.
Proof.
  intros [H1 H2 H3 H4 H5 H6] Hm'. assert (commits (drop n l) = drop n (commits l)) as Hd by apply fmap_drop.
  split; rewrite ?Hd.
  - by apply ready_drop.
  - intros sd Hsd. apply H2. rewrite <- (take_drop n (commits l)). set_solver.
  - intros sd Hl%last_drop_Some. by apply H3.
  - by apply Forall_drop.
  - by rewrite <- Hd.
  - intros cs Hcs. apply H6. rewrite <- (take_drop n l). set_solver.
Qed.

(** If the first commit is recent, so are the others. *)
Lemma recent_commits l cs0 (R : N) :
  stream_ok (committee ctx) (commits l) → head l = Some cs0 → (R < sd_round (cs_commit cs0) + 3)%N →
  ∀ cs, cs ∈ l → (R < sd_round (cs_commit cs) + 3)%N.
Proof.
  intros Hs H0 HR cs [i Hi]%list_elem_of_lookup. destruct l as [|x l]; [done|]. injection H0 as ->.
  pose proof (so_rounds _ _ Hs 0 i _ _ eq_refl (commits_lookup _ _ _ Hi)). lia.
Qed.

Lemma in_progress_decides E vt last_sd cs cs' l m :
  decides ctx E cs cs' → in_progress E vt last_sd (cs :: l) m → in_progress E vt last_sd (cs' :: l) m.
Proof.
  intros Hd [H1 H2 H3 H4 H5 H6]. assert (commits (cs' :: l) = commits (cs :: l)) as He
    by (cbn; by rewrite (de_commit _ _ _ _ Hd)).
  apply Forall_cons in H4 as [H4 H4']. split; rewrite ?He; [done|done|done| |done|].
  - constructor; [by eapply decides_ok|done].
  - intros x [->|Hx]%elem_of_cons; [|apply H6; by apply list_elem_of_further].
    rewrite (de_commit _ _ _ _ Hd), (de_blocks _ _ _ _ Hd). apply H6, list_elem_of_here.
Qed.

Lemma pop_progress E vt last_sd l m :
  in_progress E vt last_sd l m →
  ∃ n m', pop_finalized l m = (finalized_commit <$> take n l, drop n l, m') ∧
    Forall (λ cs, state_ok ctx E cs ∧ finished cs) (take n l) ∧ (∀ cs, head (drop n l) = Some cs → ¬ finished cs) ∧
    in_progress E vt last_sd (drop n l) m'.
Proof.
  intros Hip. destruct (pop_finalized_spec l m (commits l)) as (n & m' & -> & Hfin & Hrest & Hm'); [done|apply Hip|apply Hip|].
  exists n, m'. split_and!; [done| |done|].
  - apply Forall_and. split; [apply Forall_take, Hip|done].
  - eapply in_progress_drop; [done|]. unfold commits. by rewrite fmap_drop.
Qed.

(** The result of the loop: the commits split into finished ones, added to the
    output, and recent ones that stay. *)
Definition loop_result E vt (last_sd : CommittedSubDag) cf (out : list CommittedSubDag)
    (res : outcome (CommitFinalizer * list CommittedSubDag)) : Prop :=
  ∃ dn l' m', res = Done (mkCommitFinalizer ctx (cf_last_processed_commit cf) l' m', out ++ (finalized_commit <$> dn)) ∧
    commits dn ++ commits l' = commits (cf_pending_commits cf) ∧
    Forall (λ cs, state_ok ctx E cs ∧ finished cs) dn ∧ in_progress E vt last_sd l' m' ∧
    ∀ cs, cs ∈ l' → (sd_round last_sd < sd_round (cs_commit cs) + 3)%N.

Lemma indirect_loop_spec E ds vt last_sd fuel cf out :
  cf_context cf = ctx → vt ∈ E.*1 → in_progress E vt last_sd (cf_pending_commits cf) (cf_blocks cf) →
  length (cf_pending_commits cf) < fuel →
  loop_result E vt last_sd cf out (indirect_loop fuel ds vt cf out).
Proof.
  intros Hcf Hvt. revert cf out Hcf. induction fuel as [|fuel IH]; intros cf out Hcf Hip Hf; [lia|]. cbn [indirect_loop].
  assert ((∀ cs, cs ∈ cf_pending_commits cf → (sd_round last_sd < sd_round (cs_commit cs) + 3)%N) →
    loop_result E vt last_sd cf out (Done (cf, out))) as Hstop.
  { intros Hrec. exists [], (cf_pending_commits cf), (cf_blocks cf). rewrite app_nil_r. split_and!; [|done..].
    by destruct cf; cbn in *; subst. }
  unfold loop_result in *. destruct (cf_pending_commits cf) as [|cs [|cs2 rest]] eqn:Hl.
  { apply Hstop. set_solver. }
  { apply Hstop. intros x ->%list_elem_of_singleton. rewrite (ip_last _ _ _ _ _ Hip (cs_commit cs) eq_refl). lia. }
  case_decide as Hb.
  { apply Hstop. apply (recent_commits _ cs); [apply Hip|done|].
    destruct (decide (sd_round (cs_commit cs) + 3 ≤ sd_round last_sd)%N) as [Hle|]; [|lia].
    destruct Hb. by apply (ip_direct _ _ _ _ _ Hip); [apply list_elem_of_here|]. }
  destruct (try_indirect_spec E ds vt cf cs (commits (cs :: cs2 :: rest)) last_sd) as (cs' & -> & Hd & Hall);
    [done|done|apply Hip|apply Hip|by rewrite Hl| |apply Hip|by rewrite Hl| |done|].
  { destruct (last (commits (cs :: cs2 :: rest))) as [sd|] eqn:Hlast; [|by apply last_None in Hlast].
    f_equal. by apply (ip_last _ _ _ _ _ Hip). }
  { by apply (Forall_inv (ip_states _ _ _ _ _ Hip)). }
  run_bind. rewrite Hl. change (<[0 := cs']> (cs :: cs2 :: rest)) with (cs' :: cs2 :: rest).
  pose proof (in_progress_decides _ _ _ _ _ _ _ Hd Hip) as Hip'.
  destruct (pop_progress E vt last_sd (cs' :: cs2 :: rest) (cf_blocks cf) Hip') as (n & m' & Hpop & Hfin & Hrest & Hip'').
  unfold pop_finalized_commits. cbn [cf_pending_commits set_pending_commits cf_blocks]. rewrite Hpop.
  assert (commits (cs' :: cs2 :: rest) = commits (cs :: cs2 :: rest)) as Hsame by (cbn; by rewrite (de_commit _ _ _ _ Hd)).
  case_decide as Hnil.
  - destruct n as [|n]; [|done]. exists [], (cs' :: cs2 :: rest), m'. rewrite app_nil_r.
    split_and!; [by destruct cf; cbn in *; subst|done|constructor|done|].
    apply (recent_commits _ cs'); [apply Hip''|done|]. rewrite (de_commit _ _ _ _ Hd).
    destruct (decide (sd_round (cs_commit cs) + 3 ≤ sd_round last_sd)%N) as [Hle|]; [|lia].
    destruct (Hrest cs' eq_refl). split; [by rewrite (de_blocks _ _ _ _ Hd)|by apply Hall].
  - destruct (IH (set_blocks m' (set_pending_commits (drop n (cs' :: cs2 :: rest)) (set_pending_commits (cs' :: cs2 :: rest) cf)))
      (out ++ (finalized_commit <$> take n (cs' :: cs2 :: rest)))) as (dn & l' & m2 & Hrun & Hcm & Hdn & Hip2 & Hrec);
      [done|exact Hip''| |].
    { cbn [cf_pending_commits set_blocks set_pending_commits]. rewrite length_drop. destruct n; [done|]. cbn in Hf |- *. lia. }
    exists (take n (cs' :: cs2 :: rest) ++ dn), l', m2.
    split_and!; [rewrite fmap_app, app_assoc; exact Hrun| |by apply Forall_app|done|done].
    unfold commits at 1. rewrite fmap_app, <- app_assoc. change (cs_commit <$> dn) with (commits dn). rewrite Hcm, <- Hsame.
    cbn [cf_pending_commits set_blocks set_pending_commits]. unfold commits. by rewrite <- fmap_app, take_drop.
Qed.

(** ** The invariant *)

Record finalizer_ok E (out : list CommittedSubDag) cf : Prop := {
  fo_context : cf_context cf = ctx;
  fo_last : cf_last_processed_commit cf = sd_index <$> last E.*2;
  fo_output : ∃ dn, out = finalized_commit <$> dn ∧ commits dn ++ commits (cf_pending_commits cf) = E.*2 ∧
    Forall (λ cs, state_ok ctx E cs ∧ finished cs) dn;
  fo_states : Forall (state_ok ctx E) (cf_pending_commits cf);
  fo_blocks : blocks_ok (placed (commits (cf_pending_commits cf))) (cf_blocks cf);
  fo_recent : ∀ cs sd, cs ∈ cf_pending_commits cf → sd ∈ E.*2 → (sd_round sd < sd_round (cs_commit cs) + 3)%N;
}.

Lemma CommitFinalizer_new_ok : finalizer_ok [] [] (CommitFinalizer_new ctx).
Proof. split; [done|done|by exists []|constructor|apply blocks_ok_empty|set_solver]. Qed.

Lemma CommitState_new_ok E sd :
  sub_dag_ok (committee ctx) sd →
  ∃ cs, CommitState_new sd = Done cs ∧ cs_commit cs = sd ∧ state_ok ctx E cs ∧ ¬ finished cs.
Proof.
  intros Hsd. pose proof (commit_blocks_nonempty _ _ Hsd) as Hne. unfold CommitState_new.
  change (foldl _ _ _) with (commit_blocks sd). rewrite rassert_true by done. run_bind. eexists. split; [done|].
  split_and!; [done| |by intros [? _]]. split; cbn; [set_solver|by right| |done].
  intros r idx. unfold rej. cbn. rewrite lookup_empty. cbn. set_solver.
Qed.

(** The check on the index of the next commit. *)
Lemma next_index E cf out vt sd :
  finalizer_ok E out cf → stream_ok (committee ctx) (E ++ [(vt, sd)]).*2 →
  (match cf_last_processed_commit cf with
   | Some last_processed_commit => rassert (last_processed_commit +₃₂ 1 = cref_index (sd_commit_ref sd))
   | None => Done ()
   end) = Done ().
Proof.
  intros Hok Hs. rewrite (fo_last _ _ _ Hok). rewrite fmap_app in Hs. cbn in Hs.
  destruct (last E.*2) as [sd'|] eqn:Hl; [|done]. cbn. apply rassert_true.
  apply last_Some in Hl as [L HL]. rewrite HL in Hs.
  assert (∃ sd0, head ((L ++ [sd']) ++ [sd]) = Some sd0) as [sd0 H0] by (destruct L; by eexists).
  assert (((L ++ [sd']) ++ [sd]) !! length L = Some sd') as L1 by (rewrite <- app_assoc; by apply list_lookup_middle).
  assert (((L ++ [sd']) ++ [sd]) !! Datatypes.S (length L) = Some sd) as L2
    by (apply list_lookup_middle; rewrite length_app; cbn; lia).
  pose proof (so_index _ _ Hs _ _ _ H0 L1) as H1. pose proof (so_index _ _ Hs _ _ _ H0 L2) as H2.
  assert (sd_index sd < u32_modulus)%N by (apply (so_commits _ _ Hs); set_solver).
  unfold sd_index in *. rewrite wrap_add_small; lia.
Qed.

(** Direct finalization of the buffered commits and the new one. *)
Lemma direct_phase E ds vt cf out sd :
  ds_context ds = ctx → finalizer_ok E out cf → stream_ok (committee ctx) (E ++ [(vt, sd)]).*2 →
  ready vt (commits (cf_pending_commits cf) ++ [sd]) →
  ∃ l, (cs ← CommitState_new sd;
    direct_finalize_loop ds vt (seq 0 (length (cf_pending_commits cf ++ [cs])))
      (mkCommitFinalizer (cf_context cf) (Some (sd_index sd)) (cf_pending_commits cf ++ [cs]) (cf_blocks cf))) =
    Done (mkCommitFinalizer ctx (Some (sd_index sd)) l (cf_blocks cf)) ∧
    commits l = commits (cf_pending_commits cf) ++ [sd] ∧ Forall (state_ok ctx (E ++ [(vt, sd)])) l ∧
    ∀ cs, cs ∈ l → (sd_round (cs_commit cs) + 3 ≤ sd_round sd)%N → cs_pending_blocks cs = ∅.
Proof.
  intros Hds Hok Hs Hrd. set (E' := E ++ [(vt, sd)]).
  destruct (CommitState_new_ok E' sd) as (cs & -> & Hcs & Hst & _); [apply Hrd; set_solver|]. run_bind.
  assert (commits (cf_pending_commits cf ++ [cs]) = commits (cf_pending_commits cf) ++ [sd]) as Hcm
    by (unfold commits; rewrite fmap_app; cbn; by rewrite Hcs).
  edestruct (direct_finalize_loop_spec E' ds vt (mkCommitFinalizer (cf_context cf) (Some (sd_index sd)) (cf_pending_commits cf ++ [cs]) (cf_blocks cf))
    0 (commits (cf_pending_commits cf) ++ [sd]) sd) as (l & Hrun & Hl & Hst' & _ & Hdone);
    [done|apply Hok| |done|exact Hcm|by rewrite last_snoc| |lia|].
  - unfold E'. rewrite fmap_app. set_solver.
  - apply Forall_app. split; [|by constructor]. eapply Forall_impl; [apply Hok|]. intros x. apply state_ok_mono. unfold E'. set_solver.
  - exists l. split_and!; [|done|done|].
    + rewrite <- Hcm, commits_length, Nat.sub_0_r in Hrun. rewrite Hrun. unfold set_pending_commits. cbn. by rewrite (fo_context _ _ _ Hok).
    + intros x [i Hi]%list_elem_of_lookup. eapply Hdone; [done|lia].
Qed.

(** Linking the last commit when some commits remain after direct finalization. *)
Lemma link_phase cf l0 sd n :
  stream_ok (committee ctx) (commits l0) → cf_pending_commits cf = drop n l0 → drop n l0 ≠ [] →
  (∃ L, commits l0 = L ++ [sd] ∧ blocks_ok (placed (drop n L)) (cf_blocks cf)) →
  ∃ m, (cf ← link_blocks_in_last_commit cf; append_origin_descendants_from_last_commit cf) = Done (set_blocks m cf) ∧
    blocks_ok (placed (commits (drop n l0))) m.
Proof.
  intros Hs Hcf Hne (L & HL & Hm).
  assert (commits (drop n l0) = drop n L ++ [sd]) as Hd.
  { unfold commits. rewrite fmap_drop. change (cs_commit <$> l0) with (commits l0). rewrite HL. apply drop_app_le.
    enough (n < length l0) by (rewrite <- (commits_length l0), HL, length_app in *; cbn in *; lia).
    destruct (decide (length l0 ≤ n)); [|lia]. by rewrite drop_ge in Hne. }
  pose proof (stream_ok_drop _ n _ Hs) as Hs'. replace (drop n (commits l0)) with (commits (drop n l0)) in Hs' by apply fmap_drop.
  rewrite Hd in Hs'. destruct (commits_last (drop n l0) sd) as (lcs & Hlcs & Hlsd); [rewrite Hd; apply last_snoc|].
  unfold link_blocks_in_last_commit, append_origin_descendants_from_last_commit. rewrite Hcf, Hlcs. cbn [unwrap]. run_bind.
  cbn [cf_pending_commits set_blocks cf_blocks]. rewrite Hcf, Hlcs. cbn [unwrap]. run_bind.
  change (cs_commit_index lcs) with (sd_index (cs_commit lcs)). rewrite Hlsd.
  pose proof (link_commit_ok _ _ _ _ Hs' Hm) as Hlink.
  edestruct (append_origin_blocks_total (committee ctx) (drop n L ++ [sd])) as (m & -> & Hm'); [done|exact Hlink| |].
  { intros b Hb%elem_of_stable_sort. exists (sd_index sd). apply elem_of_placed. exists sd. set_solver. }
  run_bind. exists m. split; [done|]. by rewrite Hd.
Qed.

(** The invariant after a commit, from the split into finished and recent commits. *)
Lemma finalizer_ok_next E cf out vt sd dn l' m' (E' := E ++ [(vt, sd)]) :
  finalizer_ok E out cf → stream_ok (committee ctx) E'.*2 →
  commits dn ++ commits l' = commits (cf_pending_commits cf) ++ [sd] →
  Forall (λ cs, state_ok ctx E' cs ∧ finished cs) dn → Forall (state_ok ctx E') l' → blocks_ok (placed (commits l')) m' →
  (∀ cs, cs ∈ l' → (sd_round sd < sd_round (cs_commit cs) + 3)%N) →
  finalizer_ok E' (out ++ (finalized_commit <$> dn)) (mkCommitFinalizer ctx (Some (sd_index sd)) l' m').
Proof.
  intros Hok Hs Hdn Hf Hst' Hm' Hrec. destruct (fo_output _ _ _ Hok) as (dn0 & -> & Hc0 & Hf0).
  assert (E'.*2 = E.*2 ++ [sd]) as HE by (unfold E'; by rewrite fmap_app).
  split; cbn [cf_context cf_last_processed_commit cf_pending_commits cf_blocks]; [done| | |done|done|].
  - by rewrite HE, last_snoc.
  - exists (dn0 ++ dn). rewrite fmap_app. split_and!; [done| |].
    + unfold commits in *. by rewrite fmap_app, <- app_assoc, Hdn, app_assoc, Hc0.
    + apply Forall_app. split; [|done]. eapply Forall_impl; [exact Hf0|]. intros x [? ?]. split; [|done].
      eapply state_ok_mono; [|done]. unfold E'. set_solver.
  - intros x sd' Hx [i Hi]%list_elem_of_lookup. specialize (Hrec x Hx). rewrite HE in Hs, Hi.
    pose proof (lookup_lt_Some _ _ _ Hi) as Hlt. rewrite length_app in Hlt. cbn in Hlt.
    pose proof (so_rounds _ _ Hs i (length E.*2) sd' sd Hi (list_lookup_middle _ _ _ _ eq_refl)). lia.
Qed.

Lemma drop_subset {A} n (l : list A) : drop n l ⊆ l.
Proof. intros x Hx. rewrite <- (take_drop n l). set_solver. Qed.

(** Processing a commit keeps the invariant. *)
Lemma process_commit_ok E ds vt cf out sd :
  ds_context ds = ctx → finalizer_ok E out cf → stream_ok (committee ctx) (E ++ [(vt, sd)]).*2 →
  ready vt (commits (cf_pending_commits cf) ++ [sd]) →
  ∃ cf' o, process_commit ds vt cf sd = Done (cf', o) ∧ finalizer_ok (E ++ [(vt, sd)]) (out ++ o) cf'.
Proof.
  intros Hds Hok Hs Hrd. set (E' := E ++ [(vt, sd)]). unfold process_commit. rewrite (next_index E cf out vt sd Hok Hs). run_bind.
  destruct (direct_phase E ds vt cf out sd Hds Hok Hs Hrd) as (l & Hrun & Hl & Hst & Hdir). fold E' in Hst.
  destruct (CommitState_new sd) as [cs| |] eqn:Hcs; [|done|done]. cbn [mbind outcome_bind] in Hrun |- *.
  cbn [cf_pending_commits]. unfold sd_index in Hrun. rewrite Hrun. run_bind. rewrite <- Hl in Hrd.
  destruct (pop_finalized_spec l (cf_blocks cf) (commits (cf_pending_commits cf))) as (n & m & Hpop & Hfin & Hrest & Hm).
  { rewrite Hl. by apply prefix_app_r. }
  { eapply stream_ok_prefix. rewrite <- Hl. apply Hrd. }
  { apply Hok. }
  unfold pop_finalized_commits. cbn [cf_pending_commits cf_blocks]. rewrite Hpop.
  change (set_blocks m (set_pending_commits (drop n l) _)) with (mkCommitFinalizer ctx (Some (sd_index sd)) (drop n l) m).
  cbn [cf_pending_commits].
  assert (Forall (λ cs, state_ok ctx E' cs ∧ finished cs) (take n l)) as Hfin' by (apply Forall_and; split; [by apply Forall_take|done]).
  assert (commits (take n l) ++ commits (drop n l) = commits (cf_pending_commits cf) ++ [sd]) as Hsplit
    by (unfold commits; by rewrite <- fmap_app, take_drop).
  case_decide as Hnil.
  - eexists _, _. split; [done|]. rewrite Hnil. apply (finalizer_ok_next E cf); [done|done|by rewrite <- Hsplit, Hnil|done|constructor| |set_solver].
    replace (drop n (commits (cf_pending_commits cf))) with ([] : list CommittedSubDag) in Hm; [done|].
    symmetry. apply drop_ge. apply (f_equal length) in Hnil, Hl. rewrite length_drop in Hnil.
    rewrite length_app, commits_length in Hl. cbn in *. lia.
  - edestruct (link_phase (mkCommitFinalizer ctx (Some (sd_index sd)) (drop n l) m) l sd n) as (m1 & Hlink & Hm1);
      [apply Hrd|done|done|by eexists|].
    apply bind_Done in Hlink as (cf1 & Hl1 & Hl2). rewrite Hl1. run_bind. rewrite Hl2. run_bind.
    edestruct (indirect_loop_spec E' ds vt sd) as (dn & l' & m2 & Hres & Hcm & Hdn & Hip & Hrec); [..|eexists _, _; split; [exact Hres|]].
    + done.
    + unfold E'. rewrite fmap_app. set_solver.
    + cbn [cf_pending_commits set_blocks cf_blocks]. assert (cs_commit <$> drop n l = drop n (cs_commit <$> l)) as Hfd by apply fmap_drop.
      split; [|intros x Hx|intros x Hx|by apply Forall_drop|done|intros x Hx; apply Hdir; by apply (drop_subset n)].
      * unfold commits. rewrite Hfd. by apply ready_drop.
      * unfold commits in Hx. rewrite Hfd in Hx. apply drop_subset in Hx. change (cs_commit <$> l) with (commits l) in Hx.
        rewrite Hl in Hx. destruct (fo_output _ _ _ Hok) as (dn0 & _ & Hc0 & _). unfold E'. rewrite fmap_app, <- Hc0. set_solver.
      * unfold commits in Hx. rewrite Hfd in Hx. apply last_drop_Some in Hx. change (cs_commit <$> l) with (commits l) in Hx.
        rewrite Hl, last_snoc in Hx. by injection Hx.
    + cbn. lia.
    + rewrite <- fmap_app. apply (finalizer_ok_next E cf); [done|done| |by apply Forall_app|apply Hip|apply Hip|done].
      cbn in Hcm. unfold commits in *. by rewrite fmap_app, <- app_assoc, Hcm.
Qed.

(** ** Runs

    The commits arrive in order; when a commit is processed, the vote tracker, in
    a state it can reach, has taken the blocks of this commit and of the buffered
    ones, and has not garbage collected them. *)

Definition tracks vt (L : list CommittedSubDag) : Prop :=
  ∃ h, vote_tracker_ok ctx h vt ∧ ∀ sd b, sd ∈ L → b ∈ sd_blocks sd → (h.1 < round b)%N ∧ reference b ∈ dom h.2.

Inductive finalizer_run : evidence → list CommittedSubDag → CommitFinalizer → Prop :=
  | finalizer_run_start : finalizer_run [] [] (CommitFinalizer_new ctx)
  | finalizer_run_commit E out cf ds vt sd cf' o :
      finalizer_run E out cf → ds_context ds = ctx → stream_ok (committee ctx) (E.*2 ++ [sd]) →
      tracks vt (commits (cf_pending_commits cf) ++ [sd]) →
      process_commit ds vt cf sd = Done (cf', o) →
      finalizer_run (E ++ [(vt, sd)]) (out ++ o) cf'.

Lemma tracks_ready vt L : stream_ok (committee ctx) L → tracks vt L → ready vt L.
Proof.
  intros Hs (h & Hvt & Hh). split; [done|]. intros sd b Hsd Hb. destruct (Hh sd b Hsd Hb) as [Hgc Hd].
  pose proof (get_reject_votes_spec ctx h vt (reference b) Hvt) as Hspec.
  destruct (get_reject_votes vt (reference b)); [by eauto|]. destruct Hspec. split; [done|]. by left.
Qed.

Lemma pending_suffix E out cf : finalizer_ok E out cf → ∃ L, L ++ commits (cf_pending_commits cf) = E.*2.
Proof. intros Hok. destruct (fo_output _ _ _ Hok) as (dn & _ & Hd & _). by eauto. Qed.

Lemma stream_ok_suffix L L' : stream_ok (committee ctx) (L ++ L') → stream_ok (committee ctx) L'.
Proof. intros Hs%(stream_ok_drop _ (length L)). by rewrite drop_app_length in Hs. Qed.

Lemma process_input_ok E out cf ds vt sd :
  finalizer_ok E out cf → ds_context ds = ctx → stream_ok (committee ctx) (E.*2 ++ [sd]) →
  tracks vt (commits (cf_pending_commits cf) ++ [sd]) →
  ∃ cf' o, process_commit ds vt cf sd = Done (cf', o) ∧ finalizer_ok (E ++ [(vt, sd)]) (out ++ o) cf'.
Proof.
  intros Hok Hds Hs Htr. apply process_commit_ok; [done|done|by rewrite fmap_app|]. apply tracks_ready; [|done].
  destruct (pending_suffix _ _ _ Hok) as [L HL]. rewrite <- HL, <- app_assoc in Hs. by apply stream_ok_suffix in Hs.
Qed.

Lemma finalizer_run_ok E out cf :
  finalizer_run E out cf → finalizer_ok E out cf ∧ ∀ vt, vt ∈ E.*1 → ∃ h, vote_tracker_ok ctx h vt.
Proof.
  induction 1 as [|E out cf ds vt sd cf' o _ [IH IHv] Hds Hs Htr Hrun]; [split; [apply CommitFinalizer_new_ok|set_solver]|].
  destruct (process_input_ok E out cf ds vt sd IH Hds Hs Htr) as (cf2 & o2 & Hrun2 & Hok).
  rewrite Hrun in Hrun2. injection Hrun2 as <- <-. split; [done|]. intros vt' Hvt. rewrite fmap_app in Hvt.
  apply elem_of_app in Hvt as [Hvt| ->%list_elem_of_singleton]; [by apply IHv|]. destruct Htr as (h & Hh & _). by exists h.
Qed.

(** A commit apart from its rejected transactions. *)
Definition clear_rejected (sd : CommittedSubDag) : CommittedSubDag :=
  mkCommittedSubDag (sd_leader sd) (sd_blocks sd) (sd_timestamp_ms sd) (sd_commit_ref sd)
    (sd_decided_with_local_blocks sd) (sd_recovered_rejected_transactions sd) ∅.

Lemma clear_finalized l : clear_rejected <$> (finalized_commit <$> l) = clear_rejected <$> commits l.
Proof. unfold commits. rewrite <- !list_fmap_compose. apply list_fmap_ext. by intros i x _. Qed.

(** Why transaction [idx] of block [r] in the commit [sd] is finalized: when the
    commit was checked no block known to the node rejected it, and the block was
    above the gc round of the votes; or a quorum of authorities has committed
    descendants of the block that do not reject it. *)
Definition finalized_because E (sd : CommittedSubDag) (r : BlockRef) (idx : N) : Prop :=
  (∃ vt h, vt ∈ E.*1 ∧ vote_tracker_ok ctx h vt ∧ rejecters h.2 r idx = ∅ ∧
    (sd_round sd + 3 - gc_depth (protocol_config ctx) < ref_round r)%N) ∨ accept_quorum ctx E r idx.

(** Why it is rejected: a quorum of authorities rejects it in blocks known to the
    node, or it was still undecided when a leader three rounds above committed. *)
Definition rejected_because E (sd : CommittedSubDag) (r : BlockRef) (idx : N) : Prop :=
  (∃ vt h, vt ∈ E.*1 ∧ vote_tracker_ok ctx h vt ∧
    (quorum_threshold (committee ctx) ≤ set_stake (committee ctx) (rejecters h.2 r idx))%N) ∨
  (∃ sd', sd' ∈ E.*2 ∧ (sd_round sd + 3 ≤ sd_round sd')%N).

Lemma accept_cause_because E sd r idx :
  (∀ vt, vt ∈ E.*1 → ∃ h, vote_tracker_ok ctx h vt) → accept_cause ctx E sd r idx → finalized_because E sd r idx.
Proof.
  intros Hvts [(vt & l & Hvt & Hl & Hnot & Hgc)|?]; [left|by right]. destruct (Hvts vt Hvt) as [h Hh].
  exists vt, h. split_and!; [done|done| |done]. pose proof (get_reject_votes_spec ctx h vt r Hh) as Hspec. rewrite Hl in Hspec.
  destruct Hspec as (_ & _ & Hmem). apply dec_stable. intros Hne. apply Hnot, list_elem_of_fmap.
  eexists (idx, _). split; [done|]. by apply Hmem.
Qed.

Lemma reject_cause_because E sd r idx :
  (∀ vt, vt ∈ E.*1 → ∃ h, vote_tracker_ok ctx h vt) → reject_cause ctx E sd r idx → rejected_because E sd r idx.
Proof.
  intros Hvts [(vt & l & s & Hvt & Hl & Hin & Hs)|?]; [left|by right]. destruct (Hvts vt Hvt) as [h Hh].
  exists vt, h. split_and!; [done|done|]. pose proof (get_reject_votes_spec ctx h vt r Hh) as Hspec. rewrite Hl in Hspec.
  destruct Hspec as (_ & _ & Hmem). by apply Hmem in Hin as [_ ->].
Qed.

(** The rejected transactions of an output commit. *)
Lemma finalized_commit_rejected cs r :
  sd_rejected_transactions_by_block (cs_commit cs) = ∅ →
  sd_rejected_transactions_by_block (finalized_commit cs) !! r = set_in_order N.le <$> cs_rejected_transactions cs !! r.
Proof.
  intros He. cbn. rewrite He. set (m := cs_rejected_transactions cs).
  assert (∀ (l : list (BlockRef * gset N)) (r : BlockRef), NoDup l.*1 →
    foldl (λ (m : gmap BlockRef (list N)) '(r, X), <[r := set_in_order N.le X]> m) ∅ l !! r =
    set_in_order N.le <$> (list_to_map l : gmap BlockRef (gset N)) !! r) as Hl.
  { clear. induction l as [|[k X] l IH] using rev_ind; intros r Hnd; [done|]. rewrite foldl_app, fmap_app in *. cbn in *.
    apply NoDup_app in Hnd as (Hnd & Hk & _). destruct (decide (r = k)) as [->|Hne].
    - rewrite lookup_insert_eq, list_to_map_snoc, lookup_insert_eq; [done|]. intros Hin. apply (Hk k Hin). set_solver.
    - rewrite lookup_insert_ne, list_to_map_snoc, lookup_insert_ne by (done || (intros Hin; apply (Hk k Hin); set_solver)).
      by apply IH. }
  rewrite Hl by (rewrite map_in_order_keys; apply NoDup_set_in_order). f_equal.
  destruct (m !! r) as [X|] eqn:HX.
  - apply elem_of_list_to_map; [rewrite map_in_order_keys; apply NoDup_set_in_order|]. by apply elem_of_map_in_order.
  - apply not_elem_of_list_to_map. rewrite map_in_order_keys, elem_of_set_in_order. by apply not_elem_of_dom.
Qed.

Lemma output_justified E out cf sd b idx :
  finalizer_ok E out cf → (∀ vt, vt ∈ E.*1 → ∃ h, vote_tracker_ok ctx h vt) → stream_ok (committee ctx) E.*2 →
  sd ∈ out → b ∈ sd_blocks sd → (idx < lengthN (transactions b))%N →
  if decide (idx ∈ default [] (sd_rejected_transactions_by_block sd !! reference b))
  then rejected_because E sd (reference b) idx else finalized_because E sd (reference b) idx.
Proof.
  intros Hok Hvts Hs Hsd Hb Hi. destruct (fo_output _ _ _ Hok) as (dn & -> & Hd & Hfin).
  apply list_elem_of_fmap in Hsd as (cs & -> & Hcs). rewrite Forall_forall in Hfin. destruct (Hfin cs Hcs) as [Hst [Hb0 Hp0]].
  assert (cs_commit cs ∈ E.*2) as Hin by (rewrite <- Hd; apply elem_of_app; left; apply list_elem_of_fmap; eauto).
  rewrite finalized_commit_rejected by by apply (so_commits _ _ Hs).
  change (sd_blocks (finalized_commit cs)) with (sd_blocks (cs_commit cs)) in Hb.
  assert (idx ∈ default [] (set_in_order N.le <$> cs_rejected_transactions cs !! reference b) ↔ idx ∈ rej cs (reference b)) as Hrej.
  { unfold rej. destruct (cs_rejected_transactions cs !! reference b); cbn; [apply elem_of_set_in_order|set_solver]. }
  case_decide as Hr.
  - apply (reject_cause_because E (cs_commit cs) _ _ Hvts). by apply (ko_rejected _ _ _ Hst), Hrej.
  - apply (accept_cause_because E (cs_commit cs) _ _ Hvts). destruct (ko_decided _ _ _ Hst Hb0 b idx Hb Hi) as [Hp|[?|?]]; [|tauto|done].
    unfold pend in Hp. rewrite Hp0, lookup_empty in Hp. cbn in Hp. set_solver.
Qed.

(** A commit that is not buffered any more because of a later leader. *)
Lemma output_after_delay E out cf sd sd' :
  finalizer_ok E out cf → sd ∈ E.*2 → sd' ∈ E.*2 → (sd_round sd + INDIRECT_REJECT_DEPTH ≤ sd_round sd')%N →
  clear_rejected sd ∈ clear_rejected <$> out.
Proof.
  intros Hok Hsd Hsd' Hr. destruct (fo_output _ _ _ Hok) as (dn & -> & Hd & _).
  rewrite clear_finalized. rewrite <- Hd in Hsd. apply elem_of_app in Hsd as [Hsd|Hsd]; [by apply list_elem_of_fmap; eauto|].
  apply list_elem_of_fmap in Hsd as (cs & -> & Hcs). pose proof (fo_recent _ _ _ Hok cs sd' Hcs Hsd').
  unfold INDIRECT_REJECT_DEPTH in Hr. lia.
Qed.

Lemma output_commits E out cf :
  finalizer_ok E out cf →
  (clear_rejected <$> out) ++ (clear_rejected <$> commits (cf_pending_commits cf)) = clear_rejected <$> E.*2.
Proof. intros Hok. destruct (fo_output _ _ _ Hok) as (dn & -> & <- & _). rewrite clear_finalized. by rewrite fmap_app. Qed.

(** C27: the finalizer outputs every commit once and in order. In a run, the next
    commit is always processed without a panic (every lookup in the block map and
    every assertion succeeds) and within the fuel of the loops. The commits that
    were output, followed by the buffered ones, are exactly the commits that were
    given, in the same order, changed in nothing but their rejected transactions. *)
Theorem finalizer_in_order E out cf :
  finalizer_run E out cf →
  (clear_rejected <$> out) ++ (clear_rejected <$> commits (cf_pending_commits cf)) = clear_rejected <$> E.*2 ∧
  ∀ ds vt sd, ds_context ds = ctx → stream_ok (committee ctx) (E.*2 ++ [sd]) →
    tracks vt (commits (cf_pending_commits cf) ++ [sd]) →
    ∃ cf' o, process_commit ds vt cf sd = Done (cf', o) ∧ finalizer_run (E ++ [(vt, sd)]) (out ++ o) cf'.
Proof.
  intros Hrun. destruct (finalizer_run_ok _ _ _ Hrun) as [Hok _]. split.
  - by apply output_commits.
  - intros ds vt sd Hds Hs Htr. destruct (process_input_ok E out cf ds vt sd Hok Hds Hs Htr) as (cf' & o & Hp & _).
    exists cf', o. split; [done|]. by econstructor.
Qed.

(** C29: no commit is delayed for more than three leader rounds. Once a commit whose
    leader is three or more rounds above the leader of [sd] was processed, [sd] is
    among the output commits, whatever votes its transactions received. *)
Theorem finalizer_bounded_delay E out cf sd sd' :
  finalizer_run E out cf → sd ∈ E.*2 → sd' ∈ E.*2 → (sd_round sd + INDIRECT_REJECT_DEPTH ≤ sd_round sd')%N →
  clear_rejected sd ∈ clear_rejected <$> out.
Proof. intros [Hok _]%finalizer_run_ok. by eapply output_after_delay. Qed.


(** ** Garbage collection of votes *)

(** The linearizer commits blocks above the gc round of the previous leader. *)
Definition commits_above_gc (L : list CommittedSubDag) : Prop :=
  ∀ i sd sd' b, L !! i = Some sd → L !! Datatypes.S i = Some sd' → b ∈ sd_blocks sd' →
    (sd_round sd - gc_depth (protocol_config ctx) < round b)%N.

(** The blocks of the buffered commits are above the gc round of the last output commit. *)
Lemma pending_above_gc E out cf sd sd' b :
  finalizer_ok E out cf → stream_ok (committee ctx) E.*2 → commits_above_gc E.*2 →
  last out = Some sd → sd' ∈ commits (cf_pending_commits cf) → b ∈ sd_blocks sd' →
  (sd_round sd - gc_depth (protocol_config ctx) < round b)%N.
Proof.
  intros Hok Hs Hgc Hlast [j Hj]%list_elem_of_lookup Hb. destruct (fo_output _ _ _ Hok) as (dn & -> & Hd & _).
  rewrite fmap_last in Hlast. destruct (last dn) as [cs|] eqn:Hdn; [|done]. injection Hlast as <-.
  apply last_Some in Hdn as [dn' ->]. change (sd_round (finalized_commit cs)) with (sd_round (cs_commit cs)).
  assert (E.*2 !! length dn' = Some (cs_commit cs)) as H1.
  { rewrite <- Hd. unfold commits. rewrite fmap_app. cbn. rewrite <- app_assoc. apply list_lookup_middle. by rewrite length_fmap. }
  assert (E.*2 !! Datatypes.S (length dn' + j) = Some sd') as H2.
  { rewrite <- Hd, lookup_app_r by (rewrite commits_length, length_app; cbn; lia).
    rewrite commits_length, length_app. cbn. replace (_ - _) with j by lia. done. }
  destruct (lookup_lt_is_Some_2 E.*2 (length dn' + j)) as [x Hx]; [apply lookup_lt_Some in H2; lia|].
  pose proof (Hgc _ _ _ b Hx H2 Hb). pose proof (so_rounds _ _ Hs _ _ _ _ H1 Hx). lia.
Qed.

(** garbage collection in the vote tracker follows the finalized commits, and
    never discards votes that are still needed. After commits were output, the gc
    round is computed from the last of them; the assertion that it does not exceed
    the gc round of the dag state holds, and the tracker still has the vote
    information of every block of the buffered commits, with the same votes. *)
Theorem gc_keeps_pending_votes E out cf ds vt sd h :
  finalizer_run E out cf → stream_ok (committee ctx) E.*2 → commits_above_gc E.*2 → last out = Some sd →
  ds_context ds = ctx → (sd_round sd ≤ last_commit_round ds)%N →
  vote_tracker_ok ctx h vt → (h.1 ≤ sd_round sd - gc_depth (protocol_config ctx))%N →
  (∀ sd b, sd ∈ commits (cf_pending_commits cf) → b ∈ sd_blocks sd → reference b ∈ dom h.2) →
  ∃ vt', try_update_gc_round ds vt (sd_round sd) = Done vt' ∧ tracks vt' (commits (cf_pending_commits cf)) ∧
    ∀ sd b, sd ∈ commits (cf_pending_commits cf) → b ∈ sd_blocks sd →
      get_reject_votes vt' (reference b) = get_reject_votes vt (reference b).
Proof.
  intros [Hok _]%finalizer_run_ok Hs Hgc Hlast Hds Hround Hvt Hle Hdom. unfold try_update_gc_round, run_gc.
  rewrite rassert_true by (unfold gc_round, calculate_gc_round; lia). run_bind. unfold calculate_gc_round. rewrite Hds.
  eexists. split; [done|]. split.
  - destruct (tracker_step_ok ctx h vt (RunGc (sd_round sd - gc_depth (protocol_config ctx)))) as (vt' & [= <-] & Hok');
      [done|done|by intros ? [= <-]|done|].
    eexists. split; [exact Hok'|]. intros sd' b Hsd' Hb. split; [|by eapply Hdom]. by eapply pending_above_gc.
  - intros sd' b Hsd' Hb. unfold get_reject_votes. rewrite update_gc_round_lookup, decide_False; [done|].
    pose proof (pending_above_gc _ _ _ _ _ _ Hok Hs Hgc Hlast Hsd' Hb). cbn. lia.
Qed.

End finalizer.

(** ** A concrete run *)

Definition finalizer_context : Context :=
  Context_new 0 (Some 0%N) committee_4 sample_parameters
    (mkProtocolConfig 1000 10000 100 10 true (Some 1%N) 20 false 600 60).

(** Authority 1 rejects the first transaction of [fin_b1], authority 3 one of [fin_b4]. *)
Definition fin_b1 : VerifiedBlock := reject_block 1 0 10 [mkBlockRef 0 0 7] [mkTransaction [1]; mkTransaction [2]]%N [].
Definition fin_b2 : VerifiedBlock :=
  reject_block 2 1 21 [mkBlockRef 1 1 11; reference fin_b1] [] [mkBlockTransactionVotes (reference fin_b1) [0]]%N.
Definition fin_b4 : VerifiedBlock := reject_block 4 2 42 [mkBlockRef 3 2 32; reference fin_b2] [mkTransaction [3]]%N [].
Definition fin_b5 : VerifiedBlock :=
  reject_block 5 3 53 [mkBlockRef 4 3 43; reference fin_b4] [] [mkBlockTransactionVotes (reference fin_b4) [0]]%N.

Definition fin_commit (index : N) (b : VerifiedBlock) : CommittedSubDag :=
  CommittedSubDag_new (reference b) [b] (1000 * index) (mkCommitRef index index).

Definition fin_commits : list CommittedSubDag := [fin_commit 1 fin_b1; fin_commit 2 fin_b2; fin_commit 3 fin_b4].

Definition fin_ops : list tracker_op := (λ b, AddBlock b []) <$> [fin_b1; fin_b2; fin_b4; fin_b5].

Definition fin_votes : VoteTrackerState :=
  from_done (VoteTrackerState_new finalizer_context) (for_each tracker_step (VoteTrackerState_new finalizer_context) fin_ops).

Definition fin_dag : DagState MemStore.Inner :=
  set_last_commit (Some (mkTrustedCommit (Commit_new 3 0 3000 (reference fin_b4) [reference fin_b4]) 3 []))
    (empty_dag_state finalizer_context []).

Definition fin_step (st : CommitFinalizer * list CommittedSubDag) (sd : CommittedSubDag) :
    outcome (CommitFinalizer * list CommittedSubDag) :=
  '(cf, o) ← process_commit fin_dag fin_votes st.1 sd; Done (cf, st.2 ++ o).

Definition fin_state (n : nat) : CommitFinalizer * list CommittedSubDag :=
  from_done (CommitFinalizer_new finalizer_context, [])
    (for_each fin_step (CommitFinalizer_new finalizer_context, []) (take n fin_commits)).

Definition fin_evidence (n : nat) : evidence := pair fin_votes <$> take n fin_commits.

Lemma fin_commits_cases sd :
  sd ∈ fin_commits → sd = fin_commit 1 fin_b1 ∨ sd = fin_commit 2 fin_b2 ∨ sd = fin_commit 3 fin_b4.
Proof. unfold fin_commits. rewrite !elem_of_cons, elem_of_nil. tauto. Qed.

Lemma fin_commits_ok : stream_ok committee_4 fin_commits.
Proof.
  split.
  - intros sd [->|[->| ->]]%fin_commits_cases; (split; [discriminate| |reflexivity|reflexivity|reflexivity]);
      intros b ->%list_elem_of_singleton; (split; [reflexivity|eexists; split; [reflexivity|reflexivity]|reflexivity]).
  - intros i sd0 sd [= <-] Hi. repeat (destruct i as [|i]; [injection Hi as <-; reflexivity|]). done.
  - intros i j sd sd' Hi Hj Hij. repeat (destruct i as [|i]; [injection Hi as <-|]); [..|done];
      repeat (destruct j as [|j]; [first [lia|injection Hj as <-; vm_compute; discriminate]|]); done.
  - apply (bool_decide_unpack _). vm_compute. exact I.
Qed.

Lemma fin_votes_ok : vote_tracker_ok finalizer_context (taken_by fin_ops) fin_votes.
Proof.
  destruct (tracker_run_ok finalizer_context (GENESIS_ROUND, ∅) (VoteTrackerState_new finalizer_context) fin_ops) as (st & Hrun & Hok);
    [exact committee_4_ok|repeat constructor|repeat constructor|apply VoteTrackerState_new_ok|].
  unfold fin_votes. rewrite Hrun. exact Hok.
Qed.

Lemma fin_tracks L : L ⊆ fin_commits → tracks finalizer_context fin_votes L.
Proof.
  intros HL. exists (taken_by fin_ops). split; [exact fin_votes_ok|]. intros sd b [->|[->| ->]]%HL%fin_commits_cases Hb; apply list_elem_of_singleton in Hb as ->; (split; [reflexivity|]);
    apply elem_of_dom; vm_compute; eauto.
Qed.

Abbreviation fin_reached := (finalizer_run (S := MemStore.Inner) finalizer_context).

Lemma fin_run n : n ≤ 3 → fin_reached (fin_evidence n) (fin_state n).2 (fin_state n).1.
Proof.
  assert (∀ E out cf sd cf' o L, fin_reached E out cf → stream_ok committee_4 (E.*2 ++ [sd]) →
    L ⊆ fin_commits → commits (cf_pending_commits cf) ++ [sd] = L → process_commit fin_dag fin_votes cf sd = Done (cf', o) →
    fin_reached (E ++ [(fin_votes, sd)]) (out ++ o) cf') as Hstep.
  { intros E out cf sd cf' o L Hr Hs HL <- Hp. apply (finalizer_run_commit _ E out cf fin_dag); [done|reflexivity|done|by apply fin_tracks|done]. }
  assert (∀ k, stream_ok committee_4 (take k fin_commits)) as Hpre.
  { intros k. eapply (stream_ok_prefix _ _ (drop k fin_commits)). rewrite take_drop. exact fin_commits_ok. }
  assert (fin_reached (fin_evidence 1) (fin_state 1).2 (fin_state 1).1) as H1.
  { refine (Hstep [] [] _ (fin_commit 1 fin_b1) _ (fin_state 1).2 [fin_commit 1 fin_b1] (finalizer_run_start _) (Hpre 1) _ _ _);
      [|reflexivity|vm_compute; reflexivity]. intros x Hx. set_solver. }
  assert (fin_reached (fin_evidence 2) (fin_state 2).2 (fin_state 2).1) as H2.
  { refine (Hstep (fin_evidence 1) (fin_state 1).2 _ (fin_commit 2 fin_b2) _ [] [fin_commit 1 fin_b1; fin_commit 2 fin_b2] H1 (Hpre 2) _ _ _);
      [|vm_compute; reflexivity|vm_compute; reflexivity]. intros x Hx. set_solver. }
  intros Hn. destruct n as [|[|[|[|]]]]; [apply finalizer_run_start|exact H1|exact H2| |lia].
  refine (Hstep (fin_evidence 2) (fin_state 2).2 _ (fin_commit 3 fin_b4) _ (fin_state 3).2 fin_commits H2 (Hpre 3) _ _ _);
    [done|vm_compute; reflexivity|vm_compute; reflexivity].
Qed.

(** Two commits are output, with the transaction of [fin_b1] rejected; the third waits. *)
Lemma fin_state_3 :
  clear_rejected <$> (fin_state 3).2 = [fin_commit 1 fin_b1; fin_commit 2 fin_b2] ∧
  commits (cf_pending_commits (fin_state 3).1) = [fin_commit 3 fin_b4] ∧
  ((λ sd, map_to_list (sd_rejected_transactions_by_block sd)) <$> (fin_state 3).2) = [[(reference fin_b1, [0%N])]; []].
Proof. vm_compute. split_and!; reflexivity. Qed.

Lemma fin_evidence_commits n : (fin_evidence n).*2 = take n fin_commits.
Proof. unfold fin_evidence. rewrite <- list_fmap_compose. apply list_fmap_id. Qed.

Lemma finalizer_in_order_witness :
  ∃ cf' o, process_commit fin_dag fin_votes (fin_state 2).1 (fin_commit 3 fin_b4) = Done (cf', o) ∧
    fin_reached (fin_evidence 2 ++ [(fin_votes, fin_commit 3 fin_b4)]) ((fin_state 2).2 ++ o) cf'.
Proof.
  apply (proj2 (finalizer_in_order (S := MemStore.Inner) finalizer_context committee_4_ok ltac:(reflexivity)
    (fin_evidence 2) (fin_state 2).2 (fin_state 2).1 (fin_run 2 ltac:(lia)))).
  - reflexivity.
  - rewrite fin_evidence_commits. exact fin_commits_ok.
  - apply fin_tracks. assert (commits (cf_pending_commits (fin_state 2).1) = take 2 fin_commits) as -> by (vm_compute; reflexivity).
    done.
Defined.

Lemma finalizer_bounded_delay_witness :
  clear_rejected (fin_commit 1 fin_b1) ∈ clear_rejected <$> (fin_state 3).2.
Proof.
  apply (finalizer_bounded_delay (S := MemStore.Inner) finalizer_context committee_4_ok ltac:(reflexivity)
    (fin_evidence 3) (fin_state 3).2 (fin_state 3).1 (fin_commit 1 fin_b1) (fin_commit 3 fin_b4)).
  - apply fin_run. lia.
  - rewrite fin_evidence_commits. apply list_elem_of_here.
  - rewrite fin_evidence_commits. do 2 apply list_elem_of_further. apply list_elem_of_here.
  - vm_compute. discriminate.
Defined.

Definition fin_output : CommittedSubDag := default (fin_commit 1 fin_b1) (head (fin_state 3).2).


Lemma gc_keeps_pending_votes_witness :
  ∃ vt', try_update_gc_round fin_dag fin_votes 2 = Done vt' ∧
    tracks finalizer_context vt' (commits (cf_pending_commits (fin_state 3).1)).
Proof.
  destruct (gc_keeps_pending_votes (S := MemStore.Inner) finalizer_context committee_4_ok ltac:(reflexivity)
    (fin_evidence 3) (fin_state 3).2 (fin_state 3).1 fin_dag fin_votes (fin_commit 2 fin_b2) (taken_by fin_ops))
    as (vt' & Hrun & Htr & _); [apply fin_run; lia| | |vm_compute; reflexivity|reflexivity|vm_compute; discriminate
    |exact fin_votes_ok|vm_compute; discriminate| |].
  - rewrite fin_evidence_commits. exact fin_commits_ok.
  - rewrite fin_evidence_commits. intros i sd sd' b Hi Hi' Hb.
    do 2 (destruct i as [|i]; [injection Hi as <-; injection Hi' as <-; apply list_elem_of_singleton in Hb as ->; vm_compute; reflexivity|]).
    done.
  - rewrite (proj1 (proj2 fin_state_3)). intros sd b ->%list_elem_of_singleton ->%list_elem_of_singleton.
    apply elem_of_dom. vm_compute. eauto.
  - exists vt'. split; [exact Hrun|exact Htr].
Defined.

(** Two blocks of one authority that both link to a pending block: the vote of the
    earlier one counts. Authority 1 accepts the transaction in round 2 and rejects
    it in round 3; with authorities 2 and 3 its first vote makes the quorum. *)
Definition fin_r2 (a : N) : VerifiedBlock := reject_block 2 a (20 + a) [mkBlockRef 1 a 1; reference fin_b1] [] [].
Definition fin_r3 : VerifiedBlock :=
  reject_block 3 1 31 [reference (fin_r2 1); reference fin_b1] [] [mkBlockTransactionVotes (reference fin_b1) [0%N]].

Definition fin_linked (l : list VerifiedBlock) : blocks_map :=
  from_done ∅ (for_each append_origin_block (foldl (link_block 1) ∅ (fin_b1 :: l)) (fin_b1 :: l)).

Lemma earlier_vote_counts :
  try_indirect_finalize_pending_transactions_in_block committee_4 (fin_linked [fin_r2 1; fin_r2 2; fin_r2 3; fin_r3])
    [(1, 0)]%N (reference fin_b1) {[0%N]} = Done [0%N] ∧
  try_indirect_finalize_pending_transactions_in_block committee_4 (fin_linked [fin_r2 2; fin_r2 3; fin_r3])
    [(1, 0)]%N (reference fin_b1) {[0%N]} = Done [].
Proof. vm_compute. split; reflexivity. Qed.
