(* ===== verification/CommitPipeline.v ===== *)
(** * From leaders to finalized commits

    The linearizer feeds the finalizer: the sub-dags of a sequence of committed
    leaders satisfy what the finalizer relies on, so the two together turn leaders
    into finalized commits without a panic. *)

From S2P Require Import Prelude Committee Block StakeAggregator ThresholdClock Commit Store LeaderScoring.
From S2P Require Import DagState DagInvariant DagDurability LeaderSchedule UniversalCommitter CausalHistory CommitRules CommitSafety.
From S2P Require Import Linearizer LinearizerSpec CommitTimestamp CommitOrder.
From S2P Require Import TransactionVoteTracker CommitFinalizer CommitFinalizerSpec CommitFinalizerSafety.

(** ** What the linearizer promises *)
Section chain.
Context {S : Type} `{StoreLaws S}.
Context (c : Committee) (Hquorum : (0 < quorum_threshold c)%N).
Implicit Types ds : DagState S.

(** Blocks have fewer transactions than a transaction index can count. *)
Definition small_blocks ds : Prop := ∀ r b, cached ds !! r = Some b → (lengthN (transactions b) < u16_modulus)%N.

Lemma valid_block_ok b : valid_block c b → (lengthN (transactions b) < u16_modulus)%N → block_ok c b.
Proof.
  intros Hv Hn. split; [apply Hv| |done]. destruct (ancestors b) as [|r l] eqn:Ha.
  - pose proof (vb_parents _ _ Hv) as Hp. unfold parents in Hp. rewrite Ha in Hp. cbn in Hp. unfold set_stake in Hp.
    rewrite set_sum_empty in Hp. lia.
  - exists r. split; [done|]. apply (vb_rounds _ _ Hv). rewrite Ha. apply list_elem_of_here.
Qed.

Lemma step_sub_dag_ok ds leader sd commit :
  commit_view c ds → small_blocks ds → next_leader ds leader → commit_step c ds leader sd commit →
  (tc_index commit < u32_modulus)%N → sub_dag_ok c sd.
Proof.
  intros Hv Hsm [Hl Hr] Hst Hidx. pose proof (CommitOrder.cs_blocks _ _ _ _ _ Hst) as Hlin.
  pose proof (cv_view _ _ Hv) as Hview. split.
  - intros Hnil. assert (leader ∈ sd_blocks sd) as Hin; [|rewrite Hnil in Hin; by apply not_elem_of_nil in Hin].
    apply (ln_exact _ _ _ _ _ Hlin). split_and!; [done|by left|by eapply gc_below_leader|].
    intros Hc%(cv_committed _ _ Hv). cbn in Hc. lia.
  - intros b Hb. apply (ln_exact _ _ _ _ _ Hlin) in Hb as (Hb & _). apply valid_block_ok; [by eapply dv_valid|by eapply Hsm].
  - unfold sd_index. rewrite (CommitOrder.cs_ref _ _ _ _ _ Hst). done.
  - unfold sd_round. rewrite (proj1 (CommitOrder.cs_leader _ _ _ _ _ Hst)).
    pose proof (dv_rounds _ _ Hview). pose proof (dk_highest _ (dv_ok _ _ Hview) (reference leader) (elem_of_dom_2 _ _ _ Hl)).
    unfold u32_MAX in *. lia.
  - apply Hst.
Qed.

Lemma chain_sub_dags ds leaders sds commits ds' :
  commit_chain c ds leaders sds commits ds' → commit_view c ds → small_blocks ds →
  (last_commit_index ds + lengthN commits < u32_modulus)%N → ∀ sd, sd ∈ sds → sub_dag_ok c sd.
Proof.
  induction 1 as [ds|ds leader sd commit ds1 leaders sds commits ds' Hn Hstep Hst Hv1 Hchain IH]; intros Hv Hsm Hi x Hx;
    [by apply not_elem_of_nil in Hx|]. unfold lengthN in *. cbn [length] in Hi.
  destruct (committed_last _ _ _ _ _ _ Hstep Hst) as (Hi1 & _).
  apply elem_of_cons in Hx as [->|Hx].
  - eapply step_sub_dag_ok; [done|done|done|done|]. rewrite (CommitOrder.cs_index _ _ _ _ _ Hstep). lia.
  - apply IH; [done| |lia|done]. intros r b. rewrite (ct_cached _ _ _ _ Hst). apply Hsm.
Qed.

Lemma chain_rounds ds leaders sds commits ds' :
  commit_chain c ds leaders sds commits ds' → StronglySorted N.lt (last_commit_round ds :: (sd_round <$> sds)).
Proof.
  induction 1 as [ds|ds leader sd commit ds1 leaders sds commits ds' [_ Hr] Hstep Hst Hv1 Hchain IH]; [repeat constructor|].
  destruct (committed_last _ _ _ _ _ _ Hstep Hst) as (_ & Hl & _). rewrite Hl in IH. cbn [fmap list_fmap].
  assert (sd_round sd = round leader) as -> by (unfold sd_round; by rewrite (proj1 (CommitOrder.cs_leader _ _ _ _ _ Hstep))).
  constructor; [done|]. constructor; [done|]. inversion IH as [|? ? _ Hall]; subst.
  eapply Forall_impl; [exact Hall|]. intros x Hx. cbn in Hx. lia.
Qed.

Lemma chain_index ds leaders sds commits ds' i sd :
  commit_chain c ds leaders sds commits ds' → sds !! i = Some sd → sd_index sd = (last_commit_index ds + 1 + N.of_nat i)%N.
Proof.
  intros Hchain. revert i. induction Hchain as [ds|ds leader sd0 commit ds1 leaders sds commits ds' _ Hstep Hst _ _ IH]; intros i Hi; [done|].
  destruct (committed_last _ _ _ _ _ _ Hstep Hst) as (Hi1 & _). destruct i as [|i].
  - injection Hi as <-. unfold sd_index. rewrite (CommitOrder.cs_ref _ _ _ _ _ Hstep).
    pose proof (CommitOrder.cs_index _ _ _ _ _ Hstep) as Hci. change (cref_index (TrustedCommit_reference commit)) with (tc_index commit). lia.
  - rewrite (IH i Hi), Hi1. lia.
Qed.

(** The sub-dags of committed leaders are the stream that the finalizer expects. *)
Lemma chain_stream ds leaders sds commits ds' :
  commit_chain c ds leaders sds commits ds' → commit_view c ds → small_blocks ds →
  (last_commit_index ds + lengthN commits < u32_modulus)%N → stream_ok c sds.
Proof.
  intros Hchain Hv Hsm Hi. split.
  - by eapply chain_sub_dags.
  - intros i sd0 sd Hhd Hsd. rewrite (chain_index _ _ _ _ _ _ _ Hchain Hsd).
    rewrite (chain_index _ _ _ _ _ 0 sd0 Hchain) by (by destruct sds). lia.
  - intros i j sd sd' Hsd Hsd' Hij. destruct (decide (i = j)) as [->|Hne]; [simplify_eq; lia|].
    pose proof (chain_rounds _ _ _ _ _ Hchain) as Hsort. inversion Hsort as [|? ? Hsort' _]; subst.
    apply N.lt_le_incl. eapply (StronglySorted_app_1_elem_of N.lt (take j (sd_round <$> sds)) (drop j (sd_round <$> sds))).
    + by rewrite take_drop.
    + apply list_elem_of_lookup. exists i. rewrite lookup_take_lt by lia. by rewrite list_lookup_fmap, Hsd.
    + apply list_elem_of_lookup. exists 0. rewrite lookup_drop, Nat.add_0_r. by rewrite list_lookup_fmap, Hsd'.
  - destruct (chain_blocks _ _ _ _ _ _ Hchain) as (Hnd & _). replace (placed_refs sds) with (map reference (sds ≫= sd_blocks)); [done|].
    clear. unfold placed. induction sds as [|sd sds IH]; [done|]. cbn. rewrite map_app, fmap_app, IH. f_equal.
    rewrite <- list_fmap_compose. done.
Qed.

Lemma chain_above_gc ds leaders sds commits ds' :
  commit_chain c ds leaders sds commits ds' → commits_above_gc (ds_context ds) sds.
Proof.
  induction 1 as [ds|ds leader sd0 commit ds1 leaders sds commits ds' _ Hstep Hst _ Hchain IH]; [done|].
  rewrite (ct_context _ _ _ _ Hst) in IH. intros [|i] sd sd' b Hi Hi' Hb; [|by eapply (IH i)].
  injection Hi as <-. destruct Hchain as [|ds1 leader1 sd1 commit1 ds2 leaders sds commits ds' _ Hstep1 _ _ _]; [done|].
  injection Hi' as <-. apply (ln_exact _ _ _ _ _ (CommitOrder.cs_blocks _ _ _ _ _ Hstep1)) in Hb as (_ & _ & Hgc & _).
  destruct (committed_last _ _ _ _ _ _ Hstep Hst) as (_ & Hl & _).
  unfold gc_round, calculate_gc_round in Hgc. rewrite Hl, (ct_context _ _ _ _ Hst) in Hgc.
  unfold sd_round. by rewrite (proj1 (CommitOrder.cs_leader _ _ _ _ _ Hstep)).
Qed.

Lemma chain_lengths ds leaders sds commits ds' :
  commit_chain c ds leaders sds commits ds' → length leaders = length commits.
Proof. induction 1; cbn; congruence. Qed.

Lemma chain_above ds leaders sds commits ds' b :
  commit_chain c ds leaders sds commits ds' → b ∈ sds ≫= sd_blocks → (gc_round ds < round b)%N.
Proof.
  induction 1 as [ds|ds leader sd commit ds1 leaders sds commits ds' [_ Hr] Hstep Hst Hv1 Hchain IH]; cbn;
    [by intros []%not_elem_of_nil|].
  intros [Hb|Hb]%elem_of_app; [by apply (ln_exact _ _ _ _ _ (CommitOrder.cs_blocks _ _ _ _ _ Hstep))|].
  specialize (IH Hb). destruct (committed_last _ _ _ _ _ _ Hstep Hst) as (_ & Hl & _).
  unfold gc_round, calculate_gc_round in *. rewrite Hl, (ct_context _ _ _ _ Hst) in IH. lia.
Qed.

End chain.

(** ** The pipeline *)
Section pipeline.
Context {S : Type} `{Store S}.
Context (ctx : Context) (Hc : committee_ok (committee ctx)) (Hq : (0 < quorum_threshold (committee ctx))%N).

(** Finalizing the next sub-dag, with the commits output so far. *)
Definition finalize_next (ds : DagState S) (vt : VoteTrackerState) (st : CommitFinalizer * list CommittedSubDag)
    (sd : CommittedSubDag) : outcome (CommitFinalizer * list CommittedSubDag) :=
  '(cf, o) ← process_commit ds vt st.1 sd; Done (cf, st.2 ++ o).

Lemma finalize_stream ds vt E out cf L :
  ds_context ds = ctx → finalizer_run (S := S) ctx E out cf → stream_ok (committee ctx) (E.*2 ++ L) →
  tracks ctx vt (E.*2 ++ L) →
  ∃ cf' out', for_each (finalize_next ds vt) (cf, out) L = Done (cf', out') ∧
    finalizer_run (S := S) ctx (E ++ (pair vt <$> L)) out' cf'.
Proof.
  intros Hds. revert E out cf. induction L as [|sd L IH]; intros E out cf Hrun Hs Htr; cbn [for_each fmap list_fmap].
  { exists cf, out. by rewrite app_nil_r. }
  destruct (finalizer_run_ok ctx Hc Hq _ _ _ Hrun) as [Hok _]. rewrite cons_middle, app_assoc in Hs, Htr.
  destruct (process_input_ok ctx Hc Hq E out cf ds vt sd Hok Hds) as (cf1 & o & Hp & _); [by eapply stream_ok_prefix| |].
  { destruct (pending_suffix _ _ _ _ Hok) as [L0 HL0]. destruct Htr as (h & Hh & Hb). exists h. split; [done|].
    intros x b Hx. apply Hb. rewrite <- HL0. set_solver. }
  unfold finalize_next at 2. cbn [fst snd]. rewrite Hp. run_bind.
  assert (finalizer_run (S := S) ctx (E ++ [(vt, sd)]) (out ++ o) cf1) as Hrun1.
  { apply (finalizer_run_commit ctx E out cf ds); [done|done|by eapply stream_ok_prefix| |done].
    destruct (pending_suffix _ _ _ _ Hok) as [L0 HL0]. destruct Htr as (h & Hh & Hb). exists h. split; [done|].
    intros x b Hx. apply Hb. rewrite <- HL0. set_solver. }
  destruct (IH _ _ _ Hrun1) as (cf' & out' & Hfe & Hrun'); [by rewrite fmap_app|by rewrite fmap_app|].
  exists cf', out'. rewrite <- app_assoc in Hrun'. done.
Qed.

End pipeline.

(** C6: from leaders to finalized commits. On a closed view with the votes of all its
    blocks above the gc round, a sequence of decided leaders of growing rounds is
    linearized and its sub-dags are finalized without a panic and within the fuel
    of all loops. The leaders of the output commits, followed by those of the
    buffered ones, are the given leaders in order; a leader three or more rounds
    below another one is output; every transaction of an output commit is
    rejected or finalized for the reasons of the finalizer; and the blocks of a
    sub-dag are above the gc round of the leader before. *)
Theorem commit_pipeline {S : Type} `{StoreLaws S} `{BlockCodec} `{CommitCodec} (ds : DagState S) leaders vt h
    (ctx := ds_context ds) (c := committee ctx) :
  committee_ok c → (0 < quorum_threshold c)%N → (∀ commit, is_Some (bcs_commit commit)) →
  commit_view c ds → small_blocks ds → leaders_ok ds leaders → (last_commit_index ds + lengthN leaders < u32_modulus)%N →
  vote_tracker_ok ctx h vt →
  (∀ b, cached ds !! reference b = Some b → (gc_round ds < round b)%N → (h.1 < round b)%N ∧ reference b ∈ dom h.2) →
  ∃ ds' sds cf out, handle_commit ds leaders = Done (ds', sds) ∧
    for_each (finalize_next ds vt) (CommitFinalizer_new ctx, []) sds = Done (cf, out) ∧
    map sd_leader out ++ map sd_leader (commits (cf_pending_commits cf)) = map reference leaders ∧
    (∀ a b, a ∈ leaders → b ∈ leaders → (round a + INDIRECT_REJECT_DEPTH ≤ round b)%N → reference a ∈ map sd_leader out) ∧
    (∀ sd b idx, sd ∈ out → b ∈ sd_blocks sd → (idx < lengthN (transactions b))%N →
      if decide (idx ∈ default [] (sd_rejected_transactions_by_block sd !! reference b))
      then rejected_because ctx (pair vt <$> sds) sd (reference b) idx
      else finalized_because ctx (pair vt <$> sds) sd (reference b) idx) ∧
    commits_above_gc ctx sds.
Proof.
  intros Hc Hq Hcodec Hv Hsm Hlo Hidx Hvt Htr.
  destruct (handle_leaders c Hq Hcodec ds [] leaders Hv Hlo Hidx) as (ds' & sds & commits0 & Hrun & Hchain & Hv').
  destruct (chain_numbers c ds leaders sds commits0 ds' Hchain) as (Hl & _).
  assert (stream_ok c sds) as Hs.
  { eapply chain_stream; [done|done|done|done|]. unfold lengthN in *. by rewrite <- (chain_lengths _ _ _ _ _ _ Hchain). }
  assert ((pair vt <$> sds).*2 = sds) as HE by (rewrite <- list_fmap_compose; apply list_fmap_id).
  destruct (finalize_stream ctx Hc Hq ds vt [] [] (CommitFinalizer_new ctx) sds) as (cf & out & Hfin & Hfr);
    [done|apply finalizer_run_start|done| |].
  { exists h. split; [done|]. intros sd b Hsd Hb. assert (b ∈ sds ≫= sd_blocks) as Hb' by (apply list_elem_of_bind; by eauto).
    apply Htr; [by eapply chain_cached|by eapply chain_above]. }
  cbn [app] in Hfr. destruct (finalizer_run_ok ctx Hc Hq _ _ _ Hfr) as [Hok Hvts].
  assert (∀ l, map sd_leader l = map sd_leader (clear_rejected <$> l)) as Hclear by (induction l as [|x l IH]; cbn; [done|by rewrite IH]).
  exists ds', sds, cf, out. split_and!; [done|done| | | |by eapply chain_above_gc].
  - pose proof (output_commits _ _ _ _ Hok) as Hout. rewrite HE in Hout.
    rewrite <- Hl, (Hclear out), (Hclear (commits _)), <- map_app, Hout. symmetry. apply Hclear.
  - intros a b Ha Hb Hround. apply (list_elem_of_fmap_2 reference) in Ha, Hb. rewrite list_fmap_alt, <- Hl in Ha, Hb.
    rewrite <- list_fmap_alt in Ha, Hb. apply list_elem_of_fmap in Ha as (sa & Hsa & Hina), Hb as (sb & Hsb & Hinb).
    rewrite Hclear. rewrite <- list_fmap_alt. apply list_elem_of_fmap. exists (clear_rejected sa). split; [done|].
    apply (output_after_delay ctx Hq (pair vt <$> sds) out cf sa sb); [done|by rewrite HE|by rewrite HE|]. unfold sd_round. by rewrite <- Hsa, <- Hsb.
  - intros sd b idx Hsd Hb Hi. apply (output_justified ctx Hc Hq _ out cf sd b idx Hok Hvts); [by rewrite HE|done|done|done].
Qed.

(** ** A concrete node *)

Definition cached_blocks (ds : DagState MemStore.Inner) : list VerifiedBlock :=
  (λ kv, bi_block kv.2) <$> map_to_list (ds_recent_blocks ds).

Lemma elem_of_cached_blocks ds r b : cached ds !! r = Some b → b ∈ cached_blocks ds.
Proof.
  rewrite cached_lookup. intros (i & Hi & ->)%fmap_Some. apply list_elem_of_fmap. exists (r, i).
  split; [done|]. by apply elem_of_map_to_list.
Qed.

Definition pipeline_ops : list tracker_op := (λ b, AddBlock b []) <$> cached_blocks sample_node_1.

Definition pipeline_votes : VoteTrackerState :=
  from_done (VoteTrackerState_new (ds_context sample_node_1))
    (for_each tracker_step (VoteTrackerState_new (ds_context sample_node_1)) pipeline_ops).

(** A property of all cached blocks of the node, checked by evaluation. *)
Lemma cached_check (P : VerifiedBlock → bool) ds r b :
  forallb P (cached_blocks ds) = true → cached ds !! r = Some b → P b = true.
Proof. intros HP Hb. rewrite forallb_forall in HP. apply HP, list_elem_of_In. by eapply elem_of_cached_blocks. Qed.

Lemma pipeline_votes_ok : vote_tracker_ok (ds_context sample_node_1) (taken_by pipeline_ops) pipeline_votes.
Proof.
  destruct (tracker_run_ok (ds_context sample_node_1) (GENESIS_ROUND, ∅) (VoteTrackerState_new (ds_context sample_node_1)) pipeline_ops)
    as (st & Hrun & Hok); [exact committee_4_ok| | |apply VoteTrackerState_new_ok|unfold pipeline_votes; rewrite Hrun; exact Hok].
  - apply Forall_fmap. apply (bool_decide_unpack (Forall (λ b, author b < Committee_size committee_4)%N (cached_blocks sample_node_1))).
    vm_compute. exact I.
  - vm_compute. exact I.
Qed.

Lemma commit_pipeline_witness :
  ∃ ds' sds cf out, handle_commit sample_node_1 sample_leaders = Done (ds', sds) ∧
    for_each (finalize_next sample_node_1 pipeline_votes) (CommitFinalizer_new (ds_context sample_node_1), []) sds = Done (cf, out) ∧
    map sd_leader out ++ map sd_leader (commits (cf_pending_commits cf)) = [mkBlockRef 1 0 10; mkBlockRef 3 0 30].
Proof.
  destruct (commit_pipeline sample_node_1 sample_leaders pipeline_votes (taken_by pipeline_ops))
    as (ds' & sds & cf & out & Hrun & Hfin & Hl & _).
  - exact committee_4_ok.
  - reflexivity.
  - intros commit. by eexists.
  - exact (proj1 (proj1 sample_commit_views)).
  - assert (forallb (λ b, bool_decide (lengthN (transactions b) < u16_modulus)%N) (cached_blocks sample_node_1) = true) as Hall
      by (vm_compute; reflexivity).
    intros r b Hb. exact (bool_decide_eq_true_1 _ (cached_check _ _ _ _ Hall Hb)).
  - exact (proj1 sample_leaders_ok).
  - vm_compute. reflexivity.
  - exact pipeline_votes_ok.
  - assert ((let h := taken_by pipeline_ops in let D := dom h.2 in
      forallb (λ b, bool_decide ((h.1 < round b)%N ∧ reference b ∈ D)) (cached_blocks sample_node_1)) = true) as Hall
      by (vm_compute; reflexivity).
    cbv zeta in Hall.
    intros b Hb _. exact (bool_decide_eq_true_1 _ (cached_check _ _ _ _ Hall Hb)).
  - exists ds', sds, cf, out. split; [exact Hrun|]. split; [exact Hfin|]. rewrite Hl. reflexivity.
Defined.
