(* ===== verification/LeaderScheduleV3.v ===== *)
(** * Leader schedule of version 3 (consensus/core/src/leader_schedule_v3.rs)

    The sliding-window scorer that selects the authorities allowed to lead: its
    operations, the state they compute from the stream of commits, the recovery
    of that state from the store, and the selection of leaders. Metrics are not
    modelled, except for the checked multiplication that can panic. *)

From S2P Require Import Prelude Committee Block StakeAggregator Commit Store LeaderScoring DagState LeaderSchedule.

Definition MAX_PENDING_COMMITS : N := 3.

Record NextCommitLeaderSchedule := mkNextCommitLeaderSchedule {
  sched_next_commit_index : N;
  sched_min_next_leader_round : N;
  allowed_leaders : list N;
}.

Definition NextCommitLeaderSchedule_default : NextCommitLeaderSchedule :=
  mkNextCommitLeaderSchedule 0 0 [].

Definition num_leaders (s : NextCommitLeaderSchedule) : N := lengthN (allowed_leaders s).

Record ScoresEntry := mkScoresEntry {
  se_commit_ref : CommitRef;
  score_contributions : list N;
  se_num_leaders : N;
  se_leader_stakes : N;
}.

(** The running totals over the entries of the window. *)
Record ScoreTotals := mkScoreTotals {
  total_scores_per_authority : list N;
  total_num_leaders : N;
  total_leader_stakes : N;
}.

Record LeaderScheduleV3 := mkLeaderScheduleV3 {
  v3_context : Context;
  v3_totals : ScoreTotals;
  pending_commits : list CommittedSubDag;
  scores_entries : list ScoresEntry;
  current_schedule : NextCommitLeaderSchedule;
}.

(** [u64::to_le_bytes], and the 32 bytes of a digest (a big-endian number). *)
Definition u64_to_le_bytes (x : N) : list N :=
  (λ i, (x / 256 ^ i) `mod` 256)%N <$> rangeN 0 8.

Definition digest_bytes (d : N) : list N :=
  (λ i, (d / 256 ^ (31 - i)) `mod` 256)%N <$> rangeN 0 32.

Definition next_commit_index (s : LeaderScheduleV3) : N :=
  default 0%N ((λ c, cref_index (sd_commit_ref c)) <$> last (pending_commits s)) +₃₂ 1.

Definition min_next_leader_round (s : LeaderScheduleV3) : N :=
  default 0%N ((λ c, ref_round (sd_leader c)) <$> last (pending_commits s)) +₃₂ 1.

Definition replay_start (ctx : Context) (last_commit_index : N) : N :=
  let window_size := leader_schedule_window_size (protocol_config ctx) in
  let update_interval := leader_schedule_update_interval (protocol_config ctx) in
  let last_schedule_update_index := ((last_commit_index / update_interval)%N *₃₂ update_interval) +₃₂ 1 in
  N.max (last_schedule_update_index - (window_size +₃₂ MAX_PENDING_COMMITS)) 1.

(** The loop that pops the authorities with the lowest scores, on the reversed
    list: what remains when their stake would exceed the cutoff. *)
Fixpoint pop_low_scores (c : Committee) (cutoff accumulated_bad_stake : N) (l : list (N * N)) :
    outcome (list (N * N)) :=
  match l with
  | [] => Done []
  | (idx, score) :: rest =>
      s ← Committee_stake c idx;
      if decide (cutoff < accumulated_bad_stake +₆₄ s)%N then Done l
      else pop_low_scores c cutoff (accumulated_bad_stake +₆₄ s) rest
  end.

(** The scan of [C-2, C-1, C] up to the first commit with a leader round above
    [upper]. *)
Fixpoint scan_until_above (upper : N) (l : list CommittedSubDag) : list CommittedSubDag :=
  match l with
  | [] => []
  | cmt :: l => cmt :: (if decide (upper < ref_round (sd_leader cmt))%N then [] else scan_until_above upper l)
  end.

Definition scan_commits_until_leader_round_above (pending : list CommittedSubDag)
    (c : CommittedSubDag) (upper : N) : outcome (list CommittedSubDag) :=
  let out := scan_until_above upper (drop 1 pending ++ [c]) in
  rassert (default false ((λ cmt, bool_decide (upper < ref_round (sd_leader cmt))%N) <$> last out) = true);;
  Done out.

(** [voting_blocks_by_author.entry(b.author()).or_default().push(b)]. *)
Definition group_by_author (l : list VerifiedBlock) : gmap N (list VerifiedBlock) :=
  foldl (λ m b, <[author b := default [] (m !! author b) ++ [b]]> m) ∅ l.

Definition blocks_at_round (r : N) (l : list CommittedSubDag) : list VerifiedBlock :=
  filter (λ b, round b = r) (l ≫= sd_blocks).

(** The sum of the stakes of a set of authorities. *)
Definition sum_stakes (c : Committee) (authorities : list N) : outcome N :=
  stakes ← mapM (Committee_stake c) authorities; Done (u64_sum stakes).

(** The body of the loop over the voting blocks of one author. *)
Definition score_author (c : Committee) (leader_refs : gset BlockRef)
    (certifying_blocks : list VerifiedBlock) (contributions : list N)
    (entry : N * list VerifiedBlock) : outcome (list N) :=
  match entry.2 with
  | [voting_block] =>
      let leader_authorities : gset N :=
        foldl (λ X anc, if decide (anc ∈ leader_refs) then {[ref_author anc]} ∪ X else X) ∅
          (ancestors voting_block) in
      voted_for_stake ← sum_stakes c (set_in_order N.le leader_authorities);
      if decide (voted_for_stake = 0%N) then Done contributions
      else
        let certifying_authorities : gset N :=
          foldl (λ X b, if decide (reference voting_block ∈ ancestors b) then {[author b]} ∪ X else X) ∅
            certifying_blocks in
        certified_by_stake ← sum_stakes c (set_in_order N.le certifying_authorities);
        product ← unwrap (u64_checked_mul voted_for_stake certified_by_stake);
        vec_set contributions entry.1 product
  | _ => Done contributions
  end.

(** [totals[i] = totals[i].checked_op(x).unwrap()] for every element. *)
Definition update_totals (op : N → N → option N) (totals deltas : list N) : outcome (list N) :=
  for_each (λ totals '(i, x),
      old ← vec_index totals i;
      new ← unwrap (op old x);
      vec_set totals i new)
    totals (zip (rangeN 0 (lengthN deltas)) deltas).

(** Subtracting an evicted entry, adding a new one. *)
Definition apply_entry (op : N → N → option N) (t : ScoreTotals) (e : ScoresEntry) : outcome ScoreTotals :=
  scores ← update_totals op (total_scores_per_authority t) (score_contributions e);
  leaders ← unwrap (op (total_num_leaders t) (se_num_leaders e));
  leader_stakes ← unwrap (op (total_leader_stakes t) (se_leader_stakes e));
  Done (mkScoreTotals scores leaders leader_stakes).

(** The eviction loop: entries leave from the front while the window is full. *)
Fixpoint evict_entries (window_size : N) (t : ScoreTotals) (entries : list ScoresEntry) :
    outcome (ScoreTotals * list ScoresEntry) :=
  if decide (window_size ≤ lengthN entries)%N then
    match entries with
    | [] => Panic
    | evicted :: entries =>
        t ← apply_entry checked_sub t evicted;
        evict_entries window_size t entries
    end
  else Done (t, entries).

(** The checked multiplication of [report_metrics], done for every authority
    with a host name. *)
Definition report_metrics (s : LeaderScheduleV3) : outcome () :=
  let c := committee (v3_context s) in
  for_each (λ _ '(i, _),
      idx ← unwrap (to_authority_index c i);
      a ← authority c idx;
      if decide (hostname a = EmptyString) then Done ()
      else unwrap (u64_checked_mul (total_leader_stakes (v3_totals s)) (total_stake c));; Done ())
    () (zip (rangeN 0 (lengthN (total_scores_per_authority (v3_totals s))))
          (total_scores_per_authority (v3_totals s))).

Section schedule_v3.
Context `{LeaderRng}.

Definition select_allowed_leaders_with_fixed_config (s : LeaderScheduleV3) : outcome (list N) :=
  let ctx := v3_context s in
  let c := committee ctx in
  let scores := total_scores_per_authority (v3_totals s) in
  by_score ← mapM (λ '(i, score), a ← unwrap (to_authority_index c i); Done (a, score))
    (zip (rangeN 0 (lengthN scores)) scores);
  let seed_bytes := match last (pending_commits s) with
    | Some commit => digest_bytes (cref_digest (sd_commit_ref commit))
    | None => u64_to_le_bytes (epoch_start_timestamp_ms ctx) ++ u64_to_le_bytes (epoch c) ++ replicate 16 0%N
    end in
  let sorted := stable_sort score_ge (rng_shuffle seed_bytes by_score) in
  let cutoff := ((bad_nodes_stake_threshold (protocol_config ctx) *₆₄ total_stake c) / 100)%N in
  remaining ← pop_low_scores c cutoff 0 (reverse sorted);
  Done (reverse remaining).*1.

Definition compute_next_commit_leader_schedule (s : LeaderScheduleV3) : outcome NextCommitLeaderSchedule :=
  allowed ← select_allowed_leaders_with_fixed_config s;
  Done (mkNextCommitLeaderSchedule (next_commit_index s) (min_next_leader_round s) allowed).

Definition set_current_schedule (x : NextCommitLeaderSchedule) (s : LeaderScheduleV3) : LeaderScheduleV3 :=
  mkLeaderScheduleV3 (v3_context s) (v3_totals s) (pending_commits s) (scores_entries s) x.

Definition LeaderScheduleV3_new (ctx : Context) (totals : list N) : outcome LeaderScheduleV3 :=
  rassert (lengthN totals = Committee_size (committee ctx));;
  let s := mkLeaderScheduleV3 ctx (mkScoreTotals totals 0 0) [] [] NextCommitLeaderSchedule_default in
  schedule ← compute_next_commit_leader_schedule s;
  Done (set_current_schedule schedule s).

Definition refresh_current_schedule (s : LeaderScheduleV3) : outcome LeaderScheduleV3 :=
  let interval := leader_schedule_update_interval (protocol_config (v3_context s)) in
  if decide ((next_commit_index s - 1) `mod` interval = 0)%N then
    schedule ← compute_next_commit_leader_schedule s;
    Done (set_current_schedule schedule s)
  else
    Done (set_current_schedule (mkNextCommitLeaderSchedule (next_commit_index s) (min_next_leader_round s)
      (allowed_leaders (current_schedule s))) s).

Definition set_v3_pending_commits (l : list CommittedSubDag) (s : LeaderScheduleV3) : LeaderScheduleV3 :=
  mkLeaderScheduleV3 (v3_context s) (v3_totals s) l (scores_entries s) (current_schedule s).

(** The score entry for [C-3], with [C-2], [C-1] and [C] after it. *)
Definition score_commit (ctx : Context) (c_minus_3 : CommittedSubDag) (pending : list CommittedSubDag)
    (c : CommittedSubDag) : outcome ScoresEntry :=
  let leader_round := ref_round (sd_leader c_minus_3) in
  let vote_round := leader_round +₃₂ 1 in
  let certify_round := leader_round +₃₂ 2 in
  let leader_refs : gset BlockRef :=
    list_to_set (reference <$> filter (λ b, round b = leader_round) (sd_blocks c_minus_3)) in
  rassert (leader_refs ≠ ∅);;
  rassert (sd_leader c_minus_3 ∈ leader_refs);;
  voting_commits ← scan_commits_until_leader_round_above pending c vote_round;
  certifying_commits ← scan_commits_until_leader_round_above pending c certify_round;
  let voting_blocks_by_author := group_by_author (blocks_at_round vote_round voting_commits) in
  let certifying_blocks := blocks_at_round certify_round certifying_commits in
  contributions ← for_each (score_author (committee ctx) leader_refs certifying_blocks)
    (replicate (N.to_nat (Committee_size (committee ctx))) 0%N)
    (map_in_order N.le voting_blocks_by_author);
  leader_stakes ← sum_stakes (committee ctx) (ref_author <$> refs_in_order leader_refs);
  Done (mkScoresEntry (sd_commit_ref c_minus_3) contributions (lengthN (elements leader_refs)) leader_stakes).

Definition LeaderScheduleV3_add_commit (s : LeaderScheduleV3) (c : CommittedSubDag) : outcome LeaderScheduleV3 :=
  match last (pending_commits s) with
  | Some last => rassert (cref_index (sd_commit_ref c) = cref_index (sd_commit_ref last) +₃₂ 1)
  | None => Done ()
  end;;
  if decide (lengthN (pending_commits s) < MAX_PENDING_COMMITS)%N then
    s ← refresh_current_schedule (set_v3_pending_commits (pending_commits s ++ [c]) s);
    report_metrics s;;
    Done s
  else
    c_minus_3 ← vec_index (pending_commits s) 0;
    c_minus_2 ← vec_index (pending_commits s) 1;
    c_minus_1 ← vec_index (pending_commits s) 2;
    rassert (ref_round (sd_leader c_minus_3) < ref_round (sd_leader c_minus_2) ∧
             ref_round (sd_leader c_minus_2) < ref_round (sd_leader c_minus_1) ∧
             ref_round (sd_leader c_minus_1) < ref_round (sd_leader c))%N;;
    entry ← score_commit (v3_context s) c_minus_3 (pending_commits s) c;
    '(totals, entries) ← evict_entries (leader_schedule_window_size (protocol_config (v3_context s)))
      (v3_totals s) (scores_entries s);
    totals ← apply_entry u64_checked_add totals entry;
    s ← refresh_current_schedule (mkLeaderScheduleV3 (v3_context s) totals
      (drop 1 (pending_commits s) ++ [c]) (entries ++ [entry]) (current_schedule s));
    report_metrics s;;
    Done s.

Definition current_reputation_scores (s : LeaderScheduleV3) : ReputationScores :=
  let interval_size := leader_schedule_update_interval (protocol_config (v3_context s)) in
  let interval_num := ((sched_next_commit_index (current_schedule s) -₃₂ 1) / interval_size)%N in
  mkReputationScores (total_scores_per_authority (v3_totals s))
    (CommitRange_new ((interval_num *₃₂ interval_size) +₃₂ 1) ((interval_num +₃₂ 1) *₃₂ interval_size)).

Definition LeaderScheduleV3_from_store {S} `{Store S} (ctx : Context) (ds : DagState S) :
    outcome LeaderScheduleV3 :=
  s ← LeaderScheduleV3_new ctx (replicate (N.to_nat (Committee_size (committee ctx))) 0%N);
  let last := last_commit_index ds in
  if decide (last = 0%N) then Done s
  else
    commits ← call (store_scan_commits (ds_store ds) (CommitRange_new (replay_start ctx last) last));
    for_each (λ s commit, subdag ← load_committed_subdag_from_store (ds_store ds) commit; LeaderScheduleV3_add_commit s subdag)
      s commits.

End schedule_v3.
