(* ===== verification/LeaderScheduleV3Spec.v ===== *)
(** * Correctness of the leader schedule of version 3

    The state of [LeaderScheduleV3] as a function of the stream of commits: the
    scores of a commit as its documentation defines them, the window over the
    last commits, and the leaders selected at the last interval boundary. The
    operations compute that state without panicking, replaying the commits that
    [replay_start] names recovers it, and the selection excludes authorities by
    score within the stake threshold. *)

From S2P Require Import Prelude Committee Block StakeAggregator Commit Store LeaderScoring DagState DagDurability LeaderSchedule TransactionVoteTracker LeaderScheduleV3.

(** ** The last elements of a list *)

Definition lastn {A} (n : nat) (l : list A) : list A := drop (length l - n) l.

Lemma lastn_snoc {A} n (l : list A) x : lastn (S n) (l ++ [x]) = lastn n l ++ [x].
Proof.
  unfold lastn. rewrite length_app. cbn [length].
  replace (length l + 1 - S n) with (length l - n) by lia. by rewrite drop_app_le by lia.
Qed.

Lemma lastn_length {A} n (l : list A) : length (lastn n l) = n `min` length l.
Proof. unfold lastn. rewrite length_drop. lia. Qed.

Lemma lastn_app {A} n (l k : list A) : length k = n → lastn n (l ++ k) = k.
Proof. intros <-. unfold lastn. rewrite length_app. apply drop_app_length'. lia. Qed.

Lemma lastn_all {A} n (l : list A) : length l ≤ n → lastn n l = l.
Proof. intros. unfold lastn. by replace (length l - n) with 0 by lia. Qed.

Lemma lastn_lastn {A} n m (l : list A) : n ≤ m → lastn n (lastn m l) = lastn n l.
Proof.
  intros. unfold lastn. rewrite length_drop, drop_drop. f_equal. lia.
Qed.

(** Dropping a prefix does not change the last elements that remain. *)
Lemma lastn_drop {A} n k (l : list A) : k = 0 ∨ k + n ≤ length l → lastn n (drop k l) = lastn n l.
Proof.
  intros Hk. unfold lastn. rewrite length_drop, drop_drop. f_equal. lia.
Qed.

Lemma last_lastn {A} n (l : list A) : last (lastn (S n) l) = last l.
Proof.
  destruct l as [|x l _] using rev_ind; [done|]. by rewrite lastn_snoc, !last_snoc.
Qed.

(** ** The scores of a commit *)

Section score.
Context (c : Committee).

Definition leader_round_blocks (c0 : CommittedSubDag) : list VerifiedBlock :=
  filter (λ b, round b = ref_round (sd_leader c0)) (sd_blocks c0).

Definition leader_blocks (c0 : CommittedSubDag) : gset BlockRef :=
  list_to_set (reference <$> leader_round_blocks c0).

(** Blocks [d] rounds above the leader of [c0], in the following commits up to
    the first whose leader is above that round. *)
Definition blocks_above (d : N) (c0 : CommittedSubDag) (next : list CommittedSubDag) : list VerifiedBlock :=
  let r := (ref_round (sd_leader c0) + d)%N in blocks_at_round r (scan_until_above r next).

(** The authorities whose leader block [v] votes for, and the authorities with a
    block that certifies [v]. *)
Definition voted_for (c0 : CommittedSubDag) (v : VerifiedBlock) : gset N :=
  list_to_set (ref_author <$> filter (λ anc, anc ∈ leader_blocks c0) (ancestors v)).

Definition certified_by (certifying : list VerifiedBlock) (v : VerifiedBlock) : gset N :=
  list_to_set (author <$> filter (λ b, reference v ∈ ancestors b) certifying).

(** Zero for an authority without a voting block or with several. *)
Definition score_of_blocks (c0 : CommittedSubDag) (certifying voting : list VerifiedBlock) : N :=
  match voting with
  | [v] => set_stake c (voted_for c0 v) * set_stake c (certified_by certifying v)
  | _ => 0
  end.

Definition score_of_author (c0 : CommittedSubDag) (next : list CommittedSubDag) (a : N) : N :=
  score_of_blocks c0 (blocks_above 2 c0 next) (filter (λ b, author b = a) (blocks_above 1 c0 next)).

Definition scored (c0 : CommittedSubDag) (next : list CommittedSubDag) : ScoresEntry :=
  mkScoresEntry (sd_commit_ref c0)
    (score_of_author c0 next <$> rangeN 0 (Committee_size c))
    (lengthN (elements (leader_blocks c0)))
    (sumN ((λ r, stake_of c (ref_author r)) <$> elements (leader_blocks c0))).

(** One entry for every commit that three others follow. *)
Fixpoint entries_of (l : list CommittedSubDag) : list ScoresEntry :=
  match l with
  | c0 :: ((c1 :: c2 :: c3 :: _) as rest) => scored c0 [c1; c2; c3] :: entries_of rest
  | _ => []
  end.

(** The sum of the entries, for every authority. *)
Definition score_in (a : N) (e : ScoresEntry) : N := default 0%N (score_contributions e !! N.to_nat a).

Definition totals_of (l : list ScoresEntry) : ScoreTotals :=
  mkScoreTotals ((λ a, sumN (score_in a <$> l)) <$> rangeN 0 (Committee_size c))
    (sumN (se_num_leaders <$> l)) (sumN (se_leader_stakes <$> l)).

End score.

(** The state that the commits [l] lead to, apart from the current schedule. *)
Definition window_of (ctx : Context) (l : list CommittedSubDag) : LeaderScheduleV3 :=
  let window := N.to_nat (leader_schedule_window_size (protocol_config ctx)) in
  let entries := lastn window (entries_of (committee ctx) l) in
  mkLeaderScheduleV3 ctx (totals_of (committee ctx) entries) (lastn 3 l) entries NextCommitLeaderSchedule_default.

(** ** Commits that can be scored *)

Record scorable (c : Committee) (d : CommittedSubDag) : Prop := {
  so_leader : sd_leader d ∈ reference <$> sd_blocks d;
  so_authors b : b ∈ sd_blocks d → (author b < Committee_size c)%N;
  so_distinct : NoDup (ref_author <$> elements (leader_blocks d));
  so_round : (ref_round (sd_leader d) + 2 < u32_modulus)%N;
  so_index : (cref_index (sd_commit_ref d) + 1 < u32_modulus)%N;
}.

(** Consecutive commits after the first [k], with increasing leader rounds. *)
Record scored_stream (c : Committee) (k : nat) (l : list CommittedSubDag) : Prop := {
  ss_scorable d : d ∈ l → scorable c d;
  ss_index i d : l !! i = Some d → cref_index (sd_commit_ref d) = N.of_nat (k + i + 1);
  ss_rounds i d d' : l !! i = Some d → l !! S i = Some d' →
    (ref_round (sd_leader d) < ref_round (sd_leader d'))%N;
}.

(** The bounds that keep the scores within their width. *)
Record schedule_bounds (ctx : Context) : Prop := {
  sb_committee : committee_ok (committee ctx);
  sb_scores : (leader_schedule_window_size (protocol_config ctx) *
    (total_stake (committee ctx) * total_stake (committee ctx)) < u64_modulus)%N;
  sb_window : (leader_schedule_window_size (protocol_config ctx) + 3 < u32_modulus)%N;
}.

(** ** The entries of a stream *)

Section entries.
Context (c : Committee).

Lemma entries_of_cons d l :
  3 ≤ length l → entries_of c (d :: l) = scored c d (take 3 l) :: entries_of c l.
Proof. destruct l as [|c1 [|c2 [|c3 l]]]; cbn [length]; [lia..|done]. Qed.

Lemma entries_of_short l : length l ≤ 3 → entries_of c l = [].
Proof. destruct l as [|c0 [|c1 [|c2 [|c3 l]]]]; cbn [length]; [done..|lia]. Qed.

Lemma entries_of_snoc l c0 c1 c2 d :
  entries_of c ((l ++ [c0; c1; c2]) ++ [d]) = entries_of c (l ++ [c0; c1; c2]) ++ [scored c c0 [c1; c2; d]].
Proof.
  induction l as [|x l IH]; [done|]. cbn [app].
  rewrite !entries_of_cons by (rewrite !length_app; cbn [length]; lia).
  rewrite IH. cbn [app]. f_equal. rewrite (take_app_le (l ++ [c0; c1; c2]) [d]); [done|].
  rewrite length_app. cbn [length]. lia.
Qed.

Lemma entries_of_length l : length (entries_of c l) = length l - 3.
Proof.
  induction l as [|d l IH]; [done|]. destruct (decide (3 ≤ length l)).
  - rewrite entries_of_cons by done. cbn [length]. rewrite IH. lia.
  - rewrite entries_of_short by (cbn [length]; lia). cbn [length]. lia.
Qed.

Lemma entries_of_drop k l : entries_of c (drop k l) = drop k (entries_of c l).
Proof.
  revert l. induction k as [|k IH]; intros l; [by rewrite !drop_0|].
  destruct l as [|d l]; [done|]. cbn [drop]. rewrite IH. destruct (decide (3 ≤ length l)).
  - by rewrite entries_of_cons.
  - rewrite !entries_of_short by (cbn [length]; lia). by rewrite !drop_nil.
Qed.

Lemma elem_of_entries l e :
  e ∈ entries_of c l → ∃ d next, d ∈ l ∧ (∀ x, x ∈ next → x ∈ l) ∧ e = scored c d next.
Proof.
  induction l as [|d l IH]; [by intros ?%elem_of_nil|]. destruct (decide (3 ≤ length l)).
  - rewrite entries_of_cons by done. intros [->|He]%elem_of_cons.
    + exists d, (take 3 l). split_and!; [set_solver| |done].
      intros x (i & Hi & _)%elem_of_take. apply list_elem_of_lookup_2 in Hi. set_solver.
    + destruct (IH He) as (d' & next & ? & ? & ->). exists d', next. split_and!; [set_solver|set_solver|done].
  - rewrite entries_of_short by (cbn [length]; lia). by intros ?%elem_of_nil.
Qed.

End entries.

(** The window depends on the last commits only: as many as it holds, and the
    three that follow. *)
Lemma window_of_drop ctx k l (w := N.to_nat (leader_schedule_window_size (protocol_config ctx))) :
  k = 0 ∨ k + w + 3 ≤ length l → window_of ctx (drop k l) = window_of ctx l.
Proof.
  intros Hk. unfold window_of. rewrite entries_of_drop, !lastn_drop; [done|lia|].
  rewrite entries_of_length. unfold w in Hk. lia.
Qed.

(** ** Sums of stakes *)

Lemma foldl_collect {A B} `{Countable B} (P : A → Prop) `{!∀ x, Decision (P x)} (f : A → B) (X : gset B) l :
  foldl (λ X x, if decide (P x) then {[f x]} ∪ X else X) X l = list_to_set (f <$> filter P l) ∪ X.
Proof.
  revert X. induction l as [|x l IH]; intros X; cbn [foldl]; [cbn; set_solver|].
  rewrite IH, filter_cons. case_decide; cbn; set_solver.
Qed.

Section stakes.
Context (c : Committee) (Hc : committee_ok c).

Lemma sum_stakes_list l :
  (∀ a, a ∈ l → a < Committee_size c)%N → NoDup l →
  sum_stakes c l = Done (sumN (stake_of c <$> l)) ∧ (sumN (stake_of c <$> l) ≤ total_stake c)%N.
Proof.
  intros Hl Hnd. assert (sumN (stake_of c <$> l) ≤ total_stake c)%N as Hle.
  { rewrite <- set_sum_list_to_set by done. rewrite (co_total _ Hc). apply set_stake_le_total. }
  split; [|done]. unfold sum_stakes. rewrite (mapM_done _ (stake_of c)).
  - run_bind. rewrite u64_sum_small; [done|]. pose proof (co_bound _ Hc). lia.
  - intros a Ha. apply Committee_stake_valid. auto.
Qed.

Lemma sum_stakes_set (X : gset N) :
  (∀ a, a ∈ X → a < Committee_size c)%N →
  sum_stakes c (set_in_order N.le X) = Done (set_stake c X) ∧ (set_stake c X ≤ total_stake c)%N.
Proof.
  intros HX. destruct (sum_stakes_list (set_in_order N.le X)) as [-> Hle].
  - intros a Ha%elem_of_set_in_order. auto.
  - apply NoDup_set_in_order.
  - assert (sumN (stake_of c <$> set_in_order N.le X) = set_stake c X) as ->.
    { unfold set_stake, set_sum, set_in_order. by rewrite stable_sort_perm. }
    split; [done|]. rewrite (co_total _ Hc). apply set_stake_le_total.
Qed.

End stakes.

(** ** The score entry of a commit *)

Lemma group_by_author_lookup l a :
  group_by_author l !! a = match filter (λ b, author b = a) l with [] => None | bs => Some bs end.
Proof.
  unfold group_by_author. induction l as [|b l IH] using rev_ind; [done|].
  rewrite foldl_app, filter_app. cbn [foldl].
  rewrite filter_cons, filter_nil. destruct (decide (author b = a)) as [<-|Hne].
  - rewrite lookup_insert_eq, IH. by destruct (filter _ l).
  - rewrite lookup_insert_ne by done. rewrite IH, (right_id [] _). done.
Qed.

(** One update of distinct positions that hold zero. *)
Lemma for_each_scores {X} (f : list N → N * X → outcome (list N)) (g : N * X → N) l v :
  NoDup l.*1 → (∀ x, x ∈ l → v !! N.to_nat x.1 = Some 0%N) →
  (∀ v x, x ∈ l → v !! N.to_nat x.1 = Some 0%N → f v x = Done (<[N.to_nat x.1 := g x]> v)) →
  ∃ v', for_each f v l = Done v' ∧ length v' = length v ∧
    (∀ x, x ∈ l → v' !! N.to_nat x.1 = Some (g x)) ∧
    (∀ a, a ∉ l.*1 → v' !! N.to_nat a = v !! N.to_nat a).
Proof.
  revert v. induction l as [|x l IH]; intros v Hnd Hv Hf; cbn [for_each].
  { exists v. split_and!; [done|done|by intros ? ?%elem_of_nil|done]. }
  cbn [fmap list_fmap] in Hnd. apply NoDup_cons in Hnd as [Hx Hnd].
  rewrite Hf by eauto with lists. run_bind.
  assert (∀ y, y ∈ l → N.to_nat y.1 ≠ N.to_nat x.1) as Hne.
  { intros y Hy Heq%N2Nat.inj. apply Hx. rewrite <- Heq. by apply list_elem_of_fmap_2. }
  destruct (IH (<[N.to_nat x.1 := g x]> v)) as (v' & -> & Hlen & Hin & Hout).
  { done. }
  { intros y Hy. rewrite list_lookup_insert_ne by (symmetry; auto). auto with lists. }
  { intros. apply Hf; auto with lists. }
  exists v'. rewrite length_insert in Hlen. split_and!; [done|done| |].
  - intros y [->|Hy]%elem_of_cons; [|auto]. rewrite Hout by done.
    apply list_lookup_insert_eq. apply lookup_lt_is_Some. exists 0%N. eauto with lists.
  - intros a Ha. rewrite Hout by set_solver. apply list_lookup_insert_ne.
    intros Heq%N2Nat.inj. apply Ha. rewrite <- Heq. cbn. set_solver.
Qed.

Lemma scan_until_above_last upper l d :
  d ∈ l → (upper < ref_round (sd_leader d))%N →
  ∃ d', last (scan_until_above upper l) = Some d' ∧ (upper < ref_round (sd_leader d'))%N.
Proof.
  intros Hd Hlt. induction l as [|x l IH]; [by apply elem_of_nil in Hd|]. cbn [scan_until_above].
  case_decide as Hx; [by exists x|]. apply elem_of_cons in Hd as [->|Hd]; [done|].
  destruct (IH Hd) as (d' & Hlast & ?). exists d'. by rewrite last_cons, Hlast.
Qed.

Lemma elem_of_scan_until_above upper l d : d ∈ scan_until_above upper l → d ∈ l.
Proof.
  induction l as [|x l IH]; cbn [scan_until_above]; [done|].
  case_decide; rewrite !elem_of_cons; [set_solver|naive_solver].
Qed.

Section entry.
Context (ctx : Context) (Hb : schedule_bounds ctx).
Let c := committee ctx.

Lemma stake_square_small x y : (x ≤ total_stake c)%N → (y ≤ total_stake c)%N →
  (x * y ≤ total_stake c * total_stake c < u64_modulus)%N.
Proof.
  intros. split; [by apply N.mul_le_mono|].
  pose proof (sb_scores _ Hb) as Hs. eapply N.le_lt_trans; [|exact Hs].
  rewrite <- (N.mul_1_l (_ * _)) at 1. apply N.mul_le_mono_r.
  unfold leader_schedule_window_size. lia.
Qed.

Lemma voted_for_valid d v : scorable c d → ∀ a, a ∈ voted_for d v → (a < Committee_size c)%N.
Proof.
  intros Hd a. unfold voted_for, leader_blocks, leader_round_blocks.
  rewrite elem_of_list_to_set, list_elem_of_fmap. intros (r & -> & [Hr _]%list_elem_of_filter).
  apply elem_of_list_to_set, list_elem_of_fmap in Hr as (b & -> & [_ Hb']%list_elem_of_filter).
  by apply (so_authors _ _ Hd).
Qed.

Lemma certified_by_valid l v :
  (∀ b, b ∈ l → author b < Committee_size c)%N → ∀ a, a ∈ certified_by l v → (a < Committee_size c)%N.
Proof.
  intros Hl a. unfold certified_by. rewrite elem_of_list_to_set, list_elem_of_fmap.
  intros (b & -> & [_ ?]%list_elem_of_filter). auto.
Qed.

Lemma score_of_blocks_bound d certifying voting :
  scorable c d → (∀ b, b ∈ certifying → author b < Committee_size c)%N →
  (score_of_blocks c d certifying voting ≤ total_stake c * total_stake c)%N.
Proof.
  intros Hd Hl. unfold score_of_blocks. destruct voting as [|v [|]]; [lia| |lia].
  apply stake_square_small; eapply sum_stakes_set; eauto using sb_committee, voted_for_valid, certified_by_valid.
Qed.

Lemma score_author_spec d certifying v x :
  scorable c d → (∀ b, b ∈ certifying → author b < Committee_size c)%N →
  v !! N.to_nat x.1 = Some 0%N →
  score_author c (leader_blocks d) certifying v x =
    Done (<[N.to_nat x.1 := score_of_blocks c d certifying x.2]> v).
Proof.
  intros Hd Hl Hx. assert (<[N.to_nat x.1 := 0%N]> v = v) as Hid by (by apply list_insert_id).
  unfold score_author, score_of_blocks. destruct x.2 as [|b [|]]; cbn [fst] in *; [by rewrite Hid| |by rewrite Hid].
  rewrite !foldl_collect, !(right_id_L ∅ (∪)). fold (voted_for d b) (certified_by certifying b).
  destruct (sum_stakes_set c (sb_committee _ Hb) (voted_for d b)) as [-> Hv]; [by apply voted_for_valid|].
  run_bind. case_decide as H0; [by rewrite H0, N.mul_0_l, Hid|].
  destruct (sum_stakes_set c (sb_committee _ Hb) (certified_by certifying b)) as [-> Hcb].
  { by apply certified_by_valid. }
  run_bind. unfold u64_checked_mul. rewrite decide_True
    by (eapply N.le_lt_trans; apply (stake_square_small _ _ Hv Hcb)). cbn [unwrap]. run_bind.
  apply vec_set_lt. by apply lookup_lt_Some in Hx.
Qed.

Lemma scan_commits_done c0 c1 c2 d upper :
  (upper < ref_round (sd_leader d))%N →
  scan_commits_until_leader_round_above [c0; c1; c2] d upper = Done (scan_until_above upper [c1; c2; d]).
Proof.
  intros Hlt. unfold scan_commits_until_leader_round_above. cbn [drop app].
  destruct (scan_until_above_last upper [c1; c2; d] d) as (d' & -> & ?); [set_solver|done|].
  cbn [fmap option_fmap option_map default]. rewrite rassert_true; [done|]. by apply bool_decide_eq_true_2.
Qed.

Lemma blocks_above_valid r c0 next :
  (∀ d, d ∈ next → scorable c d) → ∀ b, b ∈ blocks_above r c0 next → (author b < Committee_size c)%N.
Proof.
  intros Hs b. unfold blocks_above, blocks_at_round.
  intros [_ (d & Hb' & Hd)%list_elem_of_bind]%list_elem_of_filter.
  apply (so_authors _ _ (Hs d (elem_of_scan_until_above _ _ _ Hd))). done.
Qed.

(** The contributions the loop computes are the scores of the documentation. *)
Lemma contributions_spec c0 next :
  scorable c c0 → (∀ d, d ∈ next → scorable c d) →
  for_each (score_author c (leader_blocks c0) (blocks_above 2 c0 next))
    (replicate (N.to_nat (Committee_size c)) 0%N)
    (map_in_order N.le (group_by_author (blocks_above 1 c0 next))) =
  Done (score_of_author c c0 next <$> rangeN 0 (Committee_size c)).
Proof.
  intros H0 Hs. set (m := group_by_author (blocks_above 1 c0 next)).
  assert (∀ a bs, (a, bs) ∈ map_in_order N.le m → bs = filter (λ b, author b = a) (blocks_above 1 c0 next) ∧
    (a < Committee_size c)%N) as Hm.
  { intros a bs Hin%elem_of_map_in_order. unfold m in Hin. rewrite group_by_author_lookup in Hin.
    destruct (filter _ _) as [|b bs'] eqn:Hf; [done|]. injection Hin as <-. split; [done|].
    assert (b ∈ filter (λ b, author b = a) (blocks_above 1 c0 next)) as Hb' by (rewrite Hf; set_solver).
    apply list_elem_of_filter in Hb' as [<- Hb']. by eapply blocks_above_valid. }
  destruct (for_each_scores (score_author c (leader_blocks c0) (blocks_above 2 c0 next))
    (λ x, score_of_blocks c c0 (blocks_above 2 c0 next) x.2) (map_in_order N.le m)
    (replicate (N.to_nat (Committee_size c)) 0%N)) as (v & -> & Hlen & Hin & Hout).
  { rewrite map_in_order_keys. apply NoDup_set_in_order. }
  { intros [a bs] [_ Ha]%Hm. apply lookup_replicate_2. cbn. lia. }
  { intros. apply score_author_spec; [done| |done]. by apply blocks_above_valid. }
  f_equal. apply list_eq. intros i. rewrite list_lookup_fmap.
  destruct (decide (i < N.to_nat (Committee_size c))) as [Hi|Hi].
  2:{ rewrite !lookup_ge_None_2; [done|by rewrite rangeN_length; lia|].
      rewrite Hlen, length_replicate. lia. }
  rewrite rangeN_lookup by lia. cbn [fmap option_fmap option_map]. rewrite N.add_0_l. unfold score_of_author.
  destruct (m !! N.of_nat i) as [bs|] eqn:Hbs.
  - pose proof (proj2 (elem_of_map_in_order N.le m (N.of_nat i) bs) Hbs) as Hbs'.
    apply Hin in Hbs' as Hv. cbn [fst snd] in Hv. rewrite Nat2N.id in Hv. rewrite Hv.
    by destruct (Hm _ _ Hbs') as [-> _].
  - unfold m in Hbs. rewrite group_by_author_lookup in Hbs. destruct (filter _ _) eqn:Hf; [|done].
    rewrite <- (Nat2N.id i) at 1. rewrite Hout, Nat2N.id.
    + by apply lookup_replicate_2.
    + intros (x & Hx & Hx')%list_elem_of_fmap. destruct x as [a bs]. cbn in Hx. subst a.
      apply elem_of_map_in_order in Hx'. unfold m in Hx'. rewrite group_by_author_lookup, Hf in Hx'. done.
Qed.

Lemma score_commit_spec c0 c1 c2 d :
  (∀ x, x ∈ [c0; c1; c2; d] → scorable c x) →
  (ref_round (sd_leader c0) < ref_round (sd_leader c1))%N →
  (ref_round (sd_leader c1) < ref_round (sd_leader c2))%N →
  (ref_round (sd_leader c2) < ref_round (sd_leader d))%N →
  score_commit ctx c0 [c0; c1; c2] d = Done (scored c c0 [c1; c2; d]).
Proof.
  intros Hs H01 H12 H2d. assert (scorable c c0) as H0 by (apply Hs; set_solver).
  unfold score_commit. pose proof (so_round _ _ H0). rewrite !wrap_add_small by lia.
  fold (leader_round_blocks c0) (leader_blocks c0).
  assert (sd_leader c0 ∈ leader_blocks c0) as Hlead.
  { unfold leader_blocks, leader_round_blocks. apply elem_of_list_to_set, list_elem_of_fmap.
    pose proof (so_leader _ _ H0) as (b & Hb' & ?)%list_elem_of_fmap.
    exists b. split; [done|]. apply list_elem_of_filter. split; [by rewrite Hb'|done]. }
  rewrite !rassert_true by set_solver. run_bind.
  rewrite !scan_commits_done by lia. run_bind.
  pose proof (contributions_spec c0 [c1; c2; d] H0) as Hcon. unfold blocks_above in Hcon. cbv zeta in Hcon.
  fold c. rewrite Hcon by (intros; apply Hs; set_solver). run_bind.
  assert (ref_author <$> refs_in_order (leader_blocks c0) ≡ₚ ref_author <$> elements (leader_blocks c0)) as Hperm.
  { unfold set_in_order. by rewrite stable_sort_perm. }
  destruct (sum_stakes_list c (sb_committee _ Hb) (ref_author <$> refs_in_order (leader_blocks c0))) as [-> _].
  - intros a (r & -> & Hr)%list_elem_of_fmap. apply elem_of_set_in_order in Hr.
    unfold leader_blocks, leader_round_blocks in Hr.
    apply elem_of_list_to_set, list_elem_of_fmap in Hr as (b & -> & [_ ?]%list_elem_of_filter).
    by apply (so_authors _ _ H0).
  - rewrite Hperm. apply (so_distinct _ _ H0).
  - run_bind. unfold scored. do 2 f_equal. by rewrite Hperm, <- list_fmap_compose.
Qed.

End entry.

(** ** The running totals *)

Lemma sumN_bound {A} (f : A → N) B l : (∀ x, x ∈ l → f x ≤ B)%N → (sumN (f <$> l) ≤ lengthN l * B)%N.
Proof.
  intros Hl. induction l as [|x l IH]; [cbn; lia|]. cbn [fmap list_fmap sumN foldr].
  assert (f x ≤ B)%N by (apply Hl; set_solver). unfold sumN in IH.
  assert (foldr N.add 0 (f <$> l) ≤ lengthN l * B)%N by (apply IH; set_solver).
  replace (lengthN (x :: l)) with (1 + lengthN l)%N by (unfold lengthN; cbn [length]; lia). lia.
Qed.

Lemma update_totals_from (op : N → N → option N) pre t d r :
  length t = length d → length r = length d →
  (∀ i x y, t !! i = Some x → d !! i = Some y → op x y = r !! i) →
  for_each (λ totals '(i, x), old ← vec_index totals i; new ← unwrap (op old x); vec_set totals i new)
    (pre ++ t) (zip (rangeN (lengthN pre) (lengthN pre + lengthN d)) d) = Done (pre ++ r).
Proof.
  revert pre t r. induction d as [|y d IH]; intros pre [|x t] [|z r] Ht Hr Hop; cbn [length] in *; [|lia..|].
  { rewrite rangeN_empty by (unfold lengthN; cbn [length]; lia). done. }
  rewrite rangeN_cons by (unfold lengthN; cbn [length]; lia). cbn [zip zip_with for_each].
  assert (N.to_nat (lengthN pre) = length pre) as Hpre by (unfold lengthN; lia).
  rewrite (vec_index_some _ _ x) by (rewrite Hpre; by apply list_lookup_middle). run_bind.
  rewrite (Hop 0 x y) by done. cbn [lookup list_lookup unwrap]. run_bind.
  rewrite vec_set_lt by (rewrite Hpre, length_app; cbn [length]; lia). run_bind.
  rewrite Hpre, insert_app_r_alt, Nat.sub_diag by lia. cbn [insert list_insert].
  specialize (IH (pre ++ [z]) t r). rewrite <- !(assoc_L (++)) in IH. cbn [app] in IH.
  replace (lengthN (pre ++ [z])) with (lengthN pre + 1)%N in IH by (unfold lengthN; rewrite length_app; cbn; lia).
  replace (lengthN pre + lengthN (y :: d))%N with (lengthN pre + 1 + lengthN d)%N
    by (unfold lengthN; cbn [length]; lia).
  apply IH; [lia|lia|]. intros i x' y' Hx Hy. exact (Hop (S i) x' y' Hx Hy).
Qed.

Lemma update_totals_range (op : N → N → option N) f g n d :
  lengthN d = n → (∀ a y, d !! N.to_nat a = Some y → op (f a) y = Some (g a)) →
  update_totals op (f <$> rangeN 0 n) d = Done (g <$> rangeN 0 n).
Proof.
  intros Hlen Hop. unfold update_totals. pose proof (update_totals_from op [] (f <$> rangeN 0 n) d (g <$> rangeN 0 n)) as Hfrom.
  rewrite !N.add_0_l in Hfrom. apply Hfrom; clear Hfrom.
  - rewrite length_fmap, rangeN_length. unfold lengthN in Hlen. lia.
  - rewrite length_fmap, rangeN_length. unfold lengthN in Hlen. lia.
  - intros i x y Hx Hy. assert (i < N.to_nat n) as Hi by (apply lookup_lt_Some in Hy; unfold lengthN in Hlen; lia).
    rewrite list_lookup_fmap, rangeN_lookup in Hx |- * by lia. cbn [fmap option_fmap option_map] in Hx |- *.
    injection Hx as <-. apply Hop. by rewrite N.add_0_l, Nat2N.id.
Qed.

Section totals.
Context (ctx : Context) (Hb : schedule_bounds ctx).
Let c := committee ctx.
Let T := total_stake c.
Let W := leader_schedule_window_size (protocol_config ctx).

Record entry_ok (e : ScoresEntry) : Prop := {
  eo_length : lengthN (score_contributions e) = Committee_size c;
  eo_score a : (score_in a e ≤ T * T)%N;
  eo_leaders : (se_num_leaders e ≤ Committee_size c)%N;
  eo_stakes : (se_leader_stakes e ≤ T)%N;
}.

Lemma scored_entry_ok c0 next :
  scorable c c0 → (∀ d, d ∈ next → scorable c d) → entry_ok (scored c c0 next).
Proof.
  intros H0 Hs.
  assert (∀ a, a ∈ ref_author <$> elements (leader_blocks c0) → a < Committee_size c)%N as Hval.
  { intros a (r & -> & Hr)%list_elem_of_fmap. unfold leader_blocks, leader_round_blocks in Hr.
    rewrite elem_of_elements, elem_of_list_to_set in Hr.
    apply list_elem_of_fmap in Hr as (b & -> & [_ ?]%list_elem_of_filter). by apply (so_authors _ _ H0). }
  split; unfold scored; cbn.
  - unfold lengthN. rewrite length_fmap, rangeN_length. lia.
  - intros a. unfold score_in. cbn. destruct (_ !! _) as [x|] eqn:Hx; cbn; [|lia].
    apply list_lookup_fmap_Some in Hx as (a' & -> & _).
    unfold score_of_author. apply score_of_blocks_bound; [done|done|]. by apply blocks_above_valid.
  - assert (length (ref_author <$> elements (leader_blocks c0)) ≤ length (rangeN 0 (Committee_size c))) as Hle.
    { apply submseteq_length, NoDup_submseteq; [apply (so_distinct _ _ H0)|].
      intros a Ha%Hval. apply elem_of_rangeN. lia. }
    rewrite length_fmap, rangeN_length in Hle. unfold lengthN. lia.
  - rewrite (list_fmap_compose ref_author (stake_of c)).
    apply (sum_stakes_list c (sb_committee _ Hb)); [done|apply (so_distinct _ _ H0)].
Qed.

Lemma totals_add l e :
  (∀ x, x ∈ l → entry_ok x) → entry_ok e → (lengthN l < W)%N →
  apply_entry u64_checked_add (totals_of c l) e = Done (totals_of c (l ++ [e])).
Proof.
  intros Hl He Hlen. unfold apply_entry, totals_of. cbn.
  assert (∀ f B, (∀ x, entry_ok x → f x ≤ B)%N → (W * B < u64_modulus)%N →
    u64_checked_add (sumN (f <$> l)) (f e) = Some (sumN (f <$> l ++ [e]))) as Hadd.
  { intros f B Hf HB. unfold u64_checked_add.
    assert (sumN (f <$> l ++ [e]) = sumN (f <$> l) + f e)%N as ->.
    { rewrite fmap_app, sumN_app. cbn. lia. }
    assert (sumN (f <$> l) ≤ lengthN l * B)%N by (apply sumN_bound; auto).
    assert (f e ≤ B)%N by auto. assert ((lengthN l + 1) * B ≤ W * B)%N by (apply N.mul_le_mono_r; lia).
    by rewrite decide_True by lia. }
  pose proof (sb_scores _ Hb) as Hs. fold W T c in Hs.
  assert (T * 1 ≤ T * T)%N as HT.
  { apply N.mul_le_mono_l. pose proof (co_pos _ (sb_committee _ Hb)). fold c T in H. lia. }
  rewrite (update_totals_range _ _ (λ a, sumN (score_in a <$> l ++ [e]))) by
    (by apply (eo_length _ He) || (intros a y Hy; rewrite <- (Hadd (score_in a) (T * T)%N);
       [by unfold score_in; rewrite Hy|intros; by apply eo_score|done])).
  run_bind. rewrite (Hadd se_num_leaders (Committee_size c)); [|by apply eo_leaders|]; cycle 1.
  { pose proof (co_len _ (sb_committee _ Hb)) as Hlen'. fold c in Hlen'. unfold u32_MAX in Hlen'.
    fold (Committee_size c) in Hlen'. pose proof (sb_window _ Hb) as Hw. fold W in Hw.
    eapply N.le_lt_trans; [apply (N.mul_le_mono W u32_modulus (Committee_size c) (u32_modulus - 1)); lia|].
    vm_compute. done. }
  cbn [unwrap]. run_bind. rewrite (Hadd se_leader_stakes T); [done|by apply eo_stakes|].
  eapply N.le_lt_trans; [|exact Hs]. apply N.mul_le_mono_l. lia.
Qed.

Lemma totals_sub e l :
  entry_ok e → apply_entry checked_sub (totals_of c (e :: l)) e = Done (totals_of c l).
Proof.
  intros He. unfold apply_entry, totals_of. cbn.
  assert (∀ x y, checked_sub (x + y) x = Some y) as Hsub.
  { intros. unfold checked_sub. rewrite decide_True by lia. f_equal. lia. }
  rewrite (update_totals_range _ _ (λ a, sumN (score_in a <$> l))) by
    (by apply (eo_length _ He) || (intros a y Hy; unfold score_in at 1; rewrite Hy; apply Hsub)).
  run_bind. rewrite !Hsub. done.
Qed.

(** Eviction makes room for one entry. *)
Lemma evict_spec l :
  (∀ e, e ∈ l → entry_ok e) → (lengthN l ≤ W)%N →
  evict_entries W (totals_of c l) l =
    Done (totals_of c (lastn (N.to_nat W - 1) l), lastn (N.to_nat W - 1) l).
Proof.
  intros Hl Hlen. assert (1 ≤ W)%N by (unfold W, leader_schedule_window_size; lia).
  destruct l as [|e l]; cbn [evict_entries].
  { rewrite decide_False by (unfold lengthN; cbn [length]; lia). unfold lastn. by rewrite drop_nil. }
  case_decide as Hfull.
  - rewrite totals_sub by (apply Hl; set_solver). run_bind.
    assert (lengthN (e :: l) = W) as HW by (unfold lengthN in *; lia).
    assert (lastn (N.to_nat W - 1) (e :: l) = l) as ->.
    { unfold lastn. rewrite <- HW. unfold lengthN. rewrite Nat2N.id.
      replace (_ - _) with 1 by (cbn [length]; lia). done. }
    destruct l as [|e' l]; cbn [evict_entries]; rewrite decide_False; [done| |done|]; unfold lengthN in *;
      cbn [length] in *; lia.
  - rewrite lastn_all; [done|]. unfold lengthN in Hfull, Hlen. lia.
Qed.

End totals.

(** ** The selection of leaders *)

Lemma pop_low_scores_spec c cutoff acc l :
  (∀ a, a ∈ l.*1 → a < Committee_size c)%N → (acc + stakes c l.*1 < u64_modulus)%N → (acc ≤ cutoff)%N →
  ∃ k, pop_low_scores c cutoff acc l = Done (drop k l) ∧
    (acc + stakes c (take k l).*1 ≤ cutoff)%N ∧
    ∀ x, head (drop k l) = Some x → (cutoff < acc + stakes c (take k l).*1 + stake_of c x.1)%N.
Proof.
  revert acc. induction l as [|[a s] l IH]; intros acc Ha Hb Hacc; cbn [pop_low_scores].
  { exists 0. split_and!; [done|cbn; lia|done]. }
  assert (a < Committee_size c)%N as Hlt by (apply Ha; set_solver).
  rewrite Committee_stake_valid by done. run_bind. cbn [fmap list_fmap fst] in *.
  change (stakes c (a :: l.*1)) with (stake_of c a + stakes c l.*1)%N in Hb.
  rewrite wrap_add_small by lia. case_decide as Hover.
  { exists 0. split_and!; [done|cbn; lia|]. intros x [= <-]. cbn. lia. }
  destruct (IH (acc + stake_of c a)%N) as (k & -> & Hk & Hhd); [set_solver|lia|lia|].
  exists (S k). cbn [drop take fmap list_fmap fst].
  change (stakes c (a :: (take k l).*1)) with (stake_of c a + stakes c (take k l).*1)%N.
  split_and!; [done|lia|]. intros x Hx. specialize (Hhd x Hx). lia.
Qed.

(** The score of an authority in the running totals. *)
Definition total_score (s : LeaderScheduleV3) (a : N) : N :=
  default 0%N (total_scores_per_authority (v3_totals s) !! N.to_nat a).

Definition exclusion_limit (s : LeaderScheduleV3) : N :=
  stake_limit (committee (v3_context s)) (bad_nodes_stake_threshold (protocol_config (v3_context s))).

(** Allowed leaders: all authorities but the lowest scores that fit within the
    limit. *)
Record selection (s : LeaderScheduleV3) (allowed excluded : list N) : Prop := {
  sel_all : allowed ++ excluded ≡ₚ rangeN 0 (Committee_size (committee (v3_context s)));
  sel_sorted : StronglySorted (λ a b, total_score s b ≤ total_score s a)%N (allowed ++ excluded);
  sel_limit : (stakes (committee (v3_context s)) excluded ≤ exclusion_limit s)%N;
  sel_maximal a : last allowed = Some a →
    (exclusion_limit s < stakes (committee (v3_context s)) excluded + stake_of (committee (v3_context s)) a)%N;
}.

Section selection.
Context `{LeaderRngLaws}.

Lemma select_allowed_leaders_spec (s : LeaderScheduleV3) (c := committee (v3_context s)) :
  committee_ok c → lengthN (total_scores_per_authority (v3_totals s)) = Committee_size c →
  ∃ allowed excluded, select_allowed_leaders_with_fixed_config s = Done allowed ∧ selection s allowed excluded.
Proof.
  intros Hc Hlen. set (scores := mkReputationScores (total_scores_per_authority (v3_totals s)) CommitRange_default).
  unfold select_allowed_leaders_with_fixed_config.
  change (mapM _ _) with (authorities_by_score (v3_context s) scores).
  rewrite authorities_by_score_spec by done. run_bind.
  set (by_score := zip _ _). set (seed := match last _ with Some _ => _ | None => _ end).
  set (sorted := stable_sort score_ge (rng_shuffle seed by_score)).
  assert (sorted ≡ₚ by_score) as Hperm by (unfold sorted; rewrite stable_sort_perm; apply rng_shuffle_law).
  assert (sorted.*1 ≡ₚ rangeN 0 (Committee_size c)) as Hall.
  { rewrite Hperm. unfold by_score. rewrite fst_zip; [done|]. rewrite rangeN_length. cbn.
    fold c. unfold lengthN in Hlen. lia. }
  assert (∀ x, x ∈ sorted → x.2 = total_score s x.1) as Hscore.
  { intros [a x] Hx. rewrite Hperm in Hx. apply (zip_scores_elem scores) in Hx; [done|]. cbn. by rewrite Hlen. }
  assert (stakes c sorted.*1 = total_stake c) as Htot by (rewrite Hall; by apply stakes_all).
  destruct (pop_low_scores_spec c (exclusion_limit s) 0 (reverse sorted)) as (k & Hpop & Hlim & Hmax).
  { intros a. rewrite fmap_reverse, elem_of_reverse, Hall, elem_of_rangeN. lia. }
  { rewrite fmap_reverse, reverse_Permutation, Htot. pose proof (co_bound _ Hc). lia. }
  { lia. }
  fold c. unfold exclusion_limit, stake_limit in Hpop. fold c in Hpop. rewrite Hpop. run_bind.
  set (j := length sorted - k).
  assert (stakes c (take k (reverse sorted)).*1 = stakes c (drop j sorted).*1) as Htake.
  { by rewrite take_reverse, fmap_reverse, reverse_Permutation. }
  rewrite Htake in Hlim, Hmax. rewrite drop_reverse in Hmax |- *. rewrite reverse_involutive. fold j in Hmax |- *.
  exists (take j sorted).*1, (drop j sorted).*1. split; [done|].
  assert ((take j sorted).*1 ++ (drop j sorted).*1 = sorted.*1) as Happ by (by rewrite <- fmap_app, take_drop).
  split; fold c; rewrite ?Happ; [done| |done|].
  - assert (StronglySorted score_ge sorted) as Hs by (apply stable_sort_sorted; apply _).
    clear -Hs Hscore. induction Hs as [|x l Hs IH Hx]; cbn [fmap list_fmap]; constructor.
    + apply IH. set_solver.
    + apply Forall_fmap, Forall_forall. intros y Hy. rewrite Forall_forall in Hx.
      cbn. rewrite <- !Hscore by set_solver. by apply Hx.
  - intros a. rewrite fmap_last, fmap_Some. intros (x & Hx & ->).
    rewrite head_reverse in Hmax. specialize (Hmax x Hx). lia.
Qed.

End selection.

(** ** Streams of commits *)

Lemma scored_stream_prefix c k l l' : scored_stream c k (l ++ l') → scored_stream c k l.
Proof.
  intros [Hs Hi Hr]. split.
  - set_solver.
  - intros i d Hd. apply Hi. by apply lookup_app_l_Some.
  - intros i d d' Hd Hd'. eapply Hr; by apply lookup_app_l_Some.
Qed.

Lemma scored_stream_drop c k j l : scored_stream c k l → scored_stream c (k + j) (drop j l).
Proof.
  intros [Hs Hi Hr]. split.
  - intros d (i & Hd)%list_elem_of_lookup. rewrite lookup_drop in Hd. eapply Hs, list_elem_of_lookup_2, Hd.
  - intros i d Hd. rewrite lookup_drop in Hd. rewrite (Hi _ _ Hd). lia.
  - intros i d d' Hd Hd'. rewrite lookup_drop in Hd, Hd'. rewrite Nat.add_succ_r in Hd'. by eapply Hr.
Qed.

(** The index of the last commit of a stream, and its leader round. *)
Lemma scored_stream_last c k l d :
  scored_stream c k l → last l = Some d →
  cref_index (sd_commit_ref d) = N.of_nat (k + length l) ∧ scorable c d.
Proof.
  intros Hl Hd. assert (l !! pred (length l) = Some d) as Hd' by (by rewrite <- last_lookup).
  split; [|eapply ss_scorable, list_elem_of_lookup_2; done].
  rewrite (ss_index _ _ _ Hl _ _ Hd'). apply lookup_lt_Some in Hd'. lia.
Qed.

Section stream.
Context `{LeaderRngLaws} (ctx : Context) (Hb : schedule_bounds ctx).
Let c := committee ctx.
Let W := N.to_nat (leader_schedule_window_size (protocol_config ctx)).
Let I := N.to_nat (leader_schedule_update_interval (protocol_config ctx)).

Lemma entries_ok k l e : scored_stream c k l → e ∈ lastn W (entries_of c l) → entry_ok ctx e.
Proof.
  intros Hl He. assert (e ∈ entries_of c l) as He'.
  { unfold lastn in He. apply list_elem_of_lookup in He as (i & Hi). rewrite lookup_drop in Hi.
    by eapply list_elem_of_lookup_2. }
  apply elem_of_entries in He' as (d & next & Hd & Hn & ->).
  apply scored_entry_ok; [done|by eapply ss_scorable|]. intros x Hx. eapply ss_scorable; eauto.
Qed.

Lemma report_metrics_done k l x :
  scored_stream c k l → report_metrics (set_current_schedule x (window_of ctx l)) = Done ().
Proof.
  intros Hl. unfold report_metrics. cbn. fold c W. set (E := lastn W (entries_of c l)).
  assert (sumN (se_leader_stakes <$> E) * total_stake c < u64_modulus)%N as Hsmall.
  { assert (sumN (se_leader_stakes <$> E) ≤ lengthN E * total_stake c)%N as Hsum.
    { apply sumN_bound. intros e He. eapply eo_stakes, entries_ok; done. }
    assert (lengthN E ≤ N.of_nat W)%N by (unfold lengthN, E; rewrite lastn_length; lia).
    eapply N.le_lt_trans; [apply N.mul_le_mono_r; exact Hsum|]. eapply N.le_lt_trans; [|apply (sb_scores _ Hb)].
    rewrite <- N.mul_assoc. apply N.mul_le_mono_r. unfold W in *. lia. }
  destruct (for_each_total (λ _ : (), True) (λ _ '(i, _), idx ← unwrap (to_authority_index c i);
    a ← authority c idx; if decide (hostname a = EmptyString) then Done ()
    else unwrap (u64_checked_mul (sumN (se_leader_stakes <$> E)) (total_stake c));; Done ()) ()
    (zip (rangeN 0 (lengthN ((λ a : N, sumN (score_in a <$> E)) <$> rangeN 0 (Committee_size c))))
       ((λ a : N, sumN (score_in a <$> E)) <$> rangeN 0 (Committee_size c)))) as ([] & Hrun & _); [done| |exact Hrun].
  intros [] [i y] Hi%elem_of_zip_l _. apply elem_of_rangeN in Hi. unfold lengthN in Hi.
  rewrite length_fmap, rangeN_length in Hi. exists (). split; [|done]. unfold to_authority_index.
  rewrite decide_True by lia. cbn [unwrap]. run_bind.
  unfold authority. destruct (authorities c !! N.to_nat i) as [a|] eqn:Ha.
  2:{ apply lookup_ge_None in Ha. unfold Committee_size, lengthN in Hi. lia. }
  rewrite (vec_index_some _ _ _ Ha). run_bind. case_decide; [done|].
  unfold u64_checked_mul. by rewrite decide_True.
Qed.

Lemma select_window_done l :
  ∃ allowed excluded, select_allowed_leaders_with_fixed_config (window_of ctx l) = Done allowed ∧
    selection (window_of ctx l) allowed excluded.
Proof.
  apply select_allowed_leaders_spec; [apply (sb_committee _ Hb)|]. cbn. unfold lengthN.
  rewrite length_fmap, rangeN_length. lia.
Qed.

Lemma next_commit_index_window k l x :
  scored_stream c k l → l ≠ [] → next_commit_index (set_current_schedule x (window_of ctx l)) = N.of_nat (k + length l + 1).
Proof.
  intros Hl Hne. unfold next_commit_index. cbn. rewrite last_lastn.
  destruct (last l) as [d|] eqn:Hd; [|by apply last_None in Hd].
  destruct (scored_stream_last _ _ _ _ Hl Hd) as [Hi Hs]. pose proof (so_index _ _ Hs). cbn.
  rewrite wrap_add_small by lia. lia.
Qed.

(** The schedule after a commit: the leaders change on an interval boundary. *)
Lemma refresh_spec k l x :
  scored_stream c k l → l ≠ [] →
  ∃ y, refresh_current_schedule (set_current_schedule x (window_of ctx l)) =
         Done (set_current_schedule y (window_of ctx l)) ∧
    sched_next_commit_index y = N.of_nat (k + length l + 1) ∧
    sched_min_next_leader_round y = min_next_leader_round (window_of ctx l) ∧
    if decide ((k + length l) `mod` I = 0)
    then select_allowed_leaders_with_fixed_config (window_of ctx l) = Done (allowed_leaders y)
    else allowed_leaders y = allowed_leaders x.
Proof.
  intros Hl Hne. pose proof (next_commit_index_window k l x Hl Hne) as Hnext.
  unfold refresh_current_schedule. rewrite Hnext.
  replace (N.of_nat (k + length l + 1) - 1)%N with (N.of_nat (k + length l)) by lia.
  assert (((N.of_nat (k + length l)) `mod` leader_schedule_update_interval (protocol_config ctx))%N =
    N.of_nat ((k + length l) `mod` I)) as Hmod by (rewrite Nat2N.inj_mod; unfold I; by rewrite N2Nat.id).
  cbn [v3_context set_current_schedule window_of]. rewrite Hmod.
  destruct (decide ((k + length l) `mod` I = 0)) as [Hz|Hz].
  - rewrite decide_True by lia. destruct (select_window_done l) as (allowed & excluded & Hsel & _).
    unfold compute_next_commit_leader_schedule. change (select_allowed_leaders_with_fixed_config _)
      with (select_allowed_leaders_with_fixed_config (window_of ctx l)). rewrite Hsel. run_bind.
    eexists. split; [done|]. cbn. split_and!; [exact Hnext|done|done].
  - rewrite decide_False by lia. eexists. split; [done|]. done.
Qed.

Lemma stream_split3 (l : list CommittedSubDag) : 3 ≤ length l → ∃ pre c0 c1 c2, l = pre ++ [c0; c1; c2].
Proof.
  intros Hlen. exists (take (length l - 3) l).
  destruct (drop (length l - 3) l) as [|c0 [|c1 [|c2 [|c3 rest]]]] eqn:Hd;
    pose proof (f_equal length Hd) as Hl; rewrite length_drop in Hl; cbn [length] in Hl; [lia..| |lia].
  exists c0, c1, c2. by rewrite <- Hd, take_drop.
Qed.

(** With three commits pending, a commit scores the oldest of them. *)
Lemma add_commit_full k pre c0 c1 c2 d x (l := pre ++ [c0; c1; c2]) :
  scored_stream c k (l ++ [d]) →
  ∃ totals entries, evict_entries (leader_schedule_window_size (protocol_config ctx))
      (v3_totals (window_of ctx l)) (scores_entries (window_of ctx l)) = Done (totals, entries) ∧
    score_commit ctx c0 [c0; c1; c2] d = Done (scored c c0 [c1; c2; d]) ∧
    apply_entry u64_checked_add totals (scored c c0 [c1; c2; d]) = Done (v3_totals (window_of ctx (l ++ [d]))) ∧
    mkLeaderScheduleV3 ctx (v3_totals (window_of ctx (l ++ [d]))) [c1; c2; d]
      (entries ++ [scored c c0 [c1; c2; d]]) x = set_current_schedule x (window_of ctx (l ++ [d])) ∧
    (ref_round (sd_leader c0) < ref_round (sd_leader c1))%N ∧
    (ref_round (sd_leader c1) < ref_round (sd_leader c2))%N ∧
    (ref_round (sd_leader c2) < ref_round (sd_leader d))%N.
Proof.
  intros Hs. pose proof (scored_stream_prefix _ _ _ _ Hs) as Hl. set (E := entries_of c l).
  assert (1 ≤ W) as HW by (unfold W, leader_schedule_window_size; lia).
  assert (lastn W (entries_of c (l ++ [d])) = lastn (W - 1) E ++ [scored c c0 [c1; c2; d]]) as Hent.
  { unfold l, E. rewrite entries_of_snoc. replace W with (S (W - 1)) at 1 by lia. by rewrite lastn_snoc. }
  exists (totals_of c (lastn (W - 1) E)), (lastn (W - 1) E). unfold window_of. cbn. fold c W E. rewrite Hent.
  assert (∀ y, y ∈ [c0; c1; c2; d] → scorable c y) as Hsc.
  { intros y Hy. apply (ss_scorable _ _ _ Hs). unfold l. set_solver. }
  assert (∀ i y z, [c0; c1; c2; d] !! i = Some y → [c0; c1; c2; d] !! S i = Some z →
    (ref_round (sd_leader y) < ref_round (sd_leader z))%N) as Hr.
  { intros i y z Hy Hz. apply (ss_rounds _ _ _ Hs (length pre + i)); unfold l; rewrite <- (assoc_L (++));
      rewrite ?plus_n_Sm, lookup_app_r by lia; [rewrite <- Hy|rewrite <- Hz]; f_equal; lia. }
  split_and!.
  - rewrite (evict_spec ctx Hb).
    + fold c W. rewrite lastn_lastn by lia. done.
    + intros e He. eapply entries_ok; [exact Hl|done].
    + unfold lengthN. rewrite lastn_length. unfold W. lia.
  - apply score_commit_spec; [done|done|apply (Hr 0)|apply (Hr 1)|apply (Hr 2)]; done.
  - apply totals_add; [done| | |].
    + intros e He. rewrite <- (lastn_lastn (W - 1) W) in He by lia. unfold lastn at 1 in He.
      apply list_elem_of_lookup in He as (i & Hi). rewrite lookup_drop in Hi.
      eapply entries_ok; [exact Hl|]. by eapply list_elem_of_lookup_2.
    + apply scored_entry_ok; [done| |]; intros; apply Hsc; set_solver.
    + unfold lengthN. rewrite lastn_length. unfold W in *. lia.
  - unfold set_current_schedule. cbn. unfold l.
    change ([c0; c1; c2]) with ([c0] ++ [c1; c2]). rewrite (assoc_L (++)), <- (assoc_L (++) _ [c1; c2]).
    by rewrite lastn_app.
  - apply (Hr 0); done.
  - apply (Hr 1); done.
  - apply (Hr 2); done.
Qed.

Lemma add_commit_spec k l d x :
  scored_stream c k (l ++ [d]) →
  LeaderScheduleV3_add_commit (set_current_schedule x (window_of ctx l)) d =
    refresh_current_schedule (set_current_schedule x (window_of ctx (l ++ [d]))).
Proof.
  intros Hs. pose proof (scored_stream_prefix _ _ _ _ Hs) as Hl. unfold LeaderScheduleV3_add_commit.
  assert (match last (pending_commits (set_current_schedule x (window_of ctx l))) with
    | Some last => rassert (cref_index (sd_commit_ref d) = cref_index (sd_commit_ref last) +₃₂ 1)
    | None => Done () end = Done ()) as ->.
  { cbn. rewrite last_lastn. destruct (last l) as [d'|] eqn:Hd'; [|done]. apply rassert_true.
    destruct (scored_stream_last _ _ _ _ Hl Hd') as [-> Hd'']. pose proof (so_index _ _ Hd'') as Hi.
    destruct (scored_stream_last _ _ _ _ Hl Hd') as [Hi' _]. rewrite wrap_add_small by lia.
    rewrite (ss_index _ _ _ Hs (length l) d) by (by apply list_lookup_middle). lia. }
  run_bind. destruct (refresh_spec k (l ++ [d]) x Hs) as (y & Hrefresh & _); [by destruct l|].
  pose proof (report_metrics_done k (l ++ [d]) y Hs) as Hreport.
  case_decide as Hlen; unfold lengthN in Hlen; cbn [pending_commits set_current_schedule window_of] in Hlen;
    rewrite lastn_length in Hlen; unfold MAX_PENDING_COMMITS in Hlen.
  - assert (set_v3_pending_commits (pending_commits (set_current_schedule x (window_of ctx l)) ++ [d])
      (set_current_schedule x (window_of ctx l)) = set_current_schedule x (window_of ctx (l ++ [d]))) as ->.
    { unfold set_v3_pending_commits, set_current_schedule, window_of. cbn.
      rewrite !entries_of_short by (rewrite ?length_app; cbn [length]; lia).
      rewrite !lastn_all by (rewrite ?length_app; cbn [length]; lia). done. }
    rewrite Hrefresh. run_bind. by rewrite Hreport.
  - destruct (stream_split3 l) as (pre & c0 & c1 & c2 & ->); [lia|].
    destruct (add_commit_full k pre c0 c1 c2 d x Hs) as (totals & entries & Hevict & Hscore & Htotals & Hstate & Hrounds).
    assert (lastn 3 (pre ++ [c0; c1; c2]) = [c0; c1; c2]) as Hpending by (by apply lastn_app).
    cbn [pending_commits set_current_schedule window_of v3_context v3_totals scores_entries current_schedule].
    rewrite Hpending, (vec_index_some _ 0 c0), (vec_index_some _ 1 c1), (vec_index_some _ 2 c2) by done. run_bind.
    rewrite rassert_true by exact Hrounds. run_bind. rewrite Hscore. run_bind. cbn in Hevict. rewrite Hevict. run_bind. rewrite Htotals. run_bind.
    cbn [drop app]. rewrite Hstate, Hrefresh. run_bind. by rewrite Hreport.
Qed.

(** The schedule that commits [k+1 .. k+length l] lead to from the schedule [x]:
    the leaders are those of the last interval boundary among them. *)
Record scheduled (k : nat) (l : list CommittedSubDag) (x y : NextCommitLeaderSchedule) : Prop := {
  sc_next : l ≠ [] → sched_next_commit_index y = N.of_nat (k + length l + 1);
  sc_min : l ≠ [] → sched_min_next_leader_round y = min_next_leader_round (window_of ctx l);
  sc_boundary : (k + length l) `mod` I < length l →
    select_allowed_leaders_with_fixed_config (window_of ctx (take (length l - (k + length l) `mod` I) l)) =
      Done (allowed_leaders y);
  sc_inside : length l ≤ (k + length l) `mod` I → allowed_leaders y = allowed_leaders x;
}.

(** Distance from the last boundary. *)
Lemma mod_succ n m : m ≠ 0 → (n + 1) `mod` m = 0 ∨ (n + 1) `mod` m = n `mod` m + 1.
Proof.
  intros Hm. pose proof (Nat.mod_upper_bound n m Hm). pose proof (Nat.div_mod n m Hm) as Hn.
  destruct (decide (n `mod` m + 1 = m)).
  - left. symmetry. apply (Nat.mod_unique _ _ (n `div` m + 1)); [lia|nia].
  - right. symmetry. apply (Nat.mod_unique _ _ (n `div` m)); lia.
Qed.

Lemma replay_spec k l x :
  scored_stream c k l →
  ∃ y, for_each LeaderScheduleV3_add_commit (set_current_schedule x (window_of ctx [])) l =
      Done (set_current_schedule y (window_of ctx l)) ∧ scheduled k l x y.
Proof.
  induction l as [|d l IH] using rev_ind; intros Hs.
  { exists x. split; [done|]. split; [done|done|cbn; lia|done]. }
  destruct IH as (y & Hrun & Hy); [by eapply scored_stream_prefix|].
  rewrite for_each_app, Hrun. run_bind. cbn [for_each]. rewrite (add_commit_spec k) by done.
  destruct (refresh_spec k (l ++ [d]) y Hs) as (z & -> & Hnext & Hmin & Hall); [by destruct l|].
  exists z. run_bind. split; [done|]. rewrite length_app in *. cbn [length] in *.
  assert (I ≠ 0) as HI by (unfold I, leader_schedule_update_interval; lia).
  rewrite Nat.add_assoc in *. destruct (mod_succ (k + length l) I HI) as [Hz|Hz]; rewrite Hz in *.
  - rewrite decide_True in Hall by done. split; rewrite ?length_app; cbn [length]; rewrite ?Nat.add_assoc, ?Hz; intros; [done|done| |lia].
    rewrite Nat.sub_0_r, take_ge; [done|]. rewrite length_app. cbn [length]. lia.
  - rewrite decide_False in Hall by lia. split; rewrite ?length_app; cbn [length]; rewrite ?Nat.add_assoc, ?Hz; intros; [done|done| |].
    + rewrite Hall, <- (sc_boundary _ _ _ _ Hy) by lia. do 2 f_equal.
      rewrite take_app_le by lia. f_equal. lia.
    + rewrite Hall. apply (sc_inside _ _ _ _ Hy). lia.
Qed.

Lemma new_spec :
  ∃ x, LeaderScheduleV3_new ctx (replicate (N.to_nat (Committee_size c)) 0%N) =
      Done (set_current_schedule x (window_of ctx [])) ∧
    select_allowed_leaders_with_fixed_config (window_of ctx []) = Done (allowed_leaders x) ∧
    sched_next_commit_index x = 1%N ∧ sched_min_next_leader_round x = 1%N.
Proof.
  assert (replicate (N.to_nat (Committee_size c)) 0%N = (λ _, 0%N) <$> rangeN 0 (Committee_size c)) as Hz.
  { apply list_eq_same_length with (N.to_nat (Committee_size c));
      [by rewrite length_fmap, rangeN_length; lia|by rewrite length_replicate|].
    intros i x y Hi Hx Hy. apply lookup_replicate in Hx as [-> _]. apply list_lookup_fmap_Some in Hy as (? & -> & _). done. }
  unfold LeaderScheduleV3_new. fold c. rewrite rassert_true by (unfold lengthN; rewrite length_replicate; lia). run_bind.
  destruct (select_window_done []) as (allowed & excluded & Hsel & _).
  assert (mkLeaderScheduleV3 ctx (mkScoreTotals (replicate (N.to_nat (Committee_size c)) 0%N) 0 0) [] []
    NextCommitLeaderSchedule_default = window_of ctx []) as ->.
  { unfold window_of. cbn. unfold totals_of, lastn. cbn. by rewrite Hz. }
  unfold compute_next_commit_leader_schedule. rewrite Hsel. run_bind. eexists. split_and!; done.
Qed.

End stream.

(** ** Commits of an epoch, live and recovered *)

(** The commits added one after the other since the start of the epoch. *)
Definition process_commits `{LeaderRng} (ctx : Context) (l : list CommittedSubDag) : outcome LeaderScheduleV3 :=
  s ← LeaderScheduleV3_new ctx (replicate (N.to_nat (Committee_size (committee ctx))) 0%N);
  for_each LeaderScheduleV3_add_commit s l.

(** The commits up to the last one on an interval boundary. *)
Definition last_boundary (ctx : Context) (l : list CommittedSubDag) : list CommittedSubDag :=
  take (length l - length l `mod` N.to_nat (leader_schedule_update_interval (protocol_config ctx))) l.

(** The store holds the commits [1 .. length l] of the epoch: a scan from any of
    them gives the commits whose sub-dags are those of [l]. *)
Definition stored_commits {S} `{Store S} (store : S) (l : list CommittedSubDag) : Prop :=
  ∀ i, i < length l → ∃ commits,
    call (store_scan_commits store (CommitRange_new (N.of_nat i + 1) (lengthN l))) = Done commits ∧
    mapM (load_committed_subdag_from_store store) commits = Done (drop i l).

Lemma for_each_mapM {A B T} (f : A → outcome B) (g : T → B → outcome T) l k s :
  mapM f l = Done k → for_each (λ s x, y ← f x; g s y) s l = for_each g s k.
Proof.
  revert k s. induction l as [|x l IH]; intros k s Hk; cbn in Hk.
  { by injection Hk as <-. }
  apply bind_Done in Hk as (y & Hy & Hk). apply bind_Done in Hk as (k' & Hk' & Hk).
  injection Hk as <-. cbn [for_each]. rewrite Hy. run_bind.
  destruct (g s y); run_bind; [by apply IH|done|done].
Qed.

Lemma live_spec `{LeaderRngLaws} ctx l :
  schedule_bounds ctx → scored_stream (committee ctx) 0 l →
  ∃ y, process_commits ctx l = Done (set_current_schedule y (window_of ctx l)) ∧
    sched_next_commit_index y = N.of_nat (length l + 1) ∧
    sched_min_next_leader_round y = min_next_leader_round (window_of ctx l) ∧
    select_allowed_leaders_with_fixed_config (window_of ctx (last_boundary ctx l)) = Done (allowed_leaders y).
Proof.
  intros Hb Hs. destruct (new_spec ctx Hb) as (x & Hnew & Hsel & Hnext & Hmin).
  destruct (replay_spec ctx Hb 0 l x Hs) as (y & Hrun & Hy).
  exists y. unfold process_commits. rewrite Hnew. run_bind. rewrite Hrun. split; [done|].
  destruct (decide (l = [])) as [->|Hne].
  { cbn in Hrun. injection Hrun as Hxy. subst. split_and!; [done|done|]. unfold last_boundary. cbn. exact Hsel. }
  rewrite (sc_next _ _ _ _ _ Hy), (sc_min _ _ _ _ _ Hy) by done. split_and!; [done|done|].
  unfold last_boundary. destruct (decide (length l `mod` N.to_nat (leader_schedule_update_interval (protocol_config ctx)) < length l)).
  - apply (sc_boundary _ _ _ _ _ Hy). cbn. done.
  - replace (length l - _) with 0 by lia. rewrite (sc_inside _ _ _ _ _ Hy) by (cbn; lia). done.
Qed.

(** The leaders allowed by a selection hold the stake that is not excluded. *)
Lemma selection_nonempty s allowed excluded :
  committee_ok (committee (v3_context s)) → selection s allowed excluded →
  (bad_nodes_stake_threshold (protocol_config (v3_context s)) < 100)%N → allowed ≠ [].
Proof.
  intros Hc [Hall _ Hlim _] Ht ->. cbn in Hall. rewrite Hall, stakes_all in Hlim by done.
  unfold exclusion_limit, stake_limit in Hlim. pose proof (co_pos _ Hc).
  assert (100 * (((bad_nodes_stake_threshold (protocol_config (v3_context s)) *₆₄ total_stake (committee (v3_context s)))) / 100)
    ≤ bad_nodes_stake_threshold (protocol_config (v3_context s)) * total_stake (committee (v3_context s)))%N as Hle.
  { etrans; [apply N.Div0.mul_div_le|]. unfold wrap_mul. apply N.Div0.mod_le. }
  nia.
Qed.

(** Where a replay starts: far enough for a full window at the last boundary. *)
Definition replay_offset (ctx : Context) (n : nat) : nat :=
  n - n `mod` N.to_nat (leader_schedule_update_interval (protocol_config ctx)) -
    (N.to_nat (leader_schedule_window_size (protocol_config ctx)) + 3).

Lemma replay_start_spec ctx l :
  schedule_bounds ctx → scored_stream (committee ctx) 0 l → l ≠ [] →
  replay_start ctx (lengthN l) = (N.of_nat (replay_offset ctx (length l)) + 1)%N.
Proof.
  intros Hb Hs Hne. destruct (last l) as [d|] eqn:Hd; [|by apply last_None in Hd].
  destruct (scored_stream_last _ _ _ _ Hs Hd) as [Hi Hsc]. pose proof (so_index _ _ Hsc).
  unfold replay_start, replay_offset. set (I := leader_schedule_update_interval (protocol_config ctx)).
  assert (I ≠ 0)%N as HI by (unfold I, leader_schedule_update_interval; lia).
  assert (lengthN l / I * I = lengthN l - lengthN l `mod` I)%N as Hmul.
  { rewrite (N.Div0.div_mod (lengthN l) I) at 2. rewrite N.mul_comm. generalize (I * (lengthN l / I))%N (lengthN l `mod` I)%N. lia. }
  assert (lengthN l `mod` I = N.of_nat (length l `mod` N.to_nat I))%N as Hmod
    by (unfold lengthN; by rewrite Nat2N.inj_mod, N2Nat.id).
  pose proof (sb_window _ Hb). unfold MAX_PENDING_COMMITS.
  assert (lengthN l = N.of_nat (length l)) as Hlen by done. rewrite Hlen in *.
  rewrite wrap_mul_small by (rewrite Hmul; lia). rewrite Hmul, Hmod. rewrite !wrap_add_small by lia. lia.
Qed.

(** The replayed commits schedule what all commits do. *)
Lemma replay_scheduled `{LeaderRngLaws} ctx l x y y' (k := replay_offset ctx (length l)) :
  l ≠ [] → scheduled ctx k (drop k l) x y' →
  select_allowed_leaders_with_fixed_config (window_of ctx []) = Done (allowed_leaders x) →
  sched_next_commit_index y = N.of_nat (length l + 1) →
  sched_min_next_leader_round y = min_next_leader_round (window_of ctx l) →
  select_allowed_leaders_with_fixed_config (window_of ctx (last_boundary ctx l)) = Done (allowed_leaders y) →
  window_of ctx (drop k l) = window_of ctx l ∧ y' = y.
Proof.
  intros Hne Hy' Hx Hnext Hmin Hall. set (m := length l `mod` N.to_nat (leader_schedule_update_interval (protocol_config ctx))).
  set (w := N.to_nat (leader_schedule_window_size (protocol_config ctx))).
  assert (k = length l - m - (w + 3)) as Hk by done.
  assert (length l ≠ 0) as Hlen by (by destruct l).
  assert (window_of ctx (drop k l) = window_of ctx l) as Hw by (apply window_of_drop; lia). split; [done|].
  assert (length (drop k l) = length l - k) as Hdrop by apply length_drop.
  assert (k + length (drop k l) = length l) as Hsum by lia.
  assert (drop k l ≠ []) as Hne' by (intros Hnil; rewrite Hnil in Hdrop; cbn in Hdrop; lia).
  destruct Hy' as [Hn' Hm' Hb' Hi']. specialize (Hn' Hne'). specialize (Hm' Hne'). rewrite Hw in Hm'.
  rewrite Hsum in *. fold m in Hb', Hi'.
  assert (Done (allowed_leaders y') = Done (allowed_leaders y)) as Heq.
  { rewrite <- Hall. unfold last_boundary. fold m. destruct (decide (m < length (drop k l))) as [Hlt|Hge].
    - rewrite <- (Hb' Hlt). f_equal. rewrite Hdrop, take_drop_commute.
      replace (k + (length l - k - m)) with (length l - m) by lia. apply window_of_drop.
      rewrite length_take. fold w. lia.
    - rewrite (Hi' ltac:(lia)), <- Hx. replace (length l - m) with 0 by lia. done. }
  injection Heq as Heq. destruct y, y'. cbn in *. congruence.
Qed.

(** C33: the sliding window is exact. For any commits of an epoch with consecutive
    indices and increasing leader rounds, adding them never panics (no assertion
    fails and no checked operation overflows) and leaves the scores of the
    documentation: an entry for each of the last [window_size] commits that three
    others follow, the totals their sum, the last three commits pending. The
    allowed leaders are those selected at the last interval boundary: all
    authorities but the lowest scores that fit within the stake threshold. *)
Theorem v3_schedule_exact `{LeaderRngLaws} ctx l :
  schedule_bounds ctx → scored_stream (committee ctx) 0 l →
  ∃ y excluded, process_commits ctx l = Done (set_current_schedule y (window_of ctx l)) ∧
    sched_next_commit_index y = N.of_nat (length l + 1) ∧
    sched_min_next_leader_round y = min_next_leader_round (window_of ctx l) ∧
    selection (window_of ctx (last_boundary ctx l)) (allowed_leaders y) excluded ∧
    ((bad_nodes_stake_threshold (protocol_config ctx) < 100)%N → allowed_leaders y ≠ []).
Proof.
  intros Hb Hs. destruct (live_spec ctx l Hb Hs) as (y & Hrun & Hnext & Hmin & Hsel).
  destruct (select_window_done ctx Hb (last_boundary ctx l)) as (allowed & excluded & Hsel' & Hok).
  rewrite Hsel in Hsel'. injection Hsel' as <-. exists y, excluded. split_and!; [done..|].
  intros Ht. eapply selection_nonempty; [|exact Hok|exact Ht]. apply (sb_committee _ Hb).
Qed.

(** C34: recovery is exact. Replaying the stored commits from [replay_start] on
    gives the state that processing every commit of the epoch gives: window,
    totals, pending commits and current schedule are the same. *)
Theorem v3_recovery_exact {S} `{Store S} `{LeaderRngLaws} ctx (ds : DagState S) l :
  schedule_bounds ctx → scored_stream (committee ctx) 0 l →
  last_commit_index ds = lengthN l → stored_commits (ds_store ds) l →
  ∃ s, process_commits ctx l = Done s ∧ LeaderScheduleV3_from_store ctx ds = Done s.
Proof.
  intros Hb Hs Hlast Hstore. destruct (live_spec ctx l Hb Hs) as (y & Hrun & Hnext & Hmin & Hsel).
  exists (set_current_schedule y (window_of ctx l)). split; [done|].
  unfold LeaderScheduleV3_from_store. rewrite Hlast. unfold process_commits in Hrun.
  destruct (new_spec ctx Hb) as (x & Hnew & Hselx & _). rewrite Hnew in Hrun |- *. run_bind.
  cbn [mbind outcome_bind] in Hrun. case_decide as Hz.
  { destruct l; [|done]. exact Hrun. }
  assert (l ≠ []) as Hne by (by destruct l). set (k := replay_offset ctx (length l)).
  rewrite replay_start_spec by done. fold k.
  destruct (Hstore k) as (commits & -> & Hload); [unfold k, replay_offset; destruct l; [done|cbn [length]; lia]|].
  run_bind. rewrite (for_each_mapM _ _ _ _ _ Hload).
  destruct (replay_spec ctx Hb k (drop k l) x) as (y' & -> & Hy').
  { exact (scored_stream_drop _ 0 k _ Hs). }
  destruct (replay_scheduled ctx l x y y' Hne Hy') as [Hw ->]; [done..|]. fold k in Hw. by rewrite Hw.
Qed.

(** ** A concrete epoch

    A window of two commits and an interval of three; authority 3 is silent. *)

Definition v3_context_4 : Context :=
  Context_new 0 (Some 0%N) committee_4 sample_parameters
    (mkProtocolConfig 1000 10000 100 10 true (Some 1%N) 30 true 2 3).

Definition v3_ref (r a : N) : BlockRef := mkBlockRef r a (10 * r + a).
Definition v3_sample_block (r a : N) : VerifiedBlock := reject_block r a (10 * r + a) (v3_ref (r - 1) <$> [0; 1; 2]%N) [] [].

(** Commit [i] has the leader of round [i] and the other blocks of round [i - 1]. *)
Definition v3_commit (i : N) : TrustedCommit :=
  mkTrustedCommit (Commit_new i 0 (1000 * i) (v3_ref i (i `mod` 3))
    ((if decide (i = 1)%N then [] else v3_ref (i - 1) <$> filter (λ a, a ≠ (i - 1) `mod` 3)%N [0; 1; 2]%N) ++
      [v3_ref i (i `mod` 3)])) i [].

Definition v3_commits : list TrustedCommit := v3_commit <$> rangeN 1 8.

Definition v3_store : MemStore.Inner :=
  match MemStore.write MemStore.new
    (mkWriteBatch (r ← rangeN 1 8; v3_sample_block r <$> [0; 1; 2]%N) v3_commits [] []) with
  | Done (Ok s) => s
  | _ => MemStore.new
  end.

Definition v3_dag : DagState MemStore.Inner :=
  set_store v3_store (set_last_commit (Some (v3_commit 7)) (empty_dag_state v3_context_4 [])).

Definition v3_subdags : list CommittedSubDag := from_done [] (mapM (load_committed_subdag_from_store v3_store) v3_commits).

Lemma v3_bounds : schedule_bounds v3_context_4.
Proof. split; [exact committee_4_ok|done|done]. Qed.

Lemma v3_subdags_stream : scored_stream committee_4 0 v3_subdags.
Proof.
  assert (Forall (λ d, sd_leader d ∈ reference <$> sd_blocks d ∧
    Forall (λ b, author b < 4)%N (sd_blocks d) ∧ NoDup (ref_author <$> elements (leader_blocks d)) ∧
    (ref_round (sd_leader d) + 2 < u32_modulus)%N ∧ (cref_index (sd_commit_ref d) + 1 < u32_modulus)%N)
    v3_subdags) as Hall by (apply (bool_decide_unpack _); vm_compute; exact I).
  assert ((λ d, (cref_index (sd_commit_ref d), ref_round (sd_leader d))) <$> v3_subdags =
    (λ i, (i, i)) <$> rangeN 1 8) as Hidx by (vm_compute; reflexivity).
  assert (∀ i d, v3_subdags !! i = Some d →
    cref_index (sd_commit_ref d) = N.of_nat (i + 1) ∧ ref_round (sd_leader d) = N.of_nat (i + 1)) as Hi.
  { intros i d Hd. pose proof (f_equal (.!! i) Hidx) as Hj. cbn in Hj. rewrite !list_lookup_fmap, Hd in Hj.
    destruct (rangeN 1 8 !! i) as [j|] eqn:Hr; [|done]. injection Hj as -> ->.
    assert (i < 7) by (by apply lookup_lt_Some in Hr). rewrite rangeN_lookup in Hr by (cbn; lia).
    injection Hr as <-. lia. }
  split.
  - intros d Hd. rewrite Forall_forall in Hall. destruct (Hall d Hd) as (? & Ha & ? & ? & ?). split; try done.
    rewrite Forall_forall in Ha. exact Ha.
  - intros i d Hd. apply (Hi i d Hd).
  - intros i d d' Hd Hd'. destruct (Hi _ _ Hd) as [_ ->], (Hi _ _ Hd') as [_ ->]. lia.
Qed.

Lemma v3_store_holds : stored_commits v3_store v3_subdags.
Proof.
  intros i Hi. exists (drop i v3_commits). change (length v3_subdags) with 7 in Hi.
  repeat (destruct i as [|i]; [split; vm_compute; reflexivity|]). lia.
Qed.

(** Authority 3 is excluded, the others lead. *)
Lemma v3_schedule_exact_witness :
  ∃ y excluded, process_commits v3_context_4 v3_subdags =
      Done (set_current_schedule y (window_of v3_context_4 v3_subdags)) ∧
    sched_next_commit_index y = 8%N ∧ selection (window_of v3_context_4 (take 6 v3_subdags)) (allowed_leaders y) excluded ∧
    total_scores_per_authority (v3_totals (window_of v3_context_4 v3_subdags)) = [6; 6; 6; 0]%N.
Proof.
  destruct (v3_schedule_exact v3_context_4 v3_subdags v3_bounds v3_subdags_stream) as (y & excluded & Hrun & Hnext & _ & Hsel & _).
  exists y, excluded. split; [exact Hrun|]. split; [exact Hnext|]. split; [exact Hsel|]. vm_compute. reflexivity.
Defined.

Lemma v3_recovery_exact_witness :
  replay_start v3_context_4 7 = 2%N ∧
  ∃ s, process_commits v3_context_4 v3_subdags = Done s ∧ LeaderScheduleV3_from_store v3_context_4 v3_dag = Done s.
Proof.
  split; [reflexivity|].
  exact (v3_recovery_exact v3_context_4 v3_dag v3_subdags v3_bounds v3_subdags_stream eq_refl v3_store_holds).
Defined.
