(* ===== verification/TransactionConsumer.v ===== *)
(** * Submission and inclusion of transactions (consensus/core/src/transaction.rs)

    The client that submits bundles of transactions, the consumer that pulls them
    into blocks, acknowledges their inclusion and reports the status of the
    blocks. A oneshot channel is named by the submission it belongs to, and its
    messages are collected in lists; the channel between client and consumer is
    the list of the bundles sent and not yet received. The theorems show that a
    bundle is included exactly once, in order and within the limits of a block,
    that the oldest one is included by the next block, and that every
    acknowledged submission gets exactly one status. *)

From S2P Require Import Prelude Committee Block BlockVerifier.

Definition NUM_RESERVED_TRANSACTION_INDICES : N := 8.
Definition TransactionIndex_MAX : N := u16_modulus - 1.
Definition PING_TRANSACTION_INDEX : N := TransactionIndex_MAX.
Definition MAX_PENDING_TRANSACTIONS : N := 2000.

(** A bundle of transactions with the sender of its acknowledgement. *)
Record TransactionsGuard := mkTransactionsGuard {
  guard_transactions : list Transaction;
  included_in_block_ack : N;
}.

Inductive BlockStatus :=
  | Sequenced (r : BlockRef)
  | GarbageCollected (r : BlockRef).

Inductive LimitReached :=
  | MaxNumOfTransactions
  | MaxBytes
  | AllTransactionsIncluded.

(** What an acknowledgement tells the submitter. *)
Record Acknowledgement := mkAcknowledgement {
  ack_sender : N;
  ack_block : BlockRef;
  ack_indices : list N;
}.

Record TransactionConsumer := mkTransactionConsumer {
  tx_receiver : list TransactionsGuard;
  tc_max_transactions_in_block_bytes : N;
  tc_max_num_transactions_in_block : N;
  pending_transactions : option TransactionsGuard;
  block_status_subscribers : gmap BlockRef (list N);
}.

Definition TransactionConsumer_new (receiver : list TransactionsGuard) (ctx : Context) : outcome TransactionConsumer :=
  rassert (max_num_transactions_in_block (protocol_config ctx) - 1 <
    TransactionIndex_MAX - NUM_RESERVED_TRANSACTION_INDICES)%N;;
  Done (mkTransactionConsumer receiver (max_transactions_in_block_bytes (protocol_config ctx))
    (max_num_transactions_in_block (protocol_config ctx)) None ∅).

(** The local variables of [next]. *)
Record Pull := mkPull {
  pulled : list Transaction;
  pull_acks : list (N * list N);
  total_bytes : N;
  limit_reached : LimitReached;
}.

Definition bundle_bytes (t : TransactionsGuard) : N := u64_sum (lengthN ∘ data <$> guard_transactions t).

(** The closure [handle_txs]: the bundle is returned when it does not fit. *)
Definition handle_txs (tc : TransactionConsumer) (p : Pull) (t : TransactionsGuard) :
    Pull * option TransactionsGuard :=
  let transactions_num := lengthN (guard_transactions t) in
  if decide (transactions_num = 0%N) then
    (mkPull (pulled p) (pull_acks p ++ [(included_in_block_ack t, [PING_TRANSACTION_INDEX])])
       (total_bytes p) (limit_reached p), None)
  else
    let transactions_bytes := bundle_bytes t in
    if decide (tc_max_transactions_in_block_bytes tc < total_bytes p +₆₄ transactions_bytes)%N then
      (mkPull (pulled p) (pull_acks p) (total_bytes p) MaxBytes, Some t)
    else if decide (tc_max_num_transactions_in_block tc < lengthN (pulled p) +₆₄ transactions_num)%N then
      (mkPull (pulled p) (pull_acks p) (total_bytes p) MaxNumOfTransactions, Some t)
    else
      let start_idx := (lengthN (pulled p) `mod` u16_modulus)%N in
      let indices := rangeN start_idx (wrap_add u16_modulus start_idx (transactions_num `mod` u16_modulus)) in
      (mkPull (pulled p ++ guard_transactions t) (pull_acks p ++ [(included_in_block_ack t, indices)])
         (total_bytes p +₆₄ transactions_bytes) (limit_reached p), None).

(** The loop that receives bundles until one does not fit. *)
Fixpoint receive_loop (tc : TransactionConsumer) (p : Pull) (queue : list TransactionsGuard) :
    Pull * option TransactionsGuard * list TransactionsGuard :=
  match queue with
  | [] => (p, None, [])
  | t :: queue =>
      match handle_txs tc p t with
      | (p, None) => receive_loop tc p queue
      | (p, Some t) => (p, Some t, queue)
      end
  end.

(** [next]: the transactions of the block, the acknowledgements to send once it
    is created, and the limit. A pending bundle that does not fit is dropped. *)
Definition next (tc : TransactionConsumer) :
    TransactionConsumer * list Transaction * list (N * list N) * LimitReached :=
  let p := mkPull [] [] 0 AllTransactionsIncluded in
  let p := match pending_transactions tc with
    | Some t => (handle_txs tc p t).1
    | None => p
    end in
  let '(p, pending, queue) := receive_loop tc p (tx_receiver tc) in
  (mkTransactionConsumer queue (tc_max_transactions_in_block_bytes tc) (tc_max_num_transactions_in_block tc)
     pending (block_status_subscribers tc), pulled p, pull_acks p, limit_reached p).

(** The callback of [next]: subscribe to the status of the block and send the
    acknowledgement. *)
Definition acknowledge (tc : TransactionConsumer) (acks : list (N * list N)) (r : BlockRef) :
    TransactionConsumer * list Acknowledgement :=
  (mkTransactionConsumer (tx_receiver tc) (tc_max_transactions_in_block_bytes tc)
     (tc_max_num_transactions_in_block tc) (pending_transactions tc)
     (foldl (λ m '(ack, _), <[r := default [] (m !! r) ++ [ack]]> m) (block_status_subscribers tc) acks),
   (λ '(ack, indices), mkAcknowledgement ack r indices) <$> acks).

(** Statuses of committed blocks. *)
Definition notify_committed (st : gmap BlockRef (list N) * list (N * BlockStatus)) (r : BlockRef) :
    gmap BlockRef (list N) * list (N * BlockStatus) :=
  match st.1 !! r with
  | Some subscribers => (delete r st.1, st.2 ++ ((λ s, (s, Sequenced r)) <$> subscribers))
  | None => st
  end.

(** The loop over the first entries, up to the first above [gc_round]. *)
Fixpoint notify_gced (gc_round : N) (m : gmap BlockRef (list N)) (entries : list (BlockRef * list N)) :
    gmap BlockRef (list N) * list (N * BlockStatus) :=
  match entries with
  | [] => (m, [])
  | (r, subscribers) :: entries =>
      if decide (ref_round r ≤ gc_round)%N then
        let '(m, sent) := notify_gced gc_round (delete r m) entries in
        (m, ((λ s, (s, GarbageCollected r)) <$> subscribers) ++ sent)
      else (m, [])
  end.

Definition notify_own_blocks_status (tc : TransactionConsumer) (committed_blocks : list BlockRef) (gc_round : N) :
    TransactionConsumer * list (N * BlockStatus) :=
  let '(m, sent) := foldl notify_committed (block_status_subscribers tc, []) committed_blocks in
  let '(m, gced) := notify_gced gc_round m (entries_in_order m) in
  (mkTransactionConsumer (tx_receiver tc) (tc_max_transactions_in_block_bytes tc)
     (tc_max_num_transactions_in_block tc) (pending_transactions tc) m, sent ++ gced).

(** ** The client *)

Inductive ClientError :=
  | ConsensusShuttingDown
  | OversizedTransaction (size limit : N)
  | OversizedTransactionBundleBytes (size limit : N)
  | OversizedTransactionBundleCount (count limit : N).

Record TransactionClient := mkTransactionClient {
  max_transaction_size : N;
  client_max_transactions_in_block_bytes : N;
  max_transactions_in_block_count : N;
}.

Definition TransactionClient_new (ctx : Context) : TransactionClient :=
  mkTransactionClient (max_transaction_size_bytes (protocol_config ctx))
    (max_transactions_in_block_bytes (protocol_config ctx)) (max_num_transactions_in_block (protocol_config ctx)).

(** The size checks of one transaction after the other. *)
Fixpoint check_bundle (client : TransactionClient) (bundle_size : N) (l : list (list N)) : result () ClientError :=
  match l with
  | [] => Ok ()
  | t :: l =>
      if decide (max_transaction_size client < lengthN t)%N
      then Err (OversizedTransaction (lengthN t) (max_transaction_size client))
      else
        let bundle_size := bundle_size +₆₄ lengthN t in
        if decide (client_max_transactions_in_block_bytes client < bundle_size)%N
        then Err (OversizedTransactionBundleBytes bundle_size (client_max_transactions_in_block_bytes client))
        else check_bundle client bundle_size l
  end.

(** [submit_no_wait] with the sender [ack] of the acknowledgement; the channel is
    [None] when the consumer is gone. *)
Definition submit_no_wait (client : TransactionClient) (channel : option (list TransactionsGuard)) (ack : N)
    (transactions : list (list N)) : result (list TransactionsGuard) ClientError :=
  if decide (max_transactions_in_block_count client < lengthN transactions)%N
  then Err (OversizedTransactionBundleCount (lengthN transactions) (max_transactions_in_block_count client))
  else
    match check_bundle client 0 transactions with
    | Err e => Err e
    | Ok _ =>
        match channel with
        | None => Err ConsensusShuttingDown
        | Some queue => Ok (queue ++ [mkTransactionsGuard (mkTransaction <$> transactions) ack])
        end
    end.

(** ** Pulling bundles into a block *)

Definition payload (gs : list TransactionsGuard) : list Transaction := gs ≫= guard_transactions.

Definition bytes_of (l : list Transaction) : N := sumN (lengthN ∘ data <$> l).

(** Indices of the transactions of each bundle in the block. *)
Fixpoint indices_from (start : N) (gs : list TransactionsGuard) : list (N * list N) :=
  match gs with
  | [] => []
  | g :: gs =>
      let n := lengthN (guard_transactions g) in
      (included_in_block_ack g, if decide (n = 0%N) then [PING_TRANSACTION_INDEX] else rangeN start (start + n)) ::
        indices_from (start + n) gs
  end.

Definition fit (tc : TransactionConsumer) (gs : list TransactionsGuard) : Prop :=
  (bytes_of (payload gs) ≤ tc_max_transactions_in_block_bytes tc)%N ∧
  (lengthN (payload gs) ≤ tc_max_num_transactions_in_block tc)%N.

(** Bundles waiting for a block, oldest first. *)
Definition waiting (tc : TransactionConsumer) : list TransactionsGuard :=
  option_list (pending_transactions tc) ++ tx_receiver tc.

(** Limits for which no index or sum wraps around. *)
Record limits_ok (tc : TransactionConsumer) : Prop := {
  lo_bytes : (2 * tc_max_transactions_in_block_bytes tc < u64_modulus)%N;
  lo_num : (tc_max_num_transactions_in_block tc < u16_modulus)%N;
}.

Lemma payload_app gs gs' : payload (gs ++ gs') = payload gs ++ payload gs'.
Proof. apply bind_app. Qed.

Lemma payload_singleton g : payload [g] = guard_transactions g.
Proof. unfold payload. cbn. by rewrite (right_id_L [] (++)). Qed.

Lemma bytes_of_app l k : bytes_of (l ++ k) = (bytes_of l + bytes_of k)%N.
Proof. unfold bytes_of. by rewrite fmap_app, sumN_app. Qed.

Lemma lengthN_app {A} (l k : list A) : lengthN (l ++ k) = (lengthN l + lengthN k)%N.
Proof. unfold lengthN. rewrite length_app. lia. Qed.

Lemma indices_from_snoc start gs g :
  indices_from start (gs ++ [g]) = indices_from start gs ++ indices_from (start + lengthN (payload gs)) [g].
Proof.
  revert start. induction gs as [|g' gs IH]; intros start.
  { cbn [app indices_from]. change (lengthN (payload [])) with 0%N. by rewrite N.add_0_r. }
  cbn [app indices_from]. rewrite IH. cbn [app]. do 2 f_equal.
  change (payload (g' :: gs)) with (guard_transactions g' ++ payload gs). rewrite lengthN_app.
  cbn [indices_from]. by rewrite !N.add_assoc.
Qed.

Record pull_ok (tc : TransactionConsumer) (gs : list TransactionsGuard) (p : Pull) : Prop := {
  po_pulled : pulled p = payload gs;
  po_acks : pull_acks p = indices_from 0 gs;
  po_bytes : total_bytes p = bytes_of (payload gs);
  po_fit : fit tc gs;
}.

Lemma handle_txs_spec tc gs p g :
  limits_ok tc → fit tc [g] → pull_ok tc gs p →
  (∃ p', handle_txs tc p g = (p', None) ∧ pull_ok tc (gs ++ [g]) p') ∨
  (∃ p', handle_txs tc p g = (p', Some g) ∧ pull_ok tc gs p' ∧ ¬ fit tc (gs ++ [g])).
Proof.
  intros [Hlb Hln] [Hgb Hgn] [Hp Ha Hb Hfit]. rewrite payload_singleton in Hgb, Hgn. pose proof Hfit as [Hfb Hfn].
  assert (bundle_bytes g = bytes_of (guard_transactions g)) as Hbb.
  { unfold bundle_bytes. apply u64_sum_small. unfold bytes_of in Hgb. lia. }
  unfold handle_txs. case_decide as Hn.
  { left. eexists. split; [done|]. assert (guard_transactions g = []) as Hnil
      by (apply nil_length_inv; unfold lengthN in Hn; lia).
    split; cbn; unfold fit; rewrite ?payload_app, ?payload_singleton, ?Hnil, ?(right_id_L [] (++)); try done.
    rewrite Ha, indices_from_snoc. cbn [indices_from]. by rewrite Hnil. }
  rewrite Hbb, Hb, Hp. rewrite !wrap_add_small by (unfold u16_modulus, u64_modulus in *; lia).
  assert (u16_modulus < u64_modulus)%N by (vm_compute; done).
  unfold fit. rewrite payload_app, payload_singleton, bytes_of_app, lengthN_app.
  case_decide; [right; eexists; split; [done|]; split; [by split|lia]|].
  case_decide; [right; eexists; split; [done|]; split; [by split|lia]|].
  left. eexists. split; [done|].
  split; cbn; unfold fit; rewrite ?payload_app, ?payload_singleton, ?bytes_of_app, ?lengthN_app; [done| |done|lia].
  rewrite Ha, indices_from_snoc. cbn [indices_from]. rewrite decide_False by done. rewrite N.add_0_l.
  rewrite !N.mod_small by lia. by rewrite wrap_add_small by lia.
Qed.

Lemma receive_loop_spec tc gs p queue :
  limits_ok tc → (∀ g, g ∈ queue → fit tc [g]) → pull_ok tc gs p →
  ∃ p' taken stop rest, receive_loop tc p queue = (p', stop, rest) ∧
    queue = taken ++ option_list stop ++ rest ∧ pull_ok tc (gs ++ taken) p' ∧
    match stop with Some g => ¬ fit tc (gs ++ taken ++ [g]) | None => rest = [] end.
Proof.
  intros Hlim. revert gs p. induction queue as [|g queue IH]; intros gs p Hq Hp; cbn [receive_loop].
  { exists p, [], None, []. split_and!; [done|done|by rewrite (right_id_L [] (++))|done]. }
  destruct (handle_txs_spec tc gs p g) as [(p' & -> & Hp')|(p' & -> & Hp' & Hno)]; [done|auto with lists|done| |].
  - destruct (IH (gs ++ [g]) p') as (p'' & taken & stop & rest & -> & -> & Hp'' & Hstop); [auto with lists|done|].
    exists p'', (g :: taken), stop, rest. rewrite <- (assoc_L (++)) in Hp''. split_and!; [done|done|done|].
    destruct stop; [|done]. by rewrite <- (assoc_L (++) gs) in Hstop.
  - exists p', [], (Some g), queue. split_and!; [done|done|by rewrite (right_id_L [] (++))|done].
Qed.

(** One call of [next]: it includes as many of the oldest waiting bundles as fit. *)
Lemma next_spec tc :
  limits_ok tc → (∀ g, g ∈ waiting tc → fit tc [g]) →
  ∃ gs tc' limit, next tc = (tc', payload gs, indices_from 0 gs, limit) ∧
    waiting tc = gs ++ waiting tc' ∧ fit tc gs ∧
    (∀ g, head (waiting tc') = Some g → ¬ fit tc (gs ++ [g])) ∧
    tc' = mkTransactionConsumer (tx_receiver tc') (tc_max_transactions_in_block_bytes tc)
      (tc_max_num_transactions_in_block tc) (pending_transactions tc') (block_status_subscribers tc).
Proof.
  intros Hlim Hw. unfold next. set (p0 := mkPull [] [] 0 AllTransactionsIncluded).
  assert (pull_ok tc [] p0) as Hp0 by (split; [done|done|done|split; apply N.le_0_l]).
  set (p := match pending_transactions tc with Some t => _ | None => _ end).
  assert (pull_ok tc (option_list (pending_transactions tc)) p) as Hp.
  { unfold p. unfold waiting in Hw. destruct (pending_transactions tc) as [t|]; [|done].
    assert (fit tc [t]) as Ht by (apply Hw; cbn; set_solver).
    destruct (handle_txs_spec tc [] p0 t) as [(p' & -> & Hp')|(p' & _ & _ & [])]; done. }
  destruct (receive_loop_spec tc (option_list (pending_transactions tc)) p (tx_receiver tc) Hlim)
    as (p' & taken & stop & rest & -> & Hq & Hp' & Hstop); [|exact Hp|].
  { intros g Hg. apply Hw. unfold waiting. set_solver. }
  destruct Hp' as [-> -> _ Hfit]. eexists (option_list (pending_transactions tc) ++ taken), _, _.
  split; [done|]. unfold waiting. cbn. rewrite Hq at 1. split_and!; [by rewrite !(assoc_L (++))|done| |done].
  intros g Hg. destruct stop as [g'|]; [|by subst rest]. injection Hg as ->. by rewrite <- (assoc_L (++)).
Qed.

(** ** Statuses of blocks *)

Definition status_block (s : BlockStatus) : BlockRef :=
  match s with Sequenced r => r | GarbageCollected r => r end.

(** The subscriptions of a map, and those that statuses answer. *)
Definition subscriptions (m : gmap BlockRef (list N)) : list (BlockRef * N) :=
  map_to_list m ≫= λ '(r, l), (r,.) <$> l.

Definition answered (l : list (N * BlockStatus)) : list (BlockRef * N) := (λ '(s, st), (status_block st, s)) <$> l.

Lemma subscriptions_delete m r l :
  m !! r = Some l → subscriptions m ≡ₚ ((r,.) <$> l) ++ subscriptions (delete r m).
Proof. intros Hr. unfold subscriptions. by rewrite <- (map_to_list_delete m r l Hr), bind_cons. Qed.

Lemma subscriptions_push m r x :
  subscriptions (<[r := default [] (m !! r) ++ [x]]> m) ≡ₚ (r, x) :: subscriptions m.
Proof.
  rewrite (subscriptions_delete _ r _ (lookup_insert_eq _ _ _)), delete_insert_eq, fmap_app.
  destruct (m !! r) as [l|] eqn:Hr; cbn [default].
  - rewrite (subscriptions_delete m r l Hr). cbn [fmap list_fmap]. by rewrite (comm (++) _ [_]).
  - by rewrite delete_id.
Qed.

Lemma answered_app l k : answered (l ++ k) = answered l ++ answered k.
Proof. apply fmap_app. Qed.

Lemma answered_sequenced r l : answered ((λ s, (s, Sequenced r)) <$> l) = (r,.) <$> l.
Proof. unfold answered. by rewrite <- list_fmap_compose. Qed.

Lemma answered_gced r l : answered ((λ s, (s, GarbageCollected r)) <$> l) = (r,.) <$> l.
Proof. unfold answered. by rewrite <- list_fmap_compose. Qed.

Lemma notify_committed_spec m sent committed :
  let '(m', sent') := foldl notify_committed (m, sent) committed in
  ∃ new, sent' = sent ++ new ∧ subscriptions m ≡ₚ answered new ++ subscriptions m' ∧
    (∀ s st, (s, st) ∈ new → ∃ r, st = Sequenced r ∧ r ∈ committed) ∧
    (∀ r, m' !! r = if decide (r ∈ committed) then None else m !! r).
Proof.
  revert m sent. induction committed as [|r committed IH]; intros m sent; cbn [foldl].
  { exists []. split_and!; [by rewrite (right_id_L [] (++))|done|by intros ?? ?%elem_of_nil|done]. }
  unfold notify_committed at 2. cbn [fst snd]. destruct (m !! r) as [l|] eqn:Hr.
  - specialize (IH (delete r m) (sent ++ ((λ s, (s, Sequenced r)) <$> l))).
    destruct (foldl _ _ _) as [m' sent']. destruct IH as (new & -> & Hsub & Hnew & Hm').
    exists (((λ s, (s, Sequenced r)) <$> l) ++ new). split_and!.
    + by rewrite (assoc_L (++)).
    + rewrite (subscriptions_delete m r l Hr), Hsub, answered_app, answered_sequenced. by rewrite (assoc_L (++)).
    + intros s st [(s' & [= -> ->] & Hs')%list_elem_of_fmap|Hs]%elem_of_app; [exists r; set_solver|].
      destruct (Hnew _ _ Hs) as (r' & -> & ?). exists r'. set_solver.
    + intros r'. rewrite Hm'. destruct (decide (r' = r)) as [->|]; [rewrite lookup_delete_eq; repeat case_decide; set_solver|].
      rewrite lookup_delete_ne by done. repeat case_decide; set_solver.
  - specialize (IH m sent). destruct (foldl _ _ _) as [m' sent']. destruct IH as (new & -> & Hsub & Hnew & Hm').
    exists new. split_and!; [done|done| |].
    + intros s st Hs. destruct (Hnew _ _ Hs) as (r' & -> & ?). exists r'. set_solver.
    + intros r'. rewrite Hm'. destruct (decide (r' = r)) as [->|]; repeat case_decide; set_solver.
Qed.

Lemma entries_in_order_perm {V} (m : gmap BlockRef V) : entries_in_order m ≡ₚ map_to_list m.
Proof.
  apply NoDup_Permutation; [apply NoDup_map_in_order|apply NoDup_map_to_list|].
  intros [r x]. by rewrite elem_of_map_in_order, elem_of_map_to_list.
Qed.

Lemma notify_gced_spec gc m entries :
  entries ≡ₚ map_to_list m → StronglySorted BlockRef_le entries.*1 →
  let '(m', sent) := notify_gced gc m entries in
  subscriptions m ≡ₚ answered sent ++ subscriptions m' ∧
  (∀ s st, (s, st) ∈ sent → ∃ r, st = GarbageCollected r ∧ r ∈ dom m ∧ (ref_round r ≤ gc)%N) ∧
  (∀ r, m' !! r = if decide (ref_round r ≤ gc)%N then None else m !! r).
Proof.
  revert m. induction entries as [|[r l] entries IH]; intros m Hm Hs; cbn [notify_gced].
  { symmetry in Hm. apply Permutation_nil_r, map_to_list_empty_iff in Hm as ->. split_and!; [done|by intros ?? ?%elem_of_nil|].
    intros r. by case_decide. }
  apply StronglySorted_inv in Hs as [Hs Hr].
  assert (m !! r = Some l) as Hrl by (apply elem_of_map_to_list; rewrite <- Hm; set_solver).
  assert (entries ≡ₚ map_to_list (delete r m)) as Hm'.
  { rewrite <- (map_to_list_delete m r l Hrl) in Hm. by apply (Permutation_cons_inv Hm). }
  case_decide as Hle.
  - specialize (IH _ Hm' Hs). destruct (notify_gced gc (delete r m) entries) as [m' sent].
    destruct IH as (Hsub & Hsent & Hlk). split_and!.
    + rewrite (subscriptions_delete m r l Hrl), Hsub, answered_app, answered_gced. by rewrite (assoc_L (++)).
    + intros s st [(s' & [= -> ->] & Hs')%list_elem_of_fmap|Hin]%elem_of_app.
      * exists r. split_and!; [done|by eapply elem_of_dom_2|done].
      * destruct (Hsent _ _ Hin) as (r' & -> & Hd & ?). exists r'. rewrite dom_delete_L in Hd. set_solver.
    + intros r'. rewrite Hlk. case_decide; [done|]. rewrite lookup_delete_ne; [done|]. intros <-. done.
  - split_and!; [done|by intros ?? ?%elem_of_nil|]. intros r'. case_decide as Hle'; [|done].
    destruct (m !! r') as [l'|] eqn:Hr'; [|done]. exfalso.
    assert ((r', l') ∈ (r, l) :: entries) as Hin by (rewrite Hm; by apply elem_of_map_to_list).
    apply elem_of_cons in Hin as [[= -> ->]|Hin]; [lia|]. rewrite Forall_forall in Hr.
    specialize (Hr r' (list_elem_of_fmap_2 fst _ _ Hin)). unfold BlockRef_le in Hr. cbn [fst] in Hr. lia.
Qed.

(** ** Runs of client and consumer *)

Record tx_trace := mkTrace {
  submitted : list TransactionsGuard;
  proposed : list (BlockRef * list Transaction);
  acknowledged : list Acknowledgement;
  statuses : list (N * BlockStatus);
}.

Definition set_receiver (queue : list TransactionsGuard) (tc : TransactionConsumer) : TransactionConsumer :=
  mkTransactionConsumer queue (tc_max_transactions_in_block_bytes tc) (tc_max_num_transactions_in_block tc)
    (pending_transactions tc) (block_status_subscribers tc).

(** Submissions, blocks and notifications in any order; a submission waits for
    room in the channel. *)
Inductive tx_run (ctx : Context) : tx_trace → TransactionConsumer → Prop :=
  | tx_start tc : TransactionConsumer_new [] ctx = Done tc → tx_run ctx (mkTrace [] [] [] []) tc
  | tx_submit tr tc ack txns queue :
      tx_run ctx tr tc → (lengthN (tx_receiver tc) < MAX_PENDING_TRANSACTIONS)%N →
      submit_no_wait (TransactionClient_new ctx) (Some (tx_receiver tc)) ack txns = Ok queue →
      tx_run ctx (mkTrace (submitted tr ++ [mkTransactionsGuard (mkTransaction <$> txns) ack])
        (proposed tr) (acknowledged tr) (statuses tr)) (set_receiver queue tc)
  | tx_propose tr tc r tc' txns acks limit tc'' sent :
      tx_run ctx tr tc → next tc = (tc', txns, acks, limit) → acknowledge tc' acks r = (tc'', sent) →
      tx_run ctx (mkTrace (submitted tr) (proposed tr ++ [(r, txns)]) (acknowledged tr ++ sent) (statuses tr)) tc''
  | tx_notify tr tc committed gc_round tc' sent :
      tx_run ctx tr tc → notify_own_blocks_status tc committed gc_round = (tc', sent) →
      tx_run ctx (mkTrace (submitted tr) (proposed tr) (acknowledged tr) (statuses tr ++ sent)) tc'.

(** Limits for which the sizes of a bundle do not overflow. *)
Record sizes_ok (config : ProtocolConfig) : Prop := {
  so_bytes : (2 * max_transactions_in_block_bytes config < u64_modulus)%N;
  so_size : (max_transactions_in_block_bytes config + max_transaction_size_bytes config < u64_modulus)%N;
}.

(** A bundle the client accepts fits into a block. *)
Definition bundle_fits (config : ProtocolConfig) (g : TransactionsGuard) : Prop :=
  (∀ t, t ∈ guard_transactions g → lengthN (data t) ≤ max_transaction_size_bytes config)%N ∧
  (bytes_of (guard_transactions g) ≤ max_transactions_in_block_bytes config)%N ∧
  (lengthN (guard_transactions g) ≤ max_num_transactions_in_block config)%N.

Lemma check_bundle_Ok ctx size txns (config := protocol_config ctx) :
  sizes_ok config → (size ≤ max_transactions_in_block_bytes config)%N →
  check_bundle (TransactionClient_new ctx) size txns = Ok () →
  (∀ t, t ∈ txns → lengthN t ≤ max_transaction_size_bytes config)%N ∧
  (size + sumN (lengthN <$> txns) ≤ max_transactions_in_block_bytes config)%N.
Proof.
  subst config. intros [_ Hsz]. revert size. induction txns as [|t txns IH]; intros size Hsize; cbn [check_bundle].
  { intros _. split; [by intros ? ?%elem_of_nil|cbn; lia]. }
  cbn [max_transaction_size client_max_transactions_in_block_bytes TransactionClient_new].
  case_decide; [done|]. rewrite wrap_add_small by lia. case_decide; [done|]. intros Hrest.
  destruct (IH (size + lengthN t)%N) as [Hall Hsum]; [lia|done|]. split.
  - intros t' [->|Ht']%elem_of_cons; [lia|auto].
  - cbn [fmap list_fmap sumN foldr]. unfold sumN in Hsum. lia.
Qed.

Lemma submit_no_wait_Ok ctx q ack txns queue (g := mkTransactionsGuard (mkTransaction <$> txns) ack) :
  sizes_ok (protocol_config ctx) → submit_no_wait (TransactionClient_new ctx) (Some q) ack txns = Ok queue →
  queue = q ++ [g] ∧ bundle_fits (protocol_config ctx) g.
Proof.
  intros Hs. unfold submit_no_wait. case_decide as Hnum; [done|]. cbn in Hnum.
  destruct (check_bundle _ 0 txns) as [[]|] eqn:Hcheck; [|done]. intros [= <-]. split; [done|].
  destruct (check_bundle_Ok ctx 0 txns Hs (N.le_0_l _) Hcheck) as [Hall Hsum]. unfold bundle_fits, g. cbn. split_and!.
  - intros t (x & -> & Hx)%list_elem_of_fmap. auto.
  - unfold bytes_of. rewrite <- list_fmap_compose. exact Hsum.
  - unfold lengthN in *. rewrite length_fmap. lia.
Qed.

Record tx_ok (ctx : Context) (included : list (BlockRef * list TransactionsGuard)) (tr : tx_trace)
    (tc : TransactionConsumer) : Prop := {
  to_limits : limits_ok tc;
  to_bytes : tc_max_transactions_in_block_bytes tc = max_transactions_in_block_bytes (protocol_config ctx);
  to_num : tc_max_num_transactions_in_block tc = max_num_transactions_in_block (protocol_config ctx);
  to_submitted : submitted tr = (included.*2 ≫= id) ++ waiting tc;
  to_fits g : g ∈ submitted tr → bundle_fits (protocol_config ctx) g;
  to_proposed : proposed tr = (λ '(r, gs), (r, payload gs)) <$> included;
  to_included r gs : (r, gs) ∈ included → fit tc gs;
  to_acknowledged : acknowledged tr =
    included ≫= λ '(r, gs), (λ '(s, indices), mkAcknowledgement s r indices) <$> indices_from 0 gs;
  to_statuses : answered (statuses tr) ++ subscriptions (block_status_subscribers tc) ≡ₚ
    (λ a, (ack_block a, ack_sender a)) <$> acknowledged tr;
}.

Lemma waiting_fit ctx included tr tc :
  tx_ok ctx included tr tc → ∀ g, g ∈ waiting tc → fit tc [g].
Proof.
  intros Hok g Hg. destruct (to_fits _ _ _ _ Hok g) as (_ & ? & ?).
  { rewrite (to_submitted _ _ _ _ Hok). set_solver. }
  unfold fit. rewrite payload_singleton, (to_bytes _ _ _ _ Hok), (to_num _ _ _ _ Hok). done.
Qed.

Lemma subscriptions_acknowledge m acks r :
  subscriptions (foldl (λ m '(ack, _), <[r := default [] (m !! r) ++ [ack]]> m) m acks) ≡ₚ
    subscriptions m ++ ((λ x : N * list N, (r, x.1)) <$> acks).
Proof.
  revert m. induction acks as [|[a ix] acks IH]; intros m; cbn [foldl fmap list_fmap]; [by rewrite (right_id_L [] (++))|].
  rewrite IH, subscriptions_push. cbn [fmap list_fmap fst]. by rewrite <- Permutation_middle.
Qed.

Lemma tx_run_ok ctx tr tc :
  sizes_ok (protocol_config ctx) → tx_run ctx tr tc → ∃ included, tx_ok ctx included tr tc.
Proof.
  intros Hs. induction 1 as [tc Hnew|tr tc ack txns queue Hrun [included Hok] Hroom Hsub
    |tr tc r tc' txns acks limit tc'' sent Hrun [included Hok] Hnext Hack
    |tr tc committed gc_round tc' sent Hrun [included Hok] Hnotify].
  - exists []. unfold TransactionConsumer_new in Hnew. apply bind_Done in Hnew as ([] & Hnum & [= <-]).
    apply rassert_Done in Hnum. split; cbn; try done; [|by intros ? ?%elem_of_nil|by intros ?? ?%elem_of_nil].
    split; cbn; [apply (so_bytes _ Hs)|]. unfold TransactionIndex_MAX, NUM_RESERVED_TRANSACTION_INDICES, u16_modulus in *. lia.
  - exists included. apply submit_no_wait_Ok in Hsub as [-> Hg]; [|done]. destruct Hok as [[? ?] ? ? Hsubm Hfits ? ? ? ?].
    split; cbn; try done.
    + rewrite Hsubm. unfold waiting. cbn. by rewrite !(assoc_L (++)).
    + intros g [Hin|Hin%list_elem_of_singleton]%elem_of_app; [auto|]. by subst g.
  - destruct (next_spec tc (to_limits _ _ _ _ Hok) (waiting_fit _ _ _ _ Hok)) as (gs & tc1 & lim & Hn & Hw & Hfit & _ & Htc1).
    rewrite Hn in Hnext. injection Hnext as <- <- <- <-. unfold acknowledge in Hack. injection Hack as <- <-.
    exists (included ++ [(r, gs)]). destruct Hok as [[? ?] ? ? Hsubm Hfits Hprop Hincl Hacked Hst].
    rewrite Htc1. split; cbn; try done.
    + rewrite Hsubm, Hw, fmap_app, bind_app. cbn. rewrite (right_id_L [] (++)), <- (assoc_L (++)). done.
    + by rewrite Hprop, fmap_app.
    + intros r' gs' [Hin|[= -> ->]%list_elem_of_singleton]%elem_of_app; [by eapply Hincl|done].
    + by rewrite Hacked, bind_app, bind_singleton.
    + rewrite subscriptions_acknowledge, (assoc_L (++)), Hst, fmap_app, <- list_fmap_compose.
      assert ((λ a, (ack_block a, ack_sender a)) ∘ (λ '(s, indices), mkAcknowledgement s r indices) <$> indices_from 0 gs =
        (λ x : N * list N, (r, x.1)) <$> indices_from 0 gs) as ->; [|done].
      apply list_fmap_ext. by intros ? [? ?] _.
  - exists included. unfold notify_own_blocks_status in Hnotify.
    pose proof (notify_committed_spec (block_status_subscribers tc) [] committed) as Hcom.
    destruct (foldl _ _ _) as [m sent1]. destruct Hcom as (new & Hsent1 & Hsub & _ & _). cbn in Hsent1. subst sent1.
    pose proof (notify_gced_spec gc_round m (entries_in_order m)) as Hgc.
    destruct (notify_gced _ _ _) as [m' sent2]. injection Hnotify as <- <-.
    destruct Hgc as [Hsub' _]; [apply entries_in_order_perm|rewrite map_in_order_keys; apply set_in_order_sorted; apply _|].
    destruct Hok as [[? ?] ? ? Hsubm Hfits Hprop Hincl Hacked Hst].
    split; cbn; try done. rewrite <- Hst, !answered_app, Hsub, Hsub'. by rewrite !(assoc_L (++)).
Qed.

(** ** Inclusion, acknowledgement and status *)

(** The indices acknowledged for a bundle are those of its transactions in the
    block; an empty bundle, a ping, has the reserved index. *)
Lemma indices_from_lookup start gs i g pre :
  gs !! i = Some g → lengthN pre = start →
  ∃ indices, indices_from start gs !! i = Some (included_in_block_ack g, indices) ∧
    if decide (guard_transactions g = []) then indices = [PING_TRANSACTION_INDEX]
    else (λ j, (pre ++ payload gs) !! N.to_nat j) <$> indices = Some <$> guard_transactions g.
Proof.
  revert start gs pre. induction i as [|i IH]; intros start [|g' gs] pre Hg Hpre; try done; cbn [indices_from].
  - injection Hg as ->. eexists. split; [done|]. destruct (decide (guard_transactions g = [])) as [Hnil|Hne].
    { by rewrite Hnil. }
    rewrite decide_False by (intros H0; apply Hne, nil_length_inv; unfold lengthN in H0; lia).
    apply list_eq. intros k. rewrite !list_lookup_fmap. change (payload (g :: gs)) with (guard_transactions g ++ payload gs).
    destruct (decide (k < length (guard_transactions g))) as [Hk|Hk].
    + rewrite rangeN_lookup by (unfold lengthN; lia). cbn [fmap option_fmap option_map].
      rewrite <- Hpre. unfold lengthN. rewrite lookup_app_r by lia.
      replace (N.to_nat (N.of_nat (length pre) + N.of_nat k) - length pre) with k by lia.
      rewrite lookup_app_l by done. by destruct (lookup_lt_is_Some_2 _ _ Hk) as [x ->].
    + rewrite !lookup_ge_None_2; [done|lia|]. rewrite rangeN_length. unfold lengthN. lia.
  - destruct (IH (start + lengthN (guard_transactions g'))%N gs (pre ++ guard_transactions g')) as (indices & Hi & Hidx);
      [done|by rewrite lengthN_app, Hpre|].
    exists indices. split; [done|]. change (payload (g' :: gs)) with (guard_transactions g' ++ payload gs).
    by rewrite (assoc_L (++)).
Qed.

(** C32: transactions are included exactly once. In every run of clients and
    consumer the submitted bundles are those of the blocks proposed, in order,
    followed by those still waiting: nothing is lost, duplicated or reordered. A
    block has whole bundles only and passes the limits that other nodes verify;
    every bundle is acknowledged once, with its block and the indices of its
    transactions there; and every acknowledged submission has received exactly
    one status, of its block, or is still subscribed to it. *)
Theorem transactions_included_once ctx tr tc :
  sizes_ok (protocol_config ctx) → tx_run ctx tr tc →
  ∃ included : list (BlockRef * list TransactionsGuard),
    submitted tr = (included.*2 ≫= id) ++ waiting tc ∧
    proposed tr = (λ '(r, gs), (r, payload gs)) <$> included ∧
    (∀ r txns, (r, txns) ∈ proposed tr → transactions_ok (protocol_config ctx) (map data txns)) ∧
    (∀ r gs i g, (r, gs) ∈ included → gs !! i = Some g → ∃ indices,
      mkAcknowledgement (included_in_block_ack g) r indices ∈ acknowledged tr ∧
      if decide (guard_transactions g = []) then indices = [PING_TRANSACTION_INDEX]
      else (λ j, payload gs !! N.to_nat j) <$> indices = Some <$> guard_transactions g) ∧
    length (acknowledged tr) = length (included.*2 ≫= id) ∧
    answered (statuses tr) ++ subscriptions (block_status_subscribers tc) ≡ₚ
      (λ a, (ack_block a, ack_sender a)) <$> acknowledged tr.
Proof.
  intros Hs Hrun. destruct (tx_run_ok ctx tr tc Hs Hrun) as [included Hok]. exists included.
  split_and!; [apply (to_submitted _ _ _ _ Hok)|apply (to_proposed _ _ _ _ Hok)| | | |apply (to_statuses _ _ _ _ Hok)].
  - intros r txns Hin. rewrite (to_proposed _ _ _ _ Hok) in Hin. apply list_elem_of_fmap in Hin as ([r' gs] & [= -> ->] & Hin).
    destruct (to_included _ _ _ _ Hok _ _ Hin) as [Hb Hn]. rewrite (to_bytes _ _ _ _ Hok) in Hb. rewrite (to_num _ _ _ _ Hok) in Hn.
    unfold transactions_ok, within. rewrite <- list_fmap_alt. split_and!; [|right; unfold lengthN in *; by rewrite length_fmap|].
    + intros t (x & -> & (g & Hx & Hg)%list_elem_of_bind)%list_elem_of_fmap. right.
      destruct (to_fits _ _ _ _ Hok g) as [Hsize _]; [|by apply Hsize].
      rewrite (to_submitted _ _ _ _ Hok). apply elem_of_app. left. apply list_elem_of_bind. exists gs. split; [done|].
      apply list_elem_of_fmap. by exists (r', gs).
    + right. unfold bytes_of in Hb. by rewrite <- list_fmap_alt, <- list_fmap_compose.
  - intros r gs i g Hin Hg. destruct (indices_from_lookup 0 gs i g [] Hg eq_refl) as (indices & Hi & Hidx).
    exists indices. split; [|done]. rewrite (to_acknowledged _ _ _ _ Hok). apply list_elem_of_bind. exists (r, gs).
    split; [|done]. apply list_elem_of_fmap. exists (included_in_block_ack g, indices). split; [done|].
    by eapply list_elem_of_lookup_2.
  - rewrite (to_acknowledged _ _ _ _ Hok). clear. induction included as [|[r gs] included IH]; [done|].
    rewrite bind_cons, length_app, length_fmap, IH. cbn. rewrite length_app. f_equal.
    clear. generalize 0%N. induction gs as [|g gs IH]; intros n; [done|]. cbn. by rewrite IH.
Qed.

(** Blocks proposed one after the other. *)
Fixpoint propose_blocks (n : nat) (tc : TransactionConsumer) : TransactionConsumer * list (list Transaction) :=
  match n with
  | O => (tc, [])
  | S n =>
      let '(tc, txns, _, _) := next tc in
      let '(tc, blocks) := propose_blocks n tc in
      (tc, txns :: blocks)
  end.

Lemma propose_blocks_spec n tc :
  limits_ok tc → (∀ g, g ∈ waiting tc → fit tc [g]) →
  ∃ tc' gss, propose_blocks n tc = (tc', payload <$> gss) ∧ waiting tc = (gss ≫= id) ++ waiting tc' ∧
    (waiting tc' = [] ∨ n ≤ length (gss ≫= id)).
Proof.
  revert tc. induction n as [|n IH]; intros tc Hl Hw; cbn [propose_blocks].
  { exists tc, []. split_and!; [done|done|right; cbn; lia]. }
  destruct (next_spec tc Hl Hw) as (gs & tc1 & lim & -> & Hw1 & Hfit & Hmax & Htc1).
  assert (∀ gs', fit tc gs' → fit tc1 gs') as Hfit1 by (intros; rewrite Htc1; done).
  destruct (IH tc1) as (tc' & gss & -> & Hw' & Hlen).
  { rewrite Htc1. destruct Hl. split; done. }
  { intros g Hg. apply Hfit1, Hw. rewrite Hw1. set_solver. }
  exists tc', (gs :: gss). split; [done|]. rewrite bind_cons, length_app. cbn [id]. split.
  - by rewrite Hw1, Hw', (assoc_L (++)).
  - destruct Hlen as [|Hlen]; [by left|]. destruct gs as [|g gs]; [|right; cbn [length]; lia].
    destruct (waiting tc1) as [|g rest] eqn:Hw1'; [symmetry in Hw'; apply app_nil in Hw' as [_ ->]; by left|].
    exfalso. apply (Hmax g eq_refl). apply Hw. rewrite Hw1. set_solver.
Qed.

(** no bundle waits for ever. In every state of a run the next [n] blocks
    include at least the [n] oldest waiting bundles, or all of them: a bundle
    that does not fit into a block is the first of the next one. *)
Theorem waiting_bundles_progress ctx tr tc n :
  sizes_ok (protocol_config ctx) → tx_run ctx tr tc →
  ∃ tc' gss, propose_blocks n tc = (tc', payload <$> gss) ∧ waiting tc = (gss ≫= id) ++ waiting tc' ∧
    (waiting tc' = [] ∨ n ≤ length (gss ≫= id)).
Proof.
  intros Hs Hrun. destruct (tx_run_ok ctx tr tc Hs Hrun) as [included Hok].
  apply propose_blocks_spec; [apply (to_limits _ _ _ _ Hok)|by eapply waiting_fit].
Qed.

(** ** A concrete run *)

(** Two transactions and ten bytes per block. *)
Definition tx_context : Context :=
  Context_new 0 (Some 0%N) (mkCommittee 0 (replicate 4 (mkAuthority 1 "host" [])) 4 3 3 2) sample_parameters
    (mkProtocolConfig 8 10 2 1 true (Some 1%N) 20 false 600 60).

Definition tx_consumer (queue : list TransactionsGuard) (pending : option TransactionsGuard)
    (m : gmap BlockRef (list N)) : TransactionConsumer := mkTransactionConsumer queue 10 2 pending m.

Definition tx_bundle (ack : N) (txns : list (list N)) : TransactionsGuard :=
  mkTransactionsGuard (mkTransaction <$> txns) ack.

Definition tx_block : BlockRef := mkBlockRef 1 0 7.

(** A bundle of two, a ping and a bundle of one; the first block has the first
    two, and is sequenced. *)
Definition tx_trace_1 : tx_trace :=
  mkTrace [tx_bundle 1 [[1; 2]; [3]]%N; tx_bundle 2 []; tx_bundle 3 [[4]]%N]
    [(tx_block, mkTransaction <$> [[1; 2]; [3]]%N)]
    [mkAcknowledgement 1 tx_block [0; 1]; mkAcknowledgement 2 tx_block [PING_TRANSACTION_INDEX]]%N
    [(1, Sequenced tx_block); (2, Sequenced tx_block)]%N.

Lemma tx_trace_1_run : tx_run tx_context tx_trace_1 (tx_consumer [] (Some (tx_bundle 3 [[4]]%N)) ∅).
Proof.
  assert (tx_run tx_context (mkTrace [tx_bundle 1 [[1; 2]; [3]]%N; tx_bundle 2 []; tx_bundle 3 [[4]]%N] [] [] [])
    (tx_consumer [tx_bundle 1 [[1; 2]; [3]]%N; tx_bundle 2 []; tx_bundle 3 [[4]]%N] None ∅)) as H0.
  { refine (tx_submit _ (mkTrace [tx_bundle 1 [[1; 2]; [3]]%N; tx_bundle 2 []] [] [] [])
      (tx_consumer [tx_bundle 1 [[1; 2]; [3]]%N; tx_bundle 2 []] None ∅) 3 [[4]]%N _ _ _ _); [|done|done].
    refine (tx_submit _ (mkTrace [tx_bundle 1 [[1; 2]; [3]]%N] [] [] [])
      (tx_consumer [tx_bundle 1 [[1; 2]; [3]]%N] None ∅) 2 [] _ _ _ _); [|done|done].
    refine (tx_submit _ (mkTrace [] [] [] []) (tx_consumer [] None ∅) 1 [[1; 2]; [3]]%N _ _ _ _); [|done|done].
    by apply tx_start. }
  refine (tx_notify _ (mkTrace _ _ _ []) (tx_consumer [] (Some (tx_bundle 3 [[4]]%N)) {[tx_block := [1; 2]%N]})
    [tx_block] 0 _ _ _ eq_refl).
  refine (tx_propose _ (mkTrace _ [] [] []) _ tx_block _ _ _ _ _ _ H0 _ _); vm_compute; reflexivity.
Qed.

Lemma transactions_included_once_witness :
  (∀ r txns, (r, txns) ∈ proposed tx_trace_1 → transactions_ok (protocol_config tx_context) (map data txns)) ∧
  ∃ included : list (BlockRef * list TransactionsGuard), submitted tx_trace_1 = (included.*2 ≫= id) ++ [tx_bundle 3 [[4]]%N].
Proof.
  destruct (transactions_included_once tx_context tx_trace_1 _ ltac:(split; done) tx_trace_1_run)
    as (included & Hsub & _ & Hok & _).
  split; [exact Hok|]. exists included. exact Hsub.
Defined.

Lemma waiting_bundles_progress_witness :
  ∃ tc' gss, propose_blocks 1 (tx_consumer [] (Some (tx_bundle 3 [[4]]%N)) ∅) = (tc', payload <$> gss) ∧
    (waiting tc' = [] ∨ 1 ≤ length (gss ≫= id)).
Proof.
  destruct (waiting_bundles_progress tx_context tx_trace_1 _ 1 ltac:(split; done) tx_trace_1_run)
    as (tc' & gss & Hrun & _ & Hlen).
  exists tc', gss. exact (conj Hrun Hlen).
Defined.
