(* ===== verification/Proposer.v ===== *)
(** * Block proposal (consensus/core/src/proposer.rs, block.rs)

    The engine that proposes the blocks of a validator: when to propose, which
    ancestors to include, and the creation of the block. The clock is read twice,
    and the readings are arguments; the key pair is external. Metrics are left
    out, except for the lookups in them that can panic. *)

From S2P Require Import Prelude Committee Block StakeAggregator ThresholdClock Commit Store LeaderScoring.
From S2P Require Import DagState RoundTracker AncestorState LeaderSchedule BaseCommitter UniversalCommitter.
From S2P Require Import BlockVerifier TransactionVoteTracker LeaderScheduleV3 TransactionConsumer.

Definition MAX_COMMIT_VOTES_PER_BLOCK : N := 100.

(** ** Signing *)

(** Signing a message with a key pair gives the bytes of the signature. *)
Class BlockSigner := { protocol_key_sign : list N → list N → list N }.

Section signing.
Context `{BlockCodec} `{BlockCrypto} `{BlockSigner}.

Definition compute_block_signature (block : Block) (protocol_keypair : list N) : ConsensusResult (list N) :=
  match compute_inner_block_digest block with
  | Err e => Err e
  | Ok digest =>
      match bcs_block_intent digest with
      | None => Err SerializationFailure
      | Some message => Ok (protocol_key_sign protocol_keypair message)
      end
  end.

Definition SignedBlock_new (block : Block) (protocol_keypair : list N) : ConsensusResult SignedBlock :=
  match compute_block_signature block protocol_keypair with
  | Err e => Err e
  | Ok signature => Ok (mkSignedBlock block signature)
  end.

End signing.

(** ** Waiting for leaders *)

Inductive ProposalLeaderWaiter :=
  | WaiterV2 (committer : UniversalCommitter)
  | WaiterV3 (schedule : NextCommitLeaderSchedule).

Definition leader_slots_to_wait_for `{LeaderRng} (w : ProposalLeaderWaiter) (round : N) : outcome (list Slot) :=
  match w with
  | WaiterV2 committer =>
      leaders ← get_leaders committer round;
      Done (map (λ authority_index, mkSlot round authority_index) leaders)
  | WaiterV3 schedule =>
      if decide (round < sched_min_next_leader_round schedule)%N then Done []
      else Done (map (λ leader, mkSlot round leader) (allowed_leaders schedule))
  end.

Definition update_v3_schedule (w : ProposalLeaderWaiter) (schedule : NextCommitLeaderSchedule) : ProposalLeaderWaiter :=
  match w with WaiterV3 _ => WaiterV3 schedule | WaiterV2 _ => w end.

(** ** The proposer *)

Record ValidatorProposer (S : Type) := mkValidatorProposer {
  vp_context : Context;
  vp_transaction_consumer : TransactionConsumer;
  vp_transaction_vote_tracker : VoteTrackerState;
  vp_propagation_delay : N;
  vp_last_included_ancestors : list (option BlockRef);
  vp_block_signer : list N;
  vp_last_known_proposed_round : option N;
  vp_ancestor_state_manager : AncestorStateManager;
  vp_round_tracker : RoundTracker;
  vp_dag_state : DagState S;
  vp_leader_waiter : ProposalLeaderWaiter;
}.
Global Arguments mkValidatorProposer {S}.
Global Arguments vp_context {S} v.
Global Arguments vp_transaction_consumer {S} v.
Global Arguments vp_transaction_vote_tracker {S} v.
Global Arguments vp_propagation_delay {S} v.
Global Arguments vp_last_included_ancestors {S} v.
Global Arguments vp_block_signer {S} v.
Global Arguments vp_last_known_proposed_round {S} v.
Global Arguments vp_ancestor_state_manager {S} v.
Global Arguments vp_round_tracker {S} v.
Global Arguments vp_dag_state {S} v.
Global Arguments vp_leader_waiter {S} v.

(** Descending by score: [b.0.cmp(&a.0)]. *)
Definition ancestor_score_ge (a b : N * VerifiedBlock) : Prop := (b.1 ≤ a.1)%N.

#[export] Instance ancestor_score_ge_dec : RelDecision ancestor_score_ge.
Proof. intros ??. unfold ancestor_score_ge. apply _. Defined.

Section proposer.
Context {S : Type} `{Store S} `{LeaderRng} `{BlockCodec} `{BlockCrypto} `{BlockSigner}.
Implicit Types p : ValidatorProposer S.

Definition ValidatorProposer_new (ds : DagState S) (ctx : Context) (consumer : TransactionConsumer)
    (tracker : VoteTrackerState) (block_signer : list N) (last_known_proposed_round : option N)
    (manager : AncestorStateManager) (round_tracker : RoundTracker) (waiter : ProposalLeaderWaiter) :
    ValidatorProposer S :=
  mkValidatorProposer ctx consumer tracker 0 (replicate (N.to_nat (Committee_size (committee ctx))) None)
    block_signer last_known_proposed_round manager round_tracker ds waiter.

Definition last_proposed_block p : outcome VerifiedBlock :=
  o ← get_last_proposed_block (vp_dag_state p); unwrap o.

Definition last_proposed_timestamp_ms p : outcome N :=
  b ← last_proposed_block p; Done (timestamp_ms b).

Definition last_proposed_round p : outcome N :=
  b ← last_proposed_block p; Done (round b).

(** The closure of [flat_map]: the state is the included ancestors, the ancestors
    excluded for their score, and the references never included. *)
Definition select_ancestor (own_index : N) (last_included : list (option BlockRef)) (states : list AncestorState)
    (st : list VerifiedBlock * list (N * VerifiedBlock) * gset BlockRef)
    (x : VerifiedBlock * list BlockRef) :
    outcome (list VerifiedBlock * list (N * VerifiedBlock) * gset BlockRef) :=
  let '(included, pending_excluded, excluded) := st in
  let '(ancestor, equivocating_ancestors) := x in
  if decide (author ancestor = own_index) then Done st
  else
    last_block_ref ← vec_index last_included (author ancestor);
    if match last_block_ref with Some r => bool_decide (round ancestor ≤ ref_round r)%N | None => false end then Done st
    else
      let excluded := list_to_set equivocating_ancestors ∪ excluded in
      state ← vec_index states (author ancestor);
      match state with
      | Include => Done (included ++ [ancestor], pending_excluded, excluded)
      | Exclude score => Done (included, pending_excluded ++ [(score, ancestor)], excluded)
      end.

(** Adding an author to the quorum of the parent round. *)
Definition add_parent (c : Committee) (agg : StakeAggregator QuorumThreshold) (ancestor : VerifiedBlock) :
    outcome (StakeAggregator QuorumThreshold) :=
  '(agg, _) ← agg_add agg (author ancestor) c; Done agg.

(** The first loop on the ancestors excluded for their score: those of the parent
    round are included until there is a quorum. *)
Definition include_for_quorum (c : Committee) (quorum_round : N)
    (st : StakeAggregator QuorumThreshold * list VerifiedBlock * list (N * VerifiedBlock)) (x : N * VerifiedBlock) :
    outcome (StakeAggregator QuorumThreshold * list VerifiedBlock * list (N * VerifiedBlock)) :=
  let '(agg, ancestors_to_propose, excluded_ancestors) := st in
  authority c (author x.2);;
  if decide (reached_threshold agg c = false ∧ round x.2 = quorum_round) then
    agg ← add_parent c agg x.2;
    Done (agg, ancestors_to_propose ++ [x.2], excluded_ancestors)
  else Done (agg, ancestors_to_propose, excluded_ancestors ++ [x]).

(** The second loop: an ancestor, or an earlier block of its author, accepted by
    a quorum of the network. *)
Definition include_accepted (c : Committee) (ds : DagState S) (accepted_quorum_rounds : list QuorumRound)
    (quorum_round : N) (st : list VerifiedBlock * gset BlockRef * list (option BlockRef)) (x : N * VerifiedBlock) :
    outcome (list VerifiedBlock * gset BlockRef * list (option BlockRef)) :=
  let '(ancestors_to_propose, excluded, last_included) := st in
  let ancestor := x.2 in
  let excluded_author := author ancestor in
  authority c excluded_author;;
  accepted ← vec_index accepted_quorum_rounds excluded_author;
  let accepted_low_quorum_round := N.min accepted.1 quorum_round in
  last_ref ← vec_index last_included excluded_author;
  let last_included_round := default GENESIS_ROUND (ref_round <$> last_ref) in
  if decide (round ancestor ≤ last_included_round)%N then Done st
  else if decide (accepted_low_quorum_round ≤ last_included_round)%N then
    Done (ancestors_to_propose, {[reference ancestor]} ∪ excluded, last_included)
  else
    '(found, excluded) ←
      (if decide (round ancestor ≤ accepted_low_quorum_round)%N then Done (Some ancestor, excluded)
       else
         o ← get_last_cached_block_in_range ds excluded_author (last_included_round +₃₂ 1)
               (accepted_low_quorum_round +₃₂ 1);
         Done (o, {[reference ancestor]} ∪ excluded));
    match found with
    | None => Done (ancestors_to_propose, excluded, last_included)
    | Some ancestor =>
        last_included ← vec_set last_included excluded_author (Some (reference ancestor));
        Done (ancestors_to_propose ++ [ancestor], excluded, last_included)
    end.

Definition set_selection (manager : AncestorStateManager) (last_included : list (option BlockRef)) p :
    ValidatorProposer S :=
  mkValidatorProposer (vp_context p) (vp_transaction_consumer p) (vp_transaction_vote_tracker p)
    (vp_propagation_delay p) last_included (vp_block_signer p) (vp_last_known_proposed_round p)
    manager (vp_round_tracker p) (vp_dag_state p) (vp_leader_waiter p).

Definition smart_ancestors_to_propose p (clock_round : N) (smart_select : bool) :
    outcome (ValidatorProposer S * list VerifiedBlock * gset BlockRef) :=
  let c := committee (vp_context p) in
  let ds := vp_dag_state p in
  all_ancestors ← get_last_cached_block_per_authority ds clock_round;
  rassert (lengthN all_ancestors = Committee_size c);;
  accepted_quorum_rounds ← compute_accepted_quorum_rounds (vp_round_tracker p);
  manager ← update_all_ancestors_state (vp_ancestor_state_manager p) ds accepted_quorum_rounds;
  let p := set_selection manager (vp_last_included_ancestors p) p in
  let quorum_round := (clock_round - 1)%N in
  last_block ← last_proposed_block p;
  '(included, pending_excluded, excluded) ←
    for_each (select_ancestor (own_index (vp_context p)) (vp_last_included_ancestors p) (get_ancestor_states manager))
      ([last_block], [], ∅) all_ancestors;
  agg ← for_each (add_parent c) StakeAggregator_new (filter (λ b, round b = quorum_round) included);
  if decide (smart_select = true ∧ reached_threshold agg c = false) then Done (p, [], ∅)
  else
    '(agg, to_propose, excluded_ancestors) ← for_each (include_for_quorum c quorum_round) (agg, included, [])
      (stable_sort ancestor_score_ge pending_excluded);
    '(to_propose, excluded, last_included) ←
      for_each (include_accepted c ds accepted_quorum_rounds quorum_round)
        (to_propose, excluded, vp_last_included_ancestors p) excluded_ancestors;
    rassert (reached_threshold agg c = true);;
    Done (set_selection manager last_included p, to_propose, excluded).

Definition should_propose p : bool :=
  let clock_round := threshold_clock_round (vp_dag_state p) in
  if decide (propagation_delay_stop_proposal_threshold (parameters (vp_context p)) < vp_propagation_delay p)%N
  then false
  else match vp_last_known_proposed_round p with
  | None => false
  | Some last_known_proposed_round => negb (bool_decide (clock_round ≤ last_known_proposed_round)%N)
  end.

Definition set_dag_state (ds : DagState S) p : ValidatorProposer S :=
  mkValidatorProposer (vp_context p) (vp_transaction_consumer p) (vp_transaction_vote_tracker p)
    (vp_propagation_delay p) (vp_last_included_ancestors p) (vp_block_signer p) (vp_last_known_proposed_round p)
    (vp_ancestor_state_manager p) (vp_round_tracker p) ds (vp_leader_waiter p).

(** Linking the causal history of the ancestors; the references newly linked. *)
Definition link_ancestors (ds : DagState S) (ancestors : list VerifiedBlock) : outcome (DagState S * list BlockRef) :=
  for_each (λ '(ds, linked) ancestor,
      '(ds, new) ← link_causal_history ds (reference ancestor);
      Done (ds, linked ++ new))
    (ds, []) ancestors.

(** The block of [clock_round]; version 2 has transaction votes. *)
Definition make_block (ctx : Context) (clock_round now : N) (ancestors : list VerifiedBlock)
    (transactions : list Transaction) (transaction_votes : list BlockTransactionVotes)
    (commit_votes : list CommitRef) : Block :=
  if transaction_voting_enabled (protocol_config ctx) then
    V2 (mkBlockV2 (epoch (committee ctx)) clock_round (own_index ctx) now (reference <$> ancestors) transactions
      transaction_votes commit_votes [])
  else
    V1 (mkBlockV1 (epoch (committee ctx)) clock_round (own_index ctx) now (reference <$> ancestors) transactions
      commit_votes []).

(** The part of [try_new_block] after the ancestors are selected. *)
Definition create_block p (clock_round now : N) (ancestors : list VerifiedBlock) (excluded_ancestors : list BlockRef) :
    outcome (ValidatorProposer S * ExtendedBlock) :=
  let ctx := vp_context p in
  let voting := transaction_voting_enabled (protocol_config ctx) in
  last_included ← for_each (λ l b, vec_set l (author b) (Some (reference b))) (vp_last_included_ancestors p) ancestors;
  mapM (λ b, authority (committee ctx) (author b)) ancestors;;
  let '(consumer, transactions, acks, _) := next (vp_transaction_consumer p) in
  let '(ds, commit_votes) := take_commit_votes (vp_dag_state p) MAX_COMMIT_VOTES_PER_BLOCK in
  '(ds, transaction_votes) ←
    (if voting : bool then
       '(ds, new_causal_history) ← link_ancestors ds ancestors;
       votes ← get_own_votes (vp_transaction_vote_tracker p) new_causal_history;
       Done (ds, votes)
     else Done (ds, []));
  let block := make_block ctx clock_round now ancestors transactions transaction_votes commit_votes in
  signed_block ← unwrap_ok (SignedBlock_new block (vp_block_signer p));
  serialized ← unwrap (bcs_signed_block signed_block);
  let verified_block := new_verified signed_block serialized in
  (* the last proposed block is read for a metric *)
  last_proposed_block (set_dag_state ds p);;
  ds ← accept_block ds verified_block;
  '(ds, tracker) ←
    (if voting : bool then
       tracker ← add_voted_blocks (vp_transaction_vote_tracker p) [(verified_block, [])];
       '(ds, _) ← link_causal_history ds (reference verified_block);
       Done (ds, tracker)
     else Done (ds, vp_transaction_vote_tracker p));
  ds ← flush ds;
  let '(consumer, _) := acknowledge consumer acks (reference verified_block) in
  let extended_block := mkExtendedBlock verified_block excluded_ancestors in
  round_tracker ← update_from_verified_block (vp_round_tracker p) extended_block;
  Done (mkValidatorProposer ctx consumer tracker (vp_propagation_delay p) last_included (vp_block_signer p)
    (vp_last_known_proposed_round p) (vp_ancestor_state_manager p) round_tracker ds (vp_leader_waiter p),
    extended_block).

(** Whether all leaders of the previous round are in the cache. *)
Fixpoint all_cached (ds : DagState S) (slots : list Slot) : outcome bool :=
  match slots with
  | [] => Done true
  | slot :: slots =>
      b ← contains_cached_block_at_slot ds slot;
      if b : bool then all_cached ds slots else Done false
  end.

(** [try_new_block]; [delay_now] and [now] are the readings of the clock. *)
Definition try_new_block p (force : bool) (delay_now now : N) :
    outcome (ValidatorProposer S * option ExtendedBlock) :=
  if negb (should_propose p) then Done (p, None)
  else
    let c := committee (vp_context p) in
    let clock_round := threshold_clock_round (vp_dag_state p) in
    last_block ← last_proposed_block p;
    if decide (clock_round ≤ round last_block)%N then Done (p, None)
    else
      leader_slots ← leader_slots_to_wait_for (vp_leader_waiter p) (clock_round - 1);
      ready ← (if force then Done true
        else
          cached ← all_cached (vp_dag_state p) leader_slots;
          if cached : bool then
            last_timestamp ← last_proposed_timestamp_ms p;
            Done (negb (bool_decide (delay_now - last_timestamp < min_round_delay (parameters (vp_context p)))%N))
          else Done false);
      if negb ready then Done (p, None)
      else
        '(p, ancestors, excluded) ← smart_ancestors_to_propose p clock_round (negb force);
        match ancestors with
        | [] => rassert (force = false);; Done (p, None)
        | _ =>
            (if enable_v3 (protocol_config (vp_context p)) then Done ()
             else slot ← unwrap (head leader_slots); authority c (slot_authority slot);; Done ());;
            '(p, block) ← create_block p clock_round now ancestors
              (takeN (Committee_size c *₆₄ 2) (refs_in_order excluded));
            Done (p, Some block)
        end.

(** ** The remaining operations of the [Proposer] trait *)

Definition set_propagation_delay (delay : N) p : ValidatorProposer S :=
  mkValidatorProposer (vp_context p) (vp_transaction_consumer p) (vp_transaction_vote_tracker p)
    delay (vp_last_included_ancestors p) (vp_block_signer p) (vp_last_known_proposed_round p)
    (vp_ancestor_state_manager p) (vp_round_tracker p) (vp_dag_state p) (vp_leader_waiter p).

Definition set_last_known_proposed_round (round : N) p : ValidatorProposer S :=
  mkValidatorProposer (vp_context p) (vp_transaction_consumer p) (vp_transaction_vote_tracker p)
    (vp_propagation_delay p) (vp_last_included_ancestors p) (vp_block_signer p) (Some round)
    (vp_ancestor_state_manager p) (vp_round_tracker p) (vp_dag_state p) (vp_leader_waiter p).

Definition vp_set_propagation_scores (scores : ReputationScores) p : ValidatorProposer S :=
  set_selection (set_propagation_scores (vp_ancestor_state_manager p) scores) (vp_last_included_ancestors p) p.

Definition set_next_commit_leader_schedule (schedule : NextCommitLeaderSchedule) p : ValidatorProposer S :=
  mkValidatorProposer (vp_context p) (vp_transaction_consumer p) (vp_transaction_vote_tracker p)
    (vp_propagation_delay p) (vp_last_included_ancestors p) (vp_block_signer p) (vp_last_known_proposed_round p)
    (vp_ancestor_state_manager p) (vp_round_tracker p) (vp_dag_state p)
    (update_v3_schedule (vp_leader_waiter p) schedule).

Definition notify_own_blocks_committed (block_refs : list BlockRef) (gc_round : N) p :
    ValidatorProposer S * list (N * BlockStatus) :=
  let '(consumer, sent) := notify_own_blocks_status (vp_transaction_consumer p) block_refs gc_round in
  (mkValidatorProposer (vp_context p) consumer (vp_transaction_vote_tracker p)
     (vp_propagation_delay p) (vp_last_included_ancestors p) (vp_block_signer p) (vp_last_known_proposed_round p)
     (vp_ancestor_state_manager p) (vp_round_tracker p) (vp_dag_state p) (vp_leader_waiter p), sent).

End proposer.
