(* ===== verification/ProposerSpec.v ===== *)
(** * Selecting the ancestors of a proposal

    What the operations the proposer uses guarantee on a complete dag: linking
    the causal history of a block ends and returns cached references, the last
    cached block of every authority is found, and the selection of ancestors
    gives the own last block first, one block per author, earlier rounds only and
    a quorum of the previous round. *)

From S2P Require Import Prelude Committee Block StakeAggregator ThresholdClock Commit Store LeaderScoring.
From S2P Require Import DagState DagInvariant DagDurability RoundTracker AncestorState LeaderSchedule BaseCommitter.
From S2P Require Import UniversalCommitter CausalHistory BlockVerifier TransactionVoteTracker LeaderScheduleV3.
From S2P Require Import TransactionConsumer Proposer.

(** ** Linking the causal history *)

(** References that remain to be visited: those of blocks not included yet. *)
Definition link_weight (recent : gmap BlockRef BlockInfo) : nat :=
  sum_list_with (λ e : BlockRef * BlockInfo, if bi_included e.2 then 0 else length (ancestors (bi_block e.2)))
    (map_to_list recent).

Lemma link_weight_insert recent r info info' :
  recent !! r = Some info → bi_included info = false → bi_included info' = true →
  link_weight recent = length (ancestors (bi_block info)) + link_weight (<[r := info']> recent).
Proof.
  intros Hr Hf Ht. unfold link_weight. rewrite <- (map_to_list_delete recent r info Hr).
  rewrite <- insert_delete_eq, map_to_list_insert by (by rewrite lookup_delete_eq).
  cbn [sum_list_with foldr fst snd]. rewrite Hf, Ht. lia.
Qed.

Lemma link_weight_fuel recent : link_weight recent < link_fuel recent.
Proof.
  unfold link_weight, link_fuel. induction (map_to_list recent) as [|[r i] l IH]; cbn in *; [lia|].
  destruct (bi_included i); lia.
Qed.

(** Every reference above the gc round in the targets or in a block is known. *)
Definition link_closed (gc : N) (recent : gmap BlockRef BlockInfo) (targets : list BlockRef) : Prop :=
  (∀ r, r ∈ targets → (gc < ref_round r)%N → r ∈ dom recent) ∧
  (∀ r info a, recent !! r = Some info → a ∈ ancestors (bi_block info) → (gc < ref_round a)%N → a ∈ dom recent).

Lemma link_loop_total gc fuel recent linked targets :
  link_closed gc recent targets → length targets + link_weight recent ≤ fuel →
  ∃ recent' linked', link_loop gc fuel recent linked targets = Done (recent', linked ++ linked') ∧
    bi_block <$> recent' = bi_block <$> recent ∧ (∀ r, r ∈ linked' → r ∈ dom recent).
Proof.
  revert recent linked targets. induction fuel as [|fuel IH]; intros recent linked targets [Ht Hc] Hfuel.
  { destruct targets; [|cbn in Hfuel; lia]. exists recent, []. cbn. rewrite (right_id_L [] (++)).
    split_and!; [done|done|by intros ? ?%elem_of_nil]. }
  destruct targets as [|r targets]; cbn [link_loop].
  { exists recent, []. rewrite (right_id_L [] (++)). split_and!; [done|done|by intros ? ?%elem_of_nil]. }
  cbn [length] in Hfuel. assert (link_closed gc recent targets) as Hc' by (split; [auto with lists|done]).
  case_decide as Hgc; [apply IH; [done|lia]|].
  assert (r ∈ dom recent) as [info Hr]%elem_of_dom by (apply Ht; [auto with lists|lia]).
  rewrite Hr. cbn [unwrap]. run_bind. destruct (bi_included info) eqn:Hi; [apply IH; [done|lia]|].
  assert (dom (<[r := mark_included info]> recent) = dom recent) as Hdom.
  { rewrite dom_insert_L. apply elem_of_dom_2 in Hr. set_solver. }
  destruct (IH (<[r := mark_included info]> recent) (linked ++ [r]) (targets ++ ancestors (bi_block info)))
    as (recent' & linked' & Hrun & Hblocks & Hl).
  - unfold link_closed. rewrite Hdom. split.
    + intros a [Ha|Ha]%elem_of_app Hga; [auto with lists|by eapply Hc].
    + intros r' i' a [[<- <-]|[_ Hr']]%lookup_insert_Some Ha Hga; [cbn in Ha|]; by eapply Hc.
  - rewrite length_app. rewrite (link_weight_insert recent r info (mark_included info)) in Hfuel by done. lia.
  - exists recent', (r :: linked'). rewrite Hrun, <- (assoc_L (++)). split_and!; [done| |].
    + rewrite Hblocks, fmap_insert. apply insert_id. by rewrite lookup_fmap, Hr.
    + rewrite Hdom in Hl. intros a [->|Ha]%elem_of_cons; [by eapply elem_of_dom_2|auto].
Qed.

Section spec.
Context {S : Type} `{StoreLaws S}.
Implicit Types ds : DagState S.

Lemma dag_view_eqv c ds ds' : dag_eqv ds' ds → dag_view c ds → dag_view c ds'.
Proof.
  intros Heqv [Hok Hc Hv Hcausal Hr]. assert (dag_ok ds') as Hok' by (by rewrite Heqv).
  destruct Heqv as [E1 E2 E3 E4 E5 E6 E7 E8 E9 E10].
  assert (gc_round ds' = gc_round ds) as Eg
    by (unfold gc_round, calculate_gc_round, last_commit_round; by rewrite E1, E7).
  split; rewrite ?E3, ?Eg, ?E6; [done| |done|done|done]. unfold ds_committee. by rewrite E1.
Qed.

(** Linking a block whose causal history is complete. *)
Lemma link_causal_history_total c ds r :
  dag_view c ds → ((gc_round ds < ref_round r)%N → r ∈ dom (cached ds)) →
  ∃ ds' linked, link_causal_history ds r = Done (ds', linked) ∧ dag_eqv ds' ds ∧
    (∀ a, a ∈ linked → a ∈ dom (cached ds)).
Proof.
  intros Hv Hr. unfold link_causal_history.
  destruct (link_loop_total (gc_round ds) (link_fuel (ds_recent_blocks ds)) (ds_recent_blocks ds) [] [r])
    as (recent' & linked & Hrun & Hblocks & Hl).
  - split.
    + intros a ->%list_elem_of_singleton. rewrite <- dom_cached. done.
    + intros k info a Hk Ha Hga. rewrite <- dom_cached. eapply (dv_causal _ _ Hv k (bi_block info)); [|done|done].
      by rewrite cached_lookup, Hk.
  - pose proof (link_weight_fuel (ds_recent_blocks ds)). cbn [length]. lia.
  - rewrite Hrun. run_bind. eexists _, linked. split; [done|]. split; [by apply set_recent_blocks_eqv|].
    intros a Ha. rewrite dom_cached. by apply Hl.
Qed.

Lemma link_ancestors_total c ds l :
  dag_view c ds → (∀ b, b ∈ l → (gc_round ds < round b)%N → reference b ∈ dom (cached ds)) →
  ∃ ds' linked, link_ancestors ds l = Done (ds', linked) ∧ dag_eqv ds' ds ∧
    (∀ a, a ∈ linked → a ∈ dom (cached ds)).
Proof.
  intros Hv Hl. unfold link_ancestors.
  destruct (for_each_total (λ st : DagState S * list BlockRef, dag_eqv st.1 ds ∧ ∀ a, a ∈ st.2 → a ∈ dom (cached ds))
    (λ '(ds, linked) ancestor, '(ds, new) ← link_causal_history ds (reference ancestor); Done (ds, linked ++ new))
    (ds, []) l) as ([ds' linked] & Hrun & Heqv & Hlinked).
  - split; [done|by intros ? ?%elem_of_nil].
  - intros [ds1 linked1] b Hb [Heqv Hin]. cbn [fst snd] in *.
    assert (cached ds1 = cached ds) as Hcached by apply Heqv.
    assert (gc_round ds1 = gc_round ds) as Hgc.
    { destruct Heqv as [E1 _ _ _ _ _ E7 _ _ _]. unfold gc_round, calculate_gc_round, last_commit_round. by rewrite E1, E7. }
    destruct (link_causal_history_total c ds1 (reference b)) as (ds2 & new & -> & Heqv2 & Hnew).
    { by eapply dag_view_eqv. } { rewrite Hcached, Hgc. by apply Hl. }
    run_bind. eexists. split; [done|]. cbn. split; [by etrans|]. rewrite Hcached in Hnew.
    intros a [?|?]%elem_of_app; auto.
  - eauto.
Qed.

(** ** The last cached block of every authority *)

(** There is one genesis block per authority, in the order of the authorities. *)
Definition genesis_listed ds : Prop :=
  ref_author <$> refs_in_order (dom (ds_genesis ds)) = rangeN 0 (Committee_size (ds_committee ds)).

(** A block that can be an ancestor: a genesis block or a cached one. *)
Definition in_dag ds (b : VerifiedBlock) : Prop :=
  (ds_genesis ds !! reference b = Some b ∧ round b = GENESIS_ROUND) ∨ cached ds !! reference b = Some b.

Record last_block_of ds (end_round a : N) (x : VerifiedBlock * list BlockRef) : Prop := {
  lb_author : author x.1 = a;
  lb_round : (round x.1 < end_round)%N;
  lb_dag : in_dag ds x.1;
  lb_last r e : ds_evicted_rounds ds !! N.to_nat a = Some e → r ∈ dom (cached ds) → ref_author r = a →
    (e < ref_round r < end_round)%N → (ref_round r ≤ round x.1)%N;
  lb_equivocating r : r ∈ x.2 → ref_author r = a;
}.

Lemma genesis_vector ds (l := map snd (entries_in_order (ds_genesis ds))) :
  dag_ok ds → genesis_listed ds →
  length l = N.to_nat (Committee_size (ds_committee ds)) ∧
  ∀ a b, l !! N.to_nat a = Some b → author b = a ∧ round b = GENESIS_ROUND ∧ ds_genesis ds !! reference b = Some b.
Proof.
  intros Hok Hg. unfold l. rewrite length_map. split.
  - rewrite <- (length_fmap fst), map_in_order_keys, <- (length_fmap ref_author).
    unfold genesis_listed in Hg. rewrite Hg, rangeN_length. lia.
  - intros a b Hb. rewrite <- list_fmap_alt in Hb. apply list_lookup_fmap_Some in Hb as ([k b'] & -> & Hk). cbn.
    assert (ds_genesis ds !! k = Some b') as Hkb by (eapply elem_of_map_in_order, list_elem_of_lookup_2, Hk).
    destruct (dk_genesis _ Hok _ _ Hkb) as [Href Hround].
    assert ((ref_author <$> refs_in_order (dom (ds_genesis ds))) !! N.to_nat a = Some (ref_author k)) as Hauth.
    { rewrite <- map_in_order_keys, !list_lookup_fmap, Hk. done. }
    unfold genesis_listed in Hg. rewrite Hg in Hauth.
    assert (N.to_nat a < N.to_nat (Committee_size (ds_committee ds))) as Hlt.
    { apply lookup_lt_Some in Hauth. rewrite rangeN_length in Hauth. lia. }
    rewrite rangeN_lookup in Hauth by lia. injection Hauth as Hauth. rewrite Href. split_and!; [|by rewrite <- Hround, <- Href|done].
    assert (author b' = ref_author k) as -> by (by rewrite <- Href). lia.
Qed.

(** The loop over the references of an authority, after the first. *)
Lemma last_block_loop_rest ds lr found eq l :
  lr ≠ 0%N → ∃ eq', last_block_loop ds lr found eq l = Done (found, eq ++ eq') ∧ ∀ r, r ∈ eq' → r ∈ l.
Proof.
  intros Hlr. revert eq. induction l as [|r l IH]; intros eq; cbn [last_block_loop].
  { exists []. rewrite (right_id_L [] (++)). split; [done|by intros ? ?%elem_of_nil]. }
  rewrite decide_False by done. case_decide.
  { exists []. rewrite (right_id_L [] (++)). split; [done|by intros ? ?%elem_of_nil]. }
  destruct (IH (eq ++ [r])) as (eq' & -> & Hin). exists (r :: eq'). rewrite <- (assoc_L (++)). split; [done|].
  intros r' [->|?]%elem_of_cons; auto with lists.
Qed.

(** The references of one authority that are not evicted, below [end_round]. *)
Lemma authority_range ds a e refs end_round (hi := mkBlockRef end_round a BlockDigest_MIN) :
  dag_ok ds → ds_recent_refs_by_authority ds !! N.to_nat a = Some refs → (e < end_round - 1)%N →
  (e + 1 < u32_modulus)%N →
  ∃ l, btree_range BlockRef_le id (mkBlockRef (e +₃₂ 1) a BlockDigest_MIN) hi (refs_in_order refs) = Done l ∧
    (∀ r, r ∈ filter (λ r, r ≠ hi) l ↔ r ∈ dom (cached ds) ∧ ref_author r = a ∧ (e < ref_round r < end_round)%N) ∧
    StronglySorted BlockRef_le (filter (λ r, r ≠ hi) l).
Proof.
  intros Hok Hrefs He Hmax. unfold btree_range. rewrite wrap_add_small by lia.
  rewrite rassert_true by (unfold BlockRef_le; cbn; lia). run_bind. eexists. split; [done|]. split.
  - intros r. rewrite !list_elem_of_filter, elem_of_set_in_order, (dk_refs _ Hok _ _ Hrefs r). cbn.
    unfold BlockRef_le, hi, BlockDigest_MIN. cbn. destruct r as [rr ra rd]. cbn. split.
    + intros (Hne & Hle & Hd & ->). split_and!; [done|done|lia|]. destruct (decide (rr = end_round)) as [->|]; [|lia].
      exfalso. apply Hne. f_equal. lia.
    + intros (Hd & -> & Hr). split_and!; [congruence || (intros [= ->]; lia)|lia|lia|done|done].
  - apply StronglySorted_filter, StronglySorted_filter, set_in_order_sorted; apply _.
Qed.

(** The blocks of one authority. *)
Lemma last_cached_block_of_spec ds end_round blocks eqs a refs e b0 :
  dag_ok ds → (a < Committee_size (ds_committee ds))%N →
  ds_recent_refs_by_authority ds !! N.to_nat a = Some refs → ds_evicted_rounds ds !! N.to_nat a = Some e →
  (e < end_round - 1)%N → (e + 1 < u32_modulus)%N →
  blocks !! N.to_nat a = Some b0 → author b0 = a → round b0 = GENESIS_ROUND → ds_genesis ds !! reference b0 = Some b0 →
  N.to_nat a < length eqs →
  ∃ x, last_cached_block_of ds end_round (blocks, eqs) (a, refs) =
      Done (<[N.to_nat a := x.1]> blocks, <[N.to_nat a := x.2]> eqs) ∧ last_block_of ds end_round a x.
Proof.
  intros Hok Ha Hrefs He Hlt Hmax Hb0 Ha0 Hr0 Hg0 Heqs. unfold last_cached_block_of, to_authority_index.
  rewrite decide_True by done. cbn [unwrap]. run_bind. rewrite (vec_index_some _ _ _ He). run_bind.
  rewrite (rassert_true (e < end_round - 1)%N) by done. run_bind.
  destruct (authority_range ds a e refs end_round Hok Hrefs Hlt Hmax) as (l & -> & Hl & Hs). run_bind.
  set (k := filter (λ r, r ≠ mkBlockRef end_round a BlockDigest_MIN) l) in *.
  assert (N.to_nat a < length blocks) as Hab by (by apply lookup_lt_Some in Hb0).
  destruct (reverse k) as [|r rest] eqn:Hk; cbn [last_block_loop].
  - run_bind. rewrite vec_set_lt by done. run_bind. exists (b0, []). cbn [fst snd]. rewrite (list_insert_id blocks) by done.
    split; [done|]. split; cbn; [done|rewrite Hr0; unfold GENESIS_ROUND; lia|by left| |by intros ? ?%elem_of_nil].
    intros r e' He' Hr Hra Hrr. assert (e' = e) as -> by congruence.
    assert (r ∈ reverse k) as Hin by (rewrite elem_of_reverse, Hl; done). rewrite Hk in Hin. by apply elem_of_nil in Hin.
  - assert (r ∈ k) as Hr by (rewrite <- elem_of_reverse, Hk; set_solver).
    apply Hl in Hr as (Hd & Hra & Hrr). apply elem_of_dom in Hd as [b Hb].
    destruct (dk_recent _ Hok _ _ Hb) as [Href _]. rewrite cached_lookup in Hb.
    destruct (ds_recent_blocks ds !! r) as [info|] eqn:Hi; [|done]. injection Hb as Hb.
    rewrite decide_True by done. cbn [unwrap]. run_bind.
    destruct (last_block_loop_rest ds (ref_round r) (Some (bi_block info)) [] rest) as (eq' & -> & Heq'); [lia|].
    run_bind. rewrite !vec_set_lt by done. run_bind.
    exists (bi_block info, eq'). cbn [fst snd]. split; [done|]. rewrite Hb in *.
    assert (author b = a ∧ round b = ref_round r) as [Hab' Hrb] by (rewrite <- Hra, <- Href; done).
    split; cbn; [done|lia| | |].
    + right. by rewrite Href, cached_lookup, Hi, <- Hb.
    + intros r' e' He' Hr' Hra' Hrr'. assert (e' = e) as -> by congruence. rewrite Hrb.
      assert (r' ∈ k) as Hin by (apply Hl; done). rewrite <- (reverse_involutive k), Hk, reverse_cons in Hs, Hin.
      apply elem_of_app in Hin as [Hin|Heq%list_elem_of_singleton]; [|by subst r'].
      assert (BlockRef_le r' r) as Hle; [|unfold BlockRef_le in Hle; lia].
      clear -Hs Hin. induction (reverse rest) as [|x m IH]; [by apply elem_of_nil in Hin|].
      cbn in Hs. apply StronglySorted_inv in Hs as [Hs Hx]. apply elem_of_cons in Hin as [->|Hin]; [|by apply IH].
      rewrite Forall_forall in Hx. apply Hx. set_solver.
    + intros r' Hr'%Heq'. assert (r' ∈ k) as Hin by (rewrite <- elem_of_reverse, Hk; set_solver). by apply Hl in Hin as (_ & ? & _).
Qed.

(** A loop over an indexed vector. *)
Lemma for_each_indexed {A B} (f : B → N * A → outcome B) (P : nat → B → Prop) (l : list A) k b :
  P k b → (∀ i x b, l !! i = Some x → P (k + i) b →
    ∃ b', f b (N.of_nat (k + i), x) = Done b' ∧ P (1 + (k + i)) b') →
  ∃ b', for_each f b (zip (rangeN (N.of_nat k) (N.of_nat (k + length l))) l) = Done b' ∧ P (k + length l) b'.
Proof.
  revert k b. induction l as [|x l IH]; intros k b Hk Hf.
  { cbn [length]. rewrite Nat.add_0_r, rangeN_empty by done. by exists b. }
  rewrite rangeN_cons by (cbn [length]; lia). cbn [zip zip_with for_each].
  destruct (Hf 0 x b) as (b' & Hb' & Hp); [done|by rewrite Nat.add_0_r|]. rewrite Nat.add_0_r in Hb', Hp. rewrite Hb'. run_bind.
  destruct (IH (1 + k) b') as (b'' & Hrun & Hp'); [done| |].
  - intros i y c Hi Hc. replace (1 + k + i) with (k + (1 + i)) in * by lia. by apply (Hf (1 + i)).
  - exists b''. cbn [length]. replace (N.of_nat k + 1)%N with (N.of_nat (1 + k)) by lia.
    replace (k + Datatypes.S (length l)) with (1 + k + length l) by lia. done.
Qed.

Lemma last_cached_blocks_spec ds end_round :
  dag_ok ds → genesis_listed ds → (0 < end_round)%N →
  ((1 < end_round)%N → ∀ a e, ds_evicted_rounds ds !! N.to_nat a = Some e → (e < end_round - 1 ∧ e + 1 < u32_modulus)%N) →
  ∃ l, get_last_cached_block_per_authority ds end_round = Done l ∧
    lengthN l = Committee_size (ds_committee ds) ∧
    ∀ a x, l !! N.to_nat a = Some x → last_block_of ds end_round a x.
Proof.
  intros Hok Hg Hpos He. destruct (genesis_vector ds Hok Hg) as [Hlen Hgen].
  unfold get_last_cached_block_per_authority. set (blocks := map snd _) in *.
  rewrite rassert_true by (unfold GENESIS_ROUND; lia). run_bind. case_decide as Hone.
  { eexists. split; [done|]. unfold lengthN. rewrite length_map. split; [lia|].
    intros a x Hx. rewrite <- list_fmap_alt in Hx. apply list_lookup_fmap_Some in Hx as (b & -> & Hb).
    destruct (Hgen a b Hb) as (? & Hr & ?). unfold GENESIS_ROUND in *.
    split; cbn; [done|lia|by left| |by intros ? ?%elem_of_nil]. intros. lia. }
  set (n := N.to_nat (Committee_size (ds_committee ds))) in *.
  assert (length (ds_recent_refs_by_authority ds) = n) as Hrefs by (pose proof (dk_refs_len _ Hok); unfold lengthN in *; lia).
  assert (length (ds_evicted_rounds ds) = n) as Hev by (pose proof (dk_evicted_len _ Hok); unfold lengthN in *; lia).
  destruct (for_each_indexed (last_cached_block_of ds end_round) (λ k st,
      length st.1 = n ∧ length st.2 = n ∧
      (∀ i b eq, i < k → st.1 !! i = Some b → st.2 !! i = Some eq → last_block_of ds end_round (N.of_nat i) (b, eq)) ∧
      (∀ i, k ≤ i → st.1 !! i = blocks !! i)) (ds_recent_refs_by_authority ds) 0 (blocks, replicate n []))
    as ([bs eqs] & Hrun & Hbs & Heqs & Hall & _).
  - cbn. split_and!; [done|apply length_replicate|intros; lia|done].
  - intros i refs [bs eqs] Hi (Hbs & Heqs & Hdone & Hrest). cbn [fst snd] in *. rewrite Nat.add_0_l in *.
    assert (i < n) as Hin by (apply lookup_lt_Some in Hi; lia).
    destruct (lookup_lt_is_Some_2 (ds_evicted_rounds ds) i) as [e Hie]; [lia|].
    destruct (lookup_lt_is_Some_2 blocks i) as [b0 Hb0]; [lia|].
    destruct (Hgen (N.of_nat i) b0) as (? & ? & ?); [by rewrite Nat2N.id|].
    destruct (He ltac:(unfold GENESIS_ROUND in Hone; lia) (N.of_nat i) e) as [? ?]; [by rewrite Nat2N.id|].
    destruct (last_cached_block_of_spec ds end_round bs eqs (N.of_nat i) refs e b0) as (x & Hx & Hlb); try done.
    { unfold n in Hin. lia. } { by rewrite Nat2N.id. } { by rewrite Nat2N.id. } { rewrite Nat2N.id, Hrest by lia. done. } { rewrite Nat2N.id. lia. }
    rewrite Hx. rewrite Nat2N.id in *. eexists. split; [done|]. cbn [fst snd]. rewrite !length_insert. split_and!; [done|done| |].
    + intros j b eq Hj Hb Heq. destruct (decide (j = i)) as [->|].
      * rewrite list_lookup_insert_eq in Hb by lia. rewrite list_lookup_insert_eq in Heq by lia. injection Hb as <-. injection Heq as <-. by destruct x.
      * rewrite list_lookup_insert_ne in Hb by done. rewrite list_lookup_insert_ne in Heq by done. apply Hdone; [lia|done|done].
    + intros j Hj. rewrite list_lookup_insert_ne by lia. apply Hrest. lia.
  - rewrite Nat.add_0_l in *. unfold lengthN. change (N.of_nat 0) with 0%N in Hrun. rewrite Hrun. run_bind.
    eexists. split; [done|]. cbn [fst snd] in *. rewrite length_zip_with. split; [unfold n in *; lia|].
    intros a [b eq] Hx. apply lookup_zip_with_Some in Hx as (b' & eq' & [= -> ->] & Hb & Heq).
    rewrite <- (N2Nat.id a). apply Hall; [|done|done]. apply lookup_lt_Some in Hb. lia.
Qed.

(** The last block of an authority is its highest in the dag. *)
Lemma get_last_block_spec ds a :
  dag_ok ds → (a < Committee_size (ds_committee ds))%N →
  ∃ b, get_last_block_for_authority ds a = Done b ∧ author b = a ∧ in_dag ds b ∧
    ∀ r, r ∈ dom (cached ds) → ref_author r = a → (ref_round r ≤ round b)%N.
Proof.
  intros Hok Ha. unfold get_last_block_for_authority.
  destruct (lookup_lt_is_Some_2 (ds_recent_refs_by_authority ds) (N.to_nat a)) as [refs Hrefs].
  { pose proof (dk_refs_len _ Hok) as Hlen. unfold lengthN in Hlen. lia. }
  rewrite (vec_index_some _ _ _ Hrefs). run_bind. destruct (refs_last refs) as [r|] eqn:Hlast.
  - apply set_last_Some in Hlast as [Hr Hmax]; try apply _.
    apply (dk_refs _ Hok _ _ Hrefs) in Hr as [[b Hb]%elem_of_dom Hra].
    destruct (dk_recent _ Hok _ _ Hb) as [Href _]. pose proof Hb as Hb'. rewrite cached_lookup in Hb.
    destruct (ds_recent_blocks ds !! r) as [info|]; [|done]. injection Hb as Hb. cbn [unwrap]. run_bind.
    exists (bi_block info). rewrite Hb, <- Hra. split_and!; [done|by rewrite <- Href|right; by rewrite Href|].
    intros r' Hr' Hra'. assert (r' ∈ refs) as Hin by (apply (dk_refs _ Hok _ _ Hrefs); split; [done|congruence]).
    specialize (Hmax r' Hin). assert (round b = ref_round r) as -> by (by rewrite <- Href). unfold BlockRef_le in Hmax. lia.
  - apply set_last_None in Hlast; try apply _. destruct (dk_genesis_all _ Hok a Ha) as (k & [b Hb]%elem_of_dom & Hka).
    set (l := filter (λ e : BlockRef * VerifiedBlock, ref_author e.1 = a) (entries_in_order (ds_genesis ds))).
    assert ((k, b) ∈ l) as Hin by (apply list_elem_of_filter; split; [done|by apply elem_of_map_in_order]).
    destruct l as [|[k' b'] l'] eqn:Hl; [by apply elem_of_nil in Hin|].
    assert ((k', b') ∈ l) as Hin' by (rewrite Hl; set_solver). unfold l in Hin'.
    apply list_elem_of_filter in Hin' as [Hk' Hb']. apply elem_of_map_in_order in Hb'. cbn in Hk'.
    destruct (dk_genesis _ Hok _ _ Hb') as [Href Hround]. cbn. exists b'.
    split_and!; [done|by rewrite <- Hk', <- Href|left; rewrite Href; split; [done|by rewrite <- Hround, <- Href]|].
    intros r Hr Hra. assert (r ∈ refs) as Hrr by (by apply (dk_refs _ Hok _ _ Hrefs)). rewrite Hlast in Hrr. set_solver.
Qed.

(** ** Selecting the ancestors *)

(** A block is a candidate when another authority made it and it is above what is
    included of that authority. *)
Definition candidate (own : N) (li : list (option BlockRef)) (b : VerifiedBlock) : bool :=
  bool_decide (author b ≠ own) &&
  match li !! N.to_nat (author b) with Some (Some r) => bool_decide (ref_round r < round b)%N | _ => true end.

Lemma select_loop_spec own li states L inc pend exc :
  (∀ x, x ∈ L → N.to_nat (author x.1) < length li ∧ N.to_nat (author x.1) < length states) →
  ∃ inc' pend' exc', for_each (select_ancestor own li states) (inc, pend, exc) L = Done (inc ++ inc', pend ++ pend', exc') ∧
    inc' ++ pend'.*2 ≡ₚ filter (λ b, candidate own li b = true) L.*1 ∧
    ∀ r, r ∈ exc' → r ∈ exc ∨ ∃ x, x ∈ L ∧ r ∈ x.2.
Proof.
  revert inc pend exc. induction L as [|[b eq] L IH]; intros inc pend exc Hlen; cbn [for_each].
  { exists [], [], exc. rewrite !(right_id_L [] (++)). split_and!; [done|done|by left]. }
  assert (∀ x, x ∈ L → N.to_nat (author x.1) < length li ∧ N.to_nat (author x.1) < length states) as Hlen'
    by (intros; apply Hlen; set_solver).
  destruct (Hlen (b, eq)) as [Hli Hst]; [set_solver|]. cbn [fst] in Hli, Hst. cbn [fmap list_fmap fst].
  unfold select_ancestor at 2. cbv beta iota zeta. case_decide as Hown.
  { run_bind. rewrite filter_cons_False by (unfold candidate; by rewrite bool_decide_eq_false_2 by tauto). destruct (IH inc pend exc Hlen') as (i & q & e & -> & ? & Hexc).
    exists i, q, e. split_and!; [done|done|]. intros r [?|(x & ? & ?)]%Hexc; [by left|right; exists x; set_solver]. }
  destruct (lookup_lt_is_Some_2 _ _ Hli) as [last Hlast]. rewrite (vec_index_some _ _ _ Hlast). run_bind.
  assert (candidate own li b = match last with Some r => bool_decide (ref_round r < round b)%N | None => true end) as Hcand.
  { unfold candidate. rewrite bool_decide_eq_true_2, Hlast by done. by destruct last. }
  destruct (match last with Some r => bool_decide (round b ≤ ref_round r)%N | None => false end) eqn:Hskip.
  { run_bind. destruct last as [r|]; [|done]. apply bool_decide_eq_true in Hskip. rewrite filter_cons_False by (rewrite Hcand, bool_decide_eq_false_2 by lia; done).
    destruct (IH inc pend exc Hlen') as (i & q & e & -> & ? & Hexc).
    exists i, q, e. split_and!; [done|done|]. intros r' [?|(x & ? & ?)]%Hexc; [by left|right; exists x; set_solver]. }
  destruct (lookup_lt_is_Some_2 _ _ Hst) as [state Hstate]. rewrite (vec_index_some _ _ _ Hstate). run_bind.
  rewrite filter_cons_True; cycle 1.
  { rewrite Hcand. destruct last as [r|]; [|done]. apply bool_decide_eq_false in Hskip. by apply bool_decide_eq_true_2; lia. }
  set (exc1 := list_to_set eq ∪ exc). destruct state as [|score].
  - run_bind. destruct (IH (inc ++ [b]) pend exc1 Hlen') as (i & q & e & -> & Hp & Hexc).
    exists (b :: i), q, e. rewrite <- (assoc_L (++)). split_and!; [done|by cbn; f_equiv|].
    intros r [Hr|(x & ? & ?)]%Hexc; [|right; exists x; set_solver]. unfold exc1 in Hr. apply elem_of_union in Hr as [Hr|?]; [|by left].
    right. exists (b, eq). split; [set_solver|]. by apply elem_of_list_to_set in Hr.
  - run_bind. destruct (IH inc (pend ++ [(score, b)]) exc1 Hlen') as (i & q & e & -> & Hp & Hexc).
    exists i, ((score, b) :: q), e. rewrite <- (assoc_L (++)). split_and!; [done|by cbn; rewrite <- Permutation_middle; f_equiv|].
    intros r [Hr|(x & ? & ?)]%Hexc; [|right; exists x; set_solver]. unfold exc1 in Hr. apply elem_of_union in Hr as [Hr|?]; [|by left].
    right. exists (b, eq). split; [set_solver|]. by apply elem_of_list_to_set in Hr.
Qed.

Lemma get_last_in_range_spec ds a lo hi :
  dag_ok ds → (a < Committee_size (ds_committee ds))%N →
  ∃ o, get_last_cached_block_in_range ds a lo hi = Done o ∧
    ∀ b, o = Some b → author b = a ∧ (lo ≤ round b < hi)%N ∧ cached ds !! reference b = Some b.
Proof.
  intros Hok Ha. unfold get_last_cached_block_in_range. case_decide as Hlt; [by exists None|].
  destruct (lookup_lt_is_Some_2 (ds_recent_refs_by_authority ds) (N.to_nat a)) as [refs Hrefs].
  { pose proof (dk_refs_len _ Hok) as Hlen. unfold lengthN in Hlen. lia. }
  unfold cached_refs_in_range. rewrite (vec_index_some _ _ _ Hrefs). run_bind. unfold btree_range.
  rewrite rassert_true by (unfold BlockRef_le; cbn; lia). run_bind. eexists. split; [done|]. intros b Hb.
  match goal with H : context [last ?l] |- _ => set (k := l) in * end.
  destruct (last k) as [r|] eqn:Hl; [|done]. apply last_Some_elem_of in Hl. cbn in Hb. unfold k in Hl.
  rewrite !list_elem_of_filter, elem_of_set_in_order, (dk_refs _ Hok _ _ Hrefs r) in Hl.
  destruct Hl as (Hne & Hle & Hd & Hra). apply elem_of_dom in Hd as [b' Hb'].
  destruct (dk_recent _ Hok _ _ Hb') as [Href _]. pose proof Hb' as Hc. rewrite cached_lookup, Hb in Hb'. injection Hb' as <-.
  assert (author b = ref_author r ∧ round b = ref_round r) as [Hab Hrb] by (by rewrite <- Href).
  rewrite Hab, Hrb, Href. split_and!; [done| |destruct r as [rr ra rd]|done].
  - unfold BlockRef_le in Hle. cbn in Hle. lia.
  - unfold BlockRef_le in Hle. cbn in *. destruct (decide (rr = hi)) as [->|]; [|lia]. exfalso. apply Hne.
    unfold AuthorityIndex_MIN, AuthorityIndex_ZERO, BlockDigest_MIN in *. f_equal; lia.
Qed.

Lemma set_stake_mono c X Y : X ⊆ Y → (set_stake c X ≤ set_stake c Y)%N.
Proof. apply set_sum_mono. Qed.

Lemma reached_mono c (agg agg' : StakeAggregator QuorumThreshold) :
  agg_ok c agg → agg_ok c agg' → votes agg ⊆ votes agg' → reached_threshold agg c = true → reached_threshold agg' c = true.
Proof.
  intros Ha Ha' Hsub. rewrite !(reached_threshold_spec c) by done. rewrite !bool_decide_eq_true.
  pose proof (set_stake_mono c _ _ Hsub). lia.
Qed.

Lemma add_parents_spec c agg l :
  committee_ok c → agg_ok c agg → (∀ b, b ∈ l → (author b < Committee_size c)%N) →
  ∃ agg', for_each (add_parent c) agg l = Done agg' ∧ agg_ok c agg' ∧ votes agg' = list_to_set (author <$> l) ∪ votes agg.
Proof.
  intros Hc. revert agg. induction l as [|b l IH]; intros agg Hagg Hl; cbn [for_each].
  { exists agg. split_and!; [done|done|set_solver]. }
  unfold add_parent at 2. destruct (agg_add_spec c Hc agg (author b)) as (a1 & -> & Ha1 & Hv1); [done|auto with lists|].
  run_bind. destruct (IH a1) as (a' & -> & Ha' & Hv'); [done|auto with lists|].
  exists a'. split_and!; [done|done|]. rewrite Hv', Hv1. set_solver.
Qed.

(** The first loop takes what it needs from the parent round: either the quorum is
    reached or nothing of the parent round is left. *)
Lemma include_for_quorum_loop c qr agg tp exc l :
  committee_ok c → agg_ok c agg → (∀ x, x ∈ l → (author x.2 < Committee_size c)%N) →
  ∃ agg' ins exc', for_each (include_for_quorum c qr) (agg, tp, exc) l = Done (agg', tp ++ ins, exc ++ exc') ∧
    agg_ok c agg' ∧ votes agg' = list_to_set (author <$> ins) ∪ votes agg ∧ (∀ b, b ∈ ins → round b = qr) ∧
    ins ++ exc'.*2 ≡ₚ l.*2 ∧ (reached_threshold agg' c = true ∨ ∀ x, x ∈ exc' → round x.2 ≠ qr).
Proof.
  intros Hc. revert agg tp exc. induction l as [|x l IH]; intros agg tp exc Hagg Hl; cbn [for_each].
  { exists agg, [], []. rewrite !(right_id_L [] (++)). split_and!; [done|done|set_solver|set_solver|done|].
    right. by intros ? ?%elem_of_nil. }
  assert (author x.2 < Committee_size c)%N as Hx by auto with lists.
  unfold include_for_quorum at 2. cbv beta iota zeta. unfold authority.
  destruct (lookup_lt_is_Some_2 (authorities c) (N.to_nat (author x.2))) as [y Hy].
  { unfold Committee_size, lengthN in Hx. lia. }
  rewrite (vec_index_some _ _ _ Hy). run_bind. case_decide as Hd.
  - destruct Hd as [_ Hr]. unfold add_parent.
    destruct (agg_add_spec c Hc agg (author x.2)) as (a1 & -> & Ha1 & Hv1); [done..|]. run_bind.
    destruct (IH a1 (tp ++ [x.2]) exc) as (agg' & ins & exc' & -> & Hok & Hv & Hround & Hp & Hor); [done|auto with lists|].
    exists agg', (x.2 :: ins), exc'. rewrite <- (assoc_L (++)). split_and!; [done|done| | |by cbn; f_equiv|done].
    + rewrite Hv, Hv1. set_solver.
    + intros b [->|Hb]%elem_of_cons; auto.
  - run_bind. destruct (IH agg tp (exc ++ [x])) as (agg' & ins & exc' & -> & Hok & Hv & Hround & Hp & Hor); [done|auto with lists|].
    exists agg', ins, (x :: exc'). rewrite <- (assoc_L (++)). split_and!; [done|done|done|done| |].
    + cbn. rewrite <- Permutation_middle. by f_equiv.
    + destruct Hor as [?|Hor]; [by left|]. destruct (reached_threshold agg c) eqn:Hreach.
      * left. eapply reached_mono; [exact Hagg|done| |done]. rewrite Hv. set_solver.
      * right. intros x' [->|?]%elem_of_cons; [intros Hr; apply Hd; done|auto].
Qed.

(** The second loop adds at most one block of each author, of the parent round or
    earlier, and records it. *)
Lemma include_accepted_step c ds qs qr tp exc li x :
  dag_ok ds → ds_committee ds = c → lengthN qs = Committee_size c → (qr + 1 < u32_modulus)%N →
  lengthN li = Committee_size c → (author x.2 < Committee_size c)%N → in_dag ds x.2 →
  ∃ ins exc' li', include_accepted c ds qs qr (tp, exc, li) x = Done (tp ++ ins, exc', li') ∧
    (ins = [] ∨ ∃ b, ins = [b] ∧ author b = author x.2) ∧ (∀ b, b ∈ ins → in_dag ds b ∧ (round b ≤ qr)%N) ∧
    (∀ r, r ∈ exc' → r ∈ exc ∨ ref_author r = author x.2) ∧ lengthN li' = Committee_size c ∧
    (∀ i r, li' !! i = Some (Some r) → li !! i = Some (Some r) ∨ ∃ b, b ∈ ins ∧ r = reference b).
Proof.
  intros Hok Hcom Hqs Hqr Hli Hx Hdag. unfold include_accepted, authority.
  destruct (lookup_lt_is_Some_2 (authorities c) (N.to_nat (author x.2))) as [y Hy].
  { unfold Committee_size, lengthN in Hx. lia. }
  rewrite (vec_index_some _ _ _ Hy). run_bind.
  destruct (lookup_lt_is_Some_2 qs (N.to_nat (author x.2))) as [q Hq]; [unfold lengthN in Hqs; lia|].
  destruct (lookup_lt_is_Some_2 li (N.to_nat (author x.2))) as [last Hlast]; [unfold lengthN in Hli; lia|].
  rewrite (vec_index_some _ _ _ Hq). run_bind. rewrite (vec_index_some _ _ _ Hlast). run_bind.
  set (low := N.min q.1 qr). set (lr := default GENESIS_ROUND (ref_round <$> last)).
  assert (∀ r (exc' : gset BlockRef), r ∈ {[reference x.2]} ∪ exc → r ∈ exc ∨ ref_author r = author x.2) as Hexc.
  { intros r _ [->%elem_of_singleton|?]%elem_of_union; [by right|by left]. }
  case_decide as H1.
  { exists [], exc, li. rewrite (right_id_L [] (++)). split_and!; [done|by left|set_solver|by left|done|by left]. }
  case_decide as H2.
  { exists [], ({[reference x.2]} ∪ exc), li. rewrite (right_id_L [] (++)). split_and!; [done|by left|set_solver|by eauto|done|by left]. }
  assert (∃ o exc', (if decide (round x.2 ≤ low)%N then Done (Some x.2, exc)
      else o ← get_last_cached_block_in_range ds (author x.2) (lr +₃₂ 1) (low +₃₂ 1); Done (o, {[reference x.2]} ∪ exc)) =
      Done (o, exc') ∧ (∀ b, o = Some b → author b = author x.2 ∧ in_dag ds b ∧ (round b ≤ qr)%N) ∧
      (∀ r, r ∈ exc' → r ∈ exc ∨ ref_author r = author x.2)) as (o & exc' & -> & Ho & He).
  { case_decide as H3.
    - exists (Some x.2), exc. split_and!; [done| |by left]. intros b [= <-]. split_and!; [done|done|lia].
    - destruct (get_last_in_range_spec ds (author x.2) (lr +₃₂ 1) (low +₃₂ 1) Hok) as (o & -> & Ho); [by rewrite Hcom|].
      run_bind. exists o, ({[reference x.2]} ∪ exc). split_and!; [done| |by eauto].
      intros b Hb. destruct (Ho b Hb) as (? & Hr & ?). rewrite !wrap_add_small in Hr by lia.
      split_and!; [done|by right|lia]. }
  run_bind. destruct o as [b|].
  - destruct (Ho b eq_refl) as (Hab & Hbd & Hbr). rewrite vec_set_lt by (unfold lengthN in Hli; lia). run_bind.
    exists [b], exc', (<[N.to_nat (author x.2) := Some (reference b)]> li).
    split_and!; [done|by right; exists b|by intros b' ->%list_elem_of_singleton|done|unfold lengthN; by rewrite length_insert|].
    intros i r Hi. apply list_lookup_insert_Some in Hi as [(_ & Heq & _)|[_ ?]]; [|by left].
    injection Heq as <-. right. exists b. split; [set_solver|done].
  - exists [], exc', li. rewrite (right_id_L [] (++)). split_and!; [done|by left|set_solver|done|done|by left].
Qed.

Lemma include_accepted_loop c ds qs qr tp exc li l :
  dag_ok ds → ds_committee ds = c → lengthN qs = Committee_size c → (qr + 1 < u32_modulus)%N →
  lengthN li = Committee_size c → (∀ x, x ∈ l → (author x.2 < Committee_size c)%N ∧ in_dag ds x.2) →
  ∃ ins exc' li', for_each (include_accepted c ds qs qr) (tp, exc, li) l = Done (tp ++ ins, exc', li') ∧
    (author <$> ins) `sublist_of` (author <$> l.*2) ∧ (∀ b, b ∈ ins → in_dag ds b ∧ (round b ≤ qr)%N) ∧
    (∀ r, r ∈ exc' → r ∈ exc ∨ (ref_author r < Committee_size c)%N) ∧ lengthN li' = Committee_size c ∧
    (∀ i r, li' !! i = Some (Some r) → li !! i = Some (Some r) ∨ ∃ b, b ∈ ins ∧ r = reference b).
Proof.
  intros Hok Hcom Hqs Hqr. revert tp exc li. induction l as [|x l IH]; intros tp exc li Hli Hl; cbn [for_each].
  { exists [], exc, li. rewrite (right_id_L [] (++)). split_and!; [done|done|set_solver|by left|done|by left]. }
  destruct (Hl x) as [Hx Hxd]; [auto with lists|].
  destruct (include_accepted_step c ds qs qr tp exc li x) as (i1 & e1 & l1 & -> & Hi1 & Hd1 & He1 & Hlen1 & Hl1); [done..|].
  run_bind. destruct (IH (tp ++ i1) e1 l1) as (i2 & e2 & l2 & -> & Hi2 & Hd2 & He2 & Hlen2 & Hl2); [done|auto with lists|].
  exists (i1 ++ i2), e2, l2. rewrite <- (assoc_L (++)). split_and!; [done| | | |done|].
  - cbn. rewrite fmap_app. destruct Hi1 as [->|(b & -> & Hb)]; cbn; [by apply sublist_cons|]. rewrite Hb. by apply sublist_skip.
  - intros b [?|?]%elem_of_app; auto.
  - intros r [Hr|?]%He2; [|by right]. apply He1 in Hr as [?|Hr]; [by left|right; by rewrite Hr].
  - intros i r [Hr|(b & Hb & ->)]%Hl2; [|right; exists b; set_solver].
    apply Hl1 in Hr as [?|(b & Hb & ->)]; [by left|right; exists b; set_solver].
Qed.

Lemma mapM_length {A B} (f : A → outcome B) l k : mapM f l = Done k → length k = length l.
Proof.
  revert k. induction l as [|x l IH]; intros k; cbn; [by intros [= <-]|].
  destruct (f x) as [y| |]; [|done|done]. cbn. destruct (mapM f l) as [ys| |] eqn:Hl; [|done|done].
  intros [= <-]. cbn. f_equal. by apply IH.
Qed.

Lemma accepted_quorum_rounds_total ctx f rt :
  committee_ok (committee ctx) → quorums_intersect (committee ctx) f → tracker_ok ctx rt →
  ∃ qs, compute_accepted_quorum_rounds rt = Done qs ∧ lengthN qs = Committee_size (committee ctx).
Proof.
  intros Hc Hq Hrt. destruct (quorum_rounds_run (committee ctx) f _ Hc Hq (highest_accepted_ok ctx rt Hrt)) as (qs & Hrun & _).
  exists qs. unfold compute_accepted_quorum_rounds. rewrite (to_context _ _ Hrt). split; [done|].
  apply mapM_length in Hrun. unfold lengthN, Committee_size. rewrite Hrun. unfold authorities_iter, lengthN. by rewrite length_imap.
Qed.

(** What the ancestors of a proposal are: the own last block first, at most one
    block of each author, blocks of the dag of earlier rounds, and a quorum of the
    previous round. *)
Record proposal_ok (c : Committee) ds (own clock : N) (anc : list VerifiedBlock) : Prop := {
  pa_own : ∃ b rest, anc = b :: rest ∧ author b = own;
  pa_distinct : NoDup (author <$> anc);
  pa_authors b : b ∈ anc → (author b < Committee_size c)%N;
  pa_dag b : b ∈ anc → in_dag ds b ∧ (round b < clock)%N;
  pa_quorum : (quorum_threshold c ≤ set_stake c (list_to_set (author <$> filter (λ b, round b + 1 = clock)%N anc)))%N;
}.

(** A quorum of authorities has a block in the round before [clock]: what makes the
    threshold clock advance to it. *)
Definition parent_quorum (c : Committee) ds (clock : N) : Prop :=
  ∃ X : gset N, (quorum_threshold c ≤ set_stake c X)%N ∧
    ∀ a, a ∈ X → (a < Committee_size c)%N ∧ ∃ b, in_dag ds b ∧ author b = a ∧ (round b + 1 = clock)%N.

(** The last blocks of the authorities, as the selection reads them. *)
Lemma last_blocks_candidates ds clock own li last L :
  dag_ok ds → lengthN L = Committee_size (ds_committee ds) →
  (∀ a x, L !! N.to_nat a = Some x → last_block_of ds clock a x) →
  ((1 < clock)%N → ∀ a e, ds_evicted_rounds ds !! N.to_nat a = Some e → (e < clock - 1)%N) →
  author last = own → in_dag ds last → (round last < clock)%N →
  (∀ r, r ∈ dom (cached ds) → ref_author r = own → (ref_round r ≤ round last)%N) →
  (∀ i r, li !! i = Some (Some r) → (ref_round r < round last)%N) →
  ∀ b, in_dag ds b → (author b < Committee_size (ds_committee ds))%N → (round b + 1 = clock)%N →
  ∃ b', b' ∈ last :: filter (λ b, candidate own li b = true) L.*1 ∧ author b' = author b ∧ (round b' + 1 = clock)%N.
Proof.
  intros Hok HL Hlast He Hown Hdag Hround Hmax Hli b Hb Ha Hr.
  assert (∀ b, in_dag ds b → (1 < clock)%N → (round b + 1 = clock)%N → reference b ∈ dom (cached ds)) as Hcached.
  { intros b1 [[_ H1]|H1] Hcl Hr1; [unfold GENESIS_ROUND in H1; lia|by apply elem_of_dom_2 in H1]. }
  destruct (decide (author b = own)) as [Hbo|Hbo].
  { exists last. split_and!; [auto with lists|congruence|]. destruct (decide (1 < clock)%N) as [Hcl|]; [|lia].
    specialize (Hmax _ (Hcached b Hb Hcl Hr) Hbo). cbn in Hmax. lia. }
  destruct (lookup_lt_is_Some_2 L (N.to_nat (author b))) as [x Hx]; [unfold lengthN in HL; lia|].
  pose proof (Hlast _ _ Hx) as [Hxa Hxr Hxd Hxl _].
  destruct (lookup_lt_is_Some_2 (ds_evicted_rounds ds) (N.to_nat (author b))) as [e Hev].
  { pose proof (dk_evicted_len _ Hok) as Hlen. unfold lengthN in Hlen. lia. }
  assert (round x.1 + 1 = clock)%N as Hx1.
  { destruct (decide (1 < clock)%N) as [Hcl|]; [|lia]. specialize (He Hcl _ _ Hev).
    assert (round b ≤ round x.1)%N; [|lia]. apply (Hxl (reference b) e Hev); [by apply Hcached|done|cbn; lia]. }
  exists x.1. split_and!; [|done|done]. apply elem_of_cons. right. apply list_elem_of_filter. split.
  - unfold candidate. rewrite bool_decide_eq_true_2 by congruence.
    destruct (li !! N.to_nat (author x.1)) as [[r|]|] eqn:Hr'; try done. specialize (Hli _ _ Hr'). apply bool_decide_eq_true_2. lia.
  - apply list_elem_of_fmap. exists x. split; [done|by eapply list_elem_of_lookup_2].
Qed.

(** The own last block and the candidates: valid, and of distinct authors. *)
Lemma candidates_ok ds clock own li last L (base := last :: filter (λ b, candidate own li b = true) L.*1) :
  lengthN L = Committee_size (ds_committee ds) → (∀ a x, L !! N.to_nat a = Some x → last_block_of ds clock a x) →
  author last = own → (own < Committee_size (ds_committee ds))%N → in_dag ds last → (round last < clock)%N →
  NoDup (author <$> base) ∧
  ∀ b, b ∈ base → (author b < Committee_size (ds_committee ds))%N ∧ in_dag ds b ∧ (round b < clock)%N.
Proof.
  intros HL Hlast Hown Hlt Hdag Hr. unfold base.
  assert (∀ i x, L !! i = Some x → author x.1 = N.of_nat i) as Hauth.
  { intros i x Hx. rewrite <- (Nat2N.id i) in Hx. by apply Hlast, lb_author in Hx. }
  split.
  - cbn. constructor.
    + intros (b & Hb & [Hc _]%list_elem_of_filter)%list_elem_of_fmap. unfold candidate in Hc.
      rewrite bool_decide_eq_false_2 in Hc by (intros Hne; congruence). done.
    + eapply sublist_NoDup; [|apply fmap_sublist, sublist_filter]. rewrite <- list_fmap_compose. apply NoDup_alt.
      intros i j a Hi Hj. rewrite list_lookup_fmap in Hi, Hj.
      apply fmap_Some in Hi as (x & Hx & ->). apply fmap_Some in Hj as (y & Hy & Heq). cbn in Heq.
      rewrite (Hauth _ _ Hx), (Hauth _ _ Hy) in Heq. lia.
  - intros b [->|[_ Hb]%list_elem_of_filter]%elem_of_cons; [by subst|].
    apply list_elem_of_fmap in Hb as (x & -> & [i Hx]%list_elem_of_lookup).
    rewrite (Hauth _ _ Hx). rewrite <- (Nat2N.id i) in Hx. pose proof (Hlast _ _ Hx) as [_ ? ? _ _].
    split_and!; [|done|done]. apply lookup_lt_Some in Hx. unfold lengthN in HL. lia.
Qed.

(** From the loops to the proposal: [inc] and [ins] are taken, [rest] is what the
    second loop sees and [more] what it takes. *)
Lemma selection_proposal_ok c ds own clock last inc ins more rest (base := last :: inc ++ ins ++ rest)
    (agg : StakeAggregator QuorumThreshold) :
  author last = own → NoDup (author <$> base) →
  (∀ b, b ∈ base → (author b < Committee_size c)%N ∧ in_dag ds b ∧ (round b < clock)%N) →
  agg_ok c agg → reached_threshold agg c = true → (∀ b, b ∈ ins → (round b + 1 = clock)%N) →
  votes agg = list_to_set (author <$> ins) ∪ list_to_set (author <$> filter (λ b, round b + 1 = clock)%N (last :: inc)) →
  (author <$> more) `sublist_of` (author <$> rest) → (∀ b, b ∈ more → in_dag ds b ∧ (round b < clock)%N) →
  proposal_ok c ds own clock ((last :: inc) ++ ins ++ more).
Proof.
  intros Hown Hnd Hbase Hagg Hreach Hins Hv Hsub Hmore. unfold base in *.
  assert ((author <$> (last :: inc) ++ ins ++ more) `sublist_of` (author <$> last :: inc ++ ins ++ rest)) as Hs.
  { cbn. apply sublist_skip. rewrite !fmap_app. by repeat apply sublist_app. }
  split.
  - by exists last, (inc ++ ins ++ more).
  - by eapply sublist_NoDup.
  - intros b Hb. assert (author b ∈ author <$> last :: inc ++ ins ++ rest) as Hin.
    { eapply sublist_subseteq; [exact Hs|]. by apply list_elem_of_fmap_2. }
    apply list_elem_of_fmap in Hin as (b' & -> & Hb'). by apply Hbase.
  - intros b Hb. rewrite !elem_of_app in Hb. destruct Hb as [Hb|[Hb|Hb]]; [|..|by apply Hmore];
      apply Hbase; rewrite elem_of_cons, !elem_of_app in *; tauto.
  - rewrite (reached_threshold_spec c), bool_decide_eq_true in Hreach by done. etrans; [exact Hreach|].
    apply set_stake_mono. rewrite Hv. intros a. rewrite elem_of_union, !elem_of_list_to_set, !list_elem_of_fmap.
    intros [(b & -> & Hb)|(b & -> & [Hr Hb]%list_elem_of_filter)]; exists b; rewrite list_elem_of_filter, !elem_of_app; auto.
Qed.

(** Without a quorum in the first two groups, a block of the parent round would be
    left over. *)
Lemma quorum_is_reached c clock (agg : StakeAggregator QuorumThreshold) X last inc ins (rest : list VerifiedBlock) :
  agg_ok c agg → (quorum_threshold c ≤ set_stake c X)%N →
  (∀ a, a ∈ X → ∃ b, b ∈ last :: inc ++ ins ++ rest ∧ author b = a ∧ (round b + 1 = clock)%N) →
  votes agg = list_to_set (author <$> ins) ∪ list_to_set (author <$> filter (λ b, round b + 1 = clock)%N (last :: inc)) →
  (reached_threshold agg c = true ∨ ∀ b, b ∈ rest → (round b + 1 ≠ clock)%N) → reached_threshold agg c = true.
Proof.
  intros Hagg HX Hcov Hv [?|Hrest]; [done|]. rewrite (reached_threshold_spec c), bool_decide_eq_true by done.
  etrans; [exact HX|]. apply set_stake_mono. intros a Ha. destruct (Hcov a Ha) as (b & Hb & <- & Hr).
  rewrite Hv, elem_of_union, !elem_of_list_to_set, !list_elem_of_fmap. rewrite elem_of_cons, !elem_of_app in Hb.
  destruct Hb as [->|[Hb|[Hb|Hb]]].
  - right. exists last. split; [done|]. apply list_elem_of_filter. auto with lists.
  - right. exists b. split; [done|]. apply list_elem_of_filter. auto with lists.
  - left. by exists b.
  - by destruct (Hrest b Hb).
Qed.

(** What the selection needs of the proposer. *)
Record selector_ok (ctx : Context) (f : N) (p : ValidatorProposer S) : Prop := {
  so_context : vp_context p = ctx;
  so_quorums : quorums_intersect (committee ctx) f;
  so_validator : is_validator ctx = true;
  so_own : (own_index ctx < Committee_size (committee ctx))%N;
  so_dag : dag_ok (vp_dag_state p);
  so_dag_context : ds_context (vp_dag_state p) = ctx;
  so_genesis : genesis_listed (vp_dag_state p);
  so_tracker : tracker_ok ctx (vp_round_tracker p);
  so_manager : manager_ok ctx (vp_ancestor_state_manager p);
  so_scores : (lengthN (scores_per_authority (am_propagation_scores (vp_ancestor_state_manager p))) ≤
    Committee_size (committee ctx))%N;
  so_included : lengthN (vp_last_included_ancestors p) = Committee_size (committee ctx);
  (** what is included of other authorities is below the last proposal *)
  so_below i r b : vp_last_included_ancestors p !! i = Some (Some r) → last_proposed_block p = Done b →
    (ref_round r < round b)%N;
}.

(** What the node relies on when it proposes for the round of the threshold clock:
    the clock advanced with a quorum of the previous round, and the gc round stays
    behind it. *)
Record clock_ok (c : Committee) ds (clock : N) : Prop := {
  ck_positive : (0 < clock)%N;
  ck_bound : (clock + 8 < u32_MAX)%N;
  ck_gc : (gc_round ds = 0 ∨ gc_round ds + 1 < clock)%N;
  ck_quorum : parent_quorum c ds clock;
}.

Lemma last_proposed_spec ctx f p :
  selector_ok ctx f p →
  ∃ b, last_proposed_block p = Done b ∧ author b = own_index ctx ∧ in_dag (vp_dag_state p) b ∧
    ∀ r, r ∈ dom (cached (vp_dag_state p)) → ref_author r = own_index ctx → (ref_round r ≤ round b)%N.
Proof.
  intros Hp. unfold last_proposed_block, get_last_proposed_block. rewrite (so_dag_context _ _ _ Hp), (so_validator _ _ _ Hp).
  destruct (get_last_block_spec (vp_dag_state p) (own_index ctx)) as (b & -> & Hb); [apply Hp| |by exists b].
  unfold ds_committee. rewrite (so_dag_context _ _ _ Hp). apply Hp.
Qed.

Lemma clock_evicted c ds clock :
  dag_ok ds → clock_ok c ds clock →
  (1 < clock)%N → ∀ a e, ds_evicted_rounds ds !! N.to_nat a = Some e → (e < clock - 1 ∧ e + 1 < u32_modulus)%N.
Proof.
  intros Hok [_ Hmax Hgc _] Hcl a e He. unfold u32_MAX in Hmax.
  destruct (dk_evicted_le _ Hok a e He) as [->|[Hle _]]; lia.
Qed.

(** The selection on the loops' results. *)
Lemma select_rest c ds qs qr clock own last X inc pend exc li :
  dag_ok ds → ds_committee ds = c → (qr + 1 = clock)%N → (clock < u32_modulus)%N → lengthN qs = Committee_size c →
  lengthN li = Committee_size c → author last = own →
  NoDup (author <$> last :: inc ++ pend.*2) →
  (∀ b, b ∈ last :: inc ++ pend.*2 → (author b < Committee_size c)%N ∧ in_dag ds b ∧ (round b < clock)%N) →
  (quorum_threshold c ≤ set_stake c X)%N →
  (∀ a, a ∈ X → ∃ b, b ∈ last :: inc ++ pend.*2 ∧ author b = a ∧ (round b + 1 = clock)%N) →
  (∀ r, r ∈ exc → (ref_author r < Committee_size c)%N) →
  ∃ agg, for_each (add_parent c) StakeAggregator_new (filter (λ b, round b = qr) (last :: inc)) = Done agg ∧
    ∃ agg' tp rest more exc' li',
      for_each (include_for_quorum c qr) (agg, last :: inc, []) (stable_sort ancestor_score_ge pend) = Done (agg', tp, rest) ∧
      for_each (include_accepted c ds qs qr) (tp, exc, li) rest = Done (tp ++ more, exc', li') ∧
      reached_threshold agg' c = true ∧ proposal_ok c ds own clock (tp ++ more) ∧
      (∀ r, r ∈ exc' → (ref_author r < Committee_size c)%N) ∧ lengthN li' = Committee_size c ∧
      (∀ i r, li' !! i = Some (Some r) → li !! i = Some (Some r) ∨ (ref_round r < clock)%N).
Proof.
  intros Hok Hcom Hqr Hmax Hqs Hli Hown Hnd Hbase HX Hcov Hexc.
  pose proof (dk_committee _ Hok) as Hc. rewrite Hcom in Hc.
  destruct (add_parents_spec c StakeAggregator_new (filter (λ b, round b = qr) (last :: inc)))
    as (agg & -> & Hagg & Hv); [done|apply StakeAggregator_new_ok| |].
  { intros b [_ Hb]%list_elem_of_filter. apply Hbase. rewrite elem_of_cons, elem_of_app in *. tauto. }
  exists agg. split; [done|].
  assert (stable_sort ancestor_score_ge pend ≡ₚ pend) as Hsort by apply stable_sort_perm.
  destruct (include_for_quorum_loop c qr agg (last :: inc) [] (stable_sort ancestor_score_ge pend))
    as (agg' & ins & rest & -> & Hagg' & Hv' & Hround & Hp & Hor); [done|done| |].
  { intros x Hx. apply Hbase. rewrite Hsort in Hx. apply elem_of_cons. right. apply elem_of_app. right. by apply list_elem_of_fmap_2. }
  rewrite Hsort in Hp.
  assert (last :: inc ++ pend.*2 ≡ₚ last :: inc ++ ins ++ rest.*2) as Hperm by (by rewrite Hp).
  assert (votes agg' = list_to_set (author <$> ins) ∪
    list_to_set (author <$> filter (λ b, round b + 1 = clock)%N (last :: inc))) as Hvotes.
  { rewrite Hv', Hv. cbn [votes StakeAggregator_new]. rewrite (right_id_L ∅ (∪)). f_equal. f_equal. f_equal.
    apply list_filter_iff. intros b. lia. }
  rewrite Hperm in Hnd. setoid_rewrite Hperm in Hbase. setoid_rewrite Hperm in Hcov.
  destruct (include_accepted_loop c ds qs qr ((last :: inc) ++ ins) exc li rest)
    as (more & exc' & li' & Hrun & Hmore & Hmd & Hexc' & Hli' & Hlr); [done|done|done|lia|done| |].
  { intros x Hx. destruct (Hbase x.2) as (? & ? & _); [|done]. rewrite elem_of_cons, !elem_of_app. right. right. right. by apply list_elem_of_fmap_2. }
  assert (reached_threshold agg' c = true) as Hreach.
  { eapply quorum_is_reached; [done|exact HX|exact Hcov|done|]. destruct Hor as [?|Hor]; [by left|right].
    intros b (x & -> & Hx)%list_elem_of_fmap. specialize (Hor x Hx). lia. }
  exists agg', ((last :: inc) ++ ins), rest, more, exc', li'. split_and!; [done|exact Hrun|done| | |done|].
  - rewrite <- (assoc_L (++)). eapply selection_proposal_ok; [done|exact Hnd|exact Hbase|exact Hagg'|done| |done|exact Hmore|].
    + intros b Hb%Hround. lia.
    + intros b [? ?]%Hmd. split; [done|lia].
  - intros r [?|?]%Hexc'; auto.
  - intros i r [?|(b & [_ ?]%Hmd & ->)]%Hlr; [by left|right; cbn; lia].
Qed.

(** The selection of ancestors: it never panics, and it returns a proposal, or
    nothing when it may and the quorum needs low scoring ancestors. *)
Lemma smart_ancestors_spec ctx f p clock smart (c := committee ctx) (ds := vp_dag_state p)
    (li := vp_last_included_ancestors p) :
  selector_ok ctx f p → clock_ok c ds clock →
  (∀ b, last_proposed_block p = Done b → (round b < clock)%N) →
  ∃ m' li' anc exc, smart_ancestors_to_propose p clock smart = Done (set_selection m' li' p, anc, exc) ∧
    manager_ok ctx m' ∧ am_propagation_scores m' = am_propagation_scores (vp_ancestor_state_manager p) ∧
    (∀ r, r ∈ exc → (ref_author r < Committee_size c)%N) ∧
    ((anc = [] ∧ smart = true ∧ li' = li) ∨
     (proposal_ok c ds (own_index ctx) clock anc ∧ lengthN li' = Committee_size c ∧
      (∀ i r, li' !! i = Some (Some r) → (ref_round r < clock)%N))).
Proof.
  intros Hp Hck Hnew. destruct (last_proposed_spec ctx f p Hp) as (last & Hlast & Hauth & Hdag & Htop). specialize (Hnew _ Hlast).
  pose proof Hp as [Hctx Hq _ Hown Hok Hdctx Hgen Htr Hm Hsc Hli Hbelow].
  assert (ds_committee ds = c) as Hcom by (unfold ds_committee, ds; by rewrite Hdctx).
  pose proof (dk_committee _ Hok) as Hc. fold ds in Hc. rewrite Hcom in Hc. pose proof (clock_evicted c ds clock Hok Hck) as Hev.
  destruct Hck as [Hpos Hmax Hgc (X & HX & Hcov)]. unfold u32_MAX in Hmax.
  destruct (last_cached_blocks_spec ds clock Hok Hgen Hpos Hev) as (L & HL & HLlen & HLspec). rewrite Hcom in HLlen.
  destruct (accepted_quorum_rounds_total ctx f _ Hc Hq Htr) as (qs & Hqs & Hqslen).
  destruct (update_all_ancestors_total ctx _ ds qs Hc Hm Hqslen Hsc) as (m' & Hm' & Hmok & [_ Hscores]).
  assert (∀ b, b ∈ L.*1 → (author b < Committee_size c)%N) as HLa.
  { intros b (x & -> & [i Hi]%list_elem_of_lookup)%list_elem_of_fmap. pose proof (lookup_lt_Some _ _ _ Hi).
    rewrite <- (Nat2N.id i) in Hi. apply HLspec, lb_author in Hi. unfold lengthN in HLlen. lia. }
  destruct (select_loop_spec (own_index ctx) li (get_ancestor_states m') L [last] [] ∅)
    as (inc & pend & exc & Hsel & Hperm & Hexc).
  { intros x Hx. assert (author x.1 < Committee_size c)%N by (by apply HLa, list_elem_of_fmap_2).
    pose proof (mo_len _ _ Hmok) as Hlen. unfold get_ancestor_states. rewrite length_fmap.
    fold c in Hli, Hlen. unfold li, lengthN in *. lia. }
  destruct (candidates_ok ds clock (own_index ctx) li last L) as [Hnd Hbase]; [by rewrite Hcom|done|done|by rewrite Hcom|done|done|].
  destruct (select_rest c ds qs (clock - 1) clock (own_index ctx) last X inc pend exc li)
    as (agg & Hagg & agg' & tp & rest & more & exc' & li' & Hrun1 & Hrun2 & Hreach & Hprop & Hexc' & Hli' & Hlr); try done.
  { lia. } { lia. } { by rewrite Hperm. } { setoid_rewrite Hperm. rewrite <- Hcom. exact Hbase. }
  { intros a Ha. destruct (Hcov a Ha) as (Hlt & b & Hb & <- & Hr). setoid_rewrite Hperm.
    eapply (last_blocks_candidates ds); [exact Hok|by rewrite Hcom|done|by intros; eapply Hev|done|done|done|done| |done|by rewrite Hcom|done].
    intros i r Hir. by eapply Hbelow. }
  { intros r [?%not_elem_of_empty|(x & [i Hi]%list_elem_of_lookup & Hr)]%Hexc; [done|]. pose proof (lookup_lt_Some _ _ _ Hi).
    rewrite <- (Nat2N.id i) in Hi. pose proof (lb_equivocating _ _ _ _ (HLspec _ _ Hi) _ Hr). unfold lengthN in HLlen. lia. }
  unfold smart_ancestors_to_propose. fold ds. rewrite HL, Hctx. run_bind. fold c. rewrite rassert_true by done. run_bind.
  rewrite Hqs. run_bind. rewrite Hm'. run_bind. change (last_proposed_block (set_selection _ _ p)) with (last_proposed_block p).
  rewrite Hlast. run_bind. cbn [vp_context set_selection vp_last_included_ancestors]. rewrite Hctx. fold li. rewrite Hsel. run_bind.
  cbn [app]. rewrite Hagg. run_bind. case_decide as Hd.
  - exists m', li, [], ∅. split_and!; [done|done|done|set_solver|]. left. by destruct Hd.
  - rewrite Hrun1. run_bind. rewrite Hrun2. run_bind. rewrite rassert_true by done. run_bind.
    exists m', li', (tp ++ more), exc'. split_and!; [done|done|done|done|]. right. split_and!; [done|done|].
    intros i r [Hir|?]%Hlr; [|done]. specialize (Hbelow _ _ _ Hir Hlast). lia.
Qed.

End spec.
