(* ===== verification/ProposerSafety.v ===== *)
(** * Proposals are valid, new and durable

    The proposer of a validator, on a complete dag: creating a block never panics;
    the block passes the verifier of every node with the same committee and
    configuration; it is above every block the authority made before, so that a
    correct validator never equivocates; and it is stored before it is returned. *)

From S2P Require Import Prelude Committee Block StakeAggregator ThresholdClock Commit Store LeaderScoring.
From S2P Require Import DagState DagInvariant DagDurability RoundTracker AncestorState LeaderSchedule BaseCommitter.
From S2P Require Import UniversalCommitter CausalHistory BlockVerifier CommitSafety VoteAccounting.
From S2P Require Import TransactionVoteTracker LeaderScheduleV3 TransactionConsumer Proposer ProposerSpec.

(** ** Signing and serialising *)

Section external.
Context `{BlockCodec} `{BlockCrypto} `{BlockSigner}.

(** The encoders are total, digests have their length, and the key pair is the one
    the committee knows. *)
Record signer_ok (ctx : Context) (key : list N) : Prop := {
  sg_block b : is_Some (bcs_block b);
  sg_intent d : is_Some (bcs_block_intent d);
  sg_signed sb : is_Some (bcs_signed_block sb);
  sg_hash bytes : (hash_bytes bytes ≤ BlockDigest_MAX)%N;
  sg_verify a msg : authority (committee ctx) (own_index ctx) = Done a →
    ∃ sig, signature_from_bytes (protocol_key_sign key msg) = Some sig ∧
      protocol_key_verify (protocol_key a) msg sig = true;
}.

Lemma SignedBlock_new_spec ctx key block :
  signer_ok ctx key → ∃ sb, SignedBlock_new block key = Ok sb ∧ inner sb = block ∧
    ∀ a, authority (committee ctx) (own_index ctx) = Done a →
      verify_block_signature block (signature sb) (protocol_key a) = Ok ().
Proof.
  intros Hs. destruct (sg_block _ _ Hs block) as [bytes Hb]. destruct (sg_intent _ _ Hs (hash_bytes bytes)) as [msg Hm].
  eexists. unfold SignedBlock_new, compute_block_signature, verify_block_signature, compute_inner_block_digest.
  rewrite Hb, Hm. split_and!; [done|done|]. intros a Ha. destruct (sg_verify _ _ Hs a msg Ha) as (sig & Hsig & Hv). cbn. by rewrite Hsig, Hv.
Qed.

End external.

(** ** The transactions of a proposal *)

(** What the transaction consumer of the node guarantees: its limits are those of
    the protocol, and every waiting bundle passed the checks of the client. *)
Record consumer_ok (ctx : Context) (tc : TransactionConsumer) : Prop := {
  cs_limits : limits_ok tc;
  cs_bytes : tc_max_transactions_in_block_bytes tc = max_transactions_in_block_bytes (protocol_config ctx);
  cs_num : tc_max_num_transactions_in_block tc = max_num_transactions_in_block (protocol_config ctx);
  cs_fits g : g ∈ waiting tc → bundle_fits (protocol_config ctx) g;
}.

Lemma next_transactions ctx tc (config := protocol_config ctx) :
  consumer_ok ctx tc →
  ∃ gs tc' limit, next tc = (tc', payload gs, indices_from 0 gs, limit) ∧ consumer_ok ctx tc' ∧
    waiting tc = gs ++ waiting tc' ∧ transactions_ok config (map data (payload gs)).
Proof.
  intros [Hlim Hb Hn Hfits]. destruct (next_spec tc Hlim) as (gs & tc' & limit & Hrun & Hw & [Hfb Hfn] & _ & Htc').
  { intros g Hg. destruct (Hfits g Hg) as (_ & ? & ?). unfold fit. rewrite payload_singleton, Hb, Hn. done. }
  exists gs, tc', limit. split; [done|]. split_and!; [|done|].
  - split.
    + destruct Hlim. rewrite Htc'. by split.
    + by rewrite Htc'.
    + by rewrite Htc'.
    + intros g Hg. apply Hfits. rewrite Hw. set_solver.
  - split_and!.
    + intros t. rewrite <- list_fmap_alt. intros (tx & -> & (g & Htx & Hg)%list_elem_of_bind)%list_elem_of_fmap. right.
      destruct (Hfits g) as [Ht _]; [rewrite Hw; set_solver|]. by apply Ht.
    + right. unfold lengthN. rewrite length_map. unfold config. rewrite <- Hn. exact Hfn.
    + right. unfold config. rewrite <- Hb. etrans; [|exact Hfb]. unfold bytes_of. by rewrite map_map, <- list_fmap_alt.
Qed.

Lemma acknowledge_ok ctx tc acks r : consumer_ok ctx tc → consumer_ok ctx (acknowledge tc acks r).1.
Proof. intros [[? ?] ? ? Hfits]. split; [by split|done|done|exact Hfits]. Qed.

(** ** The block passes every verifier *)

(** A verifier of the same network: committee, configuration and genesis blocks. *)
Record same_network {S} (ctx : Context) (ds : DagState S) (v : SignedBlockVerifier) : Prop := {
  sn_committee : committee (bv_context v) = committee ctx;
  sn_config : protocol_config (bv_context v) = protocol_config ctx;
  sn_genesis r : r ∈ dom (ds_genesis ds) → r ∈ bv_genesis v;
}.

Section safety.
Context {S : Type} `{StoreLaws S} `{LeaderRng} `{BlockCodec} `{BlockCrypto} `{BlockSigner}.
Implicit Types ds : DagState S.
Implicit Types p : ValidatorProposer S.

Lemma make_block_fields ctx clock now anc txs tvotes cvotes (block := make_block ctx clock now anc txs tvotes cvotes) :
  Block_epoch block = epoch (committee ctx) ∧ Block_round block = clock ∧ Block_author block = own_index ctx ∧
  Block_ancestors block = reference <$> anc ∧ Block_transactions block = txs ∧ Block_timestamp_ms block = now.
Proof. unfold block, make_block. by destruct (transaction_voting_enabled _). Qed.

Lemma proposal_authors c ds own clock anc :
  proposal_ok c ds own clock anc → ∀ i r, (reference <$> anc) !! i = Some r → i = 0 ↔ ref_author r = own.
Proof.
  intros [(b & rest & -> & Hb) Hnd _ _ _] i r Hi. apply list_lookup_fmap_Some in Hi as (x & -> & Hx).
  split; [intros ->; cbn in Hx; by simplify_eq|]. intros Ha.
  eapply (NoDup_lookup _ _ _ own); [exact Hnd| |by cbn; rewrite Hb]. by rewrite list_lookup_fmap, Hx, <- Ha.
Qed.

Lemma proposal_accepted ctx ds clock now anc txs tvotes cvotes v sb
    (block := make_block ctx clock now anc txs tvotes cvotes) :
  dag_ok ds → proposal_ok (committee ctx) ds (own_index ctx) clock anc → (0 < clock)%N →
  (own_index ctx < Committee_size (committee ctx))%N →
  transactions_ok (protocol_config ctx) (map data txs) → inner sb = block →
  (∀ a, authority (committee ctx) (own_index ctx) = Done a → verify_block_signature block (signature sb) (protocol_key a) = Ok ()) →
  same_network ctx ds v → block_accepted v sb.
Proof.
  intros Hok Hanc Hpos Hown Htxs Hsb Hsig [Hc Hcfg Hgen].
  destruct (make_block_fields ctx clock now anc txs tvotes cvotes) as (E1 & E2 & E3 & E4 & E5 & _). fold block in E1, E2, E3, E4, E5.
  split; rewrite ?Hsb, ?Hc, ?Hcfg, ?E1, ?E2, ?E3, ?E4, ?E5; [done|done|done|done| | | | |done].
  - intros i r Hi. unfold ancestor_ok. rewrite Hc, E2, E3. pose proof (proposal_authors _ _ _ _ _ Hanc i r Hi) as Hzero.
    apply list_lookup_fmap_Some in Hi as (b & -> & Hb%list_elem_of_lookup_2).
    destruct (pa_dag _ _ _ _ _ Hanc b Hb) as [Hdag Hr]. split_and!; [by apply (pa_authors _ _ _ _ _ Hanc)|apply Hzero|done|].
    intros Hz. destruct Hdag as [[Hg _]|Hcd]; [by eapply Hgen, elem_of_dom_2|].
    destruct (dk_recent _ Hok _ _ Hcd) as [_ [_ Hnz _]]. by rewrite Hz in Hnz.
  - destruct (pa_own _ _ _ _ _ Hanc) as (b & rest & -> & _). done.
  - rewrite <- list_fmap_compose. apply Hanc.
  - etrans; [apply Hanc|]. apply set_stake_mono. unfold parent_authors. rewrite E2.
    intros a. rewrite !elem_of_list_to_set, !list_elem_of_fmap. intros (b & -> & [Hr Hb]%list_elem_of_filter).
    exists (reference b). split; [done|]. apply list_elem_of_filter. split; [done|by apply list_elem_of_fmap_2].
Qed.

(** ** The dag after a proposal *)

Lemma gc_round_same ds ds' : ds_context ds' = ds_context ds → ds_last_commit ds' = ds_last_commit ds → gc_round ds' = gc_round ds.
Proof. intros E1 E2. unfold gc_round, calculate_gc_round, last_commit_round. by rewrite E1, E2. Qed.

(** A block above every cached block of its author is not known. *)
Lemma new_block_unknown ds b :
  dag_ok ds → round b ≠ 0%N → (∀ r, r ∈ dom (cached ds) → ref_author r = author b → (ref_round r < round b)%N) →
  (∀ r, r ∈ dom (accepted ds) → ref_author r = author b → (ref_round r < round b)%N) ∧ known ds (reference b) = false.
Proof.
  intros Hok Hz Hnew. assert (∀ r, r ∈ dom (accepted ds) → ref_author r = author b → (ref_round r < round b)%N) as Hacc.
  { intros r [Hr|Hr]%elem_of_accepted Ha; [by apply Hnew|].
    destruct (dk_top _ Hok r Hr) as (r' & Hr' & Ha' & Hle). specialize (Hnew r' Hr' ltac:(congruence)). lia. }
  split; [done|]. apply bool_decide_eq_false_2. intros [Hr|[g Hr]%elem_of_dom].
  - specialize (Hacc _ Hr eq_refl). cbn in Hacc. lia.
  - apply (dk_genesis _ Hok) in Hr as [_ Hr]. by cbn in Hr.
Qed.

Lemma accept_new_block c ds b :
  dag_view c ds → enable_v3 (protocol_config (ds_context ds)) = false → ref_ok c (reference b) → valid_block c b →
  (∀ r, r ∈ ancestors b → (gc_round ds < ref_round r)%N → r ∈ dom (cached ds)) → (round b + 8 < u32_MAX)%N →
  (∀ r, r ∈ dom (cached ds) → ref_author r = author b → (ref_round r < round b)%N) →
  ∃ ds', accept_block ds b = Done ds' ∧ dag_view c ds' ∧ ds_context ds' = ds_context ds ∧ ds_genesis ds' = ds_genesis ds ∧
    ds_last_commit ds' = ds_last_commit ds ∧ cached ds' = <[reference b := b]> (cached ds) ∧
    accepted ds' = <[reference b := b]> (accepted ds).
Proof.
  intros [Hok Hc Hvalid Hcausal Hh] Hv3 Href Hb Hanc Hr Hnew.
  destruct (new_block_unknown ds b Hok) as [_ Hk]; [apply Href|done|].
  rewrite <- Hc in Href. destruct (accept_block_total ds b Hok Href Hv3) as [ds' Hrun].
  { intros _ _. right. intros r Hd Hs. assert (ref_author r = author b ∧ ref_round r = round b) as [Ha Hrr] by (unfold Slot_from in Hs; by simplify_eq).
    specialize (Hnew r Hd Ha). lia. }
  destruct (accept_block_ok ds b ds' Hok Href Hrun) as (Hok' & Hctx & Hlc & Hacc). rewrite Hk in Hacc.
  pose proof (accept_block_cached ds b ds' Hok Href Hk Hrun) as Hcd. pose proof (gc_round_same ds ds' Hctx Hlc) as Hgc.
  exists ds'. split_and!; [done| |done|by eapply accept_block_genesis|done|done|done].
  split; [done|unfold ds_committee in *; congruence| | |].
  - rewrite Hcd. intros r x [[_ <-]|[_ Hx]]%lookup_insert_Some; [done|by eapply Hvalid].
  - rewrite Hcd, Hgc, dom_insert_L. intros r x a [[_ <-]|[_ Hx]]%lookup_insert_Some Ha Hga; apply elem_of_union; right; [by apply Hanc|by eapply Hcausal].
  - clear -Hrun Hk Hok Href Hh Hr. unfold accept_block in Hrun. apply bind_Done in Hrun as (u & _ & Hrun).
    rewrite contains_block_spec in Hrun by (done || apply Href). cbn [mbind outcome_bind] in Hrun. rewrite Hk in Hrun.
    apply bind_Done in Hrun as (au & _ & Hrun). apply bind_Done in Hrun as (u' & _ & Hrun).
    apply bind_Done in Hrun as (dsm & Hmeta & Hrun). invert_done.
    apply update_block_metadata_eqv in Hmeta as (refs & _ & Heqv%de_highest). cbn in *. rewrite Heqv. lia.
Qed.

Lemma flush_view c ds : dag_view c ds → ∃ ds', flush ds = Done ds' ∧ flushed ds ds' ∧ dag_view c ds'.
Proof.
  intros [Hok Hc Hvalid Hcausal Hh]. destruct (flush_ok ds Hok) as (ds' & Hrun & Hf). exists ds'. split_and!; [done|done|].
  pose proof (gc_round_same ds ds' (fl_context _ _ Hf) (fl_last_commit _ _ Hf)) as Hgc.
  assert (∀ r b, cached ds' !! r = Some b → cached ds !! r = Some b) as Hsub.
  { intros r b Hb. eapply lookup_weaken; [done|apply Hf]. }
  split; [apply Hf|unfold ds_committee in *; by rewrite (fl_context _ _ Hf)| | |by rewrite (fl_highest _ _ Hf)].
  - intros r b Hb%Hsub. by eapply Hvalid.
  - rewrite Hgc. intros r b a Hb%Hsub Ha Hga. apply (fl_cached _ _ Hf); [by eapply Hcausal|done].
Qed.

(** ** The invariant of the proposer *)

(** [h] is the history of the vote tracker: its gc round and the blocks it took. *)
Record proposer_ok (ctx : Context) (f : N) (h : N * taken_blocks) p : Prop := {
  po_selector : selector_ok ctx f p;
  po_view : dag_view (committee ctx) (vp_dag_state p);
  po_v2 : enable_v3 (protocol_config ctx) = false;
  po_waiter : ∃ ls leader, vp_leader_waiter p = WaiterV2 (pipeline ctx ls) ∧
    ∀ k, elect_leader ls k 0 = Done (leader k) ∧ (leader k < Committee_size (committee ctx))%N;
  po_consumer : consumer_ok ctx (vp_transaction_consumer p);
  po_signer : signer_ok ctx (vp_block_signer p);
  (** every block in memory went through the vote tracker *)
  po_votes : transaction_voting_enabled (protocol_config ctx) = true →
    vote_tracker_ok ctx h (vp_transaction_vote_tracker p) ∧
    ∀ r, r ∈ dom (cached (vp_dag_state p)) → (h.1 < ref_round r)%N → r ∈ dom h.2;
}.

(** What is true of a proposal [eb] for round [clock] and of the proposer after it. *)
Record proposed (ctx : Context) p (clock now : N) (eb : ExtendedBlock) (p' : ValidatorProposer S) (b := eb_block eb) : Prop := {
  pr_author : author b = own_index ctx;
  pr_round : round b = clock;
  pr_timestamp : timestamp_ms b = now;
  (** every verifier of the network accepts it *)
  pr_accepted v : same_network ctx (vp_dag_state p) v → block_accepted v (signed_block b);
  (** it is above every block of this authority, in memory or stored *)
  pr_new r : r ∈ dom (accepted (vp_dag_state p)) → ref_author r = own_index ctx → (ref_round r < clock)%N;
  pr_dag : accepted (vp_dag_state p') = <[reference b := b]> (accepted (vp_dag_state p));
  pr_durable : accepted (vp_dag_state p') ⊆ stored (ds_store (vp_dag_state p'));
  pr_last : last_proposed_block p' = Done b;
  pr_transactions : ∃ gs, waiting (vp_transaction_consumer p) = gs ++ waiting (vp_transaction_consumer p') ∧
    Block_transactions (inner (signed_block b)) = payload gs;
}.

(** Recording the ancestors as included. *)
Lemma record_included n clock li anc :
  lengthN li = n → (∀ b, b ∈ anc → (author b < n)%N ∧ (round b < clock)%N) →
  (∀ i r, li !! i = Some (Some r) → (ref_round r < clock)%N) →
  ∃ li', for_each (λ l b, vec_set l (author b) (Some (reference b))) li anc = Done li' ∧ lengthN li' = n ∧
    ∀ i r, li' !! i = Some (Some r) → (ref_round r < clock)%N.
Proof.
  intros Hli Hanc Hr. apply (for_each_total (λ l : list (option BlockRef), lengthN l = n ∧
    ∀ i r, l !! i = Some (Some r) → (ref_round r < clock)%N)); [done|].
  intros l b Hb [Hlen Hl]. destruct (Hanc b Hb) as [Ha Hrb]. rewrite vec_set_lt by (unfold lengthN in Hlen; lia).
  eexists. split; [done|]. split; [unfold lengthN; by rewrite length_insert|].
  intros i r Hi. apply list_lookup_insert_Some in Hi as [(_ & Heq & _)|[_ ?]]; [|by eapply Hl]. injection Heq as <-. done.
Qed.

(** Ancestors of a proposal are in memory when they are above the gc round. *)
Lemma proposal_cached c ds own clock anc b :
  proposal_ok c ds own clock anc → b ∈ anc → (gc_round ds < round b)%N → reference b ∈ dom (cached ds).
Proof.
  intros Hanc Hb Hgc. destruct (pa_dag _ _ _ _ _ Hanc b Hb) as [[[_ Hg]|Hcd] _]; [unfold GENESIS_ROUND in Hg; lia|].
  by eapply elem_of_dom_2.
Qed.

(** The votes on the transactions of the newly linked blocks. *)
Lemma own_votes_total ctx f h p ds anc (voting := transaction_voting_enabled (protocol_config ctx)) clock own :
  proposer_ok ctx f h p → dag_eqv ds (vp_dag_state p) → proposal_ok (committee ctx) (vp_dag_state p) own clock anc →
  ∃ ds' votes, (if voting : bool then
      '(ds, new_causal_history) ← link_ancestors ds anc;
      votes ← get_own_votes (vp_transaction_vote_tracker p) new_causal_history;
      Done (ds, votes)
    else Done (ds, [])) = Done (ds', votes) ∧ dag_eqv ds' (vp_dag_state p).
Proof.
  intros Hp Heqv Hanc. unfold voting. destruct (transaction_voting_enabled _) eqn:Hvoting; [|by exists ds, []].
  destruct (po_votes _ _ _ _ Hp Hvoting) as [Htr Htaken]. pose proof (de_cached _ _ Heqv) as Hcd.
  pose proof (gc_round_same _ _ (de_context _ _ Heqv) (de_last_commit _ _ Heqv)) as Hgc.
  destruct (link_ancestors_total (committee ctx) ds anc) as (ds' & linked & -> & Heqv' & Hl).
  { eapply dag_view_eqv; [exact Heqv|apply Hp]. }
  { intros b Hb Hgb. rewrite Hcd. eapply proposal_cached; [done|done|by rewrite <- Hgc]. }
  run_bind. rewrite (get_own_votes_spec ctx h) by (try done; intros r Hr; apply Htaken; rewrite <- Hcd; by apply Hl).
  run_bind. eexists _, _. split; [done|by etrans].
Qed.

(** The own block in the vote tracker, and its causal history linked. *)
Lemma track_own_block ctx f h p ds b (voting := transaction_voting_enabled (protocol_config ctx)) :
  proposer_ok ctx f h p → dag_view (committee ctx) ds → (author b < Committee_size (committee ctx))%N →
  reference b ∈ dom (cached ds) →
  ∃ ds' tracker h', (if voting : bool then
      tracker ← add_voted_blocks (vp_transaction_vote_tracker p) [(b, [])];
      '(ds, _) ← link_causal_history ds (reference b);
      Done (ds, tracker)
    else Done (ds, vp_transaction_vote_tracker p)) = Done (ds', tracker) ∧ dag_eqv ds' ds ∧
    (voting = true → vote_tracker_ok ctx h' tracker ∧ h'.1 = h.1 ∧
      ∀ r, r = reference b ∨ r ∈ dom h.2 → (h.1 < ref_round r)%N → r ∈ dom h'.2).
Proof.
  intros Hp Hv Ha Hb. unfold voting. destruct (transaction_voting_enabled _) eqn:Hvoting.
  2:{ by exists ds, (vp_transaction_vote_tracker p), h. }
  destruct (po_votes _ _ _ _ Hp Hvoting) as [Htr _].
  assert (committee_ok (committee ctx)) as Hc.
  { pose proof (dk_committee _ (dv_ok _ _ Hv)) as Hc. by rewrite (dv_committee _ _ Hv) in Hc. }
  destruct (tracker_step_ok ctx h (vp_transaction_vote_tracker p) (AddBlock b []) Hc Ha) as (tr & Hrun & Htr'); [done|done|].
  cbn [tracker_step] in Hrun. unfold add_voted_blocks. cbn [for_each]. rewrite Hrun. run_bind.
  destruct (link_causal_history_total (committee ctx) ds (reference b) Hv) as (ds' & linked & -> & Heqv & _); [done|].
  run_bind. eexists _, _, _. split_and!; [done|done|]. intros _. split_and!; [exact Htr'|done|].
  cbn [taken_step fst snd]. intros r Hr Hgt. case_decide as Hd.
  - destruct Hr as [->|?]; [|done]. destruct Hd as [Hle|?]; [cbn in Hgt; lia|done].
  - rewrite dom_insert_L. set_solver.
Qed.

Lemma last_after_proposal ctx ds ds' b :
  dag_ok ds' → ds_context ds' = ctx → is_validator ctx = true → (own_index ctx < Committee_size (committee ctx))%N →
  accepted ds' = <[reference b := b]> (accepted ds) →
  (∀ r, r ∈ dom (accepted ds) → ref_author r = own_index ctx → (ref_round r < round b)%N) →
  reference b ∈ dom (cached ds') → author b = own_index ctx → (0 < round b)%N →
  get_last_proposed_block ds' = Done (Some b).
Proof.
  intros Hok Hctx Hval Hown Hacc Hnew Hb Ha Hz. unfold get_last_proposed_block. rewrite Hctx, Hval.
  destruct (get_last_block_spec ds' (own_index ctx) Hok) as (b' & -> & Ha' & Hdag & Htop).
  { unfold ds_committee. by rewrite Hctx. }
  cbn. f_equal. f_equal. specialize (Htop _ Hb Ha). cbn in Htop.
  destruct Hdag as [[_ Hg]|Hcd]; [unfold GENESIS_ROUND in Hg; lia|].
  assert (accepted ds' !! reference b' = Some b') as Hin by (by rewrite accepted_lookup, Hcd).
  rewrite Hacc in Hin. apply lookup_insert_Some in Hin as [[_ ?]|[_ Hin%elem_of_dom_2]]; [done|].
  specialize (Hnew _ Hin Ha'). cbn in Hnew. lia.
Qed.

Lemma genesis_listed_same ds ds' :
  ds_context ds' = ds_context ds → ds_genesis ds' = ds_genesis ds → genesis_listed ds → genesis_listed ds'.
Proof. unfold genesis_listed, ds_committee. by intros -> ->. Qed.

(** Storing the own block: it becomes the last proposed block, and the view stays
    complete. *)
Lemma store_own_block ctx f h p ds b (voting := transaction_voting_enabled (protocol_config ctx)) :
  proposer_ok ctx f h p → dag_eqv ds (vp_dag_state p) → ref_ok (committee ctx) (reference b) → valid_block (committee ctx) b →
  author b = own_index ctx → (gc_round (vp_dag_state p) < round b)%N → (round b + 8 < u32_MAX)%N →
  (∀ r, r ∈ ancestors b → (gc_round (vp_dag_state p) < ref_round r)%N → r ∈ dom (cached (vp_dag_state p))) →
  (∀ r, r ∈ dom (cached (vp_dag_state p)) → ref_author r = own_index ctx → (ref_round r < round b)%N) →
  ∃ ds1 ds2 tracker ds3 h', accept_block ds b = Done ds1 ∧
    (if voting : bool then
      tracker ← add_voted_blocks (vp_transaction_vote_tracker p) [(b, [])];
      '(ds, _) ← link_causal_history ds1 (reference b);
      Done (ds, tracker)
    else Done (ds1, vp_transaction_vote_tracker p)) = Done (ds2, tracker) ∧
    flush ds2 = Done ds3 ∧ dag_view (committee ctx) ds3 ∧ ds_context ds3 = ctx ∧ genesis_listed ds3 ∧
    accepted ds3 = <[reference b := b]> (accepted (vp_dag_state p)) ∧
    accepted ds3 ⊆ stored (ds_store ds3) ∧ get_last_proposed_block ds3 = Done (Some b) ∧
    (voting = true → vote_tracker_ok ctx h' tracker ∧ ∀ r, r ∈ dom (cached ds3) → (h'.1 < ref_round r)%N → r ∈ dom h'.2).
Proof.
  intros Hp Heqv Href Hvalid Ha Hgc Hmax Hanc Hnew. pose proof (po_selector _ _ _ _ Hp) as Hsel.
  pose proof (gc_round_same _ _ (de_context _ _ Heqv) (de_last_commit _ _ Heqv)) as Hgce. pose proof (de_cached _ _ Heqv) as Hcde.
  destruct (accept_new_block (committee ctx) ds b) as (ds1 & Hrun1 & Hv1 & Hctx1 & Hgen1 & Hlc1 & Hcd1 & Hacc1); try done.
  { eapply dag_view_eqv; [exact Heqv|apply Hp]. }
  { rewrite (de_context _ _ Heqv), (so_dag_context _ _ _ Hsel). apply Hp. }
  { rewrite Hgce, Hcde. done. } { rewrite Hcde, Ha. done. }
  destruct (track_own_block ctx f h p ds1 b Hp Hv1) as (ds2 & tr & h' & Hrun2 & Heqv2 & Htr);
    [apply Href|rewrite Hcd1, dom_insert_L; set_solver|].
  destruct (flush_view (committee ctx) ds2) as (ds3 & Hrun3 & Hfl & Hv3); [by eapply dag_view_eqv|].
  assert (accepted ds3 = <[reference b := b]> (accepted (vp_dag_state p))) as Hacc3.
  { rewrite (fl_accepted _ _ Hfl), Heqv2, Hacc1. f_equal. by rewrite Heqv. }
  assert (ds_context ds3 = ctx) as Hctx3.
  { rewrite (fl_context _ _ Hfl), (de_context _ _ Heqv2), Hctx1, (de_context _ _ Heqv). apply Hsel. }
  pose proof (gc_round_same _ _ Hctx1 Hlc1) as Hgc1. pose proof (gc_round_same _ _ (de_context _ _ Heqv2) (de_last_commit _ _ Heqv2)) as Hgc2.
  destruct (new_block_unknown (vp_dag_state p) b) as [Hall _]; [apply Hsel|apply Href|by rewrite Ha|].
  exists ds1, ds2, tr, ds3, h'. split_and!; try done.
  - eapply (genesis_listed_same (vp_dag_state p)); [by rewrite Hctx3, (so_dag_context _ _ _ Hsel)| |apply Hsel].
    by rewrite (fl_genesis _ _ Hfl), (de_genesis _ _ Heqv2), Hgen1, (de_genesis _ _ Heqv).
  - rewrite (fl_accepted _ _ Hfl). apply Hfl.
  - eapply (last_after_proposal ctx (vp_dag_state p)); [apply Hv3|done|apply Hsel|apply Hsel|done|by rewrite <- Ha| |done|lia].
    apply (fl_cached _ _ Hfl); [rewrite (de_cached _ _ Heqv2), Hcd1, dom_insert_L; set_solver|cbn; lia].
  - intros Hvoting. destruct (Htr Hvoting) as (Htr' & Hh & Hin). split; [done|]. rewrite Hh. intros r Hr Hgt. apply Hin; [|done].
    assert (r ∈ dom (cached ds2)) as Hr2 by (eapply subseteq_dom; [apply Hfl|done]).
    rewrite (de_cached _ _ Heqv2), Hcd1, dom_insert_L, Hcde in Hr2. apply elem_of_union in Hr2 as [?%elem_of_singleton|Hr2]; [by left|].
    right. by apply (po_votes _ _ _ _ Hp Hvoting).
Qed.

(** ** Creating a block *)

Lemma take_commit_votes_eqv ds limit ds' votes : take_commit_votes ds limit = (ds', votes) → dag_eqv ds' ds.
Proof. unfold take_commit_votes. destruct (take_votes _ _ _). intros [= <- <-]. by split. Qed.

Lemma last_proposed_eqv ctx f p q ds :
  selector_ok ctx f p → dag_eqv ds (vp_dag_state p) → ∃ b, last_proposed_block (set_dag_state ds q) = Done b.
Proof.
  intros Hp Heqv. unfold last_proposed_block, get_last_proposed_block. cbn [vp_dag_state set_dag_state].
  rewrite (de_context _ _ Heqv), (so_dag_context _ _ _ Hp), (so_validator _ _ _ Hp).
  destruct (get_last_block_spec ds (own_index ctx)) as (b & -> & _); [rewrite Heqv; apply Hp| |by exists b].
  unfold ds_committee. rewrite (de_context _ _ Heqv), (so_dag_context _ _ _ Hp). apply Hp.
Qed.

(** The block is well formed: it has a valid reference, every verifier accepts it,
    and its ancestors above the gc round are in memory. *)
Lemma signed_proposal ctx f h p clock now anc gs tvotes cvotes
    (block := make_block ctx clock now anc (payload gs) tvotes cvotes) :
  proposer_ok ctx f h p → proposal_ok (committee ctx) (vp_dag_state p) (own_index ctx) clock anc → (0 < clock)%N →
  transactions_ok (protocol_config ctx) (map data (payload gs)) →
  ∃ sb bytes (b := new_verified sb bytes), SignedBlock_new block (vp_block_signer p) = Ok sb ∧ bcs_signed_block sb = Some bytes ∧
    inner sb = block ∧ author b = own_index ctx ∧ round b = clock ∧ timestamp_ms b = now ∧ ancestors b = reference <$> anc ∧
    (∀ v, same_network ctx (vp_dag_state p) v → block_accepted v sb) ∧
    ref_ok (committee ctx) (reference b) ∧ valid_block (committee ctx) b.
Proof.
  intros Hp Hanc Hpos Htxs. pose proof (po_selector _ _ _ _ Hp) as Hsel. pose proof (po_signer _ _ _ _ Hp) as Hsign.
  destruct (SignedBlock_new_spec ctx (vp_block_signer p) block Hsign) as (sb & Hsb & Hinner & Hsig).
  destruct (sg_signed _ _ Hsign sb) as [bytes Hbytes].
  destruct (make_block_fields ctx clock now anc (payload gs) tvotes cvotes) as (_ & E2 & E3 & E4 & _ & E6). fold block in E2, E3, E4, E6.
  assert (∀ v, same_network ctx (vp_dag_state p) v → block_accepted v sb) as Hacc.
  { intros v Hv. eapply proposal_accepted; [apply Hsel|exact Hanc|done|apply Hsel|exact Htxs|exact Hinner|exact Hsig|exact Hv]. }
  exists sb, bytes. unfold author, round, timestamp_ms, ancestors. cbn [signed_block new_verified]. rewrite Hinner.
  split_and!; try done.
  - split; cbn; unfold author, round; cbn [signed_block new_verified]; rewrite ?Hinner, ?E2, ?E3; [apply Hsel|lia|apply Hsign].
  - apply (block_accepted_valid (mkSignedBlockVerifier ctx (dom (ds_genesis (vp_dag_state p))))). by apply Hacc.
Qed.

Lemma create_block_spec ctx f h p m' li' clock now anc exc (ds := vp_dag_state p) :
  proposer_ok ctx f h p → clock_ok (committee ctx) ds clock →
  (∀ b, last_proposed_block p = Done b → (round b < clock)%N) →
  proposal_ok (committee ctx) ds (own_index ctx) clock anc → manager_ok ctx m' →
  am_propagation_scores m' = am_propagation_scores (vp_ancestor_state_manager p) →
  lengthN li' = Committee_size (committee ctx) → (∀ i r, li' !! i = Some (Some r) → (ref_round r < clock)%N) →
  (∀ r, r ∈ exc → (ref_author r < Committee_size (committee ctx))%N) →
  ∃ p' eb h', create_block (set_selection m' li' p) clock now anc exc = Done (p', eb) ∧
    proposed ctx p clock now eb p' ∧ proposer_ok ctx f h' p'.
Proof.
  intros Hp [Hpos Hmax Hgc _] Hlast Hanc Hm Hsc Hli Hlr Hexc. pose proof (po_selector _ _ _ _ Hp) as Hsel.
  destruct (last_proposed_spec ctx f p Hsel) as (last & Hl & _ & _ & Htop). specialize (Hlast _ Hl).
  assert (∀ r, r ∈ dom (cached ds) → ref_author r = own_index ctx → (ref_round r < clock)%N) as Hnew.
  { intros r Hr Ha. specialize (Htop r Hr Ha). lia. }
  destruct (record_included (Committee_size (committee ctx)) clock li' anc Hli) as (li & Hrun1 & Hlen & Hlr'); [|done|].
  { intros b Hb. split; [by apply (pa_authors _ _ _ _ _ Hanc)|by apply (pa_dag _ _ _ _ _ Hanc)]. }
  destruct (mapM_total (λ b, authority (committee ctx) (author b)) (λ _ _, True) anc) as (auths & Hrun2 & _).
  { intros b Hb. destruct (authority_valid (committee ctx) (author b)) as [x Hx]; [by apply (pa_authors _ _ _ _ _ Hanc)|by exists x]. }
  destruct (next_transactions ctx _ (po_consumer _ _ _ _ Hp)) as (gs & tc & limit & Hrun3 & Htc & Hwait & Htxs).
  destruct (take_commit_votes ds MAX_COMMIT_VOTES_PER_BLOCK) as [ds0 cvotes] eqn:Hrun4. pose proof (take_commit_votes_eqv _ _ _ _ Hrun4) as Heqv0.
  destruct (own_votes_total ctx f h p ds0 anc clock (own_index ctx) Hp Heqv0 Hanc) as (ds1 & tvotes & Hrun5 & Heqv1).
  destruct (signed_proposal ctx f h p clock now anc gs tvotes cvotes Hp Hanc Hpos Htxs)
    as (sb & bytes & Hrun6 & Hrun7 & Hinner & Hba & Hbr & Hbt & Hbanc & Hacc & Href & Hvalid).
  set (b := new_verified sb bytes) in *.
  destruct (last_proposed_eqv ctx f p (set_selection m' li' p) ds1 Hsel Heqv1) as [lb Hrun8].
  destruct (store_own_block ctx f h p ds1 b) as (ds2 & ds3 & tr & ds4 & h' & Hrun9 & Hrun10 & Hrun11 & Hv4 & Hctx4 & Hgen4 & Hacc4 & Hst4 & Hlast4 & Htr);
    try done.
  { fold ds. lia. } { by rewrite Hbr. }
  { rewrite Hbanc. intros r (x & -> & Hx)%list_elem_of_fmap. by eapply proposal_cached. } { by rewrite Hbr. }
  destruct (update_from_verified_block_spec ctx (vp_round_tracker p) (mkExtendedBlock b exc)) as (rt & Hrun12 & Hrt & _); [apply Hsel| |].
  { split; [apply Href|]. cbn [eb_block eb_excluded_ancestors]. rewrite Hbanc. intros r [(x & -> & Hx)%list_elem_of_fmap|Hr]; [|by apply Hexc].
    by apply (pa_authors _ _ _ _ _ Hanc). }
  destruct (new_block_unknown ds b) as [Hall _]; [apply Hsel|apply Href|by rewrite Hba, Hbr|]. rewrite Hba, Hbr in Hall.
  eexists _, (mkExtendedBlock b exc), h'. split.
  { unfold create_block. cbn [vp_context set_selection vp_last_included_ancestors vp_transaction_consumer vp_dag_state
      vp_transaction_vote_tracker vp_block_signer vp_round_tracker vp_propagation_delay vp_last_known_proposed_round
      vp_ancestor_state_manager vp_leader_waiter]. rewrite (so_context _ _ _ Hsel). rewrite Hrun1. run_bind. rewrite Hrun2. run_bind.
    rewrite Hrun3. fold ds. rewrite Hrun4. rewrite Hrun5. run_bind. rewrite Hrun6. cbn [unwrap_ok]. run_bind. rewrite Hrun7.
    cbn [unwrap]. run_bind. fold b. rewrite Hrun8. run_bind. rewrite Hrun9. run_bind. rewrite Hrun10. run_bind.
    rewrite Hrun11. run_bind. rewrite Hrun12. run_bind. reflexivity. }
  destruct (make_block_fields ctx clock now anc (payload gs) tvotes cvotes) as (_ & _ & _ & _ & E5 & _).
  split; [split; cbn [eb_block vp_dag_state vp_transaction_consumer]; try done|split; cbn [vp_dag_state vp_leader_waiter vp_transaction_consumer
    vp_block_signer vp_transaction_vote_tracker]; try done; try apply Hp].
  - unfold last_proposed_block. cbn [vp_dag_state]. by rewrite Hlast4.
  - exists gs. split; [done|]. unfold b. cbn [signed_block new_verified]. by rewrite Hinner.
  - split; cbn [vp_context vp_dag_state vp_round_tracker vp_ancestor_state_manager vp_last_included_ancestors]; try done; try apply Hsel.
    + apply Hv4.
    + rewrite Hsc. apply Hsel.
    + intros i r b' Hir Hb'. unfold last_proposed_block in Hb'. cbn [vp_dag_state] in Hb'. rewrite Hlast4 in Hb'.
      injection Hb' as <-. rewrite Hbr. by eapply Hlr'.
  - exact (acknowledge_ok ctx tc (indices_from 0 gs) (reference b) Htc).
Qed.

(** ** The leaders to wait for *)

Lemma leader_slot ctx ls leader k :
  (∀ k, elect_leader ls k 0 = Done (leader k)) → (k + 3 < u32_modulus)%N →
  leader_slots_to_wait_for (WaiterV2 (pipeline ctx ls)) k = Done [mkSlot k (leader k)].
Proof.
  intros Helect Hk. cbn [leader_slots_to_wait_for]. unfold get_leaders.
  change (committers (pipeline ctx ls)) with (pipeline_committer ctx ls <$> [0; 1; 2]%N). cbn [fmap list_fmap mapM].
  rewrite !(elect_pipeline leader ctx ls Helect) by (done || lia). run_bind.
  pose proof (N.mod_lt k 3 ltac:(done)) as Hlt. destruct (k mod 3)%N as [|[[]|[]|]] eqn:Hm; try lia; reflexivity.
Qed.

Lemma all_cached_total c ds clock leader :
  dag_ok ds → ds_committee ds = c → clock_ok c ds clock → (leader < Committee_size c)%N →
  ∃ b, all_cached ds [mkSlot (clock - 1) leader] = Done b.
Proof.
  intros Hok Hc Hck Hl. cbn [all_cached]. unfold contains_cached_block_at_slot. cbn [slot_round slot_authority].
  pose proof (clock_evicted c ds clock Hok Hck) as Hev. pose proof (ck_positive _ _ _ Hck) as Hpos.
  case_decide as Hz; [run_bind; by eexists|]. unfold GENESIS_ROUND in Hz. rewrite <- Hc in Hl.
  pose proof (dk_evicted_len _ Hok) as He. pose proof (dk_refs_len _ Hok) as Hr. unfold lengthN in He, Hr.
  destruct (lookup_lt_is_Some_2 (ds_evicted_rounds ds) (N.to_nat leader)) as [e Hle]; [lia|].
  destruct (lookup_lt_is_Some_2 (ds_recent_refs_by_authority ds) (N.to_nat leader)) as [refs Hlr]; [lia|].
  destruct (Hev ltac:(lia) leader e Hle) as [Hlt _].
  rewrite (vec_index_some _ _ _ Hle). run_bind. rewrite rassert_true by lia. run_bind. rewrite (vec_index_some _ _ _ Hlr). run_bind.
  unfold btree_range. rewrite rassert_true by (unfold BlockRef_le; cbn; right; split; [done|right; split; [done|vm_compute; done]]).
  run_bind. destruct (filter _ _); run_bind; by eexists.
Qed.

(** Selecting other states and included ancestors keeps the invariant. *)
Lemma set_selection_ok ctx f h p m' li' :
  proposer_ok ctx f h p → manager_ok ctx m' → am_propagation_scores m' = am_propagation_scores (vp_ancestor_state_manager p) →
  li' = vp_last_included_ancestors p → proposer_ok ctx f h (set_selection m' li' p).
Proof.
  intros [Hsel Hv Hv2 Hw Hc Hs Hvt] Hm Hsc ->. split; try done. destruct Hsel. split; cbn; try done. by rewrite Hsc.
Qed.

Lemma elem_of_takeN {A} n (l : list A) x : x ∈ takeN n l → x ∈ l.
Proof.
  rewrite takeN_take. intros Hx. by apply elem_of_take in Hx as (i & Hi%list_elem_of_lookup_2 & _).
Qed.

(** The outcome of an attempt to propose. *)
Lemma try_new_block_spec ctx f h p force delay_now now (ds := vp_dag_state p) (clock := threshold_clock_round ds) :
  proposer_ok ctx f h p → clock_ok (committee ctx) ds clock →
  ∃ p' o h', try_new_block p force delay_now now = Done (p', o) ∧ proposer_ok ctx f h' p' ∧
    match o with
    | Some eb => proposed ctx p clock now eb p' ∧ should_propose p = true
    | None => vp_dag_state p' = ds ∧ vp_transaction_consumer p' = vp_transaction_consumer p
    end ∧
    (force = true → should_propose p = true → (∀ b, last_proposed_block p = Done b → (round b < clock)%N) → o ≠ None).
Proof.
  intros Hp Hck. pose proof (po_selector _ _ _ _ Hp) as Hsel. pose proof (so_context _ _ _ Hsel) as Hctx.
  unfold try_new_block. destruct (should_propose p) eqn:Hshould; cbn [negb].
  2:{ by exists p, None, h. }
  destruct (last_proposed_spec ctx f p Hsel) as (last & Hl & _). rewrite Hl. run_bind. fold ds clock. case_decide as Hle.
  { exists p, None, h. split_and!; [done|done|done|done|]. intros _ _ Hlt. specialize (Hlt _ eq_refl). lia. }
  assert (∀ b, last_proposed_block p = Done b → (round b < clock)%N) as Hnew.
  { intros b Hb. rewrite Hl in Hb. injection Hb as <-. lia. }
  pose proof (ck_bound _ _ _ Hck) as Hmax. unfold u32_MAX in Hmax.
  destruct (po_waiter _ _ _ _ Hp) as (ls & leader & -> & Helect).
  rewrite (leader_slot ctx ls leader) by (try lia; intros k; apply Helect). run_bind.
  assert (ds_committee ds = committee ctx) as Hcom by (unfold ds_committee, ds; by rewrite (so_dag_context _ _ _ Hsel)).
  assert (∃ ready, (if force then Done true else
      cached ← all_cached ds [mkSlot (clock - 1) (leader (clock - 1)%N)];
      if cached : bool then
        last_timestamp ← last_proposed_timestamp_ms p;
        Done (negb (bool_decide (delay_now - last_timestamp < min_round_delay (parameters (vp_context p)))%N))
      else Done false) = Done ready ∧ (force = true → ready = true)) as (ready & -> & Hready).
  { destruct force; [by exists true|]. destruct (all_cached_total (committee ctx) ds clock (leader (clock - 1)%N)) as [cb ->];
      [apply Hsel|done|done|apply Helect|]. run_bind. destruct cb; [|by exists false].
    unfold last_proposed_timestamp_ms. rewrite Hl. run_bind. by eexists. }
  run_bind. destruct ready; cbn [negb].
  2:{ exists p, None, h. split_and!; [done|done|done|done|]. intros Hf. by specialize (Hready Hf). }
  destruct (smart_ancestors_spec ctx f p clock (negb force) Hsel Hck Hnew)
    as (m' & li' & anc & exc & -> & Hm & Hsc & Hexc & Hcase). run_bind.
  destruct Hcase as [(-> & Hsmart & Hli)|(Hanc & Hli & Hlr)].
  { destruct force; [done|]. rewrite rassert_true by done. run_bind.
    exists (set_selection m' li' p), None, h. split_and!; [done|by apply set_selection_ok|done|done|done]. }
  destruct (pa_own _ _ _ _ _ Hanc) as (b0 & rest & Heq & _). destruct anc as [|b1 anc]; [done|].
  cbn [vp_context set_selection]. rewrite Hctx, (po_v2 _ _ _ _ Hp). cbn [head unwrap]. run_bind. cbn [slot_authority].
  destruct (authority_valid (committee ctx) (leader (clock - 1)%N)) as [a ->]; [apply Helect|]. run_bind.
  destruct (create_block_spec ctx f h p m' li' clock now (b1 :: anc)
    (takeN (Committee_size (committee ctx) *₆₄ 2) (refs_in_order exc))) as (p' & eb & h' & -> & Hprop & Hp'); try done.
  { intros r Hr%elem_of_takeN. apply Hexc. by apply elem_of_set_in_order in Hr. }
  run_bind. exists p', (Some eb), h'. split_and!; done.
Qed.

(** ** Runs of a validator *)

(** The proposals of a validator over time: attempts to propose, and any other
    change of its state that keeps the invariant and what is stored, such as
    accepting blocks, committing, or restarting from the store. *)
Inductive proposer_run (ctx : Context) (f : N) : list VerifiedBlock → ValidatorProposer S → Prop :=
  | run_start h p : proposer_ok ctx f h p → proposer_run ctx f [] p
  | run_propose bs p force delay_now now p' o :
      proposer_run ctx f bs p →
      clock_ok (committee ctx) (vp_dag_state p) (threshold_clock_round (vp_dag_state p)) →
      try_new_block p force delay_now now = Done (p', o) →
      proposer_run ctx f (bs ++ option_list (eb_block <$> o)) p'
  | run_other bs h p p' :
      proposer_run ctx f bs p → proposer_ok ctx f h p' →
      dom (stored (ds_store (vp_dag_state p))) ⊆ dom (stored (ds_store (vp_dag_state p'))) →
      proposer_run ctx f bs p'.

(** The other components give the proposer a new dag and a new vote tracker. *)
Definition with_dag p ds (tracker : VoteTrackerState) : ValidatorProposer S :=
  mkValidatorProposer (vp_context p) (vp_transaction_consumer p) tracker (vp_propagation_delay p)
    (vp_last_included_ancestors p) (vp_block_signer p) (vp_last_known_proposed_round p) (vp_ancestor_state_manager p)
    (vp_round_tracker p) ds (vp_leader_waiter p).

Lemma with_dag_ok ctx f h h' p ds tracker :
  proposer_ok ctx f h p → dag_view (committee ctx) ds → ds_context ds = ctx → genesis_listed ds →
  (∀ b b', last_proposed_block p = Done b → last_proposed_block (with_dag p ds tracker) = Done b' → (round b ≤ round b')%N) →
  (transaction_voting_enabled (protocol_config ctx) = true → vote_tracker_ok ctx h' tracker ∧
    ∀ r, r ∈ dom (cached ds) → (h'.1 < ref_round r)%N → r ∈ dom h'.2) →
  proposer_ok ctx f h' (with_dag p ds tracker).
Proof.
  intros [Hsel Hv Hv2 Hw Hc Hs Hvt] Hv' Hctx Hgen Hlast Hvotes. destruct (last_proposed_spec ctx f p Hsel) as (b & Hb & _).
  split; try done. destruct Hsel as [? ? ? ? ? ? ? ? ? ? ? Hbelow]. split; try done; [apply Hv'|].
  intros i r b' Hi Hb'. specialize (Hbelow i r b Hi Hb). specialize (Hlast b b' Hb Hb'). lia.
Qed.

Lemma proposed_stored ctx p clock now eb p' r :
  proposed ctx p clock now eb p' → r ∈ dom (stored (ds_store (vp_dag_state p))) ∨ r = reference (eb_block eb) →
  r ∈ dom (stored (ds_store (vp_dag_state p'))).
Proof.
  intros Hp Hr. eapply subseteq_dom; [apply (pr_durable _ _ _ _ _ _ Hp)|]. rewrite (pr_dag _ _ _ _ _ _ Hp), dom_insert_L, elem_of_union, elem_of_singleton.
  destruct Hr as [Hr| ->]; [right; apply elem_of_accepted; by right|by left].
Qed.

End safety.

(** ** Properties *)

Section properties.
Context {S : Type} `{StoreLaws S} `{LeaderRng} `{BlockCodec} `{BlockCrypto} `{BlockSigner}.
Implicit Types p : ValidatorProposer S.

(** C7: an attempt to propose a block, when the threshold clock advanced with a
    quorum, never panics, and it keeps the invariant of the proposer. If it
    returns a block, the block is of the clock round and by this authority, every
    verifier of the network accepts it, no block of the authority in memory or in
    the store is of its round or a later one, everything accepted is in the store,
    and its transactions are the oldest waiting bundles, which stop waiting. If it
    returns none, the dag and the waiting transactions are as before. *)
Theorem proposals_correct ctx f h p force delay_now now (clock := threshold_clock_round (vp_dag_state p)) :
  proposer_ok ctx f h p → clock_ok (committee ctx) (vp_dag_state p) clock →
  ∃ p' o h', try_new_block p force delay_now now = Done (p', o) ∧ proposer_ok ctx f h' p' ∧
    match o with
    | Some eb => proposed ctx p clock now eb p' ∧ should_propose p = true
    | None => vp_dag_state p' = vp_dag_state p ∧ vp_transaction_consumer p' = vp_transaction_consumer p
    end.
Proof.
  intros Hp Hck. destruct (try_new_block_spec ctx f h p force delay_now now Hp Hck) as (p' & o & h' & Hrun & Hok & Ho & _).
  by exists p', o, h'.
Qed.



End properties.

(** ** A concrete validator: authority 0 of four, at the start of the epoch, with one
    transaction waiting *)

#[export] Instance sample_signer : BlockSigner := {| protocol_key_sign := λ key _, key |}.

Definition proposer_consumer : TransactionConsumer :=
  from_done (mkTransactionConsumer [] 0 0 None ∅)
    (TransactionConsumer_new [mkTransactionsGuard [mkTransaction [1; 2; 3]%N] 5] sample_context).

Definition proposer_start : ValidatorProposer MemStore.Inner :=
  ValidatorProposer_new sample_start sample_context proposer_consumer (VoteTrackerState_new sample_context) []
    (Some 0%N) (AncestorStateManager_new sample_context)
    (from_done (mkRoundTracker sample_context [] [] [] []) (RoundTracker_new sample_context []))
    (WaiterV2 (pipeline sample_context sample_schedule)).

Lemma sample_signer_ok : signer_ok sample_context [].
Proof.
  split; [by eexists..|by intros; vm_compute|]. intros a msg Ha. exists []. split; [done|].
  assert (a = mkAuthority 1 "host" []) as -> by (vm_compute in Ha; by simplify_eq). done.
Qed.

Lemma proposer_start_selector : selector_ok sample_context 1 proposer_start.
Proof.
  split; [done|by vm_compute|done|done|exact sample_start_ok|done|by vm_compute| | |by vm_compute|done|].
  - destruct (RoundTracker_new_ok sample_context []) as (rt & Hrun & Hrt); [by left|].
    cbn [vp_round_tracker proposer_start ValidatorProposer_new]. by rewrite Hrun.
  - apply AncestorStateManager_new_ok.
  - intros i r b Hi. apply lookup_replicate in Hi as [Hi _]. discriminate Hi.
Qed.

Lemma proposer_start_ok : proposer_ok sample_context 1 (GENESIS_ROUND, ∅) proposer_start.
Proof.
  split; [exact proposer_start_selector| |done| | |exact sample_signer_ok|].
  - apply view_check_ok; [exact sample_start_ok|done|by vm_compute].
  - exists sample_schedule, (λ _, 0%N). split; [done|]. intros k. by split.
  - split; [by split|done|done|]. intros g Hg. vm_compute in Hg. apply list_elem_of_singleton in Hg as ->.
    split_and!; [|by vm_compute..]. intros t ->%list_elem_of_singleton. by vm_compute.
  - intros _. split; [apply VoteTrackerState_new_ok|]. intros r Hr. exfalso.
    assert (dom (cached (vp_dag_state proposer_start)) = ∅) as He by (vm_compute; reflexivity). rewrite He in Hr. set_solver.
Qed.

(** [parent_quorum] as a check that can be run. *)
Definition parent_authors_of {S} (c : Committee) (ds : DagState S) (clock : N) : gset N :=
  filter (λ a, a < Committee_size c)%N (list_to_set (author <$> filter (λ b, round b + 1 = clock)%N
    ((map_to_list (ds_genesis ds)).*2 ++ (map_to_list (cached ds)).*2))).

Lemma parent_quorum_check {S} `{StoreLaws S} (c : Committee) (ds : DagState S) clock :
  dag_ok ds → (quorum_threshold c <=? set_stake c (parent_authors_of c ds clock))%N = true → parent_quorum c ds clock.
Proof.
  intros Hok Hq%N.leb_le. exists (parent_authors_of c ds clock). split; [done|].
  intros a [Ha (b & -> & [Hr Hb]%list_elem_of_filter)%elem_of_list_to_set%list_elem_of_fmap]%elem_of_filter.
  split; [done|]. exists b. split_and!; [|done|done].
  apply elem_of_app in Hb as [([k x] & -> & Hk%elem_of_map_to_list)%list_elem_of_fmap|([k x] & -> & Hk%elem_of_map_to_list)%list_elem_of_fmap].
  - left. destruct (dk_genesis _ Hok _ _ Hk) as [<- Hz]. done.
  - right. by destruct (dk_recent _ Hok _ _ Hk) as [<- _].
Qed.

Lemma proposer_start_clock : clock_ok committee_4 sample_start (threshold_clock_round sample_start).
Proof. split; [by vm_compute..|by left; vm_compute|apply parent_quorum_check; [exact sample_start_ok|by vm_compute]]. Qed.

Lemma proposals_correct_witness :
  ∃ p' eb h', try_new_block proposer_start true 0 1000 = Done (p', Some eb) ∧ proposer_ok sample_context 1 h' p' ∧
    reference (eb_block eb) = mkBlockRef 1 0 7 ∧ Block_transactions (inner (signed_block (eb_block eb))) = [mkTransaction [1; 2; 3]%N] ∧
    block_accepted sample_verifier (signed_block (eb_block eb)).
Proof.
  destruct (proposals_correct sample_context 1 (GENESIS_ROUND, ∅) proposer_start true 0 1000) as (p' & o & h' & Hrun & Hok & Ho);
    [exact proposer_start_ok|exact proposer_start_clock|].
  assert (((λ r : ValidatorProposer MemStore.Inner * option ExtendedBlock,
      (λ eb, (reference (eb_block eb), Block_transactions (inner (signed_block (eb_block eb))))) <$> r.2) <$>
      try_new_block proposer_start true 0 1000) = Done (Some (mkBlockRef 1 0 7, [mkTransaction [1; 2; 3]%N]))) as Hfacts
    by (vm_compute; reflexivity).
  rewrite Hrun in Hfacts. cbn in Hfacts. destruct o as [eb|]; [|discriminate Hfacts].
  apply (inj Done), (inj Some), pair_eq in Hfacts as [Href Htx].
  exists p', eb, h'. refine (conj Hrun (conj Hok (conj Href (conj Htx _)))). destruct Ho as [Hp _].
  apply (pr_accepted _ _ _ _ _ _ Hp). split; [reflexivity|reflexivity|]. intros r Hr.
  assert (dom (ds_genesis (vp_dag_state proposer_start)) = bv_genesis sample_verifier) as He by (vm_compute; reflexivity).
  by rewrite <- He.
Defined.


(** The validator after its first proposal, with the blocks of authorities 1 and 2. *)
Definition proposer_1 : ValidatorProposer MemStore.Inner * option ExtendedBlock :=
  from_done (proposer_start, None) (try_new_block proposer_start true 0 1000).

Definition proposer_others : list VerifiedBlock := [sample_of (mkBlockRef 1 1 11); sample_of (mkBlockRef 1 2 12)].

Definition proposer_own : list VerifiedBlock := option_list (eb_block <$> proposer_1.2).

Definition proposer_2_dag : DagState MemStore.Inner :=
  from_done sample_start (for_each accept_block (vp_dag_state proposer_1.1) proposer_others).

Definition proposer_2_ops : list tracker_op := (λ b, AddBlock b []) <$> proposer_own ++ proposer_others.

Definition proposer_2_tracker : VoteTrackerState :=
  from_done (VoteTrackerState_new sample_context) (for_each tracker_step (VoteTrackerState_new sample_context) proposer_2_ops).

Definition proposer_2 : ValidatorProposer MemStore.Inner := with_dag proposer_1.1 proposer_2_dag proposer_2_tracker.

Lemma proposer_1_run : try_new_block proposer_start true 0 1000 = Done proposer_1.
Proof. vm_compute. reflexivity. Qed.

Lemma proposer_1_ok : ∃ h, proposer_ok sample_context 1 h proposer_1.1.
Proof.
  destruct (try_new_block_spec sample_context 1 (GENESIS_ROUND, ∅) proposer_start true 0 1000) as (p' & o & h' & Hrun & Hok & _);
    [exact proposer_start_ok|exact proposer_start_clock|].
  rewrite proposer_1_run in Hrun. apply (inj Done) in Hrun. exists h'. by rewrite Hrun.
Qed.

Lemma proposer_2_run : for_each accept_block (vp_dag_state proposer_1.1) proposer_others = Done proposer_2_dag.
Proof. vm_compute. reflexivity. Qed.

Lemma proposer_2_dag_ok : dag_ok proposer_2_dag.
Proof.
  destruct proposer_1_ok as [h Hok]. refine (accept_blocks_ok _ _ _ _ proposer_2_run (dv_ok _ _ (po_view _ _ _ _ Hok))).
  assert (ds_committee (vp_dag_state proposer_1.1) = committee_4) as -> by (vm_compute; reflexivity).
  repeat (constructor; [by split|]). constructor.
Qed.

Lemma proposer_2_ok : ∃ h, proposer_ok sample_context 1 h proposer_2.
Proof.
  destruct proposer_1_ok as [h Hok].
  destruct (tracker_run_ok sample_context (GENESIS_ROUND, ∅) (VoteTrackerState_new sample_context) proposer_2_ops)
    as (st & Hst & Hvt); [exact committee_4_ok|vm_compute; repeat constructor|by vm_compute|apply VoteTrackerState_new_ok|].
  exists (foldl taken_step (GENESIS_ROUND, ∅) proposer_2_ops). unfold proposer_2.
  refine (with_dag_ok sample_context 1 h _ proposer_1.1 _ _ Hok _ _ _ _ _).
  - apply view_check_ok; [exact proposer_2_dag_ok|vm_compute; reflexivity|vm_compute; reflexivity].
  - vm_compute; reflexivity.
  - vm_compute; reflexivity.
  - intros b b' Hb Hb'.
    assert ((b1 ← last_proposed_block proposer_1.1; b2 ← last_proposed_block proposer_2; Done (round b1 <=? round b2)%N) = Done true)
      as Hle by (vm_compute; reflexivity).
    unfold proposer_2 in Hle. rewrite Hb, Hb' in Hle. cbn in Hle. apply N.leb_le. by apply (inj Done) in Hle.
  - intros _. split; [unfold proposer_2_tracker; rewrite Hst; exact Hvt|]. intros r Hr _. revert r Hr.
    change (dom (cached proposer_2_dag) ⊆ dom (foldl taken_step (GENESIS_ROUND, ∅) proposer_2_ops).2).
    apply (bool_decide_unpack _). vm_compute. exact I.
Qed.

Lemma proposer_2_clock :
  clock_ok committee_4 (vp_dag_state proposer_2) (threshold_clock_round (vp_dag_state proposer_2)).
Proof.
  change (vp_dag_state proposer_2) with proposer_2_dag.
  split; [by vm_compute..|by left; vm_compute|apply parent_quorum_check; [exact proposer_2_dag_ok|by vm_compute]].
Qed.

(** It proposes for round 1, accepts the blocks of the others and proposes for round 2. *)
Definition proposer_3 : ValidatorProposer MemStore.Inner * option ExtendedBlock :=
  from_done (proposer_2, None) (try_new_block proposer_2 true 2000 3000).

Lemma proposer_3_run : try_new_block proposer_2 true 2000 3000 = Done proposer_3.
Proof. vm_compute. reflexivity. Qed.

Definition proposer_blocks : list VerifiedBlock :=
  ([] ++ option_list (eb_block <$> proposer_1.2)) ++ option_list (eb_block <$> proposer_3.2).

Lemma proposer_runs : proposer_run sample_context 1 proposer_blocks proposer_3.1.
Proof.
  destruct proposer_2_ok as [h Hok]. eapply run_propose; [|exact proposer_2_clock|rewrite proposer_3_run; apply f_equal, surjective_pairing].
  eapply run_other; [|exact Hok|].
  - eapply run_propose; [eapply run_start; exact proposer_start_ok|exact proposer_start_clock|].
    rewrite proposer_1_run. apply f_equal, surjective_pairing.
  - change (vp_dag_state proposer_2) with proposer_2_dag. apply (bool_decide_unpack _). vm_compute. exact I.
Qed.

