(* ===== verification/CommitSyncer.v ===== *)
(** * Commit syncer (consensus/core/src/commit_syncer.rs)

    Catching up with certified commits: the scheduler that splits the missing
    commits into ranges, runs a bounded number of fetches and sends what arrives
    to Core without gaps; the verification of fetched commits against the votes
    of a quorum; and the assembly of the commits with their blocks. Peers are
    external: their answers are arguments. Metrics, logs and timers are left out. *)

From S2P Require Import Prelude Committee Block StakeAggregator Commit Store RoundTracker.
From S2P Require Import CommitVoteMonitor BlockVerifier TransactionVoteTracker.

(** ** Zipping iterators of equal length (crates/mysten-common/src/zip_debug_eq.rs)

    Different lengths are fatal in builds with [debug] assertions, and otherwise
    only logged. *)
Fixpoint zip_debug_eq {A B} (debug : bool) (l : list A) (k : list B) : outcome (list (A * B)) :=
  match l, k with
  | a :: l, b :: k => rest ← zip_debug_eq debug l k; Done ((a, b) :: rest)
  | [], [] => Done []
  | _, _ => if debug then Panic else Done []
  end.

(** ** Certified commits (commit.rs) *)

Record CertifiedCommit := mkCertifiedCommit {
  cc_commit : TrustedCommit;
  cc_blocks : list VerifiedBlock;
}.

Definition cc_index (c : CertifiedCommit) : N := tc_index (cc_commit c).

Record CertifiedCommits := mkCertifiedCommits {
  certified_commits : list CertifiedCommit;
  certified_votes : list VerifiedBlock;
}.

(** [Ord] of commit ranges. *)
Definition CommitRange_le (a b : CommitRange) : Prop :=
  (CommitRange_start a < CommitRange_start b)%N ∨
  (CommitRange_start a = CommitRange_start b ∧ (CommitRange_end a ≤ CommitRange_end b)%N).

#[export] Instance CommitRange_le_dec : RelDecision CommitRange_le.
Proof. intros a b. unfold CommitRange_le. apply _. Defined.
#[export] Instance CommitRange_le_trans : Transitive CommitRange_le.
Proof. intros ???. unfold CommitRange_le. lia. Qed.
#[export] Instance CommitRange_le_total : Total CommitRange_le.
Proof. intros ??. unfold CommitRange_le. lia. Qed.

#[export] Instance CommitRange_countable : Countable CommitRange.
Proof.
  refine (inj_countable' (λ r, (range_start r, range_end_ r)) (λ '(a, b), mkCommitRange a b) _). by intros [].
Defined.

(** ** The scheduler *)

Record CommitSyncer := mkCommitSyncer {
  cs_context : Context;
  (** the ranges of the running fetch tasks *)
  cs_inflight_fetches : list CommitRange;
  cs_pending_fetches : gset CommitRange;
  cs_fetched_ranges : gmap CommitRange CertifiedCommits;
  cs_highest_scheduled_index : option N;
  cs_highest_fetched_commit_index : N;
  cs_synced_commit_index : N;
}.

Definition CommitSyncer_new (ctx : Context) (last_commit_index : N) : CommitSyncer :=
  mkCommitSyncer ctx [] ∅ ∅ None 0 last_commit_index.

Definition set_inflight (l : list CommitRange) (cs : CommitSyncer) : CommitSyncer :=
  mkCommitSyncer (cs_context cs) l (cs_pending_fetches cs) (cs_fetched_ranges cs) (cs_highest_scheduled_index cs)
    (cs_highest_fetched_commit_index cs) (cs_synced_commit_index cs).

Definition set_pending (X : gset CommitRange) (cs : CommitSyncer) : CommitSyncer :=
  mkCommitSyncer (cs_context cs) (cs_inflight_fetches cs) X (cs_fetched_ranges cs) (cs_highest_scheduled_index cs)
    (cs_highest_fetched_commit_index cs) (cs_synced_commit_index cs).

Definition set_fetched (m : gmap CommitRange CertifiedCommits) (cs : CommitSyncer) : CommitSyncer :=
  mkCommitSyncer (cs_context cs) (cs_inflight_fetches cs) (cs_pending_fetches cs) m (cs_highest_scheduled_index cs)
    (cs_highest_fetched_commit_index cs) (cs_synced_commit_index cs).

Definition set_scheduled (o : option N) (cs : CommitSyncer) : CommitSyncer :=
  mkCommitSyncer (cs_context cs) (cs_inflight_fetches cs) (cs_pending_fetches cs) (cs_fetched_ranges cs) o
    (cs_highest_fetched_commit_index cs) (cs_synced_commit_index cs).

Definition set_highest_fetched (i : N) (cs : CommitSyncer) : CommitSyncer :=
  mkCommitSyncer (cs_context cs) (cs_inflight_fetches cs) (cs_pending_fetches cs) (cs_fetched_ranges cs)
    (cs_highest_scheduled_index cs) i (cs_synced_commit_index cs).

Definition set_synced (i : N) (cs : CommitSyncer) : CommitSyncer :=
  mkCommitSyncer (cs_context cs) (cs_inflight_fetches cs) (cs_pending_fetches cs) (cs_fetched_ranges cs)
    (cs_highest_scheduled_index cs) (cs_highest_fetched_commit_index cs) i.

Definition unhandled_commits_threshold (cs : CommitSyncer) : N :=
  commit_sync_batch_size (parameters (cs_context cs)) *₃₂
    (commit_sync_batches_ahead (parameters (cs_context cs)) mod u32_modulus).

(** [(lo..=hi).step_by(step)] *)
Definition step_by (lo hi step : N) : list N :=
  if decide (hi < lo)%N then []
  else map (λ i, lo + i * step)%N (rangeN 0 ((hi - lo) / step + 1)).

Fixpoint schedule_loop (quorum_commit_index highest_handled_index : N) (cs : CommitSyncer) (l : list N) : CommitSyncer :=
  match l with
  | [] => cs
  | prev_end :: l =>
      let range_start := prev_end +₃₂ 1 in
      let range_end := prev_end +₃₂ commit_sync_batch_size (parameters (cs_context cs)) in
      if decide (quorum_commit_index < range_end)%N then cs
      else if decide (highest_handled_index +₃₂ unhandled_commits_threshold cs < range_end)%N then cs
      else schedule_loop quorum_commit_index highest_handled_index
        (set_scheduled (Some range_end)
          (set_pending ({[CommitRange_new range_start range_end]} ∪ cs_pending_fetches cs) cs)) l
  end.

(** The arguments are what the shared components report: the quorum commit index of
    the vote monitor, the last commit index of the dag state, and the highest
    commit the consumer has handled. *)
Definition try_schedule_once (cs : CommitSyncer) (quorum_commit_index local_commit_index highest_handled_index : N) :
    outcome CommitSyncer :=
  let cs := set_synced (N.max (cs_synced_commit_index cs) local_commit_index) cs in
  let fetch_after_index := N.max (cs_synced_commit_index cs) (default 0%N (cs_highest_scheduled_index cs)) in
  let step := commit_sync_batch_size (parameters (cs_context cs)) in
  rassert (step ≠ 0%N);;
  Done (schedule_loop quorum_commit_index highest_handled_index cs (step_by fetch_after_index quorum_commit_index step)).

(** The loop that sends fetched ranges to Core; [l] are the entries in order. Core
    answers with the missing ancestors, or with an error when it shuts down. The
    results are the commits sent and whether the loop was not cut short. *)
Fixpoint process_fetched (core : CertifiedCommits → option (list BlockRef)) (cs : CommitSyncer)
    (l : list (CommitRange * CertifiedCommits)) : outcome (CommitSyncer * list CertifiedCommits * bool) :=
  match l with
  | [] => Done (cs, [], true)
  | (range, commits) :: l =>
      if decide (CommitRange_start range ≤ cs_synced_commit_index cs +₃₂ 1)%N then
        let cs := set_fetched (delete range (cs_fetched_ranges cs)) cs in
        if decide (CommitRange_end range ≤ cs_synced_commit_index cs)%N then process_fetched core cs l
        else
          match core commits with
          | None => Done (cs, [commits], false)
          | Some missing =>
              mapM (λ r, authority (committee (cs_context cs)) (ref_author r)) missing;;
              '(cs, sent, ok) ← process_fetched core
                (set_synced (N.max (cs_synced_commit_index cs) (CommitRange_end range)) cs) l;
              Done (cs, commits :: sent, ok)
          end
      else Done (cs, [], true)
  end.

Definition handle_fetch_result (core : CertifiedCommits → option (list BlockRef)) (cs : CommitSyncer)
    (target_end : N) (commits : CertifiedCommits) (last_commit_index : N) :
    outcome (CommitSyncer * list CertifiedCommits * bool) :=
  first ← unwrap (head (certified_commits commits));
  last ← unwrap (last (certified_commits commits));
  let commit_start := cc_index first in
  let commit_end := cc_index last in
  let cs := set_highest_fetched (N.max (cs_highest_fetched_commit_index cs) commit_end) cs in
  let cs := if decide (commit_end < target_end)%N
    then set_pending ({[CommitRange_new (commit_end +₃₂ 1) target_end]} ∪ cs_pending_fetches cs) cs else cs in
  let cs := set_synced (N.max (cs_synced_commit_index cs) last_commit_index) cs in
  let cs := if decide (cs_synced_commit_index cs < commit_end)%N
    then set_fetched (<[CommitRange_new commit_start commit_end := commits]> (cs_fetched_ranges cs)) cs else cs in
  process_fetched core cs (map_in_order CommitRange_le (cs_fetched_ranges cs)).

Definition target_parallel_fetches (cs : CommitSyncer) (known_peers_count : N) : N :=
  let params := parameters (cs_context cs) in
  let ahead := (commit_sync_batches_ahead params - N.of_nat (size (cs_fetched_ranges cs)))%N in
  if is_validator (cs_context cs) then
    N.max (N.min (N.min (commit_sync_parallel_fetches params) ((known_peers_count *₆₄ 2) / 3)) ahead) 1
  else N.max (N.min (commit_sync_parallel_fetches params) ahead) 1.

(** The loop that starts the pending fetches [l], in order. *)
Fixpoint start_loop (target : N) (cs : CommitSyncer) (l : list CommitRange) : CommitSyncer :=
  match l with
  | [] => cs
  | range :: l =>
      if decide (target ≤ lengthN (cs_inflight_fetches cs))%N then cs
      else start_loop target
        (set_inflight (cs_inflight_fetches cs ++ [range]) (set_pending (cs_pending_fetches cs ∖ {[range]}) cs)) l
  end.

Definition try_start_fetches (cs : CommitSyncer) (known_peers_count : N) : CommitSyncer :=
  start_loop (target_parallel_fetches cs known_peers_count) cs (set_in_order CommitRange_le (cs_pending_fetches cs)).

(** One iteration of [schedule_loop]: the interval ticks, or a fetch task returns. *)
Definition on_tick (cs : CommitSyncer) (quorum_commit_index local_commit_index highest_handled_index known_peers : N) :
    outcome CommitSyncer :=
  cs ← try_schedule_once cs quorum_commit_index local_commit_index highest_handled_index;
  Done (try_start_fetches cs known_peers).

(** Removing the finished task from the join set. *)
Fixpoint finish_task (range : CommitRange) (l : list CommitRange) : list CommitRange :=
  match l with
  | [] => []
  | r :: l => if decide (r = range) then l else r :: finish_task range l
  end.

Definition on_fetched (core : CertifiedCommits → option (list BlockRef)) (cs : CommitSyncer) (range : CommitRange)
    (commits : CertifiedCommits) (last_commit_index known_peers : N) :
    outcome (CommitSyncer * list CertifiedCommits * bool) :=
  let cs := set_inflight (finish_task range (cs_inflight_fetches cs)) cs in
  '(cs, sent, ok) ← handle_fetch_result core cs (CommitRange_end range) commits last_commit_index;
  Done (try_start_fetches cs known_peers, sent, ok).

(** ** Verifying fetched commits *)

(** Decoding of commits and blocks, external to the repository. *)
Class FetchCodec := {
  bcs_commit_from : list N → option Commit;
  bcs_signed_block_from : list N → option SignedBlock;
}.

(** The components that fetch tasks share. *)
Record SyncerInner := mkSyncerInner {
  si_context : Context;
  si_verifier : SignedBlockVerifier;
  si_vote_tracker : VoteTrackerState;
  si_vote_monitor : CommitVoteMonitor;
  si_round_tracker : RoundTracker;
}.

Definition set_vote_tracker (st : VoteTrackerState) (si : SyncerInner) : SyncerInner :=
  mkSyncerInner (si_context si) (si_verifier si) st (si_vote_monitor si) (si_round_tracker si).
Definition set_vote_monitor (m : CommitVoteMonitor) (si : SyncerInner) : SyncerInner :=
  mkSyncerInner (si_context si) (si_verifier si) (si_vote_tracker si) m (si_round_tracker si).
Definition set_round_tracker (rt : RoundTracker) (si : SyncerInner) : SyncerInner :=
  mkSyncerInner (si_context si) (si_verifier si) (si_vote_tracker si) (si_vote_monitor si) rt.

Section fetch.
Context `{BlockCodec} `{BlockCrypto} `{TransactionVerifier} `{FetchCodec}.

(** The loop on the serialized commits; [commits] are those parsed so far, each with
    its digest. *)
Fixpoint parse_commits (peer : PeerId) (range : CommitRange) (commits : list (N * Commit)) (l : list (list N)) :
    ConsensusResult (list (N * Commit)) :=
  match l with
  | [] => Ok commits
  | serialized :: l =>
      match bcs_commit_from serialized with
      | None => Err MalformedCommit
      | Some commit =>
          let digest := compute_digest serialized in
          let checked :=
            match last commits with
            | None =>
                if decide (Commit_index commit ≠ CommitRange_start range)
                then Some (UnexpectedStartCommit peer (CommitRange_start range) commit) else None
            | Some (last_commit_digest, last_commit) =>
                if decide (Commit_index commit ≠ Commit_index last_commit +₃₂ 1 ∨
                    Commit_previous_digest commit ≠ last_commit_digest)
                then Some (UnexpectedCommitSequence peer last_commit commit) else None
            end in
          match checked with
          | Some e => Err e
          | None =>
              if decide (CommitRange_end range < Commit_index commit)%N then Ok commits
              else parse_commits peer range (commits ++ [(digest, commit)]) l
          end
      end
  end.

(** The loop on the votes of one block. *)
Definition count_votes (c : Committee) (end_commit_ref : CommitRef) (agg : StakeAggregator QuorumThreshold)
    (block : VerifiedBlock) : outcome (StakeAggregator QuorumThreshold) :=
  for_each (λ agg vote, if decide (vote = end_commit_ref) then '(agg, _) ← agg_add agg (author block) c; Done agg else Done agg)
    agg (commit_votes block).

(** The loop on the serialized blocks that vote for the last commit. The state of
    the vote tracker is kept on errors. *)
Fixpoint verify_vote_blocks (si : SyncerInner) (end_commit_ref : CommitRef) (agg : StakeAggregator QuorumThreshold)
    (vote_blocks : list VerifiedBlock) (l : list (list N)) :
    outcome (SyncerInner * ConsensusResult (StakeAggregator QuorumThreshold * list VerifiedBlock)) :=
  match l with
  | [] => Done (si, Ok (agg, vote_blocks))
  | serialized :: l =>
      match bcs_signed_block_from serialized with
      | None => Done (si, Err MalformedBlock)
      | Some signed_block =>
          r ← verify_and_vote (si_verifier si) signed_block serialized;
          match r with
          | Err e => Done (si, Err e)
          | Ok (block, reject_transaction_votes) =>
              si ← (if transaction_voting_enabled (protocol_config (si_context si)) then
                      st ← add_voted_blocks (si_vote_tracker si) [(block, reject_transaction_votes)];
                      Done (set_vote_tracker st si)
                    else Done si);
              agg ← count_votes (committee (si_context si)) end_commit_ref agg block;
              verify_vote_blocks si end_commit_ref agg (vote_blocks ++ [block]) l
          end
      end
  end.

Definition verify_commits (debug : bool) (si : SyncerInner) (peer : PeerId) (range : CommitRange)
    (serialized_commits serialized_vote_blocks : list (list N)) :
    outcome (SyncerInner * ConsensusResult (list TrustedCommit * list VerifiedBlock)) :=
  match parse_commits peer range [] serialized_commits with
  | Err e => Done (si, Err e)
  | Ok commits =>
      match last commits with
      | None => Done (si, Err (NoCommitReceived peer))
      | Some (end_commit_digest, end_commit) =>
          let end_commit_ref := mkCommitRef (Commit_index end_commit) end_commit_digest in
          '(si, r) ← verify_vote_blocks si end_commit_ref StakeAggregator_new [] serialized_vote_blocks;
          match r with
          | Err e => Done (si, Err e)
          | Ok (agg, vote_blocks) =>
              if reached_threshold agg (committee (si_context si)) then
                zipped ← zip_debug_eq debug commits serialized_commits;
                Done (si, Ok (map (λ '((_, c), s), TrustedCommit_new_trusted c s) zipped, vote_blocks))
              else Done (si, Err (NotEnoughCommitVotes (agg_stake agg) peer end_commit))
          end
      end
  end.

(** ** Fetching the blocks of the commits *)

(** [chunks], which panics on chunks of no elements; [fuel] bounds their number. *)
Fixpoint chunks_loop {A} (fuel : nat) (n : N) (l : list A) : list (list A) :=
  match fuel, l with
  | _, [] => []
  | O, _ => []
  | Datatypes.S fuel, _ => takeN n l :: chunks_loop fuel n (drop (N.to_nat n) l)
  end.

Definition chunks {A} (n : N) (l : list A) : outcome (list (list A)) :=
  rassert (n ≠ 0%N);; Done (chunks_loop (length l) n l).

(** Steps 5 to 7 on the answer to one request. *)
Definition check_blocks (debug : bool) (peer : PeerId) (requested : list BlockRef) (serialized_blocks : list (list N)) :
    outcome (ConsensusResult (list VerifiedBlock)) :=
  if decide (lengthN requested ≠ lengthN serialized_blocks) then
    Done (Err (UnexpectedNumberOfBlocksFetched peer (lengthN requested) (lengthN serialized_blocks)))
  else
    match mapM bcs_signed_block_from serialized_blocks with
    | None => Done (Err MalformedBlock)
    | Some signed_blocks =>
        pairs ← zip_debug_eq debug requested signed_blocks;
        triples ← zip_debug_eq debug pairs serialized_blocks;
        try_each (λ blocks '((requested_block_ref, signed_block), serialized),
          let block := new_verified signed_block serialized in
          ensure (requested_block_ref = reference block)
            (UnexpectedBlockForCommit peer requested_block_ref (reference block)) ?;
          Done (Ok (blocks ++ [block]))) [] triples
    end.

(** Steps 3 to 7: all requests; [fetch_blocks] is what the peer answers to one. *)
Definition fetch_commit_blocks (debug : bool) (ctx : Context) (peer : PeerId)
    (fetch_blocks : list BlockRef → ConsensusResult (list (list N))) (commits : list TrustedCommit) :
    outcome (ConsensusResult (gmap BlockRef VerifiedBlock)) :=
  requests ← chunks (max_blocks_per_fetch (parameters ctx)) (stable_sort BlockRef_le (commits ≫= tc_blocks));
  try_each (λ fetched_blocks request,
    serialized_blocks ?← Done (fetch_blocks request);
    blocks ?← check_blocks debug peer request serialized_blocks;
    Done (Ok (foldl (λ m b, <[reference b := b]> m) fetched_blocks blocks))) ∅ requests.

(** Step 9: every commit takes its blocks out of the fetched ones. *)
Definition take_block (st : gmap BlockRef VerifiedBlock * list VerifiedBlock) (r : BlockRef) :
    outcome (gmap BlockRef VerifiedBlock * list VerifiedBlock) :=
  b ← unwrap (st.1 !! r);
  Done (delete r st.1, st.2 ++ [b]).

Definition certify_commit (st : gmap BlockRef VerifiedBlock * list CertifiedCommit) (commit : TrustedCommit) :
    outcome (gmap BlockRef VerifiedBlock * list CertifiedCommit) :=
  '(fetched_blocks, blocks) ← for_each take_block (st.1, []) (tc_blocks commit);
  Done (fetched_blocks, st.2 ++ [mkCertifiedCommit commit blocks]).

(** Steps 10 to 12: the other components learn about the blocks. *)
Definition record_blocks (si : SyncerInner) (certified : list CertifiedCommit) (vote_blocks : list VerifiedBlock) :
    outcome SyncerInner :=
  let blocks := certified ≫= cc_blocks in
  si ← (if transaction_voting_enabled (protocol_config (si_context si)) then
          st ← for_each (λ st b, add_voted_blocks st [(b, [])]) (si_vote_tracker si) blocks;
          Done (set_vote_tracker st si)
        else Done si);
  m ← for_each observe_block (si_vote_monitor si) (blocks ++ vote_blocks);
  rt ← for_each (λ rt b, update_from_verified_block rt (mkExtendedBlock b [])) (si_round_tracker si) (blocks ++ vote_blocks);
  Done (set_round_tracker rt (set_vote_monitor m si)).

(** [probe] and [fetch_commits] are the answers of the peer to the first requests. *)
Definition fetch_once (debug : bool) (si : SyncerInner) (peer : PeerId) (range : CommitRange)
    (probe : ConsensusResult ()) (fetch_commits : ConsensusResult (list (list N) * list (list N)))
    (fetch_blocks : list BlockRef → ConsensusResult (list (list N))) :
    outcome (SyncerInner * ConsensusResult CertifiedCommits) :=
  match probe with
  | Err e => Done (si, Err e)
  | Ok _ =>
      match fetch_commits with
      | Err e => Done (si, Err e)
      | Ok (serialized_commits, serialized_blocks) =>
          '(si, r) ← verify_commits debug si peer range serialized_commits serialized_blocks;
          match r with
          | Err e => Done (si, Err e)
          | Ok (commits, vote_blocks) =>
              r ← fetch_commit_blocks debug (si_context si) peer fetch_blocks commits;
              match r with
              | Err e => Done (si, Err e)
              | Ok fetched_blocks =>
                  '(_, certified) ← for_each certify_commit (fetched_blocks, []) commits;
                  si ← record_blocks si certified vote_blocks;
                  Done (si, Ok (mkCertifiedCommits certified vote_blocks))
              end
          end
      end
  end.

End fetch.
