(* ===== verification/CommitSyncerSpec.v ===== *)
(** * Catching up with certified commits

    The scheduler keeps every missing commit in exactly one place, sends commits to
    Core in order and without gaps, and makes progress with every finished fetch.
    Verified commits are the commits of the network, and they come with exactly
    their blocks. *)

From S2P Require Import Prelude Committee Block StakeAggregator Commit Store RoundTracker.
From S2P Require Import DagState DagInvariant CommitVoteMonitor CausalHistory BlockVerifier TransactionVoteTracker CommitSyncer.

(** ** Ranges *)

Record range_ok (r : CommitRange) : Prop := {
  rg_start : (0 < CommitRange_start r)%N;
  rg_order : (CommitRange_start r ≤ CommitRange_end r)%N;
  rg_bound : (CommitRange_end r < u32_MAX)%N;
}.

Lemma range_new_ok a b : (0 < a ≤ b)%N → (b < u32_MAX)%N →
  range_ok (CommitRange_new a b) ∧ CommitRange_start (CommitRange_new a b) = a ∧ CommitRange_end (CommitRange_new a b) = b.
Proof.
  intros Ha Hb. assert (CommitRange_end (CommitRange_new a b) = b) as He.
  { unfold CommitRange_end, CommitRange_new, u32_saturating_add. cbn. lia. }
  split_and!; [|done|done]. split; rewrite ?He; cbn; lia.
Qed.

(** A range is determined by its ends. *)
Lemma range_eq r s : range_ok r → range_ok s →
  CommitRange_start r = CommitRange_start s → CommitRange_end r = CommitRange_end s → r = s.
Proof.
  intros [? ? _] [? ? _]. destruct r as [a b], s as [a' b']. unfold CommitRange_start, CommitRange_end in *. cbn in *.
  intros -> He. f_equal. lia.
Qed.

Definition in_range (i : N) (r : CommitRange) : Prop := (CommitRange_start r ≤ i ≤ CommitRange_end r)%N.

#[export] Instance in_range_dec i r : Decision (in_range i r).
Proof. unfold in_range. apply _. Defined.

Definition range_size (r : CommitRange) : nat := N.to_nat (CommitRange_end r - CommitRange_start r + 1).

(** ** The invariant of the scheduler *)

(** The commits of [commits] are those of the indices from [a] to [b]. *)
Definition indices_are (commits : CertifiedCommits) (a b : N) : Prop :=
  cc_index <$> certified_commits commits = rangeN a (b + 1).

(** All ranges the syncer knows of: being fetched, to be fetched, and fetched. *)
Definition wanted (cs : CommitSyncer) : list CommitRange := cs_inflight_fetches cs ++ elements (cs_pending_fetches cs).
Definition tracked (cs : CommitSyncer) : list CommitRange := wanted cs ++ elements (dom (cs_fetched_ranges cs)).

Definition scheduled (cs : CommitSyncer) : N := default 0%N (cs_highest_scheduled_index cs).

(** How many of the ranges contain the index. *)
Definition occurrences (i : N) (l : list CommitRange) : nat := length (filter (in_range i) l).

Record syncer_ok (ctx : Context) (cs : CommitSyncer) : Prop := {
  sy_context : cs_context cs = ctx;
  sy_ranges r : r ∈ tracked cs → range_ok r ∧ (CommitRange_end r ≤ scheduled cs)%N;
  (** no commit is in two ranges *)
  sy_once i : occurrences i (tracked cs) ≤ 1;
  (** every scheduled commit that is not synced is in one *)
  sy_cover i : (cs_synced_commit_index cs < i ≤ scheduled cs)%N → 1 ≤ occurrences i (tracked cs);
  sy_fetched r commits : cs_fetched_ranges cs !! r = Some commits →
    indices_are commits (CommitRange_start r) (CommitRange_end r);
  sy_scheduled : (scheduled cs < u32_MAX)%N;
  sy_synced : (cs_synced_commit_index cs < u32_MAX)%N;
}.

Lemma occurrences_app i l k : occurrences i (l ++ k) = occurrences i l + occurrences i k.
Proof. unfold occurrences. by rewrite filter_app, length_app. Qed.

Lemma occurrences_cons i r l : occurrences i (r :: l) = (if decide (in_range i r) then 1 else 0) + occurrences i l.
Proof. unfold occurrences. rewrite filter_cons. by case_decide. Qed.

Lemma occurrences_perm i l k : l ≡ₚ k → occurrences i l = occurrences i k.
Proof. intros Hp. unfold occurrences. by rewrite Hp. Qed.

Lemma occurrences_pos i l : 1 ≤ occurrences i l ↔ ∃ r, r ∈ l ∧ in_range i r.
Proof.
  unfold occurrences. split.
  - destruct (filter (in_range i) l) as [|r k] eqn:Hf; cbn; [lia|]. intros _. exists r.
    assert (r ∈ filter (in_range i) l) as Hr by (rewrite Hf; set_solver). apply list_elem_of_filter in Hr. tauto.
  - intros (r & Hr & Hi). assert (r ∈ filter (in_range i) l) as Hin by (by apply list_elem_of_filter).
    destruct (filter (in_range i) l); [by apply elem_of_nil in Hin|cbn; lia].
Qed.

Lemma occurrences_zero i l : (∀ r, r ∈ l → ¬ in_range i r) → occurrences i l = 0.
Proof.
  intros Hl. destruct (decide (1 ≤ occurrences i l)) as [Hp|]; [|lia]. apply occurrences_pos in Hp as (r & Hr & Hi).
  by destruct (Hl r).
Qed.

(** Two equal entries would be two occurrences. *)
Lemma once_NoDup l : (∀ r, r ∈ l → range_ok r) → (∀ i, occurrences i l ≤ 1) → NoDup l.
Proof.
  induction l as [|r l IH]; intros Hok Ho; [constructor|]. constructor.
  - intros Hr. specialize (Ho (CommitRange_start r)). rewrite occurrences_cons in Ho.
    destruct (Hok r) as [_ ? _]; [auto with lists|]. rewrite decide_True in Ho by (unfold in_range; lia).
    assert (1 ≤ occurrences (CommitRange_start r) l); [|lia]. apply occurrences_pos. exists r. unfold in_range. split; [done|lia].
  - apply IH; [auto with lists|]. intros i. specialize (Ho i). rewrite occurrences_cons in Ho. lia.
Qed.

(** ** Changes of the tracked ranges *)

(** A range is replaced by parts of it that still contain what is not synced. *)
Lemma replace_range ctx cs cs' r T P :
  syncer_ok ctx cs → cs_context cs' = ctx → scheduled cs' = scheduled cs →
  (cs_synced_commit_index cs ≤ cs_synced_commit_index cs' < u32_MAX)%N →
  tracked cs ≡ₚ r :: T → tracked cs' ≡ₚ P ++ T →
  (∀ p, p ∈ P → range_ok p ∧ (CommitRange_end p ≤ CommitRange_end r)%N) →
  (∀ i, occurrences i P ≤ occurrences i [r]) →
  (∀ i, (cs_synced_commit_index cs' < i)%N → in_range i r → 1 ≤ occurrences i P) →
  (∀ k commits, cs_fetched_ranges cs' !! k = Some commits → indices_are commits (CommitRange_start k) (CommitRange_end k)) →
  syncer_ok ctx cs'.
Proof.
  intros Hok Hctx Hsch Hsyn Ht Ht' HP Hocc Hcov Hf. assert (r ∈ tracked cs) as Hr by (rewrite Ht; auto with lists).
  destruct (sy_ranges _ _ Hok r Hr) as [_ Hre]. split; [done| | | |done| |lia]; rewrite ?Hsch.
  - intros k. rewrite Ht', elem_of_app. intros [[Hp ?]%HP|Hk]; [split; [done|lia]|].
    apply (sy_ranges _ _ Hok). rewrite Ht. auto with lists.
  - intros i. rewrite (occurrences_perm _ _ _ Ht'), occurrences_app. pose proof (sy_once _ _ Hok i) as Ho.
    rewrite (occurrences_perm _ _ _ Ht) in Ho. change (r :: T) with ([r] ++ T) in Ho. rewrite occurrences_app in Ho. specialize (Hocc i). lia.
  - intros i Hi. rewrite (occurrences_perm _ _ _ Ht'), occurrences_app.
    assert (1 ≤ occurrences i (tracked cs)) as Ho by (apply (sy_cover _ _ Hok); lia).
    rewrite (occurrences_perm _ _ _ Ht), occurrences_cons in Ho. case_decide as Hin; [|lia].
    specialize (Hcov i ltac:(lia) Hin). lia.
  - apply (sy_scheduled _ _ Hok).
Qed.

(** The order of the tracked ranges does not matter. *)
Lemma same_tracked ctx cs cs' :
  syncer_ok ctx cs → cs_context cs' = ctx → scheduled cs' = scheduled cs →
  cs_synced_commit_index cs' = cs_synced_commit_index cs → tracked cs' ≡ₚ tracked cs →
  cs_fetched_ranges cs' = cs_fetched_ranges cs → syncer_ok ctx cs'.
Proof.
  intros [? Hr Ho Hc Hf ? ?] Hctx Hsch Hsyn Ht Hfe. split; rewrite ?Hsch, ?Hsyn, ?Hfe; try done.
  - intros r. rewrite Ht. apply Hr.
  - intros i. rewrite (occurrences_perm _ _ _ Ht). apply Ho.
  - intros i Hi. rewrite (occurrences_perm _ _ _ Ht). by apply Hc.
Qed.

(** Synced commits can only grow. *)
Lemma raise_synced ctx cs s :
  syncer_ok ctx cs → (cs_synced_commit_index cs ≤ s < u32_MAX)%N → syncer_ok ctx (set_synced s cs).
Proof.
  intros [? Hr Ho Hc Hf ? ?] Hs. split; try done; cbn [cs_synced_commit_index set_synced]; [|lia].
  intros i Hi. apply Hc. change (scheduled (set_synced s cs)) with (scheduled cs) in Hi. lia.
Qed.

Lemma elements_insert_range (r : CommitRange) (X : gset CommitRange) : r ∉ X → elements ({[r]} ∪ X) ≡ₚ r :: elements X.
Proof. apply elements_union_singleton. Qed.

(** A new range above everything scheduled and synced. *)
Lemma schedule_range ctx cs lo step :
  syncer_ok ctx cs → lo = N.max (cs_synced_commit_index cs) (scheduled cs) → (0 < step)%N → (lo + step < u32_MAX)%N →
  syncer_ok ctx (set_scheduled (Some (lo + step)%N)
    (set_pending ({[CommitRange_new (lo + 1) (lo + step)]} ∪ cs_pending_fetches cs) cs)).
Proof.
  intros Hok Hlo Hstep Hmax. set (r := CommitRange_new (lo + 1) (lo + step)). set (cs' := set_scheduled _ _).
  destruct (range_new_ok (lo + 1) (lo + step)) as (Hr & Hs & He); [lia|lia|]. fold r in Hr, Hs, He.
  assert (r ∉ cs_pending_fetches cs) as Hnew.
  { intros Hin. destruct (sy_ranges _ _ Hok r) as [_ Hle]; [|lia]. unfold tracked, wanted. rewrite !elem_of_app, elem_of_elements. auto. }
  assert (tracked cs' ≡ₚ r :: tracked cs) as Ht.
  { unfold tracked, wanted, cs'. cbn [cs_inflight_fetches cs_pending_fetches cs_fetched_ranges set_pending set_scheduled].
    rewrite elements_insert_range by done. by rewrite <- !Permutation_middle. }
  destruct Hok as [Hctx Hrg Ho Hc Hf Hsch Hsyn]. split; try done.
  - intros k. rewrite Ht, elem_of_cons. intros [->|Hk]; [split; [done|cbn; lia]|]. destruct (Hrg k Hk). split; [done|cbn; lia].
  - intros i. rewrite (occurrences_perm _ _ _ Ht), occurrences_cons. case_decide as Hin; [|apply Ho].
    rewrite occurrences_zero; [lia|]. intros k Hk Hki. destruct (Hrg k Hk) as [_ Hle]. unfold in_range in *. lia.
  - intros i Hi. change (cs_synced_commit_index cs < i ≤ lo + step)%N in Hi. rewrite (occurrences_perm _ _ _ Ht), occurrences_cons. case_decide as Hin; [lia|].
    unfold in_range in Hin. apply Hc. lia.
Qed.

(** ** Scheduling *)

Fixpoint step_chain (lo step : N) (n : nat) : list N :=
  match n with O => [] | Datatypes.S n => lo :: step_chain (lo + step) step n end.

Lemma step_by_chain lo hi step :
  (lo ≤ hi)%N → step_by lo hi step = step_chain lo step (N.to_nat ((hi - lo) / step + 1)).
Proof.
  intros Hle. unfold step_by. rewrite decide_False by lia. generalize ((hi - lo) / step + 1)%N as n. intros n.
  unfold rangeN. rewrite N.sub_0_r. change (N.to_nat 0) with 0%nat.
  assert (∀ k m (base : N), map (λ i, base + i * step)%N (N.of_nat <$> seq k m) = step_chain (base + N.of_nat k * step) step m) as Hgen.
  { intros k m base. revert k. induction m as [|m IH]; intros k; [done|]. cbn. f_equal. rewrite IH. f_equal. lia. }
  rewrite Hgen. f_equal. lia.
Qed.

Lemma schedule_loop_spec ctx q h cs lo (n : nat) (step := commit_sync_batch_size (parameters ctx)) :
  syncer_ok ctx cs → lo = N.max (cs_synced_commit_index cs) (scheduled cs) → (0 < step)%N → (q + step < u32_MAX)%N →
  (n = 0 ∨ (lo + N.of_nat (n - 1) * step ≤ q < lo + N.of_nat n * step)%N) →
  ∃ cs', schedule_loop q h cs (step_chain lo step n) = cs' ∧ syncer_ok ctx cs' ∧
    cs_inflight_fetches cs' = cs_inflight_fetches cs ∧ cs_fetched_ranges cs' = cs_fetched_ranges cs ∧
    cs_synced_commit_index cs' = cs_synced_commit_index cs ∧ (scheduled cs ≤ scheduled cs')%N ∧
    (n ≠ 0 → (q ≤ h +₃₂ unhandled_commits_threshold cs)%N →
      (q < N.max (cs_synced_commit_index cs') (scheduled cs') + step)%N).
Proof.
  intros Hok Hlo Hstep Hq. revert cs lo Hok Hlo. induction n as [|n IH]; intros cs lo Hok Hlo Hn; cbn [step_chain schedule_loop].
  { exists cs. split_and!; try done. }
  destruct Hn as [?|Hn]; [done|]. rewrite (sy_context _ _ Hok). fold step. unfold u32_MAX in Hq. rewrite (wrap_add_small _ lo step), (wrap_add_small _ lo 1) by lia.
  case_decide as Hd; [exists cs; split_and!; try done; intros; lia|].
  case_decide as Hh.
  { exists cs. split_and!; try done. intros _ Hle. exfalso. revert Hh Hle. set (x := (h +₃₂ unhandled_commits_threshold cs)%N). lia. }
  set (cs1 := set_scheduled _ _).
  assert (lo + step < u32_MAX)%N as Hlt by (unfold u32_MAX; lia).
  pose proof (schedule_range ctx cs lo step Hok Hlo Hstep Hlt) as Hok1. fold cs1 in Hok1.
  assert (scheduled cs1 = (lo + step)%N) as Hs1 by done.
  destruct (IH cs1 (lo + step)%N Hok1) as (cs' & Hrun & Hok' & Hi & Hf & Hs & Hle & Hprog).
  - rewrite Hs1. cbn. lia.
  - destruct n; [by left|right]. lia.
  - exists cs'. split_and!; [done|done|by rewrite Hi|by rewrite Hf|by rewrite Hs|lia|].
    intros _ Hqh. destruct n as [|n]; [|apply Hprog; [done|exact Hqh]].
    cbn [step_chain schedule_loop] in Hrun. rewrite <- Hrun, Hs1. cbn. lia.
Qed.

Lemma try_schedule_once_spec ctx cs q local h (step := commit_sync_batch_size (parameters ctx)) :
  syncer_ok ctx cs → (0 < step)%N → (q + step < u32_MAX)%N → (local < u32_MAX)%N →
  ∃ cs', try_schedule_once cs q local h = Done cs' ∧ syncer_ok ctx cs' ∧
    cs_inflight_fetches cs' = cs_inflight_fetches cs ∧ cs_fetched_ranges cs' = cs_fetched_ranges cs ∧
    cs_synced_commit_index cs' = N.max (cs_synced_commit_index cs) local ∧ (scheduled cs ≤ scheduled cs')%N ∧
    ((q ≤ h +₃₂ unhandled_commits_threshold cs)%N → (q < N.max (cs_synced_commit_index cs') (scheduled cs') + step)%N).
Proof.
  intros Hok Hstep Hq Hlocal. unfold try_schedule_once. set (cs1 := set_synced _ cs).
  assert (syncer_ok ctx cs1) as Hok1.
  { pose proof (sy_synced _ _ Hok). apply raise_synced; [done|lia]. }
  rewrite (sy_context _ _ Hok1). fold step. rewrite rassert_true by lia. run_bind.
  set (lo := N.max (cs_synced_commit_index cs1) (default 0%N (cs_highest_scheduled_index cs1))).
  assert (unhandled_commits_threshold cs1 = unhandled_commits_threshold cs) as Hth by done.
  destruct (decide (q < lo)%N) as [Hlt|Hge].
  { unfold step_by. rewrite decide_True by done. exists cs1. split_and!; try done. intros _.
    change (q < N.max (cs_synced_commit_index cs1) (scheduled cs1) + step)%N. fold (scheduled cs1) in lo. lia. }
  rewrite step_by_chain by lia. set (n := N.to_nat ((q - lo) / step + 1)).
  destruct (schedule_loop_spec ctx q h cs1 lo n) as (cs' & Hrun & Hok' & Hi & Hf & Hs & Hle & Hprog); [done|done|done|done| |].
  { right. pose proof (N.div_mod (q - lo) step ltac:(lia)) as Hdm. pose proof (N.mod_lt (q - lo) step ltac:(lia)) as Hml.
    fold step. unfold n. generalize dependent ((q - lo) mod step)%N.
    generalize ((q - lo) / step)%N as d. intros d x Hdm Hx.
    replace (N.of_nat (N.to_nat (d + 1) - 1)) with d by lia. replace (N.of_nat (N.to_nat (d + 1))) with (d + 1)%N by lia. lia. }
  fold step in Hrun. rewrite Hrun. exists cs'. split_and!; try done.
  intros Hqh. apply Hprog; [unfold n; generalize ((q - lo) / step)%N; lia|]. by rewrite Hth.
Qed.

(** ** Starting fetches *)

Lemma start_loop_spec target cs l :
  NoDup l → (∀ r, r ∈ l → r ∈ cs_pending_fetches cs) → (0 < target)%N →
  let cs' := start_loop target cs l in
  wanted cs' ≡ₚ wanted cs ∧ cs_context cs' = cs_context cs ∧ cs_fetched_ranges cs' = cs_fetched_ranges cs ∧
  cs_highest_scheduled_index cs' = cs_highest_scheduled_index cs ∧
  cs_synced_commit_index cs' = cs_synced_commit_index cs ∧ (cs_inflight_fetches cs' = [] → cs_inflight_fetches cs = [] ∧ l = []).
Proof.
  intros Hnd Hl Ht. revert cs Hl. induction Hnd as [|r l Hr Hnd IH]; intros cs Hl; cbn [start_loop]; [done|].
  case_decide as Hfull.
  { split_and!; try done. intros Hnil. rewrite Hnil in Hfull. unfold lengthN in Hfull. cbn in Hfull. lia. }
  set (cs1 := set_inflight _ _).
  destruct (IH cs1) as (Hw & Hc & Hf & Hs & Hsy & Hnil).
  { intros k Hk. cbn. apply elem_of_difference. split; [auto with lists|]. rewrite elem_of_singleton. by intros ->. }
  split_and!; [|done|done|done|done|].
  - rewrite Hw. unfold wanted, cs1. cbn [cs_inflight_fetches cs_pending_fetches set_inflight set_pending].
    rewrite <- app_assoc. f_equiv. cbn. rewrite <- elements_insert_range by set_solver.
    rewrite <- union_difference_singleton_L by auto with lists. done.
  - intros Hn. apply Hnil in Hn as [Hn _]. cbn in Hn. by destruct (cs_inflight_fetches cs).
Qed.

Lemma try_start_fetches_spec ctx cs peers (cs' := try_start_fetches cs peers) :
  syncer_ok ctx cs →
  syncer_ok ctx cs' ∧ wanted cs' ≡ₚ wanted cs ∧ scheduled cs' = scheduled cs ∧
  cs_synced_commit_index cs' = cs_synced_commit_index cs ∧ cs_fetched_ranges cs' = cs_fetched_ranges cs ∧
  (cs_inflight_fetches cs' = [] → wanted cs' = []).
Proof.
  intros Hok. destruct (start_loop_spec (target_parallel_fetches cs peers) cs (set_in_order CommitRange_le (cs_pending_fetches cs)))
    as (Hw & Hc & Hf & Hs & Hsy & Hnil).
  - apply NoDup_stable_sort, NoDup_elements.
  - intros r Hr. by apply elem_of_set_in_order in Hr.
  - unfold target_parallel_fetches. destruct (is_validator _); lia.
  - fold (try_start_fetches cs peers) in *. fold cs' in Hw, Hc, Hf, Hs, Hsy, Hnil.
    assert (scheduled cs' = scheduled cs) as Hsch by (unfold scheduled; by rewrite Hs).
    split_and!; try done.
    + eapply same_tracked; [exact Hok|rewrite Hc; apply Hok|done|done| |done]. unfold tracked. by rewrite Hw, Hf.
    + intros Hn. pose proof Hn as [Hi Hl]%Hnil. assert (wanted cs = []) as Hwn.
      { unfold wanted. rewrite Hi. cbn. assert (cs_pending_fetches cs = ∅) as ->; [|by rewrite elements_empty].
        apply set_eq. intros r. split; [|set_solver]. intros Hr. apply (elem_of_set_in_order CommitRange_le) in Hr. rewrite Hl in Hr. by apply elem_of_nil in Hr. }
      rewrite Hwn in Hw. by apply Permutation_nil_r in Hw.
Qed.

(** ** Sending commits to Core *)

(** Commits sent one after another cover the indices after [s] up to [s'] in order
    and without a gap. *)
Inductive gapless : N → list CertifiedCommits → N → Prop :=
  | gapless_nil s : gapless s [] s
  | gapless_cons s a b commits sent s' :
      indices_are commits a b → (a ≤ s + 1)%N → (s < b)%N → gapless b sent s' → gapless s (commits :: sent) s'.

(** Core answers, and the references it reports are of committee members. *)
Definition core_ok (c : Committee) (core : CertifiedCommits → option (list BlockRef)) : Prop :=
  ∀ commits, ∃ missing, core commits = Some missing ∧ ∀ r, r ∈ missing → (ref_author r < Committee_size c)%N.

(** A fetched range whose commits are all synced is dropped. *)
Lemma drop_fetched ctx cs r commits s :
  syncer_ok ctx cs → cs_fetched_ranges cs !! r = Some commits →
  (cs_synced_commit_index cs ≤ s < u32_MAX)%N → (CommitRange_end r ≤ s)%N →
  syncer_ok ctx (set_synced s (set_fetched (delete r (cs_fetched_ranges cs)) cs)).
Proof.
  intros Hok Hr Hs He. set (cs' := set_synced _ _).
  eapply (replace_range ctx cs cs' r (wanted cs ++ elements (dom (delete r (cs_fetched_ranges cs)))) []); try done.
  - apply Hok.
  - unfold tracked. rewrite (Permutation_middle (wanted cs)). f_equiv. rewrite <- elements_insert_range by (rewrite dom_delete_L; set_solver).
    rewrite dom_delete_L, <- union_difference_singleton_L by (by eapply elem_of_dom_2). done.
  - by intros p ?%elem_of_nil.
  - intros i. cbn. lia.
  - intros i Hi Hin. unfold in_range in Hin. change (s < i)%N in Hi. lia.
  - intros k c' Hk. cbn in Hk. apply lookup_delete_Some in Hk as [_ Hk]. by apply (sy_fetched _ _ Hok).
Qed.

Lemma process_fetched_spec ctx core cs l :
  core_ok (committee ctx) core → syncer_ok ctx cs →
  (∀ r commits, (r, commits) ∈ l ↔ cs_fetched_ranges cs !! r = Some commits) → NoDup l.*1 → StronglySorted CommitRange_le l.*1 →
  ∃ cs' sent, process_fetched core cs l = Done (cs', sent, true) ∧ syncer_ok ctx cs' ∧
    cs_inflight_fetches cs' = cs_inflight_fetches cs ∧ cs_pending_fetches cs' = cs_pending_fetches cs ∧
    scheduled cs' = scheduled cs ∧ gapless (cs_synced_commit_index cs) sent (cs_synced_commit_index cs') ∧
    (∀ r, r ∈ dom (cs_fetched_ranges cs') → (cs_synced_commit_index cs' + 1 < CommitRange_start r)%N).
Proof.
  intros Hcore. revert cs. induction l as [|[r commits] l IH]; intros cs Hok Hl Hnd Hs; cbn [process_fetched].
  { exists cs, []. split_and!; try done; [constructor|]. intros r [c Hr]%elem_of_dom. apply Hl in Hr. by apply elem_of_nil in Hr. }
  assert (cs_fetched_ranges cs !! r = Some commits) as Hr by (apply Hl; auto with lists).
  pose proof (sy_synced _ _ Hok) as Hsy. unfold u32_MAX in Hsy. rewrite wrap_add_small by lia.
  cbn [fmap list_fmap fst] in Hnd, Hs. apply NoDup_cons in Hnd as [Hnot Hnd]. apply StronglySorted_inv in Hs as [Hs Hfirst].
  assert (range_ok r ∧ (CommitRange_end r ≤ scheduled cs)%N) as [Hrok Hre].
  { apply (sy_ranges _ _ Hok). unfold tracked. rewrite elem_of_app, elem_of_elements. right. by eapply elem_of_dom_2. }
  case_decide as Hgap.
  2:{ exists cs, []. split_and!; try done; [constructor|]. intros k [c Hk]%elem_of_dom. apply Hl in Hk as [[= -> ->]|Hk]%elem_of_cons; [lia|].
      rewrite Forall_forall in Hfirst. assert (k ∈ l.*1) as Hk1 by (apply list_elem_of_fmap; by exists (k, c)).
      specialize (Hfirst k Hk1). unfold CommitRange_le in Hfirst. lia. }
  set (s := N.max (cs_synced_commit_index cs) (CommitRange_end r)).
  set (cs0 := set_fetched (delete r (cs_fetched_ranges cs)) cs). set (cs1 := set_synced s cs0).
  assert (syncer_ok ctx cs1) as Hok1.
  { eapply drop_fetched; [done|done| |]; destruct Hrok; unfold s, u32_MAX in *; lia. }
  destruct (IH cs1 Hok1) as (cs' & sent & Hrun & Hok' & Hi & Hp & Hsch & Hg & Hrest); [|done|done|].
  { intros k c. cbn. rewrite lookup_delete_Some, <- Hl, elem_of_cons. split.
    - intros Hk. assert (k ∈ l.*1) by (apply list_elem_of_fmap; by exists (k, c)). split; [by intros ->|by right].
    - intros [Hne [[= -> ->]|Hk]]; done. }
  change (cs_synced_commit_index cs0) with (cs_synced_commit_index cs).
  case_decide as Hdone.
  - assert (cs1 = cs0) as Heq by (unfold cs1, s; rewrite N.max_l by lia; by destruct cs). rewrite Heq in *.
    exists cs', sent. split_and!; try done.
  - destruct (Hcore commits) as (missing & -> & Hm).
    destruct (mapM_total (λ r, authority (committee (cs_context cs0)) (ref_author r)) (λ _ _, True) missing) as (auths & -> & _).
    { intros k Hk. change (cs_context cs0) with (cs_context cs). rewrite (sy_context _ _ Hok).
      destruct (authority_valid (committee ctx) (ref_author k)) as [x Hx]; [by apply Hm|by exists x]. }
    run_bind. fold s. fold cs1. rewrite Hrun. run_bind. exists cs', (commits :: sent). split_and!; try done.
    eapply (gapless_cons _ (CommitRange_start r) (CommitRange_end r)); [by apply (sy_fetched _ _ Hok)|lia|lia|].
    replace (CommitRange_end r) with (cs_synced_commit_index cs1) by (unfold cs1, s; cbn; lia). done.
Qed.

(** ** A finished fetch *)

(** What verified commits are: a non-empty prefix of the range. *)
Definition fetch_ok (r : CommitRange) (commits : CertifiedCommits) : Prop :=
  ∃ e, (CommitRange_start r ≤ e ≤ CommitRange_end r)%N ∧ indices_are commits (CommitRange_start r) e.

Lemma finish_task_perm r l : r ∈ l → l ≡ₚ r :: finish_task r l.
Proof.
  induction l as [|x l IH]; intros Hr; [by apply elem_of_nil in Hr|]. cbn. case_decide as Hx; [by subst|].
  apply elem_of_cons in Hr as [?|Hr]; [congruence|]. rewrite Permutation_swap. f_equiv. by apply IH.
Qed.

Lemma indices_ends commits a b : (a ≤ b)%N → indices_are commits a b →
  ∃ first last_, head (certified_commits commits) = Some first ∧ cc_index first = a ∧
    last (certified_commits commits) = Some last_ ∧ cc_index last_ = b.
Proof.
  intros Hab Hi. unfold indices_are in Hi. set (l := certified_commits commits) in *.
  assert (length l = N.to_nat (b + 1 - a)) as Hlen by (by rewrite <- (length_fmap cc_index), Hi, rangeN_length).
  assert (head (cc_index <$> l) = Some a) as Hh by (rewrite Hi, rangeN_cons by lia; done).
  assert (last (cc_index <$> l) = Some b) as Hl.
  { rewrite last_lookup, Hi, rangeN_length. rewrite rangeN_lookup by lia. f_equal. lia. }
  rewrite fmap_last in Hl. destruct l as [|x k] eqn:Hk; [done|]. destruct (last (x :: k)) as [y|]; [|done].
  exists x, y. cbn in Hh, Hl. injection Hh as Hh. injection Hl as Hl. done.
Qed.

(** Commits that remain to be fetched. *)
Definition remaining (cs : CommitSyncer) : nat := sum_list_with range_size (wanted cs).

Lemma sum_list_with_perm {A} (f : A → nat) l k : l ≡ₚ k → sum_list_with f l = sum_list_with f k.
Proof. induction 1; cbn; lia. Qed.

(** The parts of a range that are left after its commits up to [e] arrived. *)
Definition rest_of (r : CommitRange) (e : N) : list CommitRange :=
  if decide (e < CommitRange_end r)%N then [CommitRange_new (e + 1) (CommitRange_end r)] else [].
Definition kept_of (r : CommitRange) (e synced : N) : list CommitRange :=
  if decide (synced < e)%N then [CommitRange_new (CommitRange_start r) e] else [].

Lemma parts_ok r e synced (P := rest_of r e ++ kept_of r e synced) :
  range_ok r → (CommitRange_start r ≤ e ≤ CommitRange_end r)%N →
  (∀ p, p ∈ P → range_ok p ∧ (CommitRange_end p ≤ CommitRange_end r)%N) ∧
  (∀ i, occurrences i P ≤ occurrences i [r]) ∧
  (∀ i, (synced < i)%N → in_range i r → 1 ≤ occurrences i P) ∧
  sum_list_with range_size (rest_of r e) < range_size r.
Proof.
  intros [H0 Hle Hmax] He. unfold P, rest_of, kept_of.
  destruct (range_new_ok (CommitRange_start r) e) as (Hok1 & Hs1 & He1); [lia|lia|].
  destruct (decide (e < CommitRange_end r)%N) as [Hlt|Hge].
  - destruct (range_new_ok (e + 1) (CommitRange_end r)) as (Hok2 & Hs2 & He2); [lia|lia|].
    generalize dependent (CommitRange_new (e + 1) (CommitRange_end r)). intros p2 Hok2 Hs2 He2.
    generalize dependent (CommitRange_new (CommitRange_start r) e). intros p1 Hok1 Hs1 He1.
    assert (range_size p2 < range_size r) as Hsize by (unfold range_size; lia).
    destruct (decide (synced < e)%N); cbn [app sum_list_with]; (split_and!; [|intros i..|cbn; lia]).
    + intros p [->|[->|?%elem_of_nil]%elem_of_cons]%elem_of_cons; [split; [done|lia]..|done].
    + rewrite !occurrences_cons. unfold in_range, occurrences. cbn. repeat case_decide; lia.
    + rewrite !occurrences_cons. unfold in_range, occurrences. cbn. repeat case_decide; lia.
    + intros p [->|?%elem_of_nil]%elem_of_cons; [split; [done|lia]|done].
    + rewrite !occurrences_cons. unfold in_range, occurrences. cbn. repeat case_decide; lia.
    + rewrite !occurrences_cons. unfold in_range, occurrences. cbn. repeat case_decide; lia.
  - generalize dependent (CommitRange_new (CommitRange_start r) e). intros p1 Hok1 Hs1 He1.
    destruct (decide (synced < e)%N); cbn [app sum_list_with]; (split_and!; [|intros i..|unfold range_size; cbn; lia]).
    + intros p [->|?%elem_of_nil]%elem_of_cons; [split; [done|lia]|done].
    + rewrite !occurrences_cons. unfold in_range, occurrences. cbn. repeat case_decide; lia.
    + rewrite !occurrences_cons. unfold in_range, occurrences. cbn. repeat case_decide; lia.
    + by intros p ?%elem_of_nil.
    + cbn. lia.
    + unfold in_range. lia.
Qed.

(** The state in which the fetched ranges are processed. *)
Definition arrived (cs : CommitSyncer) (r : CommitRange) (e : N) (commits : CertifiedCommits) (synced : N) : CommitSyncer :=
  mkCommitSyncer (cs_context cs) (finish_task r (cs_inflight_fetches cs))
    (list_to_set (rest_of r e) ∪ cs_pending_fetches cs)
    (list_to_map ((λ k, (k, commits)) <$> kept_of r e synced) ∪ cs_fetched_ranges cs)
    (cs_highest_scheduled_index cs) (N.max (cs_highest_fetched_commit_index cs) e) synced.

Lemma handle_fetch_result_eq ctx core cs r e commits lci (synced := N.max (cs_synced_commit_index cs) lci) :
  syncer_ok ctx cs → range_ok r → (CommitRange_start r ≤ e ≤ CommitRange_end r)%N →
  indices_are commits (CommitRange_start r) e →
  handle_fetch_result core (set_inflight (finish_task r (cs_inflight_fetches cs)) cs) (CommitRange_end r) commits lci =
    process_fetched core (arrived cs r e commits synced)
      (map_in_order CommitRange_le (cs_fetched_ranges (arrived cs r e commits synced))).
Proof.
  intros Hok [_ _ Hmax] He Hi. destruct (indices_ends commits (CommitRange_start r) e) as (x & y & Hx & Hxi & Hy & Hyi); [lia|done|].
  unfold handle_fetch_result. rewrite Hx, Hy. cbn [unwrap]. run_bind. rewrite Hxi, Hyi.
  unfold arrived, rest_of, kept_of. unfold u32_MAX in Hmax. fold synced.
  cbn [cs_synced_commit_index cs_pending_fetches cs_fetched_ranges set_inflight set_highest_fetched set_synced set_pending set_fetched].
  destruct (decide (e < CommitRange_end r)%N) as [Hlt|Hge].
  - rewrite wrap_add_small by lia.
    cbn [cs_synced_commit_index cs_fetched_ranges set_inflight set_highest_fetched set_synced set_pending set_fetched]. fold synced.
    destruct (decide (synced < e)%N); unfold set_fetched, set_synced, set_pending, set_highest_fetched, set_inflight; cbn;
      rewrite <- ?insert_union_l, ?(right_id_L ∅ (∪)), ?(left_id_L ∅ (∪)); done.
  - cbn [cs_synced_commit_index cs_fetched_ranges set_inflight set_highest_fetched set_synced set_pending set_fetched]. fold synced.
    destruct (decide (synced < e)%N); unfold set_fetched, set_synced, set_pending, set_highest_fetched, set_inflight; cbn;
      rewrite <- ?insert_union_l, ?(left_id_L ∅ (∪)); done.
Qed.

(** Parts of a fetched range are not tracked yet. *)
Lemma part_fresh ctx cs r T p i :
  syncer_ok ctx cs → tracked cs ≡ₚ r :: T → in_range i r → in_range i p → p ∉ T.
Proof.
  intros Hok Ht Hr Hp Hin. pose proof (sy_once _ _ Hok i) as Ho. rewrite (occurrences_perm _ _ _ Ht), occurrences_cons in Ho.
  rewrite decide_True in Ho by done. assert (1 ≤ occurrences i T); [|lia]. apply occurrences_pos. by exists p.
Qed.

Lemma arrived_tracked ctx cs r e commits synced
    (T := finish_task r (cs_inflight_fetches cs) ++ elements (cs_pending_fetches cs) ++ elements (dom (cs_fetched_ranges cs))) :
  syncer_ok ctx cs → tracked cs ≡ₚ r :: T → range_ok r → (CommitRange_start r ≤ e ≤ CommitRange_end r)%N →
  wanted (arrived cs r e commits synced) ≡ₚ rest_of r e ++ finish_task r (cs_inflight_fetches cs) ++ elements (cs_pending_fetches cs) ∧
  tracked (arrived cs r e commits synced) ≡ₚ (rest_of r e ++ kept_of r e synced) ++ T.
Proof.
  intros Hok Ht Hr He. pose proof (rg_start _ Hr) as H0. pose proof (rg_bound _ Hr) as Hb. set (cs' := arrived _ _ _ _ _).
  assert (elements (cs_pending_fetches cs') ≡ₚ rest_of r e ++ elements (cs_pending_fetches cs)) as Hpend.
  { unfold cs', arrived, rest_of. cbn [cs_pending_fetches].
    case_decide; [|by rewrite list_to_set_nil, (left_id_L ∅ (∪))]. rewrite list_to_set_cons, list_to_set_nil, (right_id_L ∅ (∪)).
    apply elements_insert_range. destruct (range_new_ok (e + 1) (CommitRange_end r)) as (? & Hs2 & He2); [lia|lia|].
    intros Hin. eapply (part_fresh ctx cs r T (CommitRange_new (e + 1) (CommitRange_end r)) (CommitRange_end r) Hok Ht); [unfold in_range; lia..|].
    unfold T. rewrite !elem_of_app, elem_of_elements. auto. }
  assert (elements (dom (cs_fetched_ranges cs')) ≡ₚ kept_of r e synced ++ elements (dom (cs_fetched_ranges cs))) as Hf.
  { unfold cs', arrived, kept_of. cbn [cs_fetched_ranges]. case_decide; cbn [app]; [|by rewrite fmap_nil, list_to_map_nil, (left_id_L ∅ (∪))].
    rewrite fmap_cons, fmap_nil, list_to_map_cons, list_to_map_nil. rewrite <- insert_union_l, (left_id_L ∅ (∪)), dom_insert_L.
    apply elements_insert_range. destruct (range_new_ok (CommitRange_start r) e) as (? & Hs2 & He2); [lia|lia|].
    intros Hin. eapply (part_fresh ctx cs r T (CommitRange_new (CommitRange_start r) e) (CommitRange_start r) Hok Ht); [unfold in_range; lia..|].
    unfold T. rewrite !elem_of_app, !elem_of_elements. auto. }
  assert (wanted cs' ≡ₚ rest_of r e ++ finish_task r (cs_inflight_fetches cs) ++ elements (cs_pending_fetches cs)) as Hw.
  { unfold wanted. rewrite Hpend. change (cs_inflight_fetches cs') with (finish_task r (cs_inflight_fetches cs)).
    rewrite !app_assoc. f_equiv. apply Permutation_app_comm. }
  split; [done|]. unfold tracked. rewrite Hw, Hf. unfold T.
  rewrite <- !app_assoc. f_equiv.
  rewrite (Permutation_app_swap_app (elements (cs_pending_fetches cs))). apply Permutation_app_swap_app.
Qed.

Lemma arrived_ok ctx cs r e commits synced (cs' := arrived cs r e commits synced) :
  syncer_ok ctx cs → r ∈ cs_inflight_fetches cs → (CommitRange_start r ≤ e ≤ CommitRange_end r)%N →
  indices_are commits (CommitRange_start r) e → (cs_synced_commit_index cs ≤ synced < u32_MAX)%N →
  syncer_ok ctx cs' ∧ scheduled cs' = scheduled cs ∧ remaining cs' < remaining cs.
Proof.
  intros Hok Hr He Hi Hs.
  assert (r ∈ tracked cs) as Hin by (unfold tracked, wanted; rewrite !elem_of_app; auto).
  destruct (sy_ranges _ _ Hok r Hin) as [Hrok _].
  assert (wanted cs ≡ₚ r :: finish_task r (cs_inflight_fetches cs) ++ elements (cs_pending_fetches cs)) as Hw.
  { unfold wanted. by rewrite (finish_task_perm r (cs_inflight_fetches cs)) at 1. }
  pose proof Hw as Ht. apply (Permutation_app_tail (elements (dom (cs_fetched_ranges cs)))) in Ht.
  change (tracked cs ≡ₚ r :: (finish_task r (cs_inflight_fetches cs) ++ elements (cs_pending_fetches cs)) ++ elements (dom (cs_fetched_ranges cs))) in Ht.
  rewrite <- app_assoc in Ht.
  destruct (arrived_tracked ctx cs r e commits synced Hok Ht Hrok He) as [Hw' Ht']. fold cs' in Hw', Ht'.
  destruct (parts_ok r e synced Hrok He) as (HP & Hocc & Hcov & Hsize).
  split_and!; [|done|].
  - eapply (replace_range ctx cs cs' r _ _ Hok (sy_context _ _ Hok) eq_refl Hs Ht Ht' HP Hocc Hcov).
    intros k c Hk. unfold cs', arrived, kept_of in Hk. cbn [cs_fetched_ranges] in Hk. apply lookup_union_Some_raw in Hk as [Hk|[_ Hk]].
    + case_decide; [|done]. cbn in Hk. apply lookup_singleton_Some in Hk as [<- <-].
      destruct (range_new_ok (CommitRange_start r) e) as (_ & -> & ->); [destruct Hrok; lia..|done].
    + by apply (sy_fetched _ _ Hok).
  - unfold remaining. rewrite (sum_list_with_perm _ _ _ Hw), (sum_list_with_perm _ _ _ Hw'), sum_list_with_app. cbn [sum_list_with]. lia.
Qed.

(** What a syncer that runs no fetch has done. *)
Lemma idle_syncer ctx cs :
  syncer_ok ctx cs → wanted cs = [] →
  (∀ r, r ∈ dom (cs_fetched_ranges cs) → (cs_synced_commit_index cs + 1 < CommitRange_start r)%N) →
  cs_fetched_ranges cs = ∅ ∧ (scheduled cs ≤ cs_synced_commit_index cs)%N.
Proof.
  intros Hok Hw Hf. assert (∀ r, r ∈ tracked cs → r ∈ dom (cs_fetched_ranges cs)) as Ht.
  { intros r. unfold tracked. by rewrite Hw, app_nil_l, elem_of_elements. }
  assert (scheduled cs ≤ cs_synced_commit_index cs)%N as Hle.
  { destruct (decide (scheduled cs ≤ cs_synced_commit_index cs)%N) as [|Hgt]; [done|].
    pose proof (sy_cover _ _ Hok (cs_synced_commit_index cs + 1)%N ltac:(lia)) as (r & Hr & Hi)%occurrences_pos.
    apply Ht, Hf in Hr. unfold in_range in Hi. lia. }
  split; [|done]. apply dom_empty_iff_L, set_eq. intros r. split; [|set_solver]. intros Hr.
  destruct (sy_ranges _ _ Hok r) as [[_ ? _] ?]; [|specialize (Hf r Hr); lia].
  unfold tracked. by rewrite Hw, app_nil_l, elem_of_elements.
Qed.

(** A finished fetch, handled as a whole. *)
Lemma on_fetched_spec ctx core cs r commits lci peers :
  core_ok (committee ctx) core → syncer_ok ctx cs → r ∈ cs_inflight_fetches cs → fetch_ok r commits → (lci < u32_MAX)%N →
  ∃ cs' sent, on_fetched core cs r commits lci peers = Done (cs', sent, true) ∧ syncer_ok ctx cs' ∧
    scheduled cs' = scheduled cs ∧ remaining cs' < remaining cs ∧
    gapless (N.max (cs_synced_commit_index cs) lci) sent (cs_synced_commit_index cs') ∧
    (∀ k, k ∈ dom (cs_fetched_ranges cs') → (cs_synced_commit_index cs' + 1 < CommitRange_start k)%N) ∧
    (cs_inflight_fetches cs' = [] → wanted cs' = []).
Proof.
  intros Hcore Hok Hr (e & He & Hi) Hlci. pose proof (sy_synced _ _ Hok) as Hsy.
  assert (range_ok r) as Hrok by (apply (sy_ranges _ _ Hok); unfold tracked, wanted; rewrite !elem_of_app; auto).
  unfold on_fetched. rewrite (handle_fetch_result_eq ctx core cs r e commits lci Hok Hrok He Hi).
  set (synced := N.max (cs_synced_commit_index cs) lci). set (cs1 := arrived cs r e commits synced).
  destruct (arrived_ok ctx cs r e commits synced) as (Hok1 & Hsch1 & Hrem1); [done|done|done|done|unfold synced; lia|]. fold cs1 in Hok1, Hsch1, Hrem1.
  destruct (process_fetched_spec ctx core cs1 (map_in_order CommitRange_le (cs_fetched_ranges cs1)))
    as (cs2 & sent & -> & Hok2 & Hi2 & Hp2 & Hsch2 & Hg & Hrest); [done|done| | | |].
  { intros k c. apply elem_of_map_in_order. }
  { rewrite map_in_order_keys. apply NoDup_stable_sort, NoDup_elements. }
  { rewrite map_in_order_keys. apply set_in_order_sorted; apply _. }
  run_bind. destruct (try_start_fetches_spec ctx cs2 peers Hok2) as (Hok3 & Hw3 & Hsch3 & Hsy3 & Hf3 & Hidle).
  set (cs3 := try_start_fetches cs2 peers) in *. exists cs3, sent. split_and!; [done|done|by rewrite Hsch3, Hsch2| | | |done].
  - unfold remaining. rewrite (sum_list_with_perm _ _ _ Hw3). unfold wanted at 1. rewrite Hi2, Hp2. exact Hrem1.
  - rewrite Hsy3. exact Hg.
  - rewrite Hf3, Hsy3. exact Hrest.
Qed.

(** ** Runs of the scheduler *)

Section runs.
Context (ctx : Context) (start : N).
Abbreviation step := (commit_sync_batch_size (parameters ctx)).

(** One finished fetch that brought verified commits; [sent] is what Core received. *)
Definition fetch_step (cs : CommitSyncer) (sent : list CertifiedCommits) (cs' : CommitSyncer) : Prop :=
  ∃ core r commits lci peers ok, core_ok (committee ctx) core ∧ r ∈ cs_inflight_fetches cs ∧ fetch_ok r commits ∧
    (lci < u32_MAX)%N ∧ on_fetched core cs r commits lci peers = Done (cs', sent, ok).

Definition tick_step (cs cs' : CommitSyncer) : Prop :=
  ∃ q local handled peers, (q + step < u32_MAX)%N ∧ (local < u32_MAX)%N ∧ on_tick cs q local handled peers = Done cs'.

Inductive syncer_reachable : CommitSyncer → Prop :=
  | reachable_new : syncer_reachable (CommitSyncer_new ctx start)
  | reachable_tick cs cs' : syncer_reachable cs → tick_step cs cs' → syncer_reachable cs'
  | reachable_fetched cs sent cs' : syncer_reachable cs → fetch_step cs sent cs' → syncer_reachable cs'.

(** Runs of finished fetches, with their number. *)
Inductive fetch_run : CommitSyncer → nat → list CertifiedCommits → CommitSyncer → Prop :=
  | fetch_run_nil cs : fetch_run cs 0 [] cs
  | fetch_run_snoc cs n sent cs' sent' cs'' :
      fetch_run cs n sent cs' → fetch_step cs' sent' cs'' → fetch_run cs (Datatypes.S n) (sent ++ sent') cs''.

Record run_ok (cs : CommitSyncer) : Prop := {
  run_syncer : syncer_ok ctx cs;
  run_idle : cs_inflight_fetches cs = [] → wanted cs = [] ∧ cs_fetched_ranges cs = ∅;
}.

Lemma new_ok : (start < u32_MAX)%N → run_ok (CommitSyncer_new ctx start).
Proof.
  intros Hs. assert (tracked (CommitSyncer_new ctx start) = []) as Ht by done.
  split; [|done]. split; rewrite ?Ht; try done.
  - by intros r ?%elem_of_nil.
  - intros i. cbn. lia.
  - intros i Hi. unfold scheduled in Hi. cbn in Hi. lia.
Qed.

Lemma on_tick_spec cs q local handled peers :
  run_ok cs → (0 < step)%N → (q + step < u32_MAX)%N → (local < u32_MAX)%N →
  ∃ cs', on_tick cs q local handled peers = Done cs' ∧ run_ok cs' ∧
    cs_synced_commit_index cs' = N.max (cs_synced_commit_index cs) local ∧ (scheduled cs ≤ scheduled cs')%N ∧
    ((q ≤ handled +₃₂ unhandled_commits_threshold cs)%N → (q < N.max (cs_synced_commit_index cs') (scheduled cs') + step)%N).
Proof.
  intros [Hok Hidle] Hstep Hq Hl. unfold on_tick.
  destruct (try_schedule_once_spec ctx cs q local handled Hok Hstep Hq Hl) as (cs1 & -> & Hok1 & Hi1 & Hf1 & Hs1 & Hsch1 & Hprog). run_bind.
  destruct (try_start_fetches_spec ctx cs1 peers Hok1) as (Hok2 & Hw2 & Hsch2 & Hs2 & Hf2 & Hidle2).
  set (cs2 := try_start_fetches cs1 peers) in *. exists cs2. split_and!; [done| |by rewrite Hs2|by rewrite Hsch2|by rewrite Hs2, Hsch2].
  split; [done|]. intros Hn. pose proof (Hidle2 Hn) as Hw. split; [done|]. rewrite Hf2, Hf1. apply Hidle.
  rewrite Hw in Hw2. symmetry in Hw2. apply Permutation_nil_r in Hw2. unfold wanted in Hw2. apply app_eq_nil in Hw2 as [Hw2 _]. by rewrite Hi1 in Hw2.
Qed.

Lemma on_fetched_run core cs r commits lci peers :
  run_ok cs → core_ok (committee ctx) core → r ∈ cs_inflight_fetches cs → fetch_ok r commits → (lci < u32_MAX)%N →
  ∃ cs' sent, on_fetched core cs r commits lci peers = Done (cs', sent, true) ∧ run_ok cs' ∧
    scheduled cs' = scheduled cs ∧ remaining cs' < remaining cs ∧
    gapless (N.max (cs_synced_commit_index cs) lci) sent (cs_synced_commit_index cs').
Proof.
  intros [Hok _] Hcore Hr Hf Hl.
  destruct (on_fetched_spec ctx core cs r commits lci peers Hcore Hok Hr Hf Hl) as (cs' & sent & Hrun & Hok' & Hsch & Hrem & Hg & Hrest & Hidle).
  exists cs', sent. split_and!; try done. split; [done|]. intros Hn%Hidle. split; [done|]. by eapply idle_syncer.
Qed.

Lemma fetch_step_ok cs sent cs' :
  run_ok cs → fetch_step cs sent cs' → run_ok cs' ∧ scheduled cs' = scheduled cs ∧ remaining cs' < remaining cs.
Proof.
  intros Hok (core & r & commits & lci & peers & ok & Hcore & Hr & Hf & Hl & Hrun).
  destruct (on_fetched_run core cs r commits lci peers Hok Hcore Hr Hf Hl) as (cs1 & sent1 & Hrun1 & Hok1 & Hsch & Hrem & _).
  rewrite Hrun in Hrun1. by simplify_eq.
Qed.

Lemma reachable_ok cs : (0 < step)%N → (start < u32_MAX)%N → syncer_reachable cs → run_ok cs.
Proof.
  intros Hstep Hstart. induction 1 as [|cs cs' _ IH (q & local & handled & peers & Hq & Hl & Hrun)|cs sent cs' _ IH Hf].
  - by apply new_ok.
  - destruct (on_tick_spec cs q local handled peers IH Hstep Hq Hl) as (cs1 & Hrun1 & Hok & _). rewrite Hrun in Hrun1. by simplify_eq.
  - by destruct (fetch_step_ok cs sent cs').
Qed.

Lemma idle_synced cs : run_ok cs → cs_inflight_fetches cs = [] →
  cs_pending_fetches cs = ∅ ∧ cs_fetched_ranges cs = ∅ ∧ (scheduled cs ≤ cs_synced_commit_index cs)%N.
Proof.
  intros [Hok Hidle] Hi. destruct (Hidle Hi) as [Hw Hf].
  destruct (idle_syncer ctx cs Hok Hw) as [_ Hle]; [rewrite Hf, dom_empty_L; set_solver|]. split_and!; [|done|done].
  unfold wanted in Hw. apply app_eq_nil in Hw as [_ Hw]. by apply elements_empty_inv, leibniz_equiv in Hw.
Qed.

(** C11: the scheduler keeps track of every commit. In every state the commit syncer
    reaches, no commit is in two of the ranges that are running, waiting or fetched;
    every scheduled commit above the synced ones is in one; and when no fetch runs,
    nothing is left over: no range waits, none is held back, and everything
    scheduled is synced. Handling a tick or a finished fetch never fails, a tick
    schedules up to less than one batch below the quorum commit index unless the
    consumer is behind, and what a finished fetch sends to Core continues the synced
    commits in order and without a gap. *)
Theorem commit_sync_invariant cs :
  (0 < step)%N → (start < u32_MAX)%N → syncer_reachable cs →
  (∀ i, occurrences i (tracked cs) ≤ 1 ∧
    ((cs_synced_commit_index cs < i ≤ scheduled cs)%N → occurrences i (tracked cs) = 1)) ∧
  (cs_inflight_fetches cs = [] →
    cs_pending_fetches cs = ∅ ∧ cs_fetched_ranges cs = ∅ ∧ (scheduled cs ≤ cs_synced_commit_index cs)%N) ∧
  (∀ q local handled peers, (q + step < u32_MAX)%N → (local < u32_MAX)%N →
    ∃ cs', on_tick cs q local handled peers = Done cs' ∧
      cs_synced_commit_index cs' = N.max (cs_synced_commit_index cs) local ∧ (scheduled cs ≤ scheduled cs')%N ∧
      ((q ≤ handled +₃₂ unhandled_commits_threshold cs)%N →
        (q < N.max (cs_synced_commit_index cs') (scheduled cs') + step)%N)) ∧
  (∀ core r commits lci peers, core_ok (committee ctx) core → r ∈ cs_inflight_fetches cs → fetch_ok r commits →
    (lci < u32_MAX)%N →
    ∃ cs' sent, on_fetched core cs r commits lci peers = Done (cs', sent, true) ∧ scheduled cs' = scheduled cs ∧
      gapless (N.max (cs_synced_commit_index cs) lci) sent (cs_synced_commit_index cs')).
Proof.
  intros Hstep Hstart Hr. pose proof (reachable_ok cs Hstep Hstart Hr) as Hok. split_and!.
  - intros i. pose proof (sy_once _ _ (run_syncer _ Hok) i) as Ho. split; [done|].
    intros Hi%(sy_cover _ _ (run_syncer _ Hok)). lia.
  - by apply idle_synced.
  - intros q local handled peers Hq Hl. destruct (on_tick_spec cs q local handled peers Hok Hstep Hq Hl) as (cs' & ? & _ & ? & ? & ?). by exists cs'.
  - intros core r commits lci peers Hcore Hin Hf Hl.
    destruct (on_fetched_run core cs r commits lci peers Hok Hcore Hin Hf Hl) as (cs' & sent & ? & _ & ? & _ & ?). by exists cs', sent.
Qed.

(** C12: catching up terminates. From any state the syncer reaches, at most as many
    fetches can finish as there are commits left to fetch; while a fetch is running
    its result can always be handled; and once none is running, every commit that
    was scheduled is synced. *)
Theorem commit_sync_progress cs n sent cs' :
  (0 < step)%N → (start < u32_MAX)%N → syncer_reachable cs → fetch_run cs n sent cs' →
  n ≤ remaining cs ∧
  (∀ core r commits lci peers, core_ok (committee ctx) core → r ∈ cs_inflight_fetches cs' → fetch_ok r commits →
    (lci < u32_MAX)%N →
    ∃ cs'' sent', on_fetched core cs' r commits lci peers = Done (cs'', sent', true) ∧
      fetch_run cs (Datatypes.S n) (sent ++ sent') cs'') ∧
  (cs_inflight_fetches cs' = [] → (scheduled cs ≤ cs_synced_commit_index cs')%N).
Proof.
  intros Hstep Hstart Hr Hrun.
  assert (run_ok cs' ∧ scheduled cs' = scheduled cs ∧ n + remaining cs' ≤ remaining cs) as (Hok & Hsch & Hn).
  { induction Hrun as [cs|cs n sent cs' sent' cs'' _ IH Hf].
    - split_and!; [by apply reachable_ok|done|lia].
    - destruct IH as (Hok & Hsch & Hn); [done|]. destruct (fetch_step_ok cs' sent' cs'' Hok Hf) as (? & ? & ?).
      split_and!; [done|congruence|lia]. }
  split_and!; [lia| |].
  - intros core r commits lci peers Hcore Hin Hf Hl.
    destruct (on_fetched_run core cs' r commits lci peers Hok Hcore Hin Hf Hl) as (cs'' & sent' & Hrun' & _).
    exists cs'', sent'. split; [done|]. econstructor; [done|]. by exists core, r, commits, lci, peers, true.
  - intros Hi. rewrite <- Hsch. by apply idle_synced.
Qed.

End runs.

(** ** A concrete scheduler *)

(** Batches of two commits. *)
Definition syncing_context : Context :=
  Context_new 0 (Some 0%N) committee_4 (mkParameters 2 2 false 50 10 8 32 1000)
    (mkProtocolConfig 1000 10000 100 1 true (Some 1%N) 20 false 600 60).

Definition numbered_commit (i : N) : CertifiedCommit :=
  mkCertifiedCommit (mkTrustedCommit (Commit_new i 0 0 (mkBlockRef i 0 i) [mkBlockRef i 0 i]) i []) [].

Definition fetched_commits (l : list N) : CertifiedCommits := mkCertifiedCommits (numbered_commit <$> l) [].

(** A node at commit 1 learns of a quorum at commit 6 and starts two fetches. *)
Definition syncing : CommitSyncer :=
  mkCommitSyncer syncing_context [CommitRange_new 2 3; CommitRange_new 4 5] ∅ ∅ (Some 5%N) 0 1.

Lemma syncing_run : on_tick (CommitSyncer_new syncing_context 1) 6 0 0 4 = Done syncing.
Proof. vm_compute. reflexivity. Qed.

Lemma syncing_reachable : syncer_reachable syncing_context 1 syncing.
Proof.
  apply (reachable_tick _ _ (CommitSyncer_new syncing_context 1)); [constructor|].
  exists 6%N, 0%N, 0%N, 4%N. split_and!; [done|done|exact syncing_run].
Qed.

Definition quiet_core (_ : CertifiedCommits) : option (list BlockRef) := Some [mkBlockRef 1 2 9].

Lemma quiet_core_ok : core_ok (committee syncing_context) quiet_core.
Proof. intros x. exists [mkBlockRef 1 2 9]. split; [done|]. intros r ->%list_elem_of_singleton. done. Qed.

Lemma later_fetch_ok : fetch_ok (CommitRange_new 4 5) (fetched_commits [4; 5]%N).
Proof. exists 5%N. split; [split; by vm_compute|reflexivity]. Qed.

(** The second range arrives first and is held. *)
Lemma commit_sync_invariant_witness :
  ∃ cs', on_fetched quiet_core syncing (CommitRange_new 4 5) (fetched_commits [4; 5]%N) 1 4 = Done (cs', [], true) ∧
    gapless 1 [] (cs_synced_commit_index cs') ∧ occurrences 4 (tracked syncing) = 1.
Proof.
  destruct (commit_sync_invariant syncing_context 1 syncing) as (Hocc & _ & _ & Hf); [by vm_compute|by vm_compute|exact syncing_reachable|].
  destruct (Hf quiet_core (CommitRange_new 4 5) (fetched_commits [4; 5]%N) 1%N 4%N) as (cs' & sent & Hrun & _ & Hg);
    [exact quiet_core_ok|apply elem_of_cons; right; apply list_elem_of_singleton; reflexivity|exact later_fetch_ok|by vm_compute|].
  exists cs'. assert (sent = []) as -> by (vm_compute in Hrun; congruence).
  split; [exact Hrun|]. split; [exact Hg|]. apply Hocc. split; by vm_compute.
Defined.

Lemma commit_sync_progress_witness :
  remaining syncing = 4 ∧
  ∃ cs' sent, on_fetched quiet_core syncing (CommitRange_new 4 5) (fetched_commits [4; 5]%N) 1 4 = Done (cs', sent, true) ∧
    fetch_run syncing_context syncing 1 ([] ++ sent) cs'.
Proof.
  split; [by vm_compute|].
  destruct (commit_sync_progress syncing_context 1 syncing 0 [] syncing) as (_ & Hf & _);
    [by vm_compute|by vm_compute|exact syncing_reachable|constructor|].
  apply Hf; [exact quiet_core_ok|apply elem_of_cons; right; apply list_elem_of_singleton; reflexivity|exact later_fetch_ok|by vm_compute].
Defined.
