(* ===== verification/CommitFetchSpec.v ===== *)
(** * What the commit syncer fetches

    Commits that pass verification are the commits of the network, and they come
    with exactly their blocks, whatever the peer sends; verification and assembly
    never panic; and the answer of a correct peer is accepted. *)

From S2P Require Import Prelude Committee Block StakeAggregator ThresholdClock Commit Store QuorumScan RoundTracker.
From S2P Require Import DagState DagInvariant DagDurability CommitVoteMonitor CausalHistory BlockVerifier TransactionVoteTracker.
From S2P Require Import CommitSyncer CommitSyncerSpec.

Lemma zip_debug_eq_done {A B} debug (l : list A) (k : list B) :
  length l ≤ length k → (debug = true → length l = length k) → zip_debug_eq debug l k = Done (zip l k).
Proof.
  revert k. induction l as [|a l IH]; intros k Hle Hd.
  - destruct k; cbn; [done|]. destruct debug; [by specialize (Hd eq_refl)|done].
  - destruct k as [|b k]; cbn in *; [lia|]. rewrite IH; [done|lia|]. intros Hdb. specialize (Hd Hdb). lia.
Qed.

Section fetch.
Context `{BlockCodec} `{BlockCrypto} `{TransactionVerifier} `{FetchCodec}.

(** ** Parsed commits *)

(** [out] are the commits of the serialized commits [ss], linked from the start of
    the range on. *)
Record parsed (range : CommitRange) (ss : list (list N)) (out : list (N * Commit)) : Prop := {
  pa_decoded : Forall2 (λ s p, bcs_commit_from s = Some p.2 ∧ p.1 = compute_digest s) ss out;
  pa_index j p : out !! j = Some p →
    Commit_index p.2 = (CommitRange_start range + N.of_nat j)%N ∧ (CommitRange_start range + N.of_nat j ≤ CommitRange_end range)%N;
  pa_linked j p q : out !! j = Some p → out !! Datatypes.S j = Some q → Commit_previous_digest q.2 = p.1;
}.

Lemma parsed_nil range : parsed range [] [].
Proof. split; [constructor|done|done]. Qed.

Lemma parsed_length range ss out : parsed range ss out → length ss = length out.
Proof. intros [Hd _ _]. by apply Forall2_length in Hd. Qed.

Lemma parsed_snoc range ss out s c :
  parsed range ss out → bcs_commit_from s = Some c →
  Commit_index c = (CommitRange_start range + N.of_nat (length out))%N → (Commit_index c ≤ CommitRange_end range)%N →
  (∀ p, last out = Some p → Commit_previous_digest c = p.1) →
  parsed range (ss ++ [s]) (out ++ [(compute_digest s, c)]).
Proof.
  intros [Hd Hi Hl] Hs Hidx Hle Hprev. split.
  - apply Forall2_app; [done|]. by repeat constructor.
  - intros j p Hj. apply lookup_snoc_Some in Hj as [[_ Hj]|[-> <-]]; [by apply Hi|]. cbn. split; [done|]. by rewrite <- Hidx.
  - intros j p q Hp Hq. apply lookup_snoc_Some in Hq as [[Hlt Hq]|[Hlen <-]].
    + rewrite lookup_app_l in Hp by lia. by eapply Hl.
    + cbn. apply Hprev. rewrite last_lookup, <- Hlen. cbn. rewrite lookup_app_l in Hp by lia. done.
Qed.

Lemma parse_commits_spec peer range ss out l res :
  range_ok range → parsed range ss out → parse_commits peer range out l = Ok res →
  ∃ k, k `prefix_of` l ∧ parsed range (ss ++ k) res ∧ (length ss + length l ≤ range_size range → k = l).
Proof.
  intros Hr. revert ss out. induction l as [|s l IH]; intros ss out Hp; cbn [parse_commits].
  { intros [= <-]. exists []. by rewrite app_nil_r. }
  destruct (bcs_commit_from s) as [c|] eqn:Hs; [|done].
  match goal with |- context [match ?x with Some e => Err e | None => _ end] => destruct x as [e|] eqn:Hchk end; [done|].
  assert (Commit_index c = (CommitRange_start range + N.of_nat (length out))%N ∧
    ∀ p, last out = Some p → Commit_previous_digest c = p.1) as [Hidx Hprev].
  { destruct (last out) as [[d c0]|] eqn:Hlast.
    - case_decide as Hd; [done|]. apply Decidable.not_or in Hd as [Hi Hpd]. split.
      + rewrite last_lookup in Hlast. destruct (pa_index _ _ _ Hp _ _ Hlast) as [Hi0 Hle0]. cbn in Hi0.
        assert (length out ≠ 0) by (intros Hn; destruct out; done).
        destruct Hr as [_ _ Hmax]. unfold u32_MAX in Hmax. rewrite wrap_add_small in Hi by lia.
        apply dec_stable in Hi. lia.
      + intros p [= <-]. cbn. by apply dec_stable in Hpd.
    - apply last_None in Hlast as ->. case_decide as Hd; [done|]. split; [cbn; lia|done]. }
  clear Hchk. case_decide as Hend.
  - intros [= <-]. exists []. rewrite app_nil_r. split_and!; [apply prefix_nil|done|].
    rewrite (parsed_length _ _ _ Hp). unfold range_size. cbn. intros Hlen. destruct Hr. exfalso. lia.
  - intros Hrun. destruct (IH (ss ++ [s]) (out ++ [(compute_digest s, c)])) as (k & Hk & Hpk & Hall);
      [apply parsed_snoc; [done..|lia|done]|done|].
    exists (s :: k). rewrite <- app_assoc in Hpk. split_and!; [by apply prefix_cons|done|].
    intros Hlen. f_equal. apply Hall. rewrite length_app. cbn in *. lia.
Qed.

(** ** The network *)

Context (ctx : Context) (f : N) (byz : gset N) (chain : N → option (list N)).
Abbreviation c := (committee ctx).

(** [chain] holds the serialized commits of the network; authorities in [byz] are
    faulty. Blocks that pass verification as blocks of a correct authority vote for
    commits of the chain; the commits link to each other; the digests of commits of
    the chain have no second preimage; a block is in one commit only. *)
Record network_ok : Prop := {
  nw_committee : committee_ok c;
  nw_quorums : quorums_intersect c f;
  nw_byz : (set_stake c byz ≤ f)%N;
  nw_sizes bytes sb : bcs_signed_block_from bytes = Some sb →
    (sumN (map lengthN (map data (Block_transactions (inner sb)))) < u64_modulus)%N;
  nw_votes v sb ref : bv_context v = ctx → block_accepted v sb → Block_author (inner sb) ∉ byz →
    ref ∈ Block_commit_votes (inner sb) →
    ∃ bytes, chain (cref_index ref) = Some bytes ∧ cref_digest ref = compute_digest bytes;
  nw_chain i bytes : chain i = Some bytes →
    ∃ commit, bcs_commit_from bytes = Some commit ∧ Commit_index commit = i ∧
      ((1 < i)%N → ∃ prev, chain (i - 1)%N = Some prev ∧ Commit_previous_digest commit = compute_digest prev);
  nw_digests i bytes s : chain i = Some bytes → compute_digest s = compute_digest bytes → s = bytes;
  nw_blocks i bytes commit : chain i = Some bytes → bcs_commit_from bytes = Some commit →
    NoDup (Commit_blocks commit) ∧ ∀ r, r ∈ Commit_blocks commit →
      (ref_author r < Committee_size c)%N ∧
      (∀ s sb a, bcs_signed_block_from s = Some sb → reference (new_verified sb s) = r →
        a ∈ Block_ancestors (inner sb) → (ref_author a < Committee_size c)%N) ∧
      (∀ j bytes' commit', chain j = Some bytes' → bcs_commit_from bytes' = Some commit' →
        r ∈ Commit_blocks commit' → j = i);
}.

(** The shared components. *)
Record inner_ok (si : SyncerInner) : Prop := {
  in_context : si_context si = ctx;
  in_verifier : bv_context (si_verifier si) = ctx;
  in_tracker : ∃ h, vote_tracker_ok ctx h (si_vote_tracker si);
  in_monitor : lengthN (cvm_highest_voted_commits (si_vote_monitor si)) = Committee_size c;
  in_rounds : tracker_ok ctx (si_round_tracker si);
}.

Context (Hnw : network_ok).

(** ** The votes for the last commit *)

Lemma verify_and_vote_accepts v sb bytes :
  bv_context v = ctx → bcs_signed_block_from bytes = Some sb →
  ∃ r, verify_and_vote v sb bytes = Done r ∧ ∀ b rejected, r = Ok (b, rejected) → b = new_verified sb bytes ∧ block_accepted v sb.
Proof using Hnw.
  intros Hv Hs. pose proof (verify_block_spec v sb) as Hd. rewrite Hv in Hd. specialize (Hd (nw_committee Hnw) (nw_sizes Hnw _ _ Hs)).
  unfold verify_and_vote. destruct (decides_done _ _ _ Hd) as [res Hres]. destruct res as [[]|e].
  - pose proof Hres as Hok. apply (decides_iff _ _ _ _ Hd) in Hok. destruct Hok as [Hok _]. rewrite Hres. cbn.
    destruct (transaction_voting_enabled _).
    + destruct (vote _) as [rj|e]; cbn; eexists; (split; [done|]); naive_solver.
    + destruct (verify_batch _) as [[]|e]; cbn; eexists; (split; [done|]); naive_solver.
  - rewrite Hres. cbn. eexists. split; [done|]. naive_solver.
Qed.

Lemma add_voted_ok st b own : (author b < Committee_size c)%N → (∃ h, vote_tracker_ok ctx h st) →
  ∃ st', add_voted_blocks st [(b, own)] = Done st' ∧ ∃ h, vote_tracker_ok ctx h st'.
Proof using Hnw.
  intros Hb [h Hst]. destruct (tracker_step_ok ctx h st (AddBlock b own) (nw_committee Hnw) Hb) as (st' & Hrun & Hok); [done|done|].
  cbn [tracker_step] in Hrun. exists st'. unfold add_voted_blocks. cbn [for_each]. rewrite Hrun. run_bind. split; [done|by eexists].
Qed.

(** The authorities counted are those with an accepted block that votes for the commit. *)
Definition votes_for (v : SignedBlockVerifier) (ref : CommitRef) (a : N) : Prop :=
  ∃ sb, block_accepted v sb ∧ Block_author (inner sb) = a ∧ ref ∈ Block_commit_votes (inner sb).

Lemma count_votes_eq ref (agg : StakeAggregator QuorumThreshold) b :
  agg_ok c agg → (author b < Committee_size c)%N →
  ∃ agg', count_votes c ref agg b = Done agg' ∧ agg_ok c agg' ∧
    votes agg' = (if decide (ref ∈ commit_votes b) then {[author b]} else ∅) ∪ votes agg.
Proof using Hnw.
  intros Hagg Hb. unfold count_votes. generalize (commit_votes b) as l. intros l. revert agg Hagg.
  induction l as [|x l IH]; intros agg Hagg; cbn [for_each].
  { exists agg. rewrite decide_False by set_solver. by rewrite union_empty_l_L. }
  assert (∃ g, (if decide (x = ref) then '(g, _) ← agg_add agg (author b) c; Done g else Done agg) = Done g ∧ agg_ok c g ∧
    votes g = (if decide (x = ref) then {[author b]} else ∅) ∪ votes agg) as (g & -> & Hg & Hv).
  { destruct (decide (x = ref)); [|exists agg; split_and!; [done|done|set_solver]].
    destruct (agg_add_spec c (nw_committee Hnw) agg (author b) Hagg Hb) as (g & -> & Hg & Hv). run_bind. by exists g. }
  run_bind. destruct (IH g Hg) as (agg' & Hrun & Hok & Hv'). exists agg'. split_and!; [exact Hrun|done|].
  rewrite Hv', Hv. repeat case_decide; set_solver.
Qed.

Lemma count_votes_spec v ref (agg : StakeAggregator QuorumThreshold) b :
  agg_ok c agg → (author b < Committee_size c)%N → bv_context v = ctx → block_accepted v (signed_block b) →
  (∀ a, a ∈ votes agg → votes_for v ref a) →
  ∃ agg', count_votes c ref agg b = Done agg' ∧ agg_ok c agg' ∧ ∀ a, a ∈ votes agg' → votes_for v ref a.
Proof using Hnw.
  intros Hagg Hb Hv Hacc Hvotes. destruct (count_votes_eq ref agg b Hagg Hb) as (agg' & Hrun & Hok & Hv').
  exists agg'. split_and!; [done|done|]. rewrite Hv'. intros a [Ha|Ha]%elem_of_union; [|by apply Hvotes].
  case_decide; [|set_solver]. apply elem_of_singleton in Ha as ->. by exists (signed_block b).
Qed.

Definition counted (v : SignedBlockVerifier) (ref : CommitRef) (agg : StakeAggregator QuorumThreshold) (bs : list VerifiedBlock) : Prop :=
  agg_ok c agg ∧ (∀ a, a ∈ votes agg → votes_for v ref a) ∧
  ∀ b, b ∈ bs → block_accepted v (signed_block b).

Lemma set_vote_tracker_ok si st : inner_ok si → (∃ h, vote_tracker_ok ctx h st) → inner_ok (set_vote_tracker st si).
Proof using. intros [] ?. by split. Qed.

Lemma track_vote si b rejects : inner_ok si → (author b < Committee_size c)%N →
  ∃ si', (if transaction_voting_enabled (protocol_config (si_context si))
    then st ← add_voted_blocks (si_vote_tracker si) [(b, rejects)]; Done (set_vote_tracker st si)
    else Done si) = Done si' ∧ inner_ok si' ∧ si_verifier si' = si_verifier si.
Proof using Hnw.
  intros Hsi Hb. destruct (transaction_voting_enabled _); [|by exists si].
  destruct (add_voted_ok (si_vote_tracker si) b rejects Hb (in_tracker _ Hsi)) as (st & -> & Hst). run_bind.
  eexists. split_and!; [done|by apply set_vote_tracker_ok|done].
Qed.

Lemma verify_vote_blocks_spec si v ref agg bs l :
  inner_ok si → si_verifier si = v → counted v ref agg bs →
  ∃ si' r, verify_vote_blocks si ref agg bs l = Done (si', r) ∧ inner_ok si' ∧
    ∀ agg' bs', r = Ok (agg', bs') → counted v ref agg' bs'.
Proof using Hnw.
  revert si agg bs. induction l as [|s l IH]; intros si agg bs Hsi Hv Hcount; cbn [verify_vote_blocks].
  { exists si, (Ok (agg, bs)). split_and!; [done|done|]. by intros ? ? [= <- <-]. }
  destruct (bcs_signed_block_from s) as [sb|] eqn:Hs; [|eexists _, _; by split_and!].
  assert (bv_context v = ctx) as Hvc by (rewrite <- Hv; apply Hsi). rewrite Hv.
  destruct (verify_and_vote_accepts v sb s Hvc Hs) as (r & -> & Hr). run_bind.
  destruct r as [[b rejects]|e]; [|eexists _, _; by split_and!]. destruct (Hr b rejects eq_refl) as [-> Hacc].
  assert (author (new_verified sb s) < Committee_size c)%N as Hauth.
  { pose proof (ba_author _ _ Hacc) as Ha. rewrite Hvc in Ha. exact Ha. }
  destruct (track_vote si (new_verified sb s) rejects Hsi Hauth) as (si1 & -> & Hsi1 & Hv1). rewrite Hv in Hv1. run_bind. rewrite (in_context _ Hsi1). destruct Hcount as (Hagg & Hvotes & Hbs).
  destruct (count_votes_spec v ref agg (new_verified sb s) Hagg Hauth Hvc Hacc Hvotes) as (agg1 & -> & Hagg1 & Hvotes1). run_bind.
  apply IH; [done|done|]. split_and!; [done|done|]. intros b [Hb|Hb]%elem_of_app; [by apply Hbs|].
  apply list_elem_of_singleton in Hb as ->. done.
Qed.

(** A quorum of votes includes one of a correct authority. *)
Lemma quorum_on_chain v ref (agg : StakeAggregator QuorumThreshold) bs :
  bv_context v = ctx → counted v ref agg bs → reached_threshold agg c = true →
  ∃ bytes, chain (cref_index ref) = Some bytes ∧ cref_digest ref = compute_digest bytes.
Proof using Hnw.
  intros Hv (Hagg & Hvotes & _) Hq. rewrite (reached_threshold_spec c agg Hagg) in Hq. apply bool_decide_eq_true in Hq.
  destruct (quorum_intersection c _ _ byz f (nw_committee Hnw) (nw_quorums Hnw) Hq Hq (nw_byz Hnw)) as (a & Ha & _ & Hn).
  destruct (Hvotes a Ha) as (sb & Hacc & <- & Hin). by eapply (nw_votes Hnw).
Qed.

(** Commits linked up to one of the chain are of the chain. *)
Lemma parsed_on_chain range ss out :
  range_ok range → parsed range ss out →
  (∀ p, last out = Some p → ∃ bytes, chain (Commit_index p.2) = Some bytes ∧ p.1 = compute_digest bytes) →
  ∀ j s p, ss !! j = Some s → out !! j = Some p → chain (Commit_index p.2) = Some s.
Proof using Hnw.
  intros Hr Hp Hlast. assert (∀ k j p, j + k = length out - 1 → out !! j = Some p →
    ∃ bytes, chain (Commit_index p.2) = Some bytes ∧ p.1 = compute_digest bytes) as Hback.
  { intros k. induction k as [|k IH]; intros j p Hj Hjp.
    - apply Hlast. rewrite last_lookup. by replace (pred (length out)) with j by lia.
    - destruct (lookup_lt_is_Some_2 out (Datatypes.S j)) as [q Hq]; [lia|].
      destruct (IH (Datatypes.S j) q ltac:(lia) Hq) as (bytes & Hch & Hdig).
      destruct (nw_chain Hnw _ _ Hch) as (commit & Hcommit & Hidx & Hprev).
      destruct (Forall2_lookup_r _ _ _ _ _ (pa_decoded _ _ _ Hp) Hq) as (s & _ & Hs & Hsd).
      assert (s = bytes) as -> by (eapply (nw_digests Hnw); [exact Hch|congruence]).
      rewrite Hs in Hcommit. simplify_eq.
      destruct (pa_index _ _ _ Hp _ _ Hq) as [Hqi _]. destruct (pa_index _ _ _ Hp _ _ Hjp) as [Hpi _].
      destruct Hr as [Hs0 _ _]. destruct Hprev as (prev & Hpc & Hpd); [lia|].
      exists prev. rewrite <- (pa_linked _ _ _ Hp _ _ _ Hjp Hq). split; [|done]. rewrite Hpi. by replace (Commit_index q.2 - 1)%N with (CommitRange_start range + N.of_nat j)%N in Hpc by lia. }
  intros j s p Hs Hjp. pose proof (lookup_lt_Some _ _ _ Hjp) as Hlt.
  destruct (Hback (length out - 1 - j) j p ltac:(lia) Hjp) as (bytes & Hch & Hdig).
  destruct (Forall2_lookup_lr _ _ _ _ _ _ (pa_decoded _ _ _ Hp) Hs Hjp) as [_ Hsd].
  rewrite Hch. f_equal. symmetry. eapply (nw_digests Hnw); [exact Hch|congruence].
Qed.

(** ** Verified commits *)

Definition on_chain (tc : TrustedCommit) : Prop :=
  chain (tc_index tc) = Some (tc_serialized tc) ∧ bcs_commit_from (tc_serialized tc) = Some (tc_inner tc) ∧
  tc_digest tc = compute_digest (tc_serialized tc).

Lemma zip_prefix {A B} (l : list A) (k rest : list B) : length l = length k → zip l (k ++ rest) = zip l k.
Proof using. revert k. induction l as [|x l IH]; intros [|y k] Hlen; cbn in *; [done..|]. by rewrite IH by lia. Qed.

(** The commits made of parsed ones. *)
Lemma trusted_commits range ss out (commits := map (λ '((_, x), s), TrustedCommit_new_trusted x s) (zip out ss)) :
  range_ok range → parsed range ss out → out ≠ [] →
  (∀ p, last out = Some p → ∃ bytes, chain (Commit_index p.2) = Some bytes ∧ p.1 = compute_digest bytes) →
  (∃ e, (CommitRange_start range ≤ e ≤ CommitRange_end range)%N ∧ tc_index <$> commits = rangeN (CommitRange_start range) (e + 1)) ∧
  ∀ tc, tc ∈ commits → on_chain tc.
Proof using Hnw.
  intros Hr Hp Hne Hlast. pose proof (parsed_length _ _ _ Hp) as Hlen. assert (length out ≠ 0) as Hpos by (by destruct out).
  assert (∀ j, commits !! j = p ← out !! j; s ← ss !! j; Some (TrustedCommit_new_trusted p.2 s)) as Hlook.
  { intros j. unfold commits. change (map ?f ?l) with (f <$> l). rewrite list_lookup_fmap, lookup_zip_with.
    destruct (out !! j) as [[d x]|]; cbn; [|done]. by destruct (ss !! j). }
  split.
  - exists (CommitRange_start range + N.of_nat (length out) - 1)%N.
    destruct (lookup_lt_is_Some_2 out (length out - 1)) as [q Hq]; [lia|]. destruct (pa_index _ _ _ Hp _ _ Hq) as [_ Hle]. split; [lia|].
    apply list_eq. intros j. rewrite list_lookup_fmap, Hlook. destruct (decide (j < length out)) as [Hj|Hj].
    + destruct (lookup_lt_is_Some_2 out j Hj) as [p Hpj]. destruct (lookup_lt_is_Some_2 ss j) as [s Hsj]; [lia|].
      rewrite Hpj, Hsj, rangeN_lookup by lia. cbn. f_equal. by apply (pa_index _ _ _ Hp).
    + rewrite (lookup_ge_None_2 out) by lia. symmetry. apply lookup_ge_None_2. rewrite rangeN_length. lia.
  - intros tc [j Hj]%list_elem_of_lookup. rewrite Hlook in Hj. destruct (out !! j) as [p|] eqn:Hpj; [|done].
    destruct (ss !! j) as [s|] eqn:Hsj; [|done]. cbn in Hj. injection Hj as <-.
    split_and!; [by eapply parsed_on_chain| |done].
    by destruct (Forall2_lookup_lr _ _ _ _ _ _ (pa_decoded _ _ _ Hp) Hsj Hpj).
Qed.

Lemma verify_commits_spec debug si peer range sc svb :
  inner_ok si → range_ok range → (debug = true → length sc ≤ range_size range) →
  ∃ si' r, verify_commits debug si peer range sc svb = Done (si', r) ∧ inner_ok si' ∧
    ∀ commits vote_blocks, r = Ok (commits, vote_blocks) →
      (∃ e, (CommitRange_start range ≤ e ≤ CommitRange_end range)%N ∧
        tc_index <$> commits = rangeN (CommitRange_start range) (e + 1)) ∧
      (∀ tc, tc ∈ commits → on_chain tc) ∧
      (∀ b, b ∈ vote_blocks → block_accepted (si_verifier si) (signed_block b)).
Proof using Hnw.
  intros Hsi Hr Hdebug. unfold verify_commits.
  destruct (parse_commits peer range [] sc) as [out|e] eqn:Hparse; [|by exists si, (Err e)].
  destruct (parse_commits_spec peer range [] [] sc out Hr (parsed_nil range) Hparse) as (k & [rest Hk] & Hp & Hall). cbn [app] in Hp.
  destruct (last out) as [[d x]|] eqn:Hlast; [|by eexists _, _].
  set (ref := mkCommitRef (Commit_index x) d).
  destruct (verify_vote_blocks_spec si (si_verifier si) ref StakeAggregator_new [] svb Hsi eq_refl) as (si' & r & -> & Hsi' & Hres).
  { split_and!; [apply StakeAggregator_new_ok|set_solver|by intros b ?%elem_of_nil]. }
  run_bind. destruct r as [[agg vbs]|e]; [|by eexists _, _]. rewrite (in_context _ Hsi').
  destruct (reached_threshold agg c) eqn:Hq; [|by eexists _, _].
  pose proof (Hres _ _ eq_refl) as Hcount. pose proof (parsed_length _ _ _ Hp) as Hlen.
  destruct (quorum_on_chain (si_verifier si) ref agg vbs (in_verifier _ Hsi) Hcount Hq) as (bytes & Hch & Hdig).
  rewrite zip_debug_eq_done; [|rewrite Hk, length_app; lia|].
  2:{ intros Hd. rewrite <- Hlen. f_equal. apply Hall. cbn. by apply Hdebug. }
  run_bind. eexists _, _. split_and!; [done|done|]. intros commits vote_blocks [= <- <-]. rewrite Hk, zip_prefix by lia.
  destruct (trusted_commits range k out Hr Hp) as [Hidx Hon].
  { intros ->. done. }
  { intros p Hpl. rewrite Hlast in Hpl. injection Hpl as <-. by exists bytes. }
  split_and!; [done|done|]. apply Hcount.
Qed.

(** ** Fetched blocks *)

Definition decoded (b : VerifiedBlock) : Prop := ∃ s sb, bcs_signed_block_from s = Some sb ∧ b = new_verified sb s.

Lemma try_each_spec {A S E} (P : list A → S → Prop) (g : S → A → outcome (result S E)) pre s l :
  P pre s → (∀ pre x s, P pre s → x ∈ l → ∃ r, g s x = Done r ∧ ∀ s', r = Ok s' → P (pre ++ [x]) s') →
  ∃ r, try_each g s l = Done r ∧ ∀ s', r = Ok s' → P (pre ++ l) s'.
Proof using.
  revert pre s. induction l as [|x l IH]; intros pre s HP Hg; cbn [try_each].
  { exists (Ok s). rewrite app_nil_r. split; [done|]. by intros s' [= <-]. }
  destruct (Hg pre x s HP) as (r & -> & Hr); [auto with lists|]. cbn. destruct r as [s1|e]; [|by exists (Err e)].
  destruct (IH (pre ++ [x]) s1) as (r & Hrun & Hres); [by apply Hr|intros; apply Hg; auto with lists|].
  exists r. rewrite <- app_assoc in Hres. done.
Qed.

Lemma check_blocks_spec debug peer requested ser :
  ∃ r, check_blocks debug peer requested ser = Done r ∧
    ∀ blocks, r = Ok blocks → reference <$> blocks = requested ∧ ∀ b, b ∈ blocks → decoded b.
Proof using.
  unfold check_blocks. case_decide as Hlen; [by eexists|]. unfold lengthN in Hlen.
  destruct (mapM bcs_signed_block_from ser) as [sbs|] eqn:Hm; [|by eexists]. apply mapM_Some in Hm.
  pose proof (Forall2_length _ _ _ Hm) as Hlen2.
  rewrite zip_debug_eq_done by lia. run_bind. rewrite zip_debug_eq_done by (rewrite length_zip_with; lia). run_bind.
  assert (∀ blocks, ∃ r, try_each (λ blocks '((requested_block_ref, signed_block), serialized),
      let block := new_verified signed_block serialized in
      ensure (requested_block_ref = reference block)
        (UnexpectedBlockForCommit peer requested_block_ref (reference block)) ?;
      Done (Ok (blocks ++ [block]))) blocks (zip (zip requested sbs) ser) = Done r ∧
    ∀ res, r = Ok res → ∃ k, res = blocks ++ k ∧ reference <$> k = requested ∧ ∀ b, b ∈ k → decoded b) as Hloop.
  2:{ destruct (Hloop []) as (r & Hrun & Hr). exists r. split; [done|]. intros blocks Hb. by destruct (Hr blocks Hb) as (k & -> & ?). }
  assert (length requested = length sbs) as Hl by lia. clear Hlen Hlen2. revert requested Hl.
  induction Hm as [|s sb ser sbs Hs Hm IH]; intros [|q requested] Hl blocks; try done.
  { cbn. exists (Ok blocks). split; [done|]. intros res [= <-]. exists []. rewrite app_nil_r. split_and!; [done|done|]. by intros b ?%elem_of_nil. }
  specialize (IH requested ltac:(cbn in Hl; lia) (blocks ++ [new_verified sb s])).
  match goal with |- context [try_each ?x _ _] => set (g := x) in * end. cbn [zip zip_with try_each].
  assert (g blocks (q, sb, s) = if decide (q = reference (new_verified sb s)) then Done (Ok (blocks ++ [new_verified sb s]))
    else Done (Err (UnexpectedBlockForCommit peer q (reference (new_verified sb s))))) as ->.
  { unfold g, ensure. by case_decide. }
  case_decide as Hq; cbn [try_bind]; [|by eexists].
  destruct IH as (r & Hrun & Hr). exists r. split; [exact Hrun|].
  intros res Hres. destruct (Hr res Hres) as (k & -> & Hk & Hd). exists (new_verified sb s :: k). rewrite <- app_assoc.
  split_and!; [done|by rewrite fmap_cons, Hk, Hq|]. intros b [->|Hb]%elem_of_cons; [by exists s, sb|by apply Hd].
Qed.

Lemma chunks_loop_join {A} fuel n (l : list A) :
  (0 < n)%N → length l ≤ fuel → mjoin (chunks_loop fuel n l) = l.
Proof using.
  intros Hn. revert l. induction fuel as [|fuel IH]; intros l Hlen; [by destruct l; [|cbn in Hlen; lia]|].
  destruct l as [|x l]; [done|]. cbn [chunks_loop]. cbn [mjoin list_join]. rewrite IH.
  - rewrite takeN_take. apply take_drop.
  - rewrite length_drop. cbn in *. lia.
Qed.

(** The fetched blocks, by their references. *)
Definition blocks_by_ref (m : gmap BlockRef VerifiedBlock) : Prop :=
  ∀ r b, m !! r = Some b → reference b = r ∧ decoded b.

Lemma insert_blocks m blocks :
  blocks_by_ref m → (∀ b, b ∈ blocks → decoded b) →
  let m' := foldl (λ m b, <[reference b := b]> m) m blocks in
  blocks_by_ref m' ∧ dom m' = dom m ∪ list_to_set (reference <$> blocks).
Proof using.
  clear f byz chain Hnw. revert m. induction blocks as [|b blocks IH]; intros m Hm Hb; cbn; [by rewrite (right_id_L ∅ (∪))|].
  destruct (IH (<[reference b := b]> m)) as [Hby Hdom]; [|auto with lists|].
  - intros r x [[<- <-]|[_ Hx]]%lookup_insert_Some; [split; [done|apply Hb; auto with lists]|by apply Hm].
  - split; [done|]. rewrite Hdom, dom_insert_L. set_solver.
Qed.

Lemma fetch_commit_blocks_spec debug peer fetch commits :
  max_blocks_per_fetch (parameters ctx) ≠ 0%N →
  ∃ r, fetch_commit_blocks debug ctx peer fetch commits = Done r ∧
    ∀ m, r = Ok m → blocks_by_ref m ∧ ∀ k, k ∈ commits ≫= tc_blocks → k ∈ dom m.
Proof using.
  clear f byz chain Hnw. intros Hmax. unfold fetch_commit_blocks, chunks. rewrite rassert_true by done. run_bind.
  set (l := stable_sort BlockRef_le (commits ≫= tc_blocks)).
  destruct (try_each_spec (λ pre m, blocks_by_ref m ∧ ∀ k, k ∈ mjoin pre → k ∈ dom m)
    (λ fetched_blocks request,
      serialized_blocks ?← Done (fetch request);
      blocks ?← check_blocks debug peer request serialized_blocks;
      Done (Ok (foldl (λ m b, <[reference b := b]> m) fetched_blocks blocks)))
    [] (∅ : gmap BlockRef VerifiedBlock) (chunks_loop (length l) (max_blocks_per_fetch (parameters ctx)) l)) as (r & Hrun & Hr).
  - split; [intros k b Hk; by rewrite lookup_empty in Hk|by intros k ?%elem_of_nil].
  - intros pre req m [Hm Hd] _. cbv beta. destruct (fetch req) as [ser|e]; cbn -[check_blocks foldl mjoin]; [|by eexists].
    destruct (check_blocks_spec debug peer req ser) as ([blocks|e] & -> & Hb); cbn -[foldl mjoin]; [|by eexists].
    destruct (Hb blocks eq_refl) as [Href Hdec]. destruct (insert_blocks m blocks Hm Hdec) as [Hm' Hdom].
    eexists. split; [done|]. intros m' [= <-]. split; [done|]. rewrite Hdom. intros k Hk.
    rewrite join_app, elem_of_app in Hk. destruct Hk as [Hk|Hk]; [apply Hd in Hk; set_solver|].
    cbn in Hk. rewrite app_nil_r, <- Href in Hk. set_solver.
  - exists r. split; [exact Hrun|]. intros m Hm. destruct (Hr m Hm) as [Hby Hdom]. split; [done|].
    intros k Hk. apply Hdom. cbn [app]. rewrite chunks_loop_join by (done || lia). unfold l. by apply elem_of_stable_sort.
Qed.

(** ** Assembling the certified commits *)

Lemma take_blocks_spec m acc refs :
  blocks_by_ref m → NoDup refs → (∀ r, r ∈ refs → r ∈ dom m) →
  ∃ m' bs, for_each take_block (m, acc) refs = Done (m', acc ++ bs) ∧ reference <$> bs = refs ∧
    (∀ b, b ∈ bs → decoded b) ∧ blocks_by_ref m' ∧ ∀ r, r ∈ dom m → r ∉ refs → r ∈ dom m'.
Proof using.
  clear f byz chain Hnw. intros Hm Hnd. revert m acc Hm. induction Hnd as [|r refs Hr Hnd IH]; intros m acc Hm Hin; cbn [for_each].
  { exists m, []. rewrite app_nil_r. split_and!; try done. by intros b ?%elem_of_nil. }
  destruct (m !! r) as [b|] eqn:Hb; [|apply not_elem_of_dom in Hb; destruct Hb; apply Hin; auto with lists].
  destruct (Hm r b Hb) as [Href Hdec]. unfold take_block at 2. cbn [fst snd]. rewrite Hb. cbn [unwrap]. run_bind.
  destruct (IH (delete r m) (acc ++ [b])) as (m' & bs & -> & Hrefs & Hd & Hm' & Hrest).
  - intros k x [_ Hk]%lookup_delete_Some. by apply Hm.
  - intros k Hk. rewrite dom_delete_L. assert (k ∈ dom m) by (apply Hin; auto with lists). set_solver.
  - exists m', (b :: bs). rewrite <- app_assoc. split_and!; [done|cbn; by rewrite Href, Hrefs| |done|].
    + intros x [->|Hx]%elem_of_cons; [done|by apply Hd].
    + intros k Hk Hn. apply Hrest; [rewrite dom_delete_L; set_solver|set_solver].
Qed.

(** A commit with exactly its blocks. *)
Definition carries_blocks (x : CertifiedCommit) : Prop :=
  reference <$> cc_blocks x = tc_blocks (cc_commit x) ∧ ∀ b, b ∈ cc_blocks x → decoded b.

Lemma certify_commits_spec m acc commits :
  blocks_by_ref m → NoDup (commits ≫= tc_blocks) → (∀ r, r ∈ commits ≫= tc_blocks → r ∈ dom m) →
  ∃ m' out, for_each certify_commit (m, acc) commits = Done (m', acc ++ out) ∧ cc_commit <$> out = commits ∧
    ∀ x, x ∈ out → carries_blocks x.
Proof using.
  clear f byz chain Hnw. revert m acc. induction commits as [|x commits IH]; intros m acc Hm Hnd Hin; cbn [for_each].
  { exists m, []. rewrite app_nil_r. split_and!; try done. by intros b ?%elem_of_nil. }
  change ((x :: commits) ≫= tc_blocks) with (tc_blocks x ++ (commits ≫= tc_blocks)) in Hnd, Hin. apply NoDup_app in Hnd as (Hx & Hdisj & Hnd).
  destruct (take_blocks_spec m [] (tc_blocks x) Hm Hx) as (m1 & bs & Hrun & Hrefs & Hd & Hm1 & Hrest); [set_solver|].
  unfold certify_commit at 2. cbn [fst snd]. rewrite Hrun. run_bind.
  destruct (IH m1 (acc ++ [mkCertifiedCommit x bs])) as (m' & out & Hout & Hc' & Hcar); [done|done|set_solver|].
  exists m', (mkCertifiedCommit x bs :: out). rewrite <- app_assoc in Hout. split_and!; [exact Hout|cbn; by rewrite Hc'|].
  intros y [->|Hy]%elem_of_cons; [|by apply Hcar]. split; [exact Hrefs|done].
Qed.

(** Commits of the chain share no blocks. *)
Lemma chain_blocks_distinct commits :
  NoDup (tc_index <$> commits) → (∀ tc, tc ∈ commits → on_chain tc) → NoDup (commits ≫= tc_blocks).
Proof using Hnw.
  induction commits as [|x commits IH]; intros Hnd Hon; [constructor|].
  change ((x :: commits) ≫= tc_blocks) with (tc_blocks x ++ (commits ≫= tc_blocks)).
  rewrite fmap_cons in Hnd. apply NoDup_cons in Hnd as [Hx Hnd].
  destruct (Hon x) as (Hch & Hdec & _); [auto with lists|]. destruct (nw_blocks Hnw _ _ _ Hch Hdec) as [Hown Hb].
  apply NoDup_app. split_and!; [exact Hown| |apply IH; [done|auto with lists]].
  intros r Hr (y & Hry & Hy)%list_elem_of_bind. apply Hx. destruct (Hb r Hr) as (_ & _ & Honly).
  destruct (Hon y) as (Hchy & Hdecy & _); [auto with lists|].
  rewrite <- (Honly _ _ _ Hchy Hdecy Hry). by apply list_elem_of_fmap_2.
Qed.

Definition links_ok (b : VerifiedBlock) : Prop :=
  (author b < Committee_size c)%N ∧ ∀ r, r ∈ ancestors b → (ref_author r < Committee_size c)%N.

Lemma record_blocks_spec si certified vote_blocks :
  inner_ok si → (∀ b, b ∈ (certified ≫= cc_blocks) ++ vote_blocks → links_ok b) →
  ∃ si', record_blocks si certified vote_blocks = Done si' ∧ inner_ok si'.
Proof using Hnw.
  intros Hsi Hb. unfold record_blocks. set (blocks := certified ≫= cc_blocks) in *.
  destruct (for_each_total (λ st, ∃ h, vote_tracker_ok ctx h st) (λ st b, add_voted_blocks st [(b, [])]) (si_vote_tracker si) blocks)
    as (st & Hst & Hstok); [apply Hsi| |].
  { intros s1 x Hx Hs1. apply add_voted_ok; [|done]. apply Hb. set_solver. }
  set (si1 := if transaction_voting_enabled (protocol_config (si_context si)) then set_vote_tracker st si else si).
  assert ((if transaction_voting_enabled (protocol_config (si_context si))
    then st ← for_each (λ st b, add_voted_blocks st [(b, [])]) (si_vote_tracker si) blocks; Done (set_vote_tracker st si)
    else Done si) = Done si1) as ->.
  { unfold si1. destruct (transaction_voting_enabled _); [|done]. rewrite Hst. by run_bind. }
  assert (inner_ok si1) as Hsi1 by (unfold si1; destruct (transaction_voting_enabled _); [by apply set_vote_tracker_ok|done]).
  run_bind. destruct (for_each_total (λ m, lengthN (cvm_highest_voted_commits m) = Committee_size c) observe_block
    (si_vote_monitor si1) (blocks ++ vote_blocks)) as (m & -> & Hm); [apply Hsi1| |].
  { intros m b Hin Hlen. unfold observe_block.
    destruct (observe_votes_spec (author b) (commit_votes b) (cvm_highest_voted_commits m)) as (h & -> & Hh & _).
    - rewrite Hlen. by apply Hb. - run_bind. eexists. split; [done|]. cbn. congruence. }
  run_bind. destruct (for_each_total (tracker_ok ctx) (λ rt b, update_from_verified_block rt (mkExtendedBlock b []))
    (si_round_tracker si1) (blocks ++ vote_blocks)) as (rt & -> & Hrt); [apply Hsi1| |].
  { intros rt b Hin Hok. destruct (update_from_verified_block_spec ctx rt (mkExtendedBlock b []) Hok) as (rt' & Hrun & Hok' & _); [|by exists rt'].
    destruct (Hb b Hin) as [Ha Hr]. split; [done|]. intros r [Hin'|Hin']; [by apply Hr|by apply elem_of_nil in Hin']. }
  run_bind. eexists. split; [done|]. destruct Hsi1. by split.
Qed.

(** Blocks of commits of the chain, and accepted vote blocks, are by members of the
    committee and link to their blocks. *)
Lemma carried_links x b : on_chain (cc_commit x) → carries_blocks x → b ∈ cc_blocks x → links_ok b.
Proof using Hnw.
  intros (Hch & Hdec & _) [Hrefs Hd] Hb. destruct (nw_blocks Hnw _ _ _ Hch Hdec) as [_ Hbl].
  assert (reference b ∈ tc_blocks (cc_commit x)) as Hr by (rewrite <- Hrefs; by apply list_elem_of_fmap_2).
  destruct (Hbl _ Hr) as (Ha & Hanc & _). split; [exact Ha|]. destruct (Hd b Hb) as (s & sb & Hs & ->).
  intros r Hin. by eapply Hanc.
Qed.

Lemma accepted_links v b : bv_context v = ctx → block_accepted v (signed_block b) → links_ok b.
Proof using.
  intros Hv Hb. split; [rewrite <- Hv; apply (ba_author _ _ Hb)|]. intros r [i Hi]%list_elem_of_lookup.
  rewrite <- Hv. by destruct (ba_ancestors _ _ Hb i r Hi).
Qed.

(** Steps 9 to 12, on verified commits and fetched blocks. *)
Lemma assemble_spec si range e commits vote_blocks m :
  inner_ok si → (CommitRange_start range ≤ e ≤ CommitRange_end range)%N →
  tc_index <$> commits = rangeN (CommitRange_start range) (e + 1) → (∀ tc, tc ∈ commits → on_chain tc) →
  (∀ b, b ∈ vote_blocks → links_ok b) → blocks_by_ref m → (∀ k, k ∈ commits ≫= tc_blocks → k ∈ dom m) →
  ∃ m' out si', for_each certify_commit (m, []) commits = Done (m', out) ∧ record_blocks si out vote_blocks = Done si' ∧
    inner_ok si' ∧ indices_are (mkCertifiedCommits out vote_blocks) (CommitRange_start range) e ∧
    ∀ x, x ∈ out → on_chain (cc_commit x) ∧ carries_blocks x.
Proof using Hnw.
  intros Hsi He Hidx Hon Hvb Hby Hdom. assert (NoDup (commits ≫= tc_blocks)) as Hnd.
  { apply chain_blocks_distinct; [|done]. rewrite Hidx. apply NoDup_rangeN. }
  destruct (certify_commits_spec m [] commits Hby Hnd Hdom) as (m' & out & Hrun & Hout & Hcar).
  assert (∀ x, x ∈ out → on_chain (cc_commit x)) as Honout.
  { intros x Hx. apply Hon. rewrite <- Hout. by apply list_elem_of_fmap_2. }
  destruct (record_blocks_spec si out vote_blocks Hsi) as (si' & Hrec & Hsi').
  { intros b [(x & Hb & Hx)%list_elem_of_bind|Hb]%elem_of_app; [eapply carried_links; eauto|by apply Hvb]. }
  exists m', out, si'. split_and!; [exact Hrun|exact Hrec|done| |auto].
  unfold indices_are. cbn [certified_commits]. rewrite <- Hidx, <- Hout, <- list_fmap_compose. done.
Qed.

(** One fetch, whatever the peer answers. *)
Lemma fetch_once_spec debug si peer range probe fetch_commits fetch_blocks :
  inner_ok si → range_ok range → max_blocks_per_fetch (parameters ctx) ≠ 0%N →
  (debug = true → ∀ sc svb, fetch_commits = Ok (sc, svb) → length sc ≤ range_size range) →
  ∃ si' r, fetch_once debug si peer range probe fetch_commits fetch_blocks = Done (si', r) ∧ inner_ok si' ∧
    ∀ commits, r = Ok commits →
      fetch_ok range commits ∧
      ∀ x, x ∈ certified_commits commits → on_chain (cc_commit x) ∧ carries_blocks x.
Proof using Hnw.
  intros Hsi Hr Hmax Hdebug. unfold fetch_once. destruct probe as [[]|e]; [|by eexists _, _].
  destruct fetch_commits as [[sc svb]|e]; [|by eexists _, _].
  destruct (verify_commits_spec debug si peer range sc svb Hsi Hr) as (si1 & r & -> & Hsi1 & Hres).
  { intros Hd. by eapply Hdebug. }
  run_bind. destruct r as [[commits vbs]|e]; [|by eexists _, _].
  destruct (Hres _ _ eq_refl) as ((e & He & Hidx) & Hon & Hvb). rewrite (in_context _ Hsi1).
  destruct (fetch_commit_blocks_spec debug peer fetch_blocks commits Hmax) as (r & -> & Hblocks).
  run_bind. destruct r as [m|err]; [|by eexists _, _]. destruct (Hblocks m eq_refl) as [Hby Hdom].
  destruct (assemble_spec si1 range e commits vbs m) as (m' & out & si' & -> & Hrec & Hsi' & Hind & Hall); try done.
  { intros b Hb. eapply accepted_links; [|by apply Hvb]. apply Hsi. }
  run_bind. rewrite Hrec. run_bind. eexists _, _. split_and!; [done|done|]. intros res [= <-]. split; [by exists e|done].
Qed.

(** C13: fetched commits can be trusted. Whatever a peer answers, fetching a range
    never panics and keeps the shared components consistent; and when it succeeds,
    the result is a non-empty run of commits from the start of the range on and
    within it, each of them a commit of the network, with exactly the blocks it
    lists, in their order. *)
Theorem fetched_commits_correct debug si peer range probe fetch_commits fetch_blocks :
  inner_ok si → range_ok range → max_blocks_per_fetch (parameters ctx) ≠ 0%N →
  (debug = true → ∀ sc svb, fetch_commits = Ok (sc, svb) → length sc ≤ range_size range) →
  ∃ si' r, fetch_once debug si peer range probe fetch_commits fetch_blocks = Done (si', r) ∧ inner_ok si' ∧
    ∀ commits, r = Ok commits →
      fetch_ok range commits ∧
      ∀ x, x ∈ certified_commits commits → on_chain (cc_commit x) ∧ carries_blocks x.
Proof using Hnw. apply fetch_once_spec. Qed.

(** ** Answers of correct peers *)

Lemma try_each_Ok {A S E} (g : S → A → outcome (result S E)) s l :
  (∀ s x, x ∈ l → ∃ s', g s x = Done (Ok s')) → ∃ s', try_each g s l = Done (Ok s').
Proof using.
  revert s. induction l as [|x l IH]; intros s Hg; cbn [try_each]; [by exists s|].
  destruct (Hg s x) as [s1 ->]; [auto with lists|]. cbn. apply IH. intros. apply Hg. auto with lists.
Qed.

(** The commits of the chain, from the start of the range on. *)
Lemma parse_commits_honest peer range out l :
  range_ok range → (CommitRange_start range + N.of_nat (length out + length l) ≤ CommitRange_end range + 1)%N →
  (∀ j s, l !! j = Some s → chain (CommitRange_start range + N.of_nat (length out + j))%N = Some s) →
  (∀ p, last out = Some p → Commit_index p.2 = (CommitRange_start range + N.of_nat (length out) - 1)%N ∧
    ∃ s, chain (Commit_index p.2) = Some s ∧ p.1 = compute_digest s) →
  ∃ res, parse_commits peer range out l = Ok res.
Proof using Hnw.
  intros Hr. revert out. induction l as [|s l IH]; intros out Hlen Hl Hlast; cbn [parse_commits]; [by eexists|].
  pose proof (Hl 0 s eq_refl) as Hs. rewrite Nat.add_0_r in Hs.
  destruct (nw_chain Hnw _ _ Hs) as (x & -> & Hidx & Hprev). destruct Hr as [Hs0 Hso Hmax]. cbn [length] in Hlen.
  assert (∀ e1 e2 : N → Commit → ConsensusError, match last out with
    | None => if decide (Commit_index x ≠ CommitRange_start range) then Some (e1 0%N x) else None
    | Some (d, y) => if decide (Commit_index x ≠ Commit_index y +₃₂ 1 ∨ Commit_previous_digest x ≠ d) then Some (e2 d y) else None
    end = None) as Hchk.
  { intros e1 e2. destruct (last out) as [[d y]|] eqn:Hy.
    - destruct (Hlast (d, y) eq_refl) as (Hyi & s' & Hys & Hd). cbn in Hyi, Hys, Hd.
      assert (length out ≠ 0) by (by destruct out). unfold u32_MAX in Hmax. rewrite wrap_add_small by lia.
      destruct Hprev as (prev & Hpc & Hpd); [lia|]. rewrite decide_False; [done|]. intros [Hne|Hne]; [lia|]. apply Hne.
      rewrite Hpd, Hd. replace (CommitRange_start range + N.of_nat (length out) - 1)%N with (Commit_index y) in Hpc by lia. congruence.
    - apply last_None in Hy as ->. cbn in Hidx. rewrite decide_False; [done|]. lia. }
  specialize (Hchk (λ _ _, UnexpectedStartCommit peer (CommitRange_start range) x) (λ _ y, UnexpectedCommitSequence peer y x)).
  rewrite Hchk, decide_False by lia. apply IH; rewrite ?length_app; cbn [length].
  - lia.
  - intros j s' Hj. specialize (Hl (Datatypes.S j) s' Hj). replace (length out + 1 + j) with (length out + Datatypes.S j) by lia. done.
  - intros p Hp. rewrite last_snoc in Hp. injection Hp as <-. cbn. split; [lia|]. exists s. split; [by rewrite Hidx|done].
Qed.

(** Blocks that the verifier accepts, and whose votes it counts. *)
Definition votable (v : SignedBlockVerifier) (s : list N) : Prop :=
  ∃ sb rejects, bcs_signed_block_from s = Some sb ∧ verify_and_vote v sb s = Done (Ok (new_verified sb s, rejects)).

Definition voters_in (svb : list (list N)) (ref : CommitRef) (a : N) : Prop :=
  ∃ s sb, s ∈ svb ∧ bcs_signed_block_from s = Some sb ∧ Block_author (inner sb) = a ∧ ref ∈ Block_commit_votes (inner sb).

Lemma verify_vote_blocks_honest si v ref agg bs l :
  inner_ok si → si_verifier si = v → agg_ok c agg → (∀ s, s ∈ l → votable v s) →
  ∃ si' agg' bs', verify_vote_blocks si ref agg bs l = Done (si', Ok (agg', bs')) ∧ inner_ok si' ∧
    agg_ok c agg' ∧ votes agg ⊆ votes agg' ∧ ∀ a, voters_in l ref a → a ∈ votes agg'.
Proof using Hnw.
  revert si agg bs. induction l as [|s l IH]; intros si agg bs Hsi Hv Hagg Hl; cbn [verify_vote_blocks].
  { exists si, agg, bs. split_and!; try done. by intros a (s & sb & ?%elem_of_nil & _). }
  destruct (Hl s) as (sb & rejects & Hs & Hrun); [auto with lists|]. rewrite Hs, Hv, Hrun. run_bind.
  assert (bv_context v = ctx) as Hvc by (rewrite <- Hv; apply Hsi).
  destruct (verify_and_vote_accepts v sb s Hvc Hs) as (r & Hr & Hacc). rewrite Hrun in Hr. injection Hr as <-.
  destruct (Hacc _ _ eq_refl) as [_ Hok].
  assert (author (new_verified sb s) < Committee_size c)%N as Hauth by (pose proof (ba_author _ _ Hok) as Ha; by rewrite Hvc in Ha).
  destruct (track_vote si (new_verified sb s) rejects Hsi Hauth) as (si1 & -> & Hsi1 & Hv1). rewrite Hv in Hv1. run_bind. rewrite (in_context _ Hsi1). destruct (count_votes_eq ref agg (new_verified sb s) Hagg Hauth) as (agg1 & -> & Hagg1 & Hv2). run_bind.
  destruct (IH si1 agg1 (bs ++ [new_verified sb s]) Hsi1 Hv1 Hagg1) as (si' & agg' & bs' & Hrun' & Hsi' & Hagg' & Hsub & Hall); [auto with lists|].
  exists si', agg', bs'. split_and!; [exact Hrun'|done|done|rewrite Hv2 in Hsub; set_solver|].
  intros a (s' & sb' & [->|Hin]%elem_of_cons & Hs' & Ha & Href); [|apply Hall; by exists s', sb'].
  rewrite Hs in Hs'. injection Hs' as <-. apply Hsub. rewrite Hv2, decide_True by exact Href. subst a. set_solver.
Qed.

Definition serves (request : list BlockRef) (ser : list (list N)) : Prop :=
  Forall2 (λ r s, ∃ sb, bcs_signed_block_from s = Some sb ∧ reference (new_verified sb s) = r) request ser.

Lemma check_blocks_honest debug peer request ser :
  serves request ser → ∃ blocks, check_blocks debug peer request ser = Done (Ok blocks).
Proof using.
  intros Hs. pose proof (Forall2_length _ _ _ Hs) as Hlen. unfold check_blocks, lengthN. rewrite decide_False by (rewrite Hlen; tauto).
  assert (∃ sbs, mapM bcs_signed_block_from ser = Some sbs) as [sbs Hm].
  { apply mapM_is_Some_2, Forall_forall. intros s [j Hj]%list_elem_of_lookup.
    destruct (Forall2_lookup_r _ _ _ _ _ Hs Hj) as (r & _ & sb & Hsb & _). by exists sb. }
  rewrite Hm. apply mapM_Some in Hm. pose proof (Forall2_length _ _ _ Hm) as Hlen2.
  rewrite zip_debug_eq_done by lia. run_bind. rewrite zip_debug_eq_done by (rewrite length_zip_with; lia). run_bind.
  apply try_each_Ok. intros blocks [[q sb] s] [j Hj]%list_elem_of_lookup.
  apply lookup_zip_with_Some in Hj as ([q' sb'] & s' & [= <- <- <-] & Hj & Hsj).
  apply lookup_zip_with_Some in Hj as (q' & sb' & [= <- <-] & Hqj & Hsbj).
  pose proof (Forall2_lookup_lr _ _ _ _ _ _ Hm Hsj Hsbj) as Hdec. cbn in Hdec.
  destruct (Forall2_lookup_lr _ _ _ _ _ _ Hs Hqj Hsj) as (sb2 & Hdec2 & Href). rewrite Hdec in Hdec2. injection Hdec2 as <-.
  unfold ensure. rewrite decide_True by done. cbn. by eexists.
Qed.

Lemma chunks_loop_elem {A} fuel n (l : list A) request x :
  request ∈ chunks_loop fuel n l → x ∈ request → x ∈ l.
Proof using.
  clear f byz chain Hnw. revert l. induction fuel as [|fuel IH]; intros l Hr Hx; [by destruct l; apply elem_of_nil in Hr|].
  destruct l as [|y l]; [by apply elem_of_nil in Hr|]. cbn [chunks_loop] in Hr. apply elem_of_cons in Hr as [->|Hr].
  - rewrite takeN_take in Hx. rewrite <- (take_drop (N.to_nat n) (y :: l)). apply elem_of_app. by left.
  - rewrite <- (take_drop (N.to_nat n) (y :: l)). apply elem_of_app. right. by apply IH.
Qed.

Lemma fetch_commit_blocks_honest debug peer fetch commits :
  max_blocks_per_fetch (parameters ctx) ≠ 0%N →
  (∀ request, (∀ r, r ∈ request → r ∈ commits ≫= tc_blocks) → ∃ ser, fetch request = Ok ser ∧ serves request ser) →
  ∃ m, fetch_commit_blocks debug ctx peer fetch commits = Done (Ok m).
Proof using.
  intros Hmax Hserve. unfold fetch_commit_blocks, chunks. rewrite rassert_true by done. run_bind.
  apply try_each_Ok. intros m request Hreq. destruct (Hserve request) as (ser & -> & Hs).
  { intros r Hr. eapply elem_of_stable_sort, chunks_loop_elem; [exact Hreq|exact Hr]. }
  destruct (check_blocks_honest debug peer request ser Hs) as [blocks Hb]. cbn -[check_blocks foldl]. rewrite Hb. cbn -[foldl]. by eexists.
Qed.

(** What a correct peer that has the commits up to [e] answers. *)
Record honest_answer (v : SignedBlockVerifier) (range : CommitRange) (e : N) (sc svb : list (list N)) : Prop := {
  ha_end : (CommitRange_start range ≤ e ≤ CommitRange_end range)%N;
  ha_commits : chain <$> rangeN (CommitRange_start range) (e + 1) = Some <$> sc;
  ha_votable s : s ∈ svb → votable v s;
  ha_quorum : ∃ X, (quorum_threshold c ≤ set_stake c X)%N ∧ ∀ a bytes, a ∈ X → chain e = Some bytes →
    voters_in svb (mkCommitRef e (compute_digest bytes)) a;
}.

Lemma honest_lookup v range e sc svb j :
  honest_answer v range e sc svb → j < length sc → chain (CommitRange_start range + N.of_nat j)%N = sc !! j.
Proof using.
  intros [_ Hch _ _] Hj. assert (length sc = N.to_nat (e + 1 - CommitRange_start range)) as Hlen.
  { rewrite <- (length_fmap Some), <- Hch, length_fmap, rangeN_length. lia. }
  pose proof (f_equal (.!! j) Hch) as Hl. cbn in Hl. rewrite !list_lookup_fmap, rangeN_lookup in Hl by lia. cbn in Hl.
  destruct (sc !! j); cbn in Hl; congruence.
Qed.

Lemma verify_commits_honest debug si peer range e sc svb :
  inner_ok si → range_ok range → honest_answer (si_verifier si) range e sc svb →
  ∃ si' commits vbs, verify_commits debug si peer range sc svb = Done (si', Ok (commits, vbs)) ∧ length commits = length sc ∧
    length sc = N.to_nat (e + 1 - CommitRange_start range) ∧ length sc ≤ range_size range.
Proof using Hnw.
  intros Hsi Hr Hans. pose proof Hans as [He Hch Hvotable (X & HX & HXv)].
  assert (length sc = N.to_nat (e + 1 - CommitRange_start range)) as Hlen.
  { rewrite <- (length_fmap Some), <- Hch, length_fmap, rangeN_length. lia. }
  destruct (parse_commits_honest peer range [] sc Hr) as [out Hparse]; [cbn; lia| |done|].
  { intros j s Hj. cbn. rewrite (honest_lookup _ _ _ _ _ j Hans) by (by eapply lookup_lt_Some). done. }
  destruct (parse_commits_spec peer range [] [] sc out Hr (parsed_nil range) Hparse) as (k & _ & Hp & Hall). cbn [app] in Hp.
  rewrite Hall in Hp by (cbn; unfold range_size; lia). pose proof (parsed_length _ _ _ Hp) as Hlo.
  unfold verify_commits. rewrite Hparse. destruct (last out) as [[d x]|] eqn:Hlast; [|apply last_None in Hlast as ->; cbn in Hlo; lia].
  pose proof Hlast as Hlk. rewrite last_lookup in Hlk. destruct (pa_index _ _ _ Hp _ _ Hlk) as [Hidx _]. cbn in Hidx.
  destruct (Forall2_lookup_r _ _ _ _ _ (pa_decoded _ _ _ Hp) Hlk) as (s & Hs & _ & Hd). cbn in Hd.
  rewrite <- (honest_lookup _ _ _ _ _ _ Hans) in Hs by lia.
  replace (CommitRange_start range + N.of_nat (pred (length out)))%N with e in Hs, Hidx by lia.
  destruct (verify_vote_blocks_honest si (si_verifier si) (mkCommitRef (Commit_index x) d) StakeAggregator_new [] svb Hsi eq_refl)
    as (si' & agg & bs & -> & Hsi' & Hagg & _ & Hvotes); [apply StakeAggregator_new_ok|done|].
  run_bind. rewrite (in_context _ Hsi'), (reached_threshold_spec c agg Hagg), bool_decide_eq_true_2.
  - rewrite zip_debug_eq_done by lia. run_bind. eexists _, _, _. split_and!; [done| |done|unfold range_size; lia].
    rewrite length_map, length_zip_with. lia.
  - etrans; [exact HX|]. apply set_sum_mono. intros a Ha. apply Hvotes. rewrite Hidx, Hd. by apply HXv.
Qed.

(** C14: correct peers are listened to. When a peer answers with the commits of the
    network from the start of the range up to some index in it, with valid blocks
    of a quorum that vote for the last one, and with the blocks it is asked for,
    the fetch succeeds and returns exactly those commits. *)
Theorem correct_peer_accepted debug si peer range e sc svb fetch_blocks :
  inner_ok si → range_ok range → max_blocks_per_fetch (parameters ctx) ≠ 0%N →
  honest_answer (si_verifier si) range e sc svb →
  (∀ request, (∀ r, r ∈ request → ∃ i bytes commit, (CommitRange_start range ≤ i ≤ e)%N ∧ chain i = Some bytes ∧
      bcs_commit_from bytes = Some commit ∧ r ∈ Commit_blocks commit) →
    ∃ ser, fetch_blocks request = Ok ser ∧ serves request ser) →
  ∃ si' commits, fetch_once debug si peer range (Ok ()) (Ok (sc, svb)) fetch_blocks = Done (si', Ok commits) ∧
    indices_are commits (CommitRange_start range) e ∧
    ∀ x, x ∈ certified_commits commits → on_chain (cc_commit x) ∧ carries_blocks x.
Proof using Hnw.
  intros Hsi Hr Hmax Hans Hserve. unfold fetch_once.
  destruct (verify_commits_honest debug si peer range e sc svb Hsi Hr Hans) as (si1 & commits & vbs & Hrun & Hlc & Hls & Hsize).
  destruct (verify_commits_spec debug si peer range sc svb Hsi Hr) as (si1' & r & Hrun' & Hsi1 & Hres); [done|].
  rewrite Hrun in Hrun'. injection Hrun' as <- <-. destruct (Hres _ _ eq_refl) as ((e' & He' & Hidx) & Hon & Hvb).
  assert (e' = e) as ->.
  { pose proof (f_equal length Hidx) as Hl. rewrite length_fmap, rangeN_length in Hl. destruct (ha_end _ _ _ _ _ Hans). lia. }
  rewrite Hrun. run_bind. rewrite (in_context _ Hsi1).
  destruct (fetch_commit_blocks_spec debug peer fetch_blocks commits Hmax) as (rb & Hfb & Hblocks).
  destruct (fetch_commit_blocks_honest debug peer fetch_blocks commits Hmax) as [m Hm].
  { intros request Hreq. apply Hserve. intros r (x & Hrx & Hx)%Hreq%list_elem_of_bind. destruct (Hon x Hx) as (Hch & Hdec & _).
    exists (tc_index x), (tc_serialized x), (tc_inner x). split_and!; [| |done|done|done];
      (assert (tc_index x ∈ rangeN (CommitRange_start range) (e + 1)) as Hin by (rewrite <- Hidx; by apply list_elem_of_fmap_2));
      apply elem_of_rangeN in Hin; lia. }
  rewrite Hm in Hfb |- *. injection Hfb as <-. run_bind. destruct (Hblocks m eq_refl) as [Hby Hdom].
  destruct (assemble_spec si1 range e commits vbs m) as (m' & out & si' & -> & Hrec & Hsi' & Hind & Hall); try done.
  { intros b Hb. eapply accepted_links; [|by apply Hvb]. apply Hsi. }
  run_bind. rewrite Hrec. run_bind. by eexists _, _.
Qed.

(** ** From the peers to Core *)

(** The held ranges and the commits sent come from the fetches. *)
Lemma process_fetched_from (Q : CertifiedCommits → Prop) core cs l cs' sent ok :
  (∀ r x, (r, x) ∈ l → Q x) → map_Forall (λ _ x, Q x) (cs_fetched_ranges cs) →
  process_fetched core cs l = Done (cs', sent, ok) →
  (∀ x, x ∈ sent → Q x) ∧ map_Forall (λ _ x, Q x) (cs_fetched_ranges cs').
Proof using.
  revert cs cs' sent. induction l as [|[r x] l IH]; intros cs cs' sent Hl Hcs; cbn [process_fetched].
  { intros [= <- <- <-]. split; [by intros y ?%elem_of_nil|done]. }
  case_decide; [|intros [= <- <- <-]; split; [by intros y ?%elem_of_nil|done]].
  assert (map_Forall (λ _ x, Q x) (delete r (cs_fetched_ranges cs))) as Hdel by (by apply map_Forall_delete).
  case_decide; [apply IH; [intros; eapply Hl; by right|done]|].
  destruct (core x) as [missing|].
  - intros (? & _ & Hrun)%bind_Done. apply bind_Done in Hrun as ([[cs1 sent1] ok1] & Hrun & [= <- <- <-]).
    apply IH in Hrun as [Hs Hf]; [|intros; eapply Hl; by right|done]. split; [|done].
    intros y [->|Hy]%elem_of_cons; [eapply Hl; by left|by apply Hs].
  - intros [= <- <- <-]. split; [|done]. intros y ->%list_elem_of_singleton. eapply Hl. by left.
Qed.

Lemma start_loop_fetched target cs l : cs_fetched_ranges (start_loop target cs l) = cs_fetched_ranges cs.
Proof using. revert cs. induction l as [|r l IH]; intros cs; cbn [start_loop]; [done|]. case_decide; [done|]. by rewrite IH. Qed.

Lemma schedule_loop_fetched q h cs l : cs_fetched_ranges (schedule_loop q h cs l) = cs_fetched_ranges cs.
Proof using.
  revert cs. induction l as [|r l IH]; intros cs; cbn [schedule_loop]; [done|]. case_decide; [done|]. case_decide; [done|]. by rewrite IH.
Qed.

Lemma on_tick_fetched cs q local handled peers cs' :
  on_tick cs q local handled peers = Done cs' → cs_fetched_ranges cs' = cs_fetched_ranges cs.
Proof using.
  unfold on_tick, try_schedule_once. intros (cs1 & (? & _ & [= <-])%bind_Done & [= <-])%bind_Done.
  unfold try_start_fetches. by rewrite start_loop_fetched, schedule_loop_fetched.
Qed.

Lemma on_fetched_from (Q : CertifiedCommits → Prop) core cs r commits lci peers cs' sent ok :
  Q commits → map_Forall (λ _ x, Q x) (cs_fetched_ranges cs) →
  on_fetched core cs r commits lci peers = Done (cs', sent, ok) →
  (∀ x, x ∈ sent → Q x) ∧ map_Forall (λ _ x, Q x) (cs_fetched_ranges cs').
Proof using.
  intros HQ Hcs. unfold on_fetched, handle_fetch_result.
  intros ([[cs1 sent1] ok1] & (a & _ & (b & _ & Hrun)%bind_Done)%bind_Done & [= <- <- <-])%bind_Done.
  unfold try_start_fetches. rewrite start_loop_fetched.
  match type of Hrun with process_fetched _ ?x _ = _ => set (cs2 := x) in Hrun end.
  assert (map_Forall (λ _ x, Q x) (cs_fetched_ranges cs2)) as Hcs2.
  { unfold cs2. clear Hrun cs2. repeat case_decide; cbn; try done; by apply map_Forall_insert_2. }
  eapply process_fetched_from; [|exact Hcs2|exact Hrun]. intros k x Hk. apply elem_of_map_in_order in Hk. by eapply Hcs2.
Qed.

(** The last index of a batch, and batches sent one after another. *)
Definition last_index (x : CertifiedCommits) : N := default 0%N (cc_index <$> last (certified_commits x)).

Lemma gapless_sorted s sent s' : gapless s sent s' →
  (s ≤ s')%N ∧ (∀ x, x ∈ sent → (s < last_index x ≤ s')%N) ∧ StronglySorted (λ a b, last_index a < last_index b)%N sent.
Proof using.
  clear f byz chain Hnw. induction 1 as [s|s a b x sent s' Hx Ha Hb _ (Hle & Hin & Hs)].
  { split_and!; [done|by intros x ?%elem_of_nil|constructor]. }
  assert (last_index x = b) as Hlast.
  { destruct (indices_ends x a b) as (y & z & _ & _ & Hz & Hzi); [|done|unfold last_index; by rewrite Hz].
    destruct (decide (a ≤ b)%N); [done|]. exfalso. lia. }
  split_and!; [lia| |].
  - intros y [->|Hy]%elem_of_cons; [lia|]. specialize (Hin y Hy). lia.
  - constructor; [done|]. apply Forall_forall. intros y Hy. specialize (Hin y Hy). lia.
Qed.

(** Runs of the syncer in which every finished fetch is [fetch_once] on the answers of
    some peer; [sent] are the batches Core received so far. *)
Inductive sync_run (start : N) : CommitSyncer → list CertifiedCommits → Prop :=
  | sync_new : sync_run start (CommitSyncer_new ctx start) []
  | sync_tick cs sent cs' : sync_run start cs sent → tick_step ctx cs cs' → sync_run start cs' sent
  | sync_fetched cs sent si peer r probe fetch_commits fetch_blocks si' commits core lci peers cs' new ok :
      sync_run start cs sent → inner_ok si → r ∈ cs_inflight_fetches cs →
      fetch_once false si peer r probe fetch_commits fetch_blocks = Done (si', Ok commits) →
      core_ok c core → (lci < u32_MAX)%N → on_fetched core cs r commits lci peers = Done (cs', new, ok) →
      sync_run start cs' (sent ++ new).

Definition certified_batch (x : CertifiedCommits) : Prop :=
  ∀ y, y ∈ certified_commits x → on_chain (cc_commit y) ∧ carries_blocks y.

Record sync_ok (cs : CommitSyncer) (sent : list CertifiedCommits) : Prop := {
  so_run : run_ok ctx cs;
  so_held : map_Forall (λ _ x, certified_batch x) (cs_fetched_ranges cs);
  so_sent x : x ∈ sent → certified_batch x ∧ (last_index x ≤ cs_synced_commit_index cs)%N;
  so_order : StronglySorted (λ a b, last_index a < last_index b)%N sent;
}.

Lemma sync_fetched_ok cs sent r commits core lci peers cs' new ok :
  sync_ok cs sent → r ∈ cs_inflight_fetches cs → fetch_ok r commits → certified_batch commits → core_ok c core →
  (lci < u32_MAX)%N → on_fetched core cs r commits lci peers = Done (cs', new, ok) → sync_ok cs' (sent ++ new).
Proof using.
  intros [Hrun Hheld Hsent Horder] Hr Hf Hbatch Hcore Hlci Hstep.
  destruct (on_fetched_run ctx core cs r commits lci peers Hrun Hcore Hr Hf Hlci) as (cs1 & new1 & Hstep1 & Hrun1 & _ & _ & Hg).
  rewrite Hstep in Hstep1. injection Hstep1 as <- <- ->.
  destruct (on_fetched_from certified_batch core cs r commits lci peers cs' new true Hbatch Hheld Hstep) as [Hnew Hheld'].
  apply gapless_sorted in Hg as (Hle & Hin & Hs). split; [done|done| |].
  - intros x [Hx|Hx]%elem_of_app; [destruct (Hsent x Hx); split; [done|lia]|]. split; [by apply Hnew|by apply Hin].
  - apply StronglySorted_app. split_and!; [|done|done].
    intros x y Hx Hy. destruct (Hsent x Hx). specialize (Hin y Hy). lia.
Qed.

(** C10: what Core receives from the commit syncer are commits of the network. In
    every run of ticks and finished fetches, whatever the peers answered, every
    commit of every batch sent to Core is a commit of the network and carries
    exactly its blocks, and the batches are sent in the order of their commits. *)
Theorem core_receives_chain start cs sent :
  (0 < commit_sync_batch_size (parameters ctx))%N → (start < u32_MAX)%N → max_blocks_per_fetch (parameters ctx) ≠ 0%N →
  sync_run start cs sent →
  (∀ x y, x ∈ sent → y ∈ certified_commits x → on_chain (cc_commit y) ∧ carries_blocks y) ∧
  StronglySorted (λ a b, last_index a < last_index b)%N sent.
Proof using Hnw.
  intros Hstep Hstart Hmax Hrun. assert (sync_ok cs sent) as Hok; [|split; [intros x y Hx; by apply (so_sent _ _ Hok x Hx)|apply Hok]].
  induction Hrun as [|cs sent cs' _ IH (q & local & handled & peers & Hq & Hl & Htick)
    |cs sent si peer r probe fc fb si' commits core lci peers cs' new ok _ IH Hsi Hr Hfetch Hcore Hlci Hrun].
  - split; [by apply new_ok|done|by intros x ?%elem_of_nil|constructor].
  - destruct IH as [Hrun Hheld Hsent Horder].
    destruct (on_tick_spec ctx cs q local handled peers Hrun Hstep Hq Hl) as (cs1 & Htick1 & Hrun1 & Hsyn & _). rewrite Htick in Htick1. injection Htick1 as <-.
    split; [done|by rewrite (on_tick_fetched _ _ _ _ _ _ Htick)| |done].
    intros x Hx. destruct (Hsent x Hx). split; [done|lia].
  - assert (range_ok r) as Hrok.
    { apply (sy_ranges _ _ (run_syncer _ _ (so_run _ _ IH))). unfold tracked, wanted. rewrite !elem_of_app. auto. }
    destruct (fetch_once_spec false si peer r probe fc fb Hsi Hrok Hmax) as (si1 & res & Hfetch1 & _ & Hres); [done|].
    rewrite Hfetch in Hfetch1. injection Hfetch1 as <- <-. destruct (Hres commits eq_refl) as [Hf Hb]. by eapply sync_fetched_ok.
Qed.
End fetch.

(** ** A concrete network

    Two commits, one block each. Authorities sign only blocks that vote for the second
    commit; authority 3 is faulty. *)

#[local] Instance chain_codec : BlockCodec := {|
  hash_bytes := λ bytes, Npos (encode bytes);
  bcs_signed_block := λ _, Some [];
|}.

Definition second_ref : CommitRef := mkCommitRef 2 (hash_bytes [2]%N).

#[local] Instance chain_crypto : BlockCrypto := {|
  Signature := list N;
  bcs_block := λ b, Some [if decide (Forall (λ ref, ref = second_ref) (Block_commit_votes b)) then 1 else 0]%N;
  bcs_block_intent := λ digest, Some [digest];
  signature_from_bytes := λ bytes, Some bytes;
  protocol_key_verify := λ _ message _, bool_decide (message = [hash_bytes [1]%N]);
|}.

Definition chain_block (r a : N) (anc : list BlockRef) (votes : list CommitRef) : SignedBlock :=
  mkSignedBlock (V2 (mkBlockV2 0 r a 10 anc [] [] votes [])) [].

(** The block of commit [i], of authority 0 at round [i], and blocks of round 4. *)
Definition chain_ref (i : N) : BlockRef := mkBlockRef i 0 (hash_bytes [10; i]%N).

Definition vote_ancestors (a : N) : list BlockRef :=
  mkBlockRef 3 a 9 :: filter (λ r, ref_author r ≠ a) [mkBlockRef 3 0 9; mkBlockRef 3 1 9; mkBlockRef 3 2 9].

Definition decode_block (bytes : list N) : option SignedBlock :=
  match bytes with
  | [10; i]%N => Some (chain_block i 0 [] [])
  | [20; a]%N => Some (chain_block 4 a (vote_ancestors a) [second_ref])
  | _ => None
  end.

Definition chain_commit (i prev : N) : Commit := Commit_new i prev 0 (chain_ref i) [chain_ref i].

Definition decode_commit (bytes : list N) : option Commit :=
  match bytes with
  | [1]%N => Some (chain_commit 1 0)
  | [2]%N => Some (chain_commit 2 (hash_bytes [1]%N))
  | [3]%N => Some (chain_commit 3 (hash_bytes [2]%N))
  | _ => None
  end.

#[local] Instance chain_fetch_codec : FetchCodec := {| bcs_commit_from := decode_commit; bcs_signed_block_from := decode_block |}.

Definition two_commits (i : N) : option (list N) := if decide (i = 1 ∨ i = 2)%N then Some [i] else None.

Lemma decode_block_Some bytes sb : decode_block bytes = Some sb →
  (∃ i, bytes = [10; i]%N ∧ sb = chain_block i 0 [] []) ∨
  (∃ a, bytes = [20; a]%N ∧ sb = chain_block 4 a (vote_ancestors a) [second_ref]).
Proof.
  unfold decode_block. repeat (case_match; try done); intros [= <-]; eauto.
Qed.

Lemma two_commits_Some i bytes : two_commits i = Some bytes →
  (i = 1%N ∧ bytes = [1]%N) ∨ (i = 2%N ∧ bytes = [2]%N).
Proof. unfold two_commits. case_decide as Hi; [|done]. intros [= <-]. destruct Hi as [-> | ->]; auto. Qed.

Lemma chain_votes v sb ref : block_accepted v sb → bv_context v = syncing_context → ref ∈ Block_commit_votes (inner sb) → ref = second_ref.
Proof.
  intros Hb Hv Hin. destruct (authority_valid (committee (bv_context v)) (Block_author (inner sb))) as [a Ha]; [apply Hb|].
  pose proof (ba_signature _ _ Hb a Ha) as Hsig. unfold verify_block_signature, compute_inner_block_digest in Hsig. cbn -[hash_bytes] in Hsig.
  destruct (decide (Forall (λ ref, ref = second_ref) (Block_commit_votes (inner sb)))) as [Hall|]; [|by vm_compute in Hsig].
  rewrite Forall_forall in Hall. by apply Hall.
Qed.

Lemma chain_network : network_ok syncing_context 1 {[3%N]} two_commits.
Proof.
  split.
  - exact committee_4_ok.
  - by vm_compute.
  - by vm_compute.
  - intros bytes sb [(i & -> & ->)|(a & -> & ->)]%decode_block_Some; by vm_compute.
  - intros v sb ref Hv Hb _ Hin. rewrite (chain_votes v sb ref Hb Hv Hin). exists [2]%N. done.
  - intros i bytes [[-> ->]|[-> ->]]%two_commits_Some; eexists; (split_and!; [done|done|]); [done|]. intros _. exists [1]%N. done.
  - intros i bytes s _ Heq. unfold compute_digest, hash_bytes in Heq. cbn in Heq. injection Heq as Heq. by apply (inj encode) in Heq.
  - intros i bytes commit Hi Hc. assert (Commit_blocks commit = [chain_ref i]) as ->.
    { apply two_commits_Some in Hi as [[-> ->]|[-> ->]]; cbn in Hc; injection Hc as <-; done. }
    split; [apply NoDup_singleton|]. intros r ->%list_elem_of_singleton. split_and!; [done| |].
    + intros s sb a Hs Href Ha. apply decode_block_Some in Hs as [(j & -> & ->)|(x & -> & ->)]; [by apply elem_of_nil in Ha|].
      unfold reference, chain_ref in Href. cbn -[hash_bytes compute_digest] in Href. injection Href as _ Hx _. subst x.
      revert Ha. vm_compute. intros Ha. repeat (apply elem_of_cons in Ha as [->|Ha]; [done|]). by apply elem_of_nil in Ha.
    + intros j bytes' commit' Hj Hc' Hr. assert (Commit_blocks commit' = [chain_ref j]) as Hb.
      { apply two_commits_Some in Hj as [[-> ->]|[-> ->]]; cbn in Hc'; injection Hc' as <-; done. }
      rewrite Hb in Hr. apply list_elem_of_singleton in Hr. unfold chain_ref in Hr. injection Hr as Hr _. congruence.
Qed.

Definition chain_inner : SyncerInner :=
  mkSyncerInner syncing_context (mkSignedBlockVerifier syncing_context ∅) (VoteTrackerState_new syncing_context)
    (CommitVoteMonitor_new syncing_context)
    (from_done (mkRoundTracker syncing_context [] [] [] []) (RoundTracker_new syncing_context [])).

Lemma chain_inner_ok : inner_ok syncing_context chain_inner.
Proof.
  split; [done|done| |done|].
  - eexists. apply VoteTrackerState_new_ok.
  - destruct (RoundTracker_new_ok syncing_context []) as (rt & Hrun & Hok); [by left|].
    unfold chain_inner. cbn [si_round_tracker]. by rewrite Hrun.
Qed.

Definition serve_blocks (request : list BlockRef) : ConsensusResult (list (list N)) :=
  Ok ((λ r, [10; ref_round r]%N) <$> request).

Definition chain_votes_3 : list (list N) := [[20; 0]; [20; 1]; [20; 2]]%N.

Definition result_indices (m : outcome (SyncerInner * ConsensusResult CertifiedCommits)) : list N :=
  match m with Done (_, Ok x) => cc_index <$> certified_commits x | _ => [] end.

(** A peer sends one commit past the range: it is dropped. *)
Definition eager_fetch (debug : bool) : outcome (SyncerInner * ConsensusResult CertifiedCommits) :=
  fetch_once debug chain_inner (Validator 1) (CommitRange_new 1 2) (Ok ()) (Ok ([[1]; [2]; [3]], chain_votes_3)%N) serve_blocks.

Lemma eager_fetch_indices : result_indices (eager_fetch false) = [1; 2]%N.
Proof. vm_compute. reflexivity. Qed.

Lemma fetched_commits_correct_witness :
  ∃ si' commits, eager_fetch false = Done (si', Ok commits) ∧ inner_ok syncing_context si' ∧
    cc_index <$> certified_commits commits = [1; 2]%N ∧ fetch_ok (CommitRange_new 1 2) commits.
Proof.
  destruct (fetched_commits_correct syncing_context 1 {[3%N]} two_commits chain_network false chain_inner (Validator 1)
    (CommitRange_new 1 2) (Ok ()) (Ok ([[1]; [2]; [3]], chain_votes_3)%N) serve_blocks) as (si' & r & Hrun & Hsi & Hres);
    [exact chain_inner_ok|apply range_new_ok; by vm_compute|by vm_compute|done|].
  pose proof eager_fetch_indices as Hidx. unfold eager_fetch in Hidx. rewrite Hrun in Hidx.
  destruct r as [commits|e]; [|vm_compute in Hidx; discriminate Hidx].
  exists si', commits. refine (conj Hrun (conj Hsi (conj Hidx _))). by apply Hres.
Defined.

(** With debug assertions the same answer is fatal: the parsed commits are zipped
    with all the serialized ones, those past the end of the range included. *)
Theorem extra_commit_fatal_in_debug : eager_fetch true = Panic.
Proof. vm_compute. reflexivity. Qed.

Lemma votes_votable s : s ∈ chain_votes_3 → votable (si_verifier chain_inner) s.
Proof.
  intros Hs. repeat (apply elem_of_cons in Hs as [->|Hs]; [eexists _, _; split; [reflexivity|vm_compute; reflexivity]|]).
  by apply elem_of_nil in Hs.
Qed.

Lemma honest_answer_sample : honest_answer syncing_context two_commits (si_verifier chain_inner) (CommitRange_new 1 2) 2 [[1]; [2]]%N chain_votes_3.
Proof.
  split; [split; by vm_compute|reflexivity|exact votes_votable|].
  exists (list_to_set [0; 1; 2]%N). split; [by vm_compute|]. intros a bytes Ha [[? _]|[_ ->]]%two_commits_Some; [done|].
  apply elem_of_list_to_set in Ha. exists [20; a]%N, (chain_block 4 a (vote_ancestors a) [second_ref]).
  split_and!; [|done|done|apply list_elem_of_singleton; reflexivity].
  repeat (apply elem_of_cons in Ha as [->|Ha]; [unfold chain_votes_3; auto with lists|]); [..|by apply elem_of_nil in Ha]; set_solver.
Qed.

Lemma serve_blocks_ok request :
  (∀ r, r ∈ request → ∃ i bytes commit, (1 ≤ i ≤ 2)%N ∧ two_commits i = Some bytes ∧
    bcs_commit_from bytes = Some commit ∧ r ∈ Commit_blocks commit) →
  ∃ ser, serve_blocks request = Ok ser ∧ serves request ser.
Proof.
  intros Hreq. eexists. split; [reflexivity|]. unfold serves. induction request as [|r request IH]; [constructor|].
  constructor; [|apply IH; intros; apply Hreq; auto with lists].
  destruct (Hreq r) as (i & bytes & commit & _ & Hi & Hc & Hr); [auto with lists|].
  assert (r = chain_ref i) as ->.
  { apply two_commits_Some in Hi as [[-> ->]|[-> ->]]; cbn in Hc; injection Hc as <-; by apply list_elem_of_singleton in Hr. }
  exists (chain_block i 0 [] []). done.
Qed.

Lemma correct_peer_accepted_witness :
  ∃ si' commits, fetch_once true chain_inner (Validator 1) (CommitRange_new 1 2) (Ok ()) (Ok ([[1]; [2]], chain_votes_3)%N)
      serve_blocks = Done (si', Ok commits) ∧ indices_are commits 1 2.
Proof.
  destruct (correct_peer_accepted syncing_context 1 {[3%N]} two_commits chain_network true chain_inner (Validator 1)
    (CommitRange_new 1 2) 2 [[1]; [2]]%N chain_votes_3 serve_blocks) as (si' & commits & Hrun & Hidx & _);
    [exact chain_inner_ok|apply range_new_ok; by vm_compute|by vm_compute|exact honest_answer_sample|exact serve_blocks_ok|].
  exists si', commits. exact (conj Hrun Hidx).
Defined.

Definition eager_result : SyncerInner * CertifiedCommits :=
  match eager_fetch false with Done (si, Ok x) => (si, x) | _ => (chain_inner, mkCertifiedCommits [] []) end.

Lemma eager_result_run : eager_fetch false = Done (eager_result.1, Ok eager_result.2).
Proof. vm_compute. reflexivity. Qed.

(** A new node learns of commit 2 and fetches it. *)
Definition catching_up : CommitSyncer := mkCommitSyncer syncing_context [CommitRange_new 1 2] ∅ ∅ (Some 2%N) 0 0.
Definition caught_up : CommitSyncer := mkCommitSyncer syncing_context [] ∅ ∅ (Some 2%N) 2 2.

Lemma catching_up_run : on_tick (CommitSyncer_new syncing_context 0) 2 0 0 4 = Done catching_up.
Proof. vm_compute. reflexivity. Qed.

Lemma caught_up_run :
  on_fetched quiet_core catching_up (CommitRange_new 1 2) eager_result.2 0 4 = Done (caught_up, [eager_result.2], true).
Proof. vm_compute. reflexivity. Qed.

Lemma caught_up_reached : sync_run syncing_context 0 caught_up [eager_result.2].
Proof.
  apply (sync_fetched syncing_context 0 catching_up [] chain_inner (Validator 1) (CommitRange_new 1 2) (Ok ())
    (Ok ([[1]; [2]; [3]], chain_votes_3)%N) serve_blocks eager_result.1 eager_result.2 quiet_core 0 4 caught_up [eager_result.2] true).
  - apply (sync_tick syncing_context 0 (CommitSyncer_new syncing_context 0)); [constructor|].
    exists 2%N, 0%N, 0%N, 4%N. exact (conj eq_refl (conj eq_refl catching_up_run)).
  - exact chain_inner_ok.
  - apply list_elem_of_singleton. reflexivity.
  - exact eager_result_run.
  - exact quiet_core_ok.
  - by vm_compute.
  - exact caught_up_run.
Qed.

Lemma core_receives_chain_witness :
  sync_run syncing_context 0 caught_up [eager_result.2] ∧
  cc_index <$> certified_commits eager_result.2 = [1; 2]%N ∧
  ∀ y, y ∈ certified_commits eager_result.2 → on_chain two_commits (cc_commit y) ∧ carries_blocks y.
Proof.
  split; [exact caught_up_reached|]. split; [vm_compute; reflexivity|]. intros y.
  refine (proj1 (core_receives_chain syncing_context 1 {[3%N]} two_commits chain_network 0 caught_up [eager_result.2] _ _ _ caught_up_reached) _ y _);
    [by vm_compute|by vm_compute|by vm_compute|apply list_elem_of_singleton; reflexivity].
Defined.
