(* ===== verification/CommitObserver.v ===== *)
(** * Commit observer (consensus/core/src/commit_observer.rs)

    Turns committed leaders into sub-dags for the finalizer, and resends the commits
    that the application has not processed after a restart. The channel to the
    finalizer is the list of the sub-dags sent; whether a send succeeds is a
    parameter. The theorem shows that a restart resends exactly the missing commits,
    in order, with what the finalizer needs to process them. *)

From S2P Require Import Prelude Committee Block StakeAggregator ThresholdClock Commit Store LeaderScoring.
From S2P Require Import DagState DagInvariant DagDurability CausalHistory Linearizer TransactionVoteTracker.
From S2P Require Import CommitFinalizer CommitFinalizerSpec CommitFinalizerSafety CommitSyncer CommitSyncerSpec.

(** The value outside of tests. *)
Definition COMMIT_RECOVERY_BATCH_SIZE : N := 250.

Definition set_decided_with_local_blocks (local : bool) (sd : CommittedSubDag) : CommittedSubDag :=
  mkCommittedSubDag (sd_leader sd) (sd_blocks sd) (sd_timestamp_ms sd) (sd_commit_ref sd) local
    (sd_recovered_rejected_transactions sd) (sd_rejected_transactions_by_block sd).

(** Sending to the finalizer: [send sd] tells whether the channel is open. The result
    has the sub-dags sent, and the error of the first failure. *)
Fixpoint send_all (send : CommittedSubDag → bool) (sent l : list CommittedSubDag) : list CommittedSubDag * ConsensusResult () :=
  match l with
  | [] => (sent, Ok ())
  | sd :: l => if send sd then send_all send (sent ++ [sd]) l else (sent, Err Shutdown)
  end.

Section observer.
Context {S : Type} `{Store S} `{BlockCodec} `{CommitCodec}.
Implicit Types ds : DagState S.

Definition observer_handle_commit (send : CommittedSubDag → bool) ds (committed_leaders : list VerifiedBlock) (local : bool) :
    outcome (DagState S * list CommittedSubDag * ConsensusResult (list CommittedSubDag)) :=
  '(ds, committed_sub_dags) ← handle_commit ds committed_leaders;
  let committed_sub_dags := set_decided_with_local_blocks local <$> committed_sub_dags in
  match send_all send [] committed_sub_dags with
  | (sent, Err e) => Done (ds, sent, Err e)
  | (sent, Ok _) =>
      ds ← add_scoring_subdags ds committed_sub_dags;
      Done (ds, sent, Ok committed_sub_dags)
  end.

(** The variables of the recovery loops. *)
Record Recovery := mkRecovery {
  rv_dag_state : DagState S;
  rv_tracker : VoteTrackerState;
  rv_last_sent_commit_index : N;
  rv_seen_unfinalized_commit : bool;
  rv_sent : list CommittedSubDag;
}.

Section recovery.
Context (verifier_vote : VerifiedBlock → ConsensusResult (list N)) (send : CommittedSubDag → bool).

(** One iteration of the loop on the unsent commits. *)
Definition resend_commit (st : Recovery) (commit : TrustedCommit) : outcome Recovery :=
  let last_sent_commit_index := rv_last_sent_commit_index st +₃₂ 1 in
  rassert (tc_index commit = last_sent_commit_index);;
  committed_sub_dag ← load_committed_subdag_from_store (ds_store (rv_dag_state st)) commit;
  let seen_unfinalized_commit := rv_seen_unfinalized_commit st || negb (sd_recovered_rejected_transactions committed_sub_dag) in
  tracker ← (if seen_unfinalized_commit then
      rassert (sd_recovered_rejected_transactions committed_sub_dag = false);;
      rassert (sd_decided_with_local_blocks committed_sub_dag = false);;
      recover_and_vote_on_blocks verifier_vote (rv_tracker st) (rv_dag_state st) (sd_blocks committed_sub_dag)
    else Done (rv_tracker st));
  rassert (send committed_sub_dag = true);;
  Done (mkRecovery (rv_dag_state st) tracker last_sent_commit_index seen_unfinalized_commit (rv_sent st ++ [committed_sub_dag])).

(** One iteration of the loop on the batches. *)
Definition resend_batch (last_commit_index : N) (st : Recovery) (start_index : N) : outcome Recovery :=
  let end_index := N.min (u32_saturating_add start_index (COMMIT_RECOVERY_BATCH_SIZE - 1)) last_commit_index in
  unsent_commits ← call (store_scan_commits (ds_store (rv_dag_state st)) (CommitRange_new start_index end_index));
  difference ← unwrap (checked_sub end_index start_index);
  rassert ((lengthN unsent_commits) mod u32_modulus = difference +₃₂ 1)%N;;
  for_each resend_commit
    (mkRecovery (recover_commits_to_write (rv_dag_state st) unsent_commits) (rv_tracker st)
      (rv_last_sent_commit_index st) (rv_seen_unfinalized_commit st) (rv_sent st)) unsent_commits.

Definition recover_and_send_commits ds (tracker : VoteTrackerState) (replay_after_commit_index : N) : outcome Recovery :=
  let st := mkRecovery ds tracker replay_after_commit_index false [] in
  last_commit ← call (store_read_last_commit (ds_store ds));
  match last_commit with
  | None => rassert (replay_after_commit_index = 0%N);; Done st
  | Some last_commit =>
      let last_commit_index := tc_index last_commit in
      if decide (last_commit_index = replay_after_commit_index) then Done st
      else
        rassert (replay_after_commit_index < last_commit_index)%N;;
        ensure_commits_to_write_is_empty ds;;
        st ← for_each (resend_batch last_commit_index) st
          (step_by (replay_after_commit_index +₃₂ 1) last_commit_index COMMIT_RECOVERY_BATCH_SIZE);
        rassert (rv_last_sent_commit_index st = last_commit_index);;
        Done st
  end.

(** [CommitObserver::new], without starting the tasks. *)
Definition CommitObserver_new ds (tracker : VoteTrackerState) (replay_after_commit_index : N) : outcome Recovery :=
  st ← recover_and_send_commits ds tracker replay_after_commit_index;
  tracker ← recover_blocks_after_round verifier_vote (rv_tracker st) (rv_dag_state st) (gc_round (rv_dag_state st));
  Done (mkRecovery (rv_dag_state st) tracker (rv_last_sent_commit_index st) (rv_seen_unfinalized_commit st) (rv_sent st)).

End recovery.
End observer.

Arguments Recovery : clear implicits.
Arguments mkRecovery {S}.

(** ** What a restart resends *)

(** [commits] are the commits of the epoch in the store, and [sds] their sub-dags. *)
Record epoch_store {S} `{Store S} (store : S) (commits : list TrustedCommit) (sds : list CommittedSubDag) : Prop := {
  es_last : store_read_last_commit store = Done (Ok (last commits));
  es_scan i j : i < j ≤ length commits →
    store_scan_commits store (CommitRange_new (N.of_nat i + 1) (N.of_nat j)) = Done (Ok (take (j - i) (drop i commits)));
  es_load : Forall2 (λ c sd, load_committed_subdag_from_store store c = Done sd) commits sds;
  es_index i c : commits !! i = Some c → tc_index c = (N.of_nat i + 1)%N;
}.

(** The commits without an entry of rejected transactions come after those with one. *)
Definition finalized_prefix (sds : list CommittedSubDag) : Prop :=
  ∀ i j sd sd', sds !! i = Some sd → sds !! j = Some sd' → i ≤ j →
    sd_recovered_rejected_transactions sd' = true → sd_recovered_rejected_transactions sd = true.

Definition unfinalized (sds : list CommittedSubDag) : list CommittedSubDag :=
  filter (λ sd, sd_recovered_rejected_transactions sd = false) sds.

Lemma load_flags {S} `{Store S} (store : S) commit sd :
  load_committed_subdag_from_store store commit = Done sd → sd_decided_with_local_blocks sd = sd_recovered_rejected_transactions sd.
Proof. unfold load_committed_subdag_from_store. intros. invert_done. by case_match. Qed.

Section recovery_spec.
Context {S : Type} `{Store S}.
Context (ctx : Context) (Hc : committee_ok (committee ctx)).
Implicit Types ds : DagState S.

Lemma add_voted_list h vt l :
  vote_tracker_ok ctx h vt → (∀ x, x ∈ l → (author x.1 < Committee_size (committee ctx))%N) →
  ∃ vt' h', add_voted_blocks vt l = Done vt' ∧ vote_tracker_ok ctx h' vt' ∧ h'.1 = h.1 ∧ dom h.2 ⊆ dom h'.2 ∧
    ∀ x, x ∈ l → (h.1 < round x.1)%N → reference x.1 ∈ dom h'.2.
Proof using Hc.
  unfold add_voted_blocks. revert h vt. induction l as [|[b own] l IH]; intros h vt Hvt Hl; cbn [for_each].
  { exists vt, h. split_and!; try done. by intros x ?%elem_of_nil. }
  destruct (tracker_step_ok ctx h vt (AddBlock b own) Hc) as (vt1 & Hrun & Hvt1); [apply (Hl (b, own)); auto with lists|done|done|].
  cbn [tracker_step] in Hrun. rewrite Hrun. run_bind.
  destruct (IH _ vt1 Hvt1) as (vt' & h' & Hrun' & Hvt' & Hgc & Hsub & Hin); [auto with lists|].
  cbn [taken_step fst snd] in Hgc, Hsub, Hin. exists vt', h'. split_and!; [exact Hrun'|done|done| |].
  - etrans; [|exact Hsub]. case_decide; [done|]. rewrite dom_insert_L. set_solver.
  - intros x [->|Hx]%elem_of_cons; [|by apply Hin]. cbn. intros Hr. apply Hsub. case_decide as Hd; [|rewrite dom_insert_L; set_solver].
    destruct Hd; [lia|done].
Qed.

Context (verifier_vote : VerifiedBlock → ConsensusResult (list N)) (send : CommittedSubDag → bool).

(** What the node needs to vote on a block again. *)
Definition recoverable ds (b : VerifiedBlock) : Prop :=
  (author b < Committee_size (committee ctx))%N ∧ ((gc_round ds < round b)%N → reference b ∈ dom (ds_recent_blocks ds)) ∧
  ∃ rejects, verifier_vote b = Ok rejects.

Lemma recover_and_vote_ok ds h vt blocks :
  vote_tracker_ok ctx h vt → (∀ b, b ∈ blocks → recoverable ds b) →
  ∃ vt' h', recover_and_vote_on_blocks verifier_vote vt ds blocks = Done vt' ∧ vote_tracker_ok ctx h' vt' ∧ h'.1 = h.1 ∧
    dom h.2 ⊆ dom h'.2 ∧ ∀ b, b ∈ blocks → (h.1 < round b)%N → reference b ∈ dom h'.2.
Proof using Hc.
  intros Hvt Hb. unfold recover_and_vote_on_blocks.
  destruct (mapM_total (λ b, if decide (gc_round ds < round b)%N
    then included ← has_been_included ds (reference b); Done (negb included) else Done false) (λ _ _, True) blocks) as (should & -> & Hs).
  { intros b Hin. case_decide as Hgc; [|by exists false]. destruct (Hb b Hin) as (_ & Hd & _). apply Hd, elem_of_dom in Hgc as [info Hi].
    unfold has_been_included. rewrite Hi. cbn. by eexists. }
  run_bind. apply Forall2_length in Hs.
  destruct (mapM_total (λ '(b, should_vote), if should_vote : bool
    then rejects ← unwrap_ok (verifier_vote b); Done (b, rejects) else Done (b, [])) (λ x y, y.1 = x.1) (zip blocks should)) as (voted & -> & Hv).
  { intros [b sv] Hin. apply elem_of_zip_l in Hin. destruct (Hb b Hin) as (_ & _ & rejects & Hvote).
    destruct sv; [|by exists (b, [])]. rewrite Hvote. cbn. by exists (b, rejects). }
  run_bind. assert (voted.*1 = blocks) as Hfst.
  { transitivity ((zip blocks should).*1); [|apply fst_zip; lia]. symmetry. clear Hs. induction Hv as [|x y l k Hxy _ IH]; [done|]. rewrite !fmap_cons. congruence. }
  destruct (add_voted_list h vt voted Hvt) as (vt' & h' & Hrun & Hvt' & Hgc & Hsub & Hin).
  { intros x Hx. apply Hb. rewrite <- Hfst. by apply list_elem_of_fmap_2. }
  exists vt', h'. split_and!; try done. intros b Hbin Hr. rewrite <- Hfst in Hbin. apply list_elem_of_fmap in Hbin as (x & -> & Hx). by apply Hin.
Qed.


Context (ds : DagState S) (h : N * taken_blocks) (commits : list TrustedCommit) (sds : list CommittedSubDag) (r : nat).
Context (Hepoch : epoch_store (ds_store ds) commits sds) (Hprefix : finalized_prefix sds).
Context (Hbound : (lengthN commits < u32_MAX)%N) (Hr : r ≤ length commits).
Context (Hsend : ∀ sd, sd ∈ sds → send sd = true).
Context (Hblocks : ∀ sd b, sd ∈ unfinalized sds → b ∈ sd_blocks sd → recoverable ds b ∧ (h.1 < round b)%N).

(** The state after the commits up to the [k]-th were resent; those up to the [w]-th
    are buffered. *)
Record recovery_at (k w : nat) (st : Recovery S) : Prop := {
  ra_dag : rv_dag_state st = recover_commits_to_write ds (take (w - r) (drop r commits));
  ra_last : rv_last_sent_commit_index st = N.of_nat k;
  ra_sent : rv_sent st = take (k - r) (drop r sds);
  ra_seen : rv_seen_unfinalized_commit st = bool_decide (unfinalized (rv_sent st) ≠ []);
  ra_tracker : ∃ h', vote_tracker_ok ctx h' (rv_tracker st) ∧ h'.1 = h.1 ∧
    ∀ sd b, sd ∈ unfinalized (rv_sent st) → b ∈ sd_blocks sd → reference b ∈ dom h'.2;
}.

Lemma sds_length : length sds = length commits.
Proof using Hepoch. by rewrite <- (Forall2_length _ _ _ (es_load _ _ _ Hepoch)). Qed.

(** Once a commit is not finalized, none after it is. *)
Lemma seen_flag k w st sd :
  r ≤ k → recovery_at k w st → sds !! k = Some sd →
  rv_seen_unfinalized_commit st || negb (sd_recovered_rejected_transactions sd) = negb (sd_recovered_rejected_transactions sd).
Proof using All.
  intros Hk [_ _ Hsent -> _] Hsd. destruct (sd_recovered_rejected_transactions sd) eqn:Hrec; [|by rewrite orb_true_r].
  rewrite orb_false_r. apply bool_decide_eq_false_2. intros Hne. apply Hne.
  destruct (unfinalized (rv_sent st)) as [|x l] eqn:Hu; [done|].
  assert (x ∈ unfinalized (rv_sent st)) as Hx by (rewrite Hu; auto with lists). apply list_elem_of_filter in Hx as [Hx1 Hx2].
  rewrite Hsent in Hx2. apply list_elem_of_lookup in Hx2 as [j Hj]. apply lookup_take_Some in Hj as [Hj Hjk]. rewrite lookup_drop in Hj.
  rewrite (Hprefix (r + j) k x sd Hj Hsd ltac:(lia) Hrec) in Hx1. done.
Qed.

Lemma resend_sub_dag k w st commit :
  r ≤ k → recovery_at k w st → commits !! k = Some commit →
  ∃ st', resend_commit verifier_vote send st commit = Done st' ∧ recovery_at (Datatypes.S k) w st'.
Proof using All.
  intros Hk Hst Hcommit. pose proof Hst as [Hdag Hlast Hsent Hseen (h1 & Hvt & Hgc & Hin)]. pose proof (lookup_lt_Some _ _ _ Hcommit) as Hlt.
  unfold resend_commit. rewrite (es_index _ _ _ Hepoch k commit Hcommit), Hlast. unfold lengthN, u32_MAX in Hbound.
  rewrite wrap_add_small by lia. rewrite rassert_true by done. run_bind.
  destruct (Forall2_lookup_l _ _ _ _ _ (es_load _ _ _ Hepoch) Hcommit) as (sd & Hsd & Hload).
  assert (ds_store (rv_dag_state st) = ds_store ds) as -> by (by rewrite Hdag). rewrite Hload. run_bind.
  assert (take (Datatypes.S k - r) (drop r sds) = rv_sent st ++ [sd]) as Htake.
  { rewrite Hsent. replace (Datatypes.S k - r) with (Datatypes.S (k - r)) by lia. apply take_S_r. rewrite lookup_drop. by replace (r + (k - r)) with k by lia. }
  assert (sd ∈ sds) as Hsdin by (by eapply list_elem_of_lookup_2).
  rewrite (Hsend sd Hsdin). set (seen := rv_seen_unfinalized_commit st || _).
  assert (seen = negb (sd_recovered_rejected_transactions sd)) as Hflag by (by apply (seen_flag k w st sd)).
  assert (∃ vt h2, (if seen then
      rassert (sd_recovered_rejected_transactions sd = false);;
      rassert (sd_decided_with_local_blocks sd = false);;
      recover_and_vote_on_blocks verifier_vote (rv_tracker st) (rv_dag_state st) (sd_blocks sd)
    else Done (rv_tracker st)) = Done vt ∧ vote_tracker_ok ctx h2 vt ∧ h2.1 = h.1 ∧ dom h1.2 ⊆ dom h2.2 ∧
    (sd_recovered_rejected_transactions sd = false → ∀ b, b ∈ sd_blocks sd → reference b ∈ dom h2.2)) as (vt & h2 & -> & Hvt2 & Hgc2 & Hsub & Hnew).
  { rewrite Hflag. destruct (sd_recovered_rejected_transactions sd) eqn:Hrec; cbn [negb]; [by exists (rv_tracker st), h1|].
    rewrite (load_flags _ _ _ Hload), Hrec, !rassert_true by done. run_bind.
    assert (∀ b, b ∈ sd_blocks sd → recoverable ds b ∧ (h.1 < round b)%N) as Hb by (intros b; apply Hblocks; by apply list_elem_of_filter).
    destruct (recover_and_vote_ok (rv_dag_state st) h1 (rv_tracker st) (sd_blocks sd) Hvt) as (vt & h2 & Hrun & Hok & Hg & Hs & Hall).
    - intros b Hbin. rewrite Hdag. apply (Hb b Hbin).
    - exists vt, h2. split_and!; [exact Hrun|done|congruence|done|]. intros _ b Hbin. apply Hall; [done|]. rewrite Hgc. by apply Hb. }
  run_bind. rewrite rassert_true by done. run_bind. eexists. split; [done|]. split; cbn; [done|lia|by rewrite Htake| |].
  - rewrite Hflag. unfold unfinalized. rewrite filter_app. destruct (sd_recovered_rejected_transactions sd) eqn:Hrec; cbn [negb].
    + rewrite filter_cons, decide_False, filter_nil, app_nil_r by (by rewrite Hrec). unfold seen in Hflag. rewrite Hseen, orb_false_r in Hflag. done.
    + symmetry. apply bool_decide_eq_true_2. rewrite filter_cons, decide_True by done. by destruct (filter _ (rv_sent st)).
  - exists h2. split_and!; [done|done|]. intros x b Hx Hbin. unfold unfinalized in Hx. rewrite filter_app, elem_of_app in Hx.
    destruct Hx as [Hx|Hx]; [apply Hsub; by eapply Hin|]. apply list_elem_of_filter in Hx as [Hx ->%list_elem_of_singleton]. by apply Hnew.
Qed.

Lemma resend_sub_dags k w m st :
  r ≤ k → recovery_at k w st → k + m ≤ length commits →
  ∃ st', for_each (resend_commit verifier_vote send) st (take m (drop k commits)) = Done st' ∧ recovery_at (k + m) w st'.
Proof using All.
  revert k st. induction m as [|m IH]; intros k st Hk Hst Hm; [exists st; by rewrite take_0, Nat.add_0_r|].
  destruct (lookup_lt_is_Some_2 commits k) as [commit Hcommit]; [lia|]. rewrite (drop_S _ _ _ Hcommit). cbn [take for_each].
  destruct (resend_sub_dag k w st commit Hk Hst Hcommit) as (st1 & -> & Hst1). run_bind.
  destruct (IH (Datatypes.S k) st1) as (st' & Hrun & Hst'); [lia|done|lia|]. exists st'. split; [exact Hrun|].
  by replace (k + Datatypes.S m) with (Datatypes.S k + m) by lia.
Qed.

Lemma resend_batch_spec k st (e := Nat.min (k + 250) (length commits)) :
  r ≤ k → k < length commits → recovery_at k k st →
  ∃ st', resend_batch verifier_vote send (lengthN commits) st (N.of_nat k + 1) = Done st' ∧ recovery_at e e st'.
Proof using All.
  intros Hk Hlt Hst. unfold resend_batch, u32_saturating_add, COMMIT_RECOVERY_BATCH_SIZE.
  assert (N.min (N.min (N.of_nat k + 1 + (250 - 1)) u32_MAX) (lengthN commits) = N.of_nat e) as ->.
  { unfold lengthN in *. unfold e. rewrite Nat2N.inj_min, Nat2N.inj_add. lia. }
  assert (k < e ≤ length commits) as He by (unfold e; lia).
  assert (ds_store (rv_dag_state st) = ds_store ds) as -> by (by rewrite (ra_dag _ _ _ Hst)).
  unfold call. rewrite (es_scan _ _ _ Hepoch k e He). run_bind. cbn [unwrap_ok]. run_bind. unfold checked_sub. rewrite decide_True by lia. cbn [unwrap]. run_bind.
  assert (lengthN (take (e - k) (drop k commits)) = (N.of_nat e - (N.of_nat k + 1) + 1)%N) as Hlen.
  { unfold lengthN. rewrite length_take, length_drop. lia. }
  assert (e - k ≤ 250) as Hsmall by (unfold e; lia). assert (250 < u32_modulus)%N as Hmod by done.
  rewrite rassert_true; [|rewrite Hlen, wrap_add_small by lia; apply N.mod_small; lia]. run_bind.
  set (st1 := mkRecovery _ _ _ _ _).
  assert (recovery_at k e st1) as Hst1.
  { destruct Hst as [Hdag Hlast Hsent Hseen Htr]. split; cbn; [|done|done|done|done]. rewrite Hdag. unfold recover_commits_to_write. cbn.
    unfold set_commits_to_write. cbn. rewrite <- app_assoc. do 2 f_equal.
    rewrite <- (take_drop (k - r) (take (e - r) (drop r commits))). f_equal; [rewrite take_take; f_equal; lia|].
    rewrite skipn_firstn_comm, drop_drop. replace (r + (k - r)) with k by lia. f_equal. lia. }
  destruct (resend_sub_dags k e (e - k) st1 Hk Hst1) as (st' & Hrun & Hst'); [lia|]. exists st'. split; [exact Hrun|].
  by replace (k + (e - k)) with e in Hst' by lia.
Qed.

Lemma resend_batches_spec m k st :
  r ≤ k → k ≤ length commits → recovery_at k k st → (k = length commits → m = 0) →
  k + 250 * (m - 1) < length commits ∨ m = 0 → length commits ≤ k + 250 * m →
  ∃ st', for_each (resend_batch verifier_vote send (lengthN commits)) st (step_chain (N.of_nat k + 1) 250 m) = Done st' ∧
    recovery_at (length commits) (length commits) st'.
Proof using All.
  revert k st. induction m as [|m IH]; intros k st Hk Hle Hst H0 Hlow Hhigh; cbn [step_chain for_each].
  { exists st. split; [done|]. by replace (length commits) with k by lia. }
  destruct (resend_batch_spec k st Hk) as (st1 & -> & Hst1); [lia|done|]. run_bind.
  destruct (decide (m = 0)) as [->|Hm].
  - cbn. exists st1. split; [done|]. by replace (Nat.min (k + 250) (length commits)) with (length commits) in Hst1 by lia.
  - replace (Nat.min (k + 250) (length commits)) with (k + 250) in Hst1 by lia.
    replace (N.of_nat k + 1 + 250)%N with (N.of_nat (k + 250) + 1)%N by lia. apply IH; [lia|lia|done|lia|lia|lia].
Qed.
End recovery_spec.

(** C30: a restart resends exactly what the application misses. When the store holds the
    commits of the epoch, of which a prefix has its rejected transactions stored,
    recovery never panics; it sends the sub-dags of all commits above the index the
    application asks for to the finalizer, once and in order, and buffers their
    commits for writing; and the vote tracker ends up with every block of the commits
    that still have to be finalized, as the finalizer requires. *)
Theorem commit_replay_exact {S} `{Store S} ctx verifier_vote send (ds : DagState S) h vt commits sds replay :
  committee_ok (committee ctx) → epoch_store (ds_store ds) commits sds → finalized_prefix sds →
  (lengthN commits < u32_MAX)%N → (replay ≤ lengthN commits)%N → ds_commits_to_write ds = [] →
  vote_tracker_ok ctx h vt → (∀ sd, sd ∈ sds → send sd = true) →
  (∀ sd b, sd ∈ unfinalized sds → b ∈ sd_blocks sd → recoverable ctx verifier_vote ds b ∧ (h.1 < round b)%N) →
  ∃ st, recover_and_send_commits verifier_vote send ds vt replay = Done st ∧
    rv_sent st = drop (N.to_nat replay) sds ∧ ds_commits_to_write (rv_dag_state st) = drop (N.to_nat replay) commits ∧
    tracks ctx (rv_tracker st) (unfinalized (rv_sent st)).
Proof.
  intros Hc Hepoch Hprefix Hbound Hreplay Hempty Hvt Hsend Hblocks. unfold recover_and_send_commits, call.
  rewrite (es_last _ _ _ Hepoch). run_bind. cbn [unwrap_ok]. run_bind. set (st0 := mkRecovery ds vt replay false []).
  pose proof (sds_length ds commits sds Hepoch) as Hlen. set (r := N.to_nat replay).
  assert (tracks ctx vt []) as Hnone by (exists h; split; [done|]; by intros sd b ?%elem_of_nil).
  destruct (last commits) as [last_commit|] eqn:Hlast.
  2:{ apply last_None in Hlast. subst commits. unfold lengthN in Hreplay. cbn in Hreplay, Hlen. rewrite rassert_true by lia. run_bind.
      apply nil_length_inv in Hlen. subst sds. exists st0. unfold st0. cbn. rewrite !drop_nil. by split_and!. }
  assert (tc_index last_commit = lengthN commits) as ->.
  { rewrite last_lookup in Hlast. rewrite (es_index _ _ _ Hepoch _ _ Hlast). pose proof (lookup_lt_Some _ _ _ Hlast). unfold lengthN. lia. }
  case_decide as Hdone.
  { exists st0. unfold st0. cbn. assert (r = length commits) as Hr by (unfold r, lengthN in *; lia).
    rewrite Hr, !drop_ge by lia. by split_and!. }
  rewrite rassert_true by lia. run_bind. unfold ensure_commits_to_write_is_empty. rewrite Hempty, rassert_true by done. run_bind.
  unfold u32_MAX in Hbound. rewrite wrap_add_small by lia. rewrite step_by_chain by lia.
  assert (r ≤ length commits) as Hr by (unfold r, lengthN in *; lia). unfold COMMIT_RECOVERY_BATCH_SIZE.
  destruct (resend_batches_spec ctx Hc verifier_vote send ds h commits sds r Hepoch Hprefix ltac:(unfold u32_MAX; lia) Hr Hsend Hblocks
    (N.to_nat ((lengthN commits - (replay + 1)) / 250 + 1)) r st0) as (st & Hrun & Hst).
  - done.
  - done.
  - split; cbn; rewrite ?Nat.sub_diag, ?take_0; [|unfold r; lia|done|done|].
    + unfold recover_commits_to_write. rewrite app_nil_r. by destruct ds.
    + exists h. split_and!; [done|done|]. by intros sd b ?%elem_of_nil.
  - unfold r, lengthN in *. lia.
  - left. pose proof (N.Div0.div_mod (lengthN commits - (replay + 1)) 250) as Hdm. revert Hdm.
    generalize ((lengthN commits - (replay + 1)) / 250)%N ((lengthN commits - (replay + 1)) `mod` 250)%N. unfold r, lengthN in *. lia.
  - pose proof (N.Div0.div_mod (lengthN commits - (replay + 1)) 250) as Hdm.
    pose proof (N.mod_lt (lengthN commits - (replay + 1)) 250 ltac:(done)) as Hml. revert Hdm Hml.
    generalize ((lengthN commits - (replay + 1)) / 250)%N ((lengthN commits - (replay + 1)) `mod` 250)%N. unfold r, lengthN in *. lia.
  - replace (N.of_nat r + 1)%N with (replay + 1)%N in Hrun by (unfold r; lia). rewrite Hrun. run_bind.
    destruct Hst as [Hdag Hlast' Hsent _ (h' & Hvt' & Hgc & Hin)]. rewrite rassert_true by (rewrite Hlast'; done). run_bind.
    exists st. rewrite take_ge in Hsent by (rewrite length_drop; lia). split_and!; [done|done| |].
    + rewrite Hdag. cbn. rewrite Hempty, take_ge by (rewrite length_drop; lia). done.
    + exists h'. split; [done|]. intros sd b Hsd Hb. split; [|by eapply Hin]. rewrite Hgc.
      rewrite Hsent in Hsd. apply list_elem_of_filter in Hsd as [Hu Hd].
      eapply Hblocks; [|exact Hb]. apply list_elem_of_filter. split; [done|]. rewrite <- (take_drop (N.to_nat replay) sds). apply elem_of_app. by right.
Qed.

(** ** The in-memory store

    A store whose commits have consecutive indices from 1 answers as required. *)

Lemma map_in_order_list {K V} `{Countable K} (R : relation K) `{!RelDecision R} `{!Transitive R, !Total R, !AntiSymm (=) R}
    (l : list (K * V)) :
  NoDup l.*1 → StronglySorted R l.*1 → map_in_order R (list_to_map l : gmap K V) = l.
Proof.
  intros Hnd Hs. unfold map_in_order.
  assert (set_in_order R (dom (list_to_map l : gmap K V)) = l.*1) as ->.
  { apply (StronglySorted_unique R); [apply set_in_order_sorted; apply _|done|]. unfold set_in_order. rewrite stable_sort_perm.
    rewrite dom_list_to_map_L. apply NoDup_Permutation; [apply NoDup_elements|done|]. intros x. by rewrite elem_of_elements, elem_of_list_to_set. }
  assert (∀ k : list (K * V), (∀ x, x ∈ k → (list_to_map l : gmap K V) !! x.1 = Some x.2) →
    omap (λ x, pair x <$> (list_to_map l : gmap K V) !! x) k.*1 = k) as Hgen.
  { induction k as [|[x v] k IH]; intros Hk; [done|]. cbn. pose proof (Hk (x, v) ltac:(auto with lists)) as Hx. cbn in Hx. rewrite Hx. cbn. f_equal. apply IH. auto with lists. }
  apply Hgen. intros [x v] Hx. by apply elem_of_list_to_map_1.
Qed.

Lemma filter_between {A} (P : A → Prop) `{!∀ x, Decision (P x)} (l : list A) i j :
  i ≤ j ≤ length l → (∀ n x, l !! n = Some x → P x ↔ i ≤ n < j) → filter P l = take (j - i) (drop i l).
Proof.
  revert i j. induction l as [|x l IH]; intros i j Hij HP; [by rewrite drop_nil, take_nil|]. rewrite filter_cons.
  assert (∀ i' j', (∀ n, i ≤ Datatypes.S n < j ↔ i' ≤ n < j') → i' ≤ j' ≤ length l → filter P l = take (j' - i') (drop i' l)) as Hl.
  { intros i' j' Hn Hb. apply IH; [done|]. intros n y Hy. rewrite <- Hn. by apply HP. }
  pose proof (HP 0 x eq_refl) as H0. cbn in Hij. case_decide as Hd.
  - apply H0 in Hd. destruct i; [|lia]. destruct j as [|j]; [lia|]. cbn. f_equal.
    rewrite (Hl 0 j) by lia. by rewrite Nat.sub_0_r.
  - destruct i as [|i]; [destruct j; [|exfalso; apply Hd, H0; lia]|].
    + rewrite (Hl 0 0) by lia. done.
    + rewrite (Hl i (j - 1)) by lia. cbn. f_equal. lia.
Qed.

Lemma sorted_lookup {A} (R : relation A) l :
  (∀ i j x y, i < j → l !! i = Some x → l !! j = Some y → R x y) → StronglySorted R l.
Proof.
  induction l as [|x l IH]; intros Hl; constructor.
  - apply IH. intros i j a b Hij Ha Hb. by apply (Hl (Datatypes.S i) (Datatypes.S j)); [lia|..].
  - apply Forall_lookup. intros i y Hy. by apply (Hl 0 (Datatypes.S i)); [lia|..].
Qed.

Definition commit_entry (c : TrustedCommit) : N * N * TrustedCommit := ((tc_index c, tc_digest c), c).

Lemma mem_epoch (s : MemStore.Inner) commits sds :
  MemStore.commits s = list_to_map (commit_entry <$> commits) →
  (∀ i c, commits !! i = Some c → tc_index c = (N.of_nat i + 1)%N ∧ (tc_digest c ≤ CommitDigest_MAX)%N) →
  (lengthN commits < u32_MAX)%N → Forall2 (λ c sd, load_committed_subdag_from_store s c = Done sd) commits sds →
  epoch_store s commits sds.
Proof.
  intros Hs Hidx Hb Hload. assert (map_in_order MemStore.pair_le (MemStore.commits s) = commit_entry <$> commits) as Horder.
  { assert (StronglySorted (λ x y : N * N, (x.1 < y.1)%N) (commit_entry <$> commits).*1) as Hlt.
    { rewrite <- list_fmap_compose. apply sorted_lookup. intros i j x y Hij Hx Hy. rewrite list_lookup_fmap in Hx, Hy.
      destruct (commits !! i) as [a|] eqn:Ha; [|done]. destruct (commits !! j) as [b|] eqn:Hb'; [|done]. cbn in Hx, Hy. simplify_eq.
      cbn. destruct (Hidx i a Ha), (Hidx j b Hb'). lia. }
    rewrite Hs. apply map_in_order_list; [apply _..| |].
    - clear -Hlt. induction Hlt as [|x l _ IH Hall]; constructor; [|done]. rewrite Forall_forall in Hall. intros Hx%Hall. lia.
    - eapply StronglySorted_fmap_impl with (f := id) in Hlt; [by rewrite list_fmap_id in Hlt|].
      intros x y Hxy. left. unfold id. cbn in Hxy. lia. }
  split; [| |done|intros i c Hc; by apply Hidx].
  - cbn. unfold MemStore.read_last_commit, map_last. rewrite Horder, fmap_last. by destruct (last commits).
  - intros i j Hij. cbn. unfold MemStore.scan_commits, btree_range. unfold lengthN in Hb.
    destruct (range_new_ok (N.of_nat i + 1) (N.of_nat j)) as (_ & -> & ->); [lia|lia|].
    assert (∀ a d b e : N, MemStore.pair_le (a, d) (b, e) ↔ (a < b ∨ (a = b ∧ d ≤ e))%N) as Hle.
    { intros a d b e. unfold lex_le. cbn. lia. }
    rewrite rassert_true by (rewrite Hle; unfold CommitDigest_MIN, CommitDigest_MAX; lia). run_bind.
    rewrite Horder, (filter_between _ _ i j).
    + do 2 f_equal. change (map ?f ?l) with (f <$> l). rewrite fmap_take, fmap_drop, <- list_fmap_compose. by rewrite list_fmap_id.
    + rewrite length_fmap. lia.
    + intros n x Hx. rewrite list_lookup_fmap in Hx. destruct (commits !! n) as [c|] eqn:Hc; [|done]. injection Hx as <-.
      destruct (Hidx n c Hc) as [Hi Hd]. cbn [fst commit_entry]. rewrite !Hle, Hi. unfold CommitDigest_MIN. lia.
Qed.

(** ** A concrete restart

    Three commits of one block each, of which the first is finalized. *)

Definition replay_block (i : N) : VerifiedBlock := sample_block i 0 (100 + i) [mkBlockRef (i - 1) 0 (99 + i)].

Definition replay_commit (i : N) : TrustedCommit :=
  TrustedCommit_new_trusted (Commit_new i 7 i (reference (replay_block i)) [reference (replay_block i)]) [i].

Definition replay_commits : list TrustedCommit := replay_commit <$> [1; 2; 3]%N.

Definition replay_store : MemStore.Inner :=
  match MemStore.write MemStore.new (mkWriteBatch (replay_block <$> [1; 2; 3]%N) replay_commits []
    [(TrustedCommit_reference (replay_commit 1), ∅)]) with Done (Ok s) => s | _ => MemStore.new end.

Definition replay_state : DagState MemStore.Inner :=
  from_done (empty_dag_state sample_context []) (DagState_new sample_context replay_store).

Definition replay_sub_dag (i : N) : CommittedSubDag :=
  mkCommittedSubDag (reference (replay_block i)) [replay_block i] i (mkCommitRef i 7) (i =? 1)%N (i =? 1)%N ∅.

Definition replay_sub_dags : list CommittedSubDag := replay_sub_dag <$> [1; 2; 3]%N.

Definition accept_all (_ : VerifiedBlock) : ConsensusResult (list N) := Ok [].

Lemma replay_epoch : epoch_store (ds_store replay_state) replay_commits replay_sub_dags.
Proof.
  apply mem_epoch.
  - vm_compute. reflexivity.
  - intros [|[|[|i]]] c Hc; [injection Hc as <-; split; by vm_compute..|done].
  - by vm_compute.
  - repeat (constructor; [vm_compute; reflexivity|]). constructor.
Qed.

Lemma replay_recoverable sd b : sd ∈ unfinalized replay_sub_dags → b ∈ sd_blocks sd →
  recoverable sample_context accept_all replay_state b ∧ (0 < round b)%N.
Proof.
  intros Hsd Hb. assert (unfinalized replay_sub_dags = [replay_sub_dag 2; replay_sub_dag 3]) as Hu by (vm_compute; reflexivity).
  rewrite Hu in Hsd. repeat (apply elem_of_cons in Hsd as [->|Hsd]); [..|by apply elem_of_nil in Hsd];
    apply list_elem_of_singleton in Hb as ->; (split; [|by vm_compute]); (split; [by vm_compute|]); (split; [|by eexists]);
    intros _; apply elem_of_dom; vm_compute; by eexists.
Qed.

Lemma replay_prefix : finalized_prefix replay_sub_dags.
Proof.
  intros [|[|[|i]]] [|[|[|j]]] sd sd' Hi Hj Hij Hrec; cbn in Hi, Hj; try lia; simplify_eq; by cbn in *.
Qed.

Lemma commit_replay_exact_witness :
  ∃ st, recover_and_send_commits accept_all (λ _, true) replay_state (VoteTrackerState_new sample_context) 1 = Done st ∧
    rv_sent st = [replay_sub_dag 2; replay_sub_dag 3] ∧ ds_commits_to_write (rv_dag_state st) = [replay_commit 2; replay_commit 3] ∧
    tracks sample_context (rv_tracker st) (unfinalized (rv_sent st)).
Proof.
  destruct (commit_replay_exact sample_context accept_all (λ _, true) replay_state (GENESIS_ROUND, ∅) (VoteTrackerState_new sample_context)
    replay_commits replay_sub_dags 1) as (st & Hrun & Hsent & Hw & Htr);
    [exact committee_4_ok|exact replay_epoch|exact replay_prefix|by vm_compute|by vm_compute|by vm_compute|
     apply VoteTrackerState_new_ok|done|exact replay_recoverable|].
  exists st. refine (conj Hrun (conj _ (conj _ Htr))); [rewrite Hsent|rewrite Hw]; reflexivity.
Defined.
