(* ===== verification/Core.v ===== *)
(** * Core (consensus/core/src/core.rs)

    The component that owns the others: it adds received blocks and synced commits,
    runs the commit rule, changes the leader schedule, proposes blocks and signals new
    rounds. The dag state, which the parts share through a lock, is held once and
    handed to each of them; the committer is rebuilt from the shared leader schedule.
    What is sent on channels is appended to the log [co_signals]. Metrics are left out,
    except for lookups that can panic. *)

From S2P Require Import Prelude Committee Block StakeAggregator ThresholdClock Commit Store LeaderScoring.
From S2P Require Import DagState LeaderSchedule BaseCommitter UniversalCommitter BlockVerifier BlockManager Linearizer.
From S2P Require Import AncestorState RoundTracker TransactionVoteTracker LeaderScheduleV3 TransactionConsumer Proposer.
From S2P Require Import CommitSyncer CommitObserver.

(** What Core sends: to peers, to observers, to the leader timeout, to the finalizer
    and to the clients of its own blocks. *)
Inductive CoreSignal :=
  | NewBlock (extended_block : ExtendedBlock)
  | NewAcceptedBlock (block : VerifiedBlock)
  | NewRound (round : N)
  | SentCommit (sub_dag : CommittedSubDag)
  | SentStatus (receiver : N) (status : BlockStatus).

Record Core (S : Type) := mkCore {
  co_context : Context;
  co_block_manager : BlockManager;
  co_last_signaled_round : N;
  co_last_decided_leader : Slot;
  co_leader_schedule : LeaderSchedule;
  co_leader_schedule_v3 : option LeaderScheduleV3;
  co_dag_state : DagState S;
  co_proposer : option (ValidatorProposer S);
  co_signals : list CoreSignal;
}.
Global Arguments mkCore {S}.
Global Arguments co_context {S} c.
Global Arguments co_block_manager {S} c.
Global Arguments co_last_signaled_round {S} c.
Global Arguments co_last_decided_leader {S} c.
Global Arguments co_leader_schedule {S} c.
Global Arguments co_leader_schedule_v3 {S} c.
Global Arguments co_dag_state {S} c.
Global Arguments co_proposer {S} c.
Global Arguments co_signals {S} c.

(** What the environment answers: whether the finalizer takes a commit, whether a peer
    is subscribed to the blocks of this node, and the clock readings of a proposal. *)
Record CoreEnv := mkCoreEnv {
  env_send : CommittedSubDag → bool;
  env_subscribed : bool;
  env_delay_now : N;
  env_now : N;
}.

Section core.
Context {S : Type} `{Store S} `{LeaderRng} `{BlockCodec} `{CommitCodec} `{BlockCrypto} `{BlockSigner}.
Implicit Types core : Core S.
Implicit Types ds : DagState S.

Definition set_core_dag (bm : BlockManager) ds core : Core S :=
  mkCore (co_context core) bm (co_last_signaled_round core) (co_last_decided_leader core) (co_leader_schedule core)
    (co_leader_schedule_v3 core) ds (co_proposer core) (co_signals core).

Definition set_last_signaled (round : N) core : Core S :=
  mkCore (co_context core) (co_block_manager core) round (co_last_decided_leader core) (co_leader_schedule core)
    (co_leader_schedule_v3 core) (co_dag_state core) (co_proposer core) (co_signals core).

Definition set_last_decided (slot : Slot) core : Core S :=
  mkCore (co_context core) (co_block_manager core) (co_last_signaled_round core) slot (co_leader_schedule core)
    (co_leader_schedule_v3 core) (co_dag_state core) (co_proposer core) (co_signals core).

Definition set_proposer (p : option (ValidatorProposer S)) core : Core S :=
  mkCore (co_context core) (co_block_manager core) (co_last_signaled_round core) (co_last_decided_leader core)
    (co_leader_schedule core) (co_leader_schedule_v3 core) (co_dag_state core) p (co_signals core).

Definition signal (l : list CoreSignal) core : Core S :=
  mkCore (co_context core) (co_block_manager core) (co_last_signaled_round core) (co_last_decided_leader core)
    (co_leader_schedule core) (co_leader_schedule_v3 core) (co_dag_state core) (co_proposer core) (co_signals core ++ l).

(** The committer, which shares the leader schedule. *)
Definition core_committer (ctx : Context) (ls : LeaderSchedule) : UniversalCommitter :=
  build (with_pipeline true (with_number_of_leaders (default 1%N (num_leaders_per_round (protocol_config ctx)))
    (UniversalCommitterBuilder_new ctx ls))).

Definition core_reputation_scores core : ReputationScores :=
  match co_leader_schedule_v3 core with
  | Some schedule => current_reputation_scores schedule
  | None => table_reputation_scores (leader_swap_table (co_leader_schedule core))
  end.

(** The leader waiter of the proposer reads the shared schedule through the committer. *)
Definition share_schedule (ctx : Context) (ls : LeaderSchedule) (p : ValidatorProposer S) : ValidatorProposer S :=
  mkValidatorProposer (vp_context p) (vp_transaction_consumer p) (vp_transaction_vote_tracker p)
    (vp_propagation_delay p) (vp_last_included_ancestors p) (vp_block_signer p) (vp_last_known_proposed_round p)
    (vp_ancestor_state_manager p) (vp_round_tracker p) (vp_dag_state p)
    (match vp_leader_waiter p with WaiterV2 _ => WaiterV2 (core_committer ctx ls) | w => w end).

(** ** Signals *)

(** [CoreSignals::new_block]. *)
Definition signal_new_block (env : CoreEnv) core (extended_block : ExtendedBlock) : Core S * ConsensusResult () :=
  if decide (1 < Committee_size (committee (co_context core)))%N then
    if decide (round (eb_block extended_block) = GENESIS_ROUND) then (core, Ok ())
    else if env_subscribed env then (signal [NewBlock extended_block] core, Ok ()) else (core, Err Shutdown)
  else (core, Ok ()).

Definition try_signal_new_round core : Core S :=
  let new_clock_round := threshold_clock_round (co_dag_state core) in
  if decide (new_clock_round ≤ co_last_signaled_round core)%N then core
  else set_last_signaled new_clock_round (signal [NewRound new_clock_round] core).

(** ** Accepting blocks *)

Definition Core_accept_blocks core (blocks : list VerifiedBlock) : outcome (Core S * list VerifiedBlock * gset BlockRef) :=
  '(bm, ds, accepted_blocks, missing) ← try_accept_blocks (co_block_manager core) (co_dag_state core) blocks;
  Done (signal (NewAcceptedBlock <$> accepted_blocks) (set_core_dag bm ds core), accepted_blocks, missing).

Definition Core_accept_committed_blocks core (blocks : list VerifiedBlock) : outcome (Core S) :=
  '(bm, ds, accepted_blocks) ← try_accept_committed_blocks (co_block_manager core) (co_dag_state core) blocks;
  Done (signal (NewAcceptedBlock <$> accepted_blocks) (set_core_dag bm ds core)).

(** ** Certified commits *)

(** The index arithmetic of the error is that of [u32]. *)
Definition filter_new_commits core (commits : list CertifiedCommit) : ConsensusResult (list CertifiedCommit) :=
  let last := last_commit_index (co_dag_state core) in
  let commits := filter (λ c, last < cc_index c)%N commits in
  match commits with
  | c :: _ => if decide (cc_index c ≠ last +₃₂ 1) then Err (UnexpectedCertifiedCommitIndex (last +₃₂ 1) (cc_index c)) else Ok commits
  | [] => Ok commits
  end.

(** The selected commits with their leaders, and the commits left. *)
Definition try_select_certified_leaders (ctx : Context) (certified_commits : list CertifiedCommit) (limit : N) :
    outcome (list (DecidedLeader * CertifiedCommit) * list CertifiedCommit) :=
  rassert (0 < limit)%N;;
  match certified_commits with
  | [] => Done ([], [])
  | _ =>
      let '(to_commit, rest) :=
        if decide (limit ≤ lengthN certified_commits)%N
        then (takeN limit certified_commits, drop (N.to_nat limit) certified_commits)
        else (certified_commits, []) in
      selected ← mapM (λ commit,
        leader ← unwrap (last (cc_blocks commit));
        rassert (reference leader = tc_leader (cc_commit commit));;
        (* the metrics look the leader's host name up *)
        authority (committee ctx) (author leader);;
        Done (DCommit leader false, commit)) to_commit;
      Done (selected, rest)
  end.

(** ** Committing *)

(** The change of the leader schedule at the top of the loop; also the number of
    commits until the next one. *)
Definition try_change_schedule core : outcome (Core S * N) :=
  commits_until_update ← commits_until_leader_schedule_update (co_leader_schedule core) (co_dag_state core);
  if decide (commits_until_update = 0%N) then
    '(ls, ds) ← update_leader_schedule_v2 (co_leader_schedule core) (co_dag_state core);
    let core := mkCore (co_context core) (co_block_manager core) (co_last_signaled_round core) (co_last_decided_leader core)
      ls (co_leader_schedule_v3 core) ds (share_schedule (co_context core) ls <$> co_proposer core) (co_signals core) in
    let scores := core_reputation_scores core in
    let core := set_proposer (vp_set_propagation_scores scores <$> co_proposer core) core in
    commits_until_update ← commits_until_leader_schedule_update (co_leader_schedule core) (co_dag_state core);
    Done (core, commits_until_update)
  else Done (core, commits_until_update).

(** Bounds the iterations of the loop: each one but the last takes certified commits or
    decides another of the leaders of the rounds of the dag. *)
Definition commit_fuel core (certified_commits : list CertifiedCommit) : nat :=
  let max_round := foldr N.max (highest_accepted_round (co_dag_state core))
    ((round <$> (certified_commits ≫= cc_blocks)) ++
     ((λ '(_, sb), round (sb_block sb)) <$> map_to_list (bm_suspended_blocks (co_block_manager core)))) in
  2 + length certified_commits +
  (1 + N.to_nat max_round) * N.to_nat (default 1%N (num_leaders_per_round (protocol_config (co_context core)))).

Fixpoint commit_loop (env : CoreEnv) (fuel : nat) core (certified_commits : list CertifiedCommit)
    (committed_sub_dags : list CommittedSubDag) : outcome (Core S * ConsensusResult (list CommittedSubDag)) :=
  match fuel with
  | O => OutOfFuel
  | Datatypes.S fuel =>
      '(core, commits_until_update) ← try_change_schedule core;
      rassert (0 < commits_until_update)%N;;
      '(selected, certified_commits) ← try_select_certified_leaders (co_context core) certified_commits commits_until_update;
      core ← Core_accept_committed_blocks core (selected.*2 ≫= cc_blocks);
      '(decided_leaders, local) ← match selected.*1 with
        | [] =>
            decided ← try_decide (core_committer (co_context core) (co_leader_schedule core)) (co_dag_state core)
              (co_last_decided_leader core);
            Done (takeN commits_until_update decided, true)
        | certified_leaders => Done (certified_leaders, false)
        end;
      match last decided_leaders with
      | None => Done (core, Ok committed_sub_dags)
      | Some last_decided =>
          let core := set_last_decided (DecidedLeader_slot last_decided) core in
          match omap into_committed_block decided_leaders with
          | [] => Done (core, Ok committed_sub_dags)
          | sequenced_leaders =>
              '(ds, sent, r) ← observer_handle_commit (env_send env) (co_dag_state core) sequenced_leaders local;
              let core := signal (SentCommit <$> sent) (set_core_dag (co_block_manager core) ds core) in
              match r with
              | Err e => Done (core, Err e)
              | Ok subdags =>
                  '(bm, ds) ← try_unsuspend_blocks_for_latest_gc_round (co_block_manager core) (co_dag_state core);
                  commit_loop env fuel (set_core_dag bm ds core) certified_commits (committed_sub_dags ++ subdags)
              end
          end
      end
  end.

(** The check that certified commits were committed as they are. *)
Definition check_sub_dag (m : gmap N CommitRef) (sub_dag : CommittedSubDag) : outcome (gmap N CommitRef) :=
  match m !! cref_index (sd_commit_ref sub_dag) with
  | Some commit_ref =>
      rassert (commit_ref = sd_commit_ref sub_dag);; Done (delete (cref_index (sd_commit_ref sub_dag)) m)
  | None => Done m
  end.

Definition notify_committed_blocks core (committed_sub_dags : list CommittedSubDag) : Core S :=
  let refs := reference <$> filter (λ b, author b = own_index (co_context core)) (committed_sub_dags ≫= sd_blocks) in
  match co_proposer core with
  | Some p =>
      let '(p, statuses) := notify_own_blocks_committed refs (gc_round (co_dag_state core)) p in
      signal ((λ '(receiver, status), SentStatus receiver status) <$> statuses) (set_proposer (Some p) core)
  | None => core
  end.

Definition try_commit (env : CoreEnv) core (certified_commits : list CertifiedCommit) :
    outcome (Core S * ConsensusResult (list CommittedSubDag)) :=
  let certified_commits_map := foldl (λ m c, <[cc_index c := TrustedCommit_reference (cc_commit c)]> m) ∅ certified_commits in
  '(core, r) ← commit_loop env (commit_fuel core certified_commits) core certified_commits [];
  match r with
  | Err e => Done (core, Err e)
  | Ok committed_sub_dags =>
      for_each check_sub_dag certified_commits_map committed_sub_dags;;
      Done (notify_committed_blocks core committed_sub_dags, Ok committed_sub_dags)
  end.

(** ** Proposing *)

(** The proposer reads and writes the shared dag state. *)
Definition propose_block (env : CoreEnv) core (force : bool) : outcome (Core S * option ExtendedBlock) :=
  match co_proposer core with
  | Some p =>
      '(p, block) ← try_new_block (set_dag_state (co_dag_state core) p) force (env_delay_now env) (env_now env);
      Done (set_core_dag (co_block_manager core) (vp_dag_state p) (set_proposer (Some p) core), block)
  | None => Done (core, None)
  end.

Definition try_propose (env : CoreEnv) core (force : bool) : outcome (Core S * ConsensusResult (option VerifiedBlock)) :=
  '(core, block) ← propose_block env core force;
  match block with
  | Some extended_block =>
      match signal_new_block env core extended_block with
      | (core, Err e) => Done (core, Err e)
      | (core, Ok _) =>
          '(core, r) ← try_commit env (signal [NewAcceptedBlock (eb_block extended_block)] core) [];
          match r with
          | Err e => Done (core, Err e)
          | Ok _ => Done (core, Ok (Some (eb_block extended_block)))
          end
      end
  | None => Done (core, Ok None)
  end.

Definition Core_last_proposed_round core : outcome (option N) :=
  match co_proposer core with
  | Some p => r ← last_proposed_round (set_dag_state (co_dag_state core) p); Done (Some r)
  | None => Done None
  end.

Definition Core_should_propose core : bool :=
  match co_proposer core with
  | Some p => should_propose (set_dag_state (co_dag_state core) p)
  | None => false
  end.

Definition new_block (env : CoreEnv) core (round : N) (force : bool) : outcome (Core S * ConsensusResult (option VerifiedBlock)) :=
  last_round ← Core_last_proposed_round core;
  match last_round with
  | Some last_round =>
      if decide (last_round < round)%N then
        '(core, result) ← try_propose env core force;
        Done (try_signal_new_round core, result)
      else Done (core, Ok None)
  | None => Done (core, Ok None)
  end.

(** ** The operations of the core thread *)

(** What follows the acceptance of blocks: committing, proposing and signalling. *)
Definition commit_and_propose (env : CoreEnv) core (certified_commits : list CertifiedCommit) {A} (result : A) :
    outcome (Core S * ConsensusResult A) :=
  '(core, r) ← try_commit env core certified_commits;
  match r with
  | Err e => Done (core, Err e)
  | Ok _ =>
      '(core, r) ← try_propose env core false;
      match r with
      | Err e => Done (core, Err e)
      | Ok _ => Done (try_signal_new_round core, Ok result)
      end
  end.

Definition add_blocks (env : CoreEnv) core (blocks : list VerifiedBlock) : outcome (Core S * ConsensusResult (gset BlockRef)) :=
  '(core, accepted_blocks, missing_block_refs) ← Core_accept_blocks core blocks;
  match accepted_blocks with
  | [] => Done (core, Ok missing_block_refs)
  | _ => commit_and_propose env core [] missing_block_refs
  end.

Definition add_certified_commits (env : CoreEnv) core (commits : CertifiedCommits) :
    outcome (Core S * ConsensusResult (gset BlockRef)) :=
  new_commits ← unwrap_ok (filter_new_commits core (certified_commits commits));
  '(core, _, missing_block_refs) ← Core_accept_blocks core (certified_votes commits);
  commit_and_propose env core new_commits missing_block_refs.

Definition check_block_refs core (block_refs : list BlockRef) : outcome (Core S * ConsensusResult (gset BlockRef)) :=
  '(bm, missing) ← try_find_blocks (co_block_manager core) (co_dag_state core) block_refs;
  Done (set_core_dag bm (co_dag_state core) core, Ok missing).

Definition get_missing_blocks core : gset BlockRef := missing_blocks (co_block_manager core).

Definition Core_set_propagation_delay core (delay : N) : Core S :=
  set_proposer (set_propagation_delay delay <$> co_proposer core) core.

Definition Core_set_last_known_proposed_round core (round : N) : outcome (Core S) :=
  match co_proposer core with
  | Some p =>
      rassert (vp_last_known_proposed_round p = None);;
      Done (set_proposer (Some (set_last_known_proposed_round round p)) core)
  | None => Done core
  end.

(** ** Starting and recovering *)

Definition recover_observer (env : CoreEnv) core : outcome (Core S) :=
  '(core, r) ← try_commit env core [];
  unwrap_ok r;;
  Done (try_signal_new_round core).

Definition recover_validator (env : CoreEnv) core : outcome (Core S) :=
  '(core, r) ← try_commit env core [];
  unwrap_ok r;;
  '(core, r) ← try_propose env core true;
  proposed ← unwrap_ok r;
  core ← match proposed with
    | Some _ => Done core
    | None =>
        p ← unwrap (co_proposer core);
        last_proposed_block ← last_proposed_block (set_dag_state (co_dag_state core) p);
        (if Core_should_propose core then rassert (GENESIS_ROUND < round last_proposed_block)%N else Done ());;
        (* the last block is sent again *)
        let '(core, r) := signal_new_block env core (mkExtendedBlock last_proposed_block []) in
        unwrap_ok r;;
        Done core
    end;
  Done (try_signal_new_round core).

Definition core_schedule_v3 (ctx : Context) ds : outcome (option LeaderScheduleV3) :=
  if enable_v3 (protocol_config ctx) then schedule ← LeaderScheduleV3_from_store ctx ds; Done (Some schedule)
  else Done None.

Definition new_observer (env : CoreEnv) (ctx : Context) (leader_schedule : LeaderSchedule) (bm : BlockManager) ds :
    outcome (Core S) :=
  last_decided_leader ← last_commit_leader ds;
  leader_schedule_v3 ← core_schedule_v3 ctx ds;
  recover_observer env
    (mkCore ctx bm (threshold_clock_round ds) last_decided_leader leader_schedule leader_schedule_v3 ds None []).

(** The included ancestors collected from the last proposed block are not used; setting
    them indexes a vector of the size of the committee. *)
Definition new_validator (env : CoreEnv) (ctx : Context) (leader_schedule : LeaderSchedule) (consumer : TransactionConsumer)
    (tracker : VoteTrackerState) (bm : BlockManager) (block_signer : list N) ds (sync_last_known_own_block : bool)
    (round_tracker : RoundTracker) : outcome (Core S) :=
  last_decided_leader ← last_commit_leader ds;
  leader_schedule_v3 ← core_schedule_v3 ctx ds;
  last_proposed_block ← (o ← get_last_proposed_block ds; unwrap o);
  for_each (λ (v : list (option BlockRef)) ancestor, vec_set v (ref_author ancestor) (Some ancestor))
    (replicate (N.to_nat (Committee_size (committee ctx))) None) (ancestors last_proposed_block);;
  let last_known_proposed_round := if sync_last_known_own_block then None else Some 0%N in
  let leader_waiter := match leader_schedule_v3 with
    | Some schedule => WaiterV3 (current_schedule schedule)
    | None => WaiterV2 (core_committer ctx leader_schedule)
    end in
  let proposer := ValidatorProposer_new ds ctx consumer tracker block_signer last_known_proposed_round
    (AncestorStateManager_new ctx) round_tracker leader_waiter in
  let core := mkCore ctx bm (round last_proposed_block) last_decided_leader leader_schedule leader_schedule_v3 ds
    (Some proposer) [] in
  recover_validator env (set_proposer (vp_set_propagation_scores (core_reputation_scores core) <$> co_proposer core) core).

End core.
