(* ===== verification/CoreSpec.v ===== *)
(** * Correctness of Core

    The invariant that ties the block manager, the dag state, the leader schedule and
    the commit rules together, kept by adding blocks, committing, changing the schedule
    and flushing, with the history of decisions behind the commits that were sent. *)

From S2P Require Import Prelude Committee Block StakeAggregator ThresholdClock Commit Store LeaderScoring.
From S2P Require Import DagState DagInvariant DagDurability LeaderSchedule BaseCommitter UniversalCommitter CausalHistory.
From S2P Require Import BlockVerifier BlockManager BlockManagerSpec CommitRules CommitSafety Linearizer LinearizerSpec CommitTimestamp.
From S2P Require Import CommitOrder ScheduleSpec Proposer CommitSyncer CommitObserver Core.

Section deployment.
Context {S : Type} `{StoreLaws S} `{LeaderRngLaws} `{BlockCodec} `{CommitCodec}.
Context (c : Committee) (f : N) (byz : gset N) (U genesis : gmap BlockRef VerifiedBlock).
Implicit Types ds : DagState S.
Implicit Types bm : BlockManager.

(** A node with context [ctx] in a network whose blocks are [U]. *)
Record deployment (ctx : Context) : Prop := {
  dp_network : network c f byz U;
  dp_blocks : blocks_ok ctx (dom genesis) U;
  dp_schedule : schedule_config c ctx;
  dp_leaders : num_leaders_per_round (protocol_config ctx) = Some 1%N;
  dp_gc : (0 < gc_depth (protocol_config ctx))%N;
  dp_rng : rng_chooses c;
  dp_codec commit : is_Some (bcs_commit commit);
  dp_rounds r : r ∈ dom U → (ref_round r + 8 < u32_MAX)%N;
  dp_size : (N.of_nat (size U) * total_stake c < u64_modulus)%N;
}.

Section node.
Context (ctx : Context) (Hdp : deployment ctx).

Lemma dp_committee : committee_ok c.
Proof using Hdp. eapply nw_committee, dp_network, Hdp. Qed.

Lemma dp_quorum : (0 < quorum_threshold c)%N.
Proof using Hdp. eapply quorum_pos, nw_quorums, dp_network, Hdp. Qed.

Lemma elem_of_committed_flag ds r : r ∈ committed_refs ds ↔ committed_flag ds r = true.
Proof using.
  clear Hdp. rewrite elem_of_committed_refs. unfold committed_flag. destruct (ds_recent_blocks ds !! r) as [i|] eqn:Hi; cbn.
  - split; [by intros (? & [= <-] & ?)|by eauto].
  - split; [by intros (? & ? & ?)|done].
Qed.

(** ** The view under new blocks and flushes *)

Lemma bm_ok_cached_sub bm ds : bm_ok ctx (dom genesis) U bm ds → cached ds ⊆ U.
Proof using.
  clear Hdp. intros Hb. etrans; [|apply (nd_accepted _ _ _ _ (bo_dag _ _ _ _ _ _ Hb))]. apply map_union_subseteq_l.
Qed.

Lemma bm_ok_genesis bm ds r b a :
  bm_ok ctx (dom genesis) U bm ds → cached ds !! r = Some b → a ∈ ancestors b → ref_round a = GENESIS_ROUND →
  a ∈ dom (ds_genesis ds).
Proof using Hdp.
  intros Hb Hr Ha Hz. rewrite (nd_genesis _ _ _ _ (bo_dag _ _ _ _ _ _ Hb)).
  eapply (bk_genesis _ _ _ (dp_blocks _ Hdp)); [|done|done]. eapply lookup_weaken; [exact Hr|by eapply bm_ok_cached_sub].
Qed.

(** The rounds stay far from the bound. *)
Lemma grown_highest bm' ds out ds' :
  (ds_highest_accepted_round ds + 8 < u32_MAX)%N → bm_ok ctx (dom genesis) U bm' ds' → grown ctx (dom genesis) U ds out ds' →
  (ds_highest_accepted_round ds' + 8 < u32_MAX)%N.
Proof using Hdp.
  intros Hh Hb Hg. destruct (af_highest _ _ (gw_frame _ _ _ _ _ _ Hg)) as [->|(r & Hr & <-)]; [done|].
  apply (dp_rounds _ Hdp). apply (subseteq_dom _ _ (bm_ok_cached_sub bm' ds' Hb)), Hr.
Qed.

(** The new state after blocks were accepted, or evicted by a flush. *)
Lemma kept_view bm' ds ds' :
  commit_view c ds → bm_ok ctx (dom genesis) U bm' ds' → (ds_highest_accepted_round ds' + 8 < u32_MAX)%N →
  ds_context ds = ctx → ds_last_commit ds' = ds_last_commit ds → ds_last_committed_rounds ds' = ds_last_committed_rounds ds →
  (∀ r, r ∈ committed_refs ds' → r ∈ committed_refs ds) →
  (∀ r, r ∈ committed_refs ds → (gc_round ds < ref_round r)%N → r ∈ committed_refs ds') →
  (∀ r b, r ∈ committed_refs ds' → cached ds' !! r = Some b → cached ds !! r = Some b) →
  cached ds ⊆ U → ds_genesis ds' = ds_genesis ds →
  commit_view c ds' ∧ same_commits c U ds ds'.
Proof using Hdp.
  intros Hv Hb Hh Hctx Hlast Hrounds Hsub Hkeep Hsame HU Hgen. pose proof (bo_dag _ _ _ _ _ _ Hb) as Hd.
  assert (committee ctx = c) as Hc by apply (sg_committee _ _ (dp_schedule _ Hdp)).
  assert (ds_context ds' = ctx) as Hctx' by apply Hd.
  assert (gc_round ds' = gc_round ds) as Hgc.
  { unfold gc_round, calculate_gc_round, last_commit_round. by rewrite Hlast, Hctx, Hctx'. }
  assert (commit_view c ds') as Hv'.
  { split.
    - rewrite <- Hc. eapply bm_ok_view; [apply Hdp|done|done].
    - intros r b a Hr Hin Ha Hlt. rewrite Hgc in Hlt. apply Hkeep; [|done].
      eapply (cv_closed _ _ Hv); [by apply Hsame|by apply Hsub|done|done].
    - intros r Hin%Hsub. unfold last_commit_round. rewrite Hlast. by apply (cv_committed _ _ Hv).
    - intros r b a. by eapply bm_ok_genesis.
    - rewrite Hrounds. apply Hv.
    - rewrite Hctx'. apply Hdp. }
  split; [done|]. split; [done|split; [done|by eapply bm_ok_cached_sub]|done|by rewrite Hctx, Hctx'|done|].
  intros r Hr. split; [intros; by apply Hkeep|apply Hsub].
Qed.

Lemma grown_view bm' ds out ds' :
  commit_view c ds → ds_context ds = ctx → bm_ok ctx (dom genesis) U bm' ds' → grown ctx (dom genesis) U ds out ds' →
  commit_view c ds' ∧ same_commits c U ds ds' ∧ committed_refs ds' = committed_refs ds.
Proof using Hdp.
  intros Hv Hctx Hb Hg. pose proof (gw_frame _ _ _ _ _ _ Hg) as Hf.
  assert (∀ r, r ∈ committed_refs ds' ↔ r ∈ committed_refs ds) as Hcom.
  { intros r. by rewrite !elem_of_committed_flag, (af_committed _ _ Hf). }
  assert (cached ds ⊆ U) as HU by (etrans; [apply (af_cached _ _ Hf)|by eapply bm_ok_cached_sub]).
  assert (commit_view c ds' ∧ same_commits c U ds ds') as [? ?]; [|split_and!; [done|done|by apply set_eq]].
  apply (kept_view bm'); [done|done| |done|apply Hg|apply Hf|intros r; apply Hcom|intros r ? _; by apply Hcom| |done|apply Hf].
  - eapply grown_highest; [apply (dv_rounds _ _ (cv_view _ _ Hv))|done|done].
  - intros r b Hin Hr. apply Hcom, elem_of_committed_refs in Hin as (i & Hi & _).
    assert (cached ds !! r = Some (bi_block i)) as Hci by (by rewrite cached_lookup, Hi).
    rewrite Hci. eapply lookup_weaken in Hci; [|apply (af_cached _ _ Hf)]. congruence.
Qed.

Lemma flush_commit_view bm ds ds' :
  commit_view c ds → ds_context ds = ctx → bm_ok ctx (dom genesis) U bm ds → flush ds = Done ds' →
  bm_ok ctx (dom genesis) U bm ds' ∧ commit_view c ds' ∧ same_commits c U ds ds' ∧ ds_scoring_subdag ds' = ds_scoring_subdag ds ∧
  ∀ r, r ∈ committed_refs ds → (gc_round ds < ref_round r)%N → r ∈ committed_refs ds'.
Proof using Hdp.
  intros Hv Hctx Hb Hrun. pose proof (nd_ok _ _ _ _ (bo_dag _ _ _ _ _ _ Hb)) as Hok.
  destruct (flush_ok ds Hok) as (ds1 & Hrun1 & Hf). rewrite Hrun in Hrun1. injection Hrun1 as <-.
  assert (bm_ok ctx (dom genesis) U bm ds') as Hb'.
  { eapply bm_ok_dag_step; [done|by apply step_flush|apply Hf]. }
  assert (∀ r, r ∈ committed_refs ds' → r ∈ committed_refs ds) as Hsub.
  { intros r. rewrite !elem_of_committed_refs. intros (i & Hi & Hc). exists i. split; [|done].
    eapply lookup_weaken; [exact Hi|apply Hf]. }
  assert (∀ r, r ∈ committed_refs ds → (gc_round ds < ref_round r)%N → r ∈ committed_refs ds') as Hkeep.
  { intros r. rewrite !elem_of_committed_refs. intros (i & Hi & Hc) Hr. exists i. split; [|done].
    assert (r ∈ dom (cached ds')) as Hin by (apply (fl_cached _ _ Hf); [rewrite dom_cached; by eapply elem_of_dom_2|done]).
    rewrite dom_cached in Hin. apply elem_of_dom in Hin as [i' Hi']. rewrite Hi'. symmetry. rewrite <- Hi.
    eapply lookup_weaken; [exact Hi'|apply Hf]. }
  destruct (kept_view bm ds ds') as [Hv' Hs]; [done|done| |done|apply Hf|apply Hf|done|done| |by eapply bm_ok_cached_sub|apply Hf|].
  - rewrite (fl_highest _ _ Hf). apply (dv_rounds _ _ (cv_view _ _ Hv)).
  - intros r b _ Hr. eapply lookup_weaken; [exact Hr|apply Hf].
  - split_and!; [done|done|done|apply Hf|done].
Qed.

(** ** The decisions behind the commits *)

(** The status [st] of the leader of round [k] was decided under the swap table [t], by
    the commit rule on some state of the node. *)
Definition decided (n : N) (t : LeaderSwapTable) (k : N) (st : LeaderStatus) : Prop :=
  ∃ leader ds last seq i d, node_ok c U leader ctx (mkLeaderSchedule t ctx n) ds last ∧
    try_decide (pipeline ctx (mkLeaderSchedule t ctx n)) ds last = Done seq ∧ seq !! i = Some d ∧ status_of d = st ∧
    k = (slot_round last + 1 + N.of_nat i)%N.

(** [node_history ds t ss D out]: a node decided the leaders of the rounds from 1 on as [D]
    says, which made the commits [out]; [t] is the swap table then in force, [ss] the
    scores collected for the next one, and the commits and the committed blocks are
    those of [ds]. Every schedule is used for [n] commits. *)
Inductive node_history (n : N) : DagState S → LeaderSwapTable → ScoringSubdag → list LeaderStatus → list CommittedSubDag → Prop :=
  | history_start ds :
      commit_view c ds → cached ds ⊆ U → ds_context ds = ctx → ds_genesis ds = genesis → ds_last_commit ds = None →
      committed_refs ds = ∅ → node_history n ds LeaderSwapTable_default ScoringSubdag_new [] []
  | history_view ds ds' t ss D out :
      node_history n ds t ss D out → same_commits c U ds ds' → node_history n ds' t ss D out
  | history_skip ds t ss D out k slot :
      node_history n ds t ss D out → scored_subdags_count ss = Done k → (k < n)%N →
      decided n t (lengthN D + 1) (LSkip slot) → node_history n ds t ss (D ++ [LSkip slot]) out
  | history_commit ds t ss D out k b d sd commit ds' ss' :
      node_history n ds t ss D out → scored_subdags_count ss = Done k → (k < n)%N →
      decided n t (lengthN D + 1) (LCommit b) → next_leader ds b → collect_sub_dag_and_commit ds b = Done (d, sd, commit) →
      commit_step c ds b sd commit → committed_state ds sd commit ds' → commit_view c ds' → add_subdag c ss sd = Done ss' →
      node_history n ds' t ss' (D ++ [LCommit b]) (out ++ [sd])
  | history_schedule ds t t' ss D out :
      node_history n ds t ss D out → scored_subdags_count ss = Done n → next_table ctx ss = Done t' →
      node_history n ds t' ScoringSubdag_new D out.

(** The schedule in force once a change that is due is made. *)
Definition settled (n : N) (t : LeaderSwapTable) (ss : ScoringSubdag) : outcome (LeaderSwapTable * ScoringSubdag) :=
  k ← scored_subdags_count ss;
  if decide (k = n) then t ← next_table ctx ss; Done (t, ScoringSubdag_new) else Done (t, ss).

Lemma settled_open n t ss k : scored_subdags_count ss = Done k → (k < n)%N → settled n t ss = Done (t, ss).
Proof using. intros Hk Hlt. unfold settled. rewrite Hk. run_bind. by rewrite decide_False by lia. Qed.

Lemma settled_schedule n t t' ss :
  (0 < n)%N → scored_subdags_count ss = Done n → next_table ctx ss = Done t' →
  settled n t' ScoringSubdag_new = settled n t ss.
Proof using.
  clear Hdp. intros Hn Hk Ht. rewrite (settled_open n t' _ 0) by done. unfold settled. rewrite Hk. run_bind. by rewrite decide_True, Ht by done.
Qed.

(** A history has all shorter ones. *)
Lemma history_prefix n ds t ss D out j :
  node_history n ds t ss D out → j ≤ length D → ∃ ds' t' ss' out', node_history n ds' t' ss' (take j D) out' ∧ out' `prefix_of` out.
Proof using.
  clear Hdp. intros Hh. assert (∀ ds t ss D out, node_history n ds t ss D out → j = length D →
    ∃ ds' t' ss' out', node_history n ds' t' ss' (take j D) out' ∧ out' `prefix_of` out) as Hall.
  { intros ???? out' Hh' ->. rewrite take_ge by done. by eexists _, _, _, out'. }
  induction Hh as [ds ??????|ds ds' t ss D out Hh IH Hs|ds t ss D out k slot Hh IH|ds t ss D out k b d sd commit ds' ss' Hh IH
    |ds t t' ss D out Hh IH]; intros Hj.
  - eapply Hall; [by apply history_start|cbn in *; lia].
  - by apply IH.
  - rewrite length_app in Hj. cbn in Hj. destruct (decide (j = length D + 1)) as [->|].
    + eapply (Hall ds t ss); [by eapply history_skip|by rewrite length_app].
    + rewrite take_app_le by lia. apply IH. lia.
  - rewrite length_app in Hj. cbn in Hj. destruct (decide (j = length D + 1)) as [->|].
    + eapply (Hall ds' t ss'); [by eapply history_commit|by rewrite length_app].
    + rewrite take_app_le by lia. destruct IH as (d1 & t1 & ss1 & o1 & Ho & Hp); [lia|].
      exists d1, t1, ss1, o1. split; [done|]. by apply prefix_app_r.
  - by apply IH.
Qed.

Lemma history_state n ds t ss D out :
  node_history n ds t ss D out → commit_view c ds ∧ cached ds ⊆ U.
Proof using.
  clear Hdp. induction 1 as [ds ??????|ds ds' t ss D out Hh IH Hs|ds t ss D out k slot Hh IH|ds t ss D out k b d sd commit ds' ss' Hh IH
    ? ? ? ? ? ? Hst|ds t t' ss D out Hh IH]; [done|apply Hs|done| |done].
  split; [done|]. rewrite (ct_cached _ _ _ _ Hst). apply IH.
Qed.

(** The commits of a history are numbered from 1, their leaders are of growing rounds,
    and no block is committed twice. *)
Record commits_sequence (out : list CommittedSubDag) : Prop := {
  cq_numbers : map (λ sd, cref_index (sd_commit_ref sd)) out = rangeN 1 (lengthN out + 1);
  cq_leaders : StronglySorted (λ a b, ref_round (sd_leader a) < ref_round (sd_leader b))%N out;
  cq_once : NoDup (reference <$> (out ≫= sd_blocks));
  cq_blocks b : b ∈ out ≫= sd_blocks → U !! reference b = Some b;
}.

Lemma commits_sequence_snoc out sd :
  commits_sequence out → cref_index (sd_commit_ref sd) = (lengthN out + 1)%N →
  (∀ x, x ∈ out → ref_round (sd_leader x) < ref_round (sd_leader sd))%N → NoDup (reference <$> sd_blocks sd) →
  (∀ b, b ∈ out ≫= sd_blocks → reference b ∉ reference <$> sd_blocks sd) → (∀ b, b ∈ sd_blocks sd → U !! reference b = Some b) →
  commits_sequence (out ++ [sd]).
Proof using.
  clear Hdp. intros [Hnum Hlead Honce Hin] Hidx Hlt Hnd Hnew HU. split.
  - rewrite map_app, Hnum. cbn [map]. rewrite Hidx. unfold lengthN. rewrite length_app. cbn [length].
    replace (N.of_nat (length out + 1) + 1)%N with (N.of_nat (length out) + 1 + 1)%N by lia.
    by rewrite (rangeN_snoc 1 (N.of_nat (length out) + 1)) by lia.
  - apply StronglySorted_app_2; [|done|repeat constructor]. intros x y Hx ->%list_elem_of_singleton. by apply Hlt.
  - rewrite bind_app, fmap_app. cbn. rewrite app_nil_r. apply NoDup_app. split_and!; [done| |done].
    intros r (b & -> & Hb)%list_elem_of_fmap. by apply Hnew.
  - intros b. rewrite bind_app, elem_of_app. cbn. rewrite app_nil_r. intros [Hb|Hb]; auto.
Qed.

Lemma history_commits n ds t ss D out :
  node_history n ds t ss D out →
  commits_sequence out ∧ last_commit_index ds = lengthN out ∧ (∀ x, x ∈ out → ref_round (sd_leader x) ≤ last_commit_round ds)%N ∧
  ∀ b, b ∈ out ≫= sd_blocks → reference b ∈ committed_refs ds ∨ (round b ≤ gc_round ds)%N.
Proof using.
  clear Hdp. induction 1 as [ds Hv HU Hctx Hg Hl Hc|ds ds' t ss D out Hh IH Hs|ds t ss D out k slot Hh IH Hk Hlt Hdec
    |ds t ss D out k b d sd commit ds' ss' Hh IH Hk Hlt Hdec Hnext Hcol Hstep Hst Hv Hadd|ds t t' ss D out Hh IH Hk Ht]; [| |done| |done].
  - split_and!; [|unfold last_commit_index; by rewrite Hl|by intros x ?%not_elem_of_nil|by intros b ?%not_elem_of_nil].
    split; [reflexivity|constructor|constructor|by intros b ?%not_elem_of_nil].
  - destruct IH as (Hq & Hi & Hr & Hb). unfold last_commit_index, last_commit_round in *. rewrite <- (sm_last _ _ _ _ Hs).
    split_and!; [done|done|done|]. rewrite <- (same_gc _ _ _ _ Hs). intros b Hin.
    destruct (decide (round b ≤ gc_round ds)%N); [by right|left]. destruct (Hb b Hin) as [Hc|]; [|done].
    apply (sm_committed _ _ _ _ Hs); [cbn; lia|done].
  - destruct IH as (Hq & Hi & Hr & Hb). destruct (history_state _ _ _ _ _ _ Hh) as [_ HU].
    destruct (committed_last c _ _ _ _ _ Hstep Hst) as (Hi' & Hr' & _). pose proof (cs_blocks _ _ _ _ _ Hstep) as Hlin.
    destruct (cs_leader _ _ _ _ _ Hstep) as [Hl1 _]. destruct Hnext as [Hcb Hrb].
    assert (gc_round ds ≤ gc_round ds')%N as Hgc.
    { unfold gc_round, calculate_gc_round. rewrite Hr', (ct_context _ _ _ _ Hst). lia. }
    split_and!.
    + apply commits_sequence_snoc; [done| | | | |].
      * rewrite (cs_ref _ _ _ _ _ Hstep). change (cref_index (TrustedCommit_reference commit)) with (tc_index commit).
        rewrite (cs_index _ _ _ _ _ Hstep). lia.
      * intros x Hx. rewrite Hl1. cbn. specialize (Hr x Hx). lia.
      * apply Hlin.
      * intros b' Hb' (b2 & Heq & Hb2)%list_elem_of_fmap. apply (ln_exact _ _ _ _ _ Hlin) in Hb2 as (_ & _ & Hg2 & Hn2).
        assert (round b' = round b2) as Hr2 by exact (f_equal ref_round Heq).
        rewrite <- Heq in Hn2. destruct (Hb b' Hb') as [|]; [done|lia].
      * intros b' Hb'. apply (ln_exact _ _ _ _ _ Hlin) in Hb' as [Hb' _]. by eapply lookup_weaken.
    + rewrite Hi', Hi. unfold lengthN. rewrite length_app. cbn. lia.
    + rewrite Hr'. intros x [Hx| ->%list_elem_of_singleton]%elem_of_app; [specialize (Hr x Hx); lia|]. by rewrite Hl1.
    + intros b'. rewrite (ct_committed _ _ _ _ Hst), bind_app, elem_of_app. cbn. rewrite app_nil_r. intros [Hb'|Hb'].
      * destruct (Hb b' Hb'); [left; by apply elem_of_union_r|right; lia].
      * left. apply elem_of_union_l, elem_of_list_to_set. by apply (list_elem_of_fmap_2 reference).
Qed.

Lemma same_commits_refl ds : commit_view c ds → cached ds ⊆ U → same_commits c U ds ds.
Proof using. by intros. Qed.

Lemma same_commits_trans ds1 ds2 ds3 : same_commits c U ds1 ds2 → same_commits c U ds2 ds3 → same_commits c U ds1 ds3.
Proof using.
  clear Hdp. intros Hs1 Hs2. pose proof (same_gc _ _ _ _ Hs1) as Hgc. destruct Hs1, Hs2. split; [done|done|congruence..|].
  intros r Hr. rewrite sm_committed by done. apply sm_committed0. by rewrite <- Hgc.
Qed.

(** The start of a history. *)
Lemma history_nil n ds t ss D out :
  (0 < n)%N → node_history n ds t ss D out → D = [] →
  out = [] ∧ settled n t ss = Done (LeaderSwapTable_default, ScoringSubdag_new) ∧ ds_last_commit ds = None ∧
  ds_genesis ds = genesis ∧ gc_depth (protocol_config (ds_context ds)) = gc_depth (protocol_config ctx) ∧
  ∀ r, (gc_round ds < ref_round r)%N → r ∉ committed_refs ds.
Proof using.
  clear Hdp. intros Hn. induction 1 as [ds Hv HU Hctx Hg Hl Hc|ds ds' t ss D out Hh IH Hs|ds t ss D out k slot Hh IH
    |ds t ss D out k b d sd commit ds' ss' Hh IH|ds t t' ss D out Hh IH Hk Ht]; intros HD; try by destruct D.
  - split_and!; [done|by apply (settled_open n _ _ 0)|done|done|by rewrite Hctx|]. intros r _. rewrite Hc. apply not_elem_of_empty.
  - destruct (IH HD) as (Ho & Hset & Hlast & Hgen & Hgc & Hcom). pose proof (same_gc _ _ _ _ Hs) as Heq. destruct Hs.
    split_and!; [done|done|congruence..|]. intros r Hr. rewrite <- sm_committed by lia. apply Hcom. lia.
  - destruct (IH HD) as (Ho & Hset & Hrest). split; [done|]. split; [by rewrite (settled_schedule n t t' ss)|exact Hrest].
Qed.

(** The last decision of a history. *)
Definition last_step (n : N) ds0 t0 ss0 out0 (st : LeaderStatus) ds t ss out : Prop :=
  match st with
  | LCommit b => ∃ d sd commit ds1 ss1, next_leader ds0 b ∧ collect_sub_dag_and_commit ds0 b = Done (d, sd, commit) ∧
      commit_step c ds0 b sd commit ∧ committed_state ds0 sd commit ds1 ∧ commit_view c ds1 ∧ add_subdag c ss0 sd = Done ss1 ∧
      out = out0 ++ [sd] ∧ same_commits c U ds1 ds ∧ settled n t0 ss1 = settled n t ss
  | _ => out = out0 ∧ same_commits c U ds0 ds ∧ settled n t0 ss0 = settled n t ss
  end.

Lemma last_step_view n ds0 t0 ss0 out0 st ds t ss out ds' t' ss' :
  last_step n ds0 t0 ss0 out0 st ds t ss out → same_commits c U ds ds' → settled n t' ss' = settled n t ss →
  last_step n ds0 t0 ss0 out0 st ds' t' ss' out.
Proof using.
  clear Hdp. intros Hl Hs Hset. unfold last_step in *. destruct st as [b| |].
  - destruct Hl as (d & sd & commit & ds1 & ss1 & ? & ? & ? & ? & ? & ? & ? & Hs1 & ?). exists d, sd, commit, ds1, ss1.
    split_and!; try done; [by eapply same_commits_trans|congruence].
  - destruct Hl as (? & Hs1 & ?). split_and!; [done|by eapply same_commits_trans|congruence].
  - destruct Hl as (? & Hs1 & ?). split_and!; [done|by eapply same_commits_trans|congruence].
Qed.

Lemma history_last n ds t ss D' D st out :
  (0 < n)%N → node_history n ds t ss D' out → D' = D ++ [st] →
  ∃ ds0 t0 ss0 out0 k, node_history n ds0 t0 ss0 D out0 ∧ scored_subdags_count ss0 = Done k ∧ (k < n)%N ∧
    decided n t0 (lengthN D + 1) st ∧ last_step n ds0 t0 ss0 out0 st ds t ss out.
Proof using.
  clear Hdp. intros Hn. induction 1 as [ds Hv HU Hctx Hg Hl Hc|ds ds' t ss D0 out Hh IH Hs|ds t ss D0 out k slot Hh IH Hk Hlt Hdec
    |ds t ss D0 out k b d sd commit ds' ss' Hh IH Hk Hlt Hdec Hnext Hcol Hstep Hst Hv Hadd|ds t t' ss D0 out Hh IH Hk Ht]; intros HD.
  - by destruct D.
  - destruct (IH HD) as (ds0 & t0 & ss0 & out0 & k & ? & ? & ? & ? & Hls). exists ds0, t0, ss0, out0, k.
    split_and!; [done..|]. by eapply last_step_view.
  - apply app_inj_tail in HD as [<- <-]. destruct (history_state _ _ _ _ _ _ Hh) as [Hv HU]. exists ds, t, ss, out, k.
    split_and!; [done..|]. by split_and!.
  - apply app_inj_tail in HD as [<- <-]. destruct (history_state _ _ _ _ _ _ Hh) as [_ HU]. exists ds, t, ss, out, k.
    split_and!; [done..|]. exists d, sd, commit, ds', ss'. split_and!; try done.
    apply same_commits_refl; [done|]. by rewrite (ct_cached _ _ _ _ Hst).
  - destruct (history_state _ _ _ _ _ _ Hh) as [Hv HU].
    destruct (IH HD) as (ds0 & t0 & ss0 & out0 & k & ? & ? & ? & ? & Hls). exists ds0, t0, ss0, out0, k.
    split_and!; [done..|]. eapply last_step_view; [done|by apply same_commits_refl|by eapply settled_schedule].
Qed.

End node.

(** ** Agreement of histories *)
Section agreement.
Context (ctx ctx' : Context) (Hdp : deployment ctx) (Hdp' : deployment ctx').
Context (Hconfig : protocol_config ctx = protocol_config ctx').

Lemma same_committee : committee ctx = committee ctx'.
Proof using Hdp Hdp'. by rewrite (sg_committee _ _ (dp_schedule _ Hdp)), (sg_committee _ _ (dp_schedule _ Hdp')). Qed.

Lemma next_table_same ss : next_table ctx ss = next_table ctx' ss.
Proof using Hconfig Hdp Hdp'.
  unfold next_table, LeaderSwapTable_new, LeaderSwapTable_new_inner, authorities_by_score.
  by rewrite Hconfig, same_committee.
Qed.

Lemma elect_leader_same n t k : elect_leader (mkLeaderSchedule t ctx n) k 0 = elect_leader (mkLeaderSchedule t ctx' n) k 0.
Proof using Hdp Hdp'. unfold elect_leader, elect_leader_stake_based. cbn [ls_context leader_swap_table]. by rewrite same_committee. Qed.

(** Two nodes do not decide the same round differently. *)
Lemma decided_same n t k st st' : decided ctx n t k st → decided ctx' n t k st' → st = st'.
Proof using Hdp Hdp'.
  intros (leader & ds & last & seq & i & d & Hn & Hrun & Hi & <- & Hk)
    (leader' & ds' & last' & seq' & i' & d' & Hn' & Hrun' & Hi' & <- & Hk').
  assert (node_ok c U leader ctx' (mkLeaderSchedule t ctx' n) ds' last') as Hn1.
  { assert (∀ k, leader' k = leader k) as Heq.
    { intros j. pose proof (no_election _ _ _ _ _ _ _ Hn' j) as He. rewrite <- elect_leader_same, (no_election _ _ _ _ _ _ _ Hn) in He.
      by injection He. }
    destruct Hn'. split; try done; intros j; by rewrite <- Heq. }
  destruct (try_decide_pointwise c U leader f byz ctx ctx' _ _ ds ds' last last' (dp_network _ Hdp) Hn Hn1)
    as (seq1 & seq1' & Hr & Hr' & Hagree).
  rewrite Hrun in Hr. injection Hr as <-. rewrite Hrun' in Hr'. injection Hr' as <-. eapply Hagree; [done|done|lia].
Qed.

(** Histories of the same length are the same. *)
Lemma history_agree n ds t ss D out ds' t' ss' D' out' :
  (0 < n)%N → node_history ctx n ds t ss D out → node_history ctx' n ds' t' ss' D' out' → length D = length D' →
  D = D' ∧ out = out' ∧ same_commits c U ds ds' ∧ settled ctx n t ss = settled ctx' n t' ss'.
Proof using Hconfig Hdp Hdp'.
  intros Hn. revert ds t ss out ds' t' ss' D' out'.
  induction D as [|st D IH] using rev_ind; intros ds t ss out ds' t' ss' D' out' Hh Hh' Hlen.
  - destruct D' as [|]; [|done]. destruct (history_nil ctx n _ _ _ _ _ Hn Hh eq_refl) as (-> & -> & Hl & Hg & Hgc & Hcom).
    destruct (history_nil ctx' n _ _ _ _ _ Hn Hh' eq_refl) as (-> & -> & Hl' & Hg' & Hgc' & Hcom').
    assert (gc_round ds' = gc_round ds) as Hr.
    { unfold gc_round, calculate_gc_round, last_commit_round. by rewrite Hl, Hl', Hgc, Hgc', Hconfig. }
    split_and!; [done|done| |done]. split; [by eapply history_state|by eapply history_state|congruence..|].
    intros r Hlt. split; intros Hin; exfalso; [by eapply Hcom|]. eapply Hcom'; [|done]. lia.
  - destruct (exists_last (l := D')) as (D0' & st' & ->); [by destruct D', D|].
    rewrite !length_app in Hlen. cbn in Hlen.
    destruct (history_last ctx n _ _ _ _ _ _ _ Hn Hh eq_refl) as (ds0 & t0 & ss0 & out0 & k & Hh0 & Hk & Hlt & Hdec & Hls).
    destruct (history_last ctx' n _ _ _ _ _ _ _ Hn Hh' eq_refl) as (ds0' & t0' & ss0' & out0' & k' & Hh0' & Hk' & Hlt' & Hdec' & Hls').
    destruct (IH _ _ _ _ _ _ _ _ _ Hh0 Hh0') as (<- & <- & Hs & Hset); [lia|].
    rewrite (settled_open ctx n t0 ss0 k), (settled_open ctx' n t0' ss0' k') in Hset by done. injection Hset as <- <-.
    assert (st = st') as -> by (by eapply decided_same). clear Hdec Hdec'.
    assert (∀ t ss, settled ctx n t ss = settled ctx' n t ss) as Hsame.
    { intros. unfold settled. by rewrite next_table_same. }
    unfold last_step in Hls, Hls'. destruct st' as [b| |].
    + destruct Hls as (d & sd & commit & ds1 & ss1 & Hnext & Hcol & Hstep & Hst & Hv & Hadd & -> & Hs1 & Hset).
      destruct Hls' as (d' & sd' & commit' & ds1' & ss1' & Hnext' & Hcol' & Hstep' & Hst' & Hv' & Hadd' & -> & Hs1' & Hset').
      assert (sd = sd' ∧ commit = commit') as [<- <-] by (by eapply (collect_agree c (dp_quorum ctx Hdp) U ds0 ds0')).
      rewrite Hadd in Hadd'. injection Hadd' as <-. split_and!; [done|done| |by rewrite <- Hset, <- Hset'].
      eapply same_commits_trans; [by apply same_commits_sym|]. eapply same_commits_trans; [|done].
      by eapply (same_commits_next c (dp_quorum ctx Hdp) U ds0 ds0').
    + destruct Hls as (-> & Hs1 & Hset), Hls' as (-> & Hs1' & Hset'). split_and!; [done|done| |by rewrite <- Hset, <- Hset'].
      eapply same_commits_trans; [by apply same_commits_sym|]. by eapply same_commits_trans.
    + destruct Hls as (-> & Hs1 & Hset), Hls' as (-> & Hs1' & Hset'). split_and!; [done|done| |by rewrite <- Hset, <- Hset'].
      eapply same_commits_trans; [by apply same_commits_sym|]. by eapply same_commits_trans.
Qed.

(** The commits of one node are a prefix of those of the other. *)
Lemma history_comparable n ds t ss D out ds' t' ss' D' out' :
  (0 < n)%N → node_history ctx n ds t ss D out → node_history ctx' n ds' t' ss' D' out' → length D ≤ length D' → out `prefix_of` out'.
Proof using Hconfig Hdp Hdp'.
  intros Hn Hh Hh' Hle. destruct (history_prefix ctx' n _ _ _ _ _ (length D) Hh' Hle) as (ds0 & t0 & ss0 & out0 & Hh0 & Hp).
  destruct (history_agree n _ _ _ _ _ _ _ _ _ _ Hn Hh Hh0) as (_ & -> & _); [|done].
  rewrite length_take. lia.
Qed.

End agreement.
End deployment.
