(* ===== verification/CoreNode.v ===== *)
(** * The invariant of Core

    The state of a node between the operations of Core, and that committing, changing
    the schedule, accepting blocks and flushing keep it. *)

From S2P Require Import Prelude Committee Block StakeAggregator ThresholdClock Commit Store LeaderScoring.
From S2P Require Import DagState DagInvariant DagDurability LeaderSchedule BaseCommitter UniversalCommitter CausalHistory.
From S2P Require Import BlockVerifier BlockManager BlockManagerSpec CommitRules CommitSafety Linearizer LinearizerSpec CommitTimestamp.
From S2P Require Import CommitOrder ScheduleSpec Proposer CommitSyncer CommitObserver Core CoreSpec.

Section node.
Context {S : Type} `{StoreLaws S} `{LeaderRngLaws} `{BlockCodec} `{CommitCodec}.
Context (c : Committee) (f : N) (byz : gset N) (U genesis : gmap BlockRef VerifiedBlock).
Context (ctx : Context) (Hdp : deployment c f byz U genesis ctx).
Implicit Types ds : DagState S.
Implicit Types bm : BlockManager.

(** The references that were committed, as far as the state tells. *)
Definition seen ds (r : BlockRef) : Prop := r ∈ dom U ∧ (r ∈ committed_refs ds ∨ (ref_round r ≤ gc_round ds)%N).

(** The commits of a state with the scores [ss]. *)
Record commits_ok ds (ss : ScoringSubdag) (D : list LeaderStatus) : Prop := {
  cm_view : commit_view c ds;
  cm_cached : cached ds ⊆ U;
  cm_index : (last_commit_index ds ≤ last_commit_round ds)%N;
  cm_decided : (last_commit_round ds ≤ lengthN D)%N;
  cm_scores : scores_ok c (seen ds) (last_commit_round ds) (last_commit_index ds) ss;
}.

(** [D] are the decisions of the node, [out] its commits. *)
Record node_inv (n : N) bm ds (ls : LeaderSchedule) (last : Slot) (D : list LeaderStatus) (out : list CommittedSubDag) : Prop := {
  ni_manager : bm_ok ctx (dom genesis) U bm ds;
  ni_commits : commits_ok ds (ds_scoring_subdag ds) D;
  ni_last : slot_round last = lengthN D;
  ni_bound : (lengthN D + 8 < u32_MAX)%N;
  ni_schedule : schedule_ok c ctx (last_commit_index ds) (ds_scoring_subdag ds) ls;
  ni_number : num_commits_per_schedule ls = n;
  ni_history : node_history c U genesis ctx n ds (leader_swap_table ls) (ds_scoring_subdag ds) D out;
}.

(** ** Committing the leader of one round *)

Lemma seen_committed ds leader sd commit ds' :
  cached ds ⊆ U → next_leader ds leader → commit_step c ds leader sd commit → committed_state ds sd commit ds' →
  ∀ r, seen ds r ∨ r ∈ reference <$> sd_blocks sd → seen ds' r.
Proof using.
  clear Hdp. intros HU Hn Hstep Hst r. unfold seen. rewrite (ct_committed _ _ _ _ Hst).
  destruct (committed_last c _ _ _ _ _ Hstep Hst) as (_ & Hr & _).
  assert (gc_round ds ≤ gc_round ds')%N as Hgc.
  { destruct Hn as [_ Hlt]. unfold gc_round, calculate_gc_round. rewrite Hr, (ct_context _ _ _ _ Hst). lia. }
  intros [[Hin [Hc|Hle]]|Hin].
  - split; [done|]. left. by apply elem_of_union_r.
  - split; [done|]. right. lia.
  - split; [|left; by apply elem_of_union_l, elem_of_list_to_set].
    apply list_elem_of_fmap in Hin as (b & -> & Hb). apply (ln_exact _ _ _ _ _ (cs_blocks _ _ _ _ _ Hstep)) in Hb as [Hb _].
    eapply elem_of_dom_2, lookup_weaken; [exact Hb|done].
Qed.

Lemma commit_step_next ds leader sd commit :
  commit_view c ds → next_leader ds leader → commit_step c ds leader sd commit → (last_commit_index ds + 1 < u32_MAX)%N →
  next_subdag c (seen ds) (last_commit_round ds) (last_commit_index ds) sd.
Proof using.
  clear Hdp. intros Hv [Hl Hr] Hstep Hmax. pose proof (cs_blocks _ _ _ _ _ Hstep) as Hlin. split.
  - rewrite (cs_ref _ _ _ _ _ Hstep). apply (cs_index _ _ _ _ _ Hstep).
  - done.
  - by rewrite (proj1 (cs_leader _ _ _ _ _ Hstep)).
  - intros b Hb. apply (ln_exact _ _ _ _ _ Hlin) in Hb as [Hb _]. by eapply dv_valid; [apply Hv|].
  - intros b Hb [_ Hs]. apply (ln_exact _ _ _ _ _ Hlin) in Hb as (_ & _ & Hgc & Hn). destruct Hs as [|Hle]; [done|]. cbn in Hle. lia.
  - apply Hlin.
Qed.

(** ** Committing a sequence of decisions *)

(** What commits leave alone. *)
Record commits_frame ds ds' : Prop := {
  cf_cached : cached ds' = cached ds;
  cf_context : ds_context ds' = ds_context ds;
  cf_genesis : ds_genesis ds' = ds_genesis ds;
  cf_store : ds_store ds' = ds_store ds;
  cf_scoring : ds_scoring_subdag ds' = ds_scoring_subdag ds;
  cf_highest : ds_highest_accepted_round ds' = ds_highest_accepted_round ds;
  cf_gc : (gc_round ds ≤ gc_round ds')%N;
}.

Lemma commits_frame_refl ds : commits_frame ds ds.
Proof using. by split. Qed.

Lemma commits_frame_trans ds1 ds2 ds3 : commits_frame ds1 ds2 → commits_frame ds2 ds3 → commits_frame ds1 ds3.
Proof using. clear Hdp. intros [] []. split; [congruence..|lia]. Qed.

Lemma commit_leader n t ds ss D out k b sds0 :
  node_history c U genesis ctx n ds t ss D out → commits_ok ds ss D → scored_subdags_count ss = Done k → (k < n)%N →
  decided c U ctx n t (lengthN D + 1) (LCommit b) → next_leader ds b → round b = (lengthN D + 1)%N →
  ∃ ds' sd ss', handle_leader (ds, sds0) b = Done (ds', sds0 ++ [sd]) ∧ add_subdag c ss sd = Done ss' ∧
    node_history c U genesis ctx n ds' t ss' (D ++ [LCommit b]) (out ++ [sd]) ∧ commits_ok ds' ss' (D ++ [LCommit b]) ∧
    scored_subdags_count ss' = Done (k + 1)%N ∧ window_start (last_commit_index ds') ss' = window_start (last_commit_index ds) ss ∧
    last_commit_index ds' = (last_commit_index ds + 1)%N ∧ last_commit_round ds' = round b ∧ commits_frame ds ds'.
Proof using Hdp.
  intros Hh Hcm Hk Hlt Hdec Hn Hround. pose proof (cm_view _ _ _ Hcm) as Hv. pose proof (cm_cached _ _ _ Hcm) as HU.
  pose proof (dv_rounds _ _ (cv_view _ _ Hv)) as Hmax. pose proof (cm_index _ _ _ Hcm) as Hidx. destruct Hn as [Hb Hr].
  assert (round b ≤ ds_highest_accepted_round ds)%N as Hhigh.
  { change (round b) with (ref_round (reference b)). eapply dk_highest; [apply Hv|by eapply elem_of_dom_2]. }
  unfold u32_MAX in Hmax.
  destruct (handle_leader_spec c (dp_quorum c f byz U genesis ctx Hdp) (dp_codec _ _ _ _ _ _ Hdp) ds sds0 b Hv (conj Hb Hr))
    as (d & ds' & sd & commit & Hcol & Hrun & Hstep & Hst & Hv'); [lia|].
  destruct (committed_last c _ _ _ _ _ Hstep Hst) as (Hi & Hlr & _).
  destruct (add_subdag_total c (dp_committee c f byz U genesis ctx Hdp) (seen ds) (last_commit_round ds) (last_commit_index ds) ss sd)
    as (ss' & Hadd & Hsc & Hw); [apply Hcm|apply (commit_step_next ds b sd commit); [done|by split|done|unfold u32_MAX; lia]|].
  assert (commits_ok ds' ss' (D ++ [LCommit b])) as Hcm'.
  { split; [done|by rewrite (ct_cached _ _ _ _ Hst)|rewrite Hi, Hlr; lia|rewrite Hlr; unfold lengthN in *; rewrite length_app; cbn; lia|].
    rewrite Hi, Hlr. rewrite (proj1 (cs_leader _ _ _ _ _ Hstep)) in Hsc. eapply scores_ok_mono; [exact Hsc|].
    by apply (seen_committed ds b sd commit). }
  exists ds', sd, ss'. split_and!; try done.
  - by eapply history_commit.
  - rewrite (scores_count c _ _ _ _ (cm_scores _ _ _ Hcm')), Hi, Hw. pose proof (scores_count c _ _ _ _ (cm_scores _ _ _ Hcm)) as Hc0.
    rewrite Hk in Hc0. injection Hc0 as ->. f_equal.
    assert (window_start (last_commit_index ds) ss ≤ last_commit_index ds + 1)%N; [|lia].
    unfold window_start. destruct (ss_commit_range ss) as [range|] eqn:Hrange; [|lia].
    pose proof (so_range _ _ _ _ _ (cm_scores _ _ _ Hcm) range Hrange). lia.
  - by rewrite Hi.
  - destruct Hst. split; try done. unfold gc_round, calculate_gc_round. rewrite Hlr, ct_context. lia.
Qed.

Lemma commit_decisions n t seq ds ss D out k sds0 :
  node_history c U genesis ctx n ds t ss D out → commits_ok ds ss D → scored_subdags_count ss = Done k → (k + lengthN seq ≤ n)%N →
  (∀ i d, seq !! i = Some d → decided c U ctx n t (lengthN D + 1 + N.of_nat i) (status_of d) ∧
    slot_round (DecidedLeader_slot d) = (lengthN D + 1 + N.of_nat i)%N) →
  leaders_ok ds (committed_leaders seq) →
  ∃ ds' sds ss', for_each handle_leader (ds, sds0) (committed_leaders seq) = Done (ds', sds0 ++ sds) ∧
    for_each (add_subdag c) ss sds = Done ss' ∧
    node_history c U genesis ctx n ds' t ss' (D ++ (status_of <$> seq)) (out ++ sds) ∧ commits_ok ds' ss' (D ++ (status_of <$> seq)) ∧
    (∃ k', scored_subdags_count ss' = Done k' ∧ k' ≤ n)%N ∧
    window_start (last_commit_index ds') ss' = window_start (last_commit_index ds) ss ∧ commits_frame ds ds'.
Proof using Hdp.
  revert ds ss D out k sds0. induction seq as [|d seq IH]; intros ds ss D out k sds0 Hh Hcm Hk Hle Hseq Hlo.
  { exists ds, [], ss. cbn. rewrite !app_nil_r. split_and!; try done.
    exists k. split; [done|]. unfold lengthN in Hle. cbn in Hle. lia. }
  unfold lengthN in Hle. rewrite length_cons in Hle. destruct (Hseq 0 d eq_refl) as [Hdec Hslot]. rewrite N.add_0_r in Hdec, Hslot.
  assert (∀ st, lengthN (D ++ [st]) = lengthN D + 1)%N as HD by (intros; unfold lengthN; rewrite length_app; cbn; lia).
  assert (∀ (st : LeaderStatus) i x, seq !! i = Some x → decided c U ctx n t (lengthN (D ++ [st]) + 1 + N.of_nat i) (status_of x) ∧
    slot_round (DecidedLeader_slot x) = (lengthN (D ++ [st]) + 1 + N.of_nat i)%N) as Hseq'.
  { intros st i x Hi. rewrite HD. replace (lengthN D + 1 + 1 + N.of_nat i)%N with (lengthN D + 1 + N.of_nat (Datatypes.S i))%N by lia.
    by apply Hseq. }
  rewrite fmap_cons. destruct d as [b direct|slot]; cbn [status_of].
  - cbn in Hslot. change (committed_leaders (DCommit b direct :: seq)) with (b :: committed_leaders seq) in *.
    pose proof (leaders_ok_head _ _ _ Hlo) as Hn.
    destruct (commit_leader n t ds ss D out k b sds0) as (ds1 & sd & ss1 & Hrun & Hadd & Hh1 & Hcm1 & Hk1 & Hw1 & Hi1 & Hr1 & Hf1);
      [done|done|done|lia|done|done|done|].
    assert (leaders_ok ds1 (committed_leaders seq)) as Hlo1.
    { destruct Hlo as [Hlc Hla Hls]. inversion Hls as [|? ? Hls' Hall]; subst. rewrite Forall_forall in Hall.
      split; [|by rewrite Hr1|done]. rewrite (cf_cached _ _ Hf1). intros b' Hb'. by apply Hlc, list_elem_of_further. }
    destruct (IH ds1 ss1 (D ++ [LCommit b]) (out ++ [sd]) (k + 1)%N (sds0 ++ [sd])) as (ds' & sds & ss' & Hrun' & Hadd' & Hh' & Hcm' & Hk' & Hw' & Hf');
      [done|done|done|unfold lengthN; lia|apply Hseq'|done|].
    exists ds', (sd :: sds), ss'. cbn [for_each]. rewrite Hrun, Hadd. run_bind. rewrite Hrun', <- !app_assoc in *. rewrite Hadd'.
    split_and!; try done; [congruence|by eapply commits_frame_trans].
  - change (committed_leaders (DSkip slot :: seq)) with (committed_leaders seq) in *.
    assert (commits_ok ds ss (D ++ [LSkip slot])) as Hcm1.
    { destruct Hcm. split; try done. rewrite HD. lia. }
    destruct (IH ds ss (D ++ [LSkip slot]) out k sds0) as (ds' & sds & ss' & Hrun' & Hadd' & Hh' & Hcm' & Hk' & Hw' & Hf');
      [|done|done|unfold lengthN; lia|apply Hseq'|done|].
    { eapply history_skip; [done|done|lia|done]. }
    exists ds', sds, ss'. rewrite <- app_assoc in *. by split_and!.
Qed.

(** ** The commit rule on the state of a node *)

Lemma node_election n bm ds ls last D out :
  node_inv n bm ds ls last D out →
  ∃ leader, node_ok c U leader ctx ls ds last.
Proof using All.
  intros Hi. pose proof (ni_schedule _ _ _ _ _ _ _ Hi) as Hls. pose proof (ni_commits _ _ _ _ _ _ _ Hi) as Hcm.
  assert (∀ k, ∃ a, elect_leader ls k 0 = Done a ∧ (a < Committee_size c)%N) as Hel.
  { intros k. apply elect_leader_total; [by eapply dp_committee|apply Hdp| |apply Hls].
    rewrite (sk_context _ _ _ _ _ Hls). apply (dp_schedule _ _ _ _ _ _ Hdp). }
  exists (λ k, from_done 0%N (elect_leader ls k 0)). split.
  - apply (dp_schedule _ _ _ _ _ _ Hdp).
  - apply Hdp.
  - intros k. destruct (Hel k) as (a & -> & _). done.
  - intros k. destruct (Hel k) as (a & -> & Ha). done.
  - split; [apply Hcm|apply Hcm].
  - rewrite (ni_last _ _ _ _ _ _ _ Hi). apply Hcm.
  - rewrite (ni_last _ _ _ _ _ _ _ Hi). apply Hi.
Qed.

Lemma core_committer_pipeline ls : core_committer ctx ls = pipeline ctx ls.
Proof using All. unfold core_committer. by rewrite (dp_leaders _ _ _ _ _ _ Hdp). Qed.

Lemma try_decide_node n bm ds ls last D out :
  node_inv n bm ds ls last D out →
  ∃ seq, try_decide (core_committer ctx ls) ds last = Done seq ∧
    (∀ i d, seq !! i = Some d → decided c U ctx n (leader_swap_table ls) (lengthN D + 1 + N.of_nat i) (status_of d) ∧
      slot_round (DecidedLeader_slot d) = (lengthN D + 1 + N.of_nat i)%N) ∧
    leaders_ok ds (committed_leaders seq) ∧
    (lengthN D + lengthN seq ≤ N.max (lengthN D) (highest_accepted_round ds - 2))%N.
Proof using All.
  intros Hi. destruct (node_election _ _ _ _ _ _ _ Hi) as [leader Hn]. pose proof (dp_network _ _ _ _ _ _ Hdp) as Hnw.
  destruct (try_decide_run c U leader f byz ctx ls ds last Hnw Hn) as (seq & sts & Hrun & Hp & Hd & Hlen).
  destruct (decided_leaders_ok c U leader f byz ctx ls ds last seq Hnw Hn Hrun) as [Hlo _].
  rewrite core_committer_pipeline. rewrite (ni_last _ _ _ _ _ _ _ Hi) in *.
  exists seq. split_and!; [done| |done|done]. intros i d Hd'.
  destruct (decided_lookup c U leader seq sts ds _ i d Hp Hd Hd') as [_ ->].
  split; [|done]. assert (mkLeaderSchedule (leader_swap_table ls) ctx n = ls) as Hls.
  { rewrite <- (ni_number _ _ _ _ _ _ _ Hi), <- (sk_context _ _ _ _ _ (ni_schedule _ _ _ _ _ _ _ Hi)). by destruct ls. }
  exists leader, ds, last, seq, i, d. rewrite Hls, (ni_last _ _ _ _ _ _ _ Hi). by split_and!.
Qed.

(** Changing only the scores and what is written next. *)
Lemma commit_view_eqv ds ds' :
  dag_eqv ds' ds → committed_refs ds' = committed_refs ds → ds_last_committed_rounds ds' = ds_last_committed_rounds ds →
  commit_view c ds → commit_view c ds'.
Proof using.
  clear Hdp. intros Heq Hcom Hrounds Hv. pose proof (cv_view _ _ Hv) as Hview.
  assert (gc_round ds' = gc_round ds ∧ last_commit_round ds' = last_commit_round ds) as [Hgc Hlr].
  { unfold gc_round, calculate_gc_round, last_commit_round. by rewrite (de_context _ _ Heq), (de_last_commit _ _ Heq). }
  split.
  - split.
    + rewrite Heq. apply Hview.
    + unfold ds_committee. rewrite (de_context _ _ Heq). apply Hview.
    + rewrite (de_cached _ _ Heq). apply Hview.
    + rewrite (de_cached _ _ Heq), Hgc. apply Hview.
    + rewrite (de_highest _ _ Heq). apply Hview.
  - intros r b a. rewrite (de_cached _ _ Heq), Hcom, Hgc. apply Hv.
  - rewrite Hcom, Hlr. apply Hv.
  - rewrite (de_cached _ _ Heq), (de_genesis _ _ Heq). apply Hv.
  - rewrite Hrounds. apply Hv.
  - rewrite (de_context _ _ Heq). apply Hv.
Qed.

Lemma commits_ok_eqv ds ds' ss D :
  dag_eqv ds' ds → committed_refs ds' = committed_refs ds → ds_last_committed_rounds ds' = ds_last_committed_rounds ds →
  commits_ok ds ss D → commits_ok ds' ss D ∧ same_commits c U ds ds'.
Proof using.
  clear Hdp. intros Heq Hcom Hrounds Hcm.
  assert (gc_round ds' = gc_round ds ∧ last_commit_round ds' = last_commit_round ds ∧ last_commit_index ds' = last_commit_index ds)
    as (Hgc & Hlr & Hli).
  { unfold gc_round, calculate_gc_round, last_commit_round, last_commit_index.
    by rewrite (de_context _ _ Heq), (de_last_commit _ _ Heq). }
  assert (commit_view c ds') as Hv' by (eapply commit_view_eqv; [done|done|done|apply Hcm]).
  assert (cached ds' ⊆ U) as HU' by (rewrite (de_cached _ _ Heq); apply Hcm).
  split; [split|split].
  - done.
  - done.
  - rewrite Hlr, Hli. apply Hcm.
  - rewrite Hlr. apply Hcm.
  - rewrite Hlr, Hli. eapply scores_ok_mono; [apply Hcm|]. intros r. unfold seen. by rewrite Hcom, Hgc.
  - split; apply Hcm.
  - done.
  - by rewrite (de_last_commit _ _ Heq).
  - by rewrite (de_context _ _ Heq).
  - by rewrite (de_genesis _ _ Heq).
  - intros r _. by rewrite Hcom.
Qed.

Lemma for_each_fmap {A B T} (g : T → A → outcome T) (h : B → A) s (l : list B) :
  for_each g s (h <$> l) = for_each (λ s x, g s (h x)) s l.
Proof using. revert s. induction l as [|x l IH]; intros s; cbn; [done|]. destruct (g s (h x)); cbn; [apply IH|done..]. Qed.

(** ** Steps of a node *)

(** Committing a sequence of decisions, up to the next change of the schedule. *)
Lemma node_commit n bm ds ls last D out seq k d :
  node_inv n bm ds ls last D out → scored_subdags_count (ds_scoring_subdag ds) = Done k → (k + lengthN seq ≤ n)%N →
  (∀ i x, seq !! i = Some x → decided c U ctx n (leader_swap_table ls) (lengthN D + 1 + N.of_nat i) (status_of x) ∧
    slot_round (DecidedLeader_slot x) = (lengthN D + 1 + N.of_nat i)%N) →
  leaders_ok ds (committed_leaders seq) → (lengthN D + lengthN seq + 8 < u32_MAX)%N → list.last seq = Some d →
  ∃ ds1 sds ss', handle_commit ds (committed_leaders seq) = Done (ds1, sds) ∧
    add_scoring_subdags ds1 (set_decided_with_local_blocks true <$> sds) = Done (set_scoring_subdag ss' ds1) ∧
    node_inv n bm (set_scoring_subdag ss' ds1) ls (DecidedLeader_slot d) (D ++ (status_of <$> seq)) (out ++ sds) ∧
    commits_frame ds ds1.
Proof using All.
  intros Hi Hk Hle Hseq Hlo Hmax Hlast. pose proof (ni_commits _ _ _ _ _ _ _ Hi) as Hcm. pose proof (ni_schedule _ _ _ _ _ _ _ Hi) as Hls.
  assert (lengthN (D ++ (status_of <$> seq)) = lengthN D + lengthN seq)%N as HD.
  { unfold lengthN. rewrite length_app, length_fmap. lia. }
  destruct (commit_decisions n (leader_swap_table ls) seq ds (ds_scoring_subdag ds) D out k [])
    as (ds1 & sds & ss' & Hrun & Hadd & Hh & Hcm1 & (k' & Hk' & Hle') & Hw & Hf); [apply Hi|done|done|done|done|done|].
  destruct (commits_ok_eqv ds1 (set_scoring_subdag ss' ds1) ss' (D ++ (status_of <$> seq))) as [Hcm2 Hs2]; [by split|done|done|done|].
  exists ds1, sds, ss'. split_and!; [done| | |done].
  - unfold add_scoring_subdags, add_subdags. rewrite (cf_scoring _ _ Hf).
    rewrite (dv_committee _ _ (cv_view _ _ (cm_view _ _ _ Hcm1))), for_each_fmap.
    change (for_each _ _ sds) with (for_each (add_subdag c) (ds_scoring_subdag ds) sds). rewrite Hadd. done.
  - pose proof (scores_count c _ _ _ _ (cm_scores _ _ _ Hcm1)) as Hcount. rewrite Hk' in Hcount. injection Hcount as Hcount.
    split.
    + eapply bm_ok_same_blocks; [apply Hi| | | | |].
      * apply (dv_ok _ _ (cv_view _ _ (cm_view _ _ _ Hcm2))).
      * apply (cf_context _ _ Hf).
      * apply (cf_genesis _ _ Hf).
      * apply (cf_gc _ _ Hf).
      * change (accepted (set_scoring_subdag ss' ds1)) with (accepted ds1). unfold accepted.
        by rewrite (cf_store _ _ Hf), (cf_cached _ _ Hf).
    + done.
    + rewrite last_lookup in Hlast. destruct (Hseq _ _ Hlast) as [_ ->]. apply lookup_lt_Some in Hlast. rewrite HD. unfold lengthN. lia.
    + lia.
    + destruct Hls as [Hctx Ht Hpos Hc Hprev]. change (last_commit_index (set_scoring_subdag ss' ds1)) with (last_commit_index ds1).
      cbn [ds_scoring_subdag set_scoring_subdag]. split; [done|done|done| |by rewrite Hw].
      rewrite (ni_number _ _ _ _ _ _ _ Hi). lia.
    + apply Hi.
    + eapply history_view; [|exact Hs2]. exact Hh.
Qed.

(** Changing the schedule when it is due. *)
Lemma node_schedule n bm ds ls last D out :
  node_inv n bm ds ls last D out →
  scored_subdags_count (ds_scoring_subdag ds) = Done n →
  ∃ ls' ds', update_leader_schedule_v2 ls ds = Done (ls', ds') ∧ node_inv n bm ds' ls' last D out ∧
    ds_scoring_subdag ds' = ScoringSubdag_new ∧ ds_highest_accepted_round ds' = ds_highest_accepted_round ds.
Proof using All.
  intros Hi Hk. pose proof (ni_commits _ _ _ _ _ _ _ Hi) as Hcm. pose proof (ni_schedule _ _ _ _ _ _ _ Hi) as Hls.
  pose proof (scores_count c _ _ _ _ (cm_scores _ _ _ Hcm)) as Hcount. rewrite Hk in Hcount. injection Hcount as Hcount.
  pose proof (sk_pos _ _ _ _ _ Hls) as Hpos. rewrite (ni_number _ _ _ _ _ _ _ Hi) in Hpos.
  assert (is_Some (ds_last_commit ds)) as Hlast.
  { destruct (ds_last_commit ds) eqn:Hl; [by eauto|exfalso]. assert (last_commit_index ds = 0%N) as Hz by (unfold last_commit_index; by rewrite Hl).
    rewrite Hz in *. unfold window_start in Hcount. destruct (ss_commit_range (ds_scoring_subdag ds)) as [range|] eqn:Hr; [|lia].
    pose proof (so_range _ _ _ _ _ (cm_scores _ _ _ Hcm) range Hr). lia. }
  destruct (update_schedule_total c (dp_committee c f byz U genesis ctx Hdp) ctx (seen ds) (last_commit_round ds) ls ds (dom U))
    as (ls' & info & Hrun & Hls' & Hnum & Ht).
  - apply Hdp.
  - apply (nd_context _ _ _ _ (bo_dag _ _ _ _ _ _ (ni_manager _ _ _ _ _ _ _ Hi))).
  - apply Hcm.
  - done.
  - by rewrite <- Hcount, (ni_number _ _ _ _ _ _ _ Hi).
  - done.
  - by intros r [? _].
  - rewrite size_dom. apply Hdp.
  - set (ds' := set_commit_info_to_write (ds_commit_info_to_write ds ++ [info]) (clear_scoring_subdag ds)) in *.
    assert (commits_ok ds ScoringSubdag_new D) as Hcm0 by (destruct Hcm; split; try done; apply scores_ok_new).
    destruct (commits_ok_eqv ds ds' ScoringSubdag_new D) as [Hcm' Hs']; [by split|done|done|done|].
    exists ls', ds'. split_and!; [done| |done|done]. split.
    + eapply bm_ok_same_blocks; [apply Hi|apply Hcm'|done..].
    + done.
    + apply Hi.
    + apply Hi.
    + done.
    + rewrite Hnum. apply Hi.
    + eapply history_view; [|exact Hs']. eapply history_schedule; [apply Hi|done|done].
Qed.

(** A new view of the dag with the same commits. *)
Lemma node_view n bm ds ls last D out bm' ds' :
  node_inv n bm ds ls last D out → bm_ok ctx (dom genesis) U bm' ds' → commit_view c ds' → same_commits c U ds ds' →
  ds_scoring_subdag ds' = ds_scoring_subdag ds →
  (∀ r, r ∈ committed_refs ds → (gc_round ds < ref_round r)%N → r ∈ committed_refs ds') →
  node_inv n bm' ds' ls last D out.
Proof using.
  clear Hdp. intros Hi Hb Hv Hs Hsc Hkeep. pose proof (same_gc _ _ _ _ Hs) as Hgc. pose proof (ni_commits _ _ _ _ _ _ _ Hi) as Hcm.
  assert (last_commit_index ds' = last_commit_index ds ∧ last_commit_round ds' = last_commit_round ds) as [Hli Hlr].
  { unfold last_commit_index, last_commit_round. by rewrite (sm_last _ _ _ _ Hs). }
  split; rewrite ?Hsc, ?Hli; try apply Hi; [done| |by eapply history_view; [apply Hi|]].
  split; rewrite ?Hlr, ?Hli; try apply Hcm; [done|apply Hs|]. eapply scores_ok_mono; [apply Hcm|].
  intros r [Hin Hr]. split; [done|]. rewrite <- Hgc. destruct (decide (ref_round r ≤ gc_round ds)%N); [by right|left].
  destruct Hr as [Hr|]; [|done]. apply Hkeep; [done|lia].
Qed.

(** Accepting blocks. *)
Lemma node_grown n bm ds ls last D out bm' l ds' :
  node_inv n bm ds ls last D out → bm_ok ctx (dom genesis) U bm' ds' → grown ctx (dom genesis) U ds l ds' →
  node_inv n bm' ds' ls last D out.
Proof using Hdp.
  intros Hi Hb Hg. pose proof (bo_dag _ _ _ _ _ _ (ni_manager _ _ _ _ _ _ _ Hi)) as Hd.
  destruct (grown_view c f byz U genesis ctx Hdp bm' ds l ds') as (Hv & Hs & Hcom); [apply Hi|apply Hd|done|done|].
  eapply node_view; [done|done|done|done|apply (af_scoring _ _ (gw_frame _ _ _ _ _ _ Hg))|by rewrite Hcom].
Qed.

(** Flushing. *)
Lemma node_flush n bm ds ls last D out :
  node_inv n bm ds ls last D out → ∃ ds', flush ds = Done ds' ∧ node_inv n bm ds' ls last D out.
Proof using Hdp.
  intros Hi. pose proof (ni_manager _ _ _ _ _ _ _ Hi) as Hb. pose proof (bo_dag _ _ _ _ _ _ Hb) as Hd.
  destruct (flush_ok ds (nd_ok _ _ _ _ Hd)) as (ds' & Hrun & _). exists ds'. split; [done|].
  destruct (flush_commit_view c f byz U genesis ctx Hdp bm ds ds') as (Hb' & Hv & Hs & Hsc & Hkeep); [apply Hi|apply Hd|done|done|].
  by eapply node_view.
Qed.

End node.
