(* ===== verification/CoreRun.v ===== *)
(** * The operations of Core

    Committing local decisions, adding blocks and the loops behind them on a state that
    satisfies the invariant: no operation panics or runs out of fuel, and the commits
    sent are those of the history of the node. *)

From S2P Require Import Prelude Committee Block StakeAggregator ThresholdClock Commit Store LeaderScoring.
From S2P Require Import DagState DagInvariant DagDurability LeaderSchedule BaseCommitter UniversalCommitter CausalHistory.
From S2P Require Import BlockVerifier BlockManager BlockManagerSpec CommitRules CommitSafety Linearizer LinearizerSpec CommitTimestamp.
From S2P Require Import CommitOrder ScheduleSpec Proposer CommitSyncer CommitObserver Core CoreSpec CoreNode.

Section core.
Context {S : Type} `{StoreLaws S} `{LeaderRngLaws} `{BlockCodec} `{CommitCodec}.
Context (c : Committee) (f : N) (byz : gset N) (U genesis : gmap BlockRef VerifiedBlock).
Context (ctx : Context) (Hdp : deployment c f byz U genesis ctx).
Implicit Types ds : DagState S.
Implicit Types core : Core S.

Definition sent_commits (core : Core S) : list CommittedSubDag :=
  omap (λ s, match s with SentCommit sd => Some sd | _ => None end) (co_signals core).

Record core_ok (n : N) (core : Core S) (D : list LeaderStatus) (out : list CommittedSubDag) : Prop := {
  ck_context : co_context core = ctx;
  ck_node : node_inv c U genesis ctx n (co_block_manager core) (co_dag_state core) (co_leader_schedule core) (co_last_decided_leader core) D out;
  ck_sent : sent_commits core = set_decided_with_local_blocks true <$> out;
}.

Lemma sent_commits_signal l core :
  sent_commits (signal l core) = sent_commits core ++ omap (λ s, match s with SentCommit sd => Some sd | _ => None end) l.
Proof using. unfold sent_commits. apply omap_app. Qed.

(** Signals that are not commits. *)
Lemma core_ok_signal n core D out l :
  core_ok n core D out → (∀ sd, SentCommit sd ∉ l) → core_ok n (signal l core) D out.
Proof using.
  clear Hdp. intros [Hc Hn Hs] Hl. split; [done|done|]. rewrite sent_commits_signal, Hs.
  assert (omap (λ s, match s with SentCommit sd => Some sd | _ => None end) l = []) as ->; [|by rewrite app_nil_r].
  induction l as [|x l IH]; [done|]. cbn. rewrite IH by (intros sd; specialize (Hl sd); rewrite elem_of_cons in Hl; tauto).
  destruct x as [| | |sd|]; try done. destruct (Hl sd). apply list_elem_of_here.
Qed.

(** ** The commit loop *)

Lemma schedule_change n core D out :
  core_ok n core D out →
  ∃ core' k, try_change_schedule core = Done (core', k) ∧ core_ok n core' D out ∧ (0 < k ≤ n)%N ∧
    scored_subdags_count (ds_scoring_subdag (co_dag_state core')) = Done (n - k)%N ∧
    ds_highest_accepted_round (co_dag_state core') = ds_highest_accepted_round (co_dag_state core) ∧
    co_block_manager core' = co_block_manager core ∧ (co_proposer core = None → co_proposer core' = None).
Proof using All.
  intros [Hctx Hi Hs]. pose proof (ni_commits _ _ _ _ _ _ _ _ _ _ _ Hi) as Hcm. pose proof (ni_schedule _ _ _ _ _ _ _ _ _ _ _ Hi) as Hls.
  pose proof (scores_count c _ _ _ _ (cm_scores _ _ _ _ _ Hcm)) as Hcount. pose proof (sk_pos _ _ _ _ _ Hls) as Hpos.
  pose proof (sk_count _ _ _ _ _ Hls) as Hle. rewrite (ni_number _ _ _ _ _ _ _ _ _ _ _ Hi) in Hpos, Hle.
  unfold try_change_schedule.
  rewrite (commits_until_spec c ctx _ _ _ _ (cm_scores _ _ _ _ _ Hcm) Hls), (ni_number _ _ _ _ _ _ _ _ _ _ _ Hi). run_bind.
  case_decide as Hz.
  - assert (scored_subdags_count (ds_scoring_subdag (co_dag_state core)) = Done n) as Hk by (rewrite Hcount; f_equal; lia).
    destruct (node_schedule c f byz U genesis ctx Hdp n _ _ _ _ _ _ Hi Hk) as (ls' & ds' & -> & Hi' & Hnew & Hhigh). run_bind.
    pose proof (ni_commits _ _ _ _ _ _ _ _ _ _ _ Hi') as Hcm'. pose proof (ni_schedule _ _ _ _ _ _ _ _ _ _ _ Hi') as Hls'.
    cbn [co_leader_schedule co_dag_state set_proposer].
    rewrite (commits_until_spec c ctx _ _ _ _ (cm_scores _ _ _ _ _ Hcm') Hls'), (ni_number _ _ _ _ _ _ _ _ _ _ _ Hi'). run_bind.
    rewrite Hnew. eexists _, _. split; [done|]. unfold window_start. cbn. rewrite N.sub_diag, N.sub_0_r.
    split_and!; [by split|lia|lia|by rewrite Hnew, N.sub_diag|done|done|by intros ->].
  - eexists _, _. split; [done|]. split_and!; [by split|lia|lia| |done|done|done]. rewrite Hcount. f_equal. lia.
Qed.

(** No block of the node, accepted or suspended, is of a round above [B]. *)
Definition rounds_below (B : N) core : Prop :=
  (ds_highest_accepted_round (co_dag_state core) ≤ B)%N ∧
  ∀ r, r ∈ dom (bm_suspended_blocks (co_block_manager core)) → (ref_round r ≤ B)%N.

Lemma accepted_highest ds r : dag_ok ds → r ∈ dom (accepted ds) → (ref_round r ≤ ds_highest_accepted_round ds)%N.
Proof using.
  clear Hdp. intros Hok [Hr|Hr]%elem_of_accepted; [by apply dk_highest|].
  destruct (dk_top _ Hok r Hr) as (r' & Hr' & _ & Hle). pose proof (dk_highest _ Hok r' Hr'). lia.
Qed.

Lemma accept_no_committed core : Core_accept_committed_blocks core [] = Done (signal [] (set_core_dag (co_block_manager core) (co_dag_state core) core)).
Proof using.
  unfold Core_accept_committed_blocks, try_accept_committed_blocks, try_accept_blocks_internal.
  change (stable_sort round_le []) with (@nil VerifiedBlock). cbn [for_each mbind outcome_bind]. by rewrite rassert_true by done.
Qed.

Lemma unsuspend_node n bm ds ls last D out B :
  node_inv c U genesis ctx n bm ds ls last D out → (ds_highest_accepted_round ds ≤ B)%N →
  (∀ r, r ∈ dom (bm_suspended_blocks bm) → (ref_round r ≤ B)%N) →
  ∃ bm' ds', try_unsuspend_blocks_for_latest_gc_round bm ds = Done (bm', ds') ∧ node_inv c U genesis ctx n bm' ds' ls last D out ∧
    (ds_highest_accepted_round ds' ≤ B)%N ∧ ∀ r, r ∈ dom (bm_suspended_blocks bm') → (ref_round r ≤ B)%N.
Proof using Hdp.
  intros Hi Hh Hsus. pose proof (ni_manager _ _ _ _ _ _ _ _ _ _ _ Hi) as Hb. pose proof (bo_dag _ _ _ _ _ _ Hb) as Hd.
  destruct (gc_loop_ok ctx (dom genesis) U (dp_blocks _ _ _ _ _ _ Hdp) (size (bm_missing_ancestors bm)) bm ds Hb)
    as (bm' & ds' & l & Hrun & Hb' & Hg & Hl & _ & Hsub); [done|].
  exists bm', ds'. split_and!; [done|by eapply node_grown|..].
  - destruct (af_highest _ _ (gw_frame _ _ _ _ _ _ Hg)) as [->|(r & Hr & <-)]; [done|].
    assert (r ∈ dom (accepted ds')) as [b Hrb]%elem_of_dom by (apply elem_of_accepted; by left).
    apply (gw_accepted _ _ _ _ _ _ Hg) in Hrb as [Hrb|[Hin <-]]; [|by apply Hsus, Hl].
    etrans; [|exact Hh]. apply accepted_highest; [apply Hd|by eapply elem_of_dom_2].
  - intros r Hr. by apply Hsus, Hsub.
Qed.

Lemma send_all_spec (send : CommittedSubDag → bool) l sent0 :
  ∃ sent r, send_all send sent0 l = (sent0 ++ sent, r) ∧ sent `prefix_of` l ∧
    ((r = Ok () ∧ sent = l) ∨ (r = Err Shutdown ∧ ∃ sd, sd ∈ l ∧ send sd = false)).
Proof using.
  clear Hdp. revert sent0. induction l as [|sd l IH]; intros sent0; cbn [send_all].
  { exists [], (Ok ()). rewrite app_nil_r. split_and!; [done|done|by left]. }
  destruct (send sd) eqn:Hsend.
  - destruct (IH (sent0 ++ [sd])) as (sent & r & -> & Hp & Hr). exists (sd :: sent), r. rewrite <- app_assoc.
    split_and!; [done|by apply prefix_cons|]. destruct Hr as [[-> ->]|[-> (x & Hx & Hf)]]; [by left|right].
    split; [done|]. exists x. split; [by apply list_elem_of_further|done].
  - exists [], (Err Shutdown). rewrite app_nil_r. split_and!; [done|apply prefix_nil|]. right. split; [done|].
    exists sd. split; [apply list_elem_of_here|done].
Qed.

(** The node stopped while it sent the commits [out]. *)
Definition stopped (n : N) core (D : list LeaderStatus) (out : list CommittedSubDag) : Prop :=
  (∃ ds t ss, node_history c U genesis ctx n ds t ss D out) ∧
  sent_commits core `prefix_of` (set_decided_with_local_blocks true <$> out).

(** The result [r] of committing from a state with history [D] and [out]; [sds] are the
    commits made. *)
Definition commit_result (env : CoreEnv) n core (D : list LeaderStatus) (out : list CommittedSubDag) core' (r : ConsensusResult (list CommittedSubDag))
    (acc : list CommittedSubDag) : Prop :=
  ∃ D' new, match r with
    | Ok sds => core_ok n core' (D ++ D') (out ++ new) ∧ sds = acc ++ (set_decided_with_local_blocks true <$> new) ∧
        (co_proposer core = None → co_proposer core' = None)
    | Err e => e = Shutdown ∧ (∃ sd, env_send env sd = false) ∧ stopped n core' (D ++ D') (out ++ new)
    end.

(** One iteration that commits the decisions [seq]. *)
Lemma commit_round env fuel n core D out acc seq d k B :
  core_ok n core D out → rounds_below B core → scored_subdags_count (ds_scoring_subdag (co_dag_state core)) = Done (n - k)%N →
  (k ≤ n)%N → (lengthN seq ≤ k)%N →
  (∀ i x, seq !! i = Some x → decided c U ctx n (leader_swap_table (co_leader_schedule core)) (lengthN D + 1 + N.of_nat i) (status_of x) ∧
    slot_round (DecidedLeader_slot x) = (lengthN D + 1 + N.of_nat i)%N) →
  leaders_ok (co_dag_state core) (committed_leaders seq) → (lengthN D + lengthN seq + 8 < u32_MAX)%N → list.last seq = Some d →
  (∀ core1 new, core_ok n core1 (D ++ (status_of <$> seq)) (out ++ new) → rounds_below B core1 →
    (co_proposer core = None → co_proposer core1 = None) →
    ∃ core' r, commit_loop env fuel core1 [] (acc ++ (set_decided_with_local_blocks true <$> new)) = Done (core', r) ∧
      commit_result env n core D out core' r acc) →
  ∃ core' r, (let core := set_last_decided (DecidedLeader_slot d) core in
    match omap into_committed_block seq with
    | [] => Done (core, Ok acc)
    | sequenced_leaders =>
        '(ds, sent, r) ← observer_handle_commit (env_send env) (co_dag_state core) sequenced_leaders true;
        let core := signal (SentCommit <$> sent) (set_core_dag (co_block_manager core) ds core) in
        match r with
        | Err e => Done (core, Err e)
        | Ok subdags =>
            '(bm, ds) ← try_unsuspend_blocks_for_latest_gc_round (co_block_manager core) (co_dag_state core);
            commit_loop env fuel (set_core_dag bm ds core) [] (acc ++ subdags)
        end
    end) = Done (core', r) ∧ commit_result env n core D out core' r acc.
Proof using All.
  intros Hok [Hhigh Hsus] Hk Hkn Hlen Hseq Hlo Hmax Hlast Hloop. destruct Hok as [Hctx Hi Hs].
  destruct (node_commit c f byz U genesis ctx Hdp n _ _ _ _ _ _ seq (n - k) d Hi Hk) as (ds1 & sds & ss' & Hrun & Hadd & Hi1 & Hf);
    [lia|done..|]. fold (committed_leaders seq). destruct (committed_leaders seq) as [|b leaders] eqn:Hcl.
  - injection Hrun as <- <-. injection Hadd as Hadd. assert (set_scoring_subdag ss' (co_dag_state core) = co_dag_state core) as Hsame.
    { rewrite <- Hadd. by destruct (co_dag_state core). }
    rewrite Hsame in Hi1. eexists _, _. split; [done|]. exists (status_of <$> seq), [].
    split_and!; [split; [done|exact Hi1|by rewrite app_nil_r]|by rewrite app_nil_r|done].
  - unfold observer_handle_commit. cbn [co_dag_state set_last_decided]. rewrite Hrun. run_bind.
    destruct (send_all_spec (env_send env) (set_decided_with_local_blocks true <$> sds) []) as (sent & r & -> & Hp & Hr). cbn [app].
    destruct Hr as [[-> ->]|[-> (x & _ & Hx)]].
    + rewrite Hadd. run_bind. cbn [co_dag_state signal set_core_dag co_block_manager set_last_decided].
      destruct (unsuspend_node n _ _ _ _ _ _ B Hi1) as (bm2 & ds2 & -> & Hi2 & Hhigh2 & Hsus2);
        [change (ds_highest_accepted_round (set_scoring_subdag ss' ds1)) with (ds_highest_accepted_round ds1);
         by rewrite (cf_highest _ _ Hf)|done|]. run_bind.
      apply Hloop; [|by split|done]. split; [done|exact Hi2|]. unfold sent_commits. cbn [co_signals set_core_dag signal].
      rewrite omap_app, fmap_app, <- Hs. f_equal. clear. induction (set_decided_with_local_blocks true <$> sds) as [|y l IH]; cbn; congruence.
    + eexists _, _. split; [done|]. exists (status_of <$> seq), sds. split_and!; [done|by eauto|]. split; [by eauto using ni_history|].
      rewrite sent_commits_signal. change (sent_commits (set_core_dag _ _ _)) with (sent_commits core). rewrite Hs, fmap_app.
      apply prefix_app. etrans; [|exact Hp]. clear. induction sent as [|y l IH]; cbn; [done|]. by apply prefix_cons.
Qed.

(** The decisions of an iteration: those of the commit rule, cut at the change of the
    schedule. *)
Lemma loop_decisions n core D out k B :
  core_ok n core D out → rounds_below B core → (0 < k)%N →
  ∃ seq, try_decide (core_committer (co_context core) (co_leader_schedule core)) (co_dag_state core) (co_last_decided_leader core) = Done seq ∧
    (lengthN (takeN k seq) ≤ k)%N ∧
    (∀ i x, takeN k seq !! i = Some x →
      decided c U ctx n (leader_swap_table (co_leader_schedule core)) (lengthN D + 1 + N.of_nat i) (status_of x) ∧
      slot_round (DecidedLeader_slot x) = (lengthN D + 1 + N.of_nat i)%N) ∧
    leaders_ok (co_dag_state core) (committed_leaders (takeN k seq)) ∧
    (lengthN D + lengthN (takeN k seq) + 8 < u32_MAX)%N ∧
    (lengthN D + lengthN (takeN k seq) ≤ N.max (lengthN D) B)%N.
Proof using All.
  intros [Hctx Hi Hs] [Hhigh _] Hk. destruct (try_decide_node c f byz U genesis ctx Hdp n _ _ _ _ _ _ Hi) as (seq & Hrun & Hseq & Hlo & Hlen).
  pose proof (dv_rounds _ _ (cv_view _ _ (cm_view _ _ _ _ _ (ni_commits _ _ _ _ _ _ _ _ _ _ _ Hi)))) as Hmax.
  pose proof (ni_bound _ _ _ _ _ _ _ _ _ _ _ Hi) as Hb. rewrite Hctx. exists seq. rewrite takeN_take.
  assert (lengthN (take (N.to_nat k) seq) ≤ lengthN seq)%N as Hle by (unfold lengthN; rewrite length_take; lia).
  unfold highest_accepted_round in Hlen. split_and!; [done|unfold lengthN; rewrite length_take; lia| | |lia|lia].
  - intros i x Hi'. apply Hseq. by apply lookup_take_Some in Hi' as [? _].
  - apply (leaders_ok_app _ _ (committed_leaders (drop (N.to_nat k) seq))). unfold committed_leaders. by rewrite <- omap_app, take_drop.
Qed.

Lemma commit_loop_ok env fuel n core D out acc B :
  core_ok n core D out → rounds_below B core → N.to_nat (B - lengthN D) < fuel →
  ∃ core' r, commit_loop env fuel core [] acc = Done (core', r) ∧ commit_result env n core D out core' r acc.
Proof using All.
  revert core D out acc. induction fuel as [|fuel IH]; intros core D out acc Hok Hbelow Hfuel; [lia|]. cbn [commit_loop].
  destruct (schedule_change n core D out Hok) as (core1 & k & -> & Hok1 & Hk & Hcount & Hhigh & Hbm & Hprop). run_bind.
  assert (rounds_below B core1) as Hbelow1 by (unfold rounds_below; by rewrite Hhigh, Hbm).
  rewrite rassert_true by lia. run_bind. unfold try_select_certified_leaders. rewrite rassert_true by lia. run_bind.
  cbn [fmap list_fmap mbind list_bind outcome_bind]. rewrite accept_no_committed. cbn [mbind outcome_bind].
  set (core2 := signal [] _). assert (core_ok n core2 D out) as Hok2.
  { apply core_ok_signal; [by destruct Hok1|by intros sd ?%not_elem_of_nil]. }
  assert (rounds_below B core2) as Hbelow2 by done.
  destruct (loop_decisions n core2 D out k B Hok2 Hbelow2) as (seq & Hrun & Hlen & Hseq & Hlo & Hmax & HB); [lia|].
  rewrite Hrun. cbn [mbind outcome_bind]. set (seq' := takeN k seq) in *.
  destruct (list.last seq') as [d|] eqn:Hlast.
  2: { eexists _, _. split; [done|]. exists [], []. rewrite !app_nil_r. by split_and!. }
  assert (0 < lengthN seq')%N as Hpos by (destruct seq'; [done|unfold lengthN; cbn; lia]).
  destruct (commit_round env fuel n core2 D out acc seq' d k B) as (core' & r & Hrun' & Hres); [done|done|done|lia|done|done|done|done|done| |].
  - intros core3 new Hok3 Hbelow3 Hprop3.
    destruct (IH core3 (D ++ (status_of <$> seq')) (out ++ new) (acc ++ (set_decided_with_local_blocks true <$> new))) as (core' & r & Hrun' & D' & new' & Hres);
      [done|done| |].
    { unfold lengthN in *. rewrite length_app, length_fmap. lia. }
    exists core', r. split; [done|]. exists ((status_of <$> seq') ++ D'), (new ++ new'). rewrite !app_assoc.
    destruct r as [sds|e]; [|done]. destruct Hres as (Hok' & -> & Hp). split_and!; [done| |auto]. by rewrite fmap_app, !app_assoc.
  - exists core', r. split; [exact Hrun'|]. destruct Hres as (D' & new & Hres). exists D', new. destruct r; [|done].
    destruct Hres as (? & ? & Hp). split_and!; [done|done|]. intros Hnone. by apply Hp, Hprop.
Qed.

(** ** Operations *)

Lemma foldr_max_elem (l : list N) z : (z ≤ foldr N.max z l)%N ∧ ∀ x, x ∈ l → (x ≤ foldr N.max z l)%N.
Proof using.
  clear Hdp. induction l as [|y l [IHz IH]]; cbn; [split; [done|by intros x ?%not_elem_of_nil]|].
  split; [lia|]. intros x [->|Hx]%elem_of_cons; [lia|]. specialize (IH x Hx). lia.
Qed.

Lemma fuel_enough n core D out :
  core_ok n core D out → ∃ B, rounds_below B core ∧ N.to_nat (B - lengthN D) < commit_fuel core [].
Proof using Hdp.
  intros [Hctx Hi _]. unfold commit_fuel. rewrite Hctx, (dp_leaders _ _ _ _ _ _ Hdp). set (l := _ ++ _).
  set (B := foldr N.max (highest_accepted_round (co_dag_state core)) l).
  destruct (foldr_max_elem l (highest_accepted_round (co_dag_state core))) as [Hz Hl]. exists B. split; [split|].
  - exact Hz.
  - intros r [sb Hsb]%elem_of_dom.
    destruct (bo_suspended _ _ _ _ _ _ (ni_manager _ _ _ _ _ _ _ _ _ _ _ Hi) r sb Hsb) as [HU _].
    assert (round (sb_block sb) = ref_round r) as <-.
    { by rewrite <- (bk_ref _ _ _ (dp_blocks _ _ _ _ _ _ Hdp) _ _ HU). }
    apply Hl. unfold l. cbn [fmap list_fmap mbind list_bind app]. apply list_elem_of_fmap. exists (r, sb). split; [done|].
    by apply elem_of_map_to_list.
  - cbn [length default from_option]. fold B. clearbody B. change (N.to_nat (id 1%N)) with 1. lia.
Qed.

Lemma check_no_commits (sds : list CommittedSubDag) : for_each check_sub_dag ∅ sds = Done ∅.
Proof using. induction sds as [|sd sds IH]; [done|]. cbn [for_each]. unfold check_sub_dag at 2. by rewrite lookup_empty. Qed.

Lemma core_ok_notify n core D out sds : core_ok n core D out → core_ok n (notify_committed_blocks core sds) D out.
Proof using.
  clear Hdp. intros Hok. unfold notify_committed_blocks. destruct (co_proposer core) as [p|]; [|done].
  destruct (notify_own_blocks_committed _ _ p) as [p' statuses]. apply core_ok_signal; [by destruct Hok|].
  intros sd ([a b] & ? & _)%list_elem_of_fmap. done.
Qed.

Lemma try_commit_ok env n core D out :
  core_ok n core D out →
  ∃ core' r, try_commit env core [] = Done (core', r) ∧ commit_result env n core D out core' r [].
Proof using All.
  intros Hok. destruct (fuel_enough n core D out Hok) as (B & Hbelow & Hfuel).
  destruct (commit_loop_ok env (commit_fuel core []) n core D out [] B Hok Hbelow Hfuel) as (core' & r & Hrun & D' & new & Hres).
  unfold try_commit. cbn [foldl]. rewrite Hrun. run_bind. destruct r as [sds|e].
  - rewrite check_no_commits. run_bind. eexists _, _. split; [done|]. exists D', new. destruct Hres as (Hok' & -> & Hp).
    split_and!; [by apply core_ok_notify|done|]. intros Hnone. unfold notify_committed_blocks. by rewrite (Hp Hnone), (Hp Hnone).
  - eexists _, _. split; [done|]. by exists D', new.
Qed.

(** Accepting blocks of the network. *)
Lemma core_accept_ok n core D out blocks :
  core_ok n core D out → (∀ b, b ∈ blocks → U !! reference b = Some b) →
  ∃ core' accepted missing, Core_accept_blocks core blocks = Done (core', accepted, missing) ∧ core_ok n core' D out ∧
    co_proposer core' = co_proposer core.
Proof using Hdp.
  intros Hok Hl. pose proof (ck_node _ _ _ _ Hok) as Hi.
  destruct (try_accept_blocks_ok ctx (dom genesis) U (dp_blocks _ _ _ _ _ _ Hdp) (co_block_manager core) (co_dag_state core) blocks)
    as (bm' & ds' & accd & missing & Hrun & Hpg & _); [apply Hi|done|].
  unfold Core_accept_blocks. rewrite Hrun. run_bind. eexists _, _, _. split_and!; [done| |done].
  apply core_ok_signal; [|by intros sd (b & ? & _)%list_elem_of_fmap]. destruct Hok. split; [done| |done].
  eapply node_grown; [done|done|apply Hpg|apply Hpg].
Qed.

Lemma signal_round_ok n core D out : core_ok n core D out → core_ok n (try_signal_new_round core) D out.
Proof using.
  clear Hdp. intros Hok. unfold try_signal_new_round. case_decide; [done|].
  assert (core_ok n (signal [NewRound (threshold_clock_round (co_dag_state core))] core) D out) as [];
    [|by split]. apply core_ok_signal; [done|]. by intros sd ?%list_elem_of_singleton.
Qed.

End core.
