(* ===== verification/CoreAgreement.v ===== *)
(** * Agreement of nodes

    Observer nodes from the start of the epoch: whatever blocks of the network they are
    given, in whatever order and batches, they never panic, and the commits they send
    are prefixes of one sequence, across changes of the leader schedule. *)

From S2P Require Import Prelude Committee Block StakeAggregator ThresholdClock Commit Store LeaderScoring.
From S2P Require Import DagState DagInvariant DagDurability LeaderSchedule BaseCommitter UniversalCommitter CausalHistory.
From S2P Require Import BlockVerifier BlockManager BlockManagerSpec CommitRules CommitSafety Linearizer LinearizerSpec CommitTimestamp.
From S2P Require Import CommitOrder ScheduleSpec Proposer ProposerSafety CommitSyncer CommitObserver Core CoreSpec CoreNode CoreRun.

(** What happens at a node: blocks arrive, references are looked for, the leader timer
    fires, the commit finalizer flushes the dag state. *)
Inductive node_op :=
  | AddBlocks (env : CoreEnv) (blocks : list VerifiedBlock)
  | CheckBlockRefs (block_refs : list BlockRef)
  | NewBlockTimeout (env : CoreEnv) (round : N) (force : bool)
  | FlushDag.

Section observer.
Context {S : Type} `{StoreLaws S} `{LeaderRngLaws} `{BlockCodec} `{CommitCodec} `{BlockCrypto} `{BlockSigner}.
Implicit Types ds : DagState S.
Implicit Types core : Core S.

(** The node stops at the first error. *)
Definition run_op (st : Core S * ConsensusResult ()) (op : node_op) : outcome (Core S * ConsensusResult ()) :=
  match st with
  | (core, Ok _) =>
      match op with
      | AddBlocks env blocks =>
          '(core, r) ← add_blocks env core blocks;
          Done (core, match r with Ok _ => Ok () | Err e => Err e end)
      | CheckBlockRefs refs =>
          '(core, r) ← check_block_refs core refs;
          Done (core, match r with Ok _ => Ok () | Err e => Err e end)
      | NewBlockTimeout env round force =>
          '(core, r) ← new_block env core round force;
          Done (core, match r with Ok _ => Ok () | Err e => Err e end)
      | FlushDag => ds ← flush (co_dag_state core); Done (set_core_dag (co_block_manager core) ds core, Ok ())
      end
  | _ => Done st
  end.

Definition run_observer (env : CoreEnv) (ctx : Context) (n : N) ds (ops : list node_op) : outcome (Core S * ConsensusResult ()) :=
  core ← new_observer env ctx (mkLeaderSchedule LeaderSwapTable_default ctx n) (BlockManager_new ctx) ds;
  for_each run_op (core, Ok ()) ops.

Context (c : Committee) (f : N) (byz : gset N) (U genesis : gmap BlockRef VerifiedBlock).

(** The dag state of a node that starts the epoch. *)
Record fresh_dag (ctx : Context) ds : Prop := {
  fd_dag : node_dag ctx (dom genesis) U ds;
  fd_genesis : ds_genesis ds = genesis;
  fd_empty : cached ds = ∅ ∧ stored (ds_store ds) = ∅;
  fd_last : ds_last_commit ds = None;
  fd_rounds : lengthN (ds_last_committed_rounds ds) = Committee_size c;
  fd_scoring : ds_scoring_subdag ds = ScoringSubdag_new;
  fd_highest : ds_highest_accepted_round ds = 0%N;
}.

(** The blocks and references that reach a node. *)
Definition op_ok (op : node_op) : Prop :=
  match op with
  | AddBlocks _ blocks => ∀ b, b ∈ blocks → U !! reference b = Some b
  | CheckBlockRefs refs => ∀ r, r ∈ refs → (ref_author r < Committee_size c)%N
  | _ => True
  end.

Section node.
Context (ctx : Context) (Hdp : deployment c f byz U genesis ctx).

(** A node that runs, or that stopped because the finalizer did. *)
Definition run_inv (n : N) (st : Core S * ConsensusResult ()) : Prop :=
  ∃ D out, match st.2 with
    | Ok _ => core_ok c U genesis ctx n st.1 D out ∧ co_proposer st.1 = None
    | Err e => e = Shutdown ∧ stopped c U genesis ctx n st.1 D out
    end.

Lemma add_blocks_ok env n core D out blocks :
  core_ok c U genesis ctx n core D out → co_proposer core = None → (∀ b, b ∈ blocks → U !! reference b = Some b) →
  ∃ core' r, add_blocks env core blocks = Done (core', r) ∧
    run_inv n (core', match r with Ok _ => Ok () | Err e => Err e end).
Proof using All.
  intros Hok Hnone Hl.
  destruct (core_accept_ok c f byz U genesis ctx Hdp n core D out blocks Hok Hl) as (core1 & accd & missing & Hrun & Hok1 & Hp1).
  unfold add_blocks. rewrite Hrun. run_bind. rewrite Hnone in Hp1. destruct accd as [|b accd].
  { eexists _, _. split; [done|]. by exists D, out. }
  unfold commit_and_propose.
  destruct (try_commit_ok c f byz U genesis ctx Hdp env n core1 D out Hok1) as (core2 & r & -> & D' & new & Hres). run_bind.
  destruct r as [sds|e].
  - destruct Hres as (Hok2 & _ & Hp2). unfold try_propose, propose_block. rewrite (Hp2 Hp1). cbn [mbind outcome_bind].
    eexists _, _. split; [done|]. exists (D ++ D'), (out ++ new). cbn. split; [by apply signal_round_ok|].
    unfold try_signal_new_round. case_decide; by apply Hp2.
  - destruct Hres as (-> & _ & Hst). eexists _, _. split; [done|]. by exists (D ++ D'), (out ++ new).
Qed.

Lemma run_op_ok n st op : run_inv n st → op_ok op → ∃ st', run_op st op = Done st' ∧ run_inv n st'.
Proof using All.
  destruct st as [core [[]|e]]; intros (D & out & Hinv) Hop; cbn [snd fst] in Hinv.
  2: { exists (core, Err e). split; [done|]. by exists D, out. }
  destruct Hinv as [Hok Hnone]. destruct op as [env blocks|refs|env round force|]; cbn [run_op op_ok] in *.
  - destruct (add_blocks_ok env n core D out blocks Hok Hnone Hop) as (core' & r & -> & Hinv). run_bind. eauto.
  - pose proof (ck_node _ _ _ _ _ _ _ _ Hok) as Hi. unfold check_block_refs.
    destruct (try_find_blocks_ok ctx (dom genesis) U (dp_blocks _ _ _ _ _ _ Hdp) (co_block_manager core) (co_dag_state core) refs) as (bm' & X & -> & Hb' & _);
      [apply Hi|by rewrite (sg_committee _ _ (dp_schedule _ _ _ _ _ _ Hdp))|]. run_bind.
    eexists. split; [done|]. exists D, out. split; [|done]. destruct Hok. split; [done| |done]. destruct Hi. by split.
  - unfold new_block, Core_last_proposed_round. rewrite Hnone. run_bind. eexists. split; [done|]. by exists D, out.
  - pose proof (ck_node _ _ _ _ _ _ _ _ Hok) as Hi.
    destruct (node_flush c f byz U genesis ctx Hdp n _ _ _ _ _ _ Hi) as (ds' & -> & Hi'). run_bind.
    eexists. split; [done|]. exists D, out. split; [|done]. destruct Hok. by split.
Qed.

(** ** The start of a node *)

Lemma fresh_bm_ok ds : fresh_dag ctx ds → bm_ok ctx (dom genesis) U (BlockManager_new ctx) ds.
Proof using.
  clear Hdp. intros Hf. destruct (fd_empty _ _ Hf) as [Hc Hs]. apply bm_ok_new; [apply Hf|].
  intros r b a Hr. unfold accepted in Hr. by rewrite Hc, Hs, (left_id_L ∅ (∪)), lookup_empty in Hr.
Qed.

Lemma fresh_commit_state ds :
  fresh_dag ctx ds → commit_view c ds ∧ committed_refs ds = ∅.
Proof using Hdp.
  intros Hf. destruct (fd_empty _ _ Hf) as [Hc Hs]. pose proof (fd_dag _ _ Hf) as Hd.
  assert (committed_refs ds = ∅) as Hcom.
  { apply set_eq. intros r. rewrite elem_of_committed_refs. split; [|by intros ?%not_elem_of_empty].
    intros (i & Hi & _). assert (cached ds !! r = Some (bi_block i)) as Hr by (by rewrite cached_lookup, Hi). by rewrite Hc, lookup_empty in Hr. }
  split; [|done]. split.
  - rewrite <- (sg_committee _ _ (dp_schedule _ _ _ _ _ _ Hdp)).
    eapply bm_ok_view; [apply Hdp|by apply fresh_bm_ok|by rewrite (fd_highest _ _ Hf)].
  - intros r b a Hr. by rewrite Hc, lookup_empty in Hr.
  - rewrite Hcom. by intros r ?%not_elem_of_empty.
  - intros r b a Hr. by rewrite Hc, lookup_empty in Hr.
  - apply Hf.
  - rewrite (nd_context _ _ _ _ Hd). apply Hdp.
Qed.

Lemma fresh_leader ds : fresh_dag ctx ds → ∃ slot, last_commit_leader ds = Done slot ∧ slot_round slot = 0%N.
Proof using Hdp.
  intros Hf. pose proof (nd_ok _ _ _ _ (fd_dag _ _ Hf)) as Hok. unfold last_commit_leader. rewrite (fd_last _ _ Hf).
  destruct (map_first BlockRef_le (ds_genesis ds)) as [[r b]|] eqn:Hfirst.
  - exists (Slot_from r). split; [done|]. apply map_first_Some in Hfirst as [Hr _]; [|apply _..].
    by destruct (dk_genesis _ Hok _ _ Hr) as [_ Hz].
  - exfalso. apply map_first_None in Hfirst; [|apply _..].
    destruct (dk_genesis_all _ Hok 0%N) as (r & Hr & _); [|by rewrite Hfirst, dom_empty_L in Hr; apply not_elem_of_empty in Hr].
    unfold ds_committee. rewrite (nd_context _ _ _ _ (fd_dag _ _ Hf)), (sg_committee _ _ (dp_schedule _ _ _ _ _ _ Hdp)).
    eapply committee_nonempty, dp_committee, Hdp.
Qed.

Lemma fresh_core ds n slot ts :
  (0 < n)%N → fresh_dag ctx ds → slot_round slot = 0%N →
  core_ok c U genesis ctx n (mkCore ctx (BlockManager_new ctx) ts slot (mkLeaderSchedule LeaderSwapTable_default ctx n) None ds None []) [] [].
Proof using Hdp.
  intros Hn Hf Hslot. destruct (fresh_commit_state ds Hf) as [Hv Hcom]. destruct (fd_empty _ _ Hf) as [Hc _].
  assert (last_commit_index ds = 0%N ∧ last_commit_round ds = 0%N) as [Hi Hr].
  { unfold last_commit_index, last_commit_round. by rewrite (fd_last _ _ Hf). }
  split; [done| |done]. cbn. split.
  - by apply fresh_bm_ok.
  - rewrite (fd_scoring _ _ Hf). split; [done|rewrite Hc; apply map_empty_subseteq|lia|rewrite Hr; apply N.le_0_l|apply scores_ok_new].
  - done.
  - done.
  - rewrite (fd_scoring _ _ Hf), Hi. split; cbn; [done|apply table_ok_default|done|lia|by left].
  - done.
  - rewrite (fd_scoring _ _ Hf). cbn. apply history_start; [done|rewrite Hc; apply map_empty_subseteq|apply Hf|apply Hf|apply Hf|done].
Qed.

Lemma new_observer_ok env ds n :
  (0 < n)%N → (∀ sd, env_send env sd = true) → fresh_dag ctx ds →
  ∃ core, new_observer env ctx (mkLeaderSchedule LeaderSwapTable_default ctx n) (BlockManager_new ctx) ds = Done core ∧
    run_inv n (core, Ok ()).
Proof using All.
  intros Hn Hsend Hf. destruct (fresh_leader ds Hf) as (slot & Hslot & Hz). unfold new_observer. rewrite Hslot. run_bind.
  unfold core_schedule_v3. rewrite (bk_v3 _ _ _ (dp_blocks _ _ _ _ _ _ Hdp)). run_bind. unfold recover_observer.
  destruct (try_commit_ok c f byz U genesis ctx Hdp env n _ [] [] (fresh_core ds n slot (threshold_clock_round ds) Hn Hf Hz))
    as (core & r & -> & D' & new & Hres). run_bind. destruct r as [sds|e].
  - cbn [unwrap_ok mbind outcome_bind]. destruct Hres as (Hok & _ & Hp). eexists. split; [done|].
    exists ([] ++ D'), ([] ++ new). split; [by apply signal_round_ok|]. cbn. unfold try_signal_new_round. case_decide; by apply Hp.
  - exfalso. destruct Hres as (_ & (sd & Hsd) & _). by rewrite Hsend in Hsd.
Qed.

Lemma run_observer_ok env ds n ops :
  (0 < n)%N → (∀ sd, env_send env sd = true) → fresh_dag ctx ds → Forall op_ok ops →
  ∃ st, run_observer env ctx n ds ops = Done st ∧ run_inv n st.
Proof using All.
  intros Hn Hsend Hf Hops. destruct (new_observer_ok env ds n Hn Hsend Hf) as (core & Hrun & Hinv).
  unfold run_observer. rewrite Hrun. run_bind. apply (for_each_total (run_inv n)); [done|].
  intros st op Hin Hst. apply run_op_ok; [done|]. rewrite Forall_forall in Hops. by apply Hops.
Qed.

(** What a run has sent. *)
Lemma run_inv_sent n st :
  run_inv n st → (st.2 = Ok () ∨ st.2 = Err Shutdown) ∧
  ∃ D out ds t ss, node_history c U genesis ctx n ds t ss D out ∧
    sent_commits st.1 `prefix_of` (set_decided_with_local_blocks true <$> out).
Proof using.
  clear Hdp. destruct st as [core [[]|e]]; intros (D & out & Hinv); cbn [fst snd] in *.
  - destruct Hinv as [Hok _]. split; [by left|]. exists D, out. eexists _, _, _. split; [apply (ck_node _ _ _ _ _ _ _ _ Hok)|].
    by rewrite (ck_sent _ _ _ _ _ _ _ _ Hok).
  - destruct Hinv as (-> & (ds & t & ss & Hh) & Hp). split; [by right|]. by exists D, out, ds, t, ss.
Qed.

Lemma commits_sequence_flag out : commits_sequence U out → commits_sequence U (set_decided_with_local_blocks true <$> out).
Proof using.
  clear Hdp. assert ((set_decided_with_local_blocks true <$> out) ≫= sd_blocks = out ≫= sd_blocks) as Hb.
  { induction out as [|sd out IH]; cbn; [done|]. by f_equal. }
  intros [Hn Hl Ho Hin]. split; rewrite ?Hb; [| |done|done].
  - unfold lengthN in *. rewrite length_fmap, <- Hn. rewrite map_map. done.
  - by eapply StronglySorted_fmap_impl; [|exact Hl].
Qed.

Lemma commits_sequence_prefix out l : commits_sequence U out → l `prefix_of` out → commits_sequence U l.
Proof using.
  clear Hdp. intros [Hn Hl Ho Hin] [k ->]. rewrite bind_app in Ho, Hin. rewrite fmap_app in Ho. apply NoDup_app in Ho as (Ho & _).
  split; [|by eapply StronglySorted_app_1_l|done|intros b Hb; apply Hin, elem_of_app; by left].
  apply (f_equal (take (length l))) in Hn. rewrite map_app, take_app_le, take_ge in Hn by (rewrite length_map; lia). rewrite Hn.
  unfold rangeN. rewrite <- fmap_take, take_seq. unfold lengthN. rewrite length_app. do 2 f_equal. lia.
Qed.

End node.
End observer.

(** ** Properties *)



(** ** Two observers

    Observers of the network of four authorities with one faulty one. The schedule
    changes after every commit. The first observer has all blocks up to round 6, in
    two batches; the second has the blocks of rounds 1 to 4 only, in reverse order and
    with flushes, with the other block of the faulty authority. *)

Definition observer_context (cached_rounds : N) : Context :=
  Context_new 0 None committee_4 (mkParameters cached_rounds 100 false 50 10 8 32 1000)
    (mkProtocolConfig 1000 10000 100 1 true (Some 1%N) 20 false 600 60).

Definition observer_start (cached_rounds : N) : DagState MemStore.Inner :=
  from_done sample_start (DagState_new (observer_context cached_rounds) MemStore.new).

Definition observer_genesis : gmap BlockRef VerifiedBlock := ds_genesis (observer_start 2).

Definition observer_env : CoreEnv := mkCoreEnv (λ _, true) false 0 0.

Definition observer_ops_1 : list node_op :=
  [AddBlocks observer_env (take 20 sample_blocks_1); AddBlocks observer_env (drop 20 sample_blocks_1)].
Definition observer_ops_2 : list node_op :=
  (b ← reverse sample_blocks_2; [AddBlocks observer_env [b]; FlushDag]) ++ [CheckBlockRefs [mkBlockRef 5 1 51]].

Definition observer_run_1 := run_observer observer_env (observer_context 2) 1 (observer_start 2) observer_ops_1.
Definition observer_run_2 := run_observer observer_env (observer_context 3) 1 (observer_start 3) observer_ops_2.

(** The rounds of the committed leaders. *)
Definition sent_rounds (m : outcome (Core MemStore.Inner * ConsensusResult ())) : list N :=
  match m with Done (core, _) => ref_round ∘ sd_leader <$> sent_commits core | _ => [] end.

Lemma observer_start_eval cached_rounds :
  (0 < cached_rounds)%N → DagState_new (observer_context cached_rounds) MemStore.new = Done (observer_start cached_rounds) ∧
  dag_ok (observer_start cached_rounds) ∧ accepted (observer_start cached_rounds) = ∅.
Proof.
  intros Hr. destruct (DagState_new_ok (observer_context cached_rounds)) as (ds & Hds & Hok & Hacc).
  - split; [exact committee_4_ok|exact Hr].
  - intros sb. by eexists.
  - unfold observer_start. by rewrite Hds.
Qed.

Lemma observer_deployment cached_rounds :
  deployment committee_4 1 {[3%N]} sample_network observer_genesis (observer_context cached_rounds).
Proof.
  split.
  - exact sample_network_ok.
  - apply blocks_check_ok. vm_compute. reflexivity.
  - split; [reflexivity|done|right]. intros a Ha. assert (a = 0 ∨ a = 1 ∨ a = 2 ∨ a = 3)%N as Hcase 
      by (change (Committee_size committee_4) with 4%N in Ha; lia).
    destruct Hcase as [->|[->|[->| ->]]]; vm_compute; reflexivity.
  - reflexivity.
  - reflexivity.
  - intros seed. by eexists.
  - intros commit. by eexists.
  - assert (forallb (λ r, bool_decide (ref_round r + 8 < u32_MAX)%N) (elements (dom sample_network)) = true) as Hall by (vm_compute; reflexivity).
    rewrite forallb_forall in Hall. intros r Hr%elem_of_elements%list_elem_of_In. apply Hall in Hr. by apply bool_decide_eq_true in Hr.
  - vm_compute. reflexivity.
Qed.

Lemma observer_fresh cached_rounds :
  (0 < cached_rounds)%N → ds_genesis (observer_start cached_rounds) = observer_genesis →
  ds_context (observer_start cached_rounds) = observer_context cached_rounds → cached (observer_start cached_rounds) = ∅ →
  stored (ds_store (observer_start cached_rounds)) = ∅ → ds_last_commit (observer_start cached_rounds) = None →
  lengthN (ds_last_committed_rounds (observer_start cached_rounds)) = 4%N →
  ds_scoring_subdag (observer_start cached_rounds) = ScoringSubdag_new →
  ds_highest_accepted_round (observer_start cached_rounds) = 0%N →
  fresh_dag committee_4 sample_network observer_genesis (observer_context cached_rounds) (observer_start cached_rounds).
Proof.
  intros Hr Hg Hctx Hc Hs Hl Hlen Hsc Hh. destruct (observer_start_eval cached_rounds Hr) as (_ & Hok & Hacc).
  split; [|done|done|done|done|done|done]. split; [done|done|by rewrite Hg|]. rewrite Hacc. apply map_empty_subseteq.
Qed.

Lemma observer_fresh_2 : fresh_dag committee_4 sample_network observer_genesis (observer_context 2) (observer_start 2).
Proof. apply observer_fresh; vm_compute; reflexivity. Qed.

Lemma observer_fresh_3 : fresh_dag committee_4 sample_network observer_genesis (observer_context 3) (observer_start 3).
Proof. apply observer_fresh; vm_compute; reflexivity. Qed.

Lemma sample_blocks_in b : b ∈ sample_blocks_1 ∨ b ∈ sample_blocks_2 → sample_network !! reference b = Some b.
Proof.
  assert (Forall (λ b, sample_network !! reference b = Some b) (sample_blocks_1 ++ sample_blocks_2)) as Hall
    by (vm_compute; repeat constructor).
  rewrite Forall_forall in Hall. intros Hb. by apply Hall, elem_of_app.
Qed.

Lemma observer_ops_ok : Forall (op_ok committee_4 sample_network) observer_ops_1 ∧ Forall (op_ok committee_4 sample_network) observer_ops_2.
Proof.
  split.
  - repeat constructor; intros b Hb; apply sample_blocks_in; left; rewrite <- (take_drop 20 sample_blocks_1); apply elem_of_app; auto.
  - apply Forall_app. split.
    + apply Forall_forall. intros op (b & Hop & Hb%elem_of_reverse)%list_elem_of_bind.
      apply elem_of_cons in Hop as [->| ->%list_elem_of_singleton]; [|done].
      intros b' ->%list_elem_of_singleton. apply sample_blocks_in. by right.
    + constructor; [|constructor]. by intros r ->%list_elem_of_singleton.
Qed.

Lemma sent_rounds_eval : sent_rounds observer_run_1 = [1; 3; 4]%N ∧ sent_rounds observer_run_2 = [1]%N.
Proof. split; vm_compute; reflexivity. Qed.


